(* ===== verification/_CoqProject ===== *)
-Q . S2P
Prelude.v
Roaring.v
Cache.v
Common.v
Float.v
Schema.v
Bsi.v
BsiSpec.v
BsiRank.v
BsiUpdate.v
BsiIndex.v
BsiTheorems.v
BsiValues.v
BsiWitness.v
Fields.v
FieldsSpec.v
FieldsPersist.v
IdMapping.v
Table.v
TableSpec.v
Query.v
QuerySpec.v
TableCreation.v
Db.v
DbSpec.v
Instances.v
DbWitness.v
DagGraph.v
DagGraphSpec.v
DagData.v
DagDataSpec.v
DagInject.v
DagInjectSpec.v
DagExec.v
DagExecSpec.v
DagRuns.v
DagProperties.v
DagWitness.v
DagParams.v
DagCluster.v
DagClusterSpec.v
DagDataWitness.v
RdictHash.v
RdictTable.v
RdictData.v
Rdict.v
RdictSpec.v
RdictTheorems.v
RdictKinds.v
RdictOpen.v
RdictWitness.v
Ssexpr.v
SsexprSpec.v
MraftIobuf.v
MraftOs.v
MraftEntry.v
MraftPb.v
MraftSegment.v
MraftSegmentSpec.v
MraftRecovery.v
MraftLog.v
MraftNames.v
MraftStore.v
MraftAppend.v
MraftInit.v
MraftTruncate.v
MraftSuffix.v
MraftFrame.v
MraftTheorems.v
MraftWitness.v
MraftServer.v
MraftCluster.v
MraftServerTheorems.v
MraftStart.v
MraftStartSpec.v
MraftSnapshot.v
MraftSnapshotSpec.v
MraftTransfer.v
MraftSnapshotTheorems.v
MraftServerWitness.v
