(* ===== verification/Prelude.v ===== *)
(** * A verified model of myctk

    myctk is a collection of C++ components for online services.  This library
    models those that have core logic of their own and proves what makes them
    correct: robims, an index of bitmaps with a query language; didagle, a
    runtime for dataflow graphs; rdict, a dictionary in mapped files; mraft, the
    log, the snapshots and the server around a raft library; and ssexpr, a
    language of expressions over structs.

    ** robims (src/robims)

    A database ([Db], robims_db_impl.cpp) holds tables ([Table],
    robims_table.cpp) of fields ([Fields], robims_field*.cpp).  A field keeps
    sets of 32-bit identifiers in bitmaps of CRoaring ([Roaring], a parameter
    with its documented laws) or numbers in a bit-sliced index ([Bsi],
    [BsiIndex], robims_bsi.cpp); the order-preserving keys of floats are in
    [Float].  External identifiers are mapped to local ones by [IdMapping].
    Scratch bitmaps come from [Cache].  Queries are trees ([Query],
    robims_query.cpp) that are resolved and evaluated against a table; the
    Boost.Spirit grammar that parses them is a parameter, as are simdjson, the
    code protoc generates, the hash maps of folly (with an arbitrary order of
    iteration) and its evicting cache.  [Common] has the files, [Schema] the
    messages, [TableCreation] the schema of a table from its description.

    Shown: every history of updates of an index without a top-k limit, of a set
    field or of the identifiers is that of a map ([BsiTheorems], [FieldsSpec],
    [IdMapping]), a document that was put is found by queries ([TableSpec]), the
    scans return exactly the identifiers with the compared numbers ([BsiTheorems], [BsiValues]), the pages of a result are
    exact and a saved database is restored ([DbSpec]), well-typed queries do not
    fail ([QuerySpec]); and exactly what the code does where it departs from
    that.  [Instances] has a concrete function for every parameter, and the files
    ending in Witness apply the theorems to concrete states.

    ** didagle (src/didagle)

    A script is built into a graph ([DagGraph]: graph_vertex.cpp, graph.cpp) and
    run by contexts ([DagExec]: graph_executor.cpp), whose setup may return -1.  A
    run is a sequence of steps of a shared state, one for each access to an atomic
    counter, in any order; the future or coroutine of a processor may fail, and
    then nothing finishes its vertex.  Data flows through contexts that refer to each other ([DagData]:
    graph_processor_api.h) and is injected into the fields of processors
    ([DagInject]: graph_processor_di.cpp); parameters are objects in a store
    ([DagParams]: graph_params.cpp); clusters select the graph of a name and pool
    their contexts, and the manager starts runs ([DagCluster]: graph.cpp).

    Shown: a built graph has exactly the links of its script and no cycle
    ([DagGraphSpec]); its contexts are set up unless a processor refuses or two
    outputs have the same key ([DagRuns]); every schedule runs a vertex at most
    once, after its dependencies, and ends; unless a future fails it is never
    stuck and calls done once, and a future that fails blocks it for ever
    ([DagExecSpec], [DagRuns], [DagProperties]); the results do not depend on the
    schedule and are those of a recursive evaluation ([DagProperties]); searches
    through the contexts end and are exact ([DagDataSpec]); a published output
    reaches the inputs that name it ([DagInjectSpec]); a cluster selects the
    graph with the highest priority ([DagClusterSpec]).

    ** rdict (src/rdict)

    [RdictHash] has the hash functions, [RdictTable] the loops over the array of
    buckets with the order of Robin Hood hashing and their invariant,
    [RdictData] the serializers, the records and the mapped file, and [Rdict] the
    dictionary, written once over the interface [BucketOps] of the two kinds of
    buckets.  [RdictSpec] states what the dictionary needs of them ([Buckets]),
    [RdictKinds] proves it for both, [RdictTheorems] and [RdictOpen] show that a
    dictionary with a load factor below 1 is a finite map from its creation to its
    reopening.

    ** mraft (src/mraft)

    A server of mraft keeps a log, snapshots and meta data in its directory and
    leaves the consensus to a C library, which calls it and which it calls.

    The log is a directory of segments: files of entries with checksums, of which
    one is open for appending, and a meta file with the first index.  [MraftOs]
    has the file system, in which every call takes its answer from a list, so that
    any call may fail or be partial, and the interface [Outside] of folly,
    protobuf, readdir and the container, with its laws; [MraftIobuf] has the
    streams between protobuf and buffers (iobuf.cpp), [MraftPb] messages in files
    (utils.cpp) and the files of a world by their names, [MraftEntry] the coding of
    entries (log_entry.cpp, utils.h), [MraftSegment] the class Segment and
    [MraftLog] the class SegmentLogStorage (segment_log_storage.cpp) with the
    functions that the C library calls (log_storage.cpp).  [MraftStore] states that
    a storage, in memory and on disk, represents a list of entries;
    [MraftSegmentSpec], [MraftRecovery], [MraftNames], [MraftAppend], [MraftInit],
    [MraftTruncate] and [MraftSuffix] carry the proofs.

    Shown: appending adds to the list, reading is exact while the cache agrees with
    the log, the truncations cut the list where they are defined and end, and a
    restart finds a list that is not empty, also after a write that failed half way
    ([MraftTheorems]); loading ends on every file
    ([MraftRecovery]); no operation touches a file outside of the directory,
    whichever calls fail ([MraftFrame]); messages keep their order up to two blocks
    ([MraftIobuf]); and where the code departs from that: truncations that do not
    end or use an invalid iterator, the last index of an empty log, and failures
    after which the log cannot be loaded ([MraftTheorems], [MraftWitness], which
    also has a concrete [Outside]).

    A server (mraft.cpp) is in [MraftServer]: the table of the members, the entries
    that change it, applying the log, and the meta data with term and vote.  What
    an operation asks of the library is the list of events it returns, and what the
    library then does are further calls, so that a history is a sequence of steps
    in any order ([MraftCluster]).  [MraftStart] has Raft::Init with what the
    library and the application do in it as the class [Library]; its laws
    ([LibraryLaws]) are in [MraftStartSpec].  Snapshots (snapshot.cpp) are in
    [MraftSnapshot], over a process with mappings, and the handlers of the server
    that send, store and load them in [MraftTransfer].

    Shown: the founder of a cluster and its followers agree on the members if no
    node joins or is promoted while a removal is pending, and may not otherwise
    ([MraftCluster], [MraftServerWitness]); term and vote are saved, and where they go back
    ([MraftServerTheorems]); a first server can be stopped and started again, and a
    start on saved files finds the log and the members it gives, and writes the
    meta data again when there is a vote ([MraftStartSpec]); a saved snapshot is
    read exactly, but no chunk of it is marked as the last one, and which snapshots
    cannot be opened, loaded or received ([MraftSnapshotSpec],
    [MraftSnapshotTheorems]).

    ** ssexpr (src/ssexpr)

    [Ssexpr] has the tree of an expression, how its names are resolved and how it
    is evaluated (spirit_expression.cpp, spirit_expression.h), and the access to
    members of structs (expr_struct.h).  The grammar, the functions of the
    application and the tables of accessors are parameters.  [SsexprSpec] shows
    that a typed expression is accepted and evaluates to a value of its type, and
    which mistakes in names are not reported.

    ** Conventions

    A C++ integer is a [Z] with the wrap-around of its width written out where it
    can happen; signed overflow, which C++ leaves undefined, also wraps in the
    definitions on values of integer indexes, and the theorems about them exclude
    it.  A pointer to an object that other parts refer to is an address
    or a position in a store.  Errors the code returns are values; [None] as the
    result of an operation says that its behaviour is undefined or that it does
    not return.  Concurrency is a sequence of steps where the code uses atomics;
    locks that only serialise operations are left out.

    Loops that are not structural run on fuel.  The cycle test of a graph has the
    number of vertices, which an acyclic graph never exceeds, and runs out exactly
    when the source recurses for ever; a search through data contexts has the
    number of contexts, because it does not go to one twice; a lookup along the
    parents of parameters has the length of the chain; a search in an array of
    buckets has one round more than there are buckets; a loop over records has
    the number of bytes, because a record has at least eight; loading a segment
    has the size of the file, because an entry has at least a header; writing a
    message has its length.  That the fuel is enough is part of
    the theorems.  The loops over the cache at the end of a truncation of the log
    take the fuel as an argument: it is enough with the length of the cache if the
    loop ends, and no fuel is enough otherwise.

    ** Not modelled

    Logging, tracing events, dumps of graphs in dot format, arenas, and the
    macros that register processors, because they do not affect the results;
    grammars written in Boost.Spirit, protoc's code and third-party libraries,
    which are parameters; the coroutine and future adapters, whose outcome is the
    outcome of a step.  Of mraft the messages between servers, timers,
    threads and the registry of servers, because the consensus they serve is in a C
    library that is not in the repository, the locks and
    reference counts of entries, directories and permissions, and whether written
    data survives a crash of the system (fdatasync); ecache, a facade
    over CacheLib; config, the macros of ssexpr and ssexpr2, reflection by macros
    and generated machine code over third-party parsers; cmod, vendored memory allocation and
    hash maps; ispine, coroutine types. *)

From Stdlib Require Export ZArith Lia Bool.
From stdpp Require Export base list gmap strings sorting.

#[export] Set Warnings "-notation-overridden,-clear-no-such-hyp,-register-all".
Open Scope Z_scope.
#[export] Set Default Goal Selector "!".

(** ** Machine integers

    A C++ integer of width [w] is a [Z]; conversions are written out with the
    wrap-around of the width. *)

Definition u8 (z : Z) : Z := z mod 2 ^ 8.
Definition u32 (z : Z) : Z := z mod 2 ^ 32.
Definition u64 (z : Z) : Z := z mod 2 ^ 64.
Definition i32 (z : Z) : Z := (z + 2 ^ 31) mod 2 ^ 32 - 2 ^ 31.
Definition i64 (z : Z) : Z := (z + 2 ^ 63) mod 2 ^ 64 - 2 ^ 63.

Definition is_u8 (z : Z) : Prop := 0 <= z < 2 ^ 8.
Definition is_u32 (z : Z) : Prop := 0 <= z < 2 ^ 32.
Definition is_u64 (z : Z) : Prop := 0 <= z < 2 ^ 64.
Definition is_i64 (z : Z) : Prop := - 2 ^ 63 <= z < 2 ^ 63.

Definition INT_MAX : Z := 2 ^ 31 - 1.

(** The development's hint database for range side conditions. *)
Create HintDb robims.

Lemma u32_id z : is_u32 z → u32 z = z.
Proof. apply Z.mod_small. Qed.
Lemma u64_id z : is_u64 z → u64 z = z.
Proof. apply Z.mod_small. Qed.
Lemma u8_id z : is_u8 z → u8 z = z.
Proof. apply Z.mod_small. Qed.
Lemma u32_range z : is_u32 (u32 z).
Proof. apply Z.mod_pos_bound. lia. Qed.
Lemma u64_range z : is_u64 (u64 z).
Proof. apply Z.mod_pos_bound. lia. Qed.
Lemma u8_range z : is_u8 (u8 z).
Proof. apply Z.mod_pos_bound. lia. Qed.
Lemma i64_range z : is_i64 (i64 z).
Proof.
  unfold i64, is_i64.
  pose proof (Z.mod_pos_bound (z + 2 ^ 63) (2 ^ 64)). lia.
Qed.
Lemma i64_id z : is_i64 z → i64 z = z.
Proof. unfold is_i64, i64. intros ?. rewrite Z.mod_small; lia. Qed.
Lemma i32_id z : - 2 ^ 31 <= z < 2 ^ 31 → i32 z = z.
Proof. unfold i32. intros ?. rewrite Z.mod_small; lia. Qed.

(** Conversions between the signed and unsigned readings of 64 bits cancel. *)
Lemma i64_u64 z : i64 (u64 z) = i64 z.
Proof. unfold i64, u64. by rewrite Zplus_mod_idemp_l. Qed.

Lemma i64_add_u64 a b : i64 (u64 a + b) = i64 (a + b).
Proof.
  unfold i64, u64. rewrite <-!Z.add_assoc, Zplus_mod_idemp_l. done.
Qed.

Lemma u32_i32 z : u32 (i32 z) = u32 z.
Proof.
  unfold i32, u32. rewrite Zminus_mod_idemp_l. f_equal. lia.
Qed.

#[export] Hint Resolve u8_range u32_range u64_range i64_range : robims.

(** ** Prefixes of a bit pattern

    [hi n x] is what is left of [x] once its [n] low bits are shifted out.  A
    loop that reads a value from its most significant bit down knows
    [hi (S i)] and learns [hi i] from the next bit. *)

Definition hi (n : nat) (x : Z) : Z := Z.shiftr x (Z.of_nat n).

Lemma hi_0 x : hi 0 x = x.
Proof. apply Z.shiftr_0_r. Qed.

Lemma hi_div n x : hi n x = x / 2 ^ Z.of_nat n.
Proof. apply Z.shiftr_div_pow2. lia. Qed.

Lemma hi_step i x :
  hi i x = 2 * hi (S i) x + Z.b2z (Z.testbit x (Z.of_nat i)).
Proof.
  rewrite Z.testbit_spec', !hi_div by lia.
  rewrite Nat2Z.inj_succ, <-Z.add_1_r, Z.pow_add_r by lia.
  rewrite <-Z.div_div by lia. change (2 ^ 1) with 2.
  apply Z.div_mod. lia.
Qed.

Lemma hi_small n x : 0 <= x < 2 ^ Z.of_nat n → hi n x = 0.
Proof. intros. rewrite hi_div. by apply Z.div_small. Qed.

Lemma hi_nonneg n x : 0 <= x → 0 <= hi n x.
Proof. intros. rewrite hi_div. apply Z.div_pos; lia. Qed.

Lemma hi_mono n x y : x <= y → hi n x <= hi n y.
Proof. intros. rewrite !hi_div. apply Z.div_le_mono; lia. Qed.

Lemma hi_lt_inv n x y : hi n x < hi n y → x < y.
Proof. intros. destruct (decide (x < y)); [done|]. pose proof (hi_mono n y x). lia. Qed.

Lemma hi_lt_step i x y : hi (S i) x < hi (S i) y → hi i x < hi i y.
Proof.
  rewrite (hi_step i x), (hi_step i y).
  destruct (Z.testbit x _), (Z.testbit y _); simpl; lia.
Qed.

(** Reading bit [i] the way the source does, [(v >> i) & 1]. *)
Lemma land_shiftr_1 v i : 0 <= i → Z.land (Z.shiftr v i) 1 = Z.b2z (Z.testbit v i).
Proof.
  intros. change 1 with (Z.ones 1). rewrite Z.land_ones by lia.
  change (2 ^ 1) with 2. by rewrite Z.testbit_spec', Z.shiftr_div_pow2 by lia.
Qed.

(** Testing bit [i] the way the source does, [v & (1ull << i)]. *)
Lemma land_shiftl_1 v i :
  0 <= i → (Z.land v (Z.shiftl 1 i) =? 0) = negb (Z.testbit v i).
Proof.
  intros Hi. destruct (Z.testbit v i) eqn:E; simpl.
  - apply Z.eqb_neq. intros H0.
    assert (Z.testbit (Z.land v (Z.shiftl 1 i)) i = false) as H1 by (rewrite H0; apply Z.bits_0).
    rewrite Z.land_spec, E, Z.shiftl_spec, Z.sub_diag in H1 by lia. done.
  - apply Z.eqb_eq. apply Z.bits_inj'. intros n Hn.
    rewrite Z.land_spec, Z.bits_0, Z.shiftl_1_l.
    rewrite Z.pow2_bits_eqb by lia. destruct (Z.eqb_spec i n); [subst; by rewrite E|].
    by rewrite andb_false_r.
Qed.

(** ** Numbers assembled from bits *)

Fixpoint bits_value (f : nat → bool) (n : nat) : Z :=
  match n with
  | O => 0
  | S i => bits_value f i + Z.b2z (f i) * 2 ^ Z.of_nat i
  end.

Lemma bits_value_range f n : 0 <= bits_value f n < 2 ^ Z.of_nat n.
Proof.
  induction n as [|n IH]; simpl; [lia|].
  rewrite Nat2Z.inj_succ, Z.pow_succ_r by lia.
  destruct (f n); simpl; lia.
Qed.

Lemma bits_value_testbit f n i :
  Z.testbit (bits_value f n) (Z.of_nat i) = (i <? n)%nat && f i.
Proof.
  induction n as [|n IH]; simpl; [by rewrite Z.testbit_0_l|].
  pose proof (bits_value_range f n) as Hr.
  destruct (Nat.ltb_spec i (S n)) as [Hi|Hi]; simpl.
  - destruct (decide (i = n)) as [->|Hne].
    + assert (hi n (bits_value f n) = 0) as H0 by (apply hi_small; lia).
      rewrite Z.add_comm, Z.testbit_eqb by lia.
      rewrite Z.div_add_l by lia. rewrite <-hi_div, H0.
      by destruct (f n).
    + rewrite <-(Z.mod_pow2_bits_low _ (Z.of_nat n)) by lia.
      rewrite Z_mod_plus_full, Z.mod_small by lia. rewrite IH.
      destruct (Nat.ltb_spec i n); [done|lia].
  - rewrite (Z.bits_above_log2); [done| |].
    + destruct (f n); simpl; lia.
    + destruct (decide (bits_value f n + Z.b2z (f n) * 2 ^ Z.of_nat n = 0)) as [->|].
      { simpl. lia. }
      apply Z.log2_lt_pow2; [destruct (f n); simpl in *; lia|].
      assert (2 ^ Z.of_nat (S n) <= 2 ^ Z.of_nat i) by (apply Z.pow_le_mono_r; lia).
      rewrite Nat2Z.inj_succ, Z.pow_succ_r in * by lia. destruct (f n); simpl in *; lia.
Qed.

Lemma bits_value_ext f g n :
  (∀ i, (i < n)%nat → f i = g i) → bits_value f n = bits_value g n.
Proof.
  intros H. induction n as [|n IH]; simpl; [done|].
  rewrite IH by (intros; apply H; lia). by rewrite H by lia.
Qed.

Lemma testbit_high x n i :
  0 <= x < 2 ^ Z.of_nat n → (n <= i)%nat → Z.testbit x (Z.of_nat i) = false.
Proof.
  intros Hx Hi. rewrite <-(Z.mod_small x (2 ^ Z.of_nat n)) by lia.
  apply Z.mod_pow2_bits_high. lia.
Qed.

(** Reassembling the low [n] bits of [v] gives [v] modulo [2 ^ n]. *)
Lemma bits_value_of_testbit v n :
  bits_value (λ i, Z.testbit v (Z.of_nat i)) n = v mod 2 ^ Z.of_nat n.
Proof.
  apply Z.bits_inj'. intros k Hk. rewrite <-(Z2Nat.id k) by lia.
  rewrite bits_value_testbit.
  destruct (Nat.ltb_spec (Z.to_nat k) n); simpl.
  - rewrite Z.mod_pow2_bits_low by lia. done.
  - rewrite Z.mod_pow2_bits_high by lia. done.
Qed.

(** Two numbers below [2 ^ n] with the same [n] low bits are equal. *)
Lemma bits_inj_lt n x y :
  0 <= x < 2 ^ Z.of_nat n → 0 <= y < 2 ^ Z.of_nat n →
  (∀ i, (i < n)%nat → Z.testbit x (Z.of_nat i) = Z.testbit y (Z.of_nat i)) → x = y.
Proof.
  intros Hx Hy H.
  rewrite <-(Z.mod_small x (2 ^ Z.of_nat n)), <-(Z.mod_small y (2 ^ Z.of_nat n)) by lia.
  rewrite <-!bits_value_of_testbit. by apply bits_value_ext.
Qed.

(** ** Sorted lists of identifiers *)

Definition ascending (l : list Z) : Prop := StronglySorted Z.lt l.

Lemma ascending_NoDup l : ascending l → NoDup l.
Proof.
  induction 1 as [|x l Hs IH Hf]; constructor; [|done].
  intros Hin. rewrite Forall_forall in Hf. specialize (Hf _ Hin). lia.
Qed.

(** Ascending lists with the same elements are equal. *)
Lemma ascending_ext l1 l2 :
  ascending l1 → ascending l2 → (∀ x, x ∈ l1 ↔ x ∈ l2) → l1 = l2.
Proof.
  intros H1. revert l2. induction H1 as [|x l1 Hs IH Hf]; intros l2 H2 Hext.
  - destruct l2 as [|y l2]; [done|]. destruct (Hext y) as [_ H].
    exfalso. eapply not_elem_of_nil. apply H. left.
  - destruct H2 as [|y l2 Hs2 Hf2].
    { exfalso. eapply not_elem_of_nil. apply (Hext x). left. }
    rewrite Forall_forall in Hf, Hf2.
    assert (x = y) as ->.
    { assert (x ∈ y :: l2) as Hx by (apply Hext; left).
      assert (y ∈ x :: l1) as Hy by (apply Hext; left).
      apply elem_of_cons in Hx as [|Hx]; [done|].
      apply elem_of_cons in Hy as [|Hy]; [done|].
      specialize (Hf _ Hy). specialize (Hf2 _ Hx). lia. }
    f_equal. apply IH; [done|]. intros z. specialize (Hext z).
    rewrite !elem_of_cons in Hext. split; intros Hz.
    + specialize (Hf _ Hz). destruct (proj1 Hext (or_intror Hz)); [lia|done].
    + specialize (Hf2 _ Hz). destruct (proj2 Hext (or_intror Hz)); [lia|done].
Qed.

(** ** Bytes

    A byte is a [Z] below 256; [le_bytes n z] is the memory image of an [n]-byte
    integer on the little-endian targets the code is built for. *)

Fixpoint le_bytes (n : nat) (z : Z) : list Z :=
  match n with
  | O => []
  | S n => z mod 256 :: le_bytes n (z / 256)
  end.

Definition le_value (l : list Z) : Z := foldr (λ b acc, b + 256 * acc) 0 l.

Lemma le_bytes_length n z : length (le_bytes n z) = n.
Proof. revert z. induction n; intros; simpl; auto. Qed.

Lemma le_bytes_byte n z : Forall is_u8 (le_bytes n z).
Proof.
  revert z. induction n as [|n IH]; intros; simpl; constructor; [|done].
  apply Z.mod_pos_bound. lia.
Qed.

Lemma le_value_bytes n z : le_value (le_bytes n z) = z mod 256 ^ Z.of_nat n.
Proof.
  revert z. induction n as [|n IH]; intros z; simpl; [by rewrite Z.mod_1_r|].
  rewrite IH, Nat2Z.inj_succ, Z.pow_succ_r by lia.
  rewrite Z.rem_mul_r by lia. done.
Qed.

Lemma le_bytes_value l : Forall is_u8 l → le_bytes (length l) (le_value l) = l.
Proof.
  induction 1 as [|b l Hb Hl IH]; simpl; [done|].
  unfold is_u8 in Hb. change (2 ^ 8) with 256 in Hb.
  rewrite Z.mul_comm, Z_mod_plus_full, Z.mod_small by lia.
  rewrite Z.div_add, Z.div_small, Z.add_0_l by lia. by rewrite IH.
Qed.

Lemma le_value_range l : Forall is_u8 l → 0 <= le_value l < 256 ^ Z.of_nat (length l).
Proof.
  induction 1 as [|b l Hb Hl IH]; simpl; [lia|].
  unfold is_u8 in Hb. change (2 ^ 8) with 256 in Hb.
  rewrite Nat2Z.inj_succ, Z.pow_succ_r by lia. lia.
Qed.

(** The bytes of a string literal. *)
Definition str (s : string) : list Z :=
  (λ a, Z.of_N (Ascii.N_of_ascii a)) <$> String.list_ascii_of_string s.

(** ** Filling a map from a list *)

Section insert_all.
Context {K A : Type} `{Countable K} (key : A → K).

Definition insert_all (m : gmap K A) (l : list A) : gmap K A :=
  foldl (λ m a, <[key a := a]> m) m l.

Lemma insert_all_other m l k : k ∉ key <$> l → insert_all m l !! k = m !! k.
Proof.
  revert m. induction l as [|a l IH]; intros m; [done|].
  rewrite fmap_cons, not_elem_of_cons. intros [Hk Hl].
  change (insert_all m (a :: l)) with (insert_all (<[key a := a]> m) l).
  by rewrite IH, lookup_insert_ne by done.
Qed.

Lemma insert_all_elem m l a : NoDup (key <$> l) → a ∈ l → insert_all m l !! key a = Some a.
Proof.
  revert m. induction l as [|a' l IH]; intros m; [by intros _ ?%elem_of_nil|].
  rewrite fmap_cons, NoDup_cons, elem_of_cons. intros [Hn Hd] [->|Ha].
  - change (insert_all m (a' :: l)) with (insert_all (<[key a' := a']> m) l).
    by rewrite insert_all_other, lookup_insert_eq.
  - by apply IH.
Qed.
End insert_all.

(** ** Tactics *)

(** Splits every boolean comparison and boolean variable the goal tests, then
    calls [lia]. *)
Ltac bool_lia :=
  repeat match goal with
  | |- context [Z.eqb ?a ?b] => destruct (Z.eqb_spec a b)
  | |- context [Z.ltb ?a ?b] => destruct (Z.ltb_spec a b)
  | |- context [Z.leb ?a ?b] => destruct (Z.leb_spec a b)
  end; simpl in *; try lia; try done.

Ltac destruct_bools :=
  repeat match goal with
  | |- context [?b && _] => is_var b; destruct b
  | |- context [?b || _] => is_var b; destruct b
  | |- context [negb ?b] => is_var b; destruct b
  end.
