(* ===== verification/Roaring.v ===== *)
(** * Roaring: the interface of the CRoaring bitmaps

    robims stores sets of 32-bit identifiers in bitmaps of the CRoaring
    library, which is not part of the repository.  [RoaringOps] lists the
    library's functions the sources call, with the in-place operations as
    functions from the old value of the first argument to its new one, and
    [Roaring] states what the library documents about them.  Every component
    that uses bitmaps is written and proved against this interface.
    [gset_roaring] is an executable instance, so that the interface is known to
    have a model and the witnesses can be evaluated. *)

From S2P Require Import Prelude.

Class RoaringOps (B : Type) := {
  roaring_bitmap_create : B;
  roaring_bitmap_contains : B → Z → bool;
  roaring_bitmap_add : B → Z → B;
  roaring_bitmap_add_checked : B → Z → bool * B;
  roaring_bitmap_remove : B → Z → B;
  roaring_bitmap_remove_checked : B → Z → bool * B;
  roaring_bitmap_clear : B → B;
  roaring_bitmap_overwrite : B → B → B;
  roaring_bitmap_and_inplace : B → B → B;
  roaring_bitmap_or_inplace : B → B → B;
  roaring_bitmap_xor_inplace : B → B → B;
  roaring_bitmap_andnot_inplace : B → B → B;
  roaring_bitmap_is_empty : B → bool;
  roaring_bitmap_get_cardinality : B → Z;
  roaring_bitmap_to_uint32_array : B → list Z;
  roaring_bitmap_range_uint32_array : B → nat → nat → list Z;
  roaring_bitmap_run_optimize : B → B;
  roaring_bitmap_shrink_to_fit : B → B;
  roaring_bitmap_serialize : B → list Z;
  roaring_bitmap_deserialize : list Z → option B;
  roaring_bitmap_frozen_serialize : B → list Z;
  roaring_bitmap_frozen_view : list Z → option B;
}.

Declare Scope robims_scope.
Delimit Scope robims_scope with robims.
Notation "b .[ id ]" := (roaring_bitmap_contains b id)
  (at level 1, left associativity, format "b .[ id ]") : robims_scope.
Open Scope robims_scope.

(** A bitmap holds 32-bit identifiers only. *)
Definition u32_bitmap `{RoaringOps B} (b : B) : Prop :=
  ∀ id, b.[id] = true → is_u32 id.

(** What a codec of bitmaps promises: a non-empty image from which an equal
    set is read back. *)
Definition bitmap_codec `{RoaringOps B} (enc : B → list Z) (dec : list Z → option B) : Prop :=
  ∀ b, u32_bitmap b →
    enc b ≠ [] ∧ Forall is_u8 (enc b) ∧
    ∃ b', dec (enc b) = Some b' ∧ ∀ id, b'.[id] = b.[id].

Class Roaring (B : Type) `{!RoaringOps B} : Prop := {
  contains_create id : roaring_bitmap_create.[id] = false;
  contains_add b x id : (roaring_bitmap_add b x).[id] = (x =? id) || b.[id];
  add_checked_spec b x :
    roaring_bitmap_add_checked b x = (negb b.[x], roaring_bitmap_add b x);
  contains_remove b x id : (roaring_bitmap_remove b x).[id] = negb (x =? id) && b.[id];
  remove_checked_spec b x :
    roaring_bitmap_remove_checked b x = (b.[x], roaring_bitmap_remove b x);
  contains_clear b id : (roaring_bitmap_clear b).[id] = false;
  contains_overwrite a b id : (roaring_bitmap_overwrite a b).[id] = b.[id];
  contains_and a b id : (roaring_bitmap_and_inplace a b).[id] = a.[id] && b.[id];
  contains_or a b id : (roaring_bitmap_or_inplace a b).[id] = a.[id] || b.[id];
  contains_xor a b id : (roaring_bitmap_xor_inplace a b).[id] = xorb a.[id] b.[id];
  contains_andnot a b id : (roaring_bitmap_andnot_inplace a b).[id] = a.[id] && negb b.[id];
  to_array_spec b id : id ∈ roaring_bitmap_to_uint32_array b ↔ b.[id] = true;
  to_array_ascending b : ascending (roaring_bitmap_to_uint32_array b);
  cardinality_spec b :
    roaring_bitmap_get_cardinality b = Z.of_nat (length (roaring_bitmap_to_uint32_array b));
  is_empty_spec b : roaring_bitmap_is_empty b = (roaring_bitmap_get_cardinality b =? 0);
  range_array_spec b offset limit :
    roaring_bitmap_range_uint32_array b offset limit
    = take limit (drop offset (roaring_bitmap_to_uint32_array b));
  contains_run_optimize b id : (roaring_bitmap_run_optimize b).[id] = b.[id];
  contains_shrink_to_fit b id : (roaring_bitmap_shrink_to_fit b).[id] = b.[id];
  serialize_codec : bitmap_codec roaring_bitmap_serialize roaring_bitmap_deserialize;
  frozen_codec : bitmap_codec roaring_bitmap_frozen_serialize roaring_bitmap_frozen_view;
}.

Create Rewrite HintDb bitmap.
#[export] Hint Rewrite @contains_create @contains_add @contains_remove @contains_clear
  @contains_overwrite @contains_and @contains_or @contains_xor @contains_andnot
  @contains_run_optimize @contains_shrink_to_fit using (typeclasses eauto) : bitmap.

(** ** Equality of bitmaps as sets

    Two bitmaps with different container layouts may hold the same set, so the
    components' results are compared with [≡]. *)

Section equivalence.
Context `{Roaring B}.

#[global] Instance bitmap_equiv : Equiv B := λ a b, ∀ id, a.[id] = b.[id].

#[global] Instance bitmap_equivalence : Equivalence (≡@{B}).
Proof.
  split; [by intros a id|by intros a b Hab id|].
  intros a b c Hab Hbc id. by rewrite (Hab id).
Qed.

#[global] Instance contains_proper :
  Proper ((≡@{B}) ==> (=) ==> (=)) roaring_bitmap_contains.
Proof. intros a b Hab x ? <-. apply Hab. Qed.

#[global] Instance add_proper : Proper ((≡@{B}) ==> (=) ==> (≡)) roaring_bitmap_add.
Proof. intros a b Hab x ? <- id. rewrite !contains_add. by rewrite (Hab id). Qed.

#[global] Instance remove_proper : Proper ((≡@{B}) ==> (=) ==> (≡)) roaring_bitmap_remove.
Proof. intros a b Hab x ? <- id. rewrite !contains_remove. by rewrite (Hab id). Qed.

#[global] Instance and_proper :
  Proper ((≡@{B}) ==> (≡) ==> (≡)) roaring_bitmap_and_inplace.
Proof. intros a b Hab c d Hcd id. rewrite !contains_and. by rewrite (Hab id), (Hcd id). Qed.

#[global] Instance or_proper :
  Proper ((≡@{B}) ==> (≡) ==> (≡)) roaring_bitmap_or_inplace.
Proof. intros a b Hab c d Hcd id. rewrite !contains_or. by rewrite (Hab id), (Hcd id). Qed.

#[global] Instance andnot_proper :
  Proper ((≡@{B}) ==> (≡) ==> (≡)) roaring_bitmap_andnot_inplace.
Proof. intros a b Hab c d Hcd id. rewrite !contains_andnot. by rewrite (Hab id), (Hcd id). Qed.

(** The array of identifiers is a canonical form. *)
#[global] Instance to_array_proper :
  Proper ((≡@{B}) ==> (=)) roaring_bitmap_to_uint32_array.
Proof.
  intros a b Hab. apply ascending_ext; [apply to_array_ascending..|].
  intros x. rewrite !to_array_spec. by rewrite (Hab x).
Qed.

#[global] Instance cardinality_proper :
  Proper ((≡@{B}) ==> (=)) roaring_bitmap_get_cardinality.
Proof. intros a b Hab. rewrite !cardinality_spec. by rewrite Hab. Qed.

#[global] Instance is_empty_proper : Proper ((≡@{B}) ==> (=)) roaring_bitmap_is_empty.
Proof. intros a b Hab. rewrite !is_empty_spec. by rewrite Hab. Qed.

Implicit Types b : B.

Lemma cardinality_nonneg b : 0 <= roaring_bitmap_get_cardinality b.
Proof. rewrite cardinality_spec. lia. Qed.

Lemma cardinality_0 b :
  roaring_bitmap_get_cardinality b = 0 ↔ ∀ id, b.[id] = false.
Proof.
  rewrite cardinality_spec. pose proof (to_array_spec b) as Hs.
  destruct (roaring_bitmap_to_uint32_array b) as [|x l]; simpl.
  - split; [|done]. intros _ id. destruct b.[id] eqn:E; [|done].
    apply Hs in E. by apply elem_of_nil in E.
  - split; [lia|]. intros Hf. specialize (Hs x). rewrite Hf in Hs.
    assert (false = true) by (apply Hs; left). done.
Qed.

Lemma cardinality_pos b id : b.[id] = true → 0 < roaring_bitmap_get_cardinality b.
Proof.
  intros Hid. pose proof (cardinality_nonneg b).
  destruct (decide (roaring_bitmap_get_cardinality b = 0)) as [E|]; [|lia].
  rewrite cardinality_0 in E. by rewrite E in Hid.
Qed.

Lemma cardinality_pos_inv b :
  0 < roaring_bitmap_get_cardinality b → ∃ id, b.[id] = true.
Proof.
  rewrite cardinality_spec. pose proof (to_array_spec b) as Hs.
  destruct (roaring_bitmap_to_uint32_array b) as [|x l]; simpl; [lia|].
  intros _. exists x. apply Hs. left.
Qed.

Lemma is_empty_true b : roaring_bitmap_is_empty b = true ↔ ∀ id, b.[id] = false.
Proof. rewrite is_empty_spec, Z.eqb_eq. apply cardinality_0. Qed.

Lemma is_empty_create : roaring_bitmap_is_empty (B:=B) roaring_bitmap_create = true.
Proof. apply is_empty_true. apply contains_create. Qed.

(** A subset has at most as many elements, and fewer when it is proper. *)
Lemma cardinality_mono a b :
  (∀ id, a.[id] = true → b.[id] = true) →
  roaring_bitmap_get_cardinality a <= roaring_bitmap_get_cardinality b.
Proof.
  intros Hsub. rewrite !cardinality_spec. apply inj_le.
  apply submseteq_length, NoDup_submseteq; [apply ascending_NoDup, to_array_ascending|].
  intros x. rewrite !to_array_spec. apply Hsub.
Qed.

(** Disjoint unions add up. *)
Lemma cardinality_split a b c :
  (∀ id, c.[id] = a.[id] || b.[id]) → (∀ id, a.[id] && b.[id] = false) →
  roaring_bitmap_get_cardinality c
  = roaring_bitmap_get_cardinality a + roaring_bitmap_get_cardinality b.
Proof.
  intros Hor Hdisj. rewrite !cardinality_spec, <-Nat2Z.inj_add, <-length_app.
  f_equal. apply Permutation_length, NoDup_Permutation.
  - apply ascending_NoDup, to_array_ascending.
  - apply NoDup_app. split_and!;
      [apply ascending_NoDup, to_array_ascending| |
       apply ascending_NoDup, to_array_ascending].
    intros x. rewrite !to_array_spec. intros Ha Hb.
    specialize (Hdisj x). by rewrite Ha, Hb in Hdisj.
  - intros x. rewrite elem_of_app, !to_array_spec, Hor, orb_true_iff. done.
Qed.
End equivalence.

(** ** An executable instance: finite sets of integers *)

Definition gset_array (s : gset Z) : list Z := merge_sort Z.le (elements s).

Definition gset_encode (cookie : Z) (s : gset Z) : list Z :=
  cookie :: concat (le_bytes 4 <$> gset_array s).

Fixpoint decode_ids (fuel : nat) (l : list Z) : list Z :=
  match fuel, l with
  | S fuel, _ :: _ => le_value (take 4 l) :: decode_ids fuel (drop 4 l)
  | _, _ => []
  end.

Definition gset_decode (cookie : Z) (l : list Z) : option (gset Z) :=
  match l with
  | c :: l => if c =? cookie then Some (list_to_set (decode_ids (length l) l)) else None
  | [] => None
  end.

#[export] Instance gset_roaring_ops : RoaringOps (gset Z) := {
  roaring_bitmap_create := ∅;
  roaring_bitmap_contains b id := bool_decide (id ∈ b);
  roaring_bitmap_add b id := {[id]} ∪ b;
  roaring_bitmap_add_checked b id := (negb (bool_decide (id ∈ b)), {[id]} ∪ b);
  roaring_bitmap_remove b id := b ∖ {[id]};
  roaring_bitmap_remove_checked b id := (bool_decide (id ∈ b), b ∖ {[id]});
  roaring_bitmap_clear _ := ∅;
  roaring_bitmap_overwrite _ b := b;
  roaring_bitmap_and_inplace a b := a ∩ b;
  roaring_bitmap_or_inplace a b := a ∪ b;
  roaring_bitmap_xor_inplace a b := (a ∖ b) ∪ (b ∖ a);
  roaring_bitmap_andnot_inplace a b := a ∖ b;
  roaring_bitmap_is_empty b := bool_decide (b = ∅);
  roaring_bitmap_get_cardinality b := Z.of_nat (size b);
  roaring_bitmap_to_uint32_array := gset_array;
  roaring_bitmap_range_uint32_array b offset limit := take limit (drop offset (gset_array b));
  roaring_bitmap_run_optimize b := b;
  roaring_bitmap_shrink_to_fit b := b;
  roaring_bitmap_serialize := gset_encode 1;
  roaring_bitmap_deserialize := gset_decode 1;
  roaring_bitmap_frozen_serialize := gset_encode 2;
  roaring_bitmap_frozen_view := gset_decode 2;
}.

Lemma gset_array_elem s id : id ∈ gset_array s ↔ id ∈ s.
Proof. unfold gset_array. by rewrite merge_sort_Permutation, elem_of_elements. Qed.

Lemma gset_array_ascending s : ascending (gset_array s).
Proof.
  assert (StronglySorted Z.le (gset_array s)) as Hs by (apply StronglySorted_merge_sort; apply _).
  assert (NoDup (gset_array s)) as Hn
    by (unfold gset_array; rewrite merge_sort_Permutation; apply NoDup_elements).
  induction Hs as [|x l Hs IH Hf]; [constructor|].
  apply NoDup_cons in Hn as [Hx Hn]. constructor; [by apply IH|].
  rewrite Forall_forall in *. intros y Hy. specialize (Hf y Hy).
  assert (x ≠ y) by (by intros ->). lia.
Qed.

Lemma gset_array_length s : length (gset_array s) = size s.
Proof. unfold gset_array. by rewrite merge_sort_Permutation. Qed.

Lemma decode_encode_ids l fuel :
  Forall is_u32 l → (length l <= fuel)%nat → decode_ids fuel (concat (le_bytes 4 <$> l)) = l.
Proof.
  intros Hl. revert fuel. induction Hl as [|x l Hx Hl IH]; intros fuel Hf.
  { by destruct fuel. }
  destruct fuel as [|fuel]; simpl in Hf; [lia|].
  rewrite fmap_cons. set (rest := le_bytes 4 <$> l) in *.
  change (concat (le_bytes 4 x :: rest)) with (le_bytes 4 x ++ concat rest).
  pose proof (le_bytes_length 4 x) as Hlen.
  pose proof (take_app_length' _ (concat rest) _ (eq_sym Hlen)) as Ht.
  pose proof (drop_app_length' _ (concat rest) _ (eq_sym Hlen)) as Hd.
  cbn [decode_ids]. destruct (le_bytes 4 x ++ concat rest) as [|c tl] eqn:E; [done|].
  rewrite Ht, Hd, le_value_bytes. unfold rest. rewrite IH by lia.
  f_equal. by apply Z.mod_small.
Qed.

Lemma gset_codec cookie :
  is_u8 cookie → bitmap_codec (gset_encode cookie) (gset_decode cookie).
Proof.
  intros Hc b Hb. split_and!; [done| |].
  - constructor; [done|]. apply Forall_concat, Forall_fmap, Forall_forall.
    intros x _. apply le_bytes_byte.
  - assert (Forall is_u32 (gset_array b)) as Hu.
    { apply Forall_forall. intros x Hx. apply Hb.
      apply bool_decide_eq_true. by apply gset_array_elem. }
    eexists. split.
    + unfold gset_decode, gset_encode. rewrite Z.eqb_refl, decode_encode_ids; [done|done|].
      clear. induction (gset_array b) as [|x l IH]; [simpl; lia|].
      rewrite fmap_cons. cbn [concat length].
      rewrite length_app, (le_bytes_length 4 x). lia.
    + intros id. simpl. apply bool_decide_ext.
      by rewrite elem_of_list_to_set, gset_array_elem.
Qed.

#[export] Instance gset_roaring : Roaring (gset Z).
Proof.
  split; simpl; intros; try done.
  all: try (apply gset_array_elem || (rewrite gset_array_elem, bool_decide_eq_true; done)
            || apply gset_array_ascending || (apply gset_codec; unfold is_u8; lia)).
  all: try (by rewrite gset_array_length).
  all: try (repeat case_bool_decide; bool_lia; set_solver).
  case_bool_decide as Hb; symmetry; [subst; by rewrite size_empty|].
  apply Z.eqb_neq. intros H0. apply Hb, leibniz_equiv, size_empty_inv. lia.
Qed.
