(* ===== verification/Cache.v ===== *)
(** * Cache: the pool of scratch bitmaps (robims_cache.cpp, robims_cache.h)

    Queries and index scans take scratch bitmaps from a global pool and give
    them back through [BitMapCacheGuard].  The pool is a queue of the
    moodycamel library, a parameter here ([QueueOps], [Queue]).  [pool_step]
    is the state machine of the pool and of the bitmaps its clients hold;
    [Scratch] is what the pool promises to the bit-sliced index: an acquired
    bitmap is empty. *)

From S2P Require Import Prelude Roaring.

(** The queue: [try_dequeue] may fail on a non-empty queue, and may return any
    element. *)
Class QueueOps (B : Type) := {
  try_dequeue : list B → option (B * list B);
  enqueue : list B → B → list B;
}.

Class Queue (B : Type) `{!QueueOps B} : Prop := {
  try_dequeue_spec q b q' : try_dequeue q = Some (b, q') → q ≡ₚ b :: q';
  enqueue_spec q b : enqueue q b ≡ₚ b :: q;
}.

(** The interface of the pool to its clients. [acquire n] is the bitmap the
    [n]-th acquisition of the calling function returned. *)
Class Scratch (B : Type) `{!RoaringOps B} := {
  acquire : nat → B;
  acquire_empty n id : (acquire n).[id] = false;
}.

#[export] Hint Rewrite @acquire_empty using (typeclasses eauto) : bitmap.

Section cache.
Context `{Roaring B, !QueueOps B}.

(** The two globals of robims_cache.cpp. *)
Record BitmapCache := {
  g_bitmap_cache_enable : bool;
  g_bitmap_cache : list B;
}.

Definition initial_cache : BitmapCache :=
  {| g_bitmap_cache_enable := true; g_bitmap_cache := [] |}.

Definition acquire_bitmap (c : BitmapCache) : B * BitmapCache :=
  match try_dequeue (g_bitmap_cache c) with
  | Some (item, q) =>
      (item, {| g_bitmap_cache_enable := g_bitmap_cache_enable c; g_bitmap_cache := q |})
  | None => (roaring_bitmap_create, c)
  end.

Definition release_bitmap (c : BitmapCache) (b : B) : BitmapCache :=
  if negb (g_bitmap_cache_enable c) then c
  else {| g_bitmap_cache_enable := g_bitmap_cache_enable c;
          g_bitmap_cache := enqueue (g_bitmap_cache c) (roaring_bitmap_clear b) |}.

Fixpoint drain (fuel : nat) (q : list B) : list B :=
  match fuel with
  | O => q
  | S fuel =>
      match try_dequeue q with
      | Some (_, q') => drain fuel q'
      | None => q
      end
  end.

(** The [while (1)] loop stops at the first failed dequeue; every successful
    one shortens the queue, so its length is enough fuel. *)
Definition clear_bitmap_cache (c : BitmapCache) : BitmapCache :=
  {| g_bitmap_cache_enable := false;
     g_bitmap_cache := drain (S (length (g_bitmap_cache c))) (g_bitmap_cache c) |}.

(** [BitMapCacheGuard]: the bitmaps added to it, released by its destructor
    in the order they were added. *)
Definition BitMapCacheGuard : Type := list B.
Definition BitMapCacheGuard_Add (g : BitMapCacheGuard) (b : B) : BitMapCacheGuard := g ++ [b].
Definition BitMapCacheGuard_destruct (g : BitMapCacheGuard) (c : BitmapCache) : BitmapCache :=
  foldl release_bitmap c g.

(** The pool and the bitmaps currently held by its clients. *)
Record pool_state := { pool : BitmapCache; held : list B }.

Inductive pool_step : pool_state → pool_state → Prop :=
| step_acquire c h b c' :
    acquire_bitmap c = (b, c') →
    pool_step {| pool := c; held := h |} {| pool := c'; held := b :: h |}
| step_mutate c h1 h2 b b' :
    pool_step {| pool := c; held := h1 ++ b :: h2 |} {| pool := c; held := h1 ++ b' :: h2 |}
| step_release c h1 h2 b :
    pool_step {| pool := c; held := h1 ++ b :: h2 |}
              {| pool := release_bitmap c b; held := h1 ++ h2 |}
| step_guard c h g :
    pool_step {| pool := c; held := g ++ h |}
              {| pool := BitMapCacheGuard_destruct g c; held := h |}
| step_clear c h :
    pool_step {| pool := c; held := h |} {| pool := clear_bitmap_cache c; held := h |}.

Definition initial_pool : pool_state := {| pool := initial_cache; held := [] |}.
Definition reachable : pool_state → Prop := rtc pool_step initial_pool.

(** The invariant: whatever waits in the pool is empty. *)
Definition clean (c : BitmapCache) : Prop :=
  Forall (λ b : B, ∀ id, b.[id] = false) (g_bitmap_cache c).

Context `{!Queue B}.

Lemma acquire_clean c b c' :
  clean c → acquire_bitmap c = (b, c') → (∀ id, b.[id] = false) ∧ clean c'.
Proof.
  unfold clean, acquire_bitmap. intros Hc.
  destruct (try_dequeue _) as [[item q]|] eqn:E; intros [= <- <-].
  - rewrite (try_dequeue_spec _ _ _ E) in Hc. by inversion Hc.
  - split; [apply contains_create|done].
Qed.

Lemma release_clean c b : clean c → clean (release_bitmap c b).
Proof.
  unfold release_bitmap, clean. destruct (g_bitmap_cache_enable c); simpl; [|done].
  intros Hc. rewrite enqueue_spec. constructor; [apply contains_clear|done].
Qed.

Lemma drain_suffix fuel q :
  ∃ taken, q ≡ₚ taken ++ drain fuel q ∧ (length taken <= fuel)%nat ∧
    ((length taken < fuel)%nat → try_dequeue (drain fuel q) = None).
Proof.
  revert q. induction fuel as [|fuel IH]; intros q; simpl.
  { exists []. simpl. split_and!; [done|lia|lia]. }
  destruct (try_dequeue q) as [[b q']|] eqn:E.
  - destruct (IH q') as (taken & Hp & Hl & Hn). exists (b :: taken).
    rewrite (try_dequeue_spec _ _ _ E), Hp at 1. simpl. split_and!; [done|lia|].
    intros. apply Hn. lia.
  - exists []. simpl. split_and!; [done|lia|done].
Qed.

Lemma clear_clean c : clean c → clean (clear_bitmap_cache c).
Proof.
  unfold clean, clear_bitmap_cache. simpl. intros Hc.
  destruct (drain_suffix (S (length (g_bitmap_cache c))) (g_bitmap_cache c))
    as (taken & Hp & _). rewrite Hp in Hc. by apply Forall_app in Hc as [_ ?].
Qed.

Lemma guard_clean g c : clean c → clean (BitMapCacheGuard_destruct g c).
Proof.
  unfold BitMapCacheGuard_destruct. revert c.
  induction g as [|b g IH]; intros c Hc; simpl; [done|]. by apply IH, release_clean.
Qed.

Lemma pool_step_clean s s' : pool_step s s' → clean (pool s) → clean (pool s').
Proof.
  destruct 1 as [c h b c' Ha| | | |]; simpl; intros Hc;
    eauto using release_clean, clear_clean, guard_clean.
  by eapply acquire_clean in Ha as [_ ?].
Qed.

Lemma reachable_clean s : reachable s → clean (pool s).
Proof.
  apply (rtc_ind_r (λ s, clean (pool s)) initial_pool); [constructor|].
  eauto using pool_step_clean.
Qed.

(** In every state the pool can reach, whatever its clients did to the
    bitmaps they held and in whatever order they released them, the next
    acquired bitmap is empty; and once the pool was cleared it stays without
    anything to dequeue as long as the queue reports it empty. *)
Theorem acquired_bitmap_empty st :
  reachable st →
  (∀ id, (acquire_bitmap (pool st)).1.[id] = false) ∧
  let c := clear_bitmap_cache (pool st) in
  try_dequeue (g_bitmap_cache c) = None ∧ ∀ b, release_bitmap c b = c.
Proof.
  intros Hr. apply reachable_clean in Hr. split.
  - destruct (acquire_bitmap (pool st)) as [b c'] eqn:E. by eapply acquire_clean.
  - cbv zeta. split; [|done]. simpl g_bitmap_cache.
    destruct (drain_suffix (S (length (g_bitmap_cache (pool st)))) (g_bitmap_cache (pool st)))
      as (taken & Hp & _ & Hn). apply Hn.
    apply Permutation_length in Hp. rewrite length_app in Hp. lia.
Qed.

(** A family of acquisitions made in reachable states is a [Scratch]. *)
Definition scratch_of (f : nat → pool_state) (Hf : ∀ n, reachable (f n)) : Scratch B.
Proof.
  refine {| acquire n := (acquire_bitmap (pool (f n))).1 |}.
  intros n. destruct (acquire_bitmap (pool (f n))) as [b c'] eqn:E.
  eapply acquire_clean; [|done]. apply reachable_clean, Hf.
Defined.
End cache.

Arguments BitmapCache : clear implicits.
Arguments pool_state : clear implicits.

(** An executable queue and scratch pool for the witnesses. *)
#[export] Instance list_queue_ops B : QueueOps B := {
  try_dequeue q := match q with [] => None | b :: q => Some (b, q) end;
  enqueue q b := q ++ [b];
}.

#[export] Instance list_queue B : Queue B.
Proof.
  split.
  - intros [|x q] b q' [= <- <-]. done.
  - intros q b. simpl. by rewrite Permutation_app_comm.
Qed.

#[export] Instance gset_scratch : Scratch (gset Z).
Proof. refine {| acquire _ := ∅ |}. done. Defined.

(** A bitmap is acquired, filled with 7 and released through a guard: the next
    acquisition gets it back empty. *)
Lemma acquired_bitmap_empty_witness :
  let c := BitMapCacheGuard_destruct [{[7]} : gset Z] initial_cache in
  g_bitmap_cache c ≠ [] ∧ (acquire_bitmap c).1.[7] = false.
Proof.
  split; [discriminate|].
  refine (proj1 (acquired_bitmap_empty
    {| pool := BitMapCacheGuard_destruct [{[7]} : gset Z] initial_cache; held := [] |} _) 7).
  apply (rtc_l _ _ {| pool := initial_cache; held := [∅ : gset Z] |});
    [by apply step_acquire|].
  apply (rtc_l _ _ {| pool := initial_cache; held := [{[7]} : gset Z] |});
    [apply (step_mutate initial_cache [] [])|].
  apply rtc_once, (step_guard initial_cache [] [{[7]}]).
Defined.
