(* ===== verification/Common.v ===== *)
(** * Common: files, byte order and owned bitmaps (robims_common.cpp)

    A [FILE] opened for writing is the bytes written so far and the room left
    on the device; one opened for reading is the bytes not yet read.  Writers
    return the C return code with the new file, or [None] where the code
    dereferences a null bitmap; readers return an option ([None] for a non-zero
    return code) with the rest of the file. *)

From S2P Require Import Prelude Roaring Cache.

(** ** Streams *)

Record OFILE := { written : list Z; room : nat }.
Definition IFILE : Type := list Z.

(** [fwrite(data, size, 1, fp)]: 1 when the block was written, 0 on a short
    write, and 0 for a block of size zero. *)
Definition fwrite (data : list Z) (fp : OFILE) : Z * OFILE :=
  match data with
  | [] => (0, fp)
  | _ =>
      if (length data <=? room fp)%nat
      then (1, {| written := written fp ++ data; room := room fp - length data |})
      else (0, {| written := written fp ++ take (room fp) data; room := 0 |})
  end.

(** [fread(buf, size, 1, fp)]: [None] when it does not return 1, which includes
    every read of size zero. *)
Definition fread (size : nat) (fp : IFILE) : option (list Z) * IFILE :=
  match size with
  | O => (None, fp)
  | _ => if (size <=? length fp)%nat then (Some (take size fp), drop size fp) else (None, [])
  end.

(** A sequence of writers that stops at the first non-zero return code, and of
    readers that stops at the first failure. *)
Definition Writer : Type := OFILE → option (Z * OFILE).
Definition Reader (A : Type) : Type := IFILE → option A * IFILE.

Definition wr_seq (m k : Writer) : Writer := λ fp,
  match m fp with
  | Some (rc, fp') => if rc =? 0 then k fp' else Some (rc, fp')
  | None => None
  end.
Definition wr_ok : Writer := λ fp, Some (0, fp).
Definition wr_null : Writer := λ _, None.
Definition rd_ret {A} (a : A) : Reader A := λ fp, (Some a, fp).
Definition rd_bind {A C} (m : Reader A) (k : A → Reader C) : Reader C := λ fp,
  let '(r, fp') := m fp in match r with Some a => k a fp' | None => (None, fp') end.

Notation "m ;;ʷ k" := (wr_seq m k) (at level 100, right associativity) : robims_scope.
Notation "x ←ʳ m ; k" := (rd_bind m (λ x, k))
  (at level 20, m at level 100, k at level 200) : robims_scope.

(** [for (auto& x : l) { rc = save(x); if (0 != rc) return rc; }] *)
Fixpoint wr_each {A} (save : A → Writer) (l : list A) : Writer :=
  match l with
  | [] => wr_ok
  | x :: l => save x ;;ʷ wr_each save l
  end.

(** [for (i = 0; i < n; i++) { load; if it failed return -1; }] *)
Fixpoint rd_times {A} (n : nat) (load : Reader A) : Reader (list A) :=
  match n with
  | O => rd_ret []
  | S n => x ←ʳ load; l ←ʳ rd_times n load; rd_ret (x :: l)
  end.

(** ** Network byte order *)

(** [htonl] and [ntohl] reverse the four bytes of their 32-bit argument. *)
Definition htonl (n : Z) : Z := le_value (rev (le_bytes 4 (u32 n))).
Definition ntohl (n : Z) : Z := htonl n.

Definition htonll (val : Z) : Z :=
  u64 (u64 (Z.shiftl (htonl val) 32) + htonl (Z.shiftr val 32)).
Definition ntohll (val : Z) : Z :=
  u64 (u64 (Z.shiftl (ntohl val) 32) + ntohl (Z.shiftr val 32)).

(** [rc = fwrite(...); if (rc != 1) return -1; return 0;] *)
Definition wr_block (data : list Z) : Writer := λ fp,
  let '(rc, fp) := fwrite data fp in Some (if rc =? 1 then 0 else -1, fp).

Definition file_write_uint64 (n : Z) : Writer := wr_block (le_bytes 8 (htonll n)).
Definition file_read_uint64 : Reader Z :=
  b ←ʳ fread 8; rd_ret (ntohll (le_value b)).
Definition file_write_uint32 (n : Z) : Writer := wr_block (le_bytes 4 (htonl (u32 n))).
Definition file_read_uint32 : Reader Z :=
  b ←ʳ fread 4; rd_ret (ntohl (le_value b)).

(** A string is the list of its bytes. *)
Definition file_write_string (s : list Z) : Writer :=
  file_write_uint32 (Z.of_nat (length s)) ;;ʷ wr_block s.
Definition file_read_string : Reader (list Z) :=
  n ←ʳ file_read_uint32; fread (Z.to_nat n).

(** ** Reading back what was written *)

(** [w] appends [bytes] when there is room. *)
Definition writes (w : Writer) (bytes : list Z) : Prop :=
  ∀ pre extra,
    w {| written := pre; room := length bytes + extra |}
    = Some (0, {| written := pre ++ bytes; room := extra |}).

(** [r] consumes exactly [bytes] and returns [a]. *)
Definition reads {A} (r : Reader A) (bytes : list Z) (a : A) : Prop :=
  ∀ rest, r (bytes ++ rest) = (Some a, rest).

Lemma fwrite_ok data pre extra :
  data ≠ [] →
  fwrite data {| written := pre; room := length data + extra |}
  = (1, {| written := pre ++ data; room := extra |}).
Proof.
  destruct data as [|b data]; [done|]. intros _. unfold fwrite.
  cbn [room written]. destruct (Nat.leb_spec (length (b :: data)) (length (b :: data) + extra));
    [|lia]. do 2 f_equal. lia.
Qed.

Lemma wr_block_writes data : data ≠ [] → writes (wr_block data) data.
Proof. intros Hd pre extra. unfold wr_block. by rewrite fwrite_ok. Qed.

Lemma wr_seq_writes m k b1 b2 : writes m b1 → writes k b2 → writes (m ;;ʷ k) (b1 ++ b2).
Proof.
  intros Hm Hk pre extra. unfold wr_seq.
  rewrite length_app, <-Nat.add_assoc, Hm. simpl. by rewrite Hk, app_assoc.
Qed.

Lemma wr_ok_writes : writes wr_ok [].
Proof. intros pre extra. by rewrite app_nil_r. Qed.

Lemma wr_each_writes {A} (save : A → Writer) (enc : A → list Z) l :
  (∀ x, x ∈ l → writes (save x) (enc x)) → writes (wr_each save l) (concat (enc <$> l)).
Proof.
  induction l as [|x l IH]; intros H; [apply wr_ok_writes|].
  apply wr_seq_writes; [apply H; left|]. apply IH. intros. apply H. by right.
Qed.

Lemma rd_bind_reads {A C} (m : Reader A) (k : A → Reader C) b1 b2 a c :
  reads m b1 a → reads (k a) b2 c → reads (rd_bind m k) (b1 ++ b2) c.
Proof. intros Hm Hk rest. unfold rd_bind. rewrite <-app_assoc, Hm. apply Hk. Qed.

Lemma rd_ret_reads {A} (a : A) : reads (rd_ret a) [] a.
Proof. intros rest. done. Qed.

Lemma rd_bind_ret_reads {A C} (m : Reader A) (f : A → C) b a :
  reads m b a → reads (rd_bind m (λ x, rd_ret (f x))) b (f a).
Proof. intros Hm rest. unfold rd_bind. by rewrite Hm. Qed.

Lemma rd_times_reads {A C} (load : Reader A) (enc : C → list Z) (val : C → A) l :
  (∀ x, x ∈ l → reads load (enc x) (val x)) →
  reads (rd_times (length l) load) (concat (enc <$> l)) (val <$> l).
Proof.
  induction l as [|x l IH]; intros H; [apply rd_ret_reads|].
  cbn [length rd_times]. rewrite fmap_cons. cbn [concat].
  eapply rd_bind_reads; [apply H; left|].
  apply (rd_bind_ret_reads _ (λ l, val x :: l)), IH. intros. apply H. by right.
Qed.

(** The same for items that are read back up to a relation. *)
Lemma rd_times_reads_rel {A C} (load : Reader A) (enc : C → list Z) (R : C → A → Prop) l :
  (∀ x, x ∈ l → ∃ a, reads load (enc x) a ∧ R x a) →
  ∃ la, Forall2 R l la ∧ reads (rd_times (length l) load) (concat (enc <$> l)) la.
Proof.
  induction l as [|x l IH]; intros H; [by exists []; split; [|apply rd_ret_reads]|].
  destruct (H x) as (a & Ha & HR); [left|].
  destruct IH as (la & Hla & Hr); [intros; apply H; by right|].
  exists (a :: la). split; [by constructor|]. cbn [length rd_times].
  rewrite fmap_cons. cbn [concat]. eapply rd_bind_reads; [exact Ha|].
  by apply (rd_bind_ret_reads _ (λ l, a :: l)).
Qed.

Lemma fread_reads data : data ≠ [] → reads (fread (length data)) data data.
Proof.
  destruct data as [|b data]; [done|]. intros _ rest. unfold fread.
  cbn [length]. destruct (Nat.leb_spec (S (length data)) (length ((b :: data) ++ rest)));
    [|rewrite length_app in *; simpl in *; lia].
  rewrite (take_app_length' (b :: data)), (drop_app_length' (b :: data)) by done. done.
Qed.

Lemma htonl_range n : is_u32 (htonl n).
Proof.
  unfold htonl, is_u32. assert (Forall is_u8 (rev (le_bytes 4 (u32 n)))) as H
    by (apply Forall_rev, le_bytes_byte).
  apply le_value_range in H. rewrite length_rev, le_bytes_length in H. apply H.
Qed.

Lemma le_bytes_htonl n : le_bytes 4 (htonl n) = rev (le_bytes 4 (u32 n)).
Proof.
  unfold htonl.
  assert (length (rev (le_bytes 4 (u32 n))) = 4%nat) as Hl
    by (rewrite length_rev; apply le_bytes_length).
  rewrite <-Hl at 1. apply le_bytes_value, Forall_rev, le_bytes_byte.
Qed.

Lemma ntohl_htonl n : ntohl (htonl n) = u32 n.
Proof.
  unfold ntohl. unfold htonl at 1. rewrite u32_id by apply htonl_range.
  rewrite le_bytes_htonl, rev_involutive, le_value_bytes.
  apply Z.mod_small, u32_range.
Qed.

(** What a 32-bit integer looks like in a file: most significant byte first. *)
Definition be32 (n : Z) : list Z := rev (le_bytes 4 (u32 n)).

Lemma be32_length n : length (be32 n) = 4%nat.
Proof. unfold be32. by rewrite length_rev, le_bytes_length. Qed.

Lemma be32_nonempty n : be32 n ≠ [].
Proof. intros E. pose proof (be32_length n) as H. by rewrite E in H. Qed.

Lemma file_write_uint32_writes n : writes (file_write_uint32 n) (be32 n).
Proof.
  unfold file_write_uint32. rewrite le_bytes_htonl. unfold be32 at 1.
  rewrite u32_id by apply u32_range. apply wr_block_writes, be32_nonempty.
Qed.

Lemma file_read_uint32_reads n : is_u32 n → reads file_read_uint32 (be32 n) n.
Proof.
  intros Hn. unfold file_read_uint32.
  replace n with (ntohl (le_value (be32 n))) at 2.
  - rewrite <-(be32_length n) at 1.
    apply (rd_bind_ret_reads _ (λ b, ntohl (le_value b))), fread_reads, be32_nonempty.
  - change (le_value (be32 n)) with (htonl n). rewrite ntohl_htonl. by apply u32_id.
Qed.

Lemma file_write_string_writes s :
  s ≠ [] → writes (file_write_string s) (be32 (Z.of_nat (length s)) ++ s).
Proof.
  intros Hs. apply wr_seq_writes; [apply file_write_uint32_writes|by apply wr_block_writes].
Qed.

Lemma file_read_string_reads s :
  s ≠ [] → Z.of_nat (length s) < 2 ^ 32 →
  reads file_read_string (be32 (Z.of_nat (length s)) ++ s) s.
Proof.
  intros Hs Hl. unfold file_read_string. eapply rd_bind_reads.
  - apply file_read_uint32_reads. unfold is_u32. lia.
  - rewrite Nat2Z.id. by apply fread_reads.
Qed.

#[export] Hint Resolve wr_ok_writes file_write_uint32_writes file_read_uint32_reads
  file_write_string_writes file_read_string_reads wr_seq_writes : robims.

Lemma le_bytes_app n m z :
  le_bytes (n + m) z = le_bytes n z ++ le_bytes m (z / 256 ^ Z.of_nat n).
Proof.
  revert z. induction n as [|n IH]; intros z; [by rewrite Z.div_1_r|].
  cbn [Nat.add le_bytes app]. f_equal. rewrite IH. f_equal. f_equal.
  rewrite Nat2Z.inj_succ, Z.pow_succ_r, Z.div_div by lia. done.
Qed.

(** Converting a 64-bit integer to network order and back is the identity. *)
Lemma ntohll_htonll v : is_u64 v → ntohll (htonll v) = v.
Proof.
  assert (∀ a b, is_u32 a → is_u32 b → u64 (u64 (Z.shiftl a 32) + b) = a * 2 ^ 32 + b) as Hu.
  { unfold is_u32. intros a b Ha Hb. rewrite Z.shiftl_mul_pow2 by lia.
    rewrite (u64_id (a * _)) by (unfold is_u64; lia). apply u64_id. unfold is_u64. lia. }
  intros Hv. unfold ntohll, htonll. rewrite (Hu (htonl v)) by apply htonl_range.
  pose proof (htonl_range (Z.shiftr v 32)) as Hr. unfold is_u32 in Hr.
  pose proof (htonl_range v) as Hr'. unfold is_u32 in Hr'.
  assert (∀ z, htonl (u32 z) = htonl z) as Hw
    by (intros z; unfold htonl; by rewrite (u32_id (u32 z)) by apply u32_range).
  assert (ntohl (htonl v * 2 ^ 32 + htonl (Z.shiftr v 32)) = ntohl (htonl (Z.shiftr v 32))) as ->.
  { unfold ntohl. rewrite <-(Hw (_ + _)). f_equal. unfold u32.
    by rewrite Z.add_comm, Z_mod_plus_full, Z.mod_small by lia. }
  rewrite (Z.shiftr_div_pow2 (_ + _)), Z.div_add_l, Z.div_small, Z.add_0_r by lia.
  rewrite !ntohl_htonl, Hu by apply u32_range.
  rewrite Z.shiftr_div_pow2 by lia. unfold is_u64 in Hv.
  assert (v / 2 ^ 32 < 2 ^ 32) by (apply Z.div_lt_upper_bound; lia).
  rewrite (u32_id (v / 2 ^ 32)) by (split; [apply Z.div_pos; lia|done]).
  unfold u32. pose proof (Z.div_mod v (2 ^ 32)). lia.
Qed.

(** A non-empty string, a 32-bit and a 64-bit integer are written
    completely to a file with enough room, most significant byte first, and
    read back as they were, whatever follows in the file. *)
Theorem file_roundtrip str n v :
  str ≠ [] → Z.of_nat (length str) < 2 ^ 32 → is_u32 n → is_u64 v →
  ∃ bs bn bv,
    writes (file_write_string str) bs ∧ reads file_read_string bs str ∧
    writes (file_write_uint32 n) bn ∧ reads file_read_uint32 bn n ∧
    writes (file_write_uint64 v) bv ∧ reads file_read_uint64 bv v.
Proof.
  intros Hs Hl Hn Hv. eexists _, _, (le_bytes 8 (htonll v)).
  split_and!; [auto with robims..| |].
  - by apply wr_block_writes.
  - unfold file_read_uint64. rewrite <-(ntohll_htonll v Hv) at 2.
    rewrite <-(Z.mod_small (htonll v) (256 ^ Z.of_nat 8)) at 2 by apply u64_range.
    rewrite <-le_value_bytes.
    apply (rd_bind_ret_reads _ (λ b, ntohll (le_value b))), (fread_reads (le_bytes 8 (htonll v))).
    done.
Qed.

Lemma file_roundtrip_witness :
  ∃ bs, writes (file_write_string [104; 105]) bs ∧ reads file_read_string bs [104; 105].
Proof.
  destruct (file_roundtrip [104; 105] 3 5) as (bs & _ & _ & Hw & Hr & _);
    [discriminate|reflexivity|unfold is_u32; lia|unfold is_u64; lia|].
  exists bs. split; [exact Hw|exact Hr].
Defined.

(** The empty string is never written: the length goes out and the call
    reports an error, as does reading it back. *)
Theorem file_empty_string_fails pre extra rest :
  file_write_string [] {| written := pre; room := 4 + extra |}
  = Some (-1, {| written := pre ++ be32 0; room := extra |}) ∧
  file_read_string (be32 0 ++ rest) = (None, rest).
Proof.
  split; [|reflexivity]. unfold file_write_string, wr_seq.
  by rewrite (file_write_uint32_writes (Z.of_nat (length (@nil Z))) pre extra
    : _ {| room := 4 + extra |} = _).
Qed.

(** ** Bitmaps owned by an index *)

Section bitmaps.
Context `{Roaring B}.

(** [struct RoaringBitmap]: a nullable owning pointer and a flag; the buffer
    a frozen view reads from has no state of its own. *)
Record RoaringBitmap := { bitmap : option B; _readonly : bool }.

(** [RoaringBitmap()] holds no bitmap yet. *)
Definition null_bitmap : RoaringBitmap := {| bitmap := None; _readonly := false |}.
Definition SetCRoaringBitmap (rb : RoaringBitmap) (b : B) : RoaringBitmap :=
  {| bitmap := Some b; _readonly := _readonly rb |}.
Definition NewCRoaringBitmap (rb : RoaringBitmap) : RoaringBitmap :=
  SetCRoaringBitmap rb roaring_bitmap_create.

(** [bitmap.get()] where the code relies on it not being null. *)
Definition get_bitmap (rb : RoaringBitmap) : B := default roaring_bitmap_create (bitmap rb).

Definition RoaringBitmap_Put (rb : RoaringBitmap) (id : Z) : bool * RoaringBitmap :=
  let '(r, b) := roaring_bitmap_add_checked (get_bitmap rb) id in (r, SetCRoaringBitmap rb b).
Definition RoaringBitmap_Remove (rb : RoaringBitmap) (id : Z) : bool * RoaringBitmap :=
  let '(r, b) := roaring_bitmap_remove_checked (get_bitmap rb) id in (r, SetCRoaringBitmap rb b).

(** The image [Save] writes; compacting the containers first leaves the set
    as it is. *)
Definition bitmap_image (b : B) (readonly : bool) : list Z :=
  let b := roaring_bitmap_shrink_to_fit (roaring_bitmap_run_optimize b) in
  if readonly then roaring_bitmap_frozen_serialize b else roaring_bitmap_serialize b.

Definition RoaringBitmap_Save (rb : RoaringBitmap) (readonly : bool) : Writer :=
  match bitmap rb with
  | None => wr_null
  | Some b =>
      let mbuf := bitmap_image b readonly in
      file_write_uint32 (Z.of_nat (length mbuf)) ;;ʷ
      wr_block [Z.b2z readonly] ;;ʷ
      wr_block mbuf
  end.

Definition RoaringBitmap_Load : Reader RoaringBitmap :=
  n ←ʳ file_read_uint32;
  flag ←ʳ fread 1;
  let readonly := negb (le_value flag =? 0) in
  mbuf ←ʳ fread (Z.to_nat n);
  λ fp, (match (if readonly then roaring_bitmap_frozen_view mbuf
                else roaring_bitmap_deserialize mbuf) with
         | Some b => Some {| bitmap := Some b; _readonly := readonly |}
         | None => None
         end, fp).

(** [ids.resize(n); roaring_bitmap_to_uint32_array(out, &ids[0])] *)
Definition bitmap_extract_ids (out : B) : list Z :=
  let n := u32 (roaring_bitmap_get_cardinality out) in
  take (Z.to_nat n) (roaring_bitmap_to_uint32_array out).

Definition bimap_get_ids `{!Scratch B} (op : B → B) : list Z :=
  bitmap_extract_ids (op (acquire 0)).

(** [roaring_iterate] calls [func] on the identifiers in ascending order
    until it returns false. *)
Fixpoint iterate_ids {S} (func : S → Z → bool * S) (s : S) (ids : list Z) : S :=
  match ids with
  | [] => s
  | id :: ids => let '(go, s) := func s id in if go then iterate_ids func s ids else s
  end.
Definition iterate_bitmap {S} (func : S → Z → bool * S) (s : S) (b : B) : S :=
  iterate_ids func s (roaring_bitmap_to_uint32_array b).

Definition bitmap_bytes (b : B) (readonly : bool) : list Z :=
  let mbuf := bitmap_image b readonly in
  be32 (Z.of_nat (length mbuf)) ++ [Z.b2z readonly] ++ mbuf.

(** A bitmap that can be written: it is there, holds 32-bit identifiers, and
    its image's size fits the 32-bit length field. *)
Definition savable (readonly : bool) (rb : RoaringBitmap) : Prop :=
  ∃ b, bitmap rb = Some b ∧ u32_bitmap b ∧
       Z.of_nat (length (bitmap_image b readonly)) < 2 ^ 32.

Lemma bitmap_image_codec b readonly :
  u32_bitmap b →
  bitmap_image b readonly ≠ [] ∧
  ∃ b', (if readonly then roaring_bitmap_frozen_view (bitmap_image b readonly)
         else roaring_bitmap_deserialize (bitmap_image b readonly)) = Some b' ∧
        b' ≡ b.
Proof.
  intros Hu. unfold bitmap_image.
  set (c := roaring_bitmap_shrink_to_fit (roaring_bitmap_run_optimize b)).
  assert (∀ id, c.[id] = b.[id]) as Hb
    by (intros; unfold c; by autorewrite with bitmap).
  assert (u32_bitmap c) as Hu' by (intros id; rewrite Hb; apply Hu).
  destruct readonly.
  - destruct (frozen_codec c Hu') as (? & _ & b' & ? & He). split; [done|].
    exists b'. split; [done|]. intros id. by rewrite He, Hb.
  - destruct (serialize_codec c Hu') as (? & _ & b' & ? & He). split; [done|].
    exists b'. split; [done|]. intros id. by rewrite He, Hb.
Qed.

(** A bitmap that is there and holds 32-bit identifiers can be written. *)
Lemma RoaringBitmap_Save_ok rb readonly b :
  bitmap rb = Some b → u32_bitmap b →
  writes (RoaringBitmap_Save rb readonly) (bitmap_bytes (get_bitmap rb) readonly).
Proof.
  intros Hb Hu. destruct (bitmap_image_codec b readonly Hu) as [Hne _].
  unfold RoaringBitmap_Save, get_bitmap. rewrite Hb. simpl.
  apply wr_seq_writes; [apply file_write_uint32_writes|].
  apply wr_seq_writes; by apply wr_block_writes.
Qed.

Lemma RoaringBitmap_Save_writes rb readonly :
  savable readonly rb →
  writes (RoaringBitmap_Save rb readonly) (bitmap_bytes (get_bitmap rb) readonly).
Proof. intros (b & Hb & Hu & _). by eapply RoaringBitmap_Save_ok. Qed.

Lemma RoaringBitmap_Load_reads rb readonly :
  savable readonly rb →
  ∃ b', reads RoaringBitmap_Load (bitmap_bytes (get_bitmap rb) readonly)
              {| bitmap := Some b'; _readonly := readonly |} ∧
        b' ≡ get_bitmap rb.
Proof.
  intros (b & Hb & Hu & Hl). destruct (bitmap_image_codec b readonly Hu) as (Hne & b' & Hd & He).
  unfold get_bitmap. rewrite Hb. simpl.
  exists b'. split; [|done].
  eapply rd_bind_reads; [apply file_read_uint32_reads; unfold is_u32; lia|].
  eapply rd_bind_reads; [by apply (fread_reads [Z.b2z readonly])|].
  intros rest. rewrite Nat2Z.id. unfold rd_bind. rewrite fread_reads by done.
  assert (negb (le_value [Z.b2z readonly] =? 0) = readonly) as -> by (by destruct readonly).
  by rewrite Hd.
Qed.

Lemma bitmap_extract_ids_spec b :
  roaring_bitmap_get_cardinality b < 2 ^ 32 →
  bitmap_extract_ids b = roaring_bitmap_to_uint32_array b.
Proof.
  intros Hc. unfold bitmap_extract_ids. pose proof (cardinality_nonneg b).
  rewrite u32_id by (unfold is_u32; lia). rewrite cardinality_spec, Nat2Z.id.
  by apply take_ge.
Qed.
End bitmaps.

Arguments RoaringBitmap : clear implicits.
