(* ===== verification/Float.v ===== *)
(** * Float: IEEE numbers and their order-preserving integer keys
    (robims_bsi.cpp, [float_to_uint32] and its three relatives)

    A [float] is its 32-bit pattern, the form in which the code handles it
    ([memcpy]); a [double] outside these functions is a [spec_float] of the
    Standard Library with 53 bits of precision.  [scaled] is the exact value of
    a pattern in units of the smallest subnormal, so that the order of floats
    is the order of integers. *)

From Corelib Require Import SpecFloat.
From S2P Require Import Prelude.

Section format.
(** [mb] mantissa bits and [eb] exponent bits below the sign bit. *)
Context (mb eb : Z) (Hmb : 0 < mb) (Heb : 0 < eb).

Let sbit := mb + eb.

Definition fp_sign (b : Z) : bool := Z.testbit b sbit.
Definition fp_mag (b : Z) : Z := b mod 2 ^ sbit.
Definition fp_is_nan (b : Z) : bool :=
  (fp_mag b / 2 ^ mb =? 2 ^ eb - 1) && negb (fp_mag b mod 2 ^ mb =? 0).
Definition scaled_mag (m : Z) : Z :=
  if m / 2 ^ mb =? 0 then m mod 2 ^ mb
  else (2 ^ mb + m mod 2 ^ mb) * 2 ^ (m / 2 ^ mb - 1).
Definition scaled (b : Z) : Z :=
  if fp_sign b then - scaled_mag (fp_mag b) else scaled_mag (fp_mag b).

(** The C++ comparison [v >= 0]: false for NaN, true for both zeros. *)
Definition fp_ge0 (b : Z) : bool := negb (fp_is_nan b) && (0 <=? scaled b).
Definition fp_ltb (a b : Z) : bool :=
  negb (fp_is_nan a) && negb (fp_is_nan b) && (scaled a <? scaled b).
(** The C++ comparison [a != b]: true as soon as one side is NaN. *)
Definition fp_neb (a b : Z) : bool :=
  fp_is_nan a || fp_is_nan b || negb (scaled a =? scaled b).

Definition is_fp (b : Z) : Prop := 0 <= b < 2 ^ (sbit + 1).

Lemma pow_sbit : 2 ^ sbit = 2 ^ mb * 2 ^ eb.
Proof using Hmb Heb. unfold sbit. apply Z.pow_add_r; lia. Qed.

Lemma pow_sbit_succ : 2 ^ (sbit + 1) = 2 * 2 ^ sbit.
Proof using Hmb Heb. rewrite Z.pow_add_r by lia. lia. Qed.

Lemma fp_split b :
  is_fp b → b = Z.b2z (fp_sign b) * 2 ^ sbit + fp_mag b ∧ 0 <= fp_mag b < 2 ^ sbit.
Proof using Hmb Heb.
  intros Hb. unfold is_fp in Hb. rewrite pow_sbit_succ in Hb. unfold fp_sign, fp_mag.
  assert (0 < 2 ^ sbit) by (apply Z.pow_pos_nonneg; lia).
  split; [|by apply Z.mod_pos_bound].
  rewrite Z.testbit_spec' by lia.
  assert (b / 2 ^ sbit < 2) by (apply Z.div_lt_upper_bound; lia).
  rewrite (Z.mod_small (b / 2 ^ sbit)) by (split; [apply Z.div_pos; lia|lia]).
  pose proof (Z.div_mod b (2 ^ sbit)). lia.
Qed.

Lemma scaled_mag_bounds m :
  0 <= m →
  (m / 2 ^ mb ≠ 0 → 2 ^ mb * 2 ^ (m / 2 ^ mb - 1) <= scaled_mag m) ∧
  0 <= scaled_mag m < 2 ^ mb * 2 ^ (m / 2 ^ mb).
Proof using Hmb Heb.
  intros Hm. unfold scaled_mag.
  assert (0 < 2 ^ mb) as Hp by (apply Z.pow_pos_nonneg; lia).
  pose proof (Z.mod_pos_bound m (2 ^ mb) Hp) as Hf.
  assert (0 <= m / 2 ^ mb) by (apply Z.div_pos; lia).
  destruct (Z.eqb_spec (m / 2 ^ mb) 0) as [->|He].
  { split; [done|]. rewrite Z.pow_0_r. lia. }
  assert (0 < 2 ^ (m / 2 ^ mb - 1)) by (apply Z.pow_pos_nonneg; lia).
  assert (2 ^ (m / 2 ^ mb) = 2 * 2 ^ (m / 2 ^ mb - 1)) as ->
    by (rewrite <-Z.pow_succ_r by lia; f_equal; lia).
  split; [intros; nia|nia].
Qed.

(** The magnitude of a float grows with its bits. *)
Lemma scaled_mag_lt m1 m2 : 0 <= m1 < m2 → scaled_mag m1 < scaled_mag m2.
Proof using Hmb Heb.
  intros [H1 H12]. assert (0 < 2 ^ mb) as Hp by (apply Z.pow_pos_nonneg; lia).
  assert (m1 / 2 ^ mb <= m2 / 2 ^ mb) as Hle by (apply Z.div_le_mono; lia).
  assert (0 <= m1 / 2 ^ mb) by (apply Z.div_pos; lia).
  destruct (decide (m1 / 2 ^ mb = m2 / 2 ^ mb)) as [E|Hne].
  - pose proof (Z.div_mod m1 (2 ^ mb)). pose proof (Z.div_mod m2 (2 ^ mb)).
    assert (m1 mod 2 ^ mb < m2 mod 2 ^ mb) by (rewrite E in *; lia).
    unfold scaled_mag. rewrite E. destruct (Z.eqb_spec (m2 / 2 ^ mb) 0); [done|].
    apply Z.mul_lt_mono_pos_r; [apply Z.pow_pos_nonneg|]; lia.
  - destruct (scaled_mag_bounds m1) as [_ Hb1]; [lia|].
    destruct (scaled_mag_bounds m2) as [Hb2 _]; [lia|].
    specialize (Hb2 ltac:(lia)).
    assert (2 ^ (m1 / 2 ^ mb) <= 2 ^ (m2 / 2 ^ mb - 1)) by (apply Z.pow_le_mono_r; lia).
    nia.
Qed.

Lemma scaled_mag_0 : scaled_mag 0 = 0.
Proof using Hmb Heb. unfold scaled_mag. by rewrite Z.div_0_l, Z.mod_0_l by lia. Qed.

(** The integer key of a pattern: the value both conversions compute. *)
Definition fp_key (b : Z) : Z :=
  if fp_ge0 b then 2 ^ sbit + fp_mag b else 2 ^ (sbit + 1) - 1 - b.

Lemma fp_key_signed b :
  is_fp b → fp_is_nan b = false →
  fp_key b = if fp_sign b && negb (fp_mag b =? 0) then 2 ^ sbit - 1 - fp_mag b
             else 2 ^ sbit + fp_mag b.
Proof using Hmb Heb.
  intros Hb Hn. destruct (fp_split b Hb) as [Hs Hm].
  unfold fp_key, fp_ge0, scaled. rewrite Hn. simpl.
  destruct (fp_sign b); simpl in *.
  - destruct (Z.eqb_spec (fp_mag b) 0) as [E|Hne]; simpl.
    { by rewrite E, scaled_mag_0. }
    pose proof (scaled_mag_lt 0 (fp_mag b)) as Hl. rewrite scaled_mag_0 in Hl.
    destruct (Z.leb_spec 0 (- scaled_mag (fp_mag b))); [lia|].
    rewrite pow_sbit_succ. lia.
  - destruct (scaled_mag_bounds (fp_mag b)); [lia|].
    destruct (Z.leb_spec 0 (scaled_mag (fp_mag b))); [done|lia].
Qed.

(** Keys are ordered as the floats they encode. *)
Lemma fp_key_lt a b :
  is_fp a → is_fp b → fp_is_nan a = false → fp_is_nan b = false →
  (fp_key a <? fp_key b) = (scaled a <? scaled b).
Proof using Hmb Heb.
  intros Ha Hb Hna Hnb. rewrite !fp_key_signed by done.
  destruct (fp_split a Ha) as [_ Hma]. destruct (fp_split b Hb) as [_ Hmb'].
  unfold scaled.
  pose proof (scaled_mag_lt (fp_mag a) (fp_mag b)) as L1.
  pose proof (scaled_mag_lt (fp_mag b) (fp_mag a)) as L2.
  pose proof (scaled_mag_lt 0 (fp_mag a)) as L3.
  pose proof (scaled_mag_lt 0 (fp_mag b)) as L4.
  rewrite scaled_mag_0 in *.
  assert (fp_mag a = fp_mag b → scaled_mag (fp_mag a) = scaled_mag (fp_mag b)) by congruence.
  assert (fp_mag a = 0 → scaled_mag (fp_mag a) = 0) by (intros ->; apply scaled_mag_0).
  assert (fp_mag b = 0 → scaled_mag (fp_mag b) = 0) by (intros ->; apply scaled_mag_0).
  destruct (fp_sign a), (fp_sign b), (Z.eqb_spec (fp_mag a) 0), (Z.eqb_spec (fp_mag b) 0);
    simpl; apply eq_true_iff_eq; rewrite !Z.ltb_lt; lia.
Qed.
End format.

(** ** float *)

Abbreviation f32_is_nan := (fp_is_nan 23 8).
Abbreviation f32_scaled := (scaled 23 8).
Abbreviation f32_ge0 := (fp_ge0 23 8).
Abbreviation f32_ltb := (fp_ltb 23 8).
Abbreviation f32_neb := (fp_neb 23 8).

Definition float_to_uint32 (v : Z) : Z :=
  let iv := v in
  if f32_ge0 v then Z.lor iv 0x80000000 else u32 (Z.lnot iv).

Definition uint32_to_float (v : Z) : Z :=
  if 0 <? Z.land v 0x80000000 then Z.land v (u32 (Z.lnot 0x80000000)) else u32 (Z.lnot v).

(** ** double *)

Abbreviation f64_is_nan := (fp_is_nan 52 11).
Abbreviation f64_scaled := (scaled 52 11).
Abbreviation f64_ge0 := (fp_ge0 52 11).

Definition double_to_uint64 (v : Z) : Z :=
  let iv := v in
  if f64_ge0 v then Z.lor iv 0x8000000000000000 else u64 (Z.lnot iv).

Definition uint64_to_double (v : Z) : Z :=
  if 0 <? Z.land v 0x8000000000000000 then Z.land v (u64 (Z.lnot 0x8000000000000000))
  else u64 (Z.lnot v).

(** ** Arithmetic conversions of the language *)

Definition double : Type := spec_float.

(** The bits of a rounded single-precision number. *)
Definition f32_encode (s : spec_float) : Z :=
  let sign (b : bool) := if b then 2 ^ 31 else 0 in
  match s with
  | S754_zero b => sign b
  | S754_infinity b => sign b + 255 * 2 ^ 23
  | S754_nan => 255 * 2 ^ 23 + 2 ^ 22
  | S754_finite b m e =>
      if Z.pos m <? 2 ^ 23 then sign b + Z.pos m
      else sign b + (e + 150) * 2 ^ 23 + (Z.pos m - 2 ^ 23)
  end.

(** [(float)d] rounds to nearest, ties to even. *)
Definition double_to_float (d : double) : Z :=
  f32_encode match d with
             | S754_finite s m e => binary_normalize 24 128 (cond_Zopp s (Z.pos m)) e s
             | d => d
             end.
Definition int_to_float (z : Z) : Z := f32_encode (binary_normalize 24 128 z 0 false).
Definition int_to_double (z : Z) : double := binary_normalize 53 1024 z 0 false.

(** [(int64_t)d] drops the fraction; the language gives it a meaning only when
    the result fits. *)
Definition double_to_int64 (d : double) : Z :=
  match d with
  | S754_finite s m e => cond_Zopp s (if 0 <=? e then Z.pos m * 2 ^ e else Z.pos m / 2 ^ (- e))
  | _ => 0
  end.

Example int_to_float_1 : int_to_float 1 = 0x3F800000.
Proof. reflexivity. Qed.
Example int_to_float_m2 : int_to_float (-2) = 0xC0000000.
Proof. reflexivity. Qed.
Example int_to_float_max : int_to_float INT_MAX = 0x4F000000.
Proof. vm_compute. reflexivity. Qed.
Example f32_scaled_1 : f32_scaled 0x3F800000 = 2 ^ 149.
Proof. reflexivity. Qed.

(** ** The two conversions compute the key *)

Lemma lor_high_bit n b :
  0 <= n → 0 <= b < 2 ^ (n + 1) → Z.lor b (2 ^ n) = 2 ^ n + b mod 2 ^ n.
Proof.
  intros Hn Hb. apply Z.bits_inj'. intros k Hk.
  assert (0 <= b mod 2 ^ n < 2 ^ n) by (apply Z.mod_pos_bound, Z.pow_pos_nonneg; lia).
  rewrite Z.add_nocarry_lxor.
  - rewrite Z.lor_spec, Z.lxor_spec, Z.pow2_bits_eqb by lia.
    destruct (Z.ltb_spec k n).
    + rewrite Z.mod_pow2_bits_low by lia. destruct (Z.eqb_spec n k); [lia|].
      by rewrite orb_false_r.
    + rewrite Z.mod_pow2_bits_high by lia. rewrite xorb_false_r.
      destruct (Z.eqb_spec n k); [by rewrite orb_true_r|]. rewrite orb_false_r.
      rewrite <-(Z.mod_small b (2 ^ (n + 1))) by lia. apply Z.mod_pow2_bits_high. lia.
  - apply Z.bits_inj'. intros j Hj. rewrite Z.land_spec, Z.pow2_bits_eqb, Z.bits_0 by lia.
    destruct (Z.eqb_spec n j); [subst; by rewrite Z.mod_pow2_bits_high by lia|done].
Qed.

Lemma lnot_mod n b : 0 <= b < 2 ^ n → Z.lnot b mod 2 ^ n = 2 ^ n - 1 - b.
Proof.
  intros Hb. unfold Z.lnot. rewrite <-(Z.mod_unique (Z.pred (- b)) (2 ^ n) (-1) (2 ^ n - 1 - b));
    [done|left; lia|lia].
Qed.

Lemma float_to_uint32_key v : is_u32 v → float_to_uint32 v = fp_key 23 8 v.
Proof.
  intros Hv. unfold is_u32 in Hv. unfold float_to_uint32, fp_key, fp_mag.
  destruct (f32_ge0 v).
  - change 0x80000000 with (2 ^ 31). by rewrite lor_high_bit by lia.
  - unfold u32. by rewrite lnot_mod.
Qed.

Lemma double_to_uint64_key v : is_u64 v → double_to_uint64 v = fp_key 52 11 v.
Proof.
  intros Hv. unfold is_u64 in Hv. unfold double_to_uint64, fp_key, fp_mag.
  destruct (f64_ge0 v).
  - change 0x8000000000000000 with (2 ^ 63). by rewrite lor_high_bit by lia.
  - unfold u64. by rewrite lnot_mod.
Qed.

(** The conversion back, as arithmetic. *)
Lemma land_high_bit n v :
  0 <= n → 0 <= v < 2 ^ (n + 1) → (0 <? Z.land v (2 ^ n)) = (2 ^ n <=? v).
Proof.
  intros Hn Hv. rewrite <-(Z.shiftl_1_l n).
  assert (Z.testbit v n = (Z.shiftl 1 n <=? v)) as <-.
  { rewrite Z.shiftl_1_l, Z.testbit_eqb by lia.
    assert (0 < 2 ^ n) by (apply Z.pow_pos_nonneg; lia).
    assert (v / 2 ^ n < 2) by (apply Z.div_lt_upper_bound; [lia|];
      rewrite Z.pow_add_r in Hv by lia; lia).
    assert (0 <= v / 2 ^ n) by (apply Z.div_pos; lia).
    rewrite Z.mod_small by lia.
    pose proof (Z.div_mod v (2 ^ n)). pose proof (Z.mod_pos_bound v (2 ^ n)).
    destruct (Z.leb_spec (2 ^ n) v); [apply Z.eqb_eq; nia|apply Z.eqb_neq; nia]. }
  pose proof (land_shiftl_1 v n Hn) as Hl.
  assert (0 <= Z.land v (Z.shiftl 1 n)) by (apply Z.land_nonneg; lia).
  destruct (Z.testbit v n), (Z.eqb_spec (Z.land v (Z.shiftl 1 n)) 0); simpl in *; try done; lia.
Qed.

Lemma land_low_bits n v : 0 <= n → Z.land v (2 ^ n - 1) = v mod 2 ^ n.
Proof. intros. rewrite <-Z.land_ones by lia. by rewrite Z.ones_equiv, <-Z.sub_1_r. Qed.

Lemma uint32_to_float_arith v :
  is_u32 v → uint32_to_float v = if 2 ^ 31 <=? v then v - 2 ^ 31 else 2 ^ 32 - 1 - v.
Proof.
  intros Hv. unfold is_u32 in Hv. unfold uint32_to_float.
  change (u32 (Z.lnot 0x80000000)) with (2 ^ 31 - 1). change 0x80000000 with (2 ^ 31).
  rewrite land_high_bit, land_low_bits by lia.
  destruct (Z.leb_spec (2 ^ 31) v).
  - symmetry. apply (Z.mod_unique v (2 ^ 31) 1); lia.
  - unfold u32. by rewrite lnot_mod.
Qed.

Lemma float_key_roundtrip v :
  is_u32 v → f32_is_nan v = false → v ≠ 2 ^ 31 →
  uint32_to_float (float_to_uint32 v) = v.
Proof.
  intros Hv Hn Hz. rewrite float_to_uint32_key by done.
  rewrite fp_key_signed by (unfold is_fp, is_u32 in *; simpl; try lia; done).
  assert (is_fp 23 8 v) as Hf by done.
  destruct (fp_split 23 8 ltac:(lia) ltac:(lia) v Hf) as [Hs Hm].
  change (23 + 8) with 31 in *. unfold is_u32 in *.
  destruct (fp_sign 23 8 v), (Z.eqb_spec (fp_mag 23 8 v) 0); simpl in *;
    rewrite uint32_to_float_arith by (unfold is_u32; lia);
    match goal with |- (if ?b then _ else _) = _ => destruct b eqn:E end; lia.
Qed.

(** A float that is neither NaN nor a negative zero survives the conversion
    to its integer key and back. *)
Theorem uint32_to_float_to_uint32 v :
  is_u32 v → f32_is_nan v = false → v ≠ 2 ^ 31 →
  uint32_to_float (float_to_uint32 v) = v.
Proof. apply float_key_roundtrip. Qed.

Lemma uint32_to_float_to_uint32_witness :
  uint32_to_float (float_to_uint32 (int_to_float (-2))) = int_to_float (-2).
Proof.
  apply (uint32_to_float_to_uint32 (int_to_float (-2)));
    [vm_compute; split; [discriminate|reflexivity]|reflexivity|discriminate].
Defined.

(** The 64-bit key of a double orders doubles as numbers. *)
Theorem double_to_uint64_order a b :
  is_u64 a → is_u64 b → f64_is_nan a = false → f64_is_nan b = false →
  (double_to_uint64 a <? double_to_uint64 b) = (f64_scaled a <? f64_scaled b).
Proof.
  intros Ha Hb Hna Hnb. rewrite !double_to_uint64_key by done.
  by apply fp_key_lt; [lia|lia|..].
Qed.

(** -1.0 is below 1.0. *)
Lemma double_to_uint64_order_witness :
  (double_to_uint64 0xBFF0000000000000 <? double_to_uint64 0x3FF0000000000000) = true.
Proof.
  rewrite (double_to_uint64_order 0xBFF0000000000000 0x3FF0000000000000);
    [vm_compute; reflexivity|vm_compute; split; [discriminate|reflexivity]..|reflexivity|reflexivity].
Defined.
