(* ===== verification/Schema.v ===== *)
(** * Schema: the messages of robims.proto and the error codes of robims_err.h

    A string is the list of its bytes. *)

From S2P Require Import Prelude Float.

Inductive FieldIndexType :=
| UNKNOWN_INDEX | SET_INDEX | WEIGHT_SET_INDEX | MUTEX_INDEX | INT_INDEX | FLOAT_INDEX
| BOOL_INDEX.

#[export] Instance FieldIndexType_eq_dec : EqDecision FieldIndexType.
Proof. solve_decision. Defined.

Record FieldMeta := {
  fm_name : list Z;
  fm_index_type : FieldIndexType;
  fm_min : double;
  fm_max : double;
  fm_topk_limit : Z;
  fm_max_set_num : Z;
}.

Record TableSchema := {
  ts_name : list Z;
  ts_id_field : list Z;
  ts_index_field : list FieldMeta;
  ts_disable_local_id_creation : bool;
}.

Inductive FieldOperator :=
| FIELD_OP_EQ | FIELD_OP_NEQ | FIELD_OP_GT | FIELD_OP_GTE | FIELD_OP_LT | FIELD_OP_LTE
| FIELD_OP_BETWEEN | FIELD_OP_ALL.

#[export] Instance FieldOperator_eq_dec : EqDecision FieldOperator.
Proof. solve_decision. Defined.

Definition ROBIMS_OK : Z := 0.
Definition ROBIMS_ERR_UNIMPLEMENTED : Z := -10000.
Definition ROBIMS_ERR_NOTFOUND : Z := -10001.
Definition ROBIMS_ERR_INVALID_ARGS : Z := -10002.
Definition ROBIMS_ERR_INVALID_OPERATOR : Z := -10003.
Definition ROBIMS_QUERY_ERR_INVALID_OPERATOR : Z := -20000.
Definition ROBIMS_QUERY_ERR_INVALID_FIELD_ARGS : Z := -20001.
Definition ROBIMS_QUERY_ERR_INVALID_TABLE_NAME : Z := -20002.
Definition ROBIMS_QUERY_ERR_INVALID_FIELD_NAME : Z := -20003.
Definition ROBIMS_QUERY_ERR_EMPTY_FIELD_INSTANCE : Z := -20004.
Definition ROBIMS_QUERY_ERR_INVALID_OPERAND : Z := -20005.
Definition ROBIMS_QUERY_ERR_NIL_INTERPRETER : Z := -20006.
