(* ===== verification/Bsi.v ===== *)
(** * Bsi: the bit-sliced index (robims_bsi.cpp, robims_bsi.h)

    A [BitSliceIndex] stores a number of [_bit_depth] bits for each identifier:
    [_bitmaps[0]] holds the identifiers that have a number, [_bitmaps[1 + i]]
    those whose bit [i] is set.  This file has the data and the operations on
    local (unsigned) values; BsiSpec.v says what each computes, BsiIndex.v has
    the integer and float indexes built on them.

    In-place bitmap arguments are passed and returned as values.  [None] as a
    result means the source has undefined behaviour there. *)

From S2P Require Import Prelude Roaring Cache Common Float Schema.

(** ** Options *)

Record BitSliceIndexCreateOptions := {
  _min_int : Z;
  _max_int : Z;
  _min : Z;
  _max : Z;
  _limit_topk : Z;
}.

(** Differences and sums of [int64_t] that overflow, which C++ leaves undefined,
    wrap around here, as the compiled subtraction does; the theorems about values
    ([Init_int_range], [int_range]) are for ranges where nothing overflows. *)
Definition SetMinMax_int (o : BitSliceIndexCreateOptions) (min_i max_i : Z)
    : BitSliceIndexCreateOptions :=
  let max_int := if (0 =? min_i) && (0 =? max_i) then INT_MAX else max_i in
  {| _min_int := min_i; _max_int := max_int;
     _min := 0; _max := u64 (i64 (max_int - min_i)); _limit_topk := _limit_topk o |}.

Definition SetMinMax_float (o : BitSliceIndexCreateOptions) (min_d max_d : Z)
    : BitSliceIndexCreateOptions :=
  let max_d := if negb (f32_neb 0 min_d) && negb (f32_neb 0 max_d)
               then int_to_float INT_MAX else max_d in
  {| _min_int := _min_int o; _max_int := _max_int o;
     _min := float_to_uint32 min_d; _max := float_to_uint32 max_d;
     _limit_topk := _limit_topk o |}.

Definition SetLimitTopK (o : BitSliceIndexCreateOptions) (v : Z) : BitSliceIndexCreateOptions :=
  {| _min_int := _min_int o; _max_int := _max_int o; _min := _min o; _max := _max o;
     _limit_topk := v |}.

(** The default constructor. *)
Definition default_options : BitSliceIndexCreateOptions :=
  SetMinMax_int {| _min_int := 0; _max_int := 0; _min := 0; _max := 0; _limit_topk := 0 |}
                0 INT_MAX.

Definition Distance (o : BitSliceIndexCreateOptions) : Z := u64 (_max o - _min o).
Definition GetActualIntVal (o : BitSliceIndexCreateOptions) (v : Z) : Z :=
  i64 (i64 v + _min_int o).
Definition GetActualFloatVal (o : BitSliceIndexCreateOptions) (v : Z) : Z :=
  uint32_to_float (u32 (u64 (v + _min o))).
Definition ToLocalVal_int (o : BitSliceIndexCreateOptions) (v : Z) : Z :=
  u64 (i64 (v - _min_int o)).
Definition ToLocalVal_float (o : BitSliceIndexCreateOptions) (v : Z) : Z :=
  u64 (float_to_uint32 v - _min o).

(** [for (uint8_t i = 0; i < 64; i++) if (distance < (1uLL << i)) { depth = i; break; }] *)
Fixpoint find_depth (distance : Z) (fuel i : nat) : option nat :=
  match fuel with
  | O => None
  | S fuel =>
      if distance <? Z.shiftl 1 (Z.of_nat i) then Some i else find_depth distance fuel (S i)
  end.

(** [1 << i] on a 32-bit [int]: bit 31 is the sign, and larger shifts are
    undefined. *)
Definition int_shl1 (i : nat) : option Z :=
  if (i <? 31)%nat then Some (2 ^ Z.of_nat i)
  else if (i =? 31)%nat then Some (- 2 ^ 31)
  else None.

(** [(v >> i) & 0x1] *)
Definition bit_at (v : Z) (i : nat) : Z := Z.land (Z.shiftr v (Z.of_nat i)) 1.
(** [v & (1ull << i)], as a condition *)
Definition bit_set (v : Z) (i : nat) : bool := negb (Z.land v (Z.shiftl 1 (Z.of_nat i)) =? 0).

Section bsi.
Context `{Roaring B, !Scratch B}.

Record BitSliceIndex := {
  _options : BitSliceIndexCreateOptions;
  _bitmaps : list (RoaringBitmap B);
  _bit_depth : nat;
}.

(** [BitSliceIndex() = default] *)
Definition new_index : BitSliceIndex :=
  {| _options := default_options; _bitmaps := []; _bit_depth := 0 |}.

Definition row (s : BitSliceIndex) (k : nat) : B :=
  from_option get_bitmap roaring_bitmap_create (_bitmaps s !! k).
Definition update_row (s : BitSliceIndex) (k : nat) (f : B → B) : BitSliceIndex :=
  {| _options := _options s;
     _bitmaps := alter (λ rb, SetCRoaringBitmap rb (f (get_bitmap rb))) k (_bitmaps s);
     _bit_depth := _bit_depth s |}.

(** ** Initialisation *)

Definition DoInit (s : BitSliceIndex) (meta : FieldMeta) : BitSliceIndex :=
  let o := _options s in
  let o :=
    match fm_index_type meta with
    | FLOAT_INDEX => SetMinMax_float o (double_to_float (fm_min meta)) (double_to_float (fm_max meta))
    | SET_INDEX | WEIGHT_SET_INDEX => SetMinMax_int o 0 (fm_max_set_num meta)
    | _ => SetMinMax_int o (double_to_int64 (fm_min meta)) (double_to_int64 (fm_max meta))
    end in
  let o := SetLimitTopK o (u32 (fm_topk_limit meta)) in
  {| _options := o; _bitmaps := _bitmaps s;
     _bit_depth := default (_bit_depth s) (find_depth (Distance o) 64 0) |}.

Definition Init (s : BitSliceIndex) (meta : FieldMeta) : BitSliceIndex :=
  let s := DoInit s meta in
  {| _options := _options s;
     _bitmaps := _bitmaps s ++ replicate (_bit_depth s + 1) (NewCRoaringBitmap null_bitmap);
     _bit_depth := _bit_depth s |}.

Definition GetExistBitmap (s : BitSliceIndex) : B := row s 0.

(** [if (is_empty(f)) overwrite(f, exist) else and_inplace(f, exist)] *)
Definition restrict (s : BitSliceIndex) (filter : B) : B :=
  if roaring_bitmap_is_empty filter
  then roaring_bitmap_overwrite filter (row s 0)
  else roaring_bitmap_and_inplace filter (row s 0).

(** ** Maximum and minimum *)

(** Where the [filter] pointer of [DoGetMax] points: at the caller's bitmap
    or at one of the two scratch bitmaps. *)
Inductive filter_ptr := FInput | FTmp (c : bool).

Record get_max_state := {
  gm_tmp : bool → B;
  gm_filter : filter_ptr;
  gm_cursor : bool;
  gm_max : Z;
  gm_count : Z;
  gm_last : Z;
}.

Definition gm_deref (input : B) (st : get_max_state) : B :=
  match gm_filter st with FInput => input | FTmp c => gm_tmp st c end.

Definition get_max_step (s : BitSliceIndex) (input : B) (i : nat) (st : get_max_state)
    : option get_max_state :=
  let cur := gm_cursor st in
  let t := roaring_bitmap_overwrite (gm_tmp st cur) (gm_deref input st) in
  let t := roaring_bitmap_and_inplace t (row s (1 + i)) in
  let tmp := λ c, if eqb c cur then t else gm_tmp st c in
  let and_count := roaring_bitmap_get_cardinality t in
  if 0 <? and_count then
    w ← int_shl1 i;
    Some {| gm_tmp := tmp; gm_filter := FTmp cur; gm_cursor := negb cur;
            gm_max := u64 (gm_max st + w); gm_count := and_count; gm_last := and_count |}
  else
    Some {| gm_tmp := tmp; gm_filter := gm_filter st; gm_cursor := cur;
            gm_max := gm_max st;
            gm_count := if (i =? 0)%nat then gm_last st else gm_count st;
            gm_last := gm_last st |}.

(** [for (int32_t i = n - 1; i >= 0; i--)] *)
Fixpoint get_max_loop (s : BitSliceIndex) (input : B) (n : nat) (st : get_max_state)
    : option get_max_state :=
  match n with
  | O => Some st
  | S i => st ← get_max_step s input i st; get_max_loop s input i st
  end.

(** Returns the caller's filter, the maximum and its count. *)
Definition DoGetMax (s : BitSliceIndex) (input_filter : option B) : option (option B * Z * Z) :=
  let filter := restrict s (default (acquire 0) input_filter) in
  st ← get_max_loop s filter (_bit_depth s)
         {| gm_tmp := λ c, if c then acquire 2 else acquire 1; gm_filter := FInput;
            gm_cursor := false; gm_max := 0; gm_count := 0;
            gm_last := roaring_bitmap_get_cardinality filter |};
  Some (match input_filter with Some _ => Some filter | None => None end,
        gm_max st, gm_count st).

Record get_min_state := { mn_filter : B; mn_min : Z; mn_count : Z; mn_last : Z }.

Definition get_min_step (s : BitSliceIndex) (i : nat) (st : get_min_state)
    : option get_min_state :=
  let filter := roaring_bitmap_andnot_inplace (mn_filter st) (row s (1 + i)) in
  let diff_count := roaring_bitmap_get_cardinality filter in
  if 0 <? diff_count then
    Some {| mn_filter := filter; mn_min := mn_min st; mn_count := diff_count;
            mn_last := diff_count |}
  else
    w ← int_shl1 i;
    Some {| mn_filter := filter; mn_min := u64 (mn_min st + w);
            mn_count := if (i =? 0)%nat then mn_last st else mn_count st;
            mn_last := mn_last st |}.

Fixpoint get_min_loop (s : BitSliceIndex) (n : nat) (st : get_min_state)
    : option get_min_state :=
  match n with
  | O => Some st
  | S i => st ← get_min_step s i st; get_min_loop s i st
  end.

Definition DoGetMin (s : BitSliceIndex) (input_filter : option B) : option (option B * Z * Z) :=
  let filter := restrict s (default (acquire 0) input_filter) in
  st ← get_min_loop s (_bit_depth s)
         {| mn_filter := filter; mn_min := 0; mn_count := 0; mn_last := -1 |};
  Some (match input_filter with Some _ => Some (mn_filter st) | None => None end,
        mn_min st, mn_count st).

(** ** Range scans *)

Fixpoint range_lt_loop (s : BitSliceIndex) (expect_val : Z) (allow_eq : bool) (n : nat)
    (leading_zero : bool) (filter keep tmp : B) : B :=
  match n with
  | O => filter
  | S i =>
      let bit := bit_at expect_val i in
      let row_i := row s (1 + i) in
      if leading_zero && (bit =? 0) then
        range_lt_loop s expect_val allow_eq i leading_zero
          (roaring_bitmap_andnot_inplace filter row_i) keep tmp
      else if (i =? 0)%nat && negb allow_eq then
        if bit =? 0 then roaring_bitmap_overwrite filter keep
        else
          let keep := roaring_bitmap_xor_inplace keep row_i in
          let keep := roaring_bitmap_andnot_inplace keep row_i in
          roaring_bitmap_andnot_inplace filter keep
      else if bit =? 0 then
        let tmp := roaring_bitmap_overwrite tmp row_i in
        let tmp := roaring_bitmap_andnot_inplace tmp keep in
        range_lt_loop s expect_val allow_eq i false
          (roaring_bitmap_andnot_inplace filter tmp) keep tmp
      else if (0 <? i)%nat then
        let tmp := roaring_bitmap_overwrite tmp filter in
        let tmp := roaring_bitmap_andnot_inplace tmp row_i in
        range_lt_loop s expect_val allow_eq i false filter (roaring_bitmap_or_inplace keep tmp) tmp
      else range_lt_loop s expect_val allow_eq i false filter keep tmp
  end.

Definition DoRangeLT (s : BitSliceIndex) (expect_val : Z) (allow_eq : bool) (out : B) : B :=
  range_lt_loop s expect_val allow_eq (_bit_depth s) true (restrict s out) (acquire 0) (acquire 1).

Fixpoint range_gt_loop (s : BitSliceIndex) (expect_val : Z) (allow_eq : bool) (n : nat)
    (filter keep tmp : B) : B :=
  match n with
  | O => filter
  | S i =>
      let bit := bit_at expect_val i in
      let row_i := row s (1 + i) in
      if (i =? 0)%nat && negb allow_eq then
        if bit =? 1 then roaring_bitmap_overwrite filter keep
        else
          let tmp := roaring_bitmap_overwrite tmp filter in
          let tmp := roaring_bitmap_andnot_inplace tmp row_i in
          let tmp := roaring_bitmap_andnot_inplace tmp keep in
          roaring_bitmap_andnot_inplace filter tmp
      else if bit =? 1 then
        let tmp := roaring_bitmap_overwrite tmp filter in
        let tmp := roaring_bitmap_andnot_inplace tmp row_i in
        let tmp := roaring_bitmap_andnot_inplace tmp keep in
        range_gt_loop s expect_val allow_eq i (roaring_bitmap_andnot_inplace filter tmp) keep tmp
      else if (0 <? i)%nat then
        let tmp := roaring_bitmap_overwrite tmp filter in
        let tmp := roaring_bitmap_and_inplace tmp row_i in
        range_gt_loop s expect_val allow_eq i filter (roaring_bitmap_or_inplace keep tmp) tmp
      else range_gt_loop s expect_val allow_eq i filter keep tmp
  end.

Definition DoRangeGT (s : BitSliceIndex) (expect_val : Z) (allow_eq : bool) (out : B) : B :=
  range_gt_loop s expect_val allow_eq (_bit_depth s) (restrict s out) (acquire 0) (acquire 1).

Fixpoint range_eq_loop (s : BitSliceIndex) (expect_val : Z) (n : nat) (out : B) : B :=
  match n with
  | O => out
  | S i =>
      range_eq_loop s expect_val i
        (if negb (bit_at expect_val i =? 0)
         then roaring_bitmap_and_inplace out (row s (1 + i))
         else roaring_bitmap_andnot_inplace out (row s (1 + i)))
  end.

Definition DoRangeEQ (s : BitSliceIndex) (expect_val : Z) (out : B) : B :=
  range_eq_loop s expect_val (_bit_depth s) (restrict s out).

Definition DoRangeNEQ (s : BitSliceIndex) (expect : Z) (out : B) : B :=
  let out := roaring_bitmap_overwrite out (row s 0) in
  let eq := DoRangeEQ s expect (acquire 0) in
  roaring_bitmap_andnot_inplace out eq.

Fixpoint range_between_loop (s : BitSliceIndex) (expect_min expect_max : Z) (n : nat)
    (filter keep1 keep2 tmp : B) : B :=
  match n with
  | O => filter
  | S i =>
      let row_i := row s (1 + i) in
      let bit1 := bit_at expect_min i in
      let bit2 := bit_at expect_max i in
      let '(filter, keep1, tmp) :=
        if bit1 =? 1 then
          let tmp := roaring_bitmap_overwrite tmp filter in
          let tmp := roaring_bitmap_andnot_inplace tmp row_i in
          let tmp := roaring_bitmap_andnot_inplace tmp keep1 in
          (roaring_bitmap_andnot_inplace filter tmp, keep1, tmp)
        else if (0 <? i)%nat then
          let tmp := roaring_bitmap_overwrite tmp filter in
          let tmp := roaring_bitmap_and_inplace tmp row_i in
          (filter, roaring_bitmap_or_inplace keep1 tmp, tmp)
        else (filter, keep1, tmp) in
      let '(filter, keep2, tmp) :=
        if bit2 =? 0 then
          let tmp := roaring_bitmap_overwrite tmp row_i in
          let tmp := roaring_bitmap_andnot_inplace tmp keep2 in
          (roaring_bitmap_andnot_inplace filter tmp, keep2, tmp)
        else if (0 <? i)%nat then
          let tmp := roaring_bitmap_overwrite tmp filter in
          let tmp := roaring_bitmap_andnot_inplace tmp row_i in
          (filter, roaring_bitmap_or_inplace keep2 tmp, tmp)
        else (filter, keep2, tmp) in
      range_between_loop s expect_min expect_max i filter keep1 keep2 tmp
  end.

Definition DoRangeBetween (s : BitSliceIndex) (expect_min expect_max : Z) (filter : B) : B :=
  range_between_loop s expect_min expect_max (_bit_depth s) (restrict s filter)
    (acquire 0) (acquire 1) (acquire 2).

(** ** The k largest *)

Fixpoint topk_loop (s : BitSliceIndex) (k : Z) (n : nat) (filter out tmp : B) (rest_k : Z) : B :=
  match n with
  | O => out
  | S i =>
      let row_i := row s (1 + i) in
      let tmp := roaring_bitmap_overwrite tmp filter in
      let filter := roaring_bitmap_and_inplace filter row_i in
      (* [int n] is converted to unsigned for the comparison with [rest_k] *)
      let n := u32 (i32 (roaring_bitmap_get_cardinality filter)) in
      if rest_k <? n then topk_loop s k i filter out tmp rest_k
      else if n <? rest_k then
        if (0 =? n) && (0 <? i)%nat then
          topk_loop s k i (roaring_bitmap_overwrite filter tmp) out tmp rest_k
        else
          let out := roaring_bitmap_or_inplace out filter in
          let rest_k := u32 (k - roaring_bitmap_get_cardinality out) in
          let tmp := roaring_bitmap_andnot_inplace tmp out in
          topk_loop s k i (roaring_bitmap_overwrite filter tmp) out tmp rest_k
      else roaring_bitmap_or_inplace out filter
  end.

Definition TopK (s : BitSliceIndex) (k : Z) (out : B) : B :=
  let filter := roaring_bitmap_overwrite (acquire 0) (row s 0) in
  topk_loop s k (_bit_depth s) filter out (acquire 1) k.

(** ** Updates *)

Definition remove_bit (id val : Z) (s : BitSliceIndex) (i : nat) : BitSliceIndex :=
  if bit_set val i then update_row s (i + 1) (λ b, roaring_bitmap_remove b id) else s.

(** [for (int32_t i = 0; i < _bit_depth; i++)] *)
Definition DoRemove (s : BitSliceIndex) (id val : Z) : BitSliceIndex :=
  let s := update_row s 0 (λ b, roaring_bitmap_remove b id) in
  foldl (remove_bit id val) s (seq 0 (_bit_depth s)).

(** Returns the removed value, or 0. *)
Definition DoRemoveMin (s : BitSliceIndex) : option (BitSliceIndex * Z) :=
  '(_, min_val, min_count) ← DoGetMin s (Some (acquire 0));
  if 0 <? min_count then
    match bitmap_extract_ids (DoRangeEQ s min_val (acquire 1)) with
    | id :: _ => Some (DoRemove s id min_val, min_val)
    | [] => None
    end
  else Some (s, 0).

Definition put_bit (id val : Z) (s : BitSliceIndex) (i : nat) : BitSliceIndex :=
  update_row s (i + 1) (λ b, if bit_set val i then roaring_bitmap_add b id
                             else roaring_bitmap_remove b id).

Definition read_bit (id : Z) (s : BitSliceIndex) (acc : Z) (i : nat) : Z :=
  if (row s (1 + i)).[id] then u64 (acc + Z.shiftl 1 (Z.of_nat i)) else acc.

Definition overwrite_bit (id val : Z) (so : BitSliceIndex * Z) (i : nat) : BitSliceIndex * Z :=
  let '(s, old_val) := so in (put_bit id val s i, read_bit id s old_val i).

(** Returns the index, whether the identifier had a value, and that value
    ([old_val] is left as it was otherwise). *)
Definition DoPut (s : BitSliceIndex) (id val old_val : Z) : option (BitSliceIndex * bool * Z) :=
  let '(inserted, b0) := roaring_bitmap_add_checked (row s 0) id in
  let s := update_row s 0 (λ _, b0) in
  if inserted then
    let s := foldl (put_bit id val) s (seq 0 (_bit_depth s)) in
    if (0 <? _limit_topk (_options s))
       && (_limit_topk (_options s) <? roaring_bitmap_get_cardinality (row s 0))
    then '(s, _) ← DoRemoveMin s; Some (s, false, old_val)
    else Some (s, false, old_val)
  else
    let '(s, old_val) := foldl (overwrite_bit id val) (s, 0) (seq 0 (_bit_depth s)) in
    Some (s, true, old_val).

Definition DoGet (s : BitSliceIndex) (id : Z) : option Z :=
  if negb (row s 0).[id] then None
  else Some (foldl (read_bit id s) 0 (seq 0 (_bit_depth s))).

(** ** Persistence *)

(** [p.reset(new RoaringBitmap); emplace_back(p); _bitmaps[i]->Load(fp)] *)
Fixpoint load_loop (n i : nat) (bs : list (RoaringBitmap B)) : Reader (list (RoaringBitmap B)) :=
  match n with
  | O => rd_ret bs
  | S n =>
      let bs := bs ++ [null_bitmap] in
      rb ←ʳ RoaringBitmap_Load; load_loop n (S i) (<[i := rb]> bs)
  end.

Definition BitSliceIndex_Load (s : BitSliceIndex) : Reader BitSliceIndex :=
  n ←ʳ file_read_uint32;
  bs ←ʳ load_loop (Z.to_nat n) 0 (_bitmaps s);
  rd_ret {| _options := _options s; _bitmaps := bs; _bit_depth := _bit_depth s |}.

Definition BitSliceIndex_Save (s : BitSliceIndex) (readonly : bool) : Writer :=
  file_write_uint32 (Z.of_nat (length (_bitmaps s))) ;;ʷ
  wr_each (λ b, RoaringBitmap_Save b readonly) (_bitmaps s).
End bsi.

Arguments BitSliceIndex : clear implicits.
