(* ===== verification/BsiSpec.v ===== *)
(** * BsiSpec: what the scans of the bit-sliced index compute

    The abstract view of an index is the partial map [lookup_value] from
    identifiers to numbers of [_bit_depth] bits.  The scans read the bitmaps
    from the most significant bit down, so their invariants compare the
    prefixes [hi n] of the stored number and of the bound. *)

From S2P Require Import Prelude Roaring Cache Common Float Schema Bsi.

Section spec.
Context `{Roaring B, !Scratch B}.
Implicit Types (s : BitSliceIndex B) (out filter keep tmp : B) (id v : Z).

(** ** The abstract view *)

Definition value s id : Z := bits_value (λ i, (row s (S i)).[id]) (_bit_depth s).
Definition lookup_value s id : option Z :=
  if (row s 0).[id] then Some (value s id) else None.

(** Every bitmap the operations index is in the vector and is not null. *)
Definition wf s : Prop :=
  ∀ k, (k <= _bit_depth s)%nat → ∃ rb b, _bitmaps s !! k = Some rb ∧ bitmap rb = Some b.

(** The part of the index a scan looks at: all of it when the filter that is
    passed in is empty. *)
Definition selected s out id : bool :=
  (roaring_bitmap_is_empty out || out.[id]) && (row s 0).[id].

(** The bits of a bound that the scans look at. *)
Definition low_bits s v : Z := v mod 2 ^ Z.of_nat (_bit_depth s).

Lemma value_range s id : 0 <= value s id < 2 ^ Z.of_nat (_bit_depth s).
Proof. apply bits_value_range. Qed.

Lemma low_bits_range s v : 0 <= low_bits s v < 2 ^ Z.of_nat (_bit_depth s).
Proof. apply Z.mod_pos_bound. lia. Qed.

Lemma low_bits_id s v : 0 <= v < 2 ^ Z.of_nat (_bit_depth s) → low_bits s v = v.
Proof. apply Z.mod_small. Qed.

Lemma row_bit s i id :
  (i < _bit_depth s)%nat → (row s (S i)).[id] = Z.testbit (value s id) (Z.of_nat i).
Proof.
  intros Hi. unfold value. rewrite bits_value_testbit.
  by destruct (Nat.ltb_spec i (_bit_depth s)); [|lia].
Qed.

Lemma bit_at_low s v i :
  (i < _bit_depth s)%nat → bit_at v i = Z.b2z (Z.testbit (low_bits s v) (Z.of_nat i)).
Proof.
  intros Hi. unfold bit_at, low_bits. rewrite land_shiftr_1 by lia.
  by rewrite Z.mod_pow2_bits_low by lia.
Qed.

Lemma contains_restrict s out id : (restrict s out).[id] = selected s out id.
Proof.
  unfold restrict, selected. destruct (roaring_bitmap_is_empty out); by autorewrite with bitmap.
Qed.

Lemma hi_value_top s id : hi (_bit_depth s) (value s id) = 0.
Proof. apply hi_small, value_range. Qed.

Lemma hi_low_top s v : hi (_bit_depth s) (low_bits s v) = 0.
Proof. apply hi_small, low_bits_range. Qed.

Lemma hi_value_nonneg s n id : 0 <= hi n (value s id).
Proof. apply hi_nonneg, value_range. Qed.

Lemma hi_low_nonneg s n v : 0 <= hi n (low_bits s v).
Proof. apply hi_nonneg, low_bits_range. Qed.

(** The step of a scan at bit [i]: [scan_bit s v i] splits on bit [i] of the
    bound, [scan_step i] reads bit [i] of the stored number and compares the
    prefixes one bit longer. *)
Ltac scan_bit s v i :=
  rewrite ?(bit_at_low s v i) by lia;
  destruct (Z.testbit (low_bits s v) (Z.of_nat i)) eqn:?;
  cbn [Z.b2z Z.eqb Pos.eqb negb andb].

Ltac scan_step i :=
  autorewrite with bitmap; rewrite ?row_bit by lia;
  repeat match goal with HF : ∀ id, _.[id] = _ |- _ => rewrite HF; clear HF end;
  rewrite ?(hi_step i (value _ _)), ?(hi_step i (low_bits _ _));
  repeat match goal with
  | E : Z.testbit (low_bits _ _) (Z.of_nat i) = _ |- _ => rewrite E; clear E
  end;
  repeat match goal with
  | |- context [hi ?n (value ?s ?id)] =>
      pose proof (hi_value_nonneg s n id); generalize dependent (hi n (value s id)); intros
  | |- context [hi ?n (low_bits ?s ?v)] =>
      pose proof (hi_low_nonneg s n v); generalize dependent (hi n (low_bits s v)); intros
  end;
  repeat match goal with
  | |- context [Z.testbit ?x (Z.of_nat i)] => destruct (Z.testbit x (Z.of_nat i))
  | |- context [?P ?id && _] => is_var P; destruct (P id)
  end; simpl Z.b2z in *; simpl andb; simpl orb; simpl negb; simpl xorb; bool_lia.

(** ** Equality *)

Lemma range_eq_loop_spec s v (P : Z → bool) n out :
  (n <= _bit_depth s)%nat →
  (∀ id, out.[id] = P id && (hi n (value s id) =? hi n (low_bits s v))) →
  ∀ id, (range_eq_loop s v n out).[id] = P id && (value s id =? low_bits s v).
Proof.
  revert out. induction n as [|i IH]; intros out Hn Hout id; cbn [range_eq_loop].
  { by rewrite Hout, !hi_0. }
  apply IH; [lia|]. intros id'. scan_bit s v i; scan_step i.
Qed.

Lemma DoRangeEQ_contains s v out id :
  (DoRangeEQ s v out).[id] = selected s out id && (value s id =? low_bits s v).
Proof.
  apply range_eq_loop_spec; [done|]. intros id'.
  by rewrite contains_restrict, hi_value_top, hi_low_top, andb_true_r.
Qed.

Lemma selected_acquire s n id : selected s (acquire n) id = (row s 0).[id].
Proof.
  unfold selected. rewrite (proj2 (is_empty_true (acquire n))); [done|].
  intros. by autorewrite with bitmap.
Qed.

Lemma DoRangeNEQ_contains s v out id :
  (DoRangeNEQ s v out).[id] = (row s 0).[id] && negb (value s id =? low_bits s v).
Proof.
  unfold DoRangeNEQ. autorewrite with bitmap. rewrite DoRangeEQ_contains, selected_acquire.
  by destruct (row s 0).[id].
Qed.

(** ** Greater than *)

Lemma range_gt_loop_spec s v allow_eq (P : Z → bool) n filter keep tmp :
  (n <= _bit_depth s)%nat →
  (n = 0%nat → allow_eq = true) →
  (∀ id, filter.[id] = P id && (hi n (low_bits s v) <=? hi n (value s id))) →
  (n ≠ 0%nat → ∀ id, keep.[id] = P id && (hi n (low_bits s v) <? hi n (value s id))) →
  ∀ id, (range_gt_loop s v allow_eq n filter keep tmp).[id]
        = P id && (if allow_eq then low_bits s v <=? value s id else low_bits s v <? value s id).
Proof.
  revert filter keep tmp.
  induction n as [|i IH]; intros filter keep tmp Hn Hz Hf Hk id; cbn [range_gt_loop].
  { rewrite Hz, Hf, !hi_0 by done. done. }
  specialize (Hk (Nat.neq_succ_0 i)).
  destruct ((i =? 0)%nat && negb allow_eq) eqn:Hlast.
  - apply andb_true_iff in Hlast as [->%Nat.eqb_eq ->%negb_true_iff].
    rewrite <-(hi_0 (low_bits s v)), <-(hi_0 (value s id)).
    scan_bit s v 0%nat; scan_step 0%nat.
  - assert (i = 0%nat → allow_eq = true) as Hz'.
    { intros ->. by destruct allow_eq. }
    scan_bit s v i; [apply IH; [lia|done|..]; intros; scan_step i|].
    destruct (Nat.ltb_spec 0 i); apply IH; (done || lia || intros; scan_step i).
Qed.

Lemma DoRangeGT_contains s v allow_eq out id :
  allow_eq = true ∨ (0 < _bit_depth s)%nat →
  (DoRangeGT s v allow_eq out).[id]
  = selected s out id
    && (if allow_eq then low_bits s v <=? value s id else low_bits s v <? value s id).
Proof.
  intros Hd. apply range_gt_loop_spec; [done|intros; destruct Hd; [done|lia]|..].
  - intros id'. by rewrite contains_restrict, hi_value_top, hi_low_top, andb_true_r.
  - intros _ id'. autorewrite with bitmap.
    by rewrite hi_value_top, hi_low_top, andb_false_r.
Qed.

(** ** Less than *)

(** What the strict scan returns, for a number [x] and a bound [y]. *)
Definition lt_scan (x y : Z) : bool :=
  if y =? 0 then x =? 0
  else if Z.even y then x <? y
  else (x / 2 =? y / 2) || ((x / 2 <? y / 2) && Z.odd x).

Lemma lt_scan_hi x y :
  0 <= x → 0 <= y →
  lt_scan x y =
    if y =? 0 then x =? 0
    else if Z.testbit y (Z.of_nat 0) then
      (hi 1 x =? hi 1 y) || ((hi 1 x <? hi 1 y) && Z.testbit x (Z.of_nat 0))
    else hi 1 x <? hi 1 y.
Proof.
  intros Hx Hy. unfold lt_scan. change (Z.of_nat 0) with 0.
  rewrite <-Z.negb_odd, !Z.bit0_odd.
  pose proof (hi_step 0 x) as Ex. pose proof (hi_step 0 y) as Ey.
  rewrite !hi_0 in Ex, Ey. change (Z.of_nat 0) with 0 in *. rewrite !Z.bit0_odd in Ex, Ey.
  rewrite !hi_div. change (2 ^ Z.of_nat 1) with 2. rewrite hi_div in Ex, Ey.
  change (2 ^ Z.of_nat 1) with 2 in *.
  destruct (Z.odd y); simpl in *; [done|].
  destruct (y =? 0); [done|]. destruct (Z.odd x); simpl in *; bool_lia.
Qed.

Lemma range_lt_loop_spec s v allow_eq (P : Z → bool) n lz filter keep tmp :
  (n <= _bit_depth s)%nat →
  (n = 0%nat → allow_eq = true ∨ low_bits s v = 0) →
  lz = (hi n (low_bits s v) =? 0) →
  (∀ id, filter.[id] = P id && (hi n (value s id) <=? hi n (low_bits s v))) →
  (n ≠ 0%nat → ∀ id, keep.[id] = P id && (hi n (value s id) <? hi n (low_bits s v))) →
  ∀ id, (range_lt_loop s v allow_eq n lz filter keep tmp).[id]
        = P id && (if allow_eq then value s id <=? low_bits s v
                   else lt_scan (value s id) (low_bits s v)).
Proof.
  revert lz filter keep tmp.
  induction n as [|i IH]; intros lz filter keep tmp Hn Hz Hlz Hf Hk id; cbn [range_lt_loop].
  { rewrite Hf, !hi_0. destruct allow_eq; [done|].
    destruct Hz as [|Hz]; [done..|]. unfold lt_scan. rewrite Hz.
    pose proof (value_range s id). f_equal. bool_lia. }
  specialize (Hk (Nat.neq_succ_0 i)).
  pose proof (hi_step i (low_bits s v)) as Hstep.
  destruct (lz && (bit_at v i =? 0)) eqn:Hlead.
  { apply andb_true_iff in Hlead as [-> Hb]. symmetry in Hlz. apply Z.eqb_eq in Hlz.
    rewrite (bit_at_low s) in Hb by lia.
    destruct (Z.testbit (low_bits s v) (Z.of_nat i)) eqn:E; [done|].
    rewrite Hlz in Hstep. simpl in Hstep.
    apply IH; [lia| | | |].
    - intros ->. right. by rewrite hi_0 in Hstep.
    - by rewrite Hstep.
    - intros id'. autorewrite with bitmap. rewrite row_bit, Hf, Hlz, Hstep by lia.
      rewrite (hi_step i (value s id')). pose proof (hi_value_nonneg s (S i) id').
      destruct (P id'), (Z.testbit (value s id') (Z.of_nat i)); simpl; bool_lia.
    - intros _ id'. rewrite Hk, Hlz, Hstep. pose proof (hi_value_nonneg s (S i) id').
      pose proof (hi_value_nonneg s i id'). destruct (P id'); simpl; bool_lia. }
  assert ((hi i (low_bits s v) =? 0) = false) as Hnz.
  { apply Z.eqb_neq. pose proof (hi_low_nonneg s (S i) v).
    rewrite (bit_at_low s) in Hlead by lia.
    destruct lz; symmetry in Hlz; [apply Z.eqb_eq in Hlz|apply Z.eqb_neq in Hlz];
      destruct (Z.testbit (low_bits s v) (Z.of_nat i)); simpl in *; lia || done. }
  destruct ((i =? 0)%nat && negb allow_eq) eqn:Hlast.
  - apply andb_true_iff in Hlast as [->%Nat.eqb_eq ->%negb_true_iff].
    rewrite lt_scan_hi by (apply value_range || apply low_bits_range).
    rewrite hi_0 in Hnz. rewrite Hnz.
    clear Hstep Hlead Hlz Hnz.
    scan_bit s v 0%nat; scan_step 0%nat.
  - assert (i = 0%nat → allow_eq = true ∨ low_bits s v = 0) as Hz'.
    { intros ->. by destruct allow_eq; [left|]. }
    clear Hstep Hlead Hlz.
    scan_bit s v i; [|apply IH; done || lia || intros; scan_step i].
    destruct (Nat.ltb_spec 0 i); apply IH; (done || lia || intros; scan_step i).
Qed.

Lemma DoRangeLT_contains s v allow_eq out id :
  allow_eq = true ∨ (0 < _bit_depth s)%nat →
  (DoRangeLT s v allow_eq out).[id]
  = selected s out id
    && (if allow_eq then value s id <=? low_bits s v
        else lt_scan (value s id) (low_bits s v)).
Proof.
  intros Hd. apply range_lt_loop_spec; [done|intros; destruct Hd; [by left|lia]|..].
  - by rewrite hi_low_top.
  - intros id'. by rewrite contains_restrict, hi_value_top, hi_low_top, andb_true_r.
  - intros _ id'. autorewrite with bitmap.
    by rewrite hi_value_top, hi_low_top, andb_false_r.
Qed.

(** ** Between *)

(** One iteration at one identifier: [f], [k1] and [k2] say whether it is in
    [filter], [keep1] and [keep2], [r] is its bit, [x], [l] and [u] are the
    prefixes of its number and of the bounds. *)
Lemma between_step (p f k1 k2 r b1 b2 more : bool) (x l u : Z) :
  f = p && (l <=? x) && (x <=? u) →
  (f = true → k1 = (l <? x)) → (f = true → k2 = (x <? u)) →
  let f1 := if b1 then f && negb (f && negb r && negb k1) else f in
  let f2 := if b2 then f1 else f1 && negb (r && negb k2) in
  let k1' := if b1 then k1 else if more then k1 || (f && r) else k1 in
  let k2' := if b2 then if more then k2 || (f1 && negb r) else k2 else k2 in
  let x' := 2 * x + Z.b2z r in
  let l' := 2 * l + Z.b2z b1 in
  let u' := 2 * u + Z.b2z b2 in
  f2 = p && (l' <=? x') && (x' <=? u') ∧
  (more = true → f2 = true → k1' = (l' <? x')) ∧
  (more = true → f2 = true → k2' = (x' <? u')).
Proof.
  intros -> H1 H2. cbv zeta.
  destruct p; simpl in *; [|destruct b1, b2; simpl; done].
  destruct (Z.leb_spec l x), (Z.leb_spec x u); simpl in *;
    [rewrite (H1 eq_refl), (H2 eq_refl) in *|..]; clear H1 H2;
    destruct r, b1, b2, more; simpl Z.b2z; split_and!; intros;
    bool_lia; repeat case_match; simpl in *; try done; bool_lia.
Qed.

Lemma range_between_loop_spec s lo up (P : Z → bool) n filter keep1 keep2 tmp :
  (n <= _bit_depth s)%nat →
  (∀ id, filter.[id] = P id && (hi n (low_bits s lo) <=? hi n (value s id))
                        && (hi n (value s id) <=? hi n (low_bits s up))) →
  (n ≠ 0%nat → ∀ id, filter.[id] = true →
     keep1.[id] = (hi n (low_bits s lo) <? hi n (value s id))) →
  (n ≠ 0%nat → ∀ id, filter.[id] = true →
     keep2.[id] = (hi n (value s id) <? hi n (low_bits s up))) →
  ∀ id, (range_between_loop s lo up n filter keep1 keep2 tmp).[id]
        = P id && (low_bits s lo <=? value s id) && (value s id <=? low_bits s up).
Proof.
  revert filter keep1 keep2 tmp.
  induction n as [|i IH]; intros filter keep1 keep2 tmp Hn Hf Hk1 Hk2 id;
    cbn [range_between_loop].
  { by rewrite Hf, !hi_0. }
  specialize (Hk1 (Nat.neq_succ_0 i)). specialize (Hk2 (Nat.neq_succ_0 i)).
  rewrite !(bit_at_low s) by lia.
  pose proof (λ id', between_step (P id') _ _ _ (Z.testbit (value s id') (Z.of_nat i))
    (Z.testbit (low_bits s lo) (Z.of_nat i)) (Z.testbit (low_bits s up) (Z.of_nat i))
    (0 <? i)%nat _ _ _ (Hf id') (Hk1 id') (Hk2 id')) as Hstep.
  clear Hf Hk1 Hk2. cbv zeta in Hstep. setoid_rewrite <-hi_step in Hstep.
  destruct (Z.testbit (low_bits s lo) (Z.of_nat i)), (Z.testbit (low_bits s up) (Z.of_nat i));
    cbn [Z.b2z Z.eqb Pos.eqb] in *; destruct (Nat.ltb_spec 0 i); apply IH; try lia;
    intros; autorewrite with bitmap in *; rewrite ?row_bit in * by lia; by apply Hstep.
Qed.

Lemma DoRangeBetween_contains s lo up out id :
  (DoRangeBetween s lo up out).[id]
  = selected s out id && (low_bits s lo <=? value s id) && (value s id <=? low_bits s up).
Proof.
  apply range_between_loop_spec; [done|..]; intros; autorewrite with bitmap;
    rewrite hi_value_top, hi_low_top; [|done..].
  by rewrite contains_restrict, hi_low_top, !andb_true_r.
Qed.

(** ** Maximum *)

Lemma int_shl1_small i : (i < 31)%nat → int_shl1 i = Some (2 ^ Z.of_nat i).
Proof. intros. unfold int_shl1. by destruct (Nat.ltb_spec i 31); [|lia]. Qed.

(** The state of [DoGetMax] after the bits from [n] up: the scratch bitmap the
    next iteration overwrites is not the current filter, which holds the
    identifiers whose prefix is the largest prefix [m]. *)
Record get_max_inv s (P : Z → bool) (input : B) (n : nat) (m : Z) (st : get_max_state) : Prop := {
  gmi_buffer : gm_filter st ≠ FTmp (gm_cursor st);
  gmi_max : gm_max st = m * 2 ^ Z.of_nat n;
  gmi_range : 0 <= m ∧ (m + 1) * 2 ^ Z.of_nat n <= 2 ^ 31;
  gmi_filter id : (gm_deref input st).[id] = P id && (hi n (value s id) =? m);
  gmi_upper id : P id = true → hi n (value s id) <= m;
  gmi_last : gm_last st = roaring_bitmap_get_cardinality (gm_deref input st);
  gmi_some id : P id = true → ∃ id', (gm_deref input st).[id'] = true;
  gmi_count : n = 0%nat → gm_count st = roaring_bitmap_get_cardinality (gm_deref input st);
}.

Lemma pow2_double i m :
  m * 2 ^ Z.of_nat (S i) + 2 ^ Z.of_nat i = (2 * m + 1) * 2 ^ Z.of_nat i
  ∧ m * 2 ^ Z.of_nat (S i) = (2 * m) * 2 ^ Z.of_nat i
  ∧ (m + 1) * 2 ^ Z.of_nat (S i) = (2 * m + 2) * 2 ^ Z.of_nat i.
Proof. rewrite Nat2Z.inj_succ, Z.pow_succ_r by lia. lia. Qed.

Lemma get_max_step_inv s P input i m st :
  (i < _bit_depth s <= 31)%nat →
  get_max_inv s P input (S i) m st →
  ∃ m' st', get_max_step s input i st = Some st' ∧ get_max_inv s P input i m' st'.
Proof.
  intros Hi [Hbuf Hmax Hr Hf Hu Hl Hs _]. unfold get_max_step.
  set (F := gm_deref input st) in *. set (cur := gm_cursor st) in *.
  set (t := roaring_bitmap_and_inplace (roaring_bitmap_overwrite (gm_tmp st cur) F) (row s (1 + i))).
  assert (∀ id, t.[id] = P id && (hi i (value s id) =? 2 * m + 1)) as Ht.
  { intros id. unfold t. autorewrite with bitmap. rewrite Hf. change (1 + i)%nat with (S i).
    rewrite row_bit, (hi_step i (value s id)) by lia.
    destruct (P id), (Z.testbit (value s id) (Z.of_nat i)); simpl; bool_lia. }
  destruct (pow2_double i m) as (E1 & E2 & E3).
  assert (0 < 2 ^ Z.of_nat i) by lia.
  destruct (Z.ltb_spec 0 (roaring_bitmap_get_cardinality t)) as [Hpos|Hzero].
  - rewrite int_shl1_small by lia. simpl. eexists (2 * m + 1), _. split; [done|].
    split; simpl; unfold gm_deref; simpl; rewrite ?eqb_reflx; try done.
    + by intros [= E]; destruct cur.
    + rewrite Hmax, E1, u64_id; [done|]. unfold is_u64. nia.
    + nia.
    + intros id HP. specialize (Hu id HP). rewrite (hi_step i (value s id)).
      destruct (Z.testbit _ _); simpl; lia.
    + intros. by apply cardinality_pos_inv.
  - assert (∀ id, F.[id] = true → Z.testbit (value s id) (Z.of_nat i) = false) as Hzb.
    { intros id. rewrite Hf, andb_true_iff, Z.eqb_eq. intros [HP Hm].
      destruct (Z.testbit (value s id) (Z.of_nat i)) eqn:E; [|done].
      assert (t.[id] = true) as Hin.
      { rewrite Ht, HP, (hi_step i (value s id)), E, Hm. simpl. apply Z.eqb_refl. }
      apply cardinality_pos in Hin. lia. }
    assert (gm_deref input {| gm_tmp := λ c, if eqb c cur then t else gm_tmp st c;
              gm_filter := gm_filter st; gm_cursor := cur; gm_max := gm_max st;
              gm_count := if (i =? 0)%nat then gm_last st else gm_count st;
              gm_last := gm_last st |} = F) as HF.
    { unfold F, gm_deref. simpl. destruct (gm_filter st) as [|c] eqn:Ef; [done|].
      destruct (eqb c cur) eqn:E; [|done]. apply eqb_prop in E. destruct Hbuf. by rewrite E. }
    eexists (2 * m), _. split; [done|].
    split; rewrite ?HF; simpl; try done.
    + by rewrite Hmax, E2.
    + nia.
    + intros id. rewrite Hf. specialize (Hzb id). rewrite Hf in Hzb.
      rewrite (hi_step i (value s id)).
      destruct (P id), (Z.testbit (value s id) (Z.of_nat i)); simpl in *; bool_lia.
    + intros id HP. specialize (Hu id HP). specialize (Hzb id).
      rewrite Hf, HP in Hzb. rewrite (hi_step i (value s id)).
      destruct (Z.testbit _ _); simpl in *; [|lia].
      destruct (Z.eqb_spec (hi (S i) (value s id)) m); simpl in *; [by specialize (Hzb eq_refl)|lia].
    + intros ->. done.
Qed.

Lemma get_max_loop_inv s P input n m st :
  (n <= _bit_depth s <= 31)%nat →
  get_max_inv s P input n m st →
  ∃ m' st', get_max_loop s input n st = Some st' ∧ get_max_inv s P input 0 m' st'.
Proof.
  revert m st. induction n as [|i IH]; intros m st Hn Hinv; simpl; [eauto|].
  destruct (get_max_step_inv s P input i m st) as (m' & st' & -> & Hinv'); [lia|done|].
  simpl. apply (IH m'); [lia|done].
Qed.

(** [count] is the number of identifiers of [P] whose number is [m]. *)
Definition counts s (P : Z → bool) (m count : Z) : Prop :=
  ∃ b : B, (∀ id, b.[id] = P id && (value s id =? m)) ∧
           count = roaring_bitmap_get_cardinality b.

Lemma DoGetMax_result s input :
  (0 < _bit_depth s <= 31)%nat →
  let P := selected s (default (acquire 0) input) in
  ∃ m count, DoGetMax s input = Some (restrict s <$> input, m, count) ∧
    (∀ id, P id = true → value s id <= m) ∧
    counts s P m count ∧
    (∀ id, P id = true → 0 < count).
Proof.
  intros Hd P. unfold DoGetMax.
  set (st0 := {| gm_tmp := _ |}).
  destruct (get_max_loop_inv s P (restrict s (default (acquire 0) input)) (_bit_depth s) 0 st0)
    as (m & st & -> & [_ Hmax Hr Hf Hu Hl Hs Hc]); [lia|unfold st0; split; unfold gm_deref; simpl; try done..|].
  - split; [lia|]. rewrite Z.mul_1_l. apply Z.pow_le_mono_r; lia.
  - intros id. by rewrite hi_value_top, contains_restrict, andb_true_r.
  - intros id _. by rewrite hi_value_top.
  - intros id HP. exists id. by rewrite contains_restrict.
  - lia.
  - simpl. eexists _, _. split; [by destruct input|]. rewrite Hmax, Z.mul_1_r, Hc by done.
    setoid_rewrite hi_0 in Hu. setoid_rewrite hi_0 in Hf.
    split_and!; [done|by eexists|]. intros id HP. destruct (Hs id HP) as [id' Hid'].
    by eapply cardinality_pos.
Qed.
End spec.
