(* ===== verification/BsiRank.v ===== *)
(** * BsiRank: the minimum and the k largest numbers of a bit-sliced index *)

From S2P Require Import Prelude Roaring Cache Common Float Schema Bsi BsiSpec.

Section rank.
Context `{Roaring B, !Scratch B}.
Implicit Types (s : BitSliceIndex B) (out filter tmp : B) (id : Z).

(** ** Minimum

    [DoGetMin] subtracts every bitmap from its filter and never restores it,
    so it works out the bit length [t] of the minimum and answers
    [2 ^ t - 1]. *)

Lemma pow2_bound i : (i <= 31)%nat → 0 < 2 ^ Z.of_nat i <= 2 ^ 31.
Proof. intros. split; [lia|]. apply Z.pow_le_mono_r; lia. Qed.

Lemma pow2_S i : 2 ^ Z.of_nat (S i) = 2 * 2 ^ Z.of_nat i.
Proof. by rewrite Nat2Z.inj_succ, Z.pow_succ_r by lia. Qed.

(** An iteration that leaves no identifier adds its bit to the answer. *)
Lemma get_min_step_empty s i st :
  (i < 31)%nat → 0 <= mn_min st <= 2 ^ 31 →
  (∀ id, (mn_filter st).[id] = true → (row s (1 + i)).[id] = true) →
  ∃ F : B, (∀ id, F.[id] = false) ∧
    get_min_step s i st
    = Some {| mn_filter := F; mn_min := mn_min st + 2 ^ Z.of_nat i;
              mn_count := if (i =? 0)%nat then mn_last st else mn_count st;
              mn_last := mn_last st |}.
Proof.
  intros Hi Hm Hall. unfold get_min_step.
  set (F := roaring_bitmap_andnot_inplace (mn_filter st) (row s (1 + i))).
  assert (∀ id, F.[id] = false) as HF.
  { intros id. unfold F. autorewrite with bitmap. specialize (Hall id).
    destruct (mn_filter st).[id]; [by rewrite Hall|done]. }
  exists F. split; [done|]. rewrite (proj2 (cardinality_0 F) HF). simpl.
  rewrite int_shl1_small by lia. simpl. do 2 f_equal.
  pose proof (pow2_bound i). apply u64_id. unfold is_u64. lia.
Qed.

(** Once the filter is empty every remaining bit is added. *)
Lemma get_min_loop_empty s n t st :
  (n < t <= 31)%nat →
  (∀ id, (mn_filter st).[id] = false) →
  mn_min st = 2 ^ Z.of_nat t - 2 ^ Z.of_nat n →
  (n = 0%nat → mn_count st = mn_last st) →
  ∃ st', get_min_loop s n st = Some st' ∧
    mn_min st' = 2 ^ Z.of_nat t - 1 ∧ mn_count st' = mn_last st.
Proof.
  revert st. induction n as [|i IH]; intros st Hn He Hm Hc; simpl.
  { exists st. split_and!; [done|by rewrite Hm|by apply Hc]. }
  pose proof (pow2_bound t). pose proof (pow2_S i).
  assert (2 ^ Z.of_nat (S i) <= 2 ^ Z.of_nat t) by (apply Z.pow_le_mono_r; lia).
  destruct (get_min_step_empty s i st) as (F & HF & ->); [lia|lia|by intros id; rewrite He|].
  simpl. match goal with |- context [get_min_loop s i ?st'] =>
    destruct (IH st') as (st2 & E & ? & ?); simpl; [lia|done|lia|by intros ->|] end.
  simpl in *. eauto.
Qed.

(** [t] is the bit length of the least number among the identifiers of [P]. *)
Definition min_bits s (P : Z → bool) (t : nat) : Prop :=
  (∃ id, P id = true ∧ value s id < 2 ^ Z.of_nat t) ∧
  (∀ id, P id = true → t = 0%nat ∨ 2 ^ (Z.of_nat t - 1) <= value s id).

(** [count] is the number of identifiers of [P] with a number below [2 ^ t]. *)
Definition counts_below s (P : Z → bool) (t : nat) (count : Z) : Prop :=
  ∃ b : B, (∀ id, b.[id] = P id && (value s id <? 2 ^ Z.of_nat t)) ∧
           count = roaring_bitmap_get_cardinality b.

Lemma hi_eq_0 n x : 0 <= x → (hi n x =? 0) = (x <? 2 ^ Z.of_nat n).
Proof.
  intros Hx. rewrite hi_div. destruct (Z.ltb_spec x (2 ^ Z.of_nat n)).
  - apply Z.eqb_eq. apply Z.div_small. lia.
  - apply Z.eqb_neq. assert (1 <= x / 2 ^ Z.of_nat n); [|lia].
    apply Z.div_le_lower_bound; lia.
Qed.

Lemma get_min_loop_spec s (P : Z → bool) n st :
  (n <= _bit_depth s <= 31)%nat →
  (∀ id, (mn_filter st).[id] = P id && (value s id <? 2 ^ Z.of_nat n)) →
  0 < roaring_bitmap_get_cardinality (mn_filter st) →
  mn_min st = 0 →
  mn_last st = (if (n =? _bit_depth s)%nat then -1
                else roaring_bitmap_get_cardinality (mn_filter st)) →
  (n = 0%nat → mn_count st = roaring_bitmap_get_cardinality (mn_filter st)) →
  ∃ st' t, get_min_loop s n st = Some st' ∧ (t <= n)%nat ∧
    min_bits s P t ∧ mn_min st' = 2 ^ Z.of_nat t - 1 ∧
    (if (t =? _bit_depth s)%nat then mn_count st' = -1 ∨ t = 0%nat
     else counts_below s P t (mn_count st')).
Proof.
  revert st. induction n as [|i IH]; intros st Hn HF Hpos Hm Hl Hc; simpl.
  { exists st, 0%nat. split_and!; [done..| |by rewrite Hm|].
    - split; [|by left]. destruct (cardinality_pos_inv _ Hpos) as [id Hid]. exists id.
      by rewrite HF, andb_true_iff, Z.ltb_lt in Hid.
    - destruct (0 =? _bit_depth s)%nat; [by right|]. eexists. split; [done|]. by apply Hc. }
  set (F := roaring_bitmap_andnot_inplace (mn_filter st) (row s (1 + i))).
  assert (∀ id, F.[id] = P id && (value s id <? 2 ^ Z.of_nat i)) as HF'.
  { intros id. unfold F. autorewrite with bitmap. change (1 + i)%nat with (S i).
    rewrite HF, row_bit by lia. destruct (value_range s id) as [? _].
    rewrite <-!hi_eq_0 by done. rewrite (hi_step i (value s id)).
    pose proof (hi_value_nonneg s (S i) id).
    destruct (P id), (Z.testbit _ _); simpl; bool_lia. }
  destruct (Z.ltb_spec 0 (roaring_bitmap_get_cardinality F)) as [Hp|Hz].
  - unfold get_min_step. fold F. rewrite (proj2 (Z.ltb_lt _ _) Hp). simpl.
    match goal with |- context [get_min_loop s i ?st'] =>
      destruct (IH st') as (st2 & t & E & ? & ?); simpl; [lia|exact HF'|exact Hp|exact Hm| |done|]
    end; [|eauto 10].
    destruct (Nat.eqb_spec i (_bit_depth s)); [lia|done].
  - pose proof (cardinality_nonneg F).
    assert (∀ id, F.[id] = false) as He by (apply cardinality_0; lia).
    pose proof (pow2_S i).
    destruct (get_min_step_empty s i st) as (F' & HF2 & ->); [lia|lia| |].
    { intros id Hid. specialize (He id). unfold F in He. autorewrite with bitmap in He.
      rewrite Hid in He. by destruct (row s (1 + i)).[id]. }
    simpl. match goal with |- context [get_min_loop s i ?st'] =>
      destruct (get_min_loop_empty s i (S i) st') as (st2 & E & Hmin & Hcnt);
        simpl; [lia|done|lia|by intros ->|] end.
    exists st2, (S i). split_and!; [done|lia| |done|].
    + split.
      * destruct (cardinality_pos_inv _ Hpos) as [id Hid]. exists id.
        by rewrite HF, andb_true_iff, Z.ltb_lt in Hid.
      * intros id HP. right. specialize (He id). rewrite HF', HP in He. simpl in He.
        rewrite Z.ltb_ge in He. replace (Z.of_nat (S i) - 1) with (Z.of_nat i) by lia. done.
    + simpl in Hcnt. rewrite Hcnt, Hl. destruct (Nat.eqb_spec (S i) (_bit_depth s)); [by left|].
      by eexists.
Qed.

Lemma DoGetMin_result s input id :
  (0 < _bit_depth s <= 31)%nat →
  selected s (default (acquire 0) input) id = true →
  let P := selected s (default (acquire 0) input) in
  ∃ o t count, DoGetMin s input = Some (o, 2 ^ Z.of_nat t - 1, count) ∧
    (t <= _bit_depth s)%nat ∧ min_bits s P t ∧
    (if (t =? _bit_depth s)%nat then count = -1 else counts_below s P t count).
Proof.
  intros Hd Hid P. unfold DoGetMin.
  match goal with |- context [get_min_loop s _ ?st] =>
    destruct (get_min_loop_spec s P (_bit_depth s) st)
      as (st' & t & E & Ht & Hb & Hm & Hc); simpl; [lia| | |done|by rewrite Nat.eqb_refl|lia|]
  end.
  - intros id'. rewrite contains_restrict. unfold P.
    destruct (Z.ltb_spec (value s id') (2 ^ Z.of_nat (_bit_depth s))); [by rewrite andb_true_r|].
    pose proof (value_range s id'). lia.
  - apply (cardinality_pos _ id). by rewrite contains_restrict.
  - rewrite E. simpl. rewrite Hm. eexists _, t, _. split_and!; [done..|].
    destruct (Nat.eqb_spec t (_bit_depth s)); [|done]. destruct Hc as [|Hc]; [done|lia].
Qed.

(** An empty selection is reported with a count of -1. *)
Lemma DoGetMin_result_empty s input :
  (0 < _bit_depth s <= 31)%nat →
  (∀ id, selected s (default (acquire 0) input) id = false) →
  ∃ o, DoGetMin s input = Some (o, 2 ^ Z.of_nat (_bit_depth s) - 1, -1).
Proof.
  intros Hd Hno. unfold DoGetMin. destruct (_bit_depth s) as [|i] eqn:Ed; [lia|]. simpl.
  match goal with |- context [get_min_step s i ?st] =>
    destruct (get_min_step_empty s i st) as (F & HF & ->); simpl; [lia|lia| |] end.
  { intros id. by rewrite contains_restrict, Hno. }
  match goal with |- context [get_min_loop s i ?st'] =>
    destruct (get_min_loop_empty s i (S i) st') as (st2 & E & Hmin & Hcnt);
      simpl; [lia|done| |by intros ->|] end.
  { pose proof (pow2_S i). lia. }
  rewrite E. simpl in *. rewrite Hmin, Hcnt. eauto.
Qed.

(** ** The k largest *)

(** The state of [TopK] after the bits from [n] up: every identifier in [out]
    has a larger prefix than those outside, the identifiers still in [filter]
    share one prefix, and the discarded ones have a smaller prefix.  Either
    nothing was discarded yet, or there are too many left to take them all. *)
Record topk_inv s (k : Z) (n : nat) filter out (rest_k : Z) : Prop := {
  tk_out id : out.[id] = true → (row s 0).[id] = true;
  tk_filter id : filter.[id] = true → (row s 0).[id] = true;
  tk_disjoint id : out.[id] && filter.[id] = false;
  tk_rest : rest_k = k - roaring_bitmap_get_cardinality out ∧ 0 <= rest_k;
  tk_above a b : out.[a] = true → (row s 0).[b] = true → out.[b] = false →
    hi n (value s b) < hi n (value s a);
  tk_level a b : filter.[a] = true → filter.[b] = true →
    hi n (value s a) = hi n (value s b);
  tk_below a b : filter.[a] = true → (row s 0).[b] = true →
    out.[b] = false → filter.[b] = false → hi n (value s b) < hi n (value s a);
  tk_positive a : out.[a] = true → 0 < hi n (value s a);
  tk_full : (∀ b, (row s 0).[b] = true → out.[b] = false →
               filter.[b] = true ∧ hi n (value s b) = 0)
            ∨ rest_k < roaring_bitmap_get_cardinality filter;
}.

(** More than [k] identifiers of the index have a number of at least [x]. *)
Definition crowded s (k x : Z) : Prop :=
  ∃ C : B, (∀ id, C.[id] = true → (row s 0).[id] = true ∧ x <= value s id) ∧
           k < roaring_bitmap_get_cardinality C.

(** [out] holds at most [k] identifiers, each with a larger number than every
    identifier of the index that was left out; what is left out is zero or
    does not fit. *)
Record top_set s (k : Z) out : Prop := {
  top_indexed id : out.[id] = true → (row s 0).[id] = true;
  top_size : roaring_bitmap_get_cardinality out <= k;
  top_dominates a b : out.[a] = true → (row s 0).[b] = true → out.[b] = false →
    value s b < value s a;
  top_positive a : out.[a] = true → 0 < value s a;
  top_complete b : (row s 0).[b] = true → out.[b] = false →
    value s b = 0 ∨ crowded s k (value s b);
}.

Lemma topk_inv_top s k filter out rest_k :
  topk_inv s k 0 filter out rest_k → top_set s k out.
Proof.
  intros [Ho Hf Hd [Hr ?] Ha Hl Hb Hp Hc]. setoid_rewrite hi_0 in Ha.
  setoid_rewrite hi_0 in Hl. setoid_rewrite hi_0 in Hb. setoid_rewrite hi_0 in Hp.
  split; [done|lia|done|done|]. intros b Hrow Hout.
  destruct Hc as [Hc|Hc]; [left; destruct (Hc b Hrow Hout); by rewrite <-(hi_0 (value s b))|].
  right. exists (roaring_bitmap_or_inplace out filter). split.
  - intros id. autorewrite with bitmap. intros [Hid|Hid]%orb_true_iff.
    + split; [by apply Ho|]. specialize (Ha id b Hid Hrow Hout). lia.
    + split; [by apply Hf|]. destruct filter.[b] eqn:E; [by rewrite (Hl b id)|].
      specialize (Hb id b Hid Hrow Hout E). lia.
  - rewrite (cardinality_split out filter); [lia| |done]. intros. by autorewrite with bitmap.
Qed.

(** Once [k] identifiers are out the rest may be dropped. *)
Lemma topk_inv_break s k n filter out :
  topk_inv s k n filter out 0 → top_set s k out.
Proof.
  intros [Ho _ _ [Hr ?] Ha _ _ Hp _]. split; [done|lia| | |].
  - intros a b Haa Hb Hbb. by eapply hi_lt_inv, Ha.
  - intros a Haa. apply (hi_lt_inv n). unfold hi at 1. rewrite Z.shiftr_0_l. by apply Hp.
  - intros b Hrow Hout. right. exists (roaring_bitmap_add out b). split.
    + intros id. autorewrite with bitmap. intros [<-%Z.eqb_eq|Hid]%orb_true_iff; [done|].
      split; [by apply Ho|]. assert (value s b < value s id); [|lia]. by eapply hi_lt_inv, Ha.
    + rewrite (cardinality_split out (roaring_bitmap_add roaring_bitmap_create b)).
      * pose proof (cardinality_pos (roaring_bitmap_add roaring_bitmap_create b) b) as Hpos.
        autorewrite with bitmap in Hpos. rewrite Z.eqb_refl in Hpos. specialize (Hpos eq_refl). lia.
      * intros. autorewrite with bitmap. by rewrite orb_false_r, orb_comm.
      * intros id. autorewrite with bitmap. rewrite orb_false_r.
        destruct (Z.eqb_spec b id) as [<-|]; [by rewrite Hout|]. by rewrite andb_false_r.
Qed.

Lemma cardinality_u32 s filter :
  roaring_bitmap_get_cardinality (row s 0) < 2 ^ 32 →
  (∀ id, filter.[id] = true → (row s 0).[id] = true) →
  u32 (i32 (roaring_bitmap_get_cardinality filter)) = roaring_bitmap_get_cardinality filter.
Proof.
  intros Hc Hf. rewrite u32_i32. apply u32_id.
  pose proof (cardinality_mono _ _ Hf). pose proof (cardinality_nonneg filter).
  unfold is_u32. lia.
Qed.

(** Moving the identifiers of the filter with the bit set to the output. *)
Lemma topk_take s k i filter out rest_k R :
  (i < _bit_depth s)%nat → 0 <= k < 2 ^ 32 →
  topk_inv s k (S i) filter out rest_k →
  (∀ id, R.[id] = filter.[id] && (row s (S i)).[id]) →
  roaring_bitmap_get_cardinality R <= rest_k →
  let out' := roaring_bitmap_or_inplace out R in
  let rest' := u32 (k - roaring_bitmap_get_cardinality out') in
  ∀ F : B, (∀ id, F.[id] = filter.[id] && negb (row s (S i)).[id]) →
  topk_inv s k i F out' rest'.
Proof.
  intros Hi Hk [Ho Hf Hd [Hr Hr0] Ha Hl Hb Hp Hfull] HR HRc out' rest' F HF.
  setoid_rewrite row_bit in HR; [|lia]. setoid_rewrite row_bit in HF; [|lia].
  assert (roaring_bitmap_get_cardinality out'
          = roaring_bitmap_get_cardinality out + roaring_bitmap_get_cardinality R) as Hc.
  { apply cardinality_split; [intros; unfold out'; by autorewrite with bitmap|].
    intros id. specialize (Hd id). rewrite HR.
    destruct out.[id], filter.[id]; done. }
  pose proof (cardinality_nonneg R). pose proof (cardinality_nonneg out).
  assert (rest' = k - roaring_bitmap_get_cardinality out') as Hrest
    by (apply u32_id; unfold is_u32; lia).
  assert (∀ id, out'.[id] = out.[id] || (filter.[id] && Z.testbit (value s id) (Z.of_nat i)))
    as Hout by (intros; unfold out'; autorewrite with bitmap; by rewrite HR).
  assert (roaring_bitmap_get_cardinality filter
          = roaring_bitmap_get_cardinality R + roaring_bitmap_get_cardinality F) as Hcf.
  { apply cardinality_split; intros id; rewrite HR, HF; by destruct filter.[id], (Z.testbit _ _). }
  split; intros; rewrite ?Hout, ?HF, ?(hi_step i) in *;
    repeat match goal with
    | id : Z |- _ => progress (specialize (Ho id); specialize (Hf id); specialize (Hd id))
    end.
  - destruct out.[id], filter.[id]; simpl in *; auto; done.
  - destruct filter.[id]; simpl in *; auto; done.
  - destruct out.[id], filter.[id], (Z.testbit _ _); done.
  - lia.
  - specialize (Ha a b). specialize (Hl a b). specialize (Hb a b).
    destruct out.[a], filter.[a], out.[b], filter.[b]; simpl in *; try done;
    destruct (Z.testbit (value s a) _), (Z.testbit (value s b) _); simpl in *; try done;
    try (specialize (Ha eq_refl ltac:(done) eq_refl));
    try (specialize (Hl eq_refl eq_refl));
    try (specialize (Hb eq_refl ltac:(done) eq_refl eq_refl)); lia.
  - specialize (Hl a b). destruct filter.[a], filter.[b]; try done.
    destruct (Z.testbit (value s a) _), (Z.testbit (value s b) _); simpl in *; try done.
    specialize (Hl eq_refl eq_refl). lia.
  - specialize (Hl a b). specialize (Hb a b).
    destruct out.[b], filter.[a], filter.[b]; simpl in *; try done;
    destruct (Z.testbit (value s a) _), (Z.testbit (value s b) _); simpl in *; try done;
    specialize (Hb eq_refl ltac:(done) eq_refl eq_refl); lia.
  - specialize (Hp a). pose proof (hi_value_nonneg s (S i) a).
    destruct out.[a], filter.[a], (Z.testbit _ _); simpl in *; try done;
      try (specialize (Hp eq_refl)); lia.
  - destruct Hfull as [Hfull|]; [left|right; lia]. intros b Hrow. rewrite Hout, HF, (hi_step i).
    intros [Hob Hfb]%orb_false_iff. destruct (Hfull b Hrow Hob) as [Hfi ->]. rewrite Hfi in *.
    simpl in *. by rewrite Hfb.
Qed.

(** Dropping from the filter the identifiers without the bit, when some have
    it, and dropping nothing when none has it. *)
Lemma topk_narrow s k i filter out rest_k F (set : bool) :
  (i < _bit_depth s)%nat →
  topk_inv s k (S i) filter out rest_k →
  (∀ id, F.[id] = filter.[id] && eqb set (Z.testbit (value s id) (Z.of_nat i))) →
  (if set then rest_k < roaring_bitmap_get_cardinality F
   else ∀ id, filter.[id] = true → Z.testbit (value s id) (Z.of_nat i) = false) →
  topk_inv s k i F out rest_k.
Proof.
  intros Hi [Ho Hf Hd Hr Ha Hl Hb Hp Hfull] HF Hset'.
  assert (set = false → ∀ id, filter.[id] = true → Z.testbit (value s id) (Z.of_nat i) = false)
    as Hset by (by intros ->).
  split; intros; rewrite ?HF in *; try done.
  - by apply Ho.
  - apply Hf. by destruct filter.[id].
  - specialize (Hd id). destruct out.[id], filter.[id]; done.
  - by apply hi_lt_step, Ha.
  - rewrite !(hi_step i). specialize (Hl a b). destruct filter.[a], filter.[b]; try done.
    destruct set, (Z.testbit (value s a) _), (Z.testbit (value s b) _); simpl in *; try done;
      rewrite Hl; done.
  - rewrite !(hi_step i). specialize (Hl a b). specialize (Hb a b).
    pose proof (λ E, Hset E b) as Hsb.
    destruct filter.[a], filter.[b]; simpl in *; try done.
    + rewrite (Hl eq_refl eq_refl).
      destruct set, (Z.testbit (value s a) _), (Z.testbit (value s b) _); simpl in *; try done;
        [lia|]. by specialize (Hsb eq_refl eq_refl).
    + specialize (Hb eq_refl ltac:(done) ltac:(done) eq_refl).
      destruct (Z.testbit (value s a) _), (Z.testbit (value s b) _), set; simpl in *;
        try done; lia.
  - specialize (Hp a ltac:(done)). rewrite (hi_step i). destruct (Z.testbit _ _); simpl; lia.
  - destruct set; [by right|]. assert (∀ id, F.[id] = filter.[id]) as HFf.
    { intros id. rewrite HF. specialize (Hset eq_refl id). destruct filter.[id]; [|done].
      by rewrite Hset. }
    destruct Hfull as [Hfull|?]; [left|right].
    + intros b Hrow Hob. destruct (Hfull b Hrow Hob) as [Hfb H0].
      rewrite HFf, (hi_step i), H0, (Hset eq_refl b Hfb). done.
    + by rewrite (cardinality_proper F filter HFf).
Qed.

Lemma topk_loop_spec s k n filter out tmp rest_k :
  (n <= _bit_depth s)%nat → 0 <= k < 2 ^ 32 →
  roaring_bitmap_get_cardinality (row s 0) < 2 ^ 32 →
  topk_inv s k n filter out rest_k →
  top_set s k (topk_loop s k n filter out tmp rest_k).
Proof.
  intros Hn Hk Hcard. revert filter out tmp rest_k Hn.
  induction n as [|i IH]; intros filter out tmp rest_k Hn Hinv; cbn [topk_loop].
  { by eapply topk_inv_top. }
  set (T := roaring_bitmap_overwrite tmp filter).
  set (R := roaring_bitmap_and_inplace filter (row s (1 + i))).
  assert (∀ id, R.[id] = filter.[id] && (row s (S i)).[id]) as HR
    by (intros; unfold R; by autorewrite with bitmap).
  assert (∀ id, T.[id] = filter.[id]) as HT by (intros; unfold T; by autorewrite with bitmap).
  rewrite (cardinality_u32 s R Hcard); last first.
  { intros id. rewrite HR, andb_true_iff. intros [? _]. by eapply tk_filter. }
  pose proof (cardinality_nonneg R). pose proof HR as HRb.
  setoid_rewrite row_bit in HRb; [|lia].
  destruct (Z.ltb_spec rest_k (roaring_bitmap_get_cardinality R)) as [Hgt|Hle].
  { apply IH; [lia|]. apply (topk_narrow s k i filter out rest_k R true); [lia|done| |exact Hgt].
    intros id. rewrite HRb. by destruct (Z.testbit _ _). }
  assert (∀ F : B, (∀ id, F.[id] = filter.[id] && negb (row s (S i)).[id]) →
    topk_inv s k i F (roaring_bitmap_or_inplace out R)
      (u32 (k - roaring_bitmap_get_cardinality (roaring_bitmap_or_inplace out R)))) as Htake
    by (by apply (topk_take s k i filter out rest_k R)).
  destruct (Z.ltb_spec (roaring_bitmap_get_cardinality R) rest_k).
  - destruct ((0 =? roaring_bitmap_get_cardinality R) && (0 <? i)%nat) eqn:E.
    + apply andb_true_iff in E as [E%Z.eqb_eq _].
      assert (∀ id, filter.[id] = true → Z.testbit (value s id) (Z.of_nat i) = false) as Hz.
      { symmetry in E. rewrite cardinality_0 in E. intros id Hid. specialize (E id).
        by rewrite HRb, Hid in E. }
      apply IH; [lia|]. apply (topk_narrow s k i filter out rest_k _ false); [lia|done| |done].
      intros id. autorewrite with bitmap. rewrite HT. specialize (Hz id).
      destruct filter.[id]; [by rewrite Hz|done].
    + apply IH; [lia|]. apply Htake. intros id. autorewrite with bitmap.
      rewrite HT, HR. pose proof (tk_disjoint _ _ _ _ _ _ Hinv id) as Hd.
      by destruct filter.[id], out.[id], (row s (S i)).[id].
  - assert (roaring_bitmap_get_cardinality R = rest_k) as Heq by lia.
    specialize (Htake (roaring_bitmap_andnot_inplace T (row s (S i)))
      (λ id, eq_trans (contains_andnot _ _ id) (f_equal (λ b, b && _) (HT id)))).
    set (r := u32 _) in Htake. assert (r = 0) as E; [|rewrite E in Htake; by eapply topk_inv_break].
    destruct (tk_rest _ _ _ _ _ _ Htake) as [-> _].
    destruct (tk_rest _ _ _ _ _ _ Hinv) as [Hr _].
    rewrite (cardinality_split out R); [lia|intros; by autorewrite with bitmap|].
    intros id. rewrite HR. pose proof (tk_disjoint _ _ _ _ _ _ Hinv id).
    by destruct out.[id], filter.[id].
Qed.

Lemma TopK_top s k out :
  0 <= k < 2 ^ 32 → roaring_bitmap_get_cardinality (row s 0) < 2 ^ 32 →
  (∀ id, out.[id] = false) →
  top_set s k (TopK s k out).
Proof.
  intros Hk Hc He. apply topk_loop_spec; [done..|].
  split.
  - intros id. by rewrite He.
  - intros id. by autorewrite with bitmap.
  - intros id. by rewrite He.
  - rewrite (proj2 (cardinality_0 out) He). lia.
  - intros a b. by rewrite He.
  - intros a b _ _. by rewrite !hi_value_top.
  - intros a b _ Hb _. autorewrite with bitmap. by rewrite Hb.
  - intros a. by rewrite He.
  - left. intros b Hb _. autorewrite with bitmap. by rewrite hi_value_top.
Qed.
End rank.
