(* ===== verification/BsiUpdate.v ===== *)
(** * BsiUpdate: updates and persistence of the bit-sliced index

    Each update is described by its effect on the abstract map
    [lookup_value]. *)

From S2P Require Import Prelude Roaring Cache Common Float Schema Bsi BsiSpec BsiRank.

Section update.
Context `{Roaring B, !Scratch B}.
Implicit Types (s : BitSliceIndex B) (id val x : Z).

(** ** Rows *)

Lemma wf_length s k : wf s → (k <= _bit_depth s)%nat → (k < length (_bitmaps s))%nat.
Proof. intros Hw Hk. destruct (Hw k Hk) as (rb & b & Hrb & _). by eapply lookup_lt_Some. Qed.

Lemma row_update s k f j :
  (k < length (_bitmaps s))%nat →
  row (update_row s k f) j = if (k =? j)%nat then f (row s k) else row s j.
Proof.
  intros Hk. unfold row, update_row. simpl. destruct (Nat.eqb_spec k j) as [<-|Hne].
  - rewrite list_lookup_alter_eq. by destruct (lookup_lt_is_Some_2 (_bitmaps s) k Hk) as [rb ->].
  - by rewrite list_lookup_alter_ne.
Qed.

Lemma wf_update s k f : wf s → wf (update_row s k f).
Proof.
  intros Hw j Hj. destruct (Hw j Hj) as (rb & b & Hrb & Hb). unfold update_row. simpl.
  destruct (decide (k = j)) as [<-|].
  - rewrite list_lookup_alter_eq, Hrb. simpl. by eexists _, _.
  - rewrite list_lookup_alter_ne by done. by eexists _, _.
Qed.

(** [s'] is [s] with other bits for [id]: bit [i] is [bits i], and [present]
    says whether [id] has a number at all. *)
Record rewritten s id (present : bool) (bits : nat → bool) (s' : BitSliceIndex B) : Prop := {
  rw_wf : wf s';
  rw_options : _options s' = _options s;
  rw_depth : _bit_depth s' = _bit_depth s;
  rw_exist x : (row s' 0).[x] = if x =? id then present else (row s 0).[x];
  rw_bit i x : (i < _bit_depth s)%nat →
    (row s' (S i)).[x] = if x =? id then bits i else (row s (S i)).[x];
}.

Lemma rewritten_value s id present bits s' x :
  rewritten s id present bits s' →
  value s' x = if x =? id then bits_value bits (_bit_depth s) else value s x.
Proof.
  intros [_ _ Hd _ Hb]. unfold value. rewrite Hd. destruct (Z.eqb_spec x id) as [->|Hne].
  - apply bits_value_ext. intros i Hi. rewrite Hb by done. by rewrite Z.eqb_refl.
  - apply bits_value_ext. intros i Hi. rewrite Hb by done.
    by rewrite (proj2 (Z.eqb_neq x id) Hne).
Qed.

Lemma rewritten_lookup s id present bits s' x :
  rewritten s id present bits s' →
  lookup_value s' x
  = if x =? id then if present then Some (bits_value bits (_bit_depth s)) else None
    else lookup_value s x.
Proof.
  intros Hr. unfold lookup_value.
  rewrite (rw_exist _ _ _ _ _ Hr), (rewritten_value _ _ _ _ _ _ Hr). by destruct (x =? id).
Qed.

(** ** The loops over the bits *)

Lemma bit_set_testbit v i : bit_set v i = Z.testbit v (Z.of_nat i).
Proof. unfold bit_set. rewrite land_shiftl_1 by lia. apply negb_involutive. Qed.

(** [step] at [i] changes, for [id] only, bit [i] from [b] to [g i b]. *)
Definition bit_step id (step : BitSliceIndex B → nat → BitSliceIndex B)
    (g : nat → bool → bool) : Prop :=
  ∀ s i, wf s → (i < _bit_depth s)%nat →
    wf (step s i) ∧ _options (step s i) = _options s ∧
    _bit_depth (step s i) = _bit_depth s ∧
    ∀ j x, (row (step s i) j).[x]
           = if (x =? id) && (j =? S i)%nat then g i (row s j).[x] else (row s j).[x].

Lemma update_row_step id g s i (f : B → B) :
  wf s → (i < _bit_depth s)%nat →
  (∀ b x, (f b).[x] = if x =? id then g i b.[x] else b.[x]) →
  wf (update_row s (i + 1) f) ∧ _options (update_row s (i + 1) f) = _options s ∧
  _bit_depth (update_row s (i + 1) f) = _bit_depth s ∧
  ∀ j x, (row (update_row s (i + 1) f) j).[x]
         = if (x =? id) && (j =? S i)%nat then g i (row s j).[x] else (row s j).[x].
Proof.
  intros Hw Hi Hf. split_and!; [by apply wf_update|done..|].
  intros j x. rewrite row_update by (apply wf_length; [done|lia]).
  destruct (Nat.eqb_spec j (S i)) as [->|Hne].
  - destruct (Nat.eqb_spec (i + 1) (S i)); [|lia].
    rewrite andb_true_r, Nat.add_1_r. apply Hf.
  - destruct (Nat.eqb_spec (i + 1) j); [lia|]. by rewrite andb_false_r.
Qed.

Lemma update_bits_loop s id step (g : nat → bool → bool) n :
  bit_step id step g → wf s → (n <= _bit_depth s)%nat →
  let s' := foldl step s (seq 0 n) in
  wf s' ∧ _options s' = _options s ∧ _bit_depth s' = _bit_depth s ∧
  (∀ x, (row s' 0).[x] = (row s 0).[x]) ∧
  (∀ i x, (row s' (S i)).[x]
          = if (x =? id) && (i <? n)%nat then g i (row s (S i)).[x] else (row s (S i)).[x]).
Proof.
  intros Hstep Hw. induction n as [|n IH]; intros Hn s'.
  { unfold s'. simpl. split_and!; try done. intros i x. by rewrite andb_false_r. }
  destruct IH as (Hw' & Ho & Hd & H0 & Hb); [lia|].
  unfold s'. rewrite seq_S, foldl_app. simpl.
  destruct (Hstep (foldl step s (seq 0 n)) n) as (Hw2 & Ho2 & Hd2 & Hr); [done|lia|].
  split_and!; [done|by rewrite Ho2|by rewrite Hd2| |].
  - intros x. by rewrite Hr, andb_false_r.
  - intros i x. rewrite Hr, Hb. change (S i =? S n)%nat with (i =? n)%nat.
    destruct (x =? id); [|done]. simpl.
    destruct (Nat.eqb_spec i n), (Nat.ltb_spec i n), (Nat.ltb_spec i (S n)); try lia; by subst.
Qed.

Lemma put_bit_step id val :
  bit_step id (put_bit id val) (λ i _, Z.testbit val (Z.of_nat i)).
Proof.
  intros s i Hw Hi. apply (update_row_step id (λ i _, Z.testbit val (Z.of_nat i))); [done..|].
  intros b x. rewrite bit_set_testbit, (Z.eqb_sym x id).
  destruct (Z.testbit val (Z.of_nat i)); autorewrite with bitmap; by destruct (id =? x).
Qed.

Lemma remove_bit_step id val :
  bit_step id (remove_bit id val) (λ i b, b && negb (Z.testbit val (Z.of_nat i))).
Proof.
  intros s i Hw Hi. unfold remove_bit.
  destruct (bit_set val i) eqn:E; rewrite bit_set_testbit in E.
  - apply (update_row_step id (λ i b, b && negb (Z.testbit val (Z.of_nat i)))); [done..|].
    intros b x. rewrite E, (Z.eqb_sym x id). autorewrite with bitmap.
    by destruct (id =? x), b.[x].
  - split_and!; [done..|]. intros j x. rewrite E. simpl. rewrite andb_true_r.
    by destruct (_ && _).
Qed.

(** ** Get, put and remove *)

Lemma read_bits_value id s n :
  (n <= 64)%nat →
  foldl (read_bit id s) 0 (seq 0 n) = bits_value (λ i, (row s (S i)).[id]) n.
Proof.
  induction n as [|n IH]; intros Hn; [done|].
  rewrite seq_S, foldl_app, IH by lia. simpl. unfold read_bit. simpl.
  pose proof (bits_value_range (λ i, (row s (S i)).[id]) n).
  assert (2 ^ Z.of_nat n <= 2 ^ 63) by (apply Z.pow_le_mono_r; lia).
  destruct (row s (S n)).[id]; simpl; [|lia].
  rewrite Z.shiftl_1_l, u64_id by (unfold is_u64; lia). lia.
Qed.

Lemma DoGet_lookup s id : (_bit_depth s <= 64)%nat → DoGet s id = lookup_value s id.
Proof.
  intros Hd. unfold DoGet, lookup_value. destruct (row s 0).[id]; [|done].
  simpl. by rewrite read_bits_value.
Qed.

(** The overwriting loop reads each bit before it writes it. *)
Lemma overwrite_bits id val s n :
  wf s → (n <= _bit_depth s <= 64)%nat →
  foldl (overwrite_bit id val) (s, 0) (seq 0 n)
  = (foldl (put_bit id val) s (seq 0 n), bits_value (λ i, (row s (S i)).[id]) n).
Proof.
  intros Hw. induction n as [|n IH]; intros Hn; [done|].
  rewrite seq_S, !foldl_app, IH by lia. cbn [foldl overwrite_bit Nat.add]. f_equal.
  pose proof (read_bits_value id s (S n)) as Hv. rewrite seq_S, foldl_app in Hv.
  rewrite read_bits_value in Hv by lia. rewrite <-Hv by lia. cbn [foldl Nat.add].
  unfold read_bit.
  destruct (update_bits_loop s id _ _ n (put_bit_step id val) Hw) as (_ & _ & _ & _ & Hb); [lia|].
  change (1 + n)%nat with (S n). rewrite Hb.
  destruct (Nat.ltb_spec n n); [lia|]. by rewrite andb_false_r.
Qed.

(** Both branches of [DoPut] write the same bitmaps. *)
Definition put_index s id val : BitSliceIndex B :=
  let s := update_row s 0 (λ _, roaring_bitmap_add (row s 0) id) in
  foldl (put_bit id val) s (seq 0 (_bit_depth s)).

Lemma put_index_rewritten s id val :
  wf s → rewritten s id true (λ i, Z.testbit val (Z.of_nat i)) (put_index s id val).
Proof.
  intros Hw. unfold put_index.
  set (s1 := update_row s 0 (λ _, roaring_bitmap_add (row s 0) id)).
  assert (wf s1) as Hw1 by (by apply wf_update).
  assert (0 < length (_bitmaps s))%nat by (apply wf_length; [done|lia]).
  destruct (update_bits_loop s1 id _ _ (_bit_depth s1) (put_bit_step id val) Hw1)
    as (? & Ho & Hd & Hex & Hb); [done|].
  split; [done|by rewrite Ho|by rewrite Hd|..].
  - intros x. rewrite Hex. unfold s1. rewrite row_update by done. simpl.
    autorewrite with bitmap. rewrite (Z.eqb_sym x id). by destruct (id =? x).
  - intros i x Hi. rewrite Hb. unfold s1. rewrite row_update by done.
    change (_bit_depth (update_row s 0 _)) with (_bit_depth s).
    destruct (Nat.ltb_spec i (_bit_depth s)); [|lia]. rewrite andb_true_r. by destruct (x =? id).
Qed.

Lemma DoPut_unfold s id val old_val :
  wf s → (_bit_depth s <= 64)%nat →
  DoPut s id val old_val =
    if (row s 0).[id] then Some (put_index s id val, true, value s id)
    else
      let s' := put_index s id val in
      if (0 <? _limit_topk (_options s'))
         && (_limit_topk (_options s') <? roaring_bitmap_get_cardinality (row s' 0))
      then '(s', _) ← DoRemoveMin s'; Some (s', false, old_val)
      else Some (s', false, old_val).
Proof.
  intros Hw Hd. unfold DoPut. rewrite add_checked_spec.
  fold (put_index s id val). destruct (row s 0).[id]; simpl; [|done].
  rewrite overwrite_bits; [|by apply wf_update|simpl; lia]. fold (put_index s id val).
  do 2 f_equal. unfold value. apply bits_value_ext. intros i Hi.
  rewrite row_update by (apply wf_length; [done|lia]). done.
Qed.

(** Removing with whatever value: the identifier is gone, and keeps the bits
    the value does not have. *)
Lemma DoRemove_any s id val :
  wf s → rewritten s id false
           (λ i, (row s (S i)).[id] && negb (Z.testbit val (Z.of_nat i))) (DoRemove s id val).
Proof.
  intros Hw. unfold DoRemove.
  set (s1 := update_row s 0 (λ b, roaring_bitmap_remove b id)).
  assert (wf s1) as Hw1 by (by apply wf_update).
  assert (0 < length (_bitmaps s))%nat by (apply wf_length; [done|lia]).
  destruct (update_bits_loop s1 id _ _ (_bit_depth s1) (remove_bit_step id val) Hw1)
    as (? & Ho & Hd & Hex & Hb); [done|].
  split; [done|by rewrite Ho|by rewrite Hd|..].
  - intros x. rewrite Hex. unfold s1. rewrite row_update by done. simpl.
    autorewrite with bitmap. rewrite (Z.eqb_sym x id). by destruct (id =? x).
  - intros i x Hi. rewrite Hb. unfold s1. rewrite row_update by done.
    change (_bit_depth (update_row s 0 _)) with (_bit_depth s). simpl.
    destruct (Nat.ltb_spec i (_bit_depth s)); [|lia]. rewrite andb_true_r.
    by destruct (Z.eqb_spec x id) as [->|].
Qed.

Lemma DoRemove_rewritten s id :
  wf s → rewritten s id false (λ _, false) (DoRemove s id (value s id)).
Proof.
  intros Hw. destruct (DoRemove_any s id (value s id) Hw) as [? ? ? ? Hb].
  split; [done..|]. intros i x Hi. rewrite Hb, row_bit by done. by destruct (Z.testbit _ _).
Qed.

(** ** Removing the minimum *)

(** What [DoRemoveMin] does on a non-empty index whose minimum has [t] bits:
    nothing when [t] is the bit depth, otherwise it removes the first
    identifier whose number is [2 ^ t - 1], and reads past the end of an
    empty vector when there is none. *)
Lemma DoRemoveMin_result s id :
  (0 < _bit_depth s <= 31)%nat →
  roaring_bitmap_get_cardinality (row s 0) < 2 ^ 32 →
  (row s 0).[id] = true →
  ∃ t (eqs : B), (t <= _bit_depth s)%nat ∧ min_bits s (λ x, (row s 0).[x]) t ∧
    (∀ x, eqs.[x] = (row s 0).[x] && (value s x =? 2 ^ Z.of_nat t - 1)) ∧
    DoRemoveMin s =
      if (t =? _bit_depth s)%nat then Some (s, 0)
      else match roaring_bitmap_to_uint32_array eqs with
           | x :: _ => Some (DoRemove s x (2 ^ Z.of_nat t - 1), 2 ^ Z.of_nat t - 1)
           | [] => None
           end.
Proof.
  intros Hd Hc Hid. unfold DoRemoveMin.
  destruct (DoGetMin_result s (Some (acquire 0)) id) as (o & t & count & -> & Ht & Hb & Hcnt);
    [done|by simpl; rewrite selected_acquire|].
  simpl in Hb, Hcnt. exists t, (DoRangeEQ s (2 ^ Z.of_nat t - 1) (acquire 1)).
  assert (min_bits s (λ x, (row s 0).[x]) t) as Hb'.
  { destruct Hb as [(x & Hx & ?) Hall]. rewrite selected_acquire in Hx. split; [by exists x|].
    intros y Hy. apply Hall. by rewrite selected_acquire. }
  assert (2 ^ Z.of_nat t <= 2 ^ Z.of_nat (_bit_depth s)) by (apply Z.pow_le_mono_r; lia).
  assert (0 < 2 ^ Z.of_nat t) by lia.
  assert (∀ x, (DoRangeEQ s (2 ^ Z.of_nat t - 1) (acquire 1)).[x]
               = (row s 0).[x] && (value s x =? 2 ^ Z.of_nat t - 1)) as Heq.
  { intros x. rewrite DoRangeEQ_contains, selected_acquire, low_bits_id by lia. done. }
  split_and!; [done..|]. simpl.
  destruct (Nat.eqb_spec t (_bit_depth s)); [by rewrite Hcnt|].
  destruct Hcnt as (b & Hbb & ->).
  assert (0 < roaring_bitmap_get_cardinality b) as Hpos.
  { destruct Hb' as [(x & Hx & Hlt) _]. apply (cardinality_pos _ x).
    rewrite Hbb, selected_acquire, Hx. by apply Z.ltb_lt. }
  rewrite (proj2 (Z.ltb_lt _ _) Hpos), bitmap_extract_ids_spec; [done|].
  eapply Z.le_lt_trans; [|exact Hc]. apply cardinality_mono.
  intros x. rewrite Heq, andb_true_iff. by intros [? _].
Qed.

(** ** Initialisation *)

Lemma find_depth_spec d fuel i :
  match find_depth d fuel i with
  | Some n => (i <= n < i + fuel)%nat ∧ d < 2 ^ Z.of_nat n
              ∧ ∀ j, (i <= j < n)%nat → 2 ^ Z.of_nat j <= d
  | None => ∀ j, (i <= j < i + fuel)%nat → 2 ^ Z.of_nat j <= d
  end.
Proof.
  revert i. induction fuel as [|fuel IH]; intros i; simpl; [lia|].
  rewrite Z.shiftl_1_l. destruct (Z.ltb_spec d (2 ^ Z.of_nat i)); [split_and!; lia|].
  specialize (IH (S i)). destruct (find_depth d fuel (S i)) as [n|].
  - destruct IH as (? & ? & Hj). split_and!; [lia|lia|done|].
    intros j ?. destruct (decide (j = i)) as [->|]; [done|]. apply Hj. lia.
  - intros j ?. destruct (decide (j = i)) as [->|]; [done|]. apply IH. lia.
Qed.

(** The depth of a fresh index: the bit length of the distance, and 0 when the
    distance needs 64 bits. *)
Lemma Init_depth meta :
  let s := Init (B:=B) new_index meta in
  let d := Distance (_options s) in
  if d <? 2 ^ 63 then (_bit_depth s <= 63)%nat ∧ d < 2 ^ Z.of_nat (_bit_depth s)
    ∧ ∀ j, (j < _bit_depth s)%nat → 2 ^ Z.of_nat j <= d
  else _bit_depth s = 0%nat.
Proof.
  cbv zeta. set (s := Init new_index meta).
  change (_bit_depth s) with (default 0%nat (find_depth (Distance (_options s)) 64 0)).
  set (o := _options s). pose proof (find_depth_spec (Distance o) 64 0) as Hf.
  destruct (find_depth (Distance o) 64 0) as [n|]; cbn [default from_option id].
  - destruct Hf as (? & ? & Hj).
    destruct (Z.ltb_spec (Distance o) (2 ^ 63)).
    + split_and!; [lia|done|]. intros j ?. apply Hj. lia.
    + assert (2 ^ Z.of_nat n <= 2 ^ 63) by (apply Z.pow_le_mono_r; lia). lia.
  - specialize (Hf 63%nat). change (Z.of_nat 63) with 63 in Hf.
    destruct (Z.ltb_spec (Distance o) (2 ^ 63)); [|done]. specialize (Hf ltac:(lia)). lia.
Qed.

Lemma Init_bitmaps meta :
  _bitmaps (Init (B:=B) new_index meta)
  = replicate (_bit_depth (Init (B:=B) new_index meta) + 1) (NewCRoaringBitmap null_bitmap).
Proof. done. Qed.

Lemma Init_row meta k : row (Init (B:=B) new_index meta) k = roaring_bitmap_create.
Proof.
  unfold row. rewrite Init_bitmaps. destruct (replicate _ _ !! k) as [rb|] eqn:E; [|done].
  apply lookup_replicate in E as [-> _]. done.
Qed.

Lemma Init_wf meta : wf (Init (B:=B) new_index meta).
Proof.
  intros k Hk. exists (NewCRoaringBitmap null_bitmap), roaring_bitmap_create. split; [|done].
  rewrite Init_bitmaps. apply lookup_replicate_2. lia.
Qed.

Lemma Init_lookup meta id : lookup_value (Init (B:=B) new_index meta) id = None.
Proof. unfold lookup_value. by rewrite Init_row, contains_create. Qed.

(** ** Persistence *)

Definition rows_bytes (readonly : bool) (rbs : list (RoaringBitmap B)) : list Z :=
  concat ((λ rb, bitmap_bytes (get_bitmap rb) readonly) <$> rbs).

Definition index_bytes (readonly : bool) s : list Z :=
  be32 (Z.of_nat (length (_bitmaps s))) ++ rows_bytes readonly (_bitmaps s).

Definition index_savable (readonly : bool) s : Prop :=
  Forall (savable readonly) (_bitmaps s) ∧ Z.of_nat (length (_bitmaps s)) < 2 ^ 32.

Lemma BitSliceIndex_Save_writes s readonly :
  index_savable readonly s → writes (BitSliceIndex_Save s readonly) (index_bytes readonly s).
Proof.
  intros [Hs _]. apply wr_seq_writes; [apply file_write_uint32_writes|].
  apply (wr_each_writes _ (λ rb, bitmap_bytes (get_bitmap rb) readonly)).
  intros rb Hrb. apply RoaringBitmap_Save_writes. by eapply Forall_forall in Hs.
Qed.

(** The vector after the loading loop: entry [i] onwards replaced by the
    loaded bitmaps, and one null bitmap appended for each of them. *)
Fixpoint place (i : nat) (loaded bs : list (RoaringBitmap B)) : list (RoaringBitmap B) :=
  match loaded with
  | [] => bs
  | rb :: loaded => place (S i) loaded (<[i := rb]> (bs ++ [null_bitmap]))
  end.

Lemma place_length i loaded bs : length (place i loaded bs) = (length bs + length loaded)%nat.
Proof.
  revert i bs. induction loaded as [|rb l IH]; intros i bs; simpl; [lia|].
  rewrite IH, length_insert, length_app. simpl. lia.
Qed.

Lemma place_lookup i loaded bs j :
  (i <= length bs)%nat →
  place i loaded bs !! j =
    if (i <=? j)%nat && (j <? i + length loaded)%nat then loaded !! (j - i)%nat
    else (bs ++ replicate (length loaded) null_bitmap) !! j.
Proof.
  revert i bs. induction loaded as [|rb l IH]; intros i bs Hi; simpl.
  { rewrite app_nil_r, Nat.add_0_r.
    by destruct (Nat.leb_spec i j), (Nat.ltb_spec j i); try lia. }
  rewrite IH by (rewrite length_insert, length_app; simpl; lia).
  destruct (decide (j = i)) as [->|Hne].
  - destruct (Nat.leb_spec (S i) i), (Nat.leb_spec i i), (Nat.ltb_spec i (i + S (length l)));
      try lia. simpl. rewrite Nat.sub_diag.
    rewrite lookup_app_l, list_lookup_insert_eq by (rewrite ?length_insert, length_app; simpl; lia).
    done.
  - assert ((S i <=? j)%nat && (j <? S i + length l)%nat
            = (i <=? j)%nat && (j <? i + S (length l))%nat) as ->.
    { destruct (Nat.leb_spec (S i) j), (Nat.leb_spec i j), (Nat.ltb_spec j (S i + length l)),
        (Nat.ltb_spec j (i + S (length l))); simpl; done || lia. }
    destruct (Nat.leb_spec i j), (Nat.ltb_spec j (i + S (length l))); simpl.
    { replace (j - i)%nat with (S (j - S i))%nat by lia. done. }
    all: rewrite (cons_middle _ bs (replicate _ _)), (app_assoc bs), <-insert_app_l by (rewrite length_app; simpl; lia);
      by rewrite list_lookup_insert_ne by lia.
Qed.

Lemma load_loop_reads readonly rbs i bs :
  Forall (savable readonly) rbs →
  ∃ loaded, length loaded = length rbs ∧
    (∀ j rb, rbs !! j = Some rb → ∃ rb' b, loaded !! j = Some rb' ∧
       bitmap rb' = Some b ∧ b ≡ get_bitmap rb) ∧
    reads (load_loop (length rbs) i bs) (rows_bytes readonly rbs) (place i loaded bs).
Proof.
  intros Hs. revert i bs. induction Hs as [|rb rbs Hrb Hs IH]; intros i bs.
  { exists []. split_and!; [done|by intros []|apply rd_ret_reads]. }
  destruct (RoaringBitmap_Load_reads rb readonly Hrb) as (b' & Hread & Heq).
  set (rb' := {| bitmap := Some b'; _readonly := readonly |}) in *.
  destruct (IH (S i) (<[i := rb']> (bs ++ [null_bitmap]))) as (loaded & Hlen & Hl & Hr).
  exists (rb' :: loaded). split_and!; [simpl; lia| |].
  - intros [|j] rb2; simpl; [intros [= <-]; by eexists _, _|apply Hl].
  - unfold rows_bytes. rewrite fmap_cons. cbn [concat length load_loop].
    eapply rd_bind_reads; [exact Hread|exact Hr].
Qed.
End update.
