(* ===== verification/BsiIndex.v ===== *)
(** * BsiIndex: the integer and float indexes, and the theorems about them
    (robims_bsi.cpp, [BitSliceIntIndex] and [BitSliceFloatIndex])

    Both classes translate their values to local ones with the options and call
    the operations of Bsi.v.  The properties of the whole bit-sliced index are
    stated here. *)

From S2P Require Import Prelude Roaring Cache Common Float Schema Bsi BsiSpec BsiRank BsiUpdate.

Section indexes.
Context `{Roaring B, !Scratch B}.
Implicit Types s : BitSliceIndex B.

(** ** BitSliceIntIndex *)

Definition BitSliceIntIndex_GetMax s (input_filter : option B) : option (option B * Z * Z) :=
  '(filter, local_max_val, count) ← DoGetMax s input_filter;
  Some (filter, GetActualIntVal (_options s) local_max_val, count).
Definition BitSliceIntIndex_GetMin s (input_filter : option B) : option (option B * Z * Z) :=
  '(filter, local_min_val, count) ← DoGetMin s input_filter;
  Some (filter, GetActualIntVal (_options s) local_min_val, count).
Definition BitSliceIntIndex_RangeLT s (expect : Z) (allow_eq : bool) (out : B) : B :=
  DoRangeLT s (ToLocalVal_int (_options s) expect) allow_eq out.
Definition BitSliceIntIndex_RangeGT s (expect : Z) (allow_eq : bool) (out : B) : B :=
  DoRangeGT s (ToLocalVal_int (_options s) expect) allow_eq out.
Definition BitSliceIntIndex_RangeEQ s (expect : Z) (out : B) : B :=
  DoRangeEQ s (ToLocalVal_int (_options s) expect) out.
Definition BitSliceIntIndex_RangeNEQ s (expect : Z) (out : B) : B :=
  DoRangeNEQ s (ToLocalVal_int (_options s) expect) out.
Definition BitSliceIntIndex_Remove s (id val : Z) : BitSliceIndex B :=
  DoRemove s id (ToLocalVal_int (_options s) val).
Definition BitSliceIntIndex_RangeBetween s (min max : Z) (filter : B) : B :=
  DoRangeBetween s (ToLocalVal_int (_options s) min) (ToLocalVal_int (_options s) max) filter.
(** [old_val] is an uninitialised local whose value is not used. *)
Definition BitSliceIntIndex_Put s (id val : Z) : option (BitSliceIndex B) :=
  '(s, _, _) ← DoPut s id (ToLocalVal_int (_options s) val) 0; Some s.
Definition BitSliceIntIndex_Get s (id : Z) : option Z :=
  local_val ← DoGet s id; Some (GetActualIntVal (_options s) local_val).
Definition BitSliceIntIndex_RemoveMin s : option (BitSliceIndex B * Z) :=
  '(s', local_val) ← DoRemoveMin s; Some (s', GetActualIntVal (_options s') local_val).

(** ** BitSliceFloatIndex *)

Definition BitSliceFloatIndex_GetMax s (input_filter : option B) : option (option B * Z * Z) :=
  '(filter, local_max_val, count) ← DoGetMax s input_filter;
  Some (filter, GetActualFloatVal (_options s) local_max_val, count).
Definition BitSliceFloatIndex_GetMin s (input_filter : option B) : option (option B * Z * Z) :=
  '(filter, local_min_val, count) ← DoGetMin s input_filter;
  Some (filter, GetActualFloatVal (_options s) local_min_val, count).
Definition BitSliceFloatIndex_RangeLT s (expect : Z) (allow_eq : bool) (out : B) : B :=
  DoRangeLT s (ToLocalVal_float (_options s) expect) allow_eq out.
Definition BitSliceFloatIndex_RangeGT s (expect : Z) (allow_eq : bool) (out : B) : B :=
  DoRangeGT s (ToLocalVal_float (_options s) expect) allow_eq out.
Definition BitSliceFloatIndex_RangeEQ s (expect : Z) (out : B) : B :=
  DoRangeEQ s (ToLocalVal_float (_options s) expect) out.
Definition BitSliceFloatIndex_RangeNEQ s (expect : Z) (out : B) : B :=
  DoRangeNEQ s (ToLocalVal_float (_options s) expect) out.
Definition BitSliceFloatIndex_RangeBetween s (min max : Z) (filter : B) : B :=
  DoRangeBetween s (ToLocalVal_float (_options s) min) (ToLocalVal_float (_options s) max) filter.
Definition BitSliceFloatIndex_Remove s (id val : Z) : BitSliceIndex B :=
  DoRemove s id (ToLocalVal_float (_options s) val).
(** Returns the index, whether there was a value, and [old_val], which keeps
    the caller's value [old_val0] otherwise. *)
Definition BitSliceFloatIndex_Put s (id val old_val0 : Z) : option (BitSliceIndex B * bool * Z) :=
  '(s, had, old) ← DoPut s id (ToLocalVal_float (_options s) val) 0;
  Some (s, had, if (had : bool) then uint32_to_float (u32 old) else old_val0).
Definition BitSliceFloatIndex_Get s (id : Z) : option Z :=
  local_val ← DoGet s id; Some (GetActualFloatVal (_options s) local_val).
Definition BitSliceFloatIndex_RemoveMin s : option (BitSliceIndex B * Z) :=
  '(s', local_val) ← DoRemoveMin s; Some (s', GetActualFloatVal (_options s') local_val).

(** ** The abstract index: a finite map *)

(** [s] stores exactly the numbers of [m]. *)
Definition models s (m : gmap Z Z) : Prop := wf s ∧ ∀ id, lookup_value s id = m !! id.

Lemma models_value s m id x : models s m → m !! id = Some x → (row s 0).[id] = true ∧ value s id = x.
Proof.
  intros [_ Hm] Hx. rewrite <-Hm in Hx. unfold lookup_value in Hx.
  destruct (row s 0).[id]; [|done]. by injection Hx.
Qed.

Lemma models_none s m id : models s m → m !! id = None → (row s 0).[id] = false.
Proof.
  intros [_ Hm] Hx. rewrite <-Hm in Hx. unfold lookup_value in Hx. by destruct (row s 0).[id].
Qed.

Lemma models_exist s m id : models s m → (row s 0).[id] = true → m !! id = Some (value s id).
Proof. intros [_ Hm] Hr. rewrite <-Hm. unfold lookup_value. by rewrite Hr. Qed.

(** The map an index stores. *)
Definition abstract s : gmap Z Z :=
  list_to_map ((λ id, (id, value s id)) <$> roaring_bitmap_to_uint32_array (row s 0)).

Lemma abstract_models s : wf s → models s (abstract s).
Proof.
  intros Hw. split; [done|]. intros id. unfold abstract, lookup_value.
  assert (NoDup ((λ id, (id, value s id)) <$> roaring_bitmap_to_uint32_array (row s 0)).*1) as Hnd.
  { rewrite <-list_fmap_compose, list_fmap_id. apply ascending_NoDup, to_array_ascending. }
  destruct (row s 0).[id] eqn:E; symmetry.
  - apply elem_of_list_to_map_1; [done|]. apply list_elem_of_fmap. exists id.
    split; [done|]. by apply to_array_spec.
  - apply not_elem_of_list_to_map_1. rewrite <-list_fmap_compose, list_fmap_id, to_array_spec, E.
    done.
Qed.

Lemma models_unique s m1 m2 : models s m1 → models s m2 → m1 = m2.
Proof. intros [_ H1] [_ H2]. apply map_eq. intros id. by rewrite <-H1, <-H2. Qed.

(** A scan of [s] started from the filter [out] looks at these entries. *)
Definition in_filter (out : B) id : Prop :=
  roaring_bitmap_is_empty out = true ∨ out.[id] = true.

Lemma selected_models s m out id :
  models s m →
  selected s out id = true ↔ in_filter out id ∧ ∃ x, m !! id = Some x ∧ value s id = x.
Proof.
  intros Hm. unfold selected, in_filter. rewrite andb_true_iff, orb_true_iff. split.
  - intros [? Hr]. split; [done|]. eexists. split; [by eapply models_exist|done].
  - intros [? (x & Hx & _)]. split; [done|]. by eapply models_value in Hx as [? _].
Qed.

#[export] Instance in_filter_dec (out : B) id : Decision (in_filter out id).
Proof. unfold in_filter. apply _. Defined.

(** The entries a scan looks at. *)
Definition scanned (m : gmap Z Z) (out : B) : gmap Z Z := filter (λ p, in_filter out p.1) m.

Lemma scanned_Some (m : gmap Z Z) out id x :
  scanned m out !! id = Some x ↔ m !! id = Some x ∧ in_filter out id.
Proof. apply map_lookup_filter_Some. Qed.

Lemma selected_scanned s m out id :
  models s m → selected s out id = true ↔ scanned m out !! id = Some (value s id).
Proof.
  intros Hm. rewrite selected_models, scanned_Some by done.
  split; [intros [? (x & ? & <-)]; done|intros [? ?]; split; [done|by eexists]].
Qed.

Lemma scanned_value s m out id x :
  models s m → scanned m out !! id = Some x → selected s out id = true ∧ value s id = x.
Proof.
  intros Hm Hx. pose proof Hx as [Hx' _]%scanned_Some.
  destruct (models_value s m id x Hm Hx') as [_ Hv]. split; [|done].
  apply (selected_scanned s m); [done|]. by rewrite Hv.
Qed.

(** A scan whose bitmap is characterised by a test on the stored number
    returns the identifiers of the map that pass the test. *)
Lemma scan_models s m out (b : B) (test : Z → bool) :
  models s m →
  (∀ id, b.[id] = selected s out id && test (value s id)) →
  ∀ id, b.[id] = true ↔ ∃ x, scanned m out !! id = Some x ∧ test x = true.
Proof.
  intros Hm Hb id. rewrite Hb, andb_true_iff, (selected_scanned s m) by done. split; [eauto|].
  intros (x & Hx & Ht). destruct (scanned_value s m out id x Hm Hx) as [_ Hv]. by subst.
Qed.

Lemma rewritten_models s m id bits s' :
  models s m → rewritten s id true bits s' →
  models s' (<[id := bits_value bits (_bit_depth s)]> m).
Proof.
  intros [_ Hm] Hr. split; [apply Hr|]. intros x.
  rewrite (rewritten_lookup _ _ _ _ _ _ Hr). destruct (Z.eqb_spec x id) as [->|].
  - by rewrite lookup_insert_eq.
  - by rewrite lookup_insert_ne, Hm by done.
Qed.

Lemma removed_models s m id bits s' :
  models s m → rewritten s id false bits s' → models s' (delete id m).
Proof.
  intros [_ Hm] Hr. split; [apply Hr|]. intros x.
  rewrite (rewritten_lookup _ _ _ _ _ _ Hr). destruct (Z.eqb_spec x id) as [->|].
  - by rewrite lookup_delete_eq.
  - by rewrite lookup_delete_ne, Hm by done.
Qed.

(** The size of a bitmap that holds the identifiers of the entries that
    satisfy [Q]. *)
Lemma models_size (m : gmap Z Z) (Q : Z * Z → Prop) `{!∀ p, Decision (Q p)} (b : B) :
  (∀ id, b.[id] = true ↔ ∃ x, m !! id = Some x ∧ Q (id, x)) →
  roaring_bitmap_get_cardinality b = Z.of_nat (size (filter Q m)).
Proof.
  intros Hb. rewrite cardinality_spec, <-size_dom. f_equal.
  apply Permutation_length, NoDup_Permutation;
    [apply ascending_NoDup, to_array_ascending|apply NoDup_elements|].
  intros id. rewrite to_array_spec, elem_of_elements, elem_of_dom, Hb.
  split; intros [x Hx]; exists x; [apply map_lookup_filter_Some_2; tauto|].
  by apply map_lookup_filter_Some in Hx.
Qed.

Lemma models_cardinality s m :
  models s m → roaring_bitmap_get_cardinality (row s 0) = Z.of_nat (size m).
Proof.
  intros Hm. rewrite (models_size m (λ _, True)), map_filter_id; [done|done|].
  intros id. split.
  - intros Hr. eexists. split; [by eapply models_exist|done].
  - intros [x [Hx _]]. by eapply models_value in Hx as [? _].
Qed.
End indexes.
