(* ===== verification/BsiTheorems.v ===== *)
(** * BsiTheorems: the properties of the bit-sliced index

    The statements are about the abstract map of an index ([models]); each is
    followed by a witness on a concrete index over finite sets. *)

From S2P Require Import Prelude Roaring Cache Common Float Schema.
From S2P Require Import Bsi BsiSpec BsiRank BsiUpdate BsiIndex.

Section theorems.
Context `{Roaring B, !Scratch B}.
Implicit Types (s : BitSliceIndex B) (m : gmap Z Z) (out : B) (id v : Z).

(** ** Updates *)

Lemma put_index_models s m id v :
  models s m → models (put_index s id v) (<[id := low_bits s v]> m).
Proof.
  intros Hm. unfold low_bits. rewrite <-bits_value_of_testbit.
  apply rewritten_models; [done|]. apply put_index_rewritten, Hm.
Qed.

Lemma put_index_same s id v :
  wf s → _options (put_index s id v) = _options s ∧ _bit_depth (put_index s id v) = _bit_depth s.
Proof. intros Hw. destruct (put_index_rewritten s id v Hw). done. Qed.

Lemma low_bits_same s s' v : _bit_depth s' = _bit_depth s → low_bits s' v = low_bits s v.
Proof. unfold low_bits. by intros ->. Qed.

(** [DoPut] stores the low bits of the value for the identifier, leaves
    every other entry alone, and reports whether there was an old value and
    which, as long as the top-k limit is off or not exceeded. *)
Theorem DoPut_refines s m id v old :
  models s m → (_bit_depth s <= 64)%nat →
  _limit_topk (_options s) = 0 ∨ Z.of_nat (size m) < _limit_topk (_options s) →
  ∃ s', DoPut s id v old
          = Some (s', bool_decide (is_Some (m !! id)), default old (m !! id)) ∧
        models s' (<[id := low_bits s v]> m) ∧
        _options s' = _options s ∧ _bit_depth s' = _bit_depth s.
Proof.
  intros Hm Hd Hlim. exists (put_index s id v).
  destruct (put_index_same s id v) as [Ho Hd']; [apply Hm|].
  split_and!; [|by apply put_index_models|done..].
  rewrite DoPut_unfold by (apply Hm || done). cbv zeta. rewrite Ho.
  destruct (m !! id) as [x|] eqn:Hx.
  - destruct (models_value s m id x Hm Hx) as [-> ->].
    by rewrite bool_decide_eq_true_2 by eauto.
  - rewrite (models_none s m id Hm Hx), bool_decide_eq_false_2 by (by intros [? ?]).
    rewrite (models_cardinality _ _ (put_index_models s m id v Hm)).
    rewrite map_size_insert_None by done.
    destruct (Z.ltb_spec 0 (_limit_topk (_options s))); [|done].
    destruct (Z.ltb_spec (_limit_topk (_options s)) (Z.of_nat (S (size m)))); [lia|done].
Qed.

(** Removing an identifier together with its stored value deletes exactly
    that entry, and every bitmap is left without stale bits for it. *)
Theorem DoRemove_refines s m id x :
  models s m → m !! id = Some x →
  models (DoRemove s id x) (delete id m) ∧
  ∀ i, (i <= _bit_depth s)%nat → (row (DoRemove s id x) i).[id] = false.
Proof.
  intros Hm Hx. destruct (models_value s m id x Hm Hx) as [_ <-].
  pose proof (DoRemove_rewritten s id (proj1 Hm)) as Hr.
  split; [by eapply removed_models|]. intros [|i] Hi.
  - by rewrite (rw_exist _ _ _ _ _ Hr), Z.eqb_refl.
  - by rewrite (rw_bit _ _ _ _ _ Hr), Z.eqb_refl by lia.
Qed.

Lemma Init_models meta : models (Init (B:=B) new_index meta) ∅.
Proof. split; [apply Init_wf|]. intros id. by rewrite Init_lookup, lookup_empty. Qed.

(** A history of an index: what its clients do to it. A client removes an
    identifier with the value [DoGet] returns. *)
Inductive index_op := OpPut (id v : Z) | OpRemove (id : Z).

Definition run_op s (op : index_op) : option (BitSliceIndex B) :=
  match op with
  | OpPut id v => '(s, _, _) ← DoPut s id v 0; Some s
  | OpRemove id => match DoGet s id with Some v => Some (DoRemove s id v) | None => Some s end
  end.

Definition abs_op (depth : nat) m (op : index_op) : gmap Z Z :=
  match op with
  | OpPut id v => <[id := v mod 2 ^ Z.of_nat depth]> m
  | OpRemove id => delete id m
  end.

Lemma DoGet_models s m id : models s m → (_bit_depth s <= 64)%nat → DoGet s id = m !! id.
Proof. intros [_ Hm] Hd. by rewrite DoGet_lookup, Hm. Qed.

Lemma run_op_models s m op :
  models s m → (_bit_depth s <= 64)%nat → _limit_topk (_options s) = 0 →
  ∃ s', run_op s op = Some s' ∧ models s' (abs_op (_bit_depth s) m op) ∧
        _bit_depth s' = _bit_depth s ∧ _limit_topk (_options s') = 0.
Proof.
  intros Hm Hd Hl. destruct op as [id v|id]; simpl.
  - exists (put_index s id v). destruct (put_index_same s id v) as [Ho ?]; [apply Hm|].
    split_and!; [|by apply put_index_models|done|by rewrite Ho].
    rewrite DoPut_unfold by (apply Hm || done). cbv zeta. rewrite Ho, Hl.
    by destruct (row s 0).[id].
  - rewrite (DoGet_models s m) by done. destruct (m !! id) as [x|] eqn:Hx.
    + destruct (models_value s m id x Hm Hx) as [_ <-].
      pose proof (DoRemove_rewritten s id (proj1 Hm)) as Hr. eexists. split; [done|].
      split_and!; [by eapply removed_models|apply Hr|].
      by rewrite (rw_options _ _ _ _ _ Hr).
    + exists s. by rewrite delete_id.
Qed.

Definition run_ops s (ops : list index_op) : option (BitSliceIndex B) :=
  foldl (λ o op, o ≫= λ s, run_op s op) (Some s) ops.

Lemma run_ops_models s m ops :
  models s m → (_bit_depth s <= 64)%nat → _limit_topk (_options s) = 0 →
  ∃ s', run_ops s ops = Some s' ∧ models s' (foldl (abs_op (_bit_depth s)) m ops) ∧
        _bit_depth s' = _bit_depth s.
Proof.
  unfold run_ops. revert s m. induction ops as [|op ops IH]; intros s m Hm Hd Hl; simpl; [eauto|].
  destruct (run_op_models s m op) as (s1 & -> & Hm1 & Hd1 & Hl1); [done..|]. simpl.
  destruct (IH s1 _ Hm1) as (s2 & -> & Hm2 & Hd2); [lia|done|].
  exists s2. rewrite Hd1 in *. done.
Qed.

Lemma Init_depth_64 meta : (_bit_depth (Init (B:=B) new_index meta) <= 63)%nat.
Proof.
  pose proof (Init_depth (B:=B) meta) as Hd. cbv zeta in Hd.
  destruct (_ <? _); [destruct Hd; lia|lia].
Qed.

(** C1. Whatever sequence of puts and removals is applied to a fresh index
    without a top-k limit, no operation is undefined, and [DoGet] afterwards
    returns for every identifier what a finite map that went through the same
    sequence holds.  ([Init] itself is defined in C++ when the difference of the
    configured bounds is an [int64_t]; here it wraps.) *)
Theorem index_history_refines meta ops :
  fm_topk_limit meta = 0 →
  let s0 := Init (B:=B) new_index meta in
  ∃ s, run_ops s0 ops = Some s ∧
    ∀ id, DoGet s id = foldl (abs_op (_bit_depth s0)) (∅ : gmap Z Z) ops !! id.
Proof.
  intros Hl s0. pose proof (Init_depth_64 meta).
  destruct (run_ops_models s0 ∅ ops) as (s & Hs & Hm & Hd);
    [apply Init_models|unfold s0; lia|simpl; by rewrite Hl|].
  exists s. split; [done|]. intros id. apply DoGet_models; [done|unfold s0 in *; lia].
Qed.

(** ** Scans *)

(** C35. [DoRangeGT] returns the scanned entries, those of the filter or of the
    whole index when the filter is empty, whose number is greater than (or equal
    to) the low bits of the bound: the bound modulo 2 to the depth, which is the
    bound itself when the index has room for it. *)
Theorem DoRangeGT_correct s m v allow_eq out id :
  models s m → (0 < _bit_depth s)%nat →
  let bound := v mod 2 ^ Z.of_nat (_bit_depth s) in
  (DoRangeGT s v allow_eq out).[id] = true ↔
  ∃ x, m !! id = Some x ∧ (roaring_bitmap_is_empty out = true ∨ out.[id] = true) ∧
       if allow_eq : bool then bound <= x else bound < x.
Proof.
  intros Hm Hd bound. change bound with (low_bits s v).
  rewrite (scan_models s m out _ (λ x, if allow_eq then low_bits s v <=? x else low_bits s v <? x));
    [|done|intros; apply DoRangeGT_contains; by right].
  setoid_rewrite scanned_Some. setoid_rewrite <-(assoc and).
  destruct allow_eq; [setoid_rewrite Z.leb_le|setoid_rewrite Z.ltb_lt]; done.
Qed.

(** [DoRangeLT] with [allow_eq] returns the scanned entries whose number
    is at most the low bits of the bound. *)
Theorem DoRangeLT_allow_eq_correct s m v out id :
  models s m →
  (DoRangeLT s v true out).[id] = true ↔
  ∃ x, scanned m out !! id = Some x ∧ x <= low_bits s v.
Proof.
  intros Hm. setoid_rewrite <-Z.leb_le.
  apply (scan_models s m out _ (λ x, x <=? low_bits s v)); [done|].
  intros. apply (DoRangeLT_contains s v true). by left.
Qed.

(** [DoRangeLT] without [allow_eq] is a strict comparison when the bound
    is even and not zero; with bound zero it returns the zeros, and with an
    odd bound [2 y + 1] it returns [2 y], [2 y + 1] and the odd numbers below. *)
Theorem DoRangeLT_strict_exact s m v out id :
  models s m → (0 < _bit_depth s)%nat →
  let y := low_bits s v in
  (DoRangeLT s v false out).[id] = true ↔
  ∃ x, scanned m out !! id = Some x ∧
    if y =? 0 then x = 0
    else if Z.even y then x < y
    else x / 2 = y / 2 ∨ (x / 2 < y / 2 ∧ Z.odd x = true).
Proof.
  intros Hm Hd y.
  rewrite (scan_models s m out _ (λ x, lt_scan x y));
    [|done|intros; apply (DoRangeLT_contains s v false); by right].
  f_equiv. intros x. f_equiv. unfold lt_scan.
  destruct (y =? 0); [apply Z.eqb_eq|]. destruct (Z.even y); [apply Z.ltb_lt|].
  by rewrite orb_true_iff, andb_true_iff, Z.eqb_eq, Z.ltb_lt.
Qed.

(** [DoRangeEQ] returns the scanned entries whose number is the bound's
    low bits; [DoRangeNEQ] returns every entry of the index with another
    number, whatever bitmap it is given. *)
Theorem DoRangeEQ_NEQ_correct s m v out id :
  models s m →
  ((DoRangeEQ s v out).[id] = true ↔ scanned m out !! id = Some (low_bits s v)) ∧
  ((DoRangeNEQ s v out).[id] = true ↔ ∃ x, m !! id = Some x ∧ x ≠ low_bits s v).
Proof.
  intros Hm. split.
  - rewrite (scan_models s m out _ (λ x, x =? low_bits s v)); [|done|apply DoRangeEQ_contains].
    setoid_rewrite Z.eqb_eq. split; [by intros (x & ? & <-)|eauto].
  - rewrite DoRangeNEQ_contains, andb_true_iff, negb_true_iff, Z.eqb_neq. split.
    + intros [Hr Hne]. eexists. split; [by eapply models_exist|done].
    + intros (x & Hx & Hne). destruct (models_value s m id x Hm Hx) as [? ->]. done.
Qed.

(** [DoRangeBetween] returns the scanned entries between the low bits of
    the two bounds, both included. *)
Theorem DoRangeBetween_correct s m lo up out id :
  models s m →
  (DoRangeBetween s lo up out).[id] = true ↔
  ∃ x, scanned m out !! id = Some x ∧ low_bits s lo <= x <= low_bits s up.
Proof.
  intros Hm.
  rewrite (scan_models s m out _ (λ x, (low_bits s lo <=? x) && (x <=? low_bits s up)));
    [|done|intros; by rewrite DoRangeBetween_contains, andb_assoc].
  setoid_rewrite andb_true_iff. by setoid_rewrite Z.leb_le.
Qed.

(** ** Maximum, minimum and the k largest *)

Lemma counts_size s m out mx count :
  models s m → counts s (selected s out) mx count →
  count = Z.of_nat (size (filter (λ p, p.2 = mx) (scanned m out))).
Proof.
  intros Hm (b & Hb & ->). apply models_size. intros id.
  rewrite (scan_models s m out b (λ x, x =? mx) Hm Hb). by setoid_rewrite Z.eqb_eq.
Qed.

(** On an index of 1 to 31 bits [DoGetMax] returns an upper bound of the
    scanned numbers, how many entries have that number, and this is at least
    one as soon as anything was scanned. *)
Theorem DoGetMax_correct s m input :
  models s m → (0 < _bit_depth s <= 31)%nat →
  let mo := scanned m (default (acquire 0) input) in
  ∃ o mx count, DoGetMax s input = Some (o, mx, count) ∧
    (∀ id x, mo !! id = Some x → x <= mx) ∧
    count = Z.of_nat (size (filter (λ p, p.2 = mx) mo)) ∧
    (mo ≠ ∅ → ∃ id, mo !! id = Some mx).
Proof.
  intros Hm Hd mo. destruct (DoGetMax_result s input Hd) as (mx & count & -> & Hle & Hc & Hpos).
  eexists _, mx, count. split_and!; [done| |by apply (counts_size s)|].
  - intros id x Hx. destruct (scanned_value s m _ id x Hm Hx) as [? <-]. by apply Hle.
  - intros [id [x Hx]]%map_choose. destruct (scanned_value s m _ id x Hm Hx) as [Hsel _].
    specialize (Hpos id Hsel). destruct Hc as (b & Hb & ->).
    destruct (cardinality_pos_inv b Hpos) as [id' Hid'].
    rewrite Hb, andb_true_iff, Z.eqb_eq in Hid'. destruct Hid' as [Hs' <-].
    exists id'. by apply (selected_scanned s m) in Hs'.
Qed.

(** [t] is the bit length of the least number of [mo]. *)
Definition least_bits (mo : gmap Z Z) (t : nat) : Prop :=
  (∃ id x, mo !! id = Some x ∧ x < 2 ^ Z.of_nat t) ∧
  (∀ id x, mo !! id = Some x → t = 0%nat ∨ 2 ^ (Z.of_nat t - 1) <= x).

Lemma min_bits_least s m out t :
  models s m → min_bits s (selected s out) t → least_bits (scanned m out) t.
Proof.
  intros Hm [(id & Hid & Hlt) Hall]. split.
  - exists id, (value s id). by rewrite (selected_scanned s m) in Hid.
  - intros id' x Hx. destruct (scanned_value s m out id' x Hm Hx) as [? <-]. by apply Hall.
Qed.

(** [DoGetMin] does not return the least number: it returns the largest
    number of the same bit length, with the count of the entries up to it,
    or with -1 when that bit length is the whole depth. *)
Theorem DoGetMin_exact s m input :
  models s m → (0 < _bit_depth s <= 31)%nat →
  let mo := scanned m (default (acquire 0) input) in
  mo ≠ ∅ →
  ∃ o t, (t <= _bit_depth s)%nat ∧ least_bits mo t ∧
    DoGetMin s input
    = Some (o, 2 ^ Z.of_nat t - 1,
            if (t =? _bit_depth s)%nat then -1
            else Z.of_nat (size (filter (λ p, p.2 < 2 ^ Z.of_nat t) mo))).
Proof.
  intros Hm Hd mo [id [x Hx]]%map_choose.
  destruct (scanned_value s m _ id x Hm Hx) as [Hsel _].
  destruct (DoGetMin_result s input id Hd Hsel) as (o & t & count & -> & Ht & Hb & Hc).
  exists o, t. split_and!; [done|by eapply min_bits_least|].
  destruct (t =? _bit_depth s)%nat; [by rewrite Hc|]. destruct Hc as (b & Hbb & ->).
  do 2 f_equal. apply models_size. intros id'.
  rewrite (scan_models s m _ b (λ x, x <? 2 ^ Z.of_nat t) Hm Hbb). by setoid_rewrite Z.ltb_lt.
Qed.

(** [DoRemoveMin] on a non-empty index removes an entry only when the
    least number is all ones; with a shorter least number of another form it
    indexes an empty vector, and with one as long as the depth it removes
    nothing. *)
Theorem DoRemoveMin_exact s m :
  models s m → (0 < _bit_depth s <= 31)%nat → Z.of_nat (size m) < 2 ^ 32 → m ≠ ∅ →
  ∃ t, (t <= _bit_depth s)%nat ∧ least_bits m t ∧
    if (t =? _bit_depth s)%nat then DoRemoveMin s = Some (s, 0)
    else match DoRemoveMin s with
         | Some (s', x) => x = 2 ^ Z.of_nat t - 1 ∧
             ∃ id, m !! id = Some x ∧ models s' (delete id m) ∧
                   ∀ id', m !! id' = Some x → id <= id'
         | None => ∀ id, m !! id ≠ Some (2 ^ Z.of_nat t - 1)
         end.
Proof.
  intros Hm Hd Hc [id [x Hx]]%map_choose. rewrite <-(models_cardinality s m Hm) in Hc.
  destruct (models_value s m id x Hm Hx) as [Hr _].
  destruct (DoRemoveMin_result s id Hd Hc Hr) as (t & eqs & Ht & [(i0 & Hi0 & Hlt) Hall] & Heq & ->).
  exists t. split_and!; [done| |].
  { split.
    - exists i0, (value s i0). by split; [eapply models_exist|].
    - intros id' y Hy. destruct (models_value s m id' y Hm Hy) as [? <-]. by apply Hall. }
  destruct (t =? _bit_depth s)%nat; [done|].
  assert (∀ id, id ∈ roaring_bitmap_to_uint32_array eqs ↔ m !! id = Some (2 ^ Z.of_nat t - 1)) as Hin.
  { intros y. rewrite to_array_spec, Heq, andb_true_iff, Z.eqb_eq. split.
    - intros [? <-]. by eapply models_exist.
    - by intros [? ?]%(models_value s m y _ Hm). }
  pose proof (to_array_ascending eqs) as Hasc.
  destruct (roaring_bitmap_to_uint32_array eqs) as [|y l].
  { intros y Hy. apply Hin in Hy. by apply elem_of_nil in Hy. }
  split; [done|]. exists y. assert (m !! y = Some (2 ^ Z.of_nat t - 1)) as Hy by (apply Hin; left).
  split_and!; [done| |].
  - destruct (models_value s m y _ Hm Hy) as [_ <-].
    eapply removed_models; [done|apply DoRemove_rewritten, Hm].
  - intros z Hz. apply Hin, elem_of_cons in Hz as [->|Hz]; [lia|].
    inversion Hasc as [|?? _ Hf]. rewrite Forall_forall in Hf. specialize (Hf z Hz). lia.
Qed.

(** C30. [TopK] returns exactly the identifiers with a non-zero number such
    that at most [k] entries have a number at least as large: ties that do
    not fit are left out, and zeros are never returned. *)
Theorem TopK_correct s m k out id :
  models s m → (0 < _bit_depth s)%nat → 0 <= k < 2 ^ 32 → Z.of_nat (size m) < 2 ^ 32 →
  roaring_bitmap_is_empty out = true →
  (TopK s k out).[id] = true ↔
  ∃ x, m !! id = Some x ∧ 0 < x ∧ Z.of_nat (size (filter (λ p, x <= p.2) m)) <= k.
Proof.
  intros Hm Hd Hk Hc He. rewrite is_empty_true in He. rewrite <-(models_cardinality s m Hm) in Hc.
  destruct (TopK_top s k out Hk Hc He) as [Hi Hsz Hdom Hpos Hcomp].
  assert (∀ x, 0 <= x < 2 ^ Z.of_nat (_bit_depth s) → ∃ G : B,
    (∀ y, G.[y] = (row s 0).[y] && (x <=? value s y)) ∧
    roaring_bitmap_get_cardinality G = Z.of_nat (size (filter (λ p, x <= p.2) m))) as HG.
  { intros x Hx. exists (DoRangeGT s x true (acquire 0)).
    assert (∀ y, (DoRangeGT s x true (acquire 0)).[y] = (row s 0).[y] && (x <=? value s y)) as HG.
    { intros y. rewrite DoRangeGT_contains, selected_acquire, low_bits_id by (lia || by left). done. }
    split; [done|]. apply models_size. intros y. rewrite HG, andb_true_iff, Z.leb_le. split.
    - intros [? ?]. eexists. split; [by eapply models_exist|done].
    - intros (z & Hz & ?). by destruct (models_value s m y z Hm Hz) as [? ->]. }
  destruct (HG (value s id) (value_range s id)) as (G & HGb & HGc). split.
  - intros Hid. exists (value s id). split_and!; [by eapply models_exist, Hi|by apply Hpos|].
    rewrite <-HGc. etrans; [|exact Hsz]. apply cardinality_mono. intros y.
    rewrite HGb, andb_true_iff, Z.leb_le. intros [Hy Hle].
    destruct (TopK s k out).[y] eqn:E; [done|]. specialize (Hdom id y Hid Hy E). lia.
  - intros (x & Hx & Hx0 & Hle). destruct (models_value s m id x Hm Hx) as [Hr Hv].
    destruct (TopK s k out).[id] eqn:E; [done|]. rewrite Hv in HGc.
    destruct (Hcomp id Hr E) as [|(C & HC & HCk)]; [lia|]. rewrite <-HGc in Hle.
    assert (roaring_bitmap_get_cardinality C <= roaring_bitmap_get_cardinality G); [|lia].
    apply cardinality_mono. intros y [? ?]%HC. by rewrite HGb, andb_true_iff, Z.leb_le.
Qed.
End theorems.
