(* ===== verification/BsiValues.v ===== *)
(** * BsiValues: integers, floats and files of the bit-sliced index

    What the clients of [BitSliceIntIndex] and [BitSliceFloatIndex] see: values
    of the configured range are stored and compared exactly, and an index
    written to a file is read back. *)

From S2P Require Import Prelude Roaring Cache Common Float Schema.
From S2P Require Import Bsi BsiSpec BsiRank BsiUpdate BsiIndex BsiTheorems.

Section values.
Context `{Roaring B, !Scratch B}.
Implicit Types (s : BitSliceIndex B) (m : gmap Z Z) (out : B) (id v : Z).

(** ** Integers *)

(** The index was initialised for the integers from [lo] to [hi_]. *)
Record int_range s (lo hi_ : Z) : Prop := {
  ir_lo : _min_int (_options s) = lo;
  ir_i64 : is_i64 lo ∧ is_i64 hi_;
  ir_order : lo <= hi_;
  ir_fits : hi_ - lo < 2 ^ Z.of_nat (_bit_depth s);
  ir_depth : (_bit_depth s <= 63)%nat;
}.

Lemma Init_int meta :
  fm_index_type meta = INT_INDEX →
  _options (Init (B:=B) new_index meta)
  = SetLimitTopK (SetMinMax_int default_options (double_to_int64 (fm_min meta))
                    (double_to_int64 (fm_max meta))) (u32 (fm_topk_limit meta)).
Proof. intros Ht. unfold Init, DoInit. by rewrite Ht. Qed.

(** An integer index initialised from a schema gives every integer of
    the schema's range [lo, hi] a local number that fits its bit depth, when
    the range spans less than 2^63 and is not the default one. *)
Theorem Init_int_range meta lo hi_ :
  fm_index_type meta = INT_INDEX →
  double_to_int64 (fm_min meta) = lo → double_to_int64 (fm_max meta) = hi_ →
  is_i64 lo → is_i64 hi_ → lo <= hi_ → hi_ - lo < 2 ^ 63 → ¬ (lo = 0 ∧ hi_ = 0) →
  int_range (Init new_index meta) lo hi_ ∧
  ∀ j, (j < _bit_depth (Init (B:=B) new_index meta))%nat → 2 ^ Z.of_nat j <= hi_ - lo.
Proof.
  intros Ht Hlo Hhi Hil Hih Hle Hd Hnz.
  pose proof (Init_int meta Ht) as Ho. rewrite Hlo, Hhi in Ho.
  pose proof (Init_depth (B:=B) meta) as Hdep. cbv zeta in Hdep.
  assert (Distance (_options (Init (B:=B) new_index meta)) = hi_ - lo) as Hdist.
  { rewrite Ho. unfold Distance, SetLimitTopK, SetMinMax_int. cbn [_max _min].
    replace ((0 =? lo) && (0 =? hi_)) with false
      by (symmetry; apply andb_false_iff; rewrite !Z.eqb_neq; lia).
    unfold is_i64 in *. rewrite i64_id by (unfold is_i64; lia).
    rewrite (u64_id (hi_ - lo)) by (unfold is_u64; lia). rewrite Z.sub_0_r.
    apply u64_id. unfold is_u64. lia. }
  rewrite Hdist, (proj2 (Z.ltb_lt _ _) Hd) in Hdep. destruct Hdep as (? & ? & ?).
  split; [|done]. split; try done. by rewrite Ho.
Qed.

Lemma ToLocal_int s lo hi_ v :
  int_range s lo hi_ → lo <= v <= hi_ →
  ToLocalVal_int (_options s) v = v - lo ∧ low_bits s (v - lo) = v - lo ∧
  GetActualIntVal (_options s) (v - lo) = v.
Proof.
  intros [Hlo [Hil Hih] Hle Hf Hd] Hv. unfold ToLocalVal_int, GetActualIntVal. rewrite Hlo.
  assert (2 ^ Z.of_nat (_bit_depth s) <= 2 ^ 63) by (apply Z.pow_le_mono_r; lia).
  unfold is_i64 in *. rewrite !(i64_id (v - lo)) by (unfold is_i64; lia).
  split_and!; [apply u64_id; unfold is_u64; lia|apply low_bits_id; lia|].
  rewrite i64_id by (unfold is_i64; lia). lia.
Qed.

(** [s] stores exactly the integers of [mi], all of the range. *)
Definition int_models s (lo hi_ : Z) (mi : gmap Z Z) : Prop :=
  int_range s lo hi_ ∧ map_Forall (λ _ v, lo <= v <= hi_) mi ∧
  models s ((λ v, v - lo) <$> mi).

Lemma int_put s lo hi_ mi id v :
  int_models s lo hi_ mi → lo <= v <= hi_ → _limit_topk (_options s) = 0 →
  ∃ s', BitSliceIntIndex_Put s id v = Some s' ∧ int_models s' lo hi_ (<[id := v]> mi) ∧
    ∀ id', BitSliceIntIndex_Get s' id' = if id' =? id then Some v else mi !! id'.
Proof.
  intros (Hr & Hall & Hm) Hv Hl. destruct (ToLocal_int s lo hi_ v Hr Hv) as (Hloc & Hlow & _).
  destruct (put_index_same s id (v - lo)) as [Ho Hd]; [apply Hm|].
  assert (int_range (put_index s id (v - lo)) lo hi_) as Hr'.
  { destruct Hr. split; rewrite ?Ho, ?Hd; done. }
  assert (models (put_index s id (v - lo)) ((λ v, v - lo) <$> <[id:=v]> mi)) as Hm'.
  { pose proof (put_index_models s _ id (v - lo) Hm) as Hp. rewrite Hlow in Hp.
    by rewrite fmap_insert. }
  exists (put_index s id (v - lo)). split_and!.
  - unfold BitSliceIntIndex_Put. rewrite Hloc.
    rewrite DoPut_unfold by (apply Hm || (destruct Hr; lia)). cbv zeta. rewrite Ho, Hl.
    by destruct (row s 0).[id].
  - split_and!; [done|by apply map_Forall_insert_2|done].
  - intros id'. unfold BitSliceIntIndex_Get.
    rewrite (DoGet_models _ _ _ Hm') by (destruct Hr'; lia).
    rewrite lookup_fmap. destruct (Z.eqb_spec id' id) as [->|].
    + rewrite lookup_insert_eq. simpl. f_equal.
      by destruct (ToLocal_int _ lo hi_ v Hr' Hv) as (_ & _ & ?).
    + rewrite lookup_insert_ne by done. destruct (mi !! id') as [x|] eqn:E; [|done].
      simpl. f_equal. by destruct (ToLocal_int _ lo hi_ x Hr' (Hall _ _ E)) as (_ & _ & ?).
Qed.

(** Storing an integer of the range and reading it back gives that
    integer, and the other identifiers keep theirs. *)
Theorem int_index_put_get s lo hi_ mi id v :
  int_models s lo hi_ mi → lo <= v <= hi_ → _limit_topk (_options s) = 0 →
  ∃ s', BitSliceIntIndex_Put s id v = Some s' ∧ int_models s' lo hi_ (<[id := v]> mi) ∧
    ∀ id', BitSliceIntIndex_Get s' id' = if id' =? id then Some v else mi !! id'.
Proof. apply int_put. Qed.

Lemma scanned_fmap (f : Z → Z) (mi : gmap Z Z) out :
  scanned (f <$> mi) out = f <$> scanned mi out.
Proof. unfold scanned. rewrite map_filter_fmap. by apply (f_equal (fmap f)), map_filter_ext. Qed.

Lemma fmap_Some_ex (f : Z → Z) (mi : gmap Z Z) id (Q : Z → Prop) :
  (∃ x, (f <$> mi) !! id = Some x ∧ Q x) ↔ ∃ v, mi !! id = Some v ∧ Q (f v).
Proof.
  rewrite lookup_fmap. destruct (mi !! id) as [v|]; simpl; [|split; by intros (? & ? & _)].
  split; [intros (x & [= <-] & ?); eauto|intros (x & [= <-] & ?); eauto].
Qed.

Lemma int_scans s lo hi_ mi e e2 out id :
  int_models s lo hi_ mi → (0 < _bit_depth s)%nat → lo <= e <= hi_ → lo <= e2 <= hi_ →
  let has Q := ∃ v, scanned mi out !! id = Some v ∧ Q v in
  ((BitSliceIntIndex_RangeGT s e false out).[id] = true ↔ has (λ v, e < v)) ∧
  ((BitSliceIntIndex_RangeGT s e true out).[id] = true ↔ has (λ v, e <= v)) ∧
  ((BitSliceIntIndex_RangeLT s e true out).[id] = true ↔ has (λ v, v <= e)) ∧
  ((BitSliceIntIndex_RangeEQ s e out).[id] = true ↔ has (λ v, v = e)) ∧
  ((BitSliceIntIndex_RangeBetween s e e2 out).[id] = true ↔ has (λ v, e <= v <= e2)).
Proof.
  intros (Hr & Hall & Hm) Hd He He2 has.
  destruct (ToLocal_int s lo hi_ e Hr He) as (Hl & Hlow & _).
  destruct (ToLocal_int s lo hi_ e2 Hr He2) as (Hl2 & Hlow2 & _).
  unfold BitSliceIntIndex_RangeGT, BitSliceIntIndex_RangeLT, BitSliceIntIndex_RangeEQ,
    BitSliceIntIndex_RangeBetween. rewrite Hl, Hl2.
  assert (∀ (b : B) (test : Z → bool) (Q : Z → Prop),
    (∀ id, b.[id] = selected s out id && test (value s id)) →
    (∀ v, test (v - lo) = true ↔ Q v) → b.[id] = true ↔ has Q) as Hscan.
  { intros b test Q Hb Hq. rewrite (scan_models s _ out b test Hm Hb), scanned_fmap.
    rewrite fmap_Some_ex. unfold has. by setoid_rewrite Hq. }
  split_and!.
  - apply (Hscan _ (λ x, e - lo <? x)).
    + intros. rewrite DoRangeGT_contains, Hlow by (by right). done.
    + intros. rewrite Z.ltb_lt. lia.
  - apply (Hscan _ (λ x, e - lo <=? x)).
    + intros. rewrite DoRangeGT_contains, Hlow by (by left). done.
    + intros. rewrite Z.leb_le. lia.
  - apply (Hscan _ (λ x, x <=? e - lo)).
    + intros. rewrite DoRangeLT_contains, Hlow by (by left). done.
    + intros. rewrite Z.leb_le. lia.
  - apply (Hscan _ (λ x, x =? e - lo)).
    + intros. by rewrite DoRangeEQ_contains, Hlow.
    + intros. rewrite Z.eqb_eq. lia.
  - apply (Hscan _ (λ x, (e - lo <=? x) && (x <=? e2 - lo))).
    + intros. by rewrite DoRangeBetween_contains, Hlow, Hlow2, andb_assoc.
    + intros. rewrite andb_true_iff, !Z.leb_le. lia.
Qed.

(** On an integer index whose bounds are integers of the range, the
    scans compare the stored integers themselves. *)
Theorem int_scans_correct s lo hi_ mi e e2 out id :
  int_models s lo hi_ mi → (0 < _bit_depth s)%nat → lo <= e <= hi_ → lo <= e2 <= hi_ →
  let has Q := ∃ v, scanned mi out !! id = Some v ∧ Q v in
  ((BitSliceIntIndex_RangeGT s e false out).[id] = true ↔ has (λ v, e < v)) ∧
  ((BitSliceIntIndex_RangeGT s e true out).[id] = true ↔ has (λ v, e <= v)) ∧
  ((BitSliceIntIndex_RangeLT s e true out).[id] = true ↔ has (λ v, v <= e)) ∧
  ((BitSliceIntIndex_RangeEQ s e out).[id] = true ↔ has (λ v, v = e)) ∧
  ((BitSliceIntIndex_RangeBetween s e e2 out).[id] = true ↔ has (λ v, e <= v <= e2)).
Proof. apply int_scans. Qed.

(** ** Floats *)

(** A float of the range [lo, hi], by its bits. *)
Definition float_in (lo hi_ v : Z) : Prop :=
  is_u32 v ∧ f32_is_nan v = false ∧ f32_scaled lo <= f32_scaled v <= f32_scaled hi_.

Lemma float_key_le a b :
  is_u32 a → is_u32 b → f32_is_nan a = false → f32_is_nan b = false →
  (float_to_uint32 a <= float_to_uint32 b ↔ f32_scaled a <= f32_scaled b) ∧
  (float_to_uint32 a < float_to_uint32 b ↔ f32_scaled a < f32_scaled b).
Proof.
  intros Ha Hb Hna Hnb. rewrite !float_to_uint32_key by done.
  pose proof (fp_key_lt 23 8 ltac:(lia) ltac:(lia) a b Ha Hb Hna Hnb) as H1.
  pose proof (fp_key_lt 23 8 ltac:(lia) ltac:(lia) b a Hb Ha Hnb Hna) as H2.
  destruct (Z.ltb_spec (fp_key 23 8 a) (fp_key 23 8 b)),
    (Z.ltb_spec (fp_key 23 8 b) (fp_key 23 8 a)),
    (Z.ltb_spec (f32_scaled a) (f32_scaled b)), (Z.ltb_spec (f32_scaled b) (f32_scaled a));
    try done; lia.
Qed.

Lemma float_to_uint32_range v : is_u32 v → is_u32 (float_to_uint32 v).
Proof.
  intros Hv. rewrite float_to_uint32_key by done. unfold fp_key, is_u32 in *.
  change (23 + 8) with 31. unfold fp_mag. change (23 + 8) with 31.
  pose proof (Z.mod_pos_bound v (2 ^ 31)). destruct (f32_ge0 v); lia.
Qed.

(** The index was initialised for the floats from [lo] to [hi_]. *)
Record float_range s (lo hi_ : Z) : Prop := {
  fr_min : _min (_options s) = float_to_uint32 lo;
  fr_lo : float_in lo hi_ lo;
  fr_hi : float_in lo hi_ hi_;
  fr_fits : float_to_uint32 hi_ - float_to_uint32 lo < 2 ^ Z.of_nat (_bit_depth s);
}.

Lemma ToLocal_float s lo hi_ v :
  float_range s lo hi_ → float_in lo hi_ v →
  ToLocalVal_float (_options s) v = float_to_uint32 v - float_to_uint32 lo ∧
  low_bits s (float_to_uint32 v - float_to_uint32 lo) = float_to_uint32 v - float_to_uint32 lo.
Proof.
  intros [Hmin (Hlo & Hlon & _) (Hhi & Hhin & _) Hf] (Hv & Hn & Hr).
  unfold ToLocalVal_float. rewrite Hmin.
  destruct (float_key_le lo v Hlo Hv Hlon Hn) as [[_ Hk1] _].
  destruct (float_key_le v hi_ Hv Hhi Hn Hhin) as [[_ Hk2] _].
  pose proof (float_to_uint32_range v Hv). pose proof (float_to_uint32_range lo Hlo).
  unfold is_u32 in *. split; [apply u64_id; unfold is_u64; lia|apply low_bits_id; lia].
Qed.

(** On a float index the scans compare the stored floats as numbers: the
    integer keys are ordered as the floats, negative ones included. *)
Theorem float_scans_correct s lo hi_ (mf : gmap Z Z) e e2 out id :
  float_range s lo hi_ → (0 < _bit_depth s)%nat →
  map_Forall (λ _ v, float_in lo hi_ v) mf →
  models s (ToLocalVal_float (_options s) <$> mf) →
  float_in lo hi_ e → float_in lo hi_ e2 →
  let has Q := ∃ v, scanned mf out !! id = Some v ∧ Q (f32_scaled v) in
  ((BitSliceFloatIndex_RangeGT s e false out).[id] = true ↔ has (λ x, f32_scaled e < x)) ∧
  ((BitSliceFloatIndex_RangeGT s e true out).[id] = true ↔ has (λ x, f32_scaled e <= x)) ∧
  ((BitSliceFloatIndex_RangeLT s e true out).[id] = true ↔ has (λ x, x <= f32_scaled e)) ∧
  ((BitSliceFloatIndex_RangeBetween s e e2 out).[id] = true ↔
     has (λ x, f32_scaled e <= x <= f32_scaled e2)).
Proof.
  intros Hr Hd Hall Hm He He2 has.
  destruct (ToLocal_float s lo hi_ e Hr He) as (Hl & Hlow).
  destruct (ToLocal_float s lo hi_ e2 Hr He2) as (Hl2 & Hlow2).
  unfold BitSliceFloatIndex_RangeGT, BitSliceFloatIndex_RangeLT, BitSliceFloatIndex_RangeBetween.
  rewrite Hl, Hl2. set (L := float_to_uint32 lo) in *.
  assert (∀ (b : B) (test : Z → bool) (Q : Z → Prop),
    (∀ id, b.[id] = selected s out id && test (value s id)) →
    (∀ v, float_in lo hi_ v → test (float_to_uint32 v - L) = true ↔ Q (f32_scaled v)) →
    b.[id] = true ↔ has Q) as Hscan.
  { intros b test Q Hb Hq. rewrite (scan_models s _ out b test Hm Hb), scanned_fmap, fmap_Some_ex.
    unfold has. f_equiv. intros v. split; intros [Hv HQ]; (split; [done|]);
      apply scanned_Some in Hv as [Hv _]; specialize (Hall _ _ Hv); simpl in Hall.
    - apply Hq; [done|]. destruct (ToLocal_float s lo hi_ v Hr Hall) as [E _].
      by rewrite E in HQ.
    - destruct (ToLocal_float s lo hi_ v Hr Hall) as [E _]. rewrite E. by apply Hq. }
  assert (∀ v, float_in lo hi_ v → ∀ a, float_in lo hi_ a →
    (float_to_uint32 a <= float_to_uint32 v ↔ f32_scaled a <= f32_scaled v) ∧
    (float_to_uint32 a < float_to_uint32 v ↔ f32_scaled a < f32_scaled v)) as Hcmp
    by (intros v (? & ? & _) a (? & ? & _); by apply float_key_le).
  split_and!.
  - apply (Hscan _ (λ x, float_to_uint32 e - L <? x)).
    + intros. rewrite DoRangeGT_contains, Hlow by (by right). done.
    + intros v Hv. rewrite Z.ltb_lt. specialize (Hcmp v Hv e He). lia.
  - apply (Hscan _ (λ x, float_to_uint32 e - L <=? x)).
    + intros. rewrite DoRangeGT_contains, Hlow by (by left). done.
    + intros v Hv. rewrite Z.leb_le. specialize (Hcmp v Hv e He). lia.
  - apply (Hscan _ (λ x, x <=? float_to_uint32 e - L)).
    + intros. rewrite DoRangeLT_contains, Hlow by (by left). done.
    + intros v Hv. rewrite Z.leb_le. specialize (Hcmp e He v Hv). lia.
  - apply (Hscan _ (λ x, (float_to_uint32 e - L <=? x) && (x <=? float_to_uint32 e2 - L))).
    + intros. by rewrite DoRangeBetween_contains, Hlow, Hlow2, andb_assoc.
    + intros v Hv. rewrite andb_true_iff, !Z.leb_le.
      pose proof (Hcmp v Hv e He). pose proof (Hcmp e2 He2 v Hv). lia.
Qed.

(** ** Files *)

Lemma models_rows s s2 m :
  models s m → _bit_depth s2 = _bit_depth s → wf s2 →
  (∀ k, (k <= _bit_depth s)%nat → row s2 k ≡ row s k) → models s2 m.
Proof.
  intros [_ Hm] Hd Hw Hrow. split; [done|]. intros id. rewrite <-Hm. unfold lookup_value, value.
  rewrite (Hrow 0%nat ltac:(lia) id), Hd. destruct (row s 0).[id]; [|done]. f_equal.
  apply bits_value_ext. intros i Hi. apply (Hrow (S i)). lia.
Qed.

(** What a load leaves in an index: the loaded bitmaps over the old ones,
    and one null bitmap at the end for each loaded one. *)
Lemma BitSliceIndex_Load_reads readonly s s' m :
  index_savable readonly s → models s m → _bit_depth s' = _bit_depth s →
  ∃ loaded s2,
    reads (BitSliceIndex_Load s') (index_bytes readonly s) s2 ∧ models s2 m ∧
    _options s2 = _options s' ∧ _bitmaps s2 = place 0 loaded (_bitmaps s') ∧
    length loaded = length (_bitmaps s) ∧
    ∀ rb, rb ∈ loaded → ∃ b, bitmap rb = Some b ∧ u32_bitmap b.
Proof.
  intros [Hsv Hlen] Hm Hd. destruct (load_loop_reads readonly (_bitmaps s) 0 (_bitmaps s') Hsv)
    as (loaded & Hl & Hrows & Hreads).
  exists loaded. eexists. split_and!.
  - unfold BitSliceIndex_Load, index_bytes. eapply rd_bind_reads.
    { apply file_read_uint32_reads. unfold is_u32. lia. }
    rewrite Nat2Z.id.
    apply (rd_bind_ret_reads _
      (λ bs, {| _options := _options s'; _bitmaps := bs; _bit_depth := _bit_depth s' |})), Hreads.
  - assert (∀ k, (k <= _bit_depth s)%nat → ∃ rb' b,
      place 0 loaded (_bitmaps s') !! k = Some rb' ∧ bitmap rb' = Some b ∧ b ≡ row s k) as Hk.
    { intros k Hk. destruct (proj1 Hm k Hk) as (rb & b0 & Hrb & _).
      destruct (Hrows k rb Hrb) as (rb' & b & Hrb' & Hb & Heq). exists rb', b.
      rewrite place_lookup by lia. pose proof (lookup_lt_Some _ _ _ Hrb') as Hlt. simpl.
      rewrite (proj2 (Nat.ltb_lt _ _) Hlt), Nat.sub_0_r. split_and!; [done..|].
      unfold row. by rewrite Hrb. }
    apply (models_rows s); [done|done| |].
    + intros k. simpl. rewrite Hd. intros Hk'.
      destruct (Hk k Hk') as (rb' & b & ? & ? & _). eauto.
    + intros k Hk'. destruct (Hk k Hk') as (rb' & b & Hp & Hb & Heq). unfold row at 1. simpl.
      rewrite Hp. simpl. unfold get_bitmap. by rewrite Hb.
  - done.
  - done.
  - done.
  - intros rb [j Hj]%list_elem_of_lookup.
    destruct (lookup_lt_is_Some_2 (_bitmaps s) j) as [rb0 Hrb0];
      [rewrite <-Hl; by eapply lookup_lt_Some|].
    destruct (Hrows j rb0 Hrb0) as (rb' & b & Hrb' & Hb & Heq). exists b. simplify_eq.
    split; [done|]. rewrite Forall_lookup in Hsv.
    destruct (Hsv j rb0 Hrb0) as (b0 & Hb0 & Hu & _). unfold get_bitmap in Heq.
    rewrite Hb0 in Heq. intros id. rewrite (Heq id). apply Hu.
Qed.

(** An index whose bitmaps hold 32-bit identifiers is written completely
    to a file with enough room, in the plain and in the frozen format, and
    loading the bytes into an index of the same depth gives an index that
    stores the same numbers, whatever follows in the file. *)
Theorem BitSliceIndex_Save_Load readonly s s' m :
  index_savable readonly s → models s m → _bit_depth s' = _bit_depth s →
  ∃ bytes s2, models s2 m ∧ _options s2 = _options s' ∧
    (∀ pre extra,
       BitSliceIndex_Save s readonly {| written := pre; room := length bytes + extra |}
       = Some (0, {| written := pre ++ bytes; room := extra |})) ∧
    (∀ rest, BitSliceIndex_Load s' (bytes ++ rest) = (Some s2, rest)).
Proof.
  intros Hs Hm Hd.
  destruct (BitSliceIndex_Load_reads readonly s s' m Hs Hm Hd) as (? & s2 & Hr & ? & ? & _).
  exists (index_bytes readonly s), s2. split_and!; [done..|by apply BitSliceIndex_Save_writes|done].
Qed.

Lemma wr_each_null {A} (save : A → Writer) (enc : A → list Z) l x l' :
  (∀ y, y ∈ l → writes (save y) (enc y)) → (∀ fp, save x fp = None) →
  ∀ pre extra, wr_each save (l ++ x :: l')
    {| written := pre; room := length (concat (enc <$> l)) + extra |} = None.
Proof.
  intros Hl Hx. induction l as [|y l IH]; intros pre extra; simpl.
  { unfold wr_seq. by rewrite Hx. }
  unfold wr_seq at 1. rewrite length_app, <-Nat.add_assoc, (Hl y) by left. simpl.
  apply IH. intros z Hz. apply Hl. by right.
Qed.

(** Loading a saved index into one that [Init] has already given its
    bitmaps, as a table does, appends one null bitmap per loaded one; saving
    the result dereferences the first of them. *)
Theorem BitSliceIndex_Load_Save_null readonly s m meta :
  let s0 := Init (B:=B) new_index meta in
  index_savable readonly s → models s m →
  _bit_depth s = _bit_depth s0 → length (_bitmaps s) = S (_bit_depth s) →
  ∃ s2 n, (∀ rest, BitSliceIndex_Load s0 (index_bytes readonly s ++ rest) = (Some s2, rest)) ∧
    models s2 m ∧
    ∀ pre extra, BitSliceIndex_Save s2 readonly {| written := pre; room := n + extra |} = None.
Proof.
  intros s0 Hs Hm Hd Hlen.
  destruct (BitSliceIndex_Load_reads readonly s s0 m Hs Hm (eq_sym Hd))
    as (loaded & s2 & Hr & Hm2 & _ & Hb & Hl & Hbs).
  assert (length (_bitmaps s0) = length (_bitmaps s)) as Hl0.
  { unfold s0. rewrite Init_bitmaps, length_replicate. fold s0. rewrite Hlen, Hd. lia. }
  assert (_bitmaps s2 = loaded ++ replicate (length (_bitmaps s)) null_bitmap) as Hb2.
  { rewrite Hb. apply list_eq. intros j. rewrite place_lookup by lia.
    rewrite (proj2 (Nat.leb_le 0 j)) by lia. cbn [andb Nat.add].
    destruct (Nat.ltb_spec j (length loaded)).
    - by rewrite Nat.sub_0_r, lookup_app_l.
    - by rewrite !lookup_app_r, Hl0, Hl by lia. }
  exists s2, (4 + length (rows_bytes readonly loaded))%nat. split_and!; [apply Hr|done|].
  intros pre extra. unfold BitSliceIndex_Save, wr_seq. rewrite <-Nat.add_assoc.
  pose proof (file_write_uint32_writes (Z.of_nat (length (_bitmaps s2)))) as Hw.
  unfold writes in Hw. rewrite be32_length in Hw. rewrite Hw. simpl.
  rewrite Hb2, Hlen. apply (wr_each_null _ (λ rb, bitmap_bytes (get_bitmap rb) readonly)); [|done].
  intros rb Hrb. destruct (Hbs rb Hrb) as (b & Hrbb & Hu). by eapply RoaringBitmap_Save_ok.
Qed.
End values.
