(* ===== verification/BsiWitness.v ===== *)
(** * BsiWitness: the properties of the bit-sliced index on concrete indexes

    [demo] is an index for the integers 0 to 15 (four bits) over finite sets,
    with three entries; each lemma applies one property to it. *)

From S2P Require Import Prelude Roaring Cache Common Float Schema.
From S2P Require Import Bsi BsiSpec BsiRank BsiUpdate BsiIndex BsiTheorems BsiValues.

Definition demo_meta : FieldMeta :=
  {| fm_name := str "score"; fm_index_type := INT_INDEX; fm_min := int_to_double 0;
     fm_max := int_to_double 15; fm_topk_limit := 0; fm_max_set_num := 0 |}.

Definition demo0 : BitSliceIndex (gset Z) := Init new_index demo_meta.
Definition demo : BitSliceIndex (gset Z) :=
  put_index (put_index (put_index demo0 1 5) 2 9) 3 5.
Definition demo_map : gmap Z Z := <[3 := 5]> (<[2 := 9]> (<[1 := 5]> ∅)).

Lemma demo_depth : _bit_depth demo = 4%nat.
Proof. vm_compute. reflexivity. Qed.

Lemma demo_models : models demo demo_map.
Proof.
  assert (models demo0 ∅) as H0 by apply Init_models.
  apply (put_index_models demo0 _ 1 5), (put_index_models _ _ 2 9), (put_index_models _ _ 3 5) in H0.
  exact H0.
Qed.

Lemma demo_values : map_Forall (λ _ x, x = 5 ∨ x = 9) demo_map.
Proof. repeat apply map_Forall_insert_2; [lia..|apply map_Forall_empty]. Qed.

Lemma demo_scanned : scanned demo_map (default (acquire 0) (None : option (gset Z))) = demo_map.
Proof. vm_compute. reflexivity. Qed.

Lemma DoPut_refines_witness :
  ∃ s', DoPut demo 1 12 0 = Some (s', true, 5) ∧ models s' (<[1 := 12]> demo_map).
Proof.
  destruct (DoPut_refines demo demo_map 1 12 0 demo_models) as (s' & E & Hm & _).
  - rewrite demo_depth. lia.
  - left. reflexivity.
  - exists s'. split; [exact E|exact Hm].
Defined.

Lemma DoRemove_refines_witness : models (DoRemove demo 2 9) (delete 2 demo_map).
Proof. apply (DoRemove_refines demo demo_map 2 9 demo_models). reflexivity. Defined.

Lemma index_history_refines_witness :
  ∃ s, run_ops demo0 [OpPut 7 3; OpPut 8 20; OpRemove 7] = Some s ∧ DoGet s 8 = Some 4.
Proof.
  destruct (index_history_refines demo_meta [OpPut 7 3; OpPut 8 20; OpRemove 7] eq_refl)
    as (s & E & Hget).
  exists s. split; [exact E|]. rewrite Hget. vm_compute. reflexivity.
Defined.

Lemma DoRangeGT_correct_witness : (DoRangeGT demo 5 false ∅).[2] = true.
Proof.
  apply (DoRangeGT_correct demo demo_map 5 false ∅ 2 demo_models).
  - rewrite demo_depth. lia.
  - exists 9. split; [reflexivity|]. split; [left; reflexivity|]. vm_compute. reflexivity.
Defined.

Lemma DoRangeLT_allow_eq_correct_witness : (DoRangeLT demo 5 true ∅).[1] = true.
Proof.
  apply (DoRangeLT_allow_eq_correct demo demo_map 5 ∅ 1 demo_models).
  exists 5. split; [reflexivity|]. vm_compute. discriminate.
Defined.

(** A strict scan below 5 returns an entry that is equal to 5. *)
Lemma DoRangeLT_strict_exact_witness : (DoRangeLT demo 5 false ∅).[1] = true.
Proof.
  apply (DoRangeLT_strict_exact demo demo_map 5 ∅ 1 demo_models).
  - rewrite demo_depth. lia.
  - exists 5. split; [reflexivity|]. vm_compute. left. reflexivity.
Defined.

Lemma DoRangeEQ_NEQ_correct_witness :
  (DoRangeEQ demo 9 ∅).[2] = true ∧ (DoRangeNEQ demo 9 ∅).[1] = true.
Proof.
  split.
  - destruct (DoRangeEQ_NEQ_correct demo demo_map 9 ∅ 2 demo_models) as [[_ Heq] _].
    apply Heq. vm_compute. reflexivity.
  - destruct (DoRangeEQ_NEQ_correct demo demo_map 9 ∅ 1 demo_models) as [_ [_ Hne]].
    apply Hne. exists 5. split; [reflexivity|]. vm_compute. discriminate.
Defined.

Lemma DoRangeBetween_correct_witness : (DoRangeBetween demo 4 6 ∅).[3] = true.
Proof.
  apply (DoRangeBetween_correct demo demo_map 4 6 ∅ 3 demo_models).
  exists 5. split; [reflexivity|]. vm_compute. split; discriminate.
Defined.

Lemma DoGetMax_correct_witness :
  ∃ o mx count, DoGetMax demo None = Some (o, mx, count) ∧ ∃ id, demo_map !! id = Some mx.
Proof.
  destruct (DoGetMax_correct demo demo_map None demo_models) as (o & mx & count & E & _ & _ & Hmx).
  - rewrite demo_depth. lia.
  - exists o, mx, count. split; [exact E|]. rewrite demo_scanned in Hmx.
    apply Hmx. discriminate.
Defined.

(** The least number is 5, the answer is 7. *)
Lemma DoGetMin_exact_witness :
  least_bits demo_map 3 ∧ ∃ o, DoGetMin demo None = Some (o, 7, 2).
Proof.
  destruct (DoGetMin_exact demo demo_map None demo_models) as (o & t & Ht & Hl & E).
  - rewrite demo_depth. lia.
  - discriminate.
  - rewrite demo_scanned in Hl, E.
    assert (t = 3%nat) as ->.
    { destruct Hl as [(id & x & Hx & Hlt) Hall]. specialize (Hall 1 5 eq_refl).
      rewrite demo_depth in Ht.
      pose proof (demo_values id x Hx) as Hx'. simpl in Hx'.
      clear E. destruct t as [|[|[|[|[|t]]]]]; simpl in Hlt, Hall; lia. }
    split; [exact Hl|]. exists o. exact E.
Defined.

Lemma DoRemoveMin_exact_witness :
  ∃ t, (t <= 4)%nat ∧ least_bits demo_map t ∧ DoRemoveMin demo = None.
Proof.
  destruct (DoRemoveMin_exact demo demo_map demo_models) as (t & Ht & Hl & E).
  - rewrite demo_depth. lia.
  - reflexivity.
  - discriminate.
  - exists t. rewrite demo_depth in *. split_and!; [exact Ht|exact Hl|]. vm_compute. reflexivity.
Defined.

Lemma TopK_correct_witness : (TopK demo 1 ∅).[2] = true ∧ (TopK demo 2 ∅).[1] = false.
Proof.
  split.
  - destruct (TopK_correct demo demo_map 1 ∅ 2 demo_models) as [_ Ht];
      [rewrite demo_depth; lia|lia|vm_compute; reflexivity..|].
    apply Ht. exists 9. split_and!; [reflexivity|lia|]. vm_compute. discriminate.
  - destruct (TopK_correct demo demo_map 2 ∅ 1 demo_models) as [Ht _];
      [rewrite demo_depth; lia|lia|vm_compute; reflexivity..|].
    apply not_true_iff_false. intros Hin. destruct (Ht Hin) as (x & Hx & _ & Hc).
    injection Hx as <-. revert Hc. vm_compute. intros Hc. by apply Hc.
Defined.

(** ** Integers *)

Definition range_meta : FieldMeta :=
  {| fm_name := str "temp"; fm_index_type := INT_INDEX; fm_min := int_to_double (-20);
     fm_max := int_to_double 100; fm_topk_limit := 0; fm_max_set_num := 0 |}.
Definition temps0 : BitSliceIndex (gset Z) := Init new_index range_meta.

Lemma Init_int_range_witness : int_range temps0 (-20) 100.
Proof.
  apply (Init_int_range range_meta (-20) 100);
    [reflexivity|vm_compute; reflexivity|vm_compute; reflexivity| | |lia|lia|lia];
    unfold is_i64; lia.
Defined.

Lemma temps0_range : int_range temps0 (-20) 100.
Proof. split; [vm_compute; reflexivity|unfold is_i64; lia|lia|vm_compute; reflexivity|vm_compute; lia]. Qed.

Lemma temps0_models : int_models temps0 (-20) 100 ∅.
Proof.
  split_and!; [apply temps0_range|apply map_Forall_empty|]. rewrite fmap_empty. apply Init_models.
Qed.

Lemma int_index_put_get_witness :
  ∃ s, BitSliceIntIndex_Put temps0 4 (-7) = Some s ∧ BitSliceIntIndex_Get s 4 = Some (-7).
Proof.
  destruct (int_index_put_get temps0 (-20) 100 ∅ 4 (-7) temps0_models) as (s & E & _ & Hget);
    [lia|reflexivity|].
  exists s. split; [exact E|]. by rewrite Hget.
Defined.

Definition temps : BitSliceIndex (gset Z) := put_index temps0 4 13.

Lemma temps_models : int_models temps (-20) 100 (<[4 := -7]> ∅).
Proof.
  split_and!.
  - split; [vm_compute; reflexivity|unfold is_i64; lia|lia|vm_compute; reflexivity|vm_compute; lia].
  - apply map_Forall_insert_2; [lia|apply map_Forall_empty].
  - rewrite fmap_insert, fmap_empty. apply (put_index_models temps0 ∅ 4 13), Init_models.
Qed.

Lemma int_scans_correct_witness : (BitSliceIntIndex_RangeGT temps (-8) false ∅).[4] = true.
Proof.
  destruct (int_scans_correct temps (-20) 100 (<[4 := -7]> ∅) (-8) 0 ∅ 4 temps_models)
    as [[_ Hgt] _]; [vm_compute; lia|lia|lia|].
  apply Hgt. exists (-7). split; [reflexivity|lia].
Defined.

(** ** Floats *)

(** The floats from -1 to 2. *)
Definition float_meta : FieldMeta :=
  {| fm_name := str "ctr"; fm_index_type := FLOAT_INDEX; fm_min := int_to_double (-1);
     fm_max := int_to_double 2; fm_topk_limit := 0; fm_max_set_num := 0 |}.
Definition rates0 : BitSliceIndex (gset Z) := Init new_index float_meta.
(** Identifier 6 has the number 1. *)
Definition rates : BitSliceIndex (gset Z) :=
  put_index rates0 6 (ToLocalVal_float (_options rates0) (int_to_float 1)).

Lemma rates_in v : v ∈ [int_to_float (-1); int_to_float 1; int_to_float 2] →
  float_in (int_to_float (-1)) (int_to_float 2) v.
Proof.
  rewrite !elem_of_cons, elem_of_nil. intros [->|[->|[->|[]]]];
    (split_and!; [unfold is_u32; vm_compute; intuition discriminate|reflexivity|..];
     vm_compute; discriminate).
Qed.

Lemma float_scans_correct_witness :
  (BitSliceFloatIndex_RangeGT rates (int_to_float (-1)) false ∅).[6] = true.
Proof.
  destruct (float_scans_correct rates (int_to_float (-1)) (int_to_float 2)
              (<[6 := int_to_float 1]> ∅) (int_to_float (-1)) (int_to_float 2) ∅ 6)
    as [[_ Hgt] _].
  - split; [vm_compute; reflexivity|by apply rates_in; left| |vm_compute; reflexivity].
    apply rates_in. by right; right; left.
  - vm_compute. lia.
  - apply map_Forall_insert_2; [apply rates_in; by right; left|apply map_Forall_empty].
  - rewrite fmap_insert, fmap_empty.
    pose proof (put_index_models rates0 ∅ 6 (ToLocalVal_float (_options rates0) (int_to_float 1))
                  (Init_models float_meta)) as Hm.
    replace (low_bits rates0 (ToLocalVal_float (_options rates0) (int_to_float 1)))
      with (ToLocalVal_float (_options rates) (int_to_float 1)) in Hm by (vm_compute; reflexivity).
    exact Hm.
  - apply rates_in. by left.
  - apply rates_in. by right; right; left.
  - apply Hgt. exists (int_to_float 1). split; [reflexivity|]. vm_compute. reflexivity.
Defined.

(** ** Files *)

Definition savable_check (readonly : bool) (rb : RoaringBitmap (gset Z)) : bool :=
  match bitmap rb with
  | Some b => forallb (λ id, (0 <=? id) && (id <? 2 ^ 32)) (elements b)
              && (Z.of_nat (length (bitmap_image b readonly)) <? 2 ^ 32)
  | None => false
  end.

Lemma savable_check_ok readonly rb : savable_check readonly rb = true → savable readonly rb.
Proof.
  unfold savable_check. destruct (bitmap rb) as [b|] eqn:E; [|done].
  rewrite andb_true_iff, Z.ltb_lt, forallb_forall. intros [Hu Hl]. exists b. split_and!; [done| |done].
  intros id Hid. apply bool_decide_eq_true, elem_of_elements, list_elem_of_In in Hid.
  apply Hu in Hid. unfold is_u32. rewrite andb_true_iff, Z.leb_le, Z.ltb_lt in Hid. done.
Qed.

Lemma demo_savable readonly : index_savable readonly demo.
Proof.
  split; [|vm_compute; reflexivity].
  assert (forallb (savable_check readonly) (_bitmaps demo) = true) as Hc
    by (destruct readonly; vm_compute; reflexivity).
  apply Forall_forall. intros rb Hrb. apply savable_check_ok.
  rewrite forallb_forall in Hc. by apply Hc, list_elem_of_In.
Qed.

Lemma BitSliceIndex_Save_Load_witness :
  ∃ bytes s2, models s2 demo_map ∧
    ∀ rest, BitSliceIndex_Load demo0 (bytes ++ rest) = (Some s2, rest).
Proof.
  destruct (BitSliceIndex_Save_Load false demo demo0 demo_map (demo_savable false) demo_models)
    as (bytes & s2 & Hm & _ & _ & Hl); [vm_compute; reflexivity|].
  exists bytes, s2. split; [exact Hm|exact Hl].
Defined.

Lemma BitSliceIndex_Load_Save_null_witness :
  ∃ s2, BitSliceIndex_Load demo0 (index_bytes true demo) = (Some s2, []) ∧
    ∃ n, BitSliceIndex_Save s2 true {| written := []; room := n |} = None.
Proof.
  destruct (BitSliceIndex_Load_Save_null true demo demo_map demo_meta (demo_savable true) demo_models)
    as (s2 & n & Hl & _ & Hs); [vm_compute; reflexivity..|].
  exists s2. split.
  - specialize (Hl []). rewrite app_nil_r in Hl. exact Hl.
  - exists n. specialize (Hs [] 0%nat). rewrite Nat.add_0_r in Hs. exact Hs.
Defined.
