(* ===== verification/Fields.v ===== *)
(** * Fields: the indexed columns of a table (robims_field*.cpp)

    A field is one of five classes behind the interface [RobimsField]; its
    virtual methods are functions that dispatch on the class.  The table a
    field belongs to is only asked for its identifier bitmap, which the
    functions take as an argument.  Names are lists of bytes.

    folly's F14FastMap is a finite map that iterates in an order of its own
    ([F14Ops], [F14]); the protobuf messages are written and parsed by
    generated code ([ProtoOps], [Proto]). *)

From S2P Require Import Prelude Roaring Cache Common Float Schema Bsi BsiIndex.

(** The order in which a hash map is iterated. *)
Class F14Ops := { f14_items {A} : gmap (list Z) A → list (list Z * A) }.
Class F14 `{F14Ops} : Prop := { f14_items_perm {A} (m : gmap (list Z) A) : f14_items m ≡ₚ map_to_list m }.

Class ProtoOps := {
  serialize_meta : FieldMeta → list Z;
  parse_meta : list Z → option FieldMeta;
  serialize_schema : TableSchema → list Z;
  parse_schema : list Z → option TableSchema;
}.

(** A message with a name is not encoded as the empty string. *)
Class Proto `{ProtoOps} : Prop := {
  parse_serialize_meta m : parse_meta (serialize_meta m) = Some m;
  serialize_meta_nonempty m : fm_name m ≠ [] → serialize_meta m ≠ [];
  parse_serialize_schema t : parse_schema (serialize_schema t) = Some t;
  serialize_schema_nonempty t : ts_name t ≠ [] → serialize_schema t ≠ [];
}.

(** [std::variant<std::string_view, int64_t, double> FieldArg] *)
Inductive FieldArg := ArgString (s : list Z) | ArgInt (z : Z) | ArgDouble (d : double).

Section fields.
Context `{Roaring B, !Scratch B, !F14Ops, !ProtoOps}.

Record NamedRoaringBitmap := { nb_name : list Z; nb_bitmap : RoaringBitmap B }.

Record NamedWeightRoaringBitmap := {
  nw_name : list Z;
  weight_ids : gset Z;
  id_weights : gmap Z Z;
  nw_bitmap : RoaringBitmap B;
}.

(** The state of each class. *)
Inductive field_impl :=
| BoolField (_bitmap : RoaringBitmap B)
| IntField (_bsi : BitSliceIndex B)
| FloatField (_bsi : BitSliceIndex B)
| SetField (_bitmaps : gmap (list Z) NamedRoaringBitmap)
| WeightSetField (_bitmaps : gmap (list Z) NamedWeightRoaringBitmap).

Record RobimsField := { _meta : FieldMeta; _impl : field_impl }.

(** ** RobimsFieldBuilder::Build, with the five [OnInit] *)

Definition OnInit (meta : FieldMeta) : option field_impl :=
  match fm_index_type meta with
  | MUTEX_INDEX | SET_INDEX => Some (SetField ∅)
  | BOOL_INDEX => Some (BoolField (NewCRoaringBitmap null_bitmap))
  | WEIGHT_SET_INDEX => Some (WeightSetField ∅)
  | INT_INDEX => Some (IntField (Init new_index meta))
  | FLOAT_INDEX => Some (FloatField (Init new_index meta))
  | UNKNOWN_INDEX => None
  end.

Definition RobimsFieldBuilder_Build (meta : FieldMeta) : option RobimsField :=
  impl ← OnInit meta; Some {| _meta := meta; _impl := impl |}.

(** ** Bool *)

Definition RobimsBoolField_Put (bm : RoaringBitmap B) (id val : Z) : RoaringBitmap B :=
  let bm := (RoaringBitmap_Remove bm id).2 in
  if val =? 1 then (RoaringBitmap_Put bm id).2 else bm.
Definition RobimsBoolField_Remove (bm : RoaringBitmap B) (id : Z) : RoaringBitmap B :=
  (RoaringBitmap_Remove bm id).2.

(** [out] is null until a bitmap is acquired for it. *)
Definition RobimsBoolField_Select (bm : RoaringBitmap B) (table : B) (op : FieldOperator)
    (arg : FieldArg) : Z * option B :=
  match op with
  | FIELD_OP_ALL => (0, Some (roaring_bitmap_overwrite (acquire 0) table))
  | FIELD_OP_EQ | FIELD_OP_NEQ =>
      match arg with
      | ArgInt iv =>
          let out := acquire 0 in
          let matched := roaring_bitmap_overwrite out (get_bitmap bm) in
          let others :=
            roaring_bitmap_andnot_inplace (roaring_bitmap_overwrite out table) (get_bitmap bm) in
          (0, Some (if decide (FIELD_OP_EQ = op)
                    then if iv =? 0 then others else matched
                    else if iv =? 0 then matched else others))
      | _ => (ROBIMS_ERR_INVALID_ARGS, None)
      end
  | _ => (ROBIMS_ERR_INVALID_OPERATOR, None)
  end.

(** ** Int and float *)

Definition RobimsIntField_Put (bsi : BitSliceIndex B) (id val : Z) : option (BitSliceIndex B) :=
  BitSliceIntIndex_Put bsi id val.

(** [if (0 == _bsi->Get(id, val)) _bsi->Remove(id, val)]: [Get] returns a
    bool, so the branch is taken when there is no value, and [val] is then
    the uninitialised local [garbage]. *)
Definition RobimsIntField_Remove (garbage : Z) (bsi : BitSliceIndex B) (id : Z)
    : BitSliceIndex B :=
  match BitSliceIntIndex_Get bsi id with
  | None => BitSliceIntIndex_Remove bsi id garbage
  | Some _ => bsi
  end.

Definition RobimsIntField_Select (bsi : BitSliceIndex B) (op : FieldOperator) (arg : FieldArg)
    : Z * option B :=
  match arg with
  | ArgInt iv =>
      let out := acquire 0 in
      match op with
      | FIELD_OP_EQ => (0, Some (BitSliceIntIndex_RangeEQ bsi iv out))
      | FIELD_OP_NEQ => (0, Some (BitSliceIntIndex_RangeNEQ bsi iv out))
      | FIELD_OP_LT => (0, Some (BitSliceIntIndex_RangeLT bsi iv false out))
      | FIELD_OP_LTE => (0, Some (BitSliceIntIndex_RangeLT bsi iv true out))
      | FIELD_OP_GT => (0, Some (BitSliceIntIndex_RangeGT bsi iv false out))
      | FIELD_OP_GTE => (0, Some (BitSliceIntIndex_RangeGT bsi iv true out))
      | _ => (ROBIMS_ERR_INVALID_OPERATOR, Some out)
      end
  | _ => (ROBIMS_ERR_INVALID_ARGS, None)
  end.

Definition RobimsFloatField_Put (bsi : BitSliceIndex B) (id val : Z) : option (BitSliceIndex B) :=
  '(bsi, _, _) ← BitSliceFloatIndex_Put bsi id val 0; Some bsi.

Definition RobimsFloatField_Remove (garbage : Z) (bsi : BitSliceIndex B) (id : Z)
    : BitSliceIndex B :=
  match BitSliceFloatIndex_Get bsi id with
  | None => BitSliceFloatIndex_Remove bsi id garbage
  | Some _ => bsi
  end.

Definition RobimsFloatField_Select (bsi : BitSliceIndex B) (op : FieldOperator) (arg : FieldArg)
    : Z * option B :=
  let fv := match arg with
            | ArgDouble dv => Some (double_to_float dv)
            | ArgInt iv => Some (int_to_float iv)
            | ArgString _ => None
            end in
  match fv with
  | Some fv =>
      let out := acquire 0 in
      match op with
      | FIELD_OP_EQ => (0, Some (BitSliceFloatIndex_RangeEQ bsi fv out))
      | FIELD_OP_NEQ => (0, Some (BitSliceFloatIndex_RangeNEQ bsi fv out))
      | FIELD_OP_LT => (0, Some (BitSliceFloatIndex_RangeLT bsi fv false out))
      | FIELD_OP_LTE => (0, Some (BitSliceFloatIndex_RangeLT bsi fv true out))
      | FIELD_OP_GT => (0, Some (BitSliceFloatIndex_RangeGT bsi fv false out))
      | FIELD_OP_GTE => (0, Some (BitSliceFloatIndex_RangeGT bsi fv true out))
      | _ => (ROBIMS_ERR_INVALID_OPERATOR, Some out)
      end
  | None => (ROBIMS_ERR_INVALID_ARGS, None)
  end.

(** ** Set *)

Definition RobimsSetField_Put (bitmaps : gmap (list Z) NamedRoaringBitmap) (id : Z) (val : list Z)
    : gmap (list Z) NamedRoaringBitmap :=
  let bm := match bitmaps !! val with
            | None => {| nb_name := val; nb_bitmap := NewCRoaringBitmap null_bitmap |}
            | Some found => found
            end in
  let rb := nb_bitmap bm in
  <[val := {| nb_name := nb_name bm;
              nb_bitmap := SetCRoaringBitmap rb (roaring_bitmap_add (get_bitmap rb) id) |}]> bitmaps.

(** Every bitmap of the map is updated in place. *)
Definition RobimsSetField_Remove (bitmaps : gmap (list Z) NamedRoaringBitmap) (id : Z)
    : gmap (list Z) NamedRoaringBitmap :=
  (λ bm, {| nb_name := nb_name bm; nb_bitmap := (RoaringBitmap_Remove (nb_bitmap bm) id).2 |})
    <$> bitmaps.

(** The body of [Select], the same in both set classes: [find] looks the
    bitmap of a name up. *)
Definition set_select (find : list Z → option (RoaringBitmap B)) (table : B)
    (op : FieldOperator) (arg : FieldArg) : Z * option B :=
  match op with
  | FIELD_OP_ALL => (0, Some (roaring_bitmap_overwrite (acquire 0) table))
  | FIELD_OP_EQ | FIELD_OP_NEQ =>
      match arg with
      | ArgString str =>
          match find str with
          | None => (ROBIMS_ERR_NOTFOUND, None)
          | Some matched_bitmap =>
              let out := acquire 0 in
              (0, Some (if decide (FIELD_OP_EQ = op)
                        then roaring_bitmap_overwrite out (get_bitmap matched_bitmap)
                        else roaring_bitmap_andnot_inplace (roaring_bitmap_overwrite out table)
                               (get_bitmap matched_bitmap)))
          end
      | _ => (ROBIMS_ERR_INVALID_ARGS, None)
      end
  | _ => (ROBIMS_ERR_INVALID_OPERATOR, None)
  end.

Definition RobimsSetField_Select (bitmaps : gmap (list Z) NamedRoaringBitmap) (table : B)
    (op : FieldOperator) (arg : FieldArg) : Z * option B :=
  set_select (λ str, nb_bitmap <$> bitmaps !! str) table op arg.

(** ** Weighted set *)

(** [((uint64_t)float_to_uint32(weight) << 32) + id] *)
Definition weight_id (weight id : Z) : Z :=
  u64 (u64 (Z.shiftl (float_to_uint32 weight) 32) + id).

(** [btree_set<uint64_t, greater>]: iterated in descending order. *)
Definition descending (s : gset Z) : list Z := rev (gset_array s).

Definition RobimsWeightSetField_Put (meta : FieldMeta)
    (bitmaps : gmap (list Z) NamedWeightRoaringBitmap) (id : Z) (val : list Z) (weight : Z)
    : gmap (list Z) NamedWeightRoaringBitmap :=
  let bm := match bitmaps !! val with
            | None => {| nw_name := val; weight_ids := ∅; id_weights := ∅;
                         nw_bitmap := NewCRoaringBitmap null_bitmap |}
            | Some found => found
            end in
  let ids := match id_weights bm !! id with
             | Some old => if f32_neb weight old then weight_ids bm ∖ {[weight_id old id]}
                           else weight_ids bm
             | None => weight_ids bm
             end in
  let weights := <[id := weight]> (id_weights bm) in
  let ids := {[weight_id weight id]} ∪ ids in
  let rb := (RoaringBitmap_Put (nw_bitmap bm) id).2 in
  let '(weights, ids) :=
    if (0 <? fm_topk_limit meta) && (fm_topk_limit meta <? Z.of_nat (size weights)) then
      (* [*weight_ids.rbegin()]; the set is not empty *)
      let min_weight_id := default 0 (last (descending ids)) in
      let remove_id := Z.land min_weight_id 0xFFFFFFFF in
      (delete remove_id weights, ids ∖ {[min_weight_id]})
    else (weights, ids) in
  <[val := {| nw_name := nw_name bm; weight_ids := ids; id_weights := weights;
              nw_bitmap := rb |}]> bitmaps.

(** Stops with -1 at the first name that does not have the identifier. *)
Fixpoint weight_remove_loop (items : list (list Z * NamedWeightRoaringBitmap)) (id : Z)
    (bitmaps : gmap (list Z) NamedWeightRoaringBitmap)
    : Z * gmap (list Z) NamedWeightRoaringBitmap :=
  match items with
  | [] => (0, bitmaps)
  | (name, bm) :: items =>
      match id_weights bm !! id with
      | None => (-1, bitmaps)
      | Some weight =>
          weight_remove_loop items id
            (<[name := {| nw_name := nw_name bm;
                          weight_ids := weight_ids bm ∖ {[weight_id weight id]};
                          id_weights := delete id (id_weights bm);
                          nw_bitmap := (RoaringBitmap_Remove (nw_bitmap bm) id).2 |}]> bitmaps)
      end
  end.

Definition RobimsWeightSetField_Remove (bitmaps : gmap (list Z) NamedWeightRoaringBitmap) (id : Z)
    : Z * gmap (list Z) NamedWeightRoaringBitmap :=
  weight_remove_loop (f14_items bitmaps) id bitmaps.

Definition RobimsWeightSetField_Select (bitmaps : gmap (list Z) NamedWeightRoaringBitmap)
    (table : B) (op : FieldOperator) (arg : FieldArg) : Z * option B :=
  set_select (λ str, nw_bitmap <$> bitmaps !! str) table op arg.

(** ** The virtual methods *)

(** The overloads of [Put]. *)
Inductive PutArg :=
| PutString (val : list Z)
| PutInt (val : Z)
| PutFloat (val : Z)
| PutNothing
| PutWeighted (val : list Z) (weight : Z).

(** Return code and new state; a class that does not override the overload
    has the one of [RobimsField]. *)
Definition RobimsField_Put (f : RobimsField) (id : Z) (arg : PutArg) : option (Z * RobimsField) :=
  let ret impl := Some (0, {| _meta := _meta f; _impl := impl |}) in
  match _impl f, arg with
  | BoolField bm, PutInt val => ret (BoolField (RobimsBoolField_Put bm id val))
  | IntField bsi, PutInt val => bsi ← RobimsIntField_Put bsi id val; ret (IntField bsi)
  | FloatField bsi, PutFloat val => bsi ← RobimsFloatField_Put bsi id val; ret (FloatField bsi)
  | SetField bms, PutString val => ret (SetField (RobimsSetField_Put bms id val))
  | WeightSetField bms, PutWeighted val weight =>
      ret (WeightSetField (RobimsWeightSetField_Put (_meta f) bms id val weight))
  | _, _ => Some (ROBIMS_ERR_UNIMPLEMENTED, f)
  end.

Definition RobimsField_Remove (garbage : Z) (f : RobimsField) (id : Z) : Z * RobimsField :=
  let ret rc impl := (rc, {| _meta := _meta f; _impl := impl |}) in
  match _impl f with
  | BoolField bm => ret 0 (BoolField (RobimsBoolField_Remove bm id))
  | IntField bsi => ret 0 (IntField (RobimsIntField_Remove garbage bsi id))
  | FloatField bsi => ret 0 (FloatField (RobimsFloatField_Remove garbage bsi id))
  | SetField bms => ret 0 (SetField (RobimsSetField_Remove bms id))
  | WeightSetField bms =>
      let '(rc, bms) := RobimsWeightSetField_Remove bms id in ret rc (WeightSetField bms)
  end.

Definition RobimsField_Select (f : RobimsField) (table : B) (op : FieldOperator) (arg : FieldArg)
    : Z * option B :=
  match _impl f with
  | BoolField bm => RobimsBoolField_Select bm table op arg
  | IntField bsi => RobimsIntField_Select bsi op arg
  | FloatField bsi => RobimsFloatField_Select bsi op arg
  | SetField bms => RobimsSetField_Select bms table op arg
  | WeightSetField bms => RobimsWeightSetField_Select bms table op arg
  end.

(** ** Persistence *)

Definition RobimsSetField_DoSave (bitmaps : gmap (list Z) NamedRoaringBitmap) (readonly : bool)
    : Writer :=
  file_write_uint32 (Z.of_nat (size bitmaps)) ;;ʷ
  wr_each (λ p : list Z * NamedRoaringBitmap,
    file_write_string (nb_name p.2) ;;ʷ RoaringBitmap_Save (nb_bitmap p.2) readonly)
    (f14_items bitmaps).

(** One turn of the loading loop, and the insertions of all turns. *)
Definition load_named : Reader NamedRoaringBitmap :=
  name ←ʳ file_read_string; rb ←ʳ RoaringBitmap_Load;
  rd_ret {| nb_name := name; nb_bitmap := rb |}.

Definition RobimsSetField_DoLoad (bitmaps : gmap (list Z) NamedRoaringBitmap)
    : Reader (gmap (list Z) NamedRoaringBitmap) :=
  n ←ʳ file_read_uint32;
  l ←ʳ rd_times (Z.to_nat n) load_named;
  rd_ret (insert_all nb_name bitmaps l).

(** An array of 64-bit integers in memory order; nothing when it is empty. *)
Definition wr_uint64s (l : list Z) : Writer :=
  if (0 <? length l)%nat then wr_block (concat (le_bytes 8 <$> l)) else wr_ok.
Fixpoint split_uint64s (n : nat) (bytes : list Z) : list Z :=
  match n with
  | O => []
  | S n => le_value (take 8 bytes) :: split_uint64s n (drop 8 bytes)
  end.
Definition rd_uint64s (n : nat) : Reader (list Z) :=
  if (0 <? n)%nat then (bytes ←ʳ fread (n * 8); rd_ret (split_uint64s n bytes)) else rd_ret [].

Definition RobimsWeightSetField_DoSave (bitmaps : gmap (list Z) NamedWeightRoaringBitmap)
    (readonly : bool) : Writer :=
  file_write_uint32 (Z.of_nat (size bitmaps)) ;;ʷ
  wr_each (λ p : list Z * NamedWeightRoaringBitmap,
    let tmp := descending (weight_ids p.2) in
    file_write_string (nw_name p.2) ;;ʷ
    file_write_uint32 (Z.of_nat (length tmp)) ;;ʷ
    wr_uint64s tmp ;;ʷ
    RoaringBitmap_Save (nw_bitmap p.2) readonly) (f14_items bitmaps).

Definition load_weight (weights : gmap Z Z) (v : Z) : gmap Z Z :=
  let id := Z.land v 0xFFFFFFFF in
  let weight := Z.land (Z.shiftr v 32) 0xFFFFFFFF in
  <[id := uint32_to_float weight]> weights.

Definition load_named_weight : Reader NamedWeightRoaringBitmap :=
  name ←ʳ file_read_string;
  count ←ʳ file_read_uint32;
  tmp ←ʳ rd_uint64s (Z.to_nat count);
  rb ←ʳ RoaringBitmap_Load;
  rd_ret {| nw_name := name; weight_ids := list_to_set tmp;
            id_weights := foldl load_weight ∅ tmp; nw_bitmap := rb |}.

Definition RobimsWeightSetField_DoLoad (bitmaps : gmap (list Z) NamedWeightRoaringBitmap)
    : Reader (gmap (list Z) NamedWeightRoaringBitmap) :=
  n ←ʳ file_read_uint32;
  l ←ʳ rd_times (Z.to_nat n) load_named_weight;
  rd_ret (insert_all nw_name bitmaps l).

Definition RobimsField_DoSave (f : RobimsField) (readonly : bool) : Writer :=
  match _impl f with
  | BoolField bm => RoaringBitmap_Save bm readonly
  | IntField bsi | FloatField bsi => BitSliceIndex_Save bsi readonly
  | SetField bms => RobimsSetField_DoSave bms readonly
  | WeightSetField bms => RobimsWeightSetField_DoSave bms readonly
  end.

Definition RobimsField_DoLoad (impl : field_impl) : Reader field_impl :=
  match impl with
  | BoolField _ => bm ←ʳ RoaringBitmap_Load; rd_ret (BoolField bm)
  | IntField bsi => bsi ←ʳ BitSliceIndex_Load bsi; rd_ret (IntField bsi)
  | FloatField bsi => bsi ←ʳ BitSliceIndex_Load bsi; rd_ret (FloatField bsi)
  | SetField bms => bms ←ʳ RobimsSetField_DoLoad bms; rd_ret (SetField bms)
  | WeightSetField bms => bms ←ʳ RobimsWeightSetField_DoLoad bms; rd_ret (WeightSetField bms)
  end.

Definition RobimsField_Save (f : RobimsField) (readonly : bool) : Writer :=
  file_write_string (serialize_meta (_meta f)) ;;ʷ RobimsField_DoSave f readonly.

Definition RobimsField_Load (f : RobimsField) : Reader RobimsField :=
  meta_bin ←ʳ file_read_string;
  λ fp, match parse_meta meta_bin with
        | None => (None, fp)
        | Some meta =>
            (impl ←ʳ RobimsField_DoLoad (_impl f);
             rd_ret {| _meta := meta; _impl := impl |}) fp
        end.
End fields.

Arguments NamedRoaringBitmap : clear implicits.
Arguments NamedWeightRoaringBitmap : clear implicits.
Arguments field_impl : clear implicits.
Arguments RobimsField : clear implicits.
