(* ===== verification/FieldsSpec.v ===== *)
(** * FieldsSpec: what the fields promise

    A set field is a map from names to sets of identifiers, a bool field a set,
    a weighted set field a map from names to weighted identifiers; the
    operations of Fields.v are compared with these. *)

From S2P Require Import Prelude Roaring Cache Common Float Schema Bsi BsiSpec BsiUpdate.
From S2P Require Import BsiIndex BsiTheorems BsiValues BsiWitness Fields.

Section spec.
Context `{Roaring B, !Scratch B, !F14Ops, !F14}.
Implicit Types (id : Z) (name : list Z) (table : B).

(** ** Set *)

(** [bm] is the bitmap of the set [S] under the name [name]. *)
Definition named_models name (bm : NamedRoaringBitmap B) (S : gset Z) : Prop :=
  nb_name bm = name ∧ ∃ b, bitmap (nb_bitmap bm) = Some b ∧ ∀ id, b.[id] = bool_decide (id ∈ S).

Definition set_models (bms : gmap (list Z) (NamedRoaringBitmap B)) (abs : gmap (list Z) (gset Z))
    : Prop := ∀ name, option_Forall2 (named_models name) (bms !! name) (abs !! name).

Inductive set_op := SetPut id name | SetRemove id.

Definition run_set_op (bms : gmap (list Z) (NamedRoaringBitmap B)) (op : set_op) :=
  match op with
  | SetPut id name => RobimsSetField_Put bms id name
  | SetRemove id => RobimsSetField_Remove bms id
  end.
Definition abs_set_op (abs : gmap (list Z) (gset Z)) (op : set_op) : gmap (list Z) (gset Z) :=
  match op with
  | SetPut id name => <[name := {[id]} ∪ default ∅ (abs !! name)]> abs
  | SetRemove id => (λ S, S ∖ {[id]}) <$> abs
  end.

Lemma set_put_models bms abs id name :
  set_models bms abs → set_models (RobimsSetField_Put bms id name) (abs_set_op abs (SetPut id name)).
Proof.
  intros Hm n. unfold RobimsSetField_Put. simpl. destruct (decide (name = n)) as [->|Hne].
  - rewrite !lookup_insert_eq. constructor. specialize (Hm n).
    destruct Hm as [bm S [Hn (b & Hb & Hin)]|]; simpl; (split; [done|]).
    + eexists. split; [done|]. intros x. unfold get_bitmap. rewrite Hb. simpl.
      autorewrite with bitmap. rewrite Hin. rewrite (bool_decide_ext (x ∈ {[id]} ∪ S) (id = x ∨ x ∈ S))
        by set_solver. rewrite bool_decide_or. f_equal. case_bool_decide; by apply Z.eqb_eq || apply Z.eqb_neq.
    + eexists. split; [done|]. intros x. autorewrite with bitmap.
      rewrite orb_false_r, (bool_decide_ext (x ∈ {[id]} ∪ ∅) (id = x)) by set_solver.
      case_bool_decide; by apply Z.eqb_eq || apply Z.eqb_neq.
  - rewrite !lookup_insert_ne by done. apply Hm.
Qed.

Lemma remove_bitmap (rb : RoaringBitmap B) b id :
  bitmap rb = Some b →
  ∃ b', bitmap (RoaringBitmap_Remove rb id).2 = Some b' ∧ ∀ x, b'.[x] = negb (id =? x) && b.[x].
Proof.
  intros Hb. unfold RoaringBitmap_Remove, get_bitmap. rewrite Hb. simpl.
  rewrite remove_checked_spec. simpl. eexists. split; [done|]. intros x. by autorewrite with bitmap.
Qed.

Lemma set_remove_models bms abs id :
  set_models bms abs → set_models (RobimsSetField_Remove bms id) (abs_set_op abs (SetRemove id)).
Proof.
  intros Hm n. unfold RobimsSetField_Remove. simpl. rewrite !lookup_fmap. specialize (Hm n).
  destruct Hm as [bm S [Hn (b & Hb & Hin)]|]; simpl; [|constructor]. constructor. split; [done|].
  destruct (remove_bitmap (nb_bitmap bm) b id Hb) as (b' & ? & Hb'). exists b'. split; [done|].
  intros x. rewrite Hb', Hin. destruct (Z.eqb_spec id x) as [->|]; simpl.
  - symmetry. apply bool_decide_eq_false. set_solver.
  - apply bool_decide_ext. set_solver.
Qed.

Lemma set_history_models ops : set_models (foldl run_set_op ∅ ops) (foldl abs_set_op ∅ ops).
Proof.
  assert (set_models ∅ ∅) as Hempty by (intros n; rewrite !lookup_empty; constructor).
  revert Hempty. generalize (∅ : gmap (list Z) (NamedRoaringBitmap B)), (∅ : gmap (list Z) (gset Z)).
  induction ops as [|op ops IH]; intros m0 a0 Hempty; simpl; [done|]. apply IH.
  destruct op; [by apply set_put_models|by apply set_remove_models].
Qed.

(** C5. Whatever puts and removals a set field went through, a query for a
    name returns exactly the identifiers it should, its negation the other
    identifiers of the table, and a name that was never put is reported as
    not found. *)
Theorem set_field_select ops table name :
  let bms := foldl run_set_op ∅ ops in
  let abs := foldl abs_set_op ∅ ops in
  match abs !! name with
  | None =>
      RobimsSetField_Select bms table FIELD_OP_EQ (ArgString name) = (ROBIMS_ERR_NOTFOUND, None) ∧
      RobimsSetField_Select bms table FIELD_OP_NEQ (ArgString name) = (ROBIMS_ERR_NOTFOUND, None)
  | Some ids => ∃ eq neq,
      RobimsSetField_Select bms table FIELD_OP_EQ (ArgString name) = (0, Some eq) ∧
      RobimsSetField_Select bms table FIELD_OP_NEQ (ArgString name) = (0, Some neq) ∧
      ∀ id, eq.[id] = bool_decide (id ∈ ids) ∧ neq.[id] = table.[id] && negb (bool_decide (id ∈ ids))
  end.
Proof.
  intros bms abs. pose proof (set_history_models ops) as Hm. fold bms abs in Hm.
  unfold RobimsSetField_Select, set_select. specialize (Hm name).
  destruct Hm as [bm S [Hn (b & Hb & Hin)]|]; simpl; [|done].
  eexists _, _. split_and!; [done..|]. intros id. unfold get_bitmap. rewrite Hb. simpl.
  autorewrite with bitmap. by rewrite Hin.
Qed.

(** ** Bool *)

(** A bool field holds the identifiers last put with the value 1: put
    changes one identifier, and a selection compares with the table's
    identifiers when it asks for the value 0. *)
Theorem bool_field_select bm b table id val x :
  bitmap bm = Some b →
  let bm' := RobimsBoolField_Put bm id val in
  let on := if x =? id then val =? 1 else b.[x] in
  ∃ sel, (∀ op iv, (op = FIELD_OP_EQ ∨ op = FIELD_OP_NEQ) →
            RobimsBoolField_Select bm' table op (ArgInt iv) = (0, Some (sel op iv))) ∧
    (∀ iv, (sel FIELD_OP_EQ iv).[x] = if iv =? 0 then table.[x] && negb on else on) ∧
    (∀ iv, (sel FIELD_OP_NEQ iv).[x] = if iv =? 0 then on else table.[x] && negb on).
Proof.
  intros Hb bm' on.
  assert (∀ y, (get_bitmap bm').[y] = if y =? id then val =? 1 else b.[y]) as Hon.
  { intros y. unfold bm', RobimsBoolField_Put, RoaringBitmap_Remove, RoaringBitmap_Put.
    assert (get_bitmap bm = b) as -> by (unfold get_bitmap; by rewrite Hb).
    rewrite remove_checked_spec. simpl. rewrite (Z.eqb_sym y id). destruct (val =? 1); simpl.
    - rewrite add_checked_spec. simpl. unfold get_bitmap. simpl. autorewrite with bitmap.
      by destruct (id =? y).
    - unfold get_bitmap. simpl. autorewrite with bitmap. by destruct (id =? y). }
  exists (λ op iv, default table (RobimsBoolField_Select bm' table op (ArgInt iv)).2).
  split_and!.
  - by intros op iv [-> | ->].
  - intros iv. simpl. destruct (iv =? 0); autorewrite with bitmap; by rewrite Hon.
  - intros iv. simpl. destruct (iv =? 0); autorewrite with bitmap; by rewrite Hon.
Qed.

(** ** Int *)

Lemma int_remove_keeps garbage bsi m id :
  models bsi m → (_bit_depth bsi <= 64)%nat →
  models (RobimsIntField_Remove garbage bsi id) m.
Proof.
  intros Hm Hd. unfold RobimsIntField_Remove, BitSliceIntIndex_Get.
  rewrite (DoGet_models bsi m) by done. destruct (m !! id) as [x|] eqn:Hx; simpl; [done|].
  pose proof (removed_models _ _ _ _ _ Hm
    (DoRemove_any bsi id (ToLocalVal_int (_options bsi) garbage) (proj1 Hm))) as Hr.
  by rewrite delete_id in Hr.
Qed.

(** [RobimsIntField::Remove] never removes a value: the test on the
    result of [Get] is inverted, so every stored number stays, whatever the
    uninitialised local holds. *)
Theorem int_field_remove_keeps garbage bsi m id :
  models bsi m → (_bit_depth bsi <= 64)%nat →
  models (RobimsIntField_Remove garbage bsi id) m.
Proof. apply int_remove_keeps. Qed.

(** ** Weighted set *)

Lemma weight_id_arith w id :
  is_u32 w → is_u32 id → weight_id w id = float_to_uint32 w * 2 ^ 32 + id.
Proof.
  intros Hw Hid. pose proof (float_to_uint32_range w Hw) as Hk. unfold weight_id, is_u32 in *.
  rewrite Z.shiftl_mul_pow2 by lia. rewrite (u64_id (_ * _)) by (unfold is_u64; lia).
  apply u64_id. unfold is_u64. lia.
Qed.

(** The identifier and the key of the weight are recovered from the number. *)
Lemma weight_id_split w id :
  is_u32 w → is_u32 id →
  Z.land (weight_id w id) 0xFFFFFFFF = id ∧
  Z.land (Z.shiftr (weight_id w id) 32) 0xFFFFFFFF = float_to_uint32 w.
Proof.
  intros Hw Hid. pose proof (float_to_uint32_range w Hw) as Hk. rewrite weight_id_arith by done.
  change 0xFFFFFFFF with (2 ^ 32 - 1). rewrite !land_low_bits, Z.shiftr_div_pow2 by lia.
  unfold is_u32 in *. split.
  - by rewrite Z.add_comm, Z_mod_plus_full, Z.mod_small by lia.
  - by rewrite Z.div_add_l, Z.div_small, Z.add_0_r, Z.mod_small by lia.
Qed.

Lemma weight_id_inj w1 id1 w2 id2 :
  is_u32 w1 → is_u32 id1 → is_u32 w2 → is_u32 id2 →
  weight_id w1 id1 = weight_id w2 id2 → id1 = id2 ∧ float_to_uint32 w1 = float_to_uint32 w2.
Proof.
  intros Hw1 Hi1 Hw2 Hi2 E. pose proof (weight_id_split w1 id1 Hw1 Hi1) as [Ha Hb].
  pose proof (weight_id_split w2 id2 Hw2 Hi2) as [Hc Hd]. rewrite E in Ha, Hb.
  split; congruence.
Qed.

(** The two indexes of a name agree, and its bitmap has all its identifiers. *)
Record weight_wf (bm : NamedWeightRoaringBitmap B) : Prop := {
  ww_ids k : k ∈ weight_ids bm ↔ ∃ id w, id_weights bm !! id = Some w ∧ k = weight_id w id;
  ww_u32 id w : id_weights bm !! id = Some w → is_u32 id ∧ is_u32 w;
  ww_bitmap : ∃ b, bitmap (nw_bitmap bm) = Some b ∧
              ∀ id w, id_weights bm !! id = Some w → b.[id] = true;
}.

Definition new_weight_set name : NamedWeightRoaringBitmap B :=
  {| nw_name := name; weight_ids := ∅; id_weights := ∅; nw_bitmap := NewCRoaringBitmap null_bitmap |}.

Lemma new_weight_set_wf name : weight_wf (new_weight_set name).
Proof.
  split; simpl.
  - intros k. split; [set_solver|]. intros (id & w & Hx & _). by rewrite lookup_empty in Hx.
  - intros id w. by rewrite lookup_empty.
  - eexists. split; [done|]. intros id w. by rewrite lookup_empty.
Qed.

(** The key set after a weight was replaced. *)
Lemma replaced_ids bm id w :
  weight_wf bm → is_u32 id → is_u32 w →
  let ids := match id_weights bm !! id with
             | Some old => if f32_neb w old then weight_ids bm ∖ {[weight_id old id]}
                           else weight_ids bm
             | None => weight_ids bm
             end in
  ∀ k, k ∈ {[weight_id w id]} ∪ ids ↔
       ∃ x wx, <[id := w]> (id_weights bm) !! x = Some wx ∧ k = weight_id wx x.
Proof.
  intros [Hids Hu _] Hid Hw ids k. rewrite elem_of_union, elem_of_singleton. split.
  - intros [->|Hk]; [exists id, w; by rewrite lookup_insert_eq|].
    assert (k ∈ weight_ids bm ∧ (∀ old, id_weights bm !! id = Some old →
              k = weight_id old id → weight_id old id = weight_id w id)) as [Hk' Hold].
    { unfold ids in Hk. destruct (id_weights bm !! id) as [old|] eqn:E; [|done].
      destruct (Hu _ _ E) as [_ Hold]. destruct (f32_neb w old) eqn:En.
      - split; [set_solver|]. intros ? [= <-]. set_solver.
      - split; [done|]. intros ? [= <-] _. unfold f32_neb in En.
        apply orb_false_iff in En as [[Hn1 Hn2]%orb_false_iff Hs].
        apply negb_false_iff, Z.eqb_eq in Hs.
        destruct (float_key_le w old Hw Hold Hn1 Hn2) as [Ha _].
        destruct (float_key_le old w Hold Hw Hn2 Hn1) as [Hb _].
        rewrite !weight_id_arith by done. lia. }
    apply Hids in Hk' as (x & wx & Hx & ->). destruct (decide (x = id)) as [->|Hne].
    + exists id, w. rewrite lookup_insert_eq. split; [done|]. by apply Hold.
    + exists x, wx. by rewrite lookup_insert_ne.
  - intros (x & wx & Hx & ->). destruct (decide (x = id)) as [->|Hne].
    { rewrite lookup_insert_eq in Hx. injection Hx as <-. by left. }
    rewrite lookup_insert_ne in Hx by done. right.
    assert (weight_id wx x ∈ weight_ids bm) as Hin by (apply Hids; eauto).
    unfold ids. destruct (id_weights bm !! id) as [old|] eqn:E; [|done].
    destruct (f32_neb w old); [|done]. apply elem_of_difference. split; [done|].
    rewrite elem_of_singleton. intros Heq. destruct (Hu _ _ Hx), (Hu _ _ E).
    apply weight_id_inj in Heq as [? _]; done.
Qed.

(** [*weight_ids.rbegin()] is the least number. *)
Lemma descending_last (ids : gset Z) k :
  k ∈ ids → ∃ k0, last (descending ids) = Some k0 ∧ k0 ∈ ids ∧ ∀ k', k' ∈ ids → k0 <= k'.
Proof.
  intros Hk. unfold descending. pose proof (gset_array_ascending ids) as Ha.
  pose proof (gset_array_elem ids) as He. destruct (gset_array ids) as [|k0 l].
  { apply He in Hk. by apply elem_of_nil in Hk. }
  exists k0. simpl. rewrite last_snoc. split_and!; [done|apply He; left|].
  intros k' Hk'. apply He, elem_of_cons in Hk' as [->|Hk']; [lia|].
  inversion Ha as [|?? _ Hf]. rewrite Forall_forall in Hf. specialize (Hf k' Hk'). lia.
Qed.

Lemma put_bitmap (rb : RoaringBitmap B) b id :
  bitmap rb = Some b →
  ∃ b', bitmap (RoaringBitmap_Put rb id).2 = Some b' ∧ ∀ x, b'.[x] = (id =? x) || b.[x].
Proof.
  intros Hb. unfold RoaringBitmap_Put, get_bitmap. rewrite Hb. simpl.
  rewrite add_checked_spec. simpl. eexists. split; [done|]. intros x. by autorewrite with bitmap.
Qed.

(** Dropping the least key keeps the two indexes in agreement. *)
Lemma evicted_ids (weights : gmap Z Z) (ids : gset Z) e we :
  (∀ k, k ∈ ids ↔ ∃ x wx, weights !! x = Some wx ∧ k = weight_id wx x) →
  (∀ x wx, weights !! x = Some wx → is_u32 x ∧ is_u32 wx) →
  weights !! e = Some we →
  ∀ k, k ∈ ids ∖ {[weight_id we e]} ↔
       ∃ x wx, delete e weights !! x = Some wx ∧ k = weight_id wx x.
Proof.
  intros Hids Hu He k. rewrite elem_of_difference, elem_of_singleton, Hids. split.
  - intros [(x & wx & Hx & ->) Hne]. exists x, wx. split; [|done].
    rewrite lookup_delete_ne; [done|]. intros ->. rewrite He in Hx. by injection Hx as ->.
  - intros (x & wx & [Hne Hx]%lookup_delete_Some & ->). split; [eauto|]. intros Heq.
    destruct (Hu _ _ Hx), (Hu _ _ He). apply weight_id_inj in Heq as [? _]; done.
Qed.

(** Putting a weighted identifier keeps the two indexes of the name in
    agreement; when the name then has more identifiers than the limit, the
    one with the least weight (the least identifier among equals) is dropped
    from both, so the limit holds again.  The name's bitmap, which queries
    read, only gains the identifier: the dropped one stays in it. *)
Theorem weight_put_limit meta bms id name w :
  let bm := default (new_weight_set name) (bms !! name) in
  let limit := fm_topk_limit meta in
  let weights := <[id := w]> (id_weights bm) in
  weight_wf bm → is_u32 id → is_u32 w →
  ∃ bm' b b', RobimsWeightSetField_Put meta bms id name w = <[name := bm']> bms ∧
    weight_wf bm' ∧ bitmap (nw_bitmap bm) = Some b ∧ bitmap (nw_bitmap bm') = Some b' ∧
    (∀ x, b'.[x] = (id =? x) || b.[x]) ∧
    if (0 <? limit) && (limit <? Z.of_nat (size weights)) then
      ∃ e we, weights !! e = Some we ∧ id_weights bm' = delete e weights ∧ b'.[e] = true ∧
        ∀ x wx, weights !! x = Some wx →
          float_to_uint32 we < float_to_uint32 wx
          ∨ (float_to_uint32 we = float_to_uint32 wx ∧ e <= x)
    else id_weights bm' = weights.
Proof.
  intros bm limit weights Hwf Hid Hw.
  pose proof (replaced_ids bm id w Hwf Hid Hw) as Hids. cbv zeta in Hids.
  destruct (ww_bitmap bm Hwf) as (b & Hb & Hin).
  destruct (put_bitmap (nw_bitmap bm) b id Hb) as (b' & Hb' & Hor).
  assert (∀ x wx, weights !! x = Some wx → is_u32 x ∧ is_u32 wx) as Hu.
  { intros x wx [[<- <-]|[_ Hx]]%lookup_insert_Some; [done|]. by eapply ww_u32. }
  assert (∀ x wx, weights !! x = Some wx → b'.[x] = true) as Hin'.
  { intros x wx. rewrite Hor. intros [[<- _]|[_ Hx]]%lookup_insert_Some;
      [by rewrite Z.eqb_refl|]. by rewrite (Hin x wx Hx), orb_true_r. }
  unfold RobimsWeightSetField_Put.
  change (match bms !! name with Some found => found | None => _ end) with bm.
  set (ids := match id_weights bm !! id with Some _ => _ | None => _ end) in *. cbv zeta.
  fold weights limit. destruct ((0 <? limit) && (limit <? Z.of_nat (size weights))) eqn:El.
  - destruct (descending_last ({[weight_id w id]} ∪ ids) (weight_id w id))
      as (k0 & Hlast & Hk0 & Hmin); [set_solver|].
    rewrite Hlast. simpl. destruct (proj1 (Hids k0) Hk0) as (e & we & He & ->).
    destruct (Hu _ _ He) as [Hue Huw]. destruct (weight_id_split we e Huw Hue) as [-> _].
    eexists _, b, b'. split_and!; [done| |done|done|done|].
    + split; simpl.
      * by apply evicted_ids.
      * intros x wx [_ Hx]%lookup_delete_Some. by apply Hu.
      * exists b'. split; [done|]. intros x wx [_ Hx]%lookup_delete_Some. by eapply Hin'.
    + exists e, we. split_and!; [done|done|by eapply Hin'|]. intros x wx Hx.
      assert (weight_id we e <= weight_id wx x) as Hle by (apply Hmin, Hids; eauto).
      destruct (Hu _ _ Hx). rewrite !weight_id_arith in Hle by done. unfold is_u32 in *. lia.
  - eexists _, b, b'. split_and!; [done| |done..]. split; simpl; [done|done|].
    exists b'. split; [done|]. done.
Qed.

Lemma weight_remove_loop_spec (items : list (list Z * NamedWeightRoaringBitmap B)) id m :
  NoDup items.*1 → (∀ name bm, (name, bm) ∈ items → m !! name = Some bm) →
  let '(rc, m') := weight_remove_loop items id m in
  (rc = 0 ↔ ∀ name bm, (name, bm) ∈ items → is_Some (id_weights bm !! id)) ∧
  (rc ≠ 0 → rc = -1) ∧
  (rc = 0 → ∀ name, id_weights <$> m' !! name
     = if decide (name ∈ items.*1) then delete id ∘ id_weights <$> m !! name
       else id_weights <$> m !! name).
Proof.
  revert m. induction items as [|[n bm] items IH]; intros m Hd Hm; cbn [weight_remove_loop].
  { split_and!; [|done|]. { split; [|done]. intros _ name bm Hbm. by apply elem_of_nil in Hbm. }
    intros _ name. by rewrite decide_False by apply not_elem_of_nil. }
  apply NoDup_cons in Hd as [Hn Hd].
  destruct (id_weights bm !! id) as [w|] eqn:Ew; last first.
  { split_and!; [|done|done]. split; [done|]. intros Hall.
    destruct (Hall n bm) as [? Hs]; [left|]. by rewrite Ew in Hs. }
  match goal with |- context [weight_remove_loop items id ?m'] => set (m1 := m') end.
  specialize (IH m1 Hd). destruct (weight_remove_loop items id m1) as [rc m'].
  destruct IH as (Hrc & Hne & Hres).
  { intros name bm' Hbm'. unfold m1. rewrite lookup_insert_ne; [apply Hm; by right|].
    intros ->. apply Hn. by apply (list_elem_of_fmap_2' fst _ (name, bm')). }
  split_and!; [|done|].
  - rewrite Hrc. split; intros Hall name bm'.
    + rewrite elem_of_cons. intros [[= -> ->]|?]; [done|by eapply Hall].
    + intros. apply (Hall name). by right.
  - intros E name. rewrite (Hres E). unfold m1. destruct (decide (name = n)) as [->|Hnn].
    + rewrite decide_False by done. rewrite decide_True by left.
      rewrite lookup_insert_eq, (Hm n bm) by left. done.
    + rewrite lookup_insert_ne by done. apply decide_ext. rewrite fmap_cons, elem_of_cons. simpl. tauto.
Qed.

(** Removing an identifier from a weighted set field reports success
    exactly when every name has it, whatever order the names are visited in;
    then it is removed from every name. *)
Theorem weight_remove_result bms id :
  let '(rc, bms') := RobimsWeightSetField_Remove bms id in
  (rc = 0 ↔ ∀ name bm, bms !! name = Some bm → is_Some (id_weights bm !! id)) ∧
  (rc ≠ 0 → rc = -1) ∧
  (rc = 0 → ∀ name, id_weights <$> bms' !! name = delete id ∘ id_weights <$> bms !! name).
Proof.
  unfold RobimsWeightSetField_Remove. pose proof (f14_items_perm bms) as Hp.
  assert (NoDup (f14_items bms).*1) as Hnd by (rewrite Hp; apply NoDup_fst_map_to_list).
  assert (∀ name bm, (name, bm) ∈ f14_items bms ↔ bms !! name = Some bm) as Hin
    by (intros; by rewrite Hp, elem_of_map_to_list).
  pose proof (weight_remove_loop_spec (f14_items bms) id bms Hnd ltac:(intros; by apply Hin)) as Hloop.
  destruct (weight_remove_loop _ _ _) as [rc bms']. destruct Hloop as (Hrc & Hne & Hres).
  split_and!; [|done|].
  - rewrite Hrc. by setoid_rewrite Hin.
  - intros E name. rewrite (Hres E). destruct (decide _) as [|Hno]; [done|].
    destruct (bms !! name) as [bm|] eqn:Eb; [|done]. destruct Hno.
    apply (list_elem_of_fmap_2' fst _ (name, bm)); [|done]. by apply Hin.
Qed.
End spec.
