(* ===== verification/FieldsPersist.v ===== *)
(** * FieldsPersist: a field written to a file is read back *)

From S2P Require Import Prelude Roaring Cache Common Float Schema Bsi BsiSpec BsiUpdate.
From S2P Require Import BsiIndex BsiTheorems BsiValues BsiWitness Fields FieldsSpec.

Section persist.
Context `{Roaring B, !Scratch B, !F14Ops, !F14, !ProtoOps, !Proto}.
Implicit Types (id : Z) (name : list Z) (readonly : bool).

(** A string whose length fits the length field; an empty one cannot be
    written. *)
Definition str_savable (s : list Z) : Prop := s ≠ [] ∧ Z.of_nat (length s) < 2 ^ 32.

Definition str_bytes (s : list Z) : list Z := be32 (Z.of_nat (length s)) ++ s.

Lemma str_writes s : str_savable s → writes (file_write_string s) (str_bytes s).
Proof. intros [? _]. by apply file_write_string_writes. Qed.

Lemma str_reads s : str_savable s → reads file_read_string (str_bytes s) s.
Proof. intros [? ?]. by apply file_read_string_reads. Qed.

(** ** Set *)

Definition named_savable readonly name (bm : NamedRoaringBitmap B) : Prop :=
  nb_name bm = name ∧ str_savable name ∧ savable readonly (nb_bitmap bm).
Definition named_equiv (a b : NamedRoaringBitmap B) : Prop :=
  nb_name b = nb_name a ∧ get_bitmap (nb_bitmap b) ≡ get_bitmap (nb_bitmap a).
Definition named_bytes readonly (bm : NamedRoaringBitmap B) : list Z :=
  str_bytes (nb_name bm) ++ bitmap_bytes (get_bitmap (nb_bitmap bm)) readonly.

Lemma load_named_reads readonly name bm :
  named_savable readonly name bm →
  ∃ bm', reads load_named (named_bytes readonly bm) bm' ∧ named_equiv bm bm'.
Proof.
  intros (Hn & Hs & Hb). rewrite <-Hn in Hs.
  destruct (RoaringBitmap_Load_reads (nb_bitmap bm) readonly Hb) as (b' & Hr & Heq).
  eexists. split.
  - unfold load_named, named_bytes. eapply rd_bind_reads; [by apply str_reads|].
    apply (rd_bind_ret_reads _ (λ rb, {| nb_name := nb_name bm; nb_bitmap := rb |})), Hr.
  - done.
Qed.

(** The entries of a hash map, in its order, and the map filled from what was
    read back for each of them. *)
Lemma f14_reload {A} (nm : A → list Z) (R : A → A → Prop) (m : gmap (list Z) A) la :
  (∀ n a, m !! n = Some a → nm a = n) → (∀ a b, R a b → nm b = nm a) →
  Forall2 (λ p a, R p.2 a) (f14_items m) la →
  ∀ n, option_Forall2 R (m !! n) (insert_all nm ∅ la !! n).
Proof.
  intros Hnm HR Hla n. pose proof (f14_items_perm m) as Hp.
  assert (∀ n a, (n, a) ∈ f14_items m ↔ m !! n = Some a) as Hin
    by (intros; by rewrite Hp, elem_of_map_to_list).
  assert (nm <$> la = (f14_items m).*1) as Hkeys.
  { assert (∀ n a, (n, a) ∈ f14_items m → nm a = n) as Hk by (intros; by apply Hnm, Hin).
    clear Hp Hin. induction Hla as [|[k a] b l la Hab _ IH]; [done|].
    rewrite !fmap_cons, IH by (intros; apply Hk; by right). simpl in *. f_equal.
    rewrite (HR _ _ Hab). apply Hk. left. }
  assert (NoDup (nm <$> la)) as Hnd by (rewrite Hkeys, Hp; apply NoDup_fst_map_to_list).
  destruct (m !! n) as [a|] eqn:E.
  - apply Hin, list_elem_of_lookup in E as [i Hi].
    destruct (Forall2_lookup_l _ _ _ _ _ Hla Hi) as (b & Hb & HRab). simpl in HRab.
    assert (nm b = n) as <-.
    { rewrite (HR _ _ HRab). apply Hnm, Hin. by eapply list_elem_of_lookup_2. }
    rewrite insert_all_elem; [by constructor|done|by eapply list_elem_of_lookup_2].
  - rewrite insert_all_other, lookup_empty; [constructor|].
    rewrite Hkeys. intros ([k a] & -> & Hk)%list_elem_of_fmap. apply Hin in Hk. simpl in E. congruence.
Qed.

Definition set_savable readonly (bms : gmap (list Z) (NamedRoaringBitmap B)) : Prop :=
  Z.of_nat (size bms) < 2 ^ 32 ∧ map_Forall (named_savable readonly) bms.
Definition set_equiv (a b : gmap (list Z) (NamedRoaringBitmap B)) : Prop :=
  ∀ n, option_Forall2 named_equiv (a !! n) (b !! n).

Lemma f14_items_length {A} (m : gmap (list Z) A) : length (f14_items m) = size m.
Proof. by rewrite f14_items_perm, length_map_to_list. Qed.

Lemma set_roundtrip readonly bms :
  set_savable readonly bms →
  ∃ bytes bms', writes (RobimsSetField_DoSave bms readonly) bytes ∧
    reads (RobimsSetField_DoLoad ∅) bytes bms' ∧ set_equiv bms bms'.
Proof.
  intros [Hsz Hall].
  assert (∀ p, p ∈ f14_items bms → named_savable readonly p.1 p.2) as Hs.
  { intros [n bm] Hp. rewrite f14_items_perm, elem_of_map_to_list in Hp. by apply Hall. }
  destruct (rd_times_reads_rel load_named (λ p : list Z * _, named_bytes readonly p.2)
    (λ p a, named_equiv p.2 a) (f14_items bms)) as (la & Hla & Hr).
  { intros p Hp. eapply load_named_reads. by apply Hs. }
  eexists _, (insert_all nb_name ∅ la). split_and!.
  - apply wr_seq_writes; [apply file_write_uint32_writes|].
    apply wr_each_writes. intros p Hp. destruct (Hs p Hp) as (Hn & Hstr & Hb).
    rewrite <-Hn in Hstr. apply wr_seq_writes; [by apply str_writes|by apply RoaringBitmap_Save_writes].
  - unfold RobimsSetField_DoLoad. eapply rd_bind_reads.
    { apply file_read_uint32_reads. unfold is_u32. lia. }
    rewrite Nat2Z.id, <-f14_items_length.
    by apply (rd_bind_ret_reads _ (λ l, insert_all nb_name ∅ l)).
  - intros n. apply (f14_reload nb_name); [|by intros ?? [? _]|done].
    intros k a Ha. by destruct (Hall k a Ha).
Qed.

(** ** Weighted set *)

Lemma split_uint64s_concat l rest :
  Forall is_u64 l → split_uint64s (length l) (concat (le_bytes 8 <$> l) ++ rest) = l.
Proof.
  induction 1 as [|x l Hx Hl IH]; [done|]. rewrite fmap_cons. cbn [concat length split_uint64s].
  pose proof (le_bytes_length 8 x) as Hlen.
  rewrite <-app_assoc, take_app_length', drop_app_length', IH by done.
  f_equal. rewrite le_value_bytes. by apply Z.mod_small.
Qed.

Lemma uint64s_bytes_length l : length (concat (le_bytes 8 <$> l)) = (length l * 8)%nat.
Proof.
  induction l as [|x l IH]; [done|]. rewrite fmap_cons. cbn [concat length].
  rewrite length_app, (le_bytes_length 8 x), IH. lia.
Qed.

Lemma uint64s_roundtrip l :
  Forall is_u64 l →
  writes (wr_uint64s l) (concat (le_bytes 8 <$> l)) ∧
  reads (rd_uint64s (length l)) (concat (le_bytes 8 <$> l)) l.
Proof.
  intros Hl. unfold wr_uint64s, rd_uint64s. destruct l as [|x l].
  { split; [apply wr_ok_writes|apply rd_ret_reads]. }
  set (bytes := concat (le_bytes 8 <$> x :: l)).
  assert (length bytes = (length (x :: l) * 8)%nat) as Hlen by apply uint64s_bytes_length.
  assert (bytes ≠ []) as Hne by (intros E; rewrite E in Hlen; simpl in Hlen; lia).
  rewrite (proj2 (Nat.ltb_lt 0 _)) by (simpl; lia). split; [by apply wr_block_writes|].
  pose proof (split_uint64s_concat (x :: l) [] Hl) as Hsp. rewrite app_nil_r in Hsp.
  rewrite <-Hlen. intros rest. unfold rd_bind. rewrite (fread_reads bytes Hne).
  unfold rd_ret, bytes. by rewrite Hsp.
Qed.

(** Weights that survive: not NaN, and not the negative zero. *)
Definition plain_weight (w : Z) : Prop := f32_is_nan w = false ∧ w ≠ 2 ^ 31.

Lemma load_weight_id m id w :
  is_u32 id → is_u32 w → plain_weight w → load_weight m (weight_id w id) = <[id := w]> m.
Proof.
  intros Hid Hw [Hn Hz]. unfold load_weight.
  destruct (weight_id_split w id Hw Hid) as [-> ->]. by rewrite float_key_roundtrip.
Qed.

(** The weights read back from the sorted numbers of a name. *)
Lemma load_weights_eq (weights : gmap Z Z) l :
  (∀ v, v ∈ l → ∃ id w, weights !! id = Some w ∧ v = weight_id w id) →
  (∀ id w, weights !! id = Some w → weight_id w id ∈ l) →
  (∀ id w, weights !! id = Some w → is_u32 id ∧ is_u32 w ∧ plain_weight w) →
  foldl load_weight ∅ l = weights.
Proof.
  intros Hl Hcov Hu.
  assert (∀ l m, (∀ v, v ∈ l → ∃ id w, weights !! id = Some w ∧ v = weight_id w id) →
    (∀ id w, m !! id = Some w → weights !! id = Some w) →
    (∀ id w, foldl load_weight m l !! id = Some w → weights !! id = Some w) ∧
    (∀ id w, weights !! id = Some w → m !! id = Some w ∨ weight_id w id ∈ l →
       foldl load_weight m l !! id = Some w)) as Hloop.
  { clear l Hl Hcov. induction l as [|v l IH]; intros m Hl Hm; simpl.
    { split; [done|]. intros id w _ [?|?%elem_of_nil]; done. }
    destruct (Hl v) as (id & w & Hid & ->); [left|].
    destruct (Hu _ _ Hid) as (? & ? & ?). rewrite load_weight_id by done.
    destruct (IH (<[id := w]> m)) as [IHa IHb].
    { intros v Hv. apply Hl. by right. }
    { intros x wx [[<- <-]|[_ Hx]]%lookup_insert_Some; [done|by apply Hm]. }
    split; [done|]. intros x wx Hx Hin. apply IHb; [done|].
    destruct (decide (x = id)) as [->|Hne].
    { left. rewrite lookup_insert_eq. congruence. }
    rewrite lookup_insert_ne by done. destruct Hin as [?|Hin]; [by left|right].
    apply elem_of_cons in Hin as [Heq|?]; [|done]. destruct (Hu _ _ Hx) as (? & ? & _).
    by apply weight_id_inj in Heq as [? _]. }
  destruct (Hloop l ∅ Hl) as [Ha Hb]; [by intros; rewrite lookup_empty in *|].
  apply map_eq. intros id. destruct (weights !! id) as [w|] eqn:E.
  - apply Hb; [done|right; by apply Hcov].
  - destruct (foldl load_weight ∅ l !! id) as [w|] eqn:El; [|done].
    apply Ha in El. congruence.
Qed.

Definition weight_savable readonly name (bm : NamedWeightRoaringBitmap B) : Prop :=
  nw_name bm = name ∧ str_savable name ∧ savable readonly (nw_bitmap bm) ∧ weight_wf bm ∧
  Z.of_nat (size (weight_ids bm)) < 2 ^ 32 ∧
  map_Forall (λ _ w, plain_weight w) (id_weights bm).
Definition weight_equiv (a b : NamedWeightRoaringBitmap B) : Prop :=
  nw_name b = nw_name a ∧ weight_ids b = weight_ids a ∧ id_weights b = id_weights a ∧
  get_bitmap (nw_bitmap b) ≡ get_bitmap (nw_bitmap a).
Definition weight_bytes readonly (bm : NamedWeightRoaringBitmap B) : list Z :=
  let tmp := descending (weight_ids bm) in
  str_bytes (nw_name bm) ++ be32 (Z.of_nat (length tmp)) ++ concat (le_bytes 8 <$> tmp)
    ++ bitmap_bytes (get_bitmap (nw_bitmap bm)) readonly.

Lemma descending_elem (ids : gset Z) k : k ∈ descending ids ↔ k ∈ ids.
Proof. unfold descending. by rewrite list_elem_of_In, <-in_rev, <-list_elem_of_In, gset_array_elem. Qed.

Lemma descending_length (ids : gset Z) : length (descending ids) = size ids.
Proof. unfold descending. by rewrite length_rev, gset_array_length. Qed.

Lemma load_named_weight_reads readonly name bm :
  weight_savable readonly name bm →
  writes (file_write_string (nw_name bm) ;;ʷ
          file_write_uint32 (Z.of_nat (length (descending (weight_ids bm)))) ;;ʷ
          wr_uint64s (descending (weight_ids bm)) ;;ʷ
          RoaringBitmap_Save (nw_bitmap bm) readonly) (weight_bytes readonly bm) ∧
  ∃ bm', reads load_named_weight (weight_bytes readonly bm) bm' ∧ weight_equiv bm bm'.
Proof.
  intros (Hn & Hs & Hb & Hwf & Hsz & Hplain). rewrite <-Hn in Hs.
  set (tmp := descending (weight_ids bm)).
  assert (Forall is_u64 tmp) as Hu64.
  { apply Forall_forall. intros k Hk. apply descending_elem, (ww_ids bm Hwf) in Hk
      as (id & w & _ & ->). apply u64_range. }
  destruct (uint64s_roundtrip tmp Hu64) as [Hw8 Hr8].
  split.
  { apply wr_seq_writes; [by apply str_writes|].
    apply wr_seq_writes; [apply file_write_uint32_writes|].
    apply wr_seq_writes; [done|by apply RoaringBitmap_Save_writes]. }
  destruct (RoaringBitmap_Load_reads (nw_bitmap bm) readonly Hb) as (b' & Hr & Heq).
  eexists. split.
  - unfold load_named_weight, weight_bytes. eapply rd_bind_reads; [by apply str_reads|].
    eapply rd_bind_reads.
    { apply file_read_uint32_reads. unfold is_u32. rewrite descending_length. lia. }
    rewrite Nat2Z.id. eapply rd_bind_reads; [exact Hr8|].
    apply (rd_bind_ret_reads _ (λ rb, {| nw_name := nw_name bm; weight_ids := list_to_set tmp;
      id_weights := foldl load_weight ∅ tmp; nw_bitmap := rb |})), Hr.
  - split_and!; simpl; [done| | |done].
    + apply set_eq. intros k. unfold tmp. by rewrite elem_of_list_to_set, descending_elem.
    + apply load_weights_eq.
      * intros v Hv. apply descending_elem in Hv. by apply (ww_ids bm Hwf).
      * intros id w Hw. apply descending_elem, (ww_ids bm Hwf). eauto.
      * intros id w Hw. destruct (ww_u32 bm Hwf id w Hw). split_and!; [done..|by eapply Hplain].
Qed.

Definition weight_set_savable readonly (bms : gmap (list Z) (NamedWeightRoaringBitmap B)) : Prop :=
  Z.of_nat (size bms) < 2 ^ 32 ∧ map_Forall (weight_savable readonly) bms.
Definition weight_set_equiv (a b : gmap (list Z) (NamedWeightRoaringBitmap B)) : Prop :=
  ∀ n, option_Forall2 weight_equiv (a !! n) (b !! n).

Lemma weight_set_roundtrip readonly bms :
  weight_set_savable readonly bms →
  ∃ bytes bms', writes (RobimsWeightSetField_DoSave bms readonly) bytes ∧
    reads (RobimsWeightSetField_DoLoad ∅) bytes bms' ∧ weight_set_equiv bms bms'.
Proof.
  intros [Hsz Hall].
  assert (∀ p, p ∈ f14_items bms → weight_savable readonly p.1 p.2) as Hs.
  { intros [n bm] Hp. rewrite f14_items_perm, elem_of_map_to_list in Hp. by apply Hall. }
  destruct (rd_times_reads_rel load_named_weight (λ p : list Z * _, weight_bytes readonly p.2)
    (λ p a, weight_equiv p.2 a) (f14_items bms)) as (la & Hla & Hr).
  { intros p Hp. eapply load_named_weight_reads. by apply Hs. }
  eexists _, (insert_all nw_name ∅ la). split_and!.
  - apply wr_seq_writes; [apply file_write_uint32_writes|].
    apply (wr_each_writes _ (λ p : list Z * _, weight_bytes readonly p.2)). intros p Hp.
    eapply load_named_weight_reads. by apply Hs.
  - unfold RobimsWeightSetField_DoLoad. eapply rd_bind_reads.
    { apply file_read_uint32_reads. unfold is_u32. lia. }
    rewrite Nat2Z.id, <-f14_items_length.
    by apply (rd_bind_ret_reads _ (λ l, insert_all nw_name ∅ l)).
  - intros n. apply (f14_reload nw_name); [|by intros ?? [? _]|done].
    intros k a Ha. by destruct (Hall k a Ha).
Qed.

(** ** Any field *)

Definition impl_savable readonly (impl : field_impl B) : Prop :=
  match impl with
  | BoolField bm => savable readonly bm
  | IntField bsi | FloatField bsi => index_savable readonly bsi ∧ wf bsi
  | SetField bms => set_savable readonly bms
  | WeightSetField bms => weight_set_savable readonly bms
  end.

(** The same answers: equal sets, equal stored numbers, equal weights. *)
Definition impl_equiv (a b : field_impl B) : Prop :=
  match a, b with
  | BoolField bm, BoolField bm' => get_bitmap bm' ≡ get_bitmap bm
  | IntField bsi, IntField bsi' | FloatField bsi, FloatField bsi' =>
      _options bsi' = _options bsi ∧ ∀ m, models bsi m → models bsi' m
  | SetField bms, SetField bms' => set_equiv bms bms'
  | WeightSetField bms, WeightSetField bms' => weight_set_equiv bms bms'
  | _, _ => False
  end.

(** [impl] is a state of the class [Build] makes for [impl0]: an index keeps
    the options and the depth [Init] gave it. *)
Definition same_class (impl impl0 : field_impl B) : Prop :=
  match impl, impl0 with
  | BoolField _, BoolField _ => True
  | IntField bsi, IntField bsi0 | FloatField bsi, FloatField bsi0 =>
      _options bsi0 = _options bsi ∧ _bit_depth bsi0 = _bit_depth bsi
  | SetField _, SetField bms0 => bms0 = ∅
  | WeightSetField _, WeightSetField bms0 => bms0 = ∅
  | _, _ => False
  end.

Definition field_savable readonly (f : RobimsField B) : Prop :=
  str_savable (serialize_meta (_meta f)) ∧ impl_savable readonly (_impl f).

Lemma bsi_roundtrip readonly (bsi bsi0 : BitSliceIndex B) :
  index_savable readonly bsi → wf bsi → _options bsi0 = _options bsi →
  _bit_depth bsi0 = _bit_depth bsi →
  ∃ bytes bsi', writes (BitSliceIndex_Save bsi readonly) bytes ∧
    reads (BitSliceIndex_Load bsi0) bytes bsi' ∧
    _options bsi' = _options bsi ∧ ∀ m, models bsi m → models bsi' m.
Proof.
  intros Hs Hw Ho Hd.
  destruct (BitSliceIndex_Load_reads readonly bsi bsi0 (abstract bsi) Hs (abstract_models bsi Hw) Hd)
    as (_ & bsi' & Hr & Hm & Ho' & _).
  exists (index_bytes readonly bsi), bsi'. split_and!; [by apply BitSliceIndex_Save_writes|done|congruence|].
  intros m Hm'. by rewrite <-(models_unique bsi _ _ Hm' (abstract_models bsi Hw)) in Hm.
Qed.

Lemma DoSave_roundtrip readonly impl impl0 meta :
  impl_savable readonly impl → same_class impl impl0 →
  ∃ bytes impl',
    writes (RobimsField_DoSave {| _meta := meta; _impl := impl |} readonly) bytes ∧
    reads (RobimsField_DoLoad impl0) bytes impl' ∧ impl_equiv impl impl'.
Proof.
  intros Hs Hc. unfold RobimsField_DoSave, RobimsField_DoLoad.
  destruct impl as [bm|bsi|bsi|bms|bms], impl0 as [bm0|bsi0|bsi0|bms0|bms0]; try done; simpl in *.
  - destruct (RoaringBitmap_Load_reads bm readonly Hs) as (b' & Hr & Heq).
    eexists _, _. split_and!; [by apply RoaringBitmap_Save_writes| |].
    + apply (rd_bind_ret_reads _ BoolField), Hr.
    + done.
  - destruct Hs, Hc, (bsi_roundtrip readonly bsi bsi0) as (bytes & bsi' & ? & Hr & ? & ?); [done..|].
    eexists bytes, _. split_and!; [done|by apply (rd_bind_ret_reads _ IntField)|done].
  - destruct Hs, Hc, (bsi_roundtrip readonly bsi bsi0) as (bytes & bsi' & ? & Hr & ? & ?); [done..|].
    eexists bytes, _. split_and!; [done|by apply (rd_bind_ret_reads _ FloatField)|done].
  - subst. destruct (set_roundtrip readonly bms Hs) as (bytes & bms' & ? & Hr & ?).
    eexists bytes, _. split_and!; [done|by apply (rd_bind_ret_reads _ SetField)|done].
  - subst. destruct (weight_set_roundtrip readonly bms Hs) as (bytes & bms' & ? & Hr & ?).
    eexists bytes, _. split_and!; [done|by apply (rd_bind_ret_reads _ WeightSetField)|done].
Qed.

Lemma field_roundtrip readonly f f0 :
  field_savable readonly f → same_class (_impl f) (_impl f0) →
  ∃ bytes f', writes (RobimsField_Save f readonly) bytes ∧ reads (RobimsField_Load f0) bytes f' ∧
    _meta f' = _meta f ∧ impl_equiv (_impl f) (_impl f').
Proof.
  intros [Hstr Hs] Hc. destruct f as [meta impl]. simpl in *.
  destruct (DoSave_roundtrip readonly impl (_impl f0) meta Hs Hc) as (bytes & impl' & Hw & Hr & Heq).
  eexists _, {| _meta := meta; _impl := impl' |}. split_and!; [| |done|done].
  - apply wr_seq_writes; [by apply str_writes|exact Hw].
  - unfold RobimsField_Load. eapply rd_bind_reads; [by apply str_reads|].
    intros rest. rewrite parse_serialize_meta.
    apply (rd_bind_ret_reads _ (λ impl, {| _meta := meta; _impl := impl |})), Hr.
Qed.

(** A field of any class, written to a file with enough room, is read
    back by a field in the state [Build] leaves it in: the meta
    data is the same, and so are the sets, numbers and weights it answers
    queries from, in whatever order the hash map listed its names. *)
Theorem RobimsField_Save_Load readonly f f0 :
  field_savable readonly f → same_class (_impl f) (_impl f0) →
  ∃ bytes f',
    (∀ pre extra, RobimsField_Save f readonly {| written := pre; room := length bytes + extra |}
                  = Some (0, {| written := pre ++ bytes; room := extra |})) ∧
    (∀ rest, RobimsField_Load f0 (bytes ++ rest) = (Some f', rest)) ∧
    _meta f' = _meta f ∧ impl_equiv (_impl f) (_impl f').
Proof. apply field_roundtrip. Qed.
End persist.
