(* ===== verification/IdMapping.v ===== *)
(** * IdMapping: external identifiers and the 32-bit numbers the bitmaps hold
    (robims_id_mapping.h, robims_simple_id_mapping.cpp)

    [IDMappingOps] is the abstract class [IDMapping], with [IDMapping] what a
    table relies on; [SimpleIDMapping] is the implementation. *)

From S2P Require Import Prelude Roaring Cache Common Schema Fields FieldsPersist.

(** ** The interface *)

(** [GetLocalID] returns the return code, the local identifier (0, the value
    the callers initialise it with, when it fails) and the new state. *)
Class IDMappingOps (M : Type) := {
  GetLocalID : M → list Z → bool → Z * Z * M;
  GetID : M → Z → option (list Z);
  IDMapping_Save : M → bool → Writer;
  IDMapping_Load : M → Reader M;
}.

(** [mapping_graph s id n]: the identifier [id] has the number [n]. *)
Class IDMapping (M : Type) `{!IDMappingOps M} := {
  mapping_ok : M → Prop;
  mapping_graph : M → list Z → Z → Prop;
  (** Room for another identifier. *)
  mapping_room : M → Prop;
  mapping_functional s id n n' : mapping_ok s → mapping_graph s id n → mapping_graph s id n' → n = n';
  mapping_injective s id id' n : mapping_ok s → mapping_graph s id n → mapping_graph s id' n → id = id';
  mapping_u32 s id n : mapping_ok s → mapping_graph s id n → is_u32 n;
  GetID_spec s id n : mapping_ok s → GetID s n = Some id ↔ mapping_graph s id n;
  (** A known identifier keeps its number; an unknown one is an error or gets
      a number of its own. *)
  GetLocalID_known s id n create :
    mapping_ok s → mapping_graph s id n → GetLocalID s id create = (0, n, s);
  GetLocalID_unknown s id :
    mapping_ok s → (∀ n, ¬ mapping_graph s id n) → GetLocalID s id false = (-1, 0, s);
  GetLocalID_create s id :
    mapping_ok s → mapping_room s → (∀ n, ¬ mapping_graph s id n) →
    ∃ n s', GetLocalID s id true = (0, n, s') ∧ mapping_ok s' ∧
      ∀ id' n', mapping_graph s' id' n' ↔ (id' = id ∧ n' = n) ∨ mapping_graph s id' n';
}.

(** ** The implementation *)

Section simple.
Context `{!F14Ops, !F14}.

(** The local number and the external identifier, [IDPair]; the keys of the
    second map are views into the pairs. *)
Record SimpleIDMapping := {
  real_local_mapping_ : gmap (list Z) (Z * list Z);
  local_real_mapping_ : gmap Z (list Z);
  id_seed_ : Z;
}.

Definition new_SimpleIDMapping : SimpleIDMapping :=
  {| real_local_mapping_ := ∅; local_real_mapping_ := ∅; id_seed_ := 0 |}.

Definition SimpleIDMapping_Save (s : SimpleIDMapping) (readonly : bool) : Writer :=
  file_write_uint32 (id_seed_ s) ;;ʷ
  file_write_uint32 (Z.of_nat (size (real_local_mapping_ s))) ;;ʷ
  wr_each (λ p : list Z * (Z * list Z),
    file_write_uint32 p.2.1 ;;ʷ file_write_string p.2.2) (f14_items (real_local_mapping_ s)).

(** The two insertions that create and load share. *)
Definition add_pair (s : SimpleIDMapping) (pair : Z * list Z) : SimpleIDMapping :=
  {| real_local_mapping_ := <[pair.2 := pair]> (real_local_mapping_ s);
     local_real_mapping_ := <[pair.1 := pair.2]> (local_real_mapping_ s);
     id_seed_ := id_seed_ s |}.

Definition load_pair : Reader (Z * list Z) :=
  local_id ←ʳ file_read_uint32; real_id ←ʳ file_read_string; rd_ret (local_id, real_id).

Definition SimpleIDMapping_Load (s : SimpleIDMapping) : Reader SimpleIDMapping :=
  seed ←ʳ file_read_uint32;
  n ←ʳ file_read_uint32;
  pairs ←ʳ rd_times (Z.to_nat n) load_pair;
  rd_ret (foldl add_pair {| real_local_mapping_ := real_local_mapping_ s;
                            local_real_mapping_ := local_real_mapping_ s;
                            id_seed_ := seed |} pairs).

Definition SimpleIDMapping_GetLocalID (s : SimpleIDMapping) (id : list Z)
    (create_ifnotexist : bool) : Z * Z * SimpleIDMapping :=
  match real_local_mapping_ s !! id with
  | Some found => (0, found.1, s)
  | None =>
      if negb create_ifnotexist then (-1, 0, s)
      else
        let local_id := id_seed_ s in
        let s := {| real_local_mapping_ := real_local_mapping_ s;
                    local_real_mapping_ := local_real_mapping_ s;
                    id_seed_ := u32 (id_seed_ s + 1) |} in
        (0, local_id, add_pair s (local_id, id))
  end.

Definition SimpleIDMapping_GetID (s : SimpleIDMapping) (local_id : Z) : option (list Z) :=
  local_real_mapping_ s !! local_id.

#[export] Instance simple_mapping_ops : IDMappingOps SimpleIDMapping := {
  GetLocalID := SimpleIDMapping_GetLocalID;
  GetID := SimpleIDMapping_GetID;
  IDMapping_Save := SimpleIDMapping_Save;
  IDMapping_Load := SimpleIDMapping_Load;
}.

(** ** The invariant *)

Definition simple_graph (s : SimpleIDMapping) (id : list Z) (n : Z) : Prop :=
  local_real_mapping_ s !! n = Some id.

(** The two maps are inverse, and all numbers are below the seed. *)
Record simple_ok (s : SimpleIDMapping) : Prop := {
  so_real id p : real_local_mapping_ s !! id = Some p ↔ p.2 = id ∧ simple_graph s id p.1;
  so_seed id n : simple_graph s id n → 0 <= n < id_seed_ s;
  so_u32 : is_u32 (id_seed_ s);
}.

(** The seed does not wrap around with the next identifier. *)
Definition simple_room (s : SimpleIDMapping) : Prop := id_seed_ s < 2 ^ 32 - 1.

Lemma simple_known s id n :
  simple_ok s → simple_graph s id n → real_local_mapping_ s !! id = Some (n, id).
Proof. intros Hok Hg. by apply (so_real s Hok id (n, id)). Qed.

Lemma simple_functional s id n n' :
  simple_ok s → simple_graph s id n → simple_graph s id n' → n = n'.
Proof.
  intros Hok Hn%(simple_known s id n Hok) Hn'%(simple_known s id n' Hok).
  rewrite Hn in Hn'. by injection Hn'.
Qed.

Lemma simple_unknown s id :
  simple_ok s → (∀ n, ¬ simple_graph s id n) → real_local_mapping_ s !! id = None.
Proof.
  intros Hok Hno. destruct (real_local_mapping_ s !! id) as [p|] eqn:E; [|done].
  apply (so_real s Hok) in E as [_ Hg]. by apply Hno in Hg.
Qed.

(** Adding a pair with a new identifier and a new number. *)
Lemma add_pair_ok s n id :
  simple_ok s → 0 <= n < id_seed_ s →
  (∀ n', ¬ simple_graph s id n') → (∀ id', ¬ simple_graph s id' n) →
  simple_ok (add_pair s (n, id)) ∧
  ∀ id' n', simple_graph (add_pair s (n, id)) id' n' ↔ (id' = id ∧ n' = n) ∨ simple_graph s id' n'.
Proof.
  intros Hok Hn Hid Hnum.
  assert (∀ id' n', simple_graph (add_pair s (n, id)) id' n'
            ↔ (id' = id ∧ n' = n) ∨ simple_graph s id' n') as Hg.
  { intros id' n'. unfold simple_graph, add_pair. simpl.
    rewrite lookup_insert_Some. split.
    - intros [[-> ->]|[_ ?]]; [by left|by right].
    - intros [[-> ->]|Hg]; [by left|]. right. split; [|done]. intros ->. by apply (Hnum id'). }
  split; [|done]. split.
  - intros id' [n' x]. simpl. rewrite lookup_insert_Some, Hg. split.
    + intros [[-> [= -> ->]]|[Hne Hx]]; [by split; [|left]|].
      apply (so_real s Hok) in Hx as [? ?]. split; [done|by right].
    + intros [-> [[-> ->]|Hg']]; [by left|]. right. split; [intros ->; by apply (Hid n')|].
      by apply (so_real s Hok).
  - intros id' n' [[-> ->]|Hg']%Hg; [done|]. by apply (so_seed s Hok) in Hg'.
  - apply Hok.
Qed.

Lemma simple_create s id :
  simple_ok s → simple_room s → (∀ n, ¬ simple_graph s id n) →
  ∃ n s', SimpleIDMapping_GetLocalID s id true = (0, n, s') ∧ simple_ok s' ∧
    ∀ id' n', simple_graph s' id' n' ↔ (id' = id ∧ n' = n) ∨ simple_graph s id' n'.
Proof.
  intros Hok Hroom Hno. unfold SimpleIDMapping_GetLocalID. rewrite (simple_unknown s id Hok Hno).
  simpl. eexists _, _. split; [done|]. pose proof (so_u32 s Hok) as Hu. unfold is_u32, simple_room in *.
  apply (add_pair_ok {| id_seed_ := _ |}); simpl.
  - split; simpl; [apply Hok| |apply u32_range]. intros id' n Hg.
    apply (so_seed s Hok) in Hg. rewrite u32_id by (unfold is_u32; lia). lia.
  - rewrite u32_id by (unfold is_u32; lia). lia.
  - done.
  - intros id' Hg. apply (so_seed s Hok) in Hg. lia.
Qed.

#[export] Instance simple_mapping : IDMapping SimpleIDMapping.
Proof.
  refine {| mapping_ok := simple_ok; mapping_graph := simple_graph; mapping_room := simple_room |}.
  - apply simple_functional.
  - intros s id id' n _. unfold simple_graph. intros Ha Hb. rewrite Ha in Hb. by injection Hb.
  - intros s id n Hok Hg. apply (so_seed s Hok) in Hg. pose proof (so_u32 s Hok).
    unfold is_u32 in *. lia.
  - intros s id n _. done.
  - intros s id n create Hok Hg. simpl. unfold SimpleIDMapping_GetLocalID.
    by rewrite (simple_known s id n Hok Hg).
  - intros s id Hok Hno. simpl. unfold SimpleIDMapping_GetLocalID.
    by rewrite (simple_unknown s id Hok Hno).
  - apply simple_create.
Defined.

(** ** Histories *)

Definition run_request (s : SimpleIDMapping) (r : list Z * bool) : SimpleIDMapping :=
  (GetLocalID s r.1 r.2).2.
Definition run_requests : SimpleIDMapping → list (list Z * bool) → SimpleIDMapping :=
  foldl run_request.

Lemma new_simple_ok : simple_ok new_SimpleIDMapping.
Proof.
  split; simpl; [|by intros id n; unfold simple_graph; simpl; rewrite lookup_empty|].
  - intros id p. unfold simple_graph. simpl. rewrite !lookup_empty. split; [done|by intros []].
  - unfold is_u32. lia.
Qed.

Lemma run_request_ok s id create :
  simple_ok s → simple_room s →
  let s' := run_request s (id, create) in
  simple_ok s' ∧ id_seed_ s <= id_seed_ s' <= id_seed_ s + 1 ∧
  (∀ id' n, simple_graph s id' n → simple_graph s' id' n) ∧
  (create = true → ∃ n, simple_graph s' id n).
Proof.
  intros Hok Hroom. unfold run_request, GetLocalID, simple_mapping_ops. simpl.
  destruct (real_local_mapping_ s !! id) as [[n x]|] eqn:E.
  { unfold SimpleIDMapping_GetLocalID. rewrite E. simpl.
    apply (so_real s Hok) in E as [? ?]. split_and!; [done|lia|lia|done|eauto]. }
  assert (∀ n, ¬ simple_graph s id n) as Hno
    by (intros n Hg%(simple_known s id n Hok); by rewrite Hg in E).
  destruct create; last first.
  { unfold SimpleIDMapping_GetLocalID. rewrite E. simpl. split_and!; [done|lia|lia|done|done]. }
  destruct (simple_create s id Hok Hroom Hno) as (n & s' & Eq & Hok' & Hg). rewrite Eq. simpl.
  split_and!; [done| | |intros; apply Hg; by right|intros _; exists n; apply Hg; by left].
  all: unfold SimpleIDMapping_GetLocalID in Eq; rewrite E in Eq; injection Eq as _ <-; simpl;
    unfold simple_room in Hroom; pose proof (so_u32 s Hok) as Hu; unfold is_u32 in Hu;
    rewrite u32_id by (unfold is_u32; lia); lia.
Qed.

(** The code and the number of a lookup. *)
Lemma lookup_number s id create :
  simple_ok s → simple_room s →
  let '(rc, n, s') := GetLocalID s id create in
  (rc = 0 ↔ create = true ∨ ∃ n', simple_graph s id n') ∧ (rc = 0 → simple_graph s' id n).
Proof.
  intros Hok Hroom. simpl. destruct (real_local_mapping_ s !! id) as [[n x]|] eqn:E.
  { unfold SimpleIDMapping_GetLocalID. rewrite E. apply (so_real s Hok) in E as [_ Hg].
    split; [split; [intros _; right; by exists n|done]|done]. }
  assert (∀ n, ¬ simple_graph s id n) as Hno
    by (intros n Hg%(simple_known s id n Hok); by rewrite Hg in E).
  destruct create.
  - destruct (simple_create s id Hok Hroom Hno) as (n & s' & -> & _ & Hg).
    split; [by split; [left|]|intros _; apply Hg; by left].
  - unfold SimpleIDMapping_GetLocalID. rewrite E. simpl. split; [|done]. split; [done|].
    intros [?|[n ?%Hno]]; done.
Qed.

Lemma run_requests_ok rs s :
  simple_ok s → id_seed_ s + Z.of_nat (length rs) < 2 ^ 32 →
  let s' := run_requests s rs in
  simple_ok s' ∧ id_seed_ s' <= id_seed_ s + Z.of_nat (length rs) ∧
  (∀ id n, simple_graph s id n → simple_graph s' id n) ∧
  (∀ id, (id, true) ∈ rs → ∃ n, simple_graph s' id n).
Proof.
  revert s. induction rs as [|[id create] rs IH]; intros s Hok Hlen.
  { simpl. split_and!; [done|lia|done|]. by intros id ?%elem_of_nil. }
  cbn [length] in Hlen.
  destruct (run_request_ok s id create Hok) as (Hok1 & Hs1 & Hmono & Hc);
    [unfold simple_room; lia|].
  destruct (IH (run_request s (id, create))) as (Hok2 & Hs2 & Hmono2 & Hc2); [done|lia|].
  cbn [run_requests foldl length]. split_and!; [done|lia|auto|].
  intros id'. rewrite elem_of_cons. intros [[= -> <-]|?]; [|auto].
  destruct (Hc eq_refl) as [n ?]. eauto.
Qed.

(** C36. Over any sequence of fewer than 2^32 lookups, creating or not: a lookup
    that creates always succeeds, and one that does not exactly when the
    identifier is known; the number that a successful lookup returns belongs to the
    identifier, then and after all later lookups, and no other identifier has it. *)
Theorem id_mapping_history rs1 id create rs2 :
  Z.of_nat (length (rs1 ++ (id, create) :: rs2)) < 2 ^ 32 →
  let s1 := run_requests new_SimpleIDMapping rs1 in
  let s := run_requests new_SimpleIDMapping (rs1 ++ (id, create) :: rs2) in
  let '(rc, n, _) := GetLocalID s1 id create in
  (rc = 0 ↔ create = true ∨ ∃ n', GetID s1 n' = Some id) ∧
  (rc = 0 → GetID s n = Some id ∧ (∀ n', GetID s n' = Some id → n' = n) ∧ GetLocalID s id false = (0, n, s)).
Proof.
  intros Hlen s1 s. rewrite length_app in Hlen. cbn [length] in Hlen.
  destruct (run_requests_ok rs1 new_SimpleIDMapping new_simple_ok) as (Hok1 & Hs1 & _ & _); [simpl; lia|].
  fold s1 in Hok1, Hs1. simpl in Hs1.
  destruct (run_request_ok s1 id create Hok1) as (Hok2 & Hs2 & _ & _); [unfold simple_room; lia|].
  destruct (run_requests_ok rs2 (run_request s1 (id, create)) Hok2) as (Hok & _ & Hmono & _); [lia|].
  assert (s = run_requests (run_request s1 (id, create)) rs2) as Hs by (unfold s, run_requests; by rewrite foldl_app).
  rewrite <-Hs in Hok, Hmono. pose proof (lookup_number s1 id create Hok1 ltac:(unfold simple_room; lia)) as Hnum.
  change (run_request s1 (id, create)) with (GetLocalID s1 id create).2 in Hmono.
  destruct (GetLocalID s1 id create) as [[rc n] s2]. destruct Hnum as [Hrc Hg]. split; [done|]. intros Hz.
  pose proof (Hmono id n (Hg Hz)) as Hn. split_and!; [done| |by apply simple_mapping].
  intros n' Hn'. by apply (simple_functional s id).
Qed.

(** ** Persistence *)

Lemma add_pairs_graph s l t :
  NoDup l.*2 → simple_ok s → simple_ok t → id_seed_ t = id_seed_ s →
  (∀ p, p ∈ l → simple_graph s p.2 p.1 ∧ ∀ n, ¬ simple_graph t p.2 n) →
  (∀ id n, simple_graph t id n → simple_graph s id n) →
  let t' := foldl add_pair t l in
  simple_ok t' ∧ id_seed_ t' = id_seed_ s ∧
  ∀ id n, simple_graph t' id n ↔ simple_graph t id n ∨ (n, id) ∈ l.
Proof.
  intros Hnd Hs. revert t. induction l as [|[n id] l IH]; intros t Ht Hseed Hl Hsub; simpl.
  { split_and!; [done..|]. intros id n. rewrite elem_of_nil. tauto. }
  apply NoDup_cons in Hnd as [Hid Hnd]. destruct (Hl (n, id)) as [Hg Hno]; [left|]. simpl in *.
  destruct (add_pair_ok t n id) as [Hok Hgr]; [done| |done| |].
  { rewrite Hseed. by apply (so_seed s Hs) in Hg. }
  { intros id' Hg'. apply Hsub in Hg' as Hg2. unfold simple_graph in Hg, Hg2.
    rewrite Hg in Hg2. injection Hg2 as <-. by apply (Hno n). }
  destruct (IH Hnd (add_pair t (n, id))) as (Hok' & Hs' & Hgr'); [done|done| | |].
  { intros [n' id'] Hp. destruct (Hl (n', id')) as [? Hno']; [by right|]. split; [done|].
    simpl. intros k [[-> _]|Hk]%Hgr; [|by apply (Hno' k)].
    apply Hid. by apply (list_elem_of_fmap_2' snd _ (n', id)). }
  { intros id' n' [[-> ->]|?]%Hgr; [done|by apply Hsub]. }
  split_and!; [done..|]. intros id' n'. rewrite Hgr', Hgr, elem_of_cons.
  split; [intros [[[-> ->]|?]|?]; auto|intros [?|[[= -> ->]|?]]; auto].
Qed.

Lemma simple_eq s t :
  simple_ok s → simple_ok t → id_seed_ s = id_seed_ t →
  (∀ id n, simple_graph s id n ↔ simple_graph t id n) → s = t.
Proof.
  intros Hs Ht Hseed Hg. pose proof (so_real s Hs) as Hrs. pose proof (so_real t Ht) as Hrt.
  assert (real_local_mapping_ s = real_local_mapping_ t) as Hr.
  { apply map_eq. intros id. apply option_eq. intros p. by rewrite Hrs, Hrt, Hg. }
  assert (local_real_mapping_ s = local_real_mapping_ t) as Hl.
  { apply map_eq. intros n. apply option_eq. intros id. apply Hg. }
  destruct s, t. simpl in *. by subst.
Qed.

Definition pair_bytes (p : Z * list Z) : list Z := be32 p.1 ++ str_bytes p.2.

Lemma load_pair_reads p : is_u32 p.1 → str_savable p.2 → reads load_pair (pair_bytes p) p.
Proof.
  destruct p as [n x]. intros Hn Hx. unfold load_pair, pair_bytes.
  eapply rd_bind_reads; [by apply file_read_uint32_reads|].
  by apply (rd_bind_ret_reads _ (λ y, (n, y))), str_reads.
Qed.

(** The entries of a mapping in the order of its hash map. *)
Lemma simple_items s q :
  simple_ok s → q ∈ f14_items (real_local_mapping_ s) →
  q.2.2 = q.1 ∧ simple_graph s q.1 q.2.1 ∧ is_u32 q.2.1 ∧ real_local_mapping_ s !! q.1 = Some q.2.
Proof.
  intros Hok Hq. destruct q as [k p]. rewrite f14_items_perm, elem_of_map_to_list in Hq.
  pose proof Hq as [<- Hg]%(so_real s Hok). simpl. split_and!; [done|done| |done].
  apply (so_seed s Hok) in Hg. pose proof (so_u32 s Hok). unfold is_u32 in *. lia.
Qed.

(** Adding the entries of [s] to an empty mapping rebuilds [s]. *)
Lemma rebuild_pairs s :
  simple_ok s →
  foldl add_pair {| real_local_mapping_ := ∅; local_real_mapping_ := ∅; id_seed_ := id_seed_ s |}
    (f14_items (real_local_mapping_ s)).*2 = s.
Proof.
  intros Hok. set (items := f14_items (real_local_mapping_ s)).
  assert (items.*2.*2 = items.*1) as Hkeys.
  { rewrite <-list_fmap_compose. apply list_fmap_ext. intros i q Hqi. simpl.
    destruct (simple_items s q Hok) as [? _]; [by eapply list_elem_of_lookup_2|done]. }
  destruct (add_pairs_graph s items.*2
    {| real_local_mapping_ := ∅; local_real_mapping_ := ∅; id_seed_ := id_seed_ s |})
    as (Hok' & Hseed & Hg).
  - rewrite Hkeys. unfold items. rewrite f14_items_perm. apply NoDup_fst_map_to_list.
  - done.
  - split; simpl; [| |apply Hok]; unfold simple_graph; simpl.
    + intros id p. rewrite !lookup_empty. split; [done|by intros []].
    + intros id n. by rewrite lookup_empty.
  - done.
  - intros p (q & -> & Hqi)%list_elem_of_fmap. destruct (simple_items s q Hok Hqi) as (E & ? & _).
    rewrite E. split; [done|]. intros n. unfold simple_graph. simpl. by rewrite lookup_empty.
  - intros id n. unfold simple_graph. simpl. by rewrite lookup_empty.
  - apply simple_eq; [done|done|done|]. intros id n. rewrite Hg. unfold simple_graph at 1. simpl.
    rewrite lookup_empty. split.
    + intros [?|([k p] & Hp & Hqi)%list_elem_of_fmap]; [done|].
      destruct (simple_items s _ Hok Hqi) as (E & Hgr & _). simpl in *. subst p. by subst k.
    + intros Hgr. right. apply (list_elem_of_fmap_2' snd _ (id, (n, id))); [|done].
      unfold items. rewrite f14_items_perm, elem_of_map_to_list. by apply simple_known.
Qed.

Definition simple_savable (s : SimpleIDMapping) : Prop :=
  simple_ok s ∧ Z.of_nat (size (real_local_mapping_ s)) < 2 ^ 32 ∧
  map_Forall (λ id _, str_savable id) (real_local_mapping_ s).

Lemma simple_roundtrip readonly s :
  simple_savable s →
  ∃ bytes, writes (SimpleIDMapping_Save s readonly) bytes ∧
           reads (SimpleIDMapping_Load new_SimpleIDMapping) bytes s.
Proof.
  intros (Hok & Hsz & Hstr). set (items := f14_items (real_local_mapping_ s)).
  assert (∀ q, q ∈ items → is_u32 q.2.1 ∧ str_savable q.2.2) as Hq.
  { intros q Hqi. destruct (simple_items s q Hok Hqi) as (E & _ & ? & Hl). split; [done|].
    rewrite E. by eapply Hstr. }
  exists (be32 (id_seed_ s) ++ be32 (Z.of_nat (size (real_local_mapping_ s)))
          ++ concat ((λ q, pair_bytes q.2) <$> items)). split.
  - apply wr_seq_writes; [apply file_write_uint32_writes|].
    apply wr_seq_writes; [apply file_write_uint32_writes|].
    apply wr_each_writes. intros q [_ ?]%Hq.
    apply wr_seq_writes; [apply file_write_uint32_writes|by apply str_writes].
  - unfold SimpleIDMapping_Load. eapply rd_bind_reads; [apply file_read_uint32_reads, Hok|].
    eapply rd_bind_reads; [apply file_read_uint32_reads; unfold is_u32; lia|].
    rewrite Nat2Z.id, <-f14_items_length. fold items.
    assert (reads (rd_times (length items) load_pair)
              (concat ((λ q, pair_bytes q.2) <$> items)) items.*2) as Hr.
    { apply rd_times_reads. intros q [? ?]%Hq. by apply load_pair_reads. }
    apply (rd_bind_ret_reads _ (λ l, foldl add_pair {| real_local_mapping_ := ∅;
      local_real_mapping_ := ∅; id_seed_ := id_seed_ s |} l)) in Hr.
    unfold items in Hr at 3. cbv beta in Hr. rewrite (rebuild_pairs s Hok) in Hr. exact Hr.
Qed.

(** A mapping whose identifiers are not empty strings is written to a
    file with enough room and read back, into a new mapping, exactly as it
    was. *)
Theorem SimpleIDMapping_Save_Load readonly s :
  simple_savable s →
  ∃ bytes,
    (∀ pre extra, IDMapping_Save s readonly {| written := pre; room := length bytes + extra |}
                  = Some (0, {| written := pre ++ bytes; room := extra |})) ∧
    (∀ rest, IDMapping_Load new_SimpleIDMapping (bytes ++ rest) = (Some s, rest)).
Proof. apply simple_roundtrip. Qed.
End simple.
