(* ===== verification/Table.v ===== *)
(** * Table: rows of fields (robims_table.cpp)

    A table keeps its schema, its fields by name and the bitmap of its local
    identifiers.  The identifier mapping is shared by all tables of a database,
    so the operations take its state and return it.  The documents are parsed
    by simdjson, whose functions are parameters ([SimdjsonOps]); a document is
    only read, so they are functions of the document or value.

    [None] as a result means the source does not return: it has undefined
    behaviour, or an exception leaves the function. *)

From S2P Require Import Prelude Roaring Cache Common Float Schema Bsi BsiIndex Fields IdMapping.

Class SimdjsonOps := {
  json_doc : Type;
  json_value : Type;
  json_iterate : list Z → option json_doc;
  find_field : json_doc → list Z → json_value;
  find_field_unordered : json_doc → list Z → json_value;
  json_error : json_value → bool;
  is_null : json_value → bool;
  get_string : json_value → option (list Z);
  get_int64 : json_value → option Z;
  get_double : json_value → option double;
  get_bool : json_value → option bool;
  get_array : json_value → option (list json_value);
  get_object : json_value → option (list (list Z * json_value));
  raw_json_token : json_value → list Z;
}.

Section table.
Context `{Roaring B, !Scratch B, !F14Ops, !ProtoOps, IDMappingOps M, !SimdjsonOps}.

Record RobimsTable := {
  _schema : TableSchema;
  _fields : gmap (list Z) (RobimsField B);
  _id_bitmap : RoaringBitmap B;
}.

(** [RobimsTable(id_mapping)]: a default message and no fields. *)
Definition empty_schema : TableSchema :=
  {| ts_name := []; ts_id_field := []; ts_index_field := []; ts_disable_local_id_creation := false |}.
Definition new_RobimsTable : RobimsTable :=
  {| _schema := empty_schema; _fields := ∅; _id_bitmap := null_bitmap |}.

Definition GetTableBitmap (t : RobimsTable) : B := get_bitmap (_id_bitmap t).

Fixpoint init_fields (metas : list FieldMeta) (fields : gmap (list Z) (RobimsField B))
    : Z * gmap (list Z) (RobimsField B) :=
  match metas with
  | [] => (0, fields)
  | meta :: metas =>
      match RobimsFieldBuilder_Build meta with
      | None => (-1, fields)
      | Some field => init_fields metas (<[fm_name meta := field]> fields)
      end
  end.

Definition RobimsTable_Init (t : RobimsTable) (schema : TableSchema) : Z * RobimsTable :=
  let '(rc, fields) := init_fields (ts_index_field schema) (_fields t) in
  (rc, {| _schema := schema; _fields := fields; _id_bitmap := NewCRoaringBitmap (_id_bitmap t) |}).

(** The text an identifier is looked up by: the string, or the digits as
    they stand in the document. *)
Definition id_view (id_result : json_value) : option (list Z) :=
  match get_string id_result with
  | Some s => Some s
  | None => if get_int64 id_result is Some _ then Some (raw_json_token id_result) else None
  end.

(** Return code, local identifier, mapping. *)
Definition GetLocalId (t : RobimsTable) (ids : M) (doc : json_doc) : Z * Z * M :=
  let id_result := find_field doc (ts_id_field (_schema t)) in
  if is_null id_result then (-1, 0, ids)
  else match id_view id_result with
       | None => (-1, 0, ids)
       | Some view =>
           let '(rc, id, ids) := GetLocalID ids view (negb (ts_disable_local_id_creation (_schema t))) in
           (if negb (0 =? rc) then -1 else 0, id, ids)
       end.

Definition GetField (t : RobimsTable) (field : list Z) : option (RobimsField B) := _fields t !! field.

Definition RobimsTable_Select (t : RobimsTable) (field : list Z) (op : FieldOperator)
    (arg : FieldArg) : Z * option B :=
  match _fields t !! field with
  | None => (ROBIMS_ERR_NOTFOUND, None)
  | Some found => RobimsField_Select found (GetTableBitmap t) op arg
  end.

(** The fields are removed from one by one, their return codes ignored. *)
Definition RobimsTable_Remove (garbage : Z) (t : RobimsTable) (ids : M) (json : list Z)
    : option (Z * RobimsTable * M) :=
  doc ← json_iterate json;
  let '(rc, id, ids) := GetLocalId t ids doc in
  if negb (0 =? rc) then Some (-1, t, ids)
  else Some (0, {| _schema := _schema t;
                   _fields := (λ f, (RobimsField_Remove garbage f id).2) <$> _fields t;
                   _id_bitmap := _id_bitmap t |}, ids).

(** ** Put *)

(** The loops over the elements of an array and the members of an object. *)
Fixpoint put_strings (f : RobimsField B) (id : Z) (l : list json_value)
    : option (Z * RobimsField B) :=
  match l with
  | [] => Some (0, f)
  | v :: l =>
      match get_string v with
      | None => Some (-1, f)
      | Some s => '(_, f) ← RobimsField_Put f id (PutString s); put_strings f id l
      end
  end.

Fixpoint put_weights (f : RobimsField B) (id : Z) (l : list (list Z * json_value))
    : option (Z * RobimsField B) :=
  match l with
  | [] => Some (0, f)
  | (key, val) :: l =>
      match get_double val with
      | None => Some (-1, f)
      | Some d =>
          '(_, f) ← RobimsField_Put f id (PutWeighted key (double_to_float d)); put_weights f id l
      end
  end.

(** The body of the loop over the fields: a non-zero code leaves [Put].  The
    set classes do not read the uninitialised local of [Remove]. *)
Definition put_field (f : RobimsField B) (id : Z) (field_result : json_value)
    : option (Z * RobimsField B) :=
  if json_error field_result
     && negb (bool_decide (fm_index_type (_meta f) = BOOL_INDEX)) then Some (0, f)
  else match fm_index_type (_meta f) with
  | SET_INDEX =>
      match get_array field_result with
      | None => Some (-1, f)
      | Some array => put_strings (RobimsField_Remove 0 f id).2 id array
      end
  | MUTEX_INDEX =>
      match get_string field_result with
      | None => Some (-1, f)
      | Some s =>
          '(_, f) ← RobimsField_Put (RobimsField_Remove 0 f id).2 id (PutString s); Some (0, f)
      end
  | BOOL_INDEX =>
      if json_error field_result then '(_, f) ← RobimsField_Put f id (PutInt 0); Some (0, f)
      else match get_bool field_result with
           | None => Some (-1, f)
           | Some b => '(_, f) ← RobimsField_Put f id (PutInt (Z.b2z b)); Some (0, f)
           end
  | WEIGHT_SET_INDEX =>
      match get_object field_result with
      | None => Some (-1, f)
      | Some members => put_weights (RobimsField_Remove 0 f id).2 id members
      end
  | INT_INDEX =>
      match get_int64 field_result with
      | None => Some (-1, f)
      | Some v => '(_, f) ← RobimsField_Put f id (PutInt v); Some (0, f)
      end
  | FLOAT_INDEX =>
      match get_double field_result with
      | None => Some (-1, f)
      | Some d => '(_, f) ← RobimsField_Put f id (PutFloat (double_to_float d)); Some (0, f)
      end
  | UNKNOWN_INDEX => Some (0, f)
  end.

Fixpoint put_loop (items : list (list Z * RobimsField B)) (id : Z) (doc : json_doc)
    (fields : gmap (list Z) (RobimsField B)) : option (Z * gmap (list Z) (RobimsField B)) :=
  match items with
  | [] => Some (0, fields)
  | (name, f) :: items =>
      '(rc, f) ← put_field f id (find_field_unordered doc name);
      let fields := <[name := f]> fields in
      if rc =? 0 then put_loop items id doc fields else Some (rc, fields)
  end.

Definition RobimsTable_Put (t : RobimsTable) (ids : M) (json : list Z)
    : option (Z * RobimsTable * M) :=
  match json_iterate json with
  | None => Some (-1, t, ids)
  | Some doc =>
      let '(rc, id, ids) := GetLocalId t ids doc in
      if negb (0 =? rc) then Some (-1, t, ids)
      else
        let id_bitmap := SetCRoaringBitmap (_id_bitmap t) (roaring_bitmap_add (GetTableBitmap t) id) in
        '(rc, fields) ← put_loop (f14_items (_fields t)) id doc (_fields t);
        Some (rc, {| _schema := _schema t; _fields := fields; _id_bitmap := id_bitmap |}, ids)
  end.

(** ** Persistence *)

Definition save_field (t : RobimsTable) (readonly : bool) (meta : FieldMeta) : Writer :=
  match _fields t !! fm_name meta with
  | None => λ fp, Some (-1, fp)
  | Some found => RobimsField_Save found readonly
  end.

Definition RobimsTable_Save (t : RobimsTable) (readonly : bool) : Writer :=
  file_write_string (serialize_schema (_schema t)) ;;ʷ
  RoaringBitmap_Save (_id_bitmap t) readonly ;;ʷ
  wr_each (save_field t readonly) (ts_index_field (_schema t)).

(** [None] outside: a null field is dereferenced. *)
Fixpoint load_fields (metas : list FieldMeta) (fields : gmap (list Z) (RobimsField B)) (fp : IFILE)
    : option (option (gmap (list Z) (RobimsField B)) * IFILE) :=
  match metas with
  | [] => Some (Some fields, fp)
  | meta :: metas =>
      field ← RobimsFieldBuilder_Build meta;
      match RobimsField_Load field fp with
      | (None, fp) => Some (None, fp)
      | (Some field, fp) => load_fields metas (<[fm_name meta := field]> fields) fp
      end
  end.

Definition RobimsTable_Load (t : RobimsTable) (fp : IFILE) : option (option RobimsTable * IFILE) :=
  match file_read_string fp with
  | (None, fp) => Some (None, fp)
  | (Some meta_bin, fp) =>
      match parse_schema meta_bin with
      | None => Some (None, fp)
      | Some schema =>
          match RoaringBitmap_Load fp with
          | (None, fp) => Some (None, fp)
          | (Some id_bitmap, fp) =>
              match load_fields (ts_index_field schema) ∅ fp with
              | None => None
              | Some (None, fp) => Some (None, fp)
              | Some (Some fields, fp) =>
                  Some (Some {| _schema := schema; _fields := fields; _id_bitmap := id_bitmap |}, fp)
              end
          end
      end
  end.
End table.

Arguments RobimsTable : clear implicits.
