(* ===== verification/TableSpec.v ===== *)
(** * TableSpec: what a table promises *)

From S2P Require Import Prelude Roaring Cache Common Float Schema Bsi BsiSpec BsiUpdate.
From S2P Require Import BsiIndex BsiTheorems BsiValues Fields FieldsSpec FieldsPersist IdMapping Table.

Section spec.
Context `{Roaring B, !Scratch B, !F14Ops, !F14, !ProtoOps, !Proto, IDMappingOps M, !SimdjsonOps}.
Implicit Types (t : RobimsTable B) (ids : M) (id : Z) (name json : list Z).

(** ** Put *)

(** The loop over the fields, in the order of the list, either updates every
    field as [put_field] says or stops at one that does not succeed. *)
Lemma put_loop_ok items id doc fields fields' :
  NoDup items.*1 →
  put_loop items id doc fields = Some (0, fields') ↔
  (∀ name f, (name, f) ∈ items →
     ∃ f', put_field f id (find_field_unordered doc name) = Some (0, f') ∧
           fields' !! name = Some f') ∧
  (∀ name, name ∉ items.*1 → fields' !! name = fields !! name).
Proof.
  revert fields. induction items as [|[n f] items IH]; intros fields Hnd; cbn [put_loop].
  { split.
    - intros [= ->]. split; [by intros ?? ?%elem_of_nil|done].
    - intros [_ Hs]. do 2 f_equal. symmetry. apply map_eq. intros. apply Hs, not_elem_of_nil. }
  rewrite fmap_cons in *. apply NoDup_cons in Hnd as [Hn Hnd]. simpl in Hn.
  destruct (put_field f id (find_field_unordered doc n)) as [[rc f1]|] eqn:E; simpl; last first.
  { split; [done|]. intros [Hall _]. destruct (Hall n f) as (f' & Hf & _); [left|]. congruence. }
  destruct (Z.eqb_spec rc 0) as [->|Hrc]; last first.
  { split; [by intros [= ->]|]. intros [Hall _].
    destruct (Hall n f) as (f' & Hf & _); [left|]. congruence. }
  rewrite IH by done. split.
  - intros [Hall Hs]. split.
    + intros name g. rewrite elem_of_cons. intros [[= -> ->]|?]; [|by apply Hall].
      exists f1. rewrite E, Hs, lookup_insert_eq by done. done.
    + intros name [Hne Hnot]%not_elem_of_cons. by rewrite Hs, lookup_insert_ne by done.
  - intros [Hall Hs]. split; [intros; apply Hall; by right|]. intros name Hnot.
    destruct (decide (name = n)) as [->|Hne].
    + destruct (Hall n f) as (f' & Hf & ->); [left|]. rewrite lookup_insert_eq. congruence.
    + rewrite Hs, lookup_insert_ne by (by rewrite ?not_elem_of_cons). done.
Qed.

Lemma items_fields t name f : (name, f) ∈ f14_items (_fields t) ↔ _fields t !! name = Some f.
Proof. by rewrite f14_items_perm, elem_of_map_to_list. Qed.

(** A put that succeeds: the document and its number, and every field updated. *)
Lemma RobimsTable_Put_inv t ids json t' ids' :
  RobimsTable_Put t ids json = Some (0, t', ids') →
  ∃ doc id, json_iterate json = Some doc ∧ GetLocalId t ids doc = (0, id, ids') ∧
    (∀ x, (GetTableBitmap t').[x] = (id =? x) || (GetTableBitmap t).[x]) ∧
    ∀ name f, _fields t !! name = Some f →
      ∃ f', put_field f id (find_field_unordered doc name) = Some (0, f') ∧ _fields t' !! name = Some f'.
Proof.
  unfold RobimsTable_Put. destruct (json_iterate json) as [doc|]; [|done].
  destruct (GetLocalId t ids doc) as [[rc id] ids1] eqn:Hid.
  destruct (Z.eqb_spec 0 rc) as [<-|]; cbn [negb]; [|by intros [=]].
  destruct (put_loop _ id doc _) as [[rc fields']|] eqn:Eloop; [|done]. cbn [mbind option_bind].
  intros [= -> <- <-]. exists doc, id. split_and!; [done|done| |].
  - intros x. unfold GetTableBitmap at 1. simpl. unfold get_bitmap. simpl. by autorewrite with bitmap.
  - apply put_loop_ok in Eloop as [Hall _]; [|rewrite f14_items_perm; apply NoDup_fst_map_to_list].
    intros name f Hf. apply Hall. by apply items_fields.
Qed.

(** ** Set fields of a table *)

Lemma put_strings_models f id bms abs l ss :
  _impl f = SetField bms → set_models bms abs → get_string <$> l = Some <$> ss →
  ∃ f' bms', put_strings f id l = Some (0, f') ∧ _meta f' = _meta f ∧ _impl f' = SetField bms' ∧
    set_models bms' (foldl (λ abs s, abs_set_op abs (SetPut id s)) abs ss).
Proof.
  revert f bms abs ss. induction l as [|v l IH]; intros f bms abs [|s ss] Hf Hm Hl; try done.
  { simpl. eauto 10. }
  rewrite !fmap_cons in Hl. injection Hl as Hv Hl. cbn [put_strings]. rewrite Hv.
  unfold RobimsField_Put. rewrite Hf. simpl.
  destruct (IH {| _meta := _meta f; _impl := SetField (RobimsSetField_Put bms id s) |} _
    (abs_set_op abs (SetPut id s)) ss eq_refl) as (f' & bms' & E & Hm' & Hi & Hs);
    [by apply set_put_models|done|]. eauto 10.
Qed.

(** The names an identifier is in after it was put with [ss]. *)
Lemma abs_puts_elem abs id ss name x :
  x ∈ default ∅ (foldl (λ abs s, abs_set_op abs (SetPut id s)) abs ss !! name) ↔
  x ∈ default ∅ (abs !! name) ∨ (x = id ∧ name ∈ ss).
Proof.
  revert abs. induction ss as [|s ss IH]; intros abs; simpl.
  { rewrite elem_of_nil. tauto. }
  rewrite IH. simpl. rewrite elem_of_cons. destruct (decide (s = name)) as [->|Hne].
  - rewrite lookup_insert_eq. simpl. rewrite elem_of_union, elem_of_singleton. tauto.
  - rewrite lookup_insert_ne by done. naive_solver.
Qed.

(** What a set field answers for a name, as a set. *)
Lemma set_select_models bms abs table name :
  set_models bms abs →
  match RobimsSetField_Select bms table FIELD_OP_EQ (ArgString name) with
  | (rc, Some b) => rc = 0 ∧ ∀ x, b.[x] = bool_decide (x ∈ default ∅ (abs !! name))
  | (rc, None) => rc = ROBIMS_ERR_NOTFOUND ∧ abs !! name = None
  end.
Proof.
  intros Hm. unfold RobimsSetField_Select, set_select. specialize (Hm name).
  destruct Hm as [bm S [_ (b & Hb & Hin)]|]; simpl; [|done]. split; [done|]. intros x.
  unfold get_bitmap. rewrite Hb. simpl. autorewrite with bitmap. apply Hin.
Qed.

(** An array that was put into a set field has only strings. *)
Lemma put_strings_all f id bms l f' :
  _impl f = SetField bms → put_strings f id l = Some (0, f') → ∃ ss, get_string <$> l = Some <$> ss.
Proof.
  revert f bms. induction l as [|v l IH]; intros f bms Hf; cbn [put_strings]; [by exists []|].
  destruct (get_string v) as [s|] eqn:Hv; [|done]. unfold RobimsField_Put. rewrite Hf. cbn [mbind option_bind].
  intros Hl. destruct (IH {| _meta := _meta f; _impl := SetField (RobimsSetField_Put bms id s) |} _ eq_refl Hl) as [ss Hss].
  exists (s :: ss). by rewrite !fmap_cons, Hv, Hss.
Qed.

(** A member that is put into a set field replaces what the identifier was in. *)
Lemma put_field_set f id v f' bms abs :
  put_field f id v = Some (0, f') → fm_index_type (_meta f) = SET_INDEX → json_error v = false →
  _impl f = SetField bms → set_models bms abs →
  ∃ array ss bms', get_array v = Some array ∧ get_string <$> array = Some <$> ss ∧ _impl f' = SetField bms' ∧
    set_models bms' (foldl (λ abs s, abs_set_op abs (SetPut id s)) (abs_set_op abs (SetRemove id)) ss).
Proof.
  unfold put_field. intros Hp Hty Herr Hi Hm. rewrite Herr, Hty in Hp. cbn [andb] in Hp.
  destruct (get_array v) as [array|] eqn:Ha; [|done]. unfold RobimsField_Remove in Hp. rewrite Hi in Hp. cbn [snd] in Hp.
  destruct (put_strings_all {| _meta := _meta f; _impl := SetField (RobimsSetField_Remove bms id) |}
    id (RobimsSetField_Remove bms id) array f' eq_refl Hp) as [ss Hss].
  destruct (put_strings_models {| _meta := _meta f; _impl := SetField (RobimsSetField_Remove bms id) |}
    id _ (abs_set_op abs (SetRemove id)) array ss eq_refl) as (f2 & bms2 & E & _ & Hi2 & Hs2);
    [by apply set_remove_models|done|]. rewrite E in Hp. injection Hp as <-. by exists array, ss, bms2.
Qed.

Lemma abs_puts_none abs id l s :
  foldl (λ abs s, abs_set_op abs (SetPut id s)) abs l !! s = None → (s ∉ l) ∧ abs !! s = None.
Proof.
  revert abs. induction l as [|y l IH]; intros a Ha; simpl in *; [set_solver|].
  apply IH in Ha as [Hs Ha]. apply lookup_insert_None in Ha as [? ?]. set_solver.
Qed.

(** What a set field answers after an identifier was removed from every name and
    put under the names [ss]. *)
Lemma replaced_select bms abs id ss table s :
  set_models bms (foldl (λ abs s, abs_set_op abs (SetPut id s)) (abs_set_op abs (SetRemove id)) ss) →
  match RobimsSetField_Select bms table FIELD_OP_EQ (ArgString s) with
  | (rc, Some b) => rc = 0 ∧ ∀ x, b.[x] = if x =? id then bool_decide (s ∈ ss)
                                         else bool_decide (x ∈ default ∅ (abs !! s))
  | (rc, None) => rc = ROBIMS_ERR_NOTFOUND ∧ (s ∉ ss) ∧ abs !! s = None
  end.
Proof.
  intros Hm. pose proof (set_select_models bms _ table s Hm) as Hsel.
  destruct (RobimsSetField_Select _ _ _ _) as [rc [b|]].
  - destruct Hsel as [-> Hb]. split; [done|]. intros x. rewrite Hb.
    rewrite (bool_decide_ext _ _ (abs_puts_elem (abs_set_op abs (SetRemove id)) id ss s x)).
    simpl. rewrite lookup_fmap. destruct (Z.eqb_spec x id) as [->|Hne]; apply bool_decide_ext; destruct (abs !! s); set_solver.
  - destruct Hsel as [-> Hnone]. split; [done|]. apply abs_puts_none in Hnone as [? Hno]. split; [done|].
    simpl in Hno. by rewrite lookup_fmap, fmap_None in Hno.
Qed.

(** An integer of the range that is put into an integer field is stored. *)
Lemma put_field_int f id v f' bsi lo hi_ mi z :
  put_field f id v = Some (0, f') → fm_index_type (_meta f) = INT_INDEX → json_error v = false →
  _impl f = IntField bsi → int_models bsi lo hi_ mi → _limit_topk (_options bsi) = 0 →
  get_int64 v = Some z → lo <= z <= hi_ →
  ∃ bsi', _impl f' = IntField bsi' ∧ int_models bsi' lo hi_ (<[id := z]> mi).
Proof.
  unfold put_field. intros Hp Hty Herr Hi Hm Hl Hz Hr. rewrite Herr, Hty, Hz in Hp. cbn [andb] in Hp.
  unfold RobimsField_Put in Hp. rewrite Hi in Hp. unfold RobimsIntField_Put in Hp.
  destruct (int_put bsi lo hi_ mi id z Hm Hr Hl) as (bsi' & E & Hm' & _). rewrite E in Hp.
  injection Hp as <-. by exists bsi'.
Qed.

(** C34. A [Put] that returns 0 has parsed the document and found or made its
    number, which is in the table afterwards.  Then, field by field: where the
    document has a member for a set field, it is an array of strings, and a query
    for a string returns the document exactly if the array has the string,
    whatever the field had for it before, and all other documents as before; an
    integer of the range is stored as the document's number in an integer field,
    in place of an older one; and a field, other than a bool one, without a member
    in the document stays as it was. *)
Theorem table_put_query t ids json t' ids' :
  RobimsTable_Put t ids json = Some (0, t', ids') →
  ∃ doc id, json_iterate json = Some doc ∧ GetLocalId t ids doc = (0, id, ids') ∧
    (∀ x, (GetTableBitmap t').[x] = (id =? x) || (GetTableBitmap t).[x]) ∧
    ∀ field f, _fields t !! field = Some f →
      let member := find_field_unordered doc field in
      (∀ bms abs, fm_index_type (_meta f) = SET_INDEX → _impl f = SetField bms → set_models bms abs →
         json_error member = false →
         ∃ array ss, get_array member = Some array ∧ get_string <$> array = Some <$> ss ∧
         ∀ s, match RobimsTable_Select t' field FIELD_OP_EQ (ArgString s) with
              | (rc, Some b) => rc = 0 ∧ ∀ x, b.[x] = if x =? id then bool_decide (s ∈ ss)
                                                     else bool_decide (x ∈ default ∅ (abs !! s))
              | (rc, None) => rc = ROBIMS_ERR_NOTFOUND ∧ (s ∉ ss) ∧ abs !! s = None
              end) ∧
      (∀ bsi lo hi_ mi z, fm_index_type (_meta f) = INT_INDEX → _impl f = IntField bsi → int_models bsi lo hi_ mi →
         _limit_topk (_options bsi) = 0 → json_error member = false → get_int64 member = Some z → lo <= z <= hi_ →
         ∃ f' bsi', _fields t' !! field = Some f' ∧ _impl f' = IntField bsi' ∧ int_models bsi' lo hi_ (<[id := z]> mi)) ∧
      (json_error member = true → fm_index_type (_meta f) ≠ BOOL_INDEX → _fields t' !! field = Some f).
Proof.
  intros (doc & id & Hdoc & Hid & Hb & Hall)%RobimsTable_Put_inv. exists doc, id. split_and!; [done..|].
  intros field f Hf member. destruct (Hall field f Hf) as (f' & Hp & Hf'). fold member in Hp. split_and!.
  - intros bms abs Hty Hi Hm Herr.
    destruct (put_field_set f id member f' bms abs Hp Hty Herr Hi Hm) as (array & ss & bms' & Ha & Hss & Hi' & Hm').
    exists array, ss. split_and!; [done..|]. intros s. unfold RobimsTable_Select. rewrite Hf'.
    unfold RobimsField_Select. rewrite Hi'. by apply replaced_select.
  - intros bsi lo hi_ mi z Hty Hi Hm Hl Herr Hz Hr.
    destruct (put_field_int f id member f' bsi lo hi_ mi z) as (bsi' & Hi' & Hm'); [done..|]. by exists f', bsi'.
  - intros Herr Hty. unfold put_field in Hp. rewrite Herr, bool_decide_eq_false_2 in Hp by done.
    cbn [andb negb] in Hp. injection Hp as <-. done.
Qed.

(** ** Remove *)

(** Removing a document takes its identifier out of every name of the
    set fields, but leaves it in the table's own bitmap and leaves every
    number of the integer fields as it was. *)
Theorem RobimsTable_Remove_effect garbage t ids json t' ids' :
  RobimsTable_Remove garbage t ids json = Some (0, t', ids') →
  ∃ doc id, json_iterate json = Some doc ∧ GetLocalId t ids doc = (0, id, ids') ∧
    GetTableBitmap t' = GetTableBitmap t ∧
    (∀ name f bms abs, _fields t !! name = Some f → _impl f = SetField bms → set_models bms abs →
       ∃ f' bms', _fields t' !! name = Some f' ∧ _impl f' = SetField bms' ∧
         set_models bms' ((λ S, S ∖ {[id]}) <$> abs)) ∧
    (∀ name f bsi m, _fields t !! name = Some f → _impl f = IntField bsi → models bsi m →
       (_bit_depth bsi <= 64)%nat →
       ∃ f' bsi', _fields t' !! name = Some f' ∧ _impl f' = IntField bsi' ∧ models bsi' m).
Proof.
  unfold RobimsTable_Remove. destruct (json_iterate json) as [doc|] eqn:Hdoc; [|done].
  cbn [mbind option_bind]. destruct (GetLocalId t ids doc) as [[rc id] ids1] eqn:Hid.
  destruct (Z.eqb_spec 0 rc) as [<-|]; simpl; [|discriminate].
  intros [= <- <-]. exists doc, id. split_and!; [done..| |]; simpl.
  - intros name f bms abs Hf Hi Hm. rewrite lookup_fmap, Hf. simpl. eexists _, _.
    split_and!; [done| |by apply (set_remove_models bms abs id)].
    unfold RobimsField_Remove. by rewrite Hi.
  - intros name f bsi m Hf Hi Hm Hd. rewrite lookup_fmap, Hf. simpl. eexists _, _.
    split_and!; [done|unfold RobimsField_Remove; by rewrite Hi|].
    by apply int_remove_keeps.
Qed.

(** ** Persistence *)

(** The field [f] can be saved, and loaded into the field built for [meta]. *)
Definition field_reloadable (readonly : bool) (meta : FieldMeta) (f : RobimsField B) : Prop :=
  ∃ f0, RobimsFieldBuilder_Build meta = Some f0 ∧ field_savable readonly f ∧
        same_class (_impl f) (_impl f0).

Definition field_equiv (f f' : RobimsField B) : Prop :=
  _meta f' = _meta f ∧ impl_equiv (_impl f) (_impl f').

Record table_savable (readonly : bool) t : Prop := {
  ts_schema_ok : str_savable (serialize_schema (_schema t));
  ts_bitmap_ok : savable readonly (_id_bitmap t);
  ts_names : NoDup (fm_name <$> ts_index_field (_schema t));
  ts_fields meta : meta ∈ ts_index_field (_schema t) →
    ∃ f, _fields t !! fm_name meta = Some f ∧ field_reloadable readonly meta f;
  ts_only name f : _fields t !! name = Some f → name ∈ fm_name <$> ts_index_field (_schema t);
}.

Lemma load_fields_reads readonly t metas acc :
  NoDup (fm_name <$> metas) →
  (∀ meta, meta ∈ metas → ∃ f, _fields t !! fm_name meta = Some f ∧ field_reloadable readonly meta f) →
  ∃ bytes fields', writes (wr_each (save_field t readonly) metas) bytes ∧
    (∀ rest, load_fields metas acc (bytes ++ rest) = Some (Some fields', rest)) ∧
    (∀ meta, meta ∈ metas →
       option_Forall2 field_equiv (_fields t !! fm_name meta) (fields' !! fm_name meta)) ∧
    (∀ name, name ∉ fm_name <$> metas → fields' !! name = acc !! name).
Proof.
  revert acc. induction metas as [|meta metas IH]; intros acc Hnd Hall.
  { exists [], acc. split_and!; [apply wr_ok_writes|done|by intros ? ?%elem_of_nil|done]. }
  rewrite fmap_cons, NoDup_cons in Hnd. destruct Hnd as [Hn Hnd].
  destruct (Hall meta) as (f & Hf & f0 & Hb & Hs & Hc); [left|].
  destruct (field_roundtrip readonly f f0 Hs Hc) as (b1 & f' & Hw1 & Hr1 & Hm1 & He1).
  destruct (IH (<[fm_name meta := f']> acc) Hnd) as (b2 & fields' & Hw2 & Hr2 & He2 & Ho2).
  { intros. apply Hall. by right. }
  exists (b1 ++ b2), fields'. split_and!.
  - apply wr_seq_writes; [|done]. unfold save_field. by rewrite Hf.
  - intros rest. cbn [load_fields]. rewrite Hb. cbn [mbind option_bind].
    by rewrite <-app_assoc, Hr1, Hr2.
  - intros m. rewrite elem_of_cons. intros [->|?]; [|by apply He2].
    rewrite Hf, Ho2, lookup_insert_eq by done. by constructor.
  - intros name [? ?]%not_elem_of_cons. by rewrite Ho2, lookup_insert_ne by done.
Qed.

Lemma table_roundtrip readonly t t0 :
  table_savable readonly t →
  ∃ bytes t', writes (RobimsTable_Save t readonly) bytes ∧
    (∀ rest, RobimsTable_Load t0 (bytes ++ rest) = Some (Some t', rest)) ∧
    _schema t' = _schema t ∧ GetTableBitmap t' ≡ GetTableBitmap t ∧
    ∀ name, option_Forall2 field_equiv (_fields t !! name) (_fields t' !! name).
Proof.
  intros [Hsc Hbm Hnd Hfs Hon].
  destruct (RoaringBitmap_Load_reads _ readonly Hbm) as (b' & Hrb & Heq).
  destruct (load_fields_reads readonly t (ts_index_field (_schema t)) ∅ Hnd Hfs)
    as (bytes & fields' & Hw & Hr & He & Ho).
  eexists _, {| _schema := _schema t; _fields := fields'; _id_bitmap := _ |}. split_and!; simpl.
  - apply wr_seq_writes; [by apply str_writes|].
    apply wr_seq_writes; [by apply RoaringBitmap_Save_writes|done].
  - intros rest. unfold RobimsTable_Load. rewrite <-!app_assoc, (str_reads _ Hsc).
    by rewrite parse_serialize_schema, Hrb, Hr.
  - done.
  - exact Heq.
  - intros name. destruct (decide (name ∈ fm_name <$> ts_index_field (_schema t))) as [Hin|Hnot].
    + apply list_elem_of_fmap in Hin as (meta & -> & Hin). by apply He.
    + rewrite Ho, lookup_empty by done.
      destruct (_fields t !! name) as [f|] eqn:E; [|constructor]. by apply Hon in E.
Qed.

(** A table that can be saved is written completely to a file with
    enough room and read back by any table object with the same schema, the
    same set of identifiers and, field by field, the same contents. *)
Theorem RobimsTable_Save_Load readonly t t0 :
  table_savable readonly t →
  ∃ bytes t',
    (∀ pre extra, RobimsTable_Save t readonly {| written := pre; room := length bytes + extra |}
                  = Some (0, {| written := pre ++ bytes; room := extra |})) ∧
    (∀ rest, RobimsTable_Load t0 (bytes ++ rest) = Some (Some t', rest)) ∧
    _schema t' = _schema t ∧ GetTableBitmap t' ≡ GetTableBitmap t ∧
    ∀ name, option_Forall2 field_equiv (_fields t !! name) (_fields t' !! name).
Proof. apply table_roundtrip. Qed.
End spec.
