(* ===== verification/Query.v ===== *)
(** * Query: the query language (robims_query.cpp, robims_query.h)

    The syntax tree, the pass that resolves variables to fields
    ([Initializer]), the operators ([QueryCalc]) and the evaluation
    ([QueryInterpreter]).  The Boost.Spirit parser that builds the tree is a
    parameter of the database (Db.v).

    A [RobimsField*] is the identity of a table object with a field name,
    because a cached query keeps the pointer while the table may be replaced;
    [deref] reads it, and is [None] once the object is gone.  [None] as a
    result means undefined behaviour (a dangling pointer, an overflow of signed
    arithmetic, a division by zero).  The text of an error is only logged and is
    left out. *)

From Corelib Require Import SpecFloat.
From S2P Require Import Prelude Roaring Cache Common Float Schema Bsi Fields.

Inductive Optoken :=
| op_plus | op_minus | op_times | op_divide | op_positive | op_negative
| op_equal | op_not_equal | op_less | op_less_equal | op_greater | op_greater_equal
| op_and | op_or | op_and_not.

#[export] Instance Optoken_eq_dec : EqDecision Optoken.
Proof. solve_decision. Defined.

Definition FieldPtr : Type := nat * list Z.

(** [struct Operand], with the structures it may hold. *)
Inductive Operand :=
| Nil
| OInt (n : Z)
| ODouble (d : double)
| OBool (b : bool)
| OString (s : list Z)
| OVariable (v : list (list Z)) (field : option FieldPtr)
| DynamicVariable (v : list (list Z))
| FuncCall (func : list Z) (args : list Operand)
| Unary (operator_ : Optoken) (operand_ : Operand)
| CondExpr (lhs rhs_true rhs_false : Operand)
| Expression (first : Operand) (rest : list (Optoken * Operand)).

(** ** Initializer *)

(** A step of the pass: undefined behaviour, an error code, or a result. *)
Definition InitResult (A : Type) : Type := option (Z + A).
Definition init_bind {A C} (m : InitResult A) (k : A → InitResult C) : InitResult C :=
  match m with
  | None => None
  | Some (inl rc) => Some (inl rc)
  | Some (inr a) => k a
  end.
Notation "x ←ⁱ m ; k" := (init_bind m (λ x, k))
  (at level 20, m at level 100, k at level 200) : robims_scope.

Section initializer.
(** [db->GetTable(name)] and [table->GetField(name)]. *)
Context (get_table : list Z → option (option nat)) (get_field : nat → list Z → bool).

(** A missing field is not reported: the test after [GetField] looks at
    [table] again, so the variable is left without a field. *)
Definition init_variable (v : list (list Z)) : InitResult (option FieldPtr) :=
  match v with
  | [table; field] =>
      match get_table table with
      | None => None
      | Some None => Some (inl ROBIMS_QUERY_ERR_INVALID_TABLE_NAME)
      | Some (Some t) => Some (inr (if get_field t field then Some (t, field) else None))
      end
  | _ => Some (inl ROBIMS_QUERY_ERR_INVALID_FIELD_ARGS)
  end.

(** The tree with its variables resolved. *)
Fixpoint Initializer (n : Operand) : InitResult Operand :=
  match n with
  | OVariable v _ => field ←ⁱ init_variable v; Some (inr (OVariable v field))
  | Unary op x => x ←ⁱ Initializer x; Some (inr (Unary op x))
  | CondExpr c a b =>
      c ←ⁱ Initializer c; a ←ⁱ Initializer a; b ←ⁱ Initializer b; Some (inr (CondExpr c a b))
  | Expression first rest =>
      first ←ⁱ Initializer first;
      rest ←ⁱ (fix init_rest (rest : list (Optoken * Operand))
                : InitResult (list (Optoken * Operand)) :=
                match rest with
                | [] => Some (inr [])
                | (op, x) :: rest =>
                    x ←ⁱ Initializer x; rest ←ⁱ init_rest rest; Some (inr ((op, x) :: rest))
                end) rest;
      Some (inr (Expression first rest))
  | n => Some (inr n)
  end.
End initializer.

(** ** Values *)

Section values.
Context `{Roaring B, !Scratch B}.

(** [RobimsQueryValue]; the error comes first, so a default-constructed value
    is an error with code -1. *)
Inductive QueryValue :=
| QError (code : Z)
| QBool (b : bool)
| QInt (n : Z)
| QDouble (d : double)
| QString (s : list Z)
| QField (f : FieldPtr)
| QBitmap (b : B).

Definition default_value : QueryValue := QError (-1).

(** [deref f] is the field and the bitmap of its table. *)
Context (deref : FieldPtr → option (RobimsField B * B)).

(** Signed arithmetic, where it is defined. *)
Definition int64_result (z : Z) : option QueryValue :=
  if bool_decide (- 2 ^ 63 <= z < 2 ^ 63) then Some (QInt z) else None.

Definition int_arith (op : Optoken) (a b : Z) : option QueryValue :=
  match op with
  | op_plus => int64_result (a + b)
  | op_minus => int64_result (a - b)
  | op_times => int64_result (a * b)
  | _ => if b =? 0 then None else int64_result (Z.quot a b)
  end.

Definition double_arith (op : Optoken) (a b : double) : QueryValue :=
  QDouble match op with
          | op_plus => SFadd 53 1024 a b
          | op_minus => SFsub 53 1024 a b
          | op_times => SFmul 53 1024 a b
          | _ => SFdiv 53 1024 a b
          end.

Definition calc_arith (op : Optoken) (left right : QueryValue) : option QueryValue :=
  match left, right with
  | QInt a, QInt b => int_arith op a b
  | QInt a, QDouble b => Some (double_arith op (int_to_double a) b)
  | QDouble a, QInt b => Some (double_arith op a (int_to_double b))
  | QDouble a, QDouble b => Some (double_arith op a b)
  | _, _ => Some default_value
  end.

(** [a < b] on byte strings. *)
Fixpoint str_ltb (a b : list Z) : bool :=
  match a, b with
  | _, [] => false
  | [], _ :: _ => true
  | x :: a, y :: b => (x <? y) || ((x =? y) && str_ltb a b)
  end.

(** The comparison [op] from equality and strict order, which all fail on a
    NaN. *)
Definition compare_with (op : Optoken) (eq lt gt : bool) : bool :=
  match op with
  | op_equal => eq
  | op_not_equal => negb eq
  | op_less => lt
  | op_less_equal => lt || eq
  | op_greater => gt
  | _ => gt || eq
  end.

Definition double_compare (op : Optoken) (a b : double) : bool :=
  compare_with op (SFeqb a b) (SFltb a b) (SFltb b a).

(** Comparison of two plain values, where the code has one. *)
Definition plain_compare (op : Optoken) (left right : QueryValue) : option bool :=
  match left, right with
  | QInt a, QInt b => Some (compare_with op (a =? b) (a <? b) (b <? a))
  | QInt a, QDouble b => Some (double_compare op (int_to_double a) b)
  | QDouble a, QInt b => Some (double_compare op a (int_to_double b))
  | QDouble a, QDouble b => Some (double_compare op a b)
  | QString a, QString b =>
      Some (compare_with op (bool_decide (a = b)) (str_ltb a b) (str_ltb b a))
  | _, _ => None
  end.

(** The argument a field is compared with; strings only for (in)equality. *)
Definition field_arg (op : Optoken) (v : QueryValue) : option FieldArg :=
  match v with
  | QInt n => Some (ArgInt n)
  | QDouble d => Some (ArgDouble d)
  | QString s =>
      match op with op_equal | op_not_equal => Some (ArgString s) | _ => None end
  | _ => None
  end.

(** The operator of a field on the left, and of one on the right. *)
Definition op_left (op : Optoken) : FieldOperator :=
  match op with
  | op_equal => FIELD_OP_EQ
  | op_not_equal => FIELD_OP_NEQ
  | op_less => FIELD_OP_LT
  | op_less_equal => FIELD_OP_LTE
  | op_greater => FIELD_OP_GT
  | _ => FIELD_OP_GTE
  end.
Definition op_right (op : Optoken) : FieldOperator :=
  match op with
  | op_equal => FIELD_OP_EQ
  | op_not_equal => FIELD_OP_NEQ
  | op_less => FIELD_OP_GT
  | op_less_equal => FIELD_OP_GTE
  | op_greater => FIELD_OP_LT
  | _ => FIELD_OP_LTE
  end.

(** [field->Select(op, arg, out)]: the bitmap, or its return code. *)
Definition select_value (f : FieldPtr) (op : FieldOperator) (arg : FieldArg) : option QueryValue :=
  '(field, table) ← deref f;
  match RobimsField_Select field table op arg with
  | (rc, Some out) => Some (if 0 =? rc then QBitmap out else QError rc)
  | (rc, None) => Some (QError rc)
  end.

Definition calc_compare (op : Optoken) (left right : QueryValue) : option QueryValue :=
  match plain_compare op left right with
  | Some b => Some (QBool b)
  | None =>
      match left, right with
      | QField f, v =>
          match field_arg op v with
          | Some arg => select_value f (op_left op) arg
          | None => Some (QError ROBIMS_QUERY_ERR_INVALID_OPERAND)
          end
      | v, QField f =>
          match field_arg op v with
          | Some arg => select_value f (op_right op) arg
          | None => Some (QError ROBIMS_QUERY_ERR_INVALID_OPERAND)
          end
      | _, _ => Some (QError ROBIMS_QUERY_ERR_INVALID_OPERAND)
      end
  end.

(** The six cases of the switch repeat the same code. *)
Definition calc_equal := calc_compare op_equal.
Definition calc_not_equal := calc_compare op_not_equal.
Definition calc_less := calc_compare op_less.
Definition calc_less_equal := calc_compare op_less_equal.
Definition calc_greater := calc_compare op_greater.
Definition calc_greater_equal := calc_compare op_greater_equal.

Definition calc_logic (fb : bool → bool → bool) (fm : B → B → B) (left right : QueryValue)
    : QueryValue :=
  match left, right with
  | QBool a, QBool b => QBool (fb a b)
  | QBitmap a, QBitmap b => QBitmap (fm a b)
  | _, _ => QError ROBIMS_QUERY_ERR_INVALID_OPERAND
  end.

(** The two tests for an error operand compare reference types with a plain
    type, are never true, and leave no code. *)
Definition QueryCalc (op : Optoken) (left right : QueryValue) : option QueryValue :=
  match op with
  | op_plus | op_minus | op_times | op_divide => calc_arith op left right
  | op_equal => calc_equal left right
  | op_not_equal => calc_not_equal left right
  | op_less => calc_less left right
  | op_less_equal => calc_less_equal left right
  | op_greater => calc_greater left right
  | op_greater_equal => calc_greater_equal left right
  | op_and => Some (calc_logic andb roaring_bitmap_and_inplace left right)
  | op_or => Some (calc_logic orb roaring_bitmap_or_inplace left right)
  | op_positive | op_negative | op_and_not => Some (QError ROBIMS_QUERY_ERR_INVALID_OPERATOR)
  end.

Definition calc_unary (op : Optoken) (v : QueryValue) : option QueryValue :=
  match op with
  | op_positive =>
      Some match v with
           | QInt n => QInt n
           | QDouble d => QDouble d
           | _ => QError ROBIMS_QUERY_ERR_INVALID_OPERAND
           end
  | op_negative =>
      match v with
      | QInt n => int64_result (0 - n)
      | QDouble d => Some (QDouble (SFsub 53 1024 (S754_zero false) d))
      | _ => Some (QError ROBIMS_QUERY_ERR_INVALID_OPERAND)
      end
  | _ => Some (QError ROBIMS_QUERY_ERR_INVALID_OPERATOR)
  end.

(** ** QueryInterpreter *)

Fixpoint QueryInterpreter (n : Operand) : option QueryValue :=
  match n with
  | Nil | DynamicVariable _ | FuncCall _ _ => Some default_value
  | OInt n => Some (QInt n)
  | ODouble d => Some (QDouble d)
  | OBool b => Some (QBool b)
  | OString s => Some (QString s)
  | OVariable _ None => Some (QError ROBIMS_QUERY_ERR_EMPTY_FIELD_INSTANCE)
  | OVariable _ (Some f) => Some (QField f)
  | Unary op x => v ← QueryInterpreter x; calc_unary op v
  | CondExpr c a b =>
      test ← QueryInterpreter c;
      match test with
      | QBool true => QueryInterpreter a
      | QBool false => QueryInterpreter b
      | _ => Some test
      end
  | Expression first rest =>
      state ← QueryInterpreter first;
      (fix eval_rest (state : QueryValue) (rest : list (Optoken * Operand)) {struct rest}
           : option QueryValue :=
         match rest with
         | [] => Some state
         | (op, x) :: rest =>
             rhs ← QueryInterpreter x;
             state ← QueryCalc op state rhs;
             eval_rest state rest
         end) state rest
  end.
End values.

Arguments QueryValue : clear implicits.
