(* ===== verification/QuerySpec.v ===== *)
(** * QuerySpec: what evaluating a query yields *)

From Corelib Require Import SpecFloat.
From S2P Require Import Prelude Roaring Cache Common Float Schema Bsi BsiSpec.
From S2P Require Import BsiIndex BsiTheorems BsiValues Fields Query.

Section spec.
Context `{Roaring B, !Scratch B}.
Context (deref : FieldPtr → option (RobimsField B * B)).
Implicit Types (op : Optoken) (v : QueryValue B).

(** ** A type system for queries *)

Inductive field_kind := KBool | KInt | KFloat.
Inductive qtype := TBool | TInt | TDouble | TString | TField (k : field_kind) | TSet.

Definition kind_of (impl : field_impl B) : option field_kind :=
  match impl with
  | BoolField _ => Some KBool
  | IntField _ => Some KInt
  | FloatField _ => Some KFloat
  | _ => None
  end.

Definition points_to (f : FieldPtr) (k : field_kind) : Prop :=
  ∃ field table, deref f = Some (field, table) ∧ kind_of (_impl field) = Some k.

Definition is_compare op : Prop :=
  op ∈ [op_equal; op_not_equal; op_less; op_less_equal; op_greater; op_greater_equal].
Definition is_logic op : Prop := op = op_and ∨ op = op_or.
Definition is_arith op : Prop := op ∈ [op_plus; op_minus; op_times; op_divide].
Definition is_number (t : qtype) : Prop := t = TInt ∨ t = TDouble.

(** A field of the kind can be compared by the operator with the type. *)
Definition comparable (k : field_kind) op (t : qtype) : Prop :=
  match k with
  | KBool => (op = op_equal ∨ op = op_not_equal) ∧ t = TInt
  | KInt => is_compare op ∧ t = TInt
  | KFloat => is_compare op ∧ is_number t
  end.

Inductive op_type : Optoken → qtype → qtype → qtype → Prop :=
| ot_field_left op k t : comparable k op t → op_type op (TField k) t TSet
| ot_field_right op k t : comparable k op t → op_type op t (TField k) TSet
| ot_numbers op t u : is_compare op → is_number t → is_number u → op_type op t u TBool
| ot_strings op : is_compare op → op_type op TString TString TBool
| ot_sets op : is_logic op → op_type op TSet TSet TSet
| ot_bools op : is_logic op → op_type op TBool TBool TBool
| ot_arith op t u :
    is_arith op → is_number t → is_number u → t = TDouble ∨ u = TDouble → op_type op t u TDouble.

Inductive typed : Operand → qtype → Prop :=
| ty_int n : typed (OInt n) TInt
| ty_double d : typed (ODouble d) TDouble
| ty_bool b : typed (OBool b) TBool
| ty_string s : typed (OString s) TString
| ty_variable path f k : points_to f k → typed (OVariable path (Some f)) (TField k)
| ty_negate x : typed x TDouble → typed (Unary op_negative x) TDouble
| ty_cond c a b t : typed c TBool → typed a t → typed b t → typed (CondExpr c a b) t
| ty_expression first rest t u :
    typed first t → typed_rest t rest u → typed (Expression first rest) u
with typed_rest : qtype → list (Optoken * Operand) → qtype → Prop :=
| ty_nil t : typed_rest t [] t
| ty_cons t op x u t' rest t'' :
    typed x u → op_type op t u t' → typed_rest t' rest t'' →
    typed_rest t ((op, x) :: rest) t''.

Scheme typed_mind := Minimality for typed Sort Prop
  with typed_rest_mind := Minimality for typed_rest Sort Prop.
Combined Scheme typed_mutind from typed_mind, typed_rest_mind.

Definition has_type v (t : qtype) : Prop :=
  match t, v with
  | TBool, QBool _ | TInt, QInt _ | TDouble, QDouble _ | TString, QString _ | TSet, QBitmap _ => True
  | TField k, QField f => points_to f k
  | _, _ => False
  end.

Lemma select_value_ok f k op v t :
  points_to f k → comparable k op t → has_type v t →
  ∃ arg, field_arg op v = Some arg ∧
    (∃ b, select_value deref f (op_left op) arg = Some (QBitmap b)) ∧
    (∃ b, select_value deref f (op_right op) arg = Some (QBitmap b)).
Proof.
  intros (field & table & Hd & Hk) Hc Hv. unfold select_value. rewrite Hd. simpl.
  unfold RobimsField_Select.
  destruct (_impl field); try done; injection Hk as <-; simpl in Hc.
  - destruct Hc as [Hop ->]. destruct v; try done. eexists. split; [done|].
    destruct Hop as [-> | ->]; simpl; eauto.
  - destruct Hc as [Hop ->]. destruct v; try done. eexists. split; [done|].
    unfold is_compare in Hop. rewrite !elem_of_cons, elem_of_nil in Hop.
    destruct Hop as [->|[->|[->|[->|[->|[->|[]]]]]]]; simpl; eauto.
  - destruct Hc as [Hop Hn].
    assert (∃ arg, field_arg op v = Some arg ∧ match arg with ArgString _ => False | _ => True end)
      as (arg & Ha & Hna) by (destruct Hn as [-> | ->]; destruct v; try done; simpl; eauto).
    exists arg. split; [done|]. unfold is_compare in Hop. rewrite !elem_of_cons, elem_of_nil in Hop.
    destruct arg; try done;
      destruct Hop as [->|[->|[->|[->|[->|[->|[]]]]]]]; simpl; eauto.
Qed.

Lemma calc_compare_op op v w : is_compare op → QueryCalc deref op v w = calc_compare deref op v w.
Proof.
  unfold is_compare. rewrite !elem_of_cons, elem_of_nil. intros [->|[->|[->|[->|[->|[->|[]]]]]]]; done.
Qed.

Lemma comparable_compare k op t : comparable k op t → is_compare op.
Proof.
  destruct k; simpl; [|by intros []..]. intros [[-> | ->] _]; unfold is_compare; set_solver.
Qed.

Lemma QueryCalc_typed op v w t u t' :
  op_type op t u t' → has_type v t → has_type w u →
  ∃ r, QueryCalc deref op v w = Some r ∧ has_type r t'.
Proof.
  intros Hop Hv Hw. destruct Hop as [op k t Hc|op k t Hc|op t u Hc Ht Hu|op Hc|op Hl|op Hl|op t u Ha Ht Hu Htu].
  - destruct v; try done. rewrite calc_compare_op by by eapply comparable_compare.
    destruct (select_value_ok f k op w t Hv Hc Hw) as (arg & Harg & (b & Hb) & _).
    exists (QBitmap b). split; [|done]. unfold calc_compare. simpl. by rewrite Harg.
  - destruct w; try done. rewrite calc_compare_op by by eapply comparable_compare.
    destruct (select_value_ok f k op v t Hw Hc Hv) as (arg & Harg & _ & (b & Hb)).
    exists (QBitmap b). split; [|done]. unfold calc_compare.
    destruct v; simpl in *; try done; simplify_eq; by rewrite ?Harg.
  - rewrite calc_compare_op by done. unfold calc_compare.
    destruct Ht as [-> | ->], Hu as [-> | ->], v, w; try done; simpl; eauto.
  - rewrite calc_compare_op by done. unfold calc_compare. destruct v, w; try done; simpl; eauto.
  - destruct v, w; try done. destruct Hl as [-> | ->]; simpl; eauto.
  - destruct v, w; try done. destruct Hl as [-> | ->]; simpl; eauto.
  - assert (QueryCalc deref op v w = calc_arith op v w) as ->.
    { unfold is_arith in Ha. rewrite !elem_of_cons, elem_of_nil in Ha.
      by destruct Ha as [->|[->|[->|[->|[]]]]]. }
    destruct Ht as [-> | ->], Hu as [-> | ->], v, w; try done; simpl; eauto.
    by destruct Htu.
Qed.

(** The loop of [Expression], by itself. *)
Fixpoint eval_rest (state : QueryValue B) (rest : list (Optoken * Operand)) : option (QueryValue B) :=
  match rest with
  | [] => Some state
  | (op, x) :: rest =>
      rhs ← QueryInterpreter deref x; state ← QueryCalc deref op state rhs; eval_rest state rest
  end.

Lemma QueryInterpreter_Expression first rest :
  QueryInterpreter deref (Expression first rest)
  = state ← QueryInterpreter deref first; eval_rest state rest.
Proof. done. Qed.

Lemma typed_evaluates :
  (∀ n t, typed n t → ∃ v, QueryInterpreter deref n = Some v ∧ has_type v t) ∧
  (∀ t rest u, typed_rest t rest u → ∀ v, has_type v t →
     ∃ w, eval_rest v rest = Some w ∧ has_type w u).
Proof.
  apply typed_mutind; simpl; try by eauto.
  1-4: by intros; eexists; split.
  - intros x _ (v & -> & Hv). simpl. destruct v; try done. simpl. eauto.
  - intros c a b t _ (vc & -> & Hc) _ (va & Ea & Ha) _ (vb & Eb & Hb). simpl.
    destruct vc as [| [] | | | | |]; try done; eauto.
  - intros first rest t u _ (v & Ev & Hv) _ Hrest. destruct (Hrest v Hv) as (w & Ew & Hw).
    exists w. split; [|done]. change (QueryInterpreter deref (Expression first rest) = Some w).
    rewrite QueryInterpreter_Expression, Ev. exact Ew.
  - intros t op x u t' rest t'' _ (w & Ew & Hw) Hop _ Hrest v Hv. rewrite Ew. simpl.
    destruct (QueryCalc_typed op v w t u t' Hop Hv Hw) as (r & -> & Hr). simpl. by apply Hrest.
Qed.

(** C16. A well-typed query always evaluates to a value of its type, and in
    particular one of the type of sets to a bitmap: no error value, no
    dangling pointer, no undefined arithmetic. *)
Theorem QueryInterpreter_sound n t :
  typed n t → ∃ v, QueryInterpreter deref n = Some v ∧ has_type v t.
Proof. apply typed_evaluates. Qed.

(** ** Conjunctions and disjunctions *)

(** A chain of [&&] and [||] over operands that evaluate to bitmaps is
    evaluated from the left, without precedence, as a chain of
    intersections and unions. *)
Theorem logic_chain first rest b0 (bs : list B) :
  QueryInterpreter deref first = Some (QBitmap b0) →
  Forall2 (λ p b, is_logic p.1 ∧ QueryInterpreter deref p.2 = Some (QBitmap b)) rest bs →
  ∃ b, QueryInterpreter deref (Expression first rest) = Some (QBitmap b) ∧
    ∀ id, b.[id] = foldl (λ acc p, if decide (p.1 = op_and) then acc && p.2.[id] else acc || p.2.[id])
                     b0.[id] (zip rest.*1 bs).
Proof.
  intros Hf Hr. rewrite QueryInterpreter_Expression, Hf. cbn [mbind option_bind]. clear Hf.
  revert b0. induction Hr as [|[op x] b rest bs [Hop Hx] _ IH]; intros b0; simpl in *; [eauto|].
  rewrite Hx. simpl. destruct Hop as [-> | ->]; simpl.
  - destruct (IH (roaring_bitmap_and_inplace b0 b)) as (r & -> & Hr). exists r. split; [done|].
    intros id. rewrite Hr. by autorewrite with bitmap.
  - destruct (IH (roaring_bitmap_or_inplace b0 b)) as (r & -> & Hr). exists r. split; [done|].
    intros id. rewrite Hr. by autorewrite with bitmap.
Qed.

(** ** Comparisons *)

Definition mirror op : Optoken :=
  match op with
  | op_less => op_greater
  | op_less_equal => op_greater_equal
  | op_greater => op_less
  | op_greater_equal => op_less_equal
  | op => op
  end.

(** Writing the field on the right of a comparison means the mirrored
    comparison with the field on the left, for every other operand. *)
Theorem compare_mirror op f v :
  is_compare op → (∀ g, v ≠ QField g) →
  QueryCalc deref op v (QField f) = QueryCalc deref (mirror op) (QField f) v.
Proof.
  unfold is_compare. rewrite !elem_of_cons, elem_of_nil. intros Hop Hv.
  destruct Hop as [->|[->|[->|[->|[->|[->|[]]]]]]]; destruct v; try done; by destruct (Hv f0).
Qed.

(** Comparing an integer field with an integer of its range returns
    exactly the identifiers whose stored integer compares so, for every
    operator but the strict less-than. *)
Theorem query_int_compare op f field table bsi lo hi_ mi e :
  deref f = Some (field, table) → _impl field = IntField bsi →
  int_models bsi lo hi_ mi → (0 < _bit_depth bsi)%nat → lo <= e <= hi_ →
  op ∈ [op_equal; op_less_equal; op_greater; op_greater_equal] →
  ∃ b, QueryCalc deref op (QField f) (QInt e) = Some (QBitmap b) ∧
    ∀ id, b.[id] = true ↔ ∃ x, mi !! id = Some x ∧
      match op with
      | op_equal => x = e
      | op_less_equal => x <= e
      | op_greater => e < x
      | _ => e <= x
      end.
Proof.
  intros Hd Hi Hm Hdep He Hop.
  assert (scanned mi (acquire 0 : B) = mi) as Hall.
  { apply map_filter_id. intros. left. apply is_empty_true. apply acquire_empty. }
  pose proof (λ id, int_scans bsi lo hi_ mi e e (acquire 0) id Hm Hdep He He) as Hscan.
  cbv zeta in Hscan. rewrite Hall in Hscan.
  assert (∀ fop b, RobimsIntField_Select bsi fop (ArgInt e) = (0, Some b) →
            select_value deref f fop (ArgInt e) = Some (QBitmap b)) as Hsel.
  { intros fop b Hb. unfold select_value. rewrite Hd. simpl. unfold RobimsField_Select.
    by rewrite Hi, Hb. }
  rewrite !elem_of_cons, elem_of_nil in Hop. destruct Hop as [->|[->|[->|[->|[]]]]]; simpl;
    unfold calc_compare; simpl; eexists; (split; [by apply Hsel|]); intros id; apply Hscan.
Qed.

(** ** Errors *)

(** The code of an error operand is lost: every binary operator turns it
    into an error of its own. *)
Theorem error_operand_masked op c v :
  ∃ c1 c2, QueryCalc deref op (QError c) v = Some (QError c1) ∧
    QueryCalc deref op v (QError c) = Some (QError c2) ∧
    c1 ∈ [-1; ROBIMS_QUERY_ERR_INVALID_OPERAND; ROBIMS_QUERY_ERR_INVALID_OPERATOR] ∧
    c2 ∈ [-1; ROBIMS_QUERY_ERR_INVALID_OPERAND; ROBIMS_QUERY_ERR_INVALID_OPERATOR].
Proof.
  destruct op, v; simpl; eexists _, _; (split; [reflexivity|]); (split; [reflexivity|]); set_solver.
Qed.
End spec.

(** The operator [&&!], which the grammar accepts, is never evaluated: on
    any operands the result is an invalid-operator error. *)
Theorem and_not_unsupported `{Roaring B, !Scratch B} deref (v w : QueryValue B) :
  QueryCalc deref op_and_not v w = Some (QError ROBIMS_QUERY_ERR_INVALID_OPERATOR).
Proof. done. Qed.
