(* ===== verification/TableCreation.v ===== *)
(** * TableCreation: from a table description to a schema
    (robims_table_creation.cpp)

    The Boost.Spirit grammar that turns the text into a tree is a parameter
    ([TableParser]); what [parse_talbe_creation_desc] does with the tree is
    modelled. *)

From S2P Require Import Prelude Float Schema.

(** [variant<nullptr_t, int64_t, double>] *)
Inductive IntOrDouble := NoBound | IntBound (n : Z) | DoubleBound (d : double).

Record Field := { fd_name : list Z; ztype : list Z; fd_min : IntOrDouble; fd_max : IntOrDouble }.
Record Table := { tb_name : list Z; tb_fields : list Field }.

Class TableParser := { parse_table : list Z → option Table }.

(** What the type of a field asks for. *)
Inductive field_type := IdType | IndexType (t : FieldIndexType) | InvalidType.

Definition type_of_name (s : list Z) : field_type :=
  let named lower upper := bool_decide (s = str lower) || bool_decide (s = str upper) in
  if named "id"%string "ID"%string then IdType
  else if named "set"%string "SET"%string then IndexType SET_INDEX
  else if named "weight_set"%string "WEIGHT_SET"%string then IndexType WEIGHT_SET_INDEX
  else if named "mutex"%string "MUTEX"%string then IndexType MUTEX_INDEX
  else if named "int"%string "INT"%string then IndexType INT_INDEX
  else if named "float"%string "FLOAT"%string then IndexType FLOAT_INDEX
  else if named "bool"%string "BOOL"%string then IndexType BOOL_INDEX
  else InvalidType.

(** A bound that is not given leaves the default of the message. *)
Definition bound_value (b : IntOrDouble) : double :=
  match b with
  | NoBound => int_to_double 0
  | IntBound n => int_to_double n
  | DoubleBound d => d
  end.

Definition field_meta (f : Field) (t : FieldIndexType) : FieldMeta :=
  {| fm_name := fd_name f; fm_index_type := t; fm_min := bound_value (fd_min f);
     fm_max := bound_value (fd_max f); fm_topk_limit := 0; fm_max_set_num := 0 |}.

Definition set_id_field (schema : TableSchema) (name : list Z) : TableSchema :=
  {| ts_name := ts_name schema; ts_id_field := name; ts_index_field := ts_index_field schema;
     ts_disable_local_id_creation := ts_disable_local_id_creation schema |}.
Definition add_index_field (schema : TableSchema) (meta : FieldMeta) : TableSchema :=
  {| ts_name := ts_name schema; ts_id_field := ts_id_field schema;
     ts_index_field := ts_index_field schema ++ [meta];
     ts_disable_local_id_creation := ts_disable_local_id_creation schema |}.

(** The loop over the fields: return code and schema. *)
Fixpoint add_fields (fields : list Field) (schema : TableSchema) : Z * TableSchema :=
  match fields with
  | [] => (0, schema)
  | f :: fields =>
      match type_of_name (ztype f) with
      | IdType =>
          if bool_decide (ts_id_field schema = [])
          then add_fields fields (set_id_field schema (fd_name f)) else (-1, schema)
      | IndexType t => add_fields fields (add_index_field schema (field_meta f t))
      | InvalidType => (-1, schema)
      end
  end.

Definition parse_talbe_creation_desc {parser : TableParser} (desc : list Z) (schema : TableSchema)
    : Z * TableSchema :=
  match parse_table desc with
  | None => (-1, schema)
  | Some ast =>
      add_fields (tb_fields ast)
        {| ts_name := tb_name ast; ts_id_field := ts_id_field schema;
           ts_index_field := ts_index_field schema;
           ts_disable_local_id_creation := ts_disable_local_id_creation schema |}
  end.

(** ** What the schema holds *)

Definition is_id (f : Field) : Prop := type_of_name (ztype f) = IdType.
#[export] Instance is_id_dec f : Decision (is_id f).
Proof. unfold is_id. destruct (type_of_name (ztype f)); [left|right..]; done. Defined.

(** The entry of a field that is not an identifier. *)
Definition index_meta (f : Field) : option FieldMeta :=
  match type_of_name (ztype f) with IndexType t => Some (field_meta f t) | _ => None end.

Definition well_typed (fields : list Field) : Prop :=
  Forall (λ f, type_of_name (ztype f) ≠ InvalidType) fields ∧ (length (filter is_id fields) <= 1)%nat.

Lemma add_fields_result fields schema :
  Forall (λ f, fd_name f ≠ []) fields →
  let '(rc, schema') := add_fields fields schema in
  (rc = 0 ↔ Forall (λ f, type_of_name (ztype f) ≠ InvalidType) fields ∧
            (length (filter is_id fields) + (if bool_decide (ts_id_field schema = []) then 0 else 1) <= 1)%nat) ∧
  (rc ≠ 0 → rc = -1) ∧
  (rc = 0 →
     ts_index_field schema' = ts_index_field schema ++ omap index_meta fields ∧
     ts_name schema' = ts_name schema ∧
     ts_id_field schema' = default (ts_id_field schema) (fd_name <$> head (filter is_id fields))).
Proof.
  revert schema. induction fields as [|f fields IH]; intros schema Hn; cbn [add_fields].
  { split_and!; [|done|]; [|intros _; simpl; by rewrite app_nil_r].
    split; [|done]. intros _. split; [done|]. simpl. case_bool_decide; lia. }
  apply Forall_cons in Hn as [Hf Hn]. rewrite filter_cons.
  destruct (type_of_name (ztype f)) as [|t|] eqn:Et.
  - rewrite decide_True by done. case_bool_decide as Hid.
    + specialize (IH (set_id_field schema (fd_name f)) Hn).
      destruct (add_fields _ _) as [rc schema']. destruct IH as (Hrc & Hne & Hok).
      simpl ts_id_field in *. rewrite bool_decide_eq_false_2 in Hrc by done. split_and!; [|done|].
      * rewrite Hrc, Forall_cons, Et. simpl. rewrite (Nat.add_1_r (length _)), Nat.add_0_r. naive_solver.
      * intros E. specialize (Hok E) as (-> & -> & ->). simpl. unfold index_meta at 2. rewrite Et.
        split_and!; [done|done|].
        assert (filter is_id fields = []) as ->; [|done].
        apply nil_length_inv. destruct (proj1 Hrc E). lia.
    + split_and!; [|done|done]. split; [done|]. intros [_ Hl]. simpl in Hl. lia.
  - rewrite decide_False by (unfold is_id; by rewrite Et).
    specialize (IH (add_index_field schema (field_meta f t)) Hn).
    destruct (add_fields _ _) as [rc schema']. destruct IH as (Hrc & Hne & Hok).
    simpl ts_id_field in *. split_and!; [|done|].
    + rewrite Hrc, Forall_cons, Et. naive_solver.
    + intros E. specialize (Hok E) as (-> & -> & ->). simpl. unfold index_meta at 2. rewrite Et.
      by rewrite <-app_assoc.
  - split_and!; [|done|done]. split; [done|]. intros [Hall _]. apply Forall_cons in Hall as [Hall _].
    by rewrite Et in Hall.
Qed.

(** A description is accepted exactly when every field has one of the known
    types and at most one is the identifier; then the schema lists the other
    fields in the order they were written, with their types and bounds, and
    names the identifier field. *)
Theorem table_creation_schema {parser : TableParser} desc ast schema0 :
  parse_table desc = Some ast → Forall (λ f, fd_name f ≠ []) (tb_fields ast) →
  ts_id_field schema0 = [] → ts_index_field schema0 = [] →
  let '(rc, schema) := parse_talbe_creation_desc desc schema0 in
  (rc = 0 ↔ well_typed (tb_fields ast)) ∧ (rc ≠ 0 → rc = -1) ∧
  (rc = 0 → ts_name schema = tb_name ast ∧
     ts_index_field schema = omap index_meta (tb_fields ast) ∧
     ts_id_field schema = default [] (fd_name <$> head (filter is_id (tb_fields ast)))).
Proof.
  intros Hp Hn Hid Hix. unfold parse_talbe_creation_desc. rewrite Hp.
  match goal with |- context [add_fields _ ?s] =>
    pose proof (add_fields_result (tb_fields ast) s Hn) as Hr end.
  destruct (add_fields _ _) as [rc schema]. simpl in Hr. rewrite Hid, Hix in Hr.
  destruct Hr as (Hrc & Hne & Hok). split_and!; [|done|].
  - rewrite Hrc. simpl. rewrite Nat.add_0_r. done.
  - intros E. specialize (Hok E). naive_solver.
Qed.

Definition blank_schema : TableSchema :=
  {| ts_name := []; ts_id_field := []; ts_index_field := []; ts_disable_local_id_creation := false |}.

(** A parser that knows one description. *)
Definition demo_table : Table :=
  {| tb_name := str "user"; tb_fields :=
       [ {| fd_name := str "uid"; ztype := str "id"; fd_min := NoBound; fd_max := NoBound |};
         {| fd_name := str "age"; ztype := str "INT"; fd_min := IntBound 0; fd_max := IntBound 120 |} ] |}.
Definition demo_parser : TableParser := {| parse_table _ := Some demo_table |}.

Lemma table_creation_schema_witness :
  (parse_talbe_creation_desc (parser := demo_parser) [] blank_schema).1 = 0.
Proof.
  pose proof (table_creation_schema (parser := demo_parser) [] demo_table blank_schema
    eq_refl ltac:(repeat constructor; discriminate) eq_refl eq_refl) as Hw.
  destruct (parse_talbe_creation_desc (parser := demo_parser) [] blank_schema) as [rc schema].
  destruct Hw as [[_ Hrc] _]. apply Hrc. split.
  - repeat constructor; discriminate.
  - vm_compute. lia.
Defined.
