(* ===== verification/Db.v ===== *)
(** * Db: the database (robims_db_impl.cpp, robims_query.cpp [RobimsQuery])

    The state is one store of table objects ([heap]), the name table that
    points into it, the identifier mapping all tables share and the cache of
    parsed queries.  The keys of the name table are views of the name inside
    the table object that was stored first under the name ([key_owner]): once
    that object is destroyed the key dangles, and looking it up is undefined
    ([None]).  Locks are not modelled: each operation runs to its end.

    Parameters: the parsers, protobuf's encoding of the file header,
    folly's evicting cache. *)

From S2P Require Import Prelude Roaring Cache Common Float Schema Bsi Fields IdMapping Table TableCreation Query.

(** [DBHeader] *)
Record DBHeader :=
  { version : Z; readonly_db : bool; whole_db : bool; partial_tables : list (list Z) }.

Class HeaderOps := {
  serialize_header : DBHeader → list Z;
  parse_header : list Z → option DBHeader;
}.
Class Header `{HeaderOps} : Prop := {
  parse_serialize_header h : parse_header (serialize_header h) = Some h;
  (** A header with a version is not encoded as the empty string. *)
  serialize_header_nonempty h : version h ≠ 0 → serialize_header h ≠ [];
}.

(** [folly::EvictingCacheMap]: may forget, never invents. *)
Class EvictingCacheOps (C : Type) := {
  cache_empty : C;
  cache_find : C → list Z → option Operand * C;
  cache_insert : C → list Z → Operand → C;
}.

Class QueryParser := { phrase_parse : list Z → option Operand }.

Section db.
Context `{Roaring B, !Scratch B, !F14Ops, !ProtoOps, !SimdjsonOps, !HeaderOps,
          !EvictingCacheOps C, !QueryParser, !TableParser}.

Record table_entry := { key_owner : nat; table_ptr : nat }.

Record RobimsDBImpl := {
  id_mapping : SimpleIDMapping;
  tables : gmap (list Z) table_entry;
  query_cache : C;
  heap : gmap nat (RobimsTable B);
  next_table : nat;
}.

Definition new_RobimsDBImpl : RobimsDBImpl :=
  {| id_mapping := new_SimpleIDMapping; tables := ∅; query_cache := cache_empty;
     heap := ∅; next_table := 0 |}.

(** [db->tables.find(name)]: undefined when the key it meets dangles. *)
Definition find_table (db : RobimsDBImpl) (name : list Z) : option (option nat) :=
  match tables db !! name with
  | None => Some None
  | Some e => if decide (is_Some (heap db !! key_owner e)) then Some (Some (table_ptr e)) else None
  end.

(** [tables[name].store(table)] for a table object that is not stored yet:
    the object it replaces, if any, is destroyed. *)
Definition store_table (db : RobimsDBImpl) (name : list Z) (t : RobimsTable B) : RobimsDBImpl :=
  let p := next_table db in
  match tables db !! name with
  | None =>
      {| id_mapping := id_mapping db; query_cache := query_cache db; next_table := S p;
         tables := <[name := {| key_owner := p; table_ptr := p |}]> (tables db);
         heap := <[p := t]> (heap db) |}
  | Some e =>
      {| id_mapping := id_mapping db; query_cache := query_cache db; next_table := S p;
         tables := <[name := {| key_owner := key_owner e; table_ptr := p |}]> (tables db);
         heap := <[p := t]> (delete (table_ptr e) (heap db)) |}
  end.

(** ** Tables *)

Definition CreateTableInstance (schema : TableSchema) : option (RobimsTable B) :=
  let '(rc, t) := RobimsTable_Init new_RobimsTable schema in
  if negb (0 =? rc) then None else Some t.

(** The lookup of the key compares it with the names in the table. *)
Definition CreateTable (db : RobimsDBImpl) (schema : TableSchema) : option (Z * RobimsDBImpl) :=
  match CreateTableInstance schema with
  | None => Some (-1, db)
  | Some t =>
      _ ← find_table db (ts_name (_schema t));
      Some (0, store_table db (ts_name (_schema t)) t)
  end.

Definition CreateTable_desc (db : RobimsDBImpl) (desc : list Z) : option (Z * RobimsDBImpl) :=
  let '(rc, schema) := parse_talbe_creation_desc desc empty_schema in
  if negb (0 =? rc) then Some (rc, db) else CreateTable db schema.

Definition GetTable (db : RobimsDBImpl) (name : list Z) : option (option nat) := find_table db name.

Definition set_table (db : RobimsDBImpl) (p : nat) (t : RobimsTable B) (ids : SimpleIDMapping)
    : RobimsDBImpl :=
  {| id_mapping := ids; tables := tables db; query_cache := query_cache db;
     heap := <[p := t]> (heap db); next_table := next_table db |}.

Definition RobimsDBImpl_Put (db : RobimsDBImpl) (table json : list Z) : option (Z * RobimsDBImpl) :=
  found ← find_table db table;
  match found with
  | None => Some (-1, db)
  | Some p =>
      t ← heap db !! p;
      '(rc, t, ids) ← RobimsTable_Put t (id_mapping db) json;
      Some (rc, set_table db p t ids)
  end.

Definition RobimsDBImpl_Remove (garbage : Z) (db : RobimsDBImpl) (table json : list Z)
    : option (Z * RobimsDBImpl) :=
  found ← find_table db table;
  match found with
  | None => Some (-1, db)
  | Some p =>
      t ← heap db !! p;
      '(rc, t, ids) ← RobimsTable_Remove garbage t (id_mapping db) json;
      Some (rc, set_table db p t ids)
  end.

(** ** Queries *)

(** [RobimsQuery::Init]: the tree under a node without operations. *)
Definition RobimsQuery_Init (db : RobimsDBImpl) (query : list Z) : InitResult Operand :=
  match phrase_parse query with
  | None => Some (inl (-1))
  | Some first =>
      Initializer (GetTable db)
        (λ p field, match heap db !! p with
                    | Some t => bool_decide (is_Some (GetField t field))
                    | None => false
                    end) (Expression first [])
  end.

Definition deref (db : RobimsDBImpl) (f : FieldPtr) : option (RobimsField B * B) :=
  t ← heap db !! f.1; field ← GetField t f.2; Some (field, GetTableBitmap t).

Definition RobimsQuery_Execute (db : RobimsDBImpl) (expr : Operand) : option (QueryValue B) :=
  QueryInterpreter (deref db) expr.

Record SelectResult := { ids : list (list Z); total : Z }.

(** The loop over [local_ids], which is padded with zeros: a zero ends it,
    unless it is the first identifier of the whole result. *)
Fixpoint collect_ids (db : RobimsDBImpl) (b : B) (offset : Z) (i : nat) (local_ids : list Z)
    : list (list Z) :=
  match local_ids with
  | [] => []
  | n :: rest =>
      if (0 =? n) && ((0 <? i)%nat || (0 <? offset) || negb b.[0]) then []
      else default [] (GetID (id_mapping db) n) :: collect_ids db b offset (S i) rest
  end.

Definition page_ids (db : RobimsDBImpl) (b : B) (offset limit : Z) : SelectResult :=
  let page := roaring_bitmap_range_uint32_array b (Z.to_nat offset) (Z.to_nat limit) in
  let local_ids := page ++ replicate (Z.to_nat limit - length page) 0 in
  {| ids := collect_ids db b offset 0 local_ids; total := roaring_bitmap_get_cardinality b |}.

Definition set_cache (db : RobimsDBImpl) (c : C) : RobimsDBImpl :=
  {| id_mapping := id_mapping db; tables := tables db; query_cache := c; heap := heap db;
     next_table := next_table db |}.

Definition RobimsDBImpl_Select (db : RobimsDBImpl) (query : list Z) (offset limit : Z)
    : option (Z * SelectResult * RobimsDBImpl) :=
  let limit := if limit <=? 0 then 100 else limit in
  let offset := if offset <? 0 then 0 else offset in
  let empty := {| ids := []; total := 0 |} in
  let '(found, c) := cache_find (query_cache db) query in
  let db := set_cache db c in
  init ← match found with Some expr => Some (inr expr) | None => RobimsQuery_Init db query end;
  match init with
  | inl _ => Some (-1, empty, db)
  | inr expr =>
      let db := match found with
                | Some _ => db
                | None => set_cache db (cache_insert (query_cache db) query expr)
                end in
      val ← RobimsQuery_Execute db expr;
      match val with
      | QBitmap b => Some (0, page_ids db b offset limit, db)
      | _ => Some (-1, empty, db)
      end
  end.

Definition GetRealIDs (db : RobimsDBImpl) (local_ids : list Z) : list (list Z) :=
  (λ n, default [] (GetID (id_mapping db) n)) <$> local_ids.

(** ** Files; [None] for the file means that [fopen] failed *)

Definition write_header (whole : bool) (names : list (list Z)) : Writer := λ fp,
  match file_write_string (serialize_header
          {| version := 1; readonly_db := false; whole_db := whole; partial_tables := names |}) fp with
  | Some (rc, fp) => Some (if 0 =? rc then 0 else -1, fp)
  | None => None
  end.

Definition RobimsDBImpl_SaveTable (db : RobimsDBImpl) (table : list Z) (readonly : bool)
    (file : option OFILE) : option (Z * option OFILE) :=
  found ← find_table db table;
  match found, file with
  | None, _ | _, None => Some (-1, file)
  | Some p, Some fp =>
      t ← heap db !! p;
      '(rc, fp) ← (write_header false [table] ;;ʷ RobimsTable_Save t readonly) fp;
      Some (rc, Some fp)
  end.

Definition save_entry (db : RobimsDBImpl) (readonly : bool) (p : list Z * table_entry) : Writer :=
  match heap db !! table_ptr p.2 with
  | None => wr_null
  | Some t => RobimsTable_Save t readonly
  end.

Definition RobimsDBImpl_Save_file (db : RobimsDBImpl) (readonly : bool) : Writer :=
  write_header true [] ;;ʷ
  file_write_uint32 (Z.of_nat (size (tables db))) ;;ʷ
  wr_each (save_entry db readonly) (f14_items (tables db)) ;;ʷ
  IDMapping_Save (id_mapping db) readonly.

Definition RobimsDBImpl_Save (db : RobimsDBImpl) (readonly : bool) (file : option OFILE)
    : option (Z * option OFILE) :=
  match file with
  | None => Some (-1, None)
  | Some fp => '(rc, fp) ← RobimsDBImpl_Save_file db readonly fp; Some (rc, Some fp)
  end.

(** The tables of a partial file replace the tables of their names; a table
    that fails to load is skipped, and only the last return code counts. *)
Fixpoint load_partial (db : RobimsDBImpl) (names : list (list Z)) (rc : Z) (fp : IFILE)
    : option (Z * RobimsDBImpl) :=
  match names with
  | [] => Some (rc, db)
  | name :: names =>
      found ← find_table db name;
      match found with
      | None => Some (-1, db)
      | Some p =>
          old_table ← heap db !! p;
          match CreateTableInstance (_schema old_table) with
          | None => Some (-1, db)
          | Some new_table =>
              '(r, fp) ← RobimsTable_Load new_table fp;
              match r with
              | Some t => load_partial (store_table db name t) names 0 fp
              | None => load_partial db names (-1) fp
              end
          end
      end
  end.

(** The tables of a whole file, into a new database. *)
Fixpoint load_tables (n : nat) (db : RobimsDBImpl) (fp : IFILE) : option (option RobimsDBImpl * IFILE) :=
  match n with
  | O => Some (Some db, fp)
  | S n =>
      '(r, fp) ← RobimsTable_Load new_RobimsTable fp;
      match r with
      | None => Some (None, fp)
      | Some t => load_tables n (store_table db (ts_name (_schema t)) t) fp
      end
  end.

Definition set_mapping (db : RobimsDBImpl) (m : SimpleIDMapping) : RobimsDBImpl :=
  {| id_mapping := m; tables := tables db; query_cache := query_cache db; heap := heap db;
     next_table := next_table db |}.

(** The number of tables is taken as zero when it cannot be read. *)
Definition RobimsDBImpl_Load (db : RobimsDBImpl) (file : option IFILE) : option (Z * RobimsDBImpl) :=
  match file with
  | None => Some (-1, db)
  | Some fp =>
      match file_read_string fp with
      | (None, _) => Some (-1, db)
      | (Some bin, fp) =>
          match parse_header bin with
          | None => Some (-1, db)
          | Some header =>
              if negb (whole_db header) then load_partial db (partial_tables header) 0 fp
              else
                let '(n, fp) := file_read_uint32 fp in
                '(r, fp) ← load_tables (Z.to_nat (default 0 n)) new_RobimsDBImpl fp;
                match r with
                | None => Some (-1, db)
                | Some new_db =>
                    match IDMapping_Load (id_mapping new_db) fp with
                    | (Some m, _) => Some (0, set_mapping new_db m)
                    | (None, _) => Some (-1, db)
                    end
                end
          end
      end
  end.
End db.

Arguments RobimsDBImpl B C : clear implicits.
