(* ===== verification/DbSpec.v ===== *)
(** * DbSpec: what the database promises *)

From S2P Require Import Prelude Roaring Cache Common Float Schema Bsi Fields FieldsPersist.
From S2P Require Import IdMapping Table TableSpec TableCreation Query Db.

Section spec.
Context `{Roaring B, !Scratch B, !F14Ops, !F14, !ProtoOps, !Proto, !SimdjsonOps, !HeaderOps, !Header,
          !EvictingCacheOps C, !QueryParser, !TableParser}.
Implicit Types (db : RobimsDBImpl B C) (name query : list Z).

(** ** Pages of a result *)

Lemma collect_ids_tail db (b : B) offset i l k :
  (0 < i)%nat → Forall (λ n, 0 < n) l →
  collect_ids db b offset i (l ++ replicate k 0) = GetRealIDs db l.
Proof.
  intros Hi Hl. revert i Hi. induction Hl as [|n l Hn Hl IH]; intros i Hi; simpl.
  - destruct k; simpl; [done|]. by rewrite (proj2 (Nat.ltb_lt 0 i) Hi).
  - destruct n; try lia. simpl. f_equal. apply IH. lia.
Qed.

Lemma ascending_pos x l : ascending (x :: l) → 0 <= x → Forall (λ n, 0 < n) l.
Proof.
  intros Ha Hx. inversion Ha as [|?? _ Hf]. eapply Forall_impl; [exact Hf|]. simpl. lia.
Qed.

Lemma ascending_drop l k : ascending l → ascending (drop k l).
Proof.
  revert k. induction l as [|x l IH]; intros [|k] Ha; try done. simpl. apply IH. by inversion Ha.
Qed.

Lemma ascending_take l k : ascending l → ascending (take k l).
Proof.
  revert k. induction l as [|x l IH]; intros [|k] Ha; simpl; try constructor.
  - apply IH. by inversion Ha.
  - inversion Ha as [|?? _ Hf]. by apply Forall_take.
Qed.

(** The zero padding never cuts a result short, and never extends it. *)
Lemma collect_ids_page db (b : B) offset lim :
  u32_bitmap b → 0 <= offset → (0 < lim)%nat →
  let page := take lim (drop (Z.to_nat offset) (roaring_bitmap_to_uint32_array b)) in
  collect_ids db b offset 0 (page ++ replicate (lim - length page) 0) = GetRealIDs db page.
Proof.
  intros Hu Ho Hlim. set (arr := roaring_bitmap_to_uint32_array b).
  assert (∀ n, n ∈ arr → b.[n] = true ∧ 0 <= n) as Harr.
  { intros n Hn. apply to_array_spec in Hn. split; [done|]. apply Hu in Hn. unfold is_u32 in Hn. lia. }
  pose proof (to_array_ascending b) as Ha. fold arr in Ha.
  pose proof (ascending_take _ lim (ascending_drop _ (Z.to_nat offset) Ha)) as Hp.
  intros page. destruct page as [|n l] eqn:E; unfold page in E; cbn [app collect_ids].
  - destruct lim as [|lim]; [lia|]. simpl.
    assert ((0 <? offset) || negb b.[0] = true) as ->; [|done].
    destruct (Z.ltb_spec 0 offset); [done|]. simpl. assert (offset = 0) as -> by lia. simpl in E.
    destruct b.[0] eqn:E0; [|done]. apply to_array_spec in E0. fold arr in E0.
    destruct arr; [by apply elem_of_nil in E0|done].
  - rewrite E in Hp. assert (n ∈ drop (Z.to_nat offset) arr) as Hnd.
    { rewrite <-(take_drop lim (drop _ arr)), E. left. }
    assert (n ∈ arr) as Hn by (rewrite <-(take_drop (Z.to_nat offset) arr), elem_of_app; by right).
    destruct (Harr n Hn) as [Hbn Hn0].
    assert ((0 =? n) && ((0 <? offset) || negb b.[0]) = false) as Hz.
    { destruct (Z.eqb_spec 0 n) as [<-|]; [|done]. rewrite Hbn, orb_false_r. simpl.
      destruct (Z.ltb_spec 0 offset) as [Hpos|]; [|done]. exfalso.
      destruct arr as [|x arr']; [by rewrite drop_nil in Hnd; apply elem_of_nil in Hnd|].
      assert (0 <= x) as Hx by (apply Harr; left).
      pose proof (ascending_pos x arr' Ha Hx) as Hf. rewrite Forall_forall in Hf.
      assert (0 ∈ arr') as Hz; [|specialize (Hf 0 Hz); lia].
      destruct (Z.to_nat offset) as [|k] eqn:Ek; [lia|]. simpl in Hnd.
      rewrite <-(take_drop k arr'), elem_of_app. by right. }
    change (0 <? 0)%nat with false. cbn [orb]. rewrite Hz. cbn [GetRealIDs fmap list_fmap]. f_equal.
    apply collect_ids_tail; [lia|]. by eapply ascending_pos.
Qed.

(** The query is in the cache, or is parsed and resolved now. *)
Definition prepared db query (expr : Operand) : Prop :=
  match (cache_find (query_cache db) query).1 with
  | Some e => e = expr
  | None => RobimsQuery_Init db query = Some (inr expr)
  end.

(** C24. A query whose value is a set of identifiers returns its size and the
    requested page: the identifiers from the offset on, in the order of
    their local numbers, at most [limit] of them (100 when the limit is not
    positive), each translated back to the identifier it was put with. *)
Theorem Select_page db query offset limit expr (b : B) :
  prepared db query expr → RobimsQuery_Execute db expr = Some (QBitmap b) → u32_bitmap b →
  let lim := if limit <=? 0 then 100 else limit in
  let off := if offset <? 0 then 0 else offset in
  ∃ db', RobimsDBImpl_Select db query offset limit
    = Some (0, {| ids := GetRealIDs db (take (Z.to_nat lim)
                            (drop (Z.to_nat off) (roaring_bitmap_to_uint32_array b)));
                  total := roaring_bitmap_get_cardinality b |}, db') ∧
    tables db' = tables db ∧ heap db' = heap db ∧ id_mapping db' = id_mapping db.
Proof.
  intros Hp Hx Hu lim off. unfold RobimsDBImpl_Select, prepared in *. fold lim off.
  assert (∀ db', id_mapping db' = id_mapping db → page_ids db' b off lim
    = {| ids := GetRealIDs db (take (Z.to_nat lim)
                   (drop (Z.to_nat off) (roaring_bitmap_to_uint32_array b)));
         total := roaring_bitmap_get_cardinality b |}) as Hpage.
  { intros db' Hid. unfold page_ids. rewrite range_array_spec. f_equal.
    assert (0 <= off) by (unfold off; destruct (Z.ltb_spec offset 0); lia).
    assert (0 < Z.to_nat lim)%nat by (unfold lim; destruct (Z.leb_spec limit 0); lia).
    rewrite collect_ids_page by done. unfold GetRealIDs. by rewrite Hid. }
  destruct (cache_find (query_cache db) query) as [[e|] c]; simpl in *.
  - subst e. unfold RobimsQuery_Execute in *.
    change (QueryInterpreter (deref (set_cache db c))) with (QueryInterpreter (deref db)).
    rewrite Hx. simpl. rewrite Hpage by done. eauto.
  - change (RobimsQuery_Init (set_cache db c) query) with (RobimsQuery_Init db query).
    rewrite Hp. simpl. unfold RobimsQuery_Execute in *.
    match goal with |- context [deref ?d] =>
      change (QueryInterpreter (deref d)) with (QueryInterpreter (deref db)) end.
    rewrite Hx. simpl. rewrite Hpage by done. eauto.
Qed.

(** ** Replacing a table *)

(** Creating a table under a name that is already taken destroys the
    table whose name the key refers to: the call succeeds, and every later
    put, removal or query that looks the name up is undefined. *)
Theorem CreateTable_twice_dangles db schema t e :
  CreateTableInstance schema = Some t →
  tables db !! ts_name (_schema t) = Some e →
  key_owner e = table_ptr e → is_Some (heap db !! table_ptr e) →
  (table_ptr e < next_table db)%nat →
  ∃ db', CreateTable db schema = Some (0, db') ∧
    (∀ json, RobimsDBImpl_Put db' (ts_name (_schema t)) json = None) ∧
    (∀ garbage json, RobimsDBImpl_Remove garbage db' (ts_name (_schema t)) json = None).
Proof.
  intros Ht He Ho Hh Hlt. unfold CreateTable. rewrite Ht.
  assert (find_table db (ts_name (_schema t)) = Some (Some (table_ptr e))) as ->.
  { unfold find_table. rewrite He, Ho. by rewrite decide_True. }
  simpl. eexists. split; [done|].
  assert (find_table (store_table db (ts_name (_schema t)) t) (ts_name (_schema t)) = None) as Hf.
  { unfold find_table, store_table. rewrite He. simpl. rewrite lookup_insert_eq. simpl.
    rewrite Ho, decide_False; [done|]. rewrite lookup_insert_ne, lookup_delete_eq by lia.
    by intros [? ?]. }
  unfold RobimsDBImpl_Put, RobimsDBImpl_Remove. by rewrite Hf.
Qed.

(** ** Persistence *)

Definition table_at db name : option (RobimsTable B) := e ← tables db !! name; heap db !! table_ptr e.

Definition table_equiv (t t' : RobimsTable B) : Prop :=
  _schema t' = _schema t ∧ GetTableBitmap t' ≡ GetTableBitmap t ∧
  ∀ name, option_Forall2 field_equiv (_fields t !! name) (_fields t' !! name).

(** Every entry points to a live table and is its own key. *)
Record db_ok db : Prop := {
  do_entry name e : tables db !! name = Some e →
    key_owner e = table_ptr e ∧ is_Some (heap db !! table_ptr e);
  do_next p t : heap db !! p = Some t → (p < next_table db)%nat;
}.

Lemma store_new_table db name t :
  db_ok db → tables db !! name = None →
  db_ok (store_table db name t) ∧
  ∀ name', table_at (store_table db name t) name' = if decide (name' = name) then Some t
                                                    else table_at db name'.
Proof.
  intros [He Hn] Hnone. unfold store_table, table_at. rewrite Hnone. simpl.
  assert (heap db !! next_table db = None) as Hfree.
  { destruct (heap db !! next_table db) as [x|] eqn:E; [|done]. apply Hn in E. lia. }
  split; [split; simpl|].
  - intros name' e [[<- <-]|[_ Hl]]%lookup_insert_Some; simpl.
    { split; [done|]. rewrite lookup_insert_eq. eauto. }
    apply He in Hl as [? [x Hx]]. split; [done|]. rewrite lookup_insert_ne; [eauto|].
    intros E. rewrite <-E in Hx. congruence.
  - intros p x [[<- _]|[_ Hp]]%lookup_insert_Some; [lia|]. apply Hn in Hp. lia.
  - intros name'. destruct (decide (name' = name)) as [->|Hne].
    { rewrite lookup_insert_eq. simpl. by rewrite lookup_insert_eq. }
    rewrite lookup_insert_ne by done. destruct (tables db !! name') as [e|] eqn:E; simpl; [|done].
    apply He in E as [_ [x Hx]]. rewrite lookup_insert_ne; [done|]. intros E.
    rewrite <-E in Hx. congruence.
Qed.

Definition entry_savable db (readonly : bool) (name : list Z) (e : table_entry) : Prop :=
  ∃ t, heap db !! table_ptr e = Some t ∧ table_savable readonly t ∧ ts_name (_schema t) = name.

Lemma load_tables_reads db readonly (items : list (list Z * table_entry)) acc :
  NoDup items.*1 → db_ok acc →
  (∀ p, p ∈ items → entry_savable db readonly p.1 p.2 ∧ tables acc !! p.1 = None) →
  ∃ bytes acc', writes (wr_each (save_entry db readonly) items) bytes ∧
    (∀ rest, load_tables (length items) acc (bytes ++ rest) = Some (Some acc', rest)) ∧
    db_ok acc' ∧ id_mapping acc' = id_mapping acc ∧
    (∀ name, name ∉ items.*1 → table_at acc' name = table_at acc name) ∧
    (∀ name e, (name, e) ∈ items → ∃ t t', heap db !! table_ptr e = Some t ∧
       table_at acc' name = Some t' ∧ table_equiv t t').
Proof.
  revert acc. induction items as [|[name e] items IH]; intros acc Hnd Hok Hall.
  { exists [], acc. split_and!; [apply wr_ok_writes|done..|]. by intros ?? ?%elem_of_nil. }
  rewrite fmap_cons in *. apply NoDup_cons in Hnd as [Hn Hnd].
  destruct (Hall (name, e)) as [(t & Ht & Hs & Hname) Hfree]; [left|]. simpl in *.
  destruct (table_roundtrip readonly t new_RobimsTable Hs) as (b1 & t' & Hw1 & Hr1 & Heq).
  assert (ts_name (_schema t') = name) as Hname' by (destruct Heq as [-> _]; done).
  destruct (store_new_table acc name t' Hok Hfree) as [Hok1 Hat1].
  destruct (IH (store_table acc name t') Hnd Hok1) as (b2 & acc' & Hw2 & Hr2 & Hok2 & Hid2 & Ho2 & He2).
  { intros [n e'] Hp. destruct (Hall (n, e')) as [? Hfr]; [by right|]. split; [done|].
    simpl in *. unfold store_table. rewrite Hfree. simpl. rewrite lookup_insert_ne; [done|].
    intros ->. apply Hn. by apply (list_elem_of_fmap_2' fst _ (n, e')). }
  exists (b1 ++ b2), acc'. split_and!; [| |done| | |].
  - apply wr_seq_writes; [|done]. unfold save_entry. simpl. by rewrite Ht.
  - intros rest. cbn [load_tables length]. rewrite <-app_assoc, Hr1. cbn [mbind option_bind].
    by rewrite Hname', Hr2.
  - rewrite Hid2. unfold store_table. by rewrite Hfree.
  - intros n [Hne Hnot]%not_elem_of_cons. rewrite Ho2, Hat1 by done. by rewrite decide_False.
  - intros n e'. rewrite elem_of_cons. intros [[= -> ->]|Hin]; [|by apply He2].
    exists t, t'. rewrite Ho2, Hat1, decide_True by done. done.
Qed.

Definition db_header : list Z :=
  serialize_header {| version := 1; readonly_db := false; whole_db := true; partial_tables := [] |}.

Record db_savable (readonly : bool) db : Prop := {
  ds_header : Z.of_nat (length db_header) < 2 ^ 32;
  ds_size : Z.of_nat (size (tables db)) < 2 ^ 32;
  ds_tables : map_Forall (entry_savable db readonly) (tables db);
  ds_mapping : simple_savable (id_mapping db);
}.

(** C18. A database that can be saved is written completely to a file with
    enough room, and loading the file into any database replaces its
    contents: the same tables by name with the same contents, the same
    identifier mapping, and no dangling key. *)
Theorem RobimsDB_Save_Load readonly db :
  db_savable readonly db →
  ∃ bytes db',
    (∀ pre extra,
       RobimsDBImpl_Save db readonly (Some {| written := pre; room := length bytes + extra |})
       = Some (0, Some {| written := pre ++ bytes; room := extra |})) ∧
    (∀ db0 rest, RobimsDBImpl_Load db0 (Some (bytes ++ rest)) = Some (0, db')) ∧
    db_ok db' ∧ id_mapping db' = id_mapping db ∧
    ∀ name, option_Forall2 table_equiv (table_at db name) (table_at db' name).
Proof.
  intros [Hh Hsz Ht Hm]. set (items := f14_items (tables db)).
  assert (∀ name e, (name, e) ∈ items ↔ tables db !! name = Some e) as Hin
    by (intros; unfold items; by rewrite f14_items_perm, elem_of_map_to_list).
  destruct (load_tables_reads db readonly items new_RobimsDBImpl)
    as (b1 & new & Hw1 & Hr1 & Hok & Hid & Ho & He).
  { unfold items. rewrite f14_items_perm. apply NoDup_fst_map_to_list. }
  { split; simpl; intros *; by rewrite lookup_empty. }
  { intros [name e] Hp%Hin. split; [by apply Ht|done]. }
  destruct (simple_roundtrip readonly (id_mapping db) Hm) as (b2 & Hw2 & Hr2).
  assert (str_savable db_header) as Hstr.
  { split; [by apply serialize_header_nonempty|done]. }
  exists (str_bytes db_header ++ be32 (Z.of_nat (size (tables db))) ++ b1 ++ b2),
    (set_mapping new (id_mapping db)).
  split_and!; [| |by destruct Hok|done|].
  - intros pre extra. unfold RobimsDBImpl_Save.
    assert (writes (RobimsDBImpl_Save_file db readonly)
      (str_bytes db_header ++ be32 (Z.of_nat (size (tables db))) ++ b1 ++ b2)) as Hw.
    { apply wr_seq_writes.
      - intros p x. unfold write_header. fold db_header. by rewrite (str_writes _ Hstr).
      - apply wr_seq_writes; [apply file_write_uint32_writes|]. by apply wr_seq_writes. }
    by rewrite Hw.
  - intros db0 rest. unfold RobimsDBImpl_Load. rewrite <-!app_assoc, (str_reads _ Hstr).
    unfold db_header. rewrite parse_serialize_header. cbn [whole_db negb].
    rewrite file_read_uint32_reads by (unfold is_u32; lia).
    change (default 0 (Some (Z.of_nat (size (tables db))))) with (Z.of_nat (size (tables db))).
    unfold items in Hr1. rewrite f14_items_length in Hr1.
    rewrite Nat2Z.id, Hr1. cbn [mbind option_bind]. rewrite Hid. simpl IDMapping_Load.
    by rewrite Hr2.
  - intros name. change (table_at (set_mapping new (id_mapping db)) name) with (table_at new name).
    unfold table_at at 1. destruct (tables db !! name) as [e|] eqn:E; simpl.
    + destruct (He name e) as (t & t' & -> & -> & Heq); [by apply Hin|]. by constructor.
    + rewrite Ho; [by constructor|]. intros ([n e] & -> & Hp%Hin)%list_elem_of_fmap.
      simpl in E. congruence.
Qed.
End spec.
