(* ===== verification/Instances.v ===== *)
(** * Instances: executable instances of the interfaces to outside code

    One concrete function for every parameter of the model, with the laws the
    components rely on, so that the hypotheses of the properties are known to
    be satisfiable and the operations can be evaluated: hash maps listed in key
    order, messages encoded bit by bit, documents of a fixed collection, a cache
    that never forgets. *)

From Corelib Require Import SpecFloat.
From S2P Require Import Prelude Roaring Cache Common Float Schema Fields IdMapping Table.
From S2P Require Import TableCreation Query Db.

(** ** Hash maps *)

#[export] Instance sorted_f14_ops : F14Ops := {| f14_items A m := map_to_list m |}.
#[export] Instance sorted_f14 : F14.
Proof. split. done. Qed.

(** ** Messages *)

(** A positive number as bytes, one for each bit. *)
Fixpoint bits_of (p : positive) : list Z :=
  match p with xH => [2] | xO p => 0 :: bits_of p | xI p => 1 :: bits_of p end.

Fixpoint of_bits (l : list Z) : option positive :=
  match l with
  | [] => None
  | d :: l =>
      if d =? 2 then Some xH
      else p ← of_bits l; Some (if d =? 0 then xO p else xI p)
  end.

Lemma of_bits_of p : of_bits (bits_of p) = Some p.
Proof. induction p as [p IH|p IH|]; simpl; [by rewrite IH..|done]. Qed.

Definition encode_message `{Countable A} (a : A) : list Z := bits_of (encode a).
Definition decode_message `{Countable A} (l : list Z) : option A := p ← of_bits l; decode p.

Lemma decode_encode_message `{Countable A} (a : A) : decode_message (encode_message a) = Some a.
Proof. unfold decode_message, encode_message. rewrite of_bits_of. simpl. apply decode_encode. Qed.

Lemma encode_message_nonempty `{Countable A} (a : A) : encode_message a ≠ [].
Proof. unfold encode_message. by destruct (encode a). Qed.

#[export] Instance double_eq_dec : EqDecision double.
Proof. unfold double. solve_decision. Defined.

(** A float as its kind, sign, mantissa and exponent. *)
Definition double_parts (d : double) : Z * bool * positive * Z :=
  match d with
  | S754_zero s => (0, s, 1%positive, 0)
  | S754_infinity s => (1, s, 1%positive, 0)
  | S754_nan => (2, false, 1%positive, 0)
  | S754_finite s m e => (3, s, m, e)
  end.
Definition double_of_parts (p : Z * bool * positive * Z) : double :=
  match p with
  | (0, s, _, _) => S754_zero s
  | (1, s, _, _) => S754_infinity s
  | (2, _, _, _) => S754_nan
  | (_, s, m, e) => S754_finite s m e
  end.
#[export] Instance double_countable : Countable double.
Proof. refine (inj_countable' double_parts double_of_parts _). by intros []. Defined.

Definition type_code (t : FieldIndexType) : nat :=
  match t with
  | UNKNOWN_INDEX => 0 | SET_INDEX => 1 | WEIGHT_SET_INDEX => 2 | MUTEX_INDEX => 3
  | INT_INDEX => 4 | FLOAT_INDEX => 5 | BOOL_INDEX => 6
  end.
Definition type_of_code (n : nat) : FieldIndexType :=
  match n with
  | 1%nat => SET_INDEX | 2%nat => WEIGHT_SET_INDEX | 3%nat => MUTEX_INDEX
  | 4%nat => INT_INDEX | 5%nat => FLOAT_INDEX | 6%nat => BOOL_INDEX | _ => UNKNOWN_INDEX
  end.
#[export] Instance FieldIndexType_countable : Countable FieldIndexType.
Proof. refine (inj_countable' type_code type_of_code _). by intros []. Defined.

#[export] Instance FieldMeta_eq_dec : EqDecision FieldMeta.
Proof. solve_decision. Defined.
#[export] Instance FieldMeta_countable : Countable FieldMeta.
Proof.
  refine (inj_countable'
    (λ m, (fm_name m, fm_index_type m, fm_min m, fm_max m, fm_topk_limit m, fm_max_set_num m))
    (λ '(a, b, c, d, e, f), Build_FieldMeta a b c d e f) _). by intros [].
Defined.

#[export] Instance TableSchema_eq_dec : EqDecision TableSchema.
Proof. solve_decision. Defined.
#[export] Instance TableSchema_countable : Countable TableSchema.
Proof.
  refine (inj_countable'
    (λ t, (ts_name t, ts_id_field t, ts_index_field t, ts_disable_local_id_creation t))
    (λ '(a, b, c, d), Build_TableSchema a b c d) _). by intros [].
Defined.

#[export] Instance DBHeader_eq_dec : EqDecision DBHeader.
Proof. solve_decision. Defined.
#[export] Instance DBHeader_countable : Countable DBHeader.
Proof.
  refine (inj_countable' (λ h, (version h, readonly_db h, whole_db h, partial_tables h))
    (λ '(a, b, c, d), Build_DBHeader a b c d) _). by intros [].
Defined.

#[export] Instance bit_proto_ops : ProtoOps := {
  serialize_meta := encode_message; parse_meta := decode_message;
  serialize_schema := encode_message; parse_schema := decode_message;
}.
#[export] Instance bit_proto : Proto.
Proof.
  split; intros *; simpl; first [apply decode_encode_message | intros _; apply encode_message_nonempty].
Qed.

#[export] Instance bit_header_ops : HeaderOps :=
  {| serialize_header := encode_message; parse_header := decode_message |}.
#[export] Instance bit_header : Header.
Proof.
  split; intros *; simpl; first [apply decode_encode_message | intros _; apply encode_message_nonempty].
Qed.

(** ** Documents *)

Inductive json :=
| JMissing | JNull | JString (s : list Z) | JInt (n : Z) | JBool (b : bool)
| JArray (l : list json) | JObject (l : list (list Z * json)).

Definition member (doc : list (list Z * json)) (name : list Z) : json :=
  default JMissing ((λ r, r.2.2) <$> list_find (λ p, p.1 = name) doc).

(** Two documents about users, named by their texts. *)
Definition doc_alice : list (list Z * json) :=
  [(str "uid", JString (str "alice")); (str "tags", JArray [JString (str "go"); JString (str "chess")]);
   (str "score", JInt 9)].
Definition doc_bob : list (list Z * json) :=
  [(str "uid", JString (str "bob")); (str "tags", JArray [JString (str "chess")]);
   (str "score", JInt 5)].

#[export] Instance demo_json : SimdjsonOps := {
  json_doc := list (list Z * json);
  json_value := json;
  json_iterate text :=
    if bool_decide (text = str "alice.json") then Some doc_alice
    else if bool_decide (text = str "bob.json") then Some doc_bob else None;
  find_field := member;
  find_field_unordered := member;
  json_error v := match v with JMissing => true | _ => false end;
  is_null v := match v with JNull => true | _ => false end;
  get_string v := match v with JString s => Some s | _ => None end;
  get_int64 v := match v with JInt n => Some n | _ => None end;
  get_double v := match v with JInt n => Some (int_to_double n) | _ => None end;
  get_bool v := match v with JBool b => Some b | _ => None end;
  get_array v := match v with JArray l => Some l | _ => None end;
  get_object v := match v with JObject l => Some l | _ => None end;
  raw_json_token _ := [];
}.

(** ** Queries *)

#[export] Instance full_cache : EvictingCacheOps (gmap (list Z) Operand) := {
  cache_empty := ∅;
  cache_find c k := (c !! k, c);
  cache_insert c k v := <[k := v]> c;
}.

(** [users.score > 5] *)
Definition score_query : Operand :=
  Expression (OVariable [str "users"; str "score"] None) [(op_greater, OInt 5)].
#[export] Instance demo_query_parser : QueryParser :=
  {| phrase_parse text := if bool_decide (text = str "users.score > 5") then Some score_query else None |}.
#[export] Instance demo_table_parser : TableParser := demo_parser.
