(* ===== verification/DbWitness.v ===== *)
(** * DbWitness: a database at work

    The theorems on fields, tables, queries and databases applied to concrete states. *)

From S2P Require Import Prelude Roaring Cache Common Float Schema Bsi BsiSpec BsiUpdate BsiIndex BsiTheorems BsiValues BsiWitness Fields FieldsSpec FieldsPersist IdMapping Table TableSpec Query QuerySpec TableCreation Db DbSpec Instances.

(** * The properties of the fields and of the identifier mapping
    on concrete values *)

Definition set_history : list set_op :=
  [SetPut 1 (str "go"); SetPut 2 (str "go"); SetPut 1 (str "chess"); SetRemove 1].

Lemma set_field_select_witness :
  ∃ eq : gset Z,
    RobimsSetField_Select (foldl run_set_op ∅ set_history) {[1; 2; 3]} FIELD_OP_EQ (ArgString (str "go"))
    = (0, Some eq) ∧ eq.[2] = true ∧ eq.[1] = false.
Proof.
  pose proof (set_field_select set_history ({[1; 2; 3]} : gset Z) (str "go")) as Hs. cbv zeta in Hs.
  assert (foldl abs_set_op ∅ set_history !! str "go" = Some ({[2]} : gset Z)) as E
    by (vm_compute; reflexivity).
  rewrite E in Hs. destruct Hs as (eq & neq & Hq & _ & Hin). exists eq. split; [exact Hq|].
  rewrite (proj1 (Hin 2)), (proj1 (Hin 1)). split; vm_compute; reflexivity.
Defined.

Definition seven : RoaringBitmap (gset Z) := {| bitmap := Some {[7]}; _readonly := false |}.

Lemma bool_field_select_witness :
  ∃ sel : gset Z,
    RobimsBoolField_Select (RobimsBoolField_Put seven 4 1)
      {[4; 7; 9]} FIELD_OP_EQ (ArgInt 1) = (0, Some sel) ∧ sel.[4] = true.
Proof.
  destruct (bool_field_select seven {[7]} {[4; 7; 9]} 4 1 4 eq_refl)
    as (sel & Hsel & Heq & _).
  exists (sel FIELD_OP_EQ 1). split; [apply Hsel; left; reflexivity|]. rewrite (Heq 1). reflexivity.
Defined.

Lemma int_field_remove_keeps_witness : models (RobimsIntField_Remove 77 demo 2) demo_map.
Proof.
  apply (int_field_remove_keeps 77 demo demo_map 2 demo_models). rewrite demo_depth. lia.
Defined.

(** ** Weights *)

(** One identifier at most. *)
Definition weight_meta : FieldMeta :=
  {| fm_name := str "interests"; fm_index_type := WEIGHT_SET_INDEX; fm_min := int_to_double 0;
     fm_max := int_to_double 0; fm_topk_limit := 1; fm_max_set_num := 0 |}.

Lemma small_float_u32 n : n ∈ [3; 5] → is_u32 (int_to_float n).
Proof.
  rewrite !elem_of_cons, elem_of_nil. intros [->|[->|[]]]; unfold is_u32; vm_compute;
    intuition discriminate.
Qed.

(** Identifier 2 comes with the weight 3 after 1 came with 5: it is the one
    that is dropped, and the bitmap still has it. *)
Lemma weight_put_limit_witness :
  ∃ (bms bms' : gmap (list Z) (NamedWeightRoaringBitmap (gset Z))) bm' b',
    RobimsWeightSetField_Put weight_meta ∅ 1 (str "go") (int_to_float 5) = bms ∧
    RobimsWeightSetField_Put weight_meta bms 2 (str "go") (int_to_float 3) = bms' ∧
    bms' !! str "go" = Some bm' ∧ id_weights bm' !! 2 = None ∧
    bitmap (nw_bitmap bm') = Some b' ∧ b'.[2] = true.
Proof.
  destruct (weight_put_limit (B := gset Z) weight_meta ∅ 1 (str "go") (int_to_float 5))
    as (bm1 & b0 & b1 & E1 & Hwf & _ & _ & _ & Hw1);
    [apply new_weight_set_wf|unfold is_u32; lia|apply small_float_u32; set_solver|].
  cbn in Hw1.
  destruct (weight_put_limit (B := gset Z) weight_meta (<[str "go" := bm1]> ∅) 2 (str "go") (int_to_float 3))
    as (bm2 & b1' & b2 & E2 & _ & _ & Hb2 & Hor & Hw2); rewrite ?lookup_insert_eq in *;
    [exact Hwf|unfold is_u32; lia|apply small_float_u32; set_solver|].
  exists (<[str "go" := bm1]> ∅), (<[str "go" := bm2]> (<[str "go" := bm1]> ∅)), bm2, b2.
  split_and!; [exact E1|exact E2|apply lookup_insert_eq| |exact Hb2|rewrite Hor; reflexivity].
  change (default (new_weight_set (str "go")) (Some bm1)) with bm1 in Hw2. rewrite Hw1 in Hw2.
  cbn in Hw2. destruct Hw2 as (e & we & He & -> & _ & Hmin).
  assert (e = 2) as ->; [|apply lookup_delete_eq].
  apply lookup_insert_Some in He as [[<- _]|[Hne He]]; [done|].
  apply lookup_insert_Some in He as [[<- <-]|[_ He]]; [|by rewrite lookup_empty in He].
  exfalso. destruct (Hmin 2 (int_to_float 3)) as [Hlt|[Heq _]]; [reflexivity|..].
  - revert Hlt. vm_compute. discriminate.
  - revert Heq. vm_compute. discriminate.
Defined.

Lemma weight_remove_result_witness :
  (RobimsWeightSetField_Remove
     (RobimsWeightSetField_Put weight_meta (∅ : gmap (list Z) (NamedWeightRoaringBitmap (gset Z)))
        1 (str "go") (int_to_float 5)) 3).1 = -1.
Proof.
  pose proof (weight_remove_result
    (RobimsWeightSetField_Put weight_meta (∅ : gmap (list Z) (NamedWeightRoaringBitmap (gset Z)))
        1 (str "go") (int_to_float 5)) 3) as Hr.
  destruct (RobimsWeightSetField_Remove _ _) as [rc bms']. destruct Hr as (Hrc & Hne & _). apply Hne.
  intros E. destruct (proj1 Hrc E (str "go") _ ltac:(vm_compute; reflexivity)) as [x Hx].
  revert Hx. vm_compute. discriminate.
Defined.

(** ** Files *)

Definition score_field : RobimsField (gset Z) := {| _meta := demo_meta; _impl := IntField demo |}.
Definition score_field0 : RobimsField (gset Z) := {| _meta := demo_meta; _impl := IntField demo0 |}.

Lemma score_savable readonly : field_savable readonly score_field.
Proof.
  split; [split; [apply encode_message_nonempty|vm_compute; reflexivity]|].
  split; [apply demo_savable|apply demo_models].
Qed.

Lemma RobimsField_Save_Load_witness :
  ∃ bytes f', (∀ rest, RobimsField_Load score_field0 (bytes ++ rest) = (Some f', rest)) ∧
    _meta f' = demo_meta.
Proof.
  destruct (RobimsField_Save_Load true score_field score_field0 (score_savable true))
    as (bytes & f' & _ & Hl & Hm & _); [split; vm_compute; reflexivity|].
  exists bytes, f'. split; [exact Hl|exact Hm].
Defined.

(** ** Identifiers *)

Lemma id_mapping_history_witness :
  let s := run_requests new_SimpleIDMapping [(str "alice", true); (str "bob", true); (str "carol", true)] in
  (GetLocalID (run_requests new_SimpleIDMapping [(str "alice", true)]) (str "bob") true).1 = (0, 1) ∧
  GetID s 1 = Some (str "bob").
Proof.
  split; [vm_compute; reflexivity|].
  pose proof (id_mapping_history [(str "alice", true)] (str "bob") true [(str "carol", true)]) as Hh.
  apply Hh; [vm_compute; reflexivity|reflexivity].
Defined.

Definition two_users : SimpleIDMapping :=
  run_requests new_SimpleIDMapping [(str "alice", true); (str "bob", true)].

Lemma two_users_savable : simple_savable two_users.
Proof.
  split_and!; [|vm_compute; reflexivity|].
  - apply (run_requests_ok _ _ new_simple_ok). vm_compute. reflexivity.
  - change (real_local_mapping_ two_users)
      with (<[str "bob" := (1, str "bob")]> (<[str "alice" := (0, str "alice")]> (∅ : gmap (list Z) (Z * list Z)))).
    repeat apply map_Forall_insert_2; [..|apply map_Forall_empty];
      (split; [discriminate|vm_compute; reflexivity]).
Qed.

Lemma SimpleIDMapping_Save_Load_witness :
  ∃ bytes, ∀ rest, IDMapping_Load new_SimpleIDMapping (bytes ++ rest) = (Some two_users, rest).
Proof.
  destruct (SimpleIDMapping_Save_Load false two_users two_users_savable) as (bytes & _ & Hl).
  exists bytes. exact Hl.
Defined.

(** * The properties of tables, queries and databases on a small
    database

    One table of users with a set field and an integer field, and two
    documents. *)

Definition tags_meta : FieldMeta :=
  {| fm_name := str "tags"; fm_index_type := SET_INDEX; fm_min := int_to_double 0;
     fm_max := int_to_double 0; fm_topk_limit := 0; fm_max_set_num := 0 |}.
Definition users_schema : TableSchema :=
  {| ts_name := str "users"; ts_id_field := str "uid"; ts_index_field := [tags_meta; demo_meta];
     ts_disable_local_id_creation := false |}.
Definition users0 : RobimsTable (gset Z) := (RobimsTable_Init new_RobimsTable users_schema).2.

(** The table and the mapping after the documents were put. *)
Definition put_docs (t : RobimsTable (gset Z)) (ids : SimpleIDMapping) (docs : list (list Z))
    : option (RobimsTable (gset Z) * SimpleIDMapping) :=
  foldl (λ r doc, '(t, ids) ← r; '(_, t, ids) ← RobimsTable_Put t ids doc; Some (t, ids))
    (Some (t, ids)) docs.

Definition users_state : RobimsTable (gset Z) * SimpleIDMapping :=
  default (users0, new_SimpleIDMapping)
    (put_docs users0 new_SimpleIDMapping [str "alice.json"; str "bob.json"]).
Definition users : RobimsTable (gset Z) := users_state.1.

Definition users_db : RobimsDBImpl (gset Z) (gmap (list Z) Operand) :=
  {| id_mapping := users_state.2;
     tables := {[ str "users" := {| key_owner := 0; table_ptr := 0 |} ]};
     query_cache := ∅; heap := {[ 0%nat := users ]}; next_table := 1 |}.

(** ** Tables *)

Definition bob : json_doc := doc_bob.

Definition tags_field0 : RobimsField (gset Z) := {| _meta := tags_meta; _impl := SetField ∅ |}.

(** The state before bob was put. *)
Definition alice_state : RobimsTable (gset Z) * SimpleIDMapping :=
  default (users0, new_SimpleIDMapping) (put_docs users0 new_SimpleIDMapping [str "alice.json"]).
Definition bob_result : RobimsTable (gset Z) * SimpleIDMapping :=
  default alice_state (put_docs alice_state.1 alice_state.2 [str "bob.json"]).

(** The field [tags] with alice. *)
Definition tags_alice : gmap (list Z) (NamedRoaringBitmap (gset Z)) :=
  foldl run_set_op ∅ [SetRemove 0; SetPut 0 (str "go"); SetPut 0 (str "chess")].
Definition tags_alice_abs : gmap (list Z) (gset Z) :=
  foldl abs_set_op ∅ [SetRemove 0; SetPut 0 (str "go"); SetPut 0 (str "chess")].

Lemma table_put_query_witness :
  ∃ b, RobimsTable_Select bob_result.1 (str "tags") FIELD_OP_EQ (ArgString (str "chess")) = (0, Some b) ∧
    b.[1] = true ∧ b.[0] = true.
Proof.
  destruct (table_put_query alice_state.1 alice_state.2 (str "bob.json") bob_result.1 bob_result.2)
    as (doc & id & Hd & Hid & _ & Hall); [vm_compute; reflexivity|].
  assert (doc = bob) as -> by (injection Hd as <-; vm_compute; reflexivity).
  assert (id = 1) as -> by (revert Hid; vm_compute; congruence).
  destruct (Hall (str "tags") {| _meta := tags_meta; _impl := SetField tags_alice |}) as (Hset & _);
    [vm_compute; reflexivity|].
  destruct (Hset tags_alice tags_alice_abs) as (array & ss & Ha & Hss & Hq);
    [reflexivity|reflexivity|apply set_history_models|vm_compute; reflexivity|].
  assert (ss = [str "chess"]) as ->.
  { assert (array = ([JString (str "chess")] : list json_value)) as -> by (injection Ha as <-; vm_compute; reflexivity).
    assert (Some <$> ss = Some <$> [str "chess"]) as E by (rewrite <-Hss; reflexivity).
    apply (inj (fmap Some) _ _ E). }
  specialize (Hq (str "chess")). destruct (RobimsTable_Select _ _ _ _) as [rc [b|]].
  - destruct Hq as [-> Hb]. exists b. rewrite !Hb. split_and!; vm_compute; reflexivity.
  - destruct Hq as (_ & Hn & _). exfalso. apply Hn. left.
Defined.

(** Removing bob leaves his number in the bitmap of the table. *)
Lemma RobimsTable_Remove_effect_witness :
  ∃ t', fst <$> RobimsTable_Remove 0 users users_state.2 (str "bob.json") = Some (0, t') ∧
    (GetTableBitmap t').[1] = true.
Proof.
  destruct (RobimsTable_Remove 0 users users_state.2 (str "bob.json")) as [[[rc t'] ids']|] eqn:E;
    [|exfalso; revert E; vm_compute; discriminate].
  assert (rc = 0) as -> by (revert E; vm_compute; congruence).
  destruct (RobimsTable_Remove_effect 0 users users_state.2 (str "bob.json") t' ids' E)
    as (doc & id & _ & _ & Hb & _).
  exists t'. split; [reflexivity|]. rewrite Hb. vm_compute. reflexivity.
Defined.

(** ** Files *)

Definition tags_users : gmap (list Z) (NamedRoaringBitmap (gset Z)) :=
  foldl run_set_op ∅ [SetRemove 0; SetPut 0 (str "go"); SetPut 0 (str "chess");
                      SetRemove 1; SetPut 1 (str "chess")].
Definition tags_field : RobimsField (gset Z) := {| _meta := tags_meta; _impl := SetField tags_users |}.
Definition scores : BitSliceIndex (gset Z) := put_index (put_index demo0 0 9) 1 5.
Definition users_score : RobimsField (gset Z) := {| _meta := demo_meta; _impl := IntField scores |}.

Lemma users_fields : _fields users !! str "tags" = Some tags_field ∧ _fields users !! str "score" = Some users_score.
Proof. split; vm_compute; reflexivity. Qed.

(** Checking every entry of a map by evaluation. *)
Lemma map_Forall_check `{Countable K} {A} (P : K → A → Prop) (c : K → A → bool) (m : gmap K A) :
  (∀ k a, c k a = true → P k a) → forallb (λ p, c p.1 p.2) (map_to_list m) = true → map_Forall P m.
Proof.
  intros Hc Hall k a Hk. apply Hc. rewrite forallb_forall in Hall.
  apply (Hall (k, a)), list_elem_of_In. by apply elem_of_map_to_list.
Qed.

Definition named_check (readonly : bool) (name : list Z) (bm : NamedRoaringBitmap (gset Z)) : bool :=
  bool_decide (nb_name bm = name) && bool_decide (name ≠ [])
  && (Z.of_nat (length name) <? 2 ^ 32) && savable_check readonly (nb_bitmap bm).

Lemma named_check_ok readonly name bm : named_check readonly name bm = true → named_savable readonly name bm.
Proof.
  unfold named_check. rewrite !andb_true_iff, !bool_decide_eq_true, Z.ltb_lt.
  intros [[[Hn Hne] Hl] Hs]. split_and!; [done|by split|by apply savable_check_ok].
Qed.

Lemma tags_savable readonly : field_savable readonly tags_field.
Proof.
  split; [split; [apply encode_message_nonempty|vm_compute; reflexivity]|].
  split; [vm_compute; reflexivity|]. apply (map_Forall_check _ _ _ (named_check_ok readonly)).
  destruct readonly; vm_compute; reflexivity.
Qed.

Lemma scores_models : models scores (<[1 := 5]> (<[0 := 9]> ∅)).
Proof.
  assert (models demo0 ∅) as H0 by apply Init_models.
  apply (put_index_models demo0 _ 0 9), (put_index_models _ _ 1 5) in H0. exact H0.
Qed.

Lemma users_score_savable readonly : field_savable readonly users_score.
Proof.
  split; [split; [apply encode_message_nonempty|vm_compute; reflexivity]|].
  split; [split; [|vm_compute; reflexivity]|apply scores_models].
  assert (forallb (savable_check readonly) (_bitmaps scores) = true) as Hc
    by (destruct readonly; vm_compute; reflexivity).
  apply Forall_forall. intros rb Hrb. apply savable_check_ok.
  rewrite forallb_forall in Hc. by apply Hc, list_elem_of_In.
Qed.

Lemma users_savable readonly : table_savable readonly users.
Proof.
  assert (_schema users = users_schema) as Es by (vm_compute; reflexivity). split; rewrite ?Es.
  - split; [apply encode_message_nonempty|vm_compute; reflexivity].
  - apply savable_check_ok. destruct readonly; vm_compute; reflexivity.
  - apply (bool_decide_unpack _). vm_compute. exact I.
  - intros meta. cbn [ts_index_field users_schema]. rewrite !elem_of_cons, elem_of_nil.
    intros [->|[->|[]]].
    + exists tags_field. split; [apply users_fields|]. exists tags_field0.
      split_and!; [vm_compute; reflexivity|apply tags_savable|vm_compute; reflexivity].
    + exists users_score. split; [apply users_fields|]. exists score_field0.
      split_and!; [vm_compute; reflexivity|apply users_score_savable|split; vm_compute; reflexivity].
  - intros name f.
    change (_fields users) with (<[str "score" := users_score]>
      (<[str "tags" := tags_field]> (∅ : gmap (list Z) (RobimsField (gset Z))))).
    intros [[<- _]|[_ [[<- _]|[_ Hx]]%lookup_insert_Some]]%lookup_insert_Some;
      [right; left|left|by rewrite lookup_empty in Hx].
Qed.

Lemma RobimsTable_Save_Load_witness :
  ∃ bytes t', (∀ rest, RobimsTable_Load new_RobimsTable (bytes ++ rest) = Some (Some t', rest)) ∧
    GetTableBitmap t' ≡ GetTableBitmap users.
Proof.
  destruct (RobimsTable_Save_Load false users new_RobimsTable (users_savable false))
    as (bytes & t' & _ & Hl & _ & Hb & _).
  exists bytes, t'. split; [exact Hl|exact Hb].
Defined.

Lemma users_db_savable readonly : db_savable readonly users_db.
Proof.
  split; [vm_compute; reflexivity..| |].
  - apply map_Forall_singleton. exists users.
    split_and!; [reflexivity|apply users_savable|vm_compute; reflexivity].
  - assert (id_mapping users_db = two_users) as -> by (vm_compute; reflexivity). apply two_users_savable.
Qed.

Lemma RobimsDB_Save_Load_witness :
  ∃ bytes db', RobimsDBImpl_Load users_db (Some bytes) = Some (0, db') ∧
    id_mapping db' = id_mapping users_db.
Proof.
  destruct (RobimsDB_Save_Load true users_db (users_db_savable true)) as (bytes & db' & _ & Hl & _ & Hm & _).
  exists bytes, db'. split; [|exact Hm]. specialize (Hl users_db []). rewrite app_nil_r in Hl. exact Hl.
Defined.

(** ** Queries *)

Definition score_ptr : FieldPtr := (0%nat, str "score").
Definition resolved (e : Z) : Operand :=
  Expression (OVariable [str "users"; str "score"] (Some score_ptr)) [(op_greater, OInt e)].

Lemma score_points : points_to (deref users_db) score_ptr KInt.
Proof. exists users_score, (GetTableBitmap users). split; vm_compute; reflexivity. Qed.

Lemma QueryInterpreter_sound_witness :
  ∃ b, QueryInterpreter (deref users_db) (resolved 5) = Some (QBitmap b).
Proof.
  destruct (QueryInterpreter_sound (deref users_db) (resolved 5) TSet) as (v & E & Hv).
  - eapply ty_expression; [apply ty_variable, score_points|].
    eapply ty_cons; [apply ty_int| |apply ty_nil].
    apply ot_field_left. split; [|reflexivity]. unfold is_compare. set_solver.
  - destruct v as [| | | | | |b]; try contradiction. exists b. exact E.
Defined.

Definition answer (e : Z) : gset Z :=
  match QueryInterpreter (deref users_db) (resolved e) with Some (QBitmap b) => b | _ => ∅ end.

Lemma logic_chain_witness :
  ∃ b, QueryInterpreter (deref users_db) (Expression (resolved 3) [(op_and, resolved 7); (op_or, resolved 4)])
       = Some (QBitmap b) ∧ b.[1] = true.
Proof.
  destruct (logic_chain (deref users_db) (resolved 3) [(op_and, resolved 7); (op_or, resolved 4)]
    (answer 3) [answer 7; answer 4]) as (b & E & Hb).
  - vm_compute. reflexivity.
  - repeat constructor; vm_compute; reflexivity.
  - exists b. split; [exact E|]. rewrite Hb. vm_compute. reflexivity.
Defined.

Lemma compare_mirror_witness :
  QueryCalc (deref users_db) op_less (QInt 5) (QField score_ptr)
  = QueryCalc (deref users_db) op_greater (QField score_ptr) (QInt 5).
Proof.
  apply (compare_mirror (deref users_db) op_less score_ptr (QInt 5)); [|discriminate].
  unfold is_compare. set_solver.
Defined.

Lemma scores_int_models : int_models scores 0 15 (<[1 := 5]> (<[0 := 9]> ∅)).
Proof.
  split_and!.
  - split; [vm_compute; reflexivity|unfold is_i64; lia|lia|vm_compute; reflexivity|vm_compute; lia].
  - repeat apply map_Forall_insert_2; [lia..|apply map_Forall_empty].
  - rewrite !fmap_insert, fmap_empty. apply scores_models.
Qed.

Lemma query_int_compare_witness :
  ∃ b, QueryCalc (deref users_db) op_greater (QField score_ptr) (QInt 5) = Some (QBitmap b) ∧
    b.[0] = true.
Proof.
  destruct (query_int_compare (deref users_db) op_greater score_ptr users_score (GetTableBitmap users)
    scores 0 15 (<[1 := 5]> (<[0 := 9]> ∅)) 5) as (b & E & Hb).
  - vm_compute. reflexivity.
  - reflexivity.
  - apply scores_int_models.
  - vm_compute. lia.
  - lia.
  - set_solver.
  - exists b. split; [exact E|]. apply Hb. exists 9. split; [reflexivity|lia].
Defined.

Lemma error_operand_masked_witness :
  ∃ c, QueryCalc (deref users_db) op_less (QError (-77)) (QInt 1) = Some (QError c) ∧ c ≠ -77.
Proof.
  destruct (error_operand_masked (deref users_db) op_less (-77) (QInt 1)) as (c1 & c2 & E & _ & Hc & _).
  exists c1. split; [exact E|]. intros ->. rewrite !elem_of_cons, elem_of_nil in Hc.
  destruct Hc as [Hc|[Hc|[Hc|[]]]]; revert Hc; vm_compute; discriminate.
Defined.

(** ** The database *)

Lemma Select_page_witness :
  ∃ db', RobimsDBImpl_Select users_db (str "users.score > 5") 0 0
    = Some (0, {| ids := [str "alice"]; total := 1 |}, db').
Proof.
  destruct (Select_page users_db (str "users.score > 5") 0 0
    (Expression (resolved 5) []) (answer 5)) as (db' & E & _).
  - vm_compute. reflexivity.
  - vm_compute. reflexivity.
  - assert (answer 5 = {[0]}) as -> by (vm_compute; reflexivity).
    intros id Hid%bool_decide_eq_true%elem_of_singleton. subst id. unfold is_u32. lia.
  - exists db'. revert E. vm_compute. intros E. exact E.
Defined.

Lemma CreateTable_twice_dangles_witness :
  ∃ db', CreateTable users_db users_schema = Some (0, db') ∧
    RobimsDBImpl_Put db' (str "users") (str "bob.json") = None.
Proof.
  destruct (CreateTable_twice_dangles users_db users_schema users0 {| key_owner := 0; table_ptr := 0 |})
    as (db' & E & Hput & _).
  - vm_compute. reflexivity.
  - vm_compute. reflexivity.
  - reflexivity.
  - exists users. vm_compute. reflexivity.
  - simpl. lia.
  - exists db'. split; [exact E|]. apply (Hput (str "bob.json")).
Defined.
