(* ===== verification/DagGraph.v ===== *)
(** * DagGraph: building a dataflow graph (didagle: graph_vertex.cpp, graph.cpp)

    A graph is read from a script as a list of vertices that refer to each
    other by name; [Graph::Build] names the vertices, adds the vertices that
    evaluate conditions, resolves the references and rejects graphs with a
    cycle.  A [Vertex*] is the position of the vertex: first the declared ones
    ([Graph::vertex], a vector that is not resized), then the generated ones
    ([Graph::_gen_vertex]), in the order they were made.

    A build that returns -1 discards the graph, so the loops return [None]
    there.  The recursion of the cycle test has no bound in the source; it runs
    on fuel here, and runs out exactly when the source recurses for ever
    (DagGraphSpec.v). *)

From Stdlib Require Import Ascii.
From stdpp Require Import pretty.
From S2P Require Import Prelude.
Open Scope string_scope.
Open Scope list_scope.
Open Scope Z_scope.

(** ** Data *)

Inductive VertexResult := V_RESULT_INVALID | V_RESULT_OK | V_RESULT_ERR | V_RESULT_ALL.

#[export] Instance VertexResult_eq_dec : EqDecision VertexResult.
Proof. solve_decision. Defined.

(** The values of the enumeration, which are used as bit masks. *)
Definition result_bits (r : VertexResult) : Z :=
  match r with
  | V_RESULT_INVALID => 0
  | V_RESULT_OK => 1
  | V_RESULT_ERR => 2
  | V_RESULT_ALL => 3
  end.

Record GraphData := {
  gd_id : string;
  gd_field : string;
  gd_move_from_when_skipped : string;
  gd_aggregate : list string;
  gd_required : bool;
  gd_move : bool;
  gd_is_extern : bool;
  gd_is_in_out : bool;
}.

(** The references of a vertex to others, as the script has them. *)
Record VertexRefs := {
  successor : gset string;
  successor_on_ok : gset string;
  successor_on_err : gset string;
  consequent : gset string;
  alternative : gset string;
  deps : gset string;
  deps_on_ok : gset string;
  deps_on_err : gset string;
}.

Record VertexConf := {
  v_id : string;
  v_is_id_generated : bool;
  v_processor : string;
  v_select_args : list string;
  v_cond : string;
  v_expect : string;
  v_expect_deps : gset string;
  v_expect_config : string;
  v_is_start : bool;
  v_cluster : string;
  v_graph : string;
  v_while_cluster : string;
  v_ignore_processor_execute_error : bool;
  v_refs : VertexRefs;
  v_input : list GraphData;
  v_output : list GraphData;
}.

(** A vertex with the links [Build] makes. *)
Record Vertex := {
  v_conf : VertexConf;
  _successor_vertex : gset nat;
  _deps_idx : gmap nat nat;
  _deps_expected_results : list VertexResult;
}.

Record Graph := {
  g_name : string;
  g_vertex : list Vertex;
  g_declared : nat;
  _nodes : gmap string nat;
  _data_mapping_table : gmap string nat;
  _idx : Z;
}.

(** What [Graph::Build] reads of its cluster. *)
Record ClusterConf := {
  c_name : string;
  c_strict_dsl : bool;
  c_default_expr_processor : string;
  c_config_setting : list string;
}.

(** A field of a registered processor: its name, the number of its type and
    whether that is a shared pointer, and its flags. *)
Record FieldInfo := {
  fi_name : string;
  fi_id : Z;
  fi_shared : bool;
  fi_is_extern : bool;
  fi_is_aggregate : bool;
  fi_is_in_out : bool;
}.
Record ProcessorInfo := { pi_inputs : list FieldInfo; pi_outputs : list FieldInfo }.

(** The processors an application registers, and the order in which the
    standard library's unordered containers are iterated. *)
Class Runtime := {
  GetProcessor : string → option ProcessorInfo;
  set_order : gset nat → list nat;
  node_order : gmap string nat → list (string * nat);
}.
Class UnorderedLaws `{Runtime} : Prop := {
  set_order_perm s : set_order s ≡ₚ elements s;
  node_order_perm m : node_order m ≡ₚ map_to_list m;
}.

(** [std::set<std::string>] is iterated in lexicographic order. *)
Definition string_le (a b : string) : Prop := String.leb a b = true.
#[export] Instance string_le_dec : RelDecision string_le.
Proof. intros a b. unfold string_le. apply _. Defined.
Definition items (s : gset string) : list string := merge_sort string_le (elements s).

(** ** Updates *)

Definition set_ids (c : VertexConf) (id : string) (generated : bool) (processor cluster : string)
    : VertexConf :=
  {| v_id := id; v_is_id_generated := generated; v_processor := processor;
     v_select_args := v_select_args c; v_cond := v_cond c; v_expect := v_expect c;
     v_expect_deps := v_expect_deps c; v_expect_config := v_expect_config c;
     v_is_start := v_is_start c; v_cluster := cluster; v_graph := v_graph c;
     v_while_cluster := v_while_cluster c;
     v_ignore_processor_execute_error := v_ignore_processor_execute_error c;
     v_refs := v_refs c; v_input := v_input c; v_output := v_output c |}.

Definition set_refs (c : VertexConf) (refs : VertexRefs) : VertexConf :=
  {| v_id := v_id c; v_is_id_generated := v_is_id_generated c; v_processor := v_processor c;
     v_select_args := v_select_args c; v_cond := v_cond c; v_expect := v_expect c;
     v_expect_deps := v_expect_deps c; v_expect_config := v_expect_config c;
     v_is_start := v_is_start c; v_cluster := v_cluster c; v_graph := v_graph c;
     v_while_cluster := v_while_cluster c;
     v_ignore_processor_execute_error := v_ignore_processor_execute_error c;
     v_refs := refs; v_input := v_input c; v_output := v_output c |}.

Definition set_io (c : VertexConf) (input output : list GraphData) : VertexConf :=
  {| v_id := v_id c; v_is_id_generated := v_is_id_generated c; v_processor := v_processor c;
     v_select_args := v_select_args c; v_cond := v_cond c; v_expect := v_expect c;
     v_expect_deps := v_expect_deps c; v_expect_config := v_expect_config c;
     v_is_start := v_is_start c; v_cluster := v_cluster c; v_graph := v_graph c;
     v_while_cluster := v_while_cluster c;
     v_ignore_processor_execute_error := v_ignore_processor_execute_error c;
     v_refs := v_refs c; v_input := input; v_output := output |}.

(** A vertex as the script gives it, without links. *)
Definition unlinked (c : VertexConf) : Vertex :=
  {| v_conf := c; _successor_vertex := ∅; _deps_idx := ∅; _deps_expected_results := [] |}.
Definition set_conf (v : Vertex) (c : VertexConf) : Vertex :=
  {| v_conf := c; _successor_vertex := _successor_vertex v; _deps_idx := _deps_idx v;
     _deps_expected_results := _deps_expected_results v |}.

(** ** Vertex *)

Definition is_word_char (ch : Ascii.ascii) : bool :=
  let n := Z.of_nat (Ascii.nat_of_ascii ch) in
  ((65 <=? n) && (n <=? 90)) || ((97 <=? n) && (n <=? 122)) || ((48 <=? n) && (n <=? 57)) || (n =? 95).
Definition IsCondExpr (match_ : string) : bool := negb (forallb is_word_char (String.list_ascii_of_string match_)).

Definition IsCondVertex (c : VertexConf) : bool := negb (bool_decide (v_cond c = "")).

Section graph.
Context `{Runtime}.

Definition new_input (f : FieldInfo) : GraphData :=
  {| gd_id := fi_name f; gd_field := fi_name f; gd_move_from_when_skipped := ""; gd_aggregate := []; gd_required := false;
     gd_move := fi_is_in_out f; gd_is_extern := fi_is_extern f; gd_is_in_out := fi_is_in_out f |}.
Definition new_output (name : string) : GraphData :=
  {| gd_id := name; gd_field := name; gd_move_from_when_skipped := ""; gd_aggregate := []; gd_required := false;
     gd_move := false; gd_is_extern := false; gd_is_in_out := false |}.

(** The first entry for the field is marked, or a new one is added. *)
Fixpoint fill_input (f : FieldInfo) (input : list GraphData) : list GraphData :=
  match input with
  | [] => [new_input f]
  | d :: input =>
      if bool_decide (gd_field d = fi_name f) then
        (if fi_is_in_out f
         then {| gd_id := gd_id d; gd_field := gd_field d;
                 gd_move_from_when_skipped := gd_move_from_when_skipped d; gd_aggregate := gd_aggregate d;
                 gd_required := gd_required d; gd_move := true;
                 gd_is_extern := fi_is_extern f || gd_is_extern d; gd_is_in_out := true |}
         else d) :: input
      else d :: fill_input f input
  end.

Definition fill_output (name : string) (output : list GraphData) : list GraphData :=
  if existsb (λ d, bool_decide (gd_field d = name)) output then output
  else output ++ [new_output name].

(** [None] stands for the return code -1. *)
Definition FillInputOutput (c : VertexConf) : option VertexConf :=
  if bool_decide (v_processor c = "") then Some c
  else p ← GetProcessor (v_processor c);
       Some (set_io c (foldl (λ l f, fill_input f l) (v_input c) (pi_inputs p))
                      (foldl (λ l f, fill_output (fi_name f) l) (v_output c) (pi_outputs p))).

Definition MergeSuccessor (c : VertexConf) : VertexConf :=
  let r := v_refs c in
  set_refs c {| successor := successor r;
                successor_on_ok := successor_on_ok r ∪ consequent r;
                successor_on_err := successor_on_err r ∪ alternative r;
                consequent := consequent r; alternative := alternative r;
                deps := deps r; deps_on_ok := deps_on_ok r; deps_on_err := deps_on_err r |}.

Definition IsSuccessorsEmpty (v : Vertex) : bool := bool_decide (_successor_vertex v = ∅).
Definition IsDepsEmpty (v : Vertex) : bool := bool_decide (_deps_idx v = ∅).

Definition Verify (v : Vertex) : bool :=
  let r := v_refs (v_conf v) in
  if v_is_start (v_conf v)
  then bool_decide (deps r = ∅) && bool_decide (deps_on_ok r = ∅) && bool_decide (deps_on_err r = ∅)
  else negb (IsSuccessorsEmpty v && IsDepsEmpty v).

Definition add_successor (w : nat) (v : Vertex) : Vertex :=
  {| v_conf := v_conf v; _successor_vertex := {[w]} ∪ _successor_vertex v;
     _deps_idx := _deps_idx v; _deps_expected_results := _deps_expected_results v |}.

(** The first registration of a dependency decides what is expected of it. *)
Definition add_dependency (v : nat) (expected : VertexResult) (w : Vertex) : Vertex :=
  match _deps_idx w !! v with
  | Some _ => w
  | None =>
      let idx := size (_deps_idx w) in
      let deps_idx := <[v := idx]> (_deps_idx w) in
      {| v_conf := v_conf w; _successor_vertex := _successor_vertex w; _deps_idx := deps_idx;
         _deps_expected_results :=
           <[idx := expected]> (resize (size deps_idx) V_RESULT_INVALID (_deps_expected_results w)) |}
  end.

(** [self->Depend(v, expected)] *)
Definition Depend (self v : nat) (expected : VertexResult) (vs : list Vertex) : list Vertex :=
  alter (add_dependency v expected) self (alter (add_successor self) v vs).

Definition GetDependencyIndex (w : Vertex) (v : nat) : Z :=
  match _deps_idx w !! v with Some idx => Z.of_nat idx | None => -1 end.

Fixpoint BuildDeps (nodes : gmap string nat) (self : nat) (dependency : list string)
    (expected : VertexResult) (vs : list Vertex) : option (list Vertex) :=
  match dependency with
  | [] => Some vs
  | dep :: rest =>
      dep_vertex ← nodes !! dep;
      BuildDeps nodes self rest expected (Depend self dep_vertex expected vs)
  end.

Fixpoint BuildSuccessors (nodes : gmap string nat) (self : nat) (sucessor : list string)
    (expected : VertexResult) (vs : list Vertex) : option (list Vertex) :=
  match sucessor with
  | [] => Some vs
  | id :: rest =>
      successor_vertex ← nodes !! id;
      BuildSuccessors nodes self rest expected (Depend successor_vertex self expected vs)
  end.

Definition data_expected (d : GraphData) : VertexResult :=
  if gd_required d then V_RESULT_OK else V_RESULT_ALL.

Fixpoint build_aggregate (table : gmap string nat) (self : nat) (d : GraphData) (ids : list string)
    (vs : list Vertex) : option (list Vertex) :=
  match ids with
  | [] => Some vs
  | id :: rest =>
      match table !! id with
      | None => if gd_is_extern d then build_aggregate table self d rest vs else None
      | Some dep => build_aggregate table self d rest (Depend self dep (data_expected d) vs)
      end
  end.

(** An input that is not aggregated and comes from the vertex itself is only
    skipped for in-out data. *)
Definition build_input (table : gmap string nat) (self : nat) (d : GraphData) (vs : list Vertex)
    : option (list Vertex) :=
  if bool_decide (gd_aggregate d = []) then
    match table !! gd_id d with
    | None => if gd_is_extern d then Some vs else None
    | Some dep =>
        if gd_is_in_out d && (dep =? self)%nat then Some vs
        else Some (Depend self dep (data_expected d) vs)
    end
  else build_aggregate table self d (gd_aggregate d) vs.

Fixpoint build_inputs (table : gmap string nat) (self : nat) (input : list GraphData)
    (vs : list Vertex) : option (list Vertex) :=
  match input with
  | [] => Some vs
  | d :: rest => vs ← build_input table self d vs; build_inputs table self rest vs
  end.

(** [GraphCluster::ContainsConfigSetting] *)
Definition ContainsConfigSetting (cl : ClusterConf) (name : string) : bool :=
  existsb (λ cfg, match name with
                  | String "!"%char rest => bool_decide (cfg = rest)
                  | _ => bool_decide (cfg = name)
                  end) (c_config_setting cl).

Definition Vertex_Build (cl : ClusterConf) (nodes table : gmap string nat) (self : nat)
    (vs : list Vertex) : option (list Vertex) :=
  v ← vs !! self;
  let c := v_conf v in
  let r := v_refs c in
  if negb (forallb (λ m, IsCondExpr m || ContainsConfigSetting cl m) (v_select_args c)) then None
  else
    vs ← BuildDeps nodes self (items (deps r)) V_RESULT_ALL vs;
    vs ← BuildDeps nodes self (items (deps_on_ok r)) V_RESULT_OK vs;
    vs ← BuildDeps nodes self (items (deps_on_err r)) V_RESULT_ERR vs;
    vs ← BuildSuccessors nodes self (items (successor r)) V_RESULT_ALL vs;
    vs ← BuildSuccessors nodes self (items (successor_on_ok r)) V_RESULT_OK vs;
    vs ← BuildSuccessors nodes self (items (successor_on_err r)) V_RESULT_ERR vs;
    build_inputs table self (v_input c) vs.

(** ** Graph *)

Definition with_vertices (g : Graph) (vs : list Vertex) : Graph :=
  {| g_name := g_name g; g_vertex := vs; g_declared := g_declared g; _nodes := _nodes g;
     _data_mapping_table := _data_mapping_table g; _idx := _idx g |}.
Definition with_tables (g : Graph) (nodes table : gmap string nat) : Graph :=
  {| g_name := g_name g; g_vertex := g_vertex g; g_declared := g_declared g; _nodes := nodes;
     _data_mapping_table := table; _idx := _idx g |}.

Definition generateNodeId (g : Graph) : string * Graph :=
  ((g_name g +:+ "_" +:+ pretty (_idx g))%string,
   {| g_name := g_name g; g_vertex := g_vertex g; g_declared := g_declared g; _nodes := _nodes g;
      _data_mapping_table := _data_mapping_table g; _idx := _idx g + 1 |}).

Definition no_refs : VertexRefs :=
  {| successor := ∅; successor_on_ok := ∅; successor_on_err := ∅; consequent := ∅;
     alternative := ∅; deps := ∅; deps_on_ok := ∅; deps_on_err := ∅ |}.

(** The configuration of a new vertex that evaluates [cond]. *)
Definition cond_conf (cl : ClusterConf) (id cond : string) : VertexConf :=
  {| v_id := id; v_is_id_generated := true; v_processor := c_default_expr_processor cl;
     v_select_args := []; v_cond := cond; v_expect := ""; v_expect_deps := ∅;
     v_expect_config := ""; v_is_start := false; v_cluster := ""; v_graph := ""; v_while_cluster := "";
     v_ignore_processor_execute_error := true; v_refs := no_refs; v_input := []; v_output := [] |}.

(** Returns the new vertex.  A vertex that already has the generated name is
    replaced in the table. *)
Definition geneatedCondVertex (cl : ClusterConf) (g : Graph) (cond : string) : nat * Graph :=
  let '(id, g) := generateNodeId g in
  let r := length (g_vertex g) in
  let v := unlinked (MergeSuccessor (cond_conf cl id cond)) in
  (r, with_tables (with_vertices g (g_vertex g ++ [v]))
        (<[id := r]> (_nodes g)) (_data_mapping_table g)).

Definition FindVertexByData (g : Graph) (data : string) : option nat := _data_mapping_table g !! data.
Definition FindVertexById (g : Graph) (id : string) : option nat := _nodes g !! id.

(** *** The cycle test *)

Definition successors_of (vs : list Vertex) (v : nat) : gset nat :=
  match vs !! v with Some x => _successor_vertex x | None => ∅ end.

(** [None]: not finished within the fuel. *)
Fixpoint FindVertexInSuccessors (fuel : nat) (vs : list Vertex) (self v : nat) : option bool :=
  match fuel with
  | O => None
  | S fuel =>
      let succ := successors_of vs self in
      if bool_decide (succ = ∅) then Some false
      else if bool_decide (v ∈ succ) then Some true
      else (fix scan (l : list nat) : option bool :=
              match l with
              | [] => Some false
              | succeed :: l =>
                  found ← FindVertexInSuccessors fuel vs succeed v;
                  if found : bool then Some true else scan l
              end) (set_order succ)
  end.

Fixpoint test_circle_loop (fuel : nat) (vs : list Vertex) (l : list (string * nat)) : option bool :=
  match l with
  | [] => Some false
  | (_, v) :: l =>
      found ← FindVertexInSuccessors fuel vs v v;
      if found : bool then Some true else test_circle_loop fuel vs l
  end.

Definition TestCircle (fuel : nat) (g : Graph) : option bool :=
  test_circle_loop fuel (g_vertex g) (node_order (_nodes g)).

(** *** Graph::Build *)

Record build_state := { bs_graph : Graph; generated_cond_nodes : gmap string nat }.

(** The default processor, the name and the cluster of a vertex. *)
Definition name_vertex (cl : ClusterConf) (g : Graph) (n : VertexConf) : VertexConf * Graph :=
  let processor := if bool_decide (v_processor n = "") && negb (bool_decide (v_cond n = ""))
                   then c_default_expr_processor cl else v_processor n in
  let cluster := if negb (bool_decide (v_graph n = ""))
                    && (bool_decide (v_cluster n = ".") || bool_decide (v_cluster n = ""))
                 then c_name cl else v_cluster n in
  if bool_decide (v_id n = "") then
    if bool_decide (processor = "") then
      let '(id, g) := generateNodeId g in (set_ids n id true processor cluster, g)
    else (set_ids n processor (v_is_id_generated n) processor cluster, g)
  else (set_ids n (v_id n) (v_is_id_generated n) processor cluster, g).

Definition cond_refs (n : VertexConf) : VertexRefs :=
  let r := v_refs n in
  if bool_decide (v_expect_deps n = ∅)
  then {| successor := ∅; successor_on_ok := ∅; successor_on_err := ∅; consequent := ∅;
          alternative := ∅; deps := deps r; deps_on_ok := deps_on_ok r; deps_on_err := deps_on_err r |}
  else {| successor := ∅; successor_on_ok := ∅; successor_on_err := ∅; consequent := ∅;
          alternative := ∅; deps := v_expect_deps n; deps_on_ok := ∅; deps_on_err := ∅ |}.

Definition add_dep_on_ok (n : VertexConf) (id : string) : VertexConf :=
  let r := v_refs n in
  set_refs n {| successor := successor r; successor_on_ok := successor_on_ok r;
                successor_on_err := successor_on_err r; consequent := consequent r;
                alternative := alternative r; deps := deps r;
                deps_on_ok := {[id]} ∪ deps_on_ok r; deps_on_err := deps_on_err r |}.

(** The vertex waits for the vertex that evaluates its condition, which is
    shared by all vertices with the same condition. *)
Definition expect_vertex (cl : ClusterConf) (st : build_state) (n : VertexConf)
    : option (VertexConf * build_state) :=
  if bool_decide (v_expect n = "") then Some (n, st)
  else
    let st := match generated_cond_nodes st !! v_expect n with
              | Some _ => st
              | None =>
                  let '(r, g) := geneatedCondVertex cl (bs_graph st) (v_expect n) in
                  {| bs_graph := with_vertices g
                       (alter (λ v, set_conf v (set_refs (v_conf v) (cond_refs n))) r (g_vertex g));
                     generated_cond_nodes := <[v_expect n := r]> (generated_cond_nodes st) |}
              end in
    r ← generated_cond_nodes st !! v_expect n;
    v ← g_vertex (bs_graph st) !! r;
    Some (add_dep_on_ok n (v_id (v_conf v)), st).

Definition with_id (d : GraphData) : GraphData :=
  {| gd_id := if bool_decide (gd_id d = "") then gd_field d else gd_id d; gd_field := gd_field d;
     gd_move_from_when_skipped := gd_move_from_when_skipped d; gd_aggregate := gd_aggregate d; gd_required := gd_required d; gd_move := gd_move d;
     gd_is_extern := gd_is_extern d; gd_is_in_out := gd_is_in_out d |}.

Fixpoint register_outputs (self : nat) (output : list GraphData) (table : gmap string nat)
    : option (list GraphData * gmap string nat) :=
  match output with
  | [] => Some ([], table)
  | d :: rest =>
      if bool_decide (gd_field d = "") then None
      else
        let d := with_id d in
        match table !! gd_id d with
        | Some _ => None
        | None => '(rest, table) ← register_outputs self rest (<[gd_id d := self]> table);
                  Some (d :: rest, table)
        end
  end.

Definition name_inputs (input : list GraphData) : option (list GraphData) :=
  if existsb (λ d, bool_decide (gd_field d = "")) input then None else Some (with_id <$> input).

(** The body of the first loop of [Graph::Build], for the vertex at [self]. *)
Definition prepare_vertex (cl : ClusterConf) (st : build_state) (self : nat) : option build_state :=
  v ← g_vertex (bs_graph st) !! self;
  let '(n, g) := name_vertex cl (bs_graph st) (v_conf v) in
  let st := {| bs_graph := g; generated_cond_nodes := generated_cond_nodes st |} in
  if negb (bool_decide (v_expect n = "")) && negb (bool_decide (v_expect_config n = "")) then None
  else if negb (bool_decide (v_expect_config n = ""))
          && negb (ContainsConfigSetting cl (v_expect_config n)) then None
  else
    '(n, st) ← expect_vertex cl st n;
    let g := bs_graph st in
    if bool_decide (is_Some (_nodes g !! v_id n)) then None
    else
      let n := MergeSuccessor n in
      let nodes := <[v_id n := self]> (_nodes g) in
      n ← match FillInputOutput n with
          | Some n => Some n
          | None => if c_strict_dsl cl then None else Some n
          end;
      '(output, table) ← register_outputs self (v_output n) (_data_mapping_table g);
      input ← name_inputs (v_input n);
      let g := with_tables g nodes table in
      Some {| bs_graph := with_vertices g
                (<[self := set_conf v (set_io n input output)]> (g_vertex g));
              generated_cond_nodes := generated_cond_nodes st |}.

Fixpoint prepare_vertices (cl : ClusterConf) (st : build_state) (l : list nat) : option build_state :=
  match l with
  | [] => Some st
  | v :: l => st ← prepare_vertex cl st v; prepare_vertices cl st l
  end.

Fixpoint build_vertices (cl : ClusterConf) (nodes table : gmap string nat) (l : list nat)
    (vs : list Vertex) : option (list Vertex) :=
  match l with
  | [] => Some vs
  | v :: l => vs ← Vertex_Build cl nodes table v vs; build_vertices cl nodes table l vs
  end.

(** The graph with all links, before the checks. *)
Definition link_graph (cl : ClusterConf) (g : Graph) : option Graph :=
  st ← prepare_vertices cl {| bs_graph := g; generated_cond_nodes := ∅ |} (seq 0 (g_declared g));
  let g := bs_graph st in
  vs ← build_vertices cl (_nodes g) (_data_mapping_table g) (seq 0 (length (g_vertex g))) (g_vertex g);
  Some (with_vertices g vs).

Inductive BuildResult := Built (g : Graph) | Failed | Unfinished.

Definition Graph_Build (fuel : nat) (cl : ClusterConf) (g : Graph) : BuildResult :=
  match link_graph cl g with
  | None => Failed
  | Some g =>
      if negb (forallb Verify (g_vertex g)) then Failed
      else match TestCircle fuel g with
           | None => Unfinished
           | Some true => Failed
           | Some false => if bool_decide (_nodes g = ∅) && (length (g_vertex g) =? g_declared g)%nat
                           then Failed else Built g
           end
  end.
End graph.
