(* ===== verification/DagGraphSpec.v ===== *)
(** * DagGraphSpec: what [Graph::Build] promises

    The links of a built graph are exactly the references of the script, in
    both directions and with dense dependency indexes; a built graph has no
    cycle, and a graph without cycles is not rejected for having one. *)

From stdpp Require Import relations pretty.
From S2P Require Import Prelude DagGraph.
Open Scope string_scope.
Open Scope list_scope.
Open Scope Z_scope.

Implicit Types (vs : list Vertex) (v w self : nat) (nodes table : gmap string nat).

(** ** Links *)

(** [w] runs after [v]. *)
Definition edge vs v w : Prop := w ∈ successors_of vs v.

Record linked vs : Prop := {
  lk_deps v w : edge vs v w ↔ ∃ x, vs !! w = Some x ∧ is_Some (_deps_idx x !! v);
  lk_length w x : vs !! w = Some x → length (_deps_expected_results x) = size (_deps_idx x);
  lk_bound w x v i : vs !! w = Some x → _deps_idx x !! v = Some i → (i < size (_deps_idx x))%nat;
  lk_inj w x v v' i :
    vs !! w = Some x → _deps_idx x !! v = Some i → _deps_idx x !! v' = Some i → v = v';
}.

Lemma edge_range vs v w : edge vs v w → (v < length vs)%nat.
Proof.
  unfold edge, successors_of. destruct (vs !! v) eqn:E; [|set_solver].
  intros _. by eapply lookup_lt_Some.
Qed.

(** [vs'] is [vs] with the links of [E] added. *)
Record adds (E : nat → nat → Prop) vs vs' : Prop := {
  ad_length : length vs' = length vs;
  ad_conf i : v_conf <$> vs' !! i = v_conf <$> vs !! i;
  ad_edge v w : edge vs' v w ↔ edge vs v w ∨ E v w;
  ad_linked : linked vs → linked vs';
}.

Lemma adds_refl vs : adds (λ _ _, False) vs vs.
Proof. split; [done..|tauto|done]. Qed.

Lemma adds_trans E F vs1 vs2 vs3 :
  adds E vs1 vs2 → adds F vs2 vs3 → adds (λ v w, E v w ∨ F v w) vs1 vs3.
Proof.
  intros [L1 C1 D1 K1] [L2 C2 D2 K2]. split; [congruence|congruence| |auto].
  intros v w. rewrite D2, D1. tauto.
Qed.

Lemma adds_ext E F vs vs' : (∀ v w, E v w ↔ F v w) → adds E vs vs' → adds F vs vs'.
Proof. intros HEF [L C D K]. split; [done..| |done]. intros v w. rewrite D, HEF. done. Qed.

(** *** Depend *)

Lemma Depend_lookup self v e vs i :
  Depend self v e vs !! i
  = (λ x, (if decide (i = self) then add_dependency v e else id)
            ((if decide (i = v) then add_successor self else id) x)) <$> vs !! i.
Proof.
  unfold Depend. destruct (decide (i = self)) as [->|Hs].
  - rewrite list_lookup_alter_eq. destruct (decide (self = v)) as [->|Hv].
    + rewrite list_lookup_alter_eq. by destruct (vs !! v).
    + rewrite list_lookup_alter_ne by done. by destruct (vs !! self).
  - rewrite list_lookup_alter_ne by done. destruct (decide (i = v)) as [->|Hv].
    + rewrite list_lookup_alter_eq. by destruct (vs !! v).
    + rewrite list_lookup_alter_ne by done. by destruct (vs !! i).
Qed.

Lemma add_dependency_conf v e x : v_conf (add_dependency v e x) = v_conf x.
Proof. unfold add_dependency. by destruct (_ !! _). Qed.
Lemma add_dependency_successors v e x :
  _successor_vertex (add_dependency v e x) = _successor_vertex x.
Proof. unfold add_dependency. by destruct (_ !! _). Qed.

Lemma add_dependency_deps v e x k :
  is_Some (_deps_idx (add_dependency v e x) !! k) ↔ k = v ∨ is_Some (_deps_idx x !! k).
Proof.
  unfold add_dependency. destruct (_deps_idx x !! v) as [i|] eqn:E; simpl.
  - split; [tauto|]. intros [->|?]; [by rewrite E|done].
  - rewrite lookup_insert_is_Some. destruct (decide (v = k)); naive_solver.
Qed.

(** The invariant of one vertex: dense indexes, one expectation for each. *)
Record dense (x : Vertex) : Prop := {
  dn_length : length (_deps_expected_results x) = size (_deps_idx x);
  dn_bound v i : _deps_idx x !! v = Some i → (i < size (_deps_idx x))%nat;
  dn_inj v v' i : _deps_idx x !! v = Some i → _deps_idx x !! v' = Some i → v = v';
}.

Lemma add_dependency_dense v e x : dense x → dense (add_dependency v e x).
Proof.
  intros [L Bd I]. unfold add_dependency. destruct (_deps_idx x !! v) as [j|] eqn:E; [done|].
  split; simpl; rewrite ?map_size_insert_None by done.
  - by rewrite length_insert, length_resize.
  - intros k i [[<- <-]|[_ Hk]]%lookup_insert_Some; [lia|]. apply Bd in Hk. lia.
  - intros k k' i [[<- <-]|[_ Hk]]%lookup_insert_Some [[<- Hi]|[_ Hk']]%lookup_insert_Some; try done.
    + apply Bd in Hk'. lia.
    + subst i. apply Bd in Hk. lia.
    + by eapply I.
Qed.

Lemma linked_dense vs :
  linked vs ↔ (∀ v w, edge vs v w ↔ ∃ x, vs !! w = Some x ∧ is_Some (_deps_idx x !! v)) ∧
              ∀ w x, vs !! w = Some x → dense x.
Proof.
  split; [intros [D L Bd I]|intros [D Hd]].
  - split; [done|]. intros w x Hx. split; [by eapply L| |]; intros *; [by eapply Bd|by eapply I].
  - split; [done|..]; intros w x; intros; destruct (Hd w x) as [L Bd I]; eauto.
Qed.

Lemma edge_Depend self v e vs a b :
  (v < length vs)%nat →
  edge (Depend self v e vs) a b ↔ edge vs a b ∨ (a = v ∧ b = self).
Proof.
  intros Hv. unfold edge, successors_of. rewrite Depend_lookup.
  destruct (vs !! a) as [x|] eqn:Ea; simpl.
  - assert (_successor_vertex ((if decide (a = self) then add_dependency v e else id)
      ((if decide (a = v) then add_successor self else id) x))
      = if decide (a = v) then {[self]} ∪ _successor_vertex x else _successor_vertex x) as ->.
    { destruct (decide (a = self)); [rewrite add_dependency_successors|]; by destruct (decide (a = v)). }
    destruct (decide (a = v)); set_solver.
  - assert (a ≠ v) by (intros ->; apply lookup_ge_None in Ea; lia). set_solver.
Qed.

Lemma Depend_adds self v e vs :
  (self < length vs)%nat → (v < length vs)%nat →
  adds (λ a b, a = v ∧ b = self) vs (Depend self v e vs).
Proof.
  intros Hs Hv. split.
  - unfold Depend. by rewrite !length_alter.
  - intros i. rewrite Depend_lookup. destruct (vs !! i) as [x|]; simpl; [|done].
    destruct (decide (i = self)); [rewrite add_dependency_conf|]; by destruct (decide (i = v)).
  - intros a b. by apply edge_Depend.
  - rewrite !linked_dense. intros [Hd Hn]. split.
    + intros a b. rewrite edge_Depend, Hd by done. rewrite Depend_lookup.
      destruct (vs !! b) as [x|] eqn:Eb; simpl; last first.
      { split; [intros [(y & ? & _)|[-> ->]]|intros (y & ? & _)]; try done.
        apply lookup_ge_None in Eb. lia. }
      assert (∀ y, is_Some (_deps_idx ((if decide (b = v) then add_successor self else id) x) !! y)
                   ↔ is_Some (_deps_idx x !! y)) as Hy by (intros; by destruct (decide (b = v))).
      destruct (decide (b = self)) as [->|Hne]; split.
      * intros H0. eexists. split; [done|]. rewrite add_dependency_deps, Hy. naive_solver.
      * intros (y & [= <-] & H0). rewrite add_dependency_deps, Hy in H0. naive_solver.
      * intros [(y & [= <-] & H0)|[_ ?]]; [|done]. eexists. split; [done|]. simpl. by rewrite Hy.
      * intros (y & [= <-] & H0). left. eexists. split; [done|]. by apply Hy.
    + intros w x. rewrite Depend_lookup. destruct (vs !! w) as [y|] eqn:Ew; simpl; [|done].
      intros [= <-]. apply Hn in Ew.
      assert (dense ((if decide (w = v) then add_successor self else id) y)) as Hd'
        by (destruct (decide (w = v)); [|done]; by destruct Ew; split).
      destruct (decide (w = self)); [by apply add_dependency_dense|done].
Qed.

(** *** The loops over references *)

(** All positions of a name table are vertices. *)
Definition in_range (m : gmap string nat) (n : nat) : Prop := map_Forall (λ _ v, (v < n)%nat) m.

Lemma BuildDeps_adds nodes self l e vs vs' :
  in_range nodes (length vs) → (self < length vs)%nat →
  BuildDeps nodes self l e vs = Some vs' →
  adds (λ v w, w = self ∧ ∃ d, d ∈ l ∧ nodes !! d = Some v) vs vs'.
Proof.
  intros Hn. revert vs Hn. induction l as [|d l IH]; intros vs Hn Hs; simpl.
  { intros [= <-]. eapply adds_ext, adds_refl. intros. set_solver. }
  destruct (nodes !! d) as [v|] eqn:Ed; [|done]. simpl. intros Hb.
  pose proof (Depend_adds self v e vs Hs (Hn _ _ Ed)) as Ha.
  apply IH in Hb; [|by rewrite (ad_length _ _ _ Ha)..].
  eapply adds_ext, adds_trans, Hb; [|exact Ha]. intros a b. simpl. set_solver.
Qed.

Lemma BuildSuccessors_adds nodes self l e vs vs' :
  in_range nodes (length vs) → (self < length vs)%nat →
  BuildSuccessors nodes self l e vs = Some vs' →
  adds (λ v w, v = self ∧ ∃ d, d ∈ l ∧ nodes !! d = Some w) vs vs'.
Proof.
  intros Hn. revert vs Hn. induction l as [|d l IH]; intros vs Hn Hs; simpl.
  { intros [= <-]. eapply adds_ext, adds_refl. intros. set_solver. }
  destruct (nodes !! d) as [v|] eqn:Ed; [|done]. simpl. intros Hb.
  pose proof (Depend_adds v self e vs (Hn _ _ Ed) Hs) as Ha.
  apply IH in Hb; [|by rewrite (ad_length _ _ _ Ha)..].
  eapply adds_ext, adds_trans, Hb; [|exact Ha]. intros a b. simpl. set_solver.
Qed.

Lemma build_aggregate_adds table self d ids vs vs' :
  in_range table (length vs) → (self < length vs)%nat →
  build_aggregate table self d ids vs = Some vs' →
  adds (λ v w, w = self ∧ ∃ i, i ∈ ids ∧ table !! i = Some v) vs vs'.
Proof.
  intros Hn. revert vs Hn. induction ids as [|i ids IH]; intros vs Hn Hs; simpl.
  { intros [= <-]. eapply adds_ext, adds_refl. intros. set_solver. }
  destruct (table !! i) as [v|] eqn:Ei.
  - intros Hb. pose proof (Depend_adds self v (data_expected d) vs Hs (Hn _ _ Ei)) as Ha.
    apply IH in Hb; [|by rewrite (ad_length _ _ _ Ha)..].
    eapply adds_ext, adds_trans, Hb; [|exact Ha]. intros a b. simpl. set_solver.
  - destruct (gd_is_extern d); [|done]. intros Hb%IH; [|done..].
    eapply adds_ext, Hb. intros a b. set_solver.
Qed.

(** The vertex whose output an input is. *)
Definition feeds table (d : GraphData) v w : Prop :=
  if bool_decide (gd_aggregate d = [])
  then table !! gd_id d = Some v ∧ ¬ (gd_is_in_out d = true ∧ v = w)
  else ∃ i, i ∈ gd_aggregate d ∧ table !! i = Some v.

Lemma build_inputs_adds table self l vs vs' :
  in_range table (length vs) → (self < length vs)%nat →
  build_inputs table self l vs = Some vs' →
  adds (λ v w, w = self ∧ ∃ d, d ∈ l ∧ feeds table d v w) vs vs'.
Proof.
  intros Hn. revert vs Hn. induction l as [|d l IH]; intros vs Hn Hs; simpl.
  { intros [= <-]. eapply adds_ext, adds_refl. intros. set_solver. }
  destruct (build_input table self d vs) as [vs1|] eqn:E; simpl; [|done]. intros Hb.
  assert (adds (λ v w, w = self ∧ feeds table d v w) vs vs1) as Ha.
  { unfold build_input, feeds in *. destruct (bool_decide (gd_aggregate d = [])).
    - destruct (table !! gd_id d) as [v|] eqn:Ed.
      + destruct (gd_is_in_out d && (v =? self)%nat) eqn:Ex; injection E as <-.
        * apply andb_true_iff in Ex as [? ?%Nat.eqb_eq]. subst.
          eapply adds_ext, adds_refl. intros. naive_solver.
        * eapply adds_ext, Depend_adds; [|done|by eapply Hn]. apply andb_false_iff in Ex.
          rewrite Nat.eqb_neq in Ex. naive_solver congruence.
      + destruct (gd_is_extern d); [|done]. injection E as <-.
        eapply adds_ext, adds_refl. naive_solver.
    - apply build_aggregate_adds in E; [|done..]. done. }
  apply IH in Hb; [|by rewrite (ad_length _ _ _ Ha)..].
  eapply adds_ext, adds_trans, Hb; [|exact Ha]. intros a b. simpl. set_solver.
Qed.

Lemma items_elem s x : x ∈ items s ↔ x ∈ s.
Proof. unfold items. by rewrite merge_sort_Permutation, elem_of_elements. Qed.

(** The links the configuration [c] of the vertex [self] asks for. *)
Definition asks nodes table self (c : VertexConf) v w : Prop :=
  (w = self ∧ ∃ d, d ∈ deps (v_refs c) ∪ deps_on_ok (v_refs c) ∪ deps_on_err (v_refs c) ∧
                   nodes !! d = Some v) ∨
  (v = self ∧ ∃ d, d ∈ successor (v_refs c) ∪ successor_on_ok (v_refs c) ∪ successor_on_err (v_refs c) ∧
                   nodes !! d = Some w) ∨
  (w = self ∧ ∃ d, d ∈ v_input c ∧ feeds table d v w).

(** A step of a chain of loops: the next one starts from lists of the same
    length. *)
Ltac next_adds lem :=
  match goal with
  | |- (?m ≫= _) = Some _ → _ =>
      let E := fresh "E" in let vs' := fresh "vs" in
      destruct m as [vs'|] eqn:E; [|done]; apply lem in E;
      [cbn [mbind option_bind]|repeat match goal with
        | A : adds _ _ ?l |- context [length ?l] => rewrite (ad_length _ _ _ A)
        end; done..]
  end.

Lemma Vertex_Build_adds cl nodes table self x vs vs' :
  in_range nodes (length vs) → in_range table (length vs) → vs !! self = Some x →
  Vertex_Build cl nodes table self vs = Some vs' →
  adds (asks nodes table self (v_conf x)) vs vs'.
Proof.
  intros Hn Ht Hx. pose proof (lookup_lt_Some _ _ _ Hx) as Hs.
  unfold Vertex_Build. rewrite Hx. cbn [mbind option_bind].
  destruct (forallb _ _); [|done]. cbn [negb].
  do 3 next_adds BuildDeps_adds. do 3 next_adds BuildSuccessors_adds.
  intros E6%build_inputs_adds; [|repeat match goal with
        | A : adds _ _ ?l |- context [length ?l] => rewrite (ad_length _ _ _ A)
        end; done..].
  eapply adds_ext; [|eapply adds_trans; [exact E|eapply adds_trans; [exact E0|eapply adds_trans;
    [exact E1|eapply adds_trans; [exact E2|eapply adds_trans; [exact E3|eapply adds_trans;
    [exact E4|exact E6]]]]]]].
  intros v w. unfold asks. simpl. setoid_rewrite items_elem. set_solver.
Qed.

(** The links all vertices ask for. *)
Definition wants vs nodes table v w : Prop :=
  ∃ self x, vs !! self = Some x ∧ asks nodes table self (v_conf x) v w.

Lemma build_vertices_adds cl nodes table l vs vs' :
  in_range nodes (length vs) → in_range table (length vs) → Forall (λ i, (i < length vs)%nat) l →
  build_vertices cl nodes table l vs = Some vs' →
  adds (λ v w, ∃ self x, self ∈ l ∧ vs !! self = Some x ∧ asks nodes table self (v_conf x) v w) vs vs'.
Proof.
  revert vs. induction l as [|i l IH]; intros vs Hn Ht Hl; simpl.
  { intros [= <-]. eapply adds_ext, adds_refl. intros. set_solver. }
  apply Forall_cons in Hl as [Hi Hl]. destruct (lookup_lt_is_Some_2 vs i Hi) as [x Hx].
  destruct (Vertex_Build cl nodes table i vs) as [vs1|] eqn:E; simpl; [|done]. intros Hb.
  eapply Vertex_Build_adds in E; [|done..]. pose proof (ad_length _ _ _ E) as Hlen.
  apply IH in Hb; [|by rewrite Hlen..|by rewrite Hlen].
  eapply adds_ext, adds_trans, Hb; [|exact E]. intros v w. simpl. split.
  - intros [Ha|(self & y & Hin & Hy & Ha)]; [exists i, x; set_solver|].
    pose proof (ad_conf _ _ _ E self) as Hc. rewrite Hy in Hc. simpl in Hc.
    destruct (vs !! self) as [z|] eqn:Ez; [|done]. injection Hc as Hc. exists self, z.
    rewrite <-Hc. set_solver.
  - intros (self & y & Hin & Hy & Ha). apply elem_of_cons in Hin as [->|Hin]; [left; congruence|].
    right. pose proof (ad_conf _ _ _ E self) as Hc. rewrite Hy in Hc. simpl in Hc.
    destruct (vs1 !! self) as [z|] eqn:Ez; [|done]. injection Hc as Hc. exists self, z.
    by rewrite Hc.
Qed.

(** ** Names *)

(** A graph as it is read from a script. *)
Definition script_graph (name : string) (confs : list VertexConf) : Graph :=
  {| g_name := name; g_vertex := unlinked <$> confs; g_declared := length confs;
     _nodes := ∅; _data_mapping_table := ∅; _idx := 0 |}.

(** The state after the first [k] of [n] declared vertices: the tables point to
    the vertices they name. *)
Record named (n k : nat) (st : build_state) : Prop := {
  nm_declared : g_declared (bs_graph st) = n;
  nm_length : (n <= length (g_vertex (bs_graph st)))%nat;
  nm_unlinked i x : g_vertex (bs_graph st) !! i = Some x → x = unlinked (v_conf x);
  nm_nodes id v : _nodes (bs_graph st) !! id = Some v →
    ((v < k)%nat ∨ (n <= v)%nat) ∧ ∃ x, g_vertex (bs_graph st) !! v = Some x ∧ v_id (v_conf x) = id;
  nm_table id v : _data_mapping_table (bs_graph st) !! id = Some v →
    (v < k)%nat ∧ ∃ x d, g_vertex (bs_graph st) !! v = Some x ∧ d ∈ v_output (v_conf x) ∧ gd_id d = id;
}.

Section prepare.
Context `{Runtime}.

Lemma name_vertex_same cl g n n' g' :
  name_vertex cl g n = (n', g') →
  g_vertex g' = g_vertex g ∧ g_declared g' = g_declared g ∧ _nodes g' = _nodes g ∧
  _data_mapping_table g' = _data_mapping_table g.
Proof. unfold name_vertex, generateNodeId. repeat case_bool_decide; by intros [= <- <-]. Qed.

Lemma expect_vertex_named n k cl st c c' st' :
  (k <= n)%nat → named n k st → expect_vertex cl st c = Some (c', st') →
  named n k st' ∧ v_id c' = v_id c ∧
  ∀ i x, g_vertex (bs_graph st) !! i = Some x → g_vertex (bs_graph st') !! i = Some x.
Proof.
  intros Hk [Hd Hl Hu Hn Ht]. unfold expect_vertex. case_bool_decide; [by intros [= <- <-]|].
  destruct (generated_cond_nodes st !! v_expect c) as [r|] eqn:Er.
  { rewrite Er. simpl. destruct (g_vertex (bs_graph st) !! r); simpl; [|done]. by intros [= <- <-]. }
  unfold geneatedCondVertex, generateNodeId. cbn [fst snd g_vertex with_tables with_vertices].
  cbn [generated_cond_nodes bs_graph g_vertex]. rewrite lookup_insert_eq. cbn [mbind option_bind].
  set (vs := g_vertex (bs_graph st)) in *. set (f := λ x : Vertex, set_conf x _).
  set (id := (g_name (bs_graph st) +:+ "_" +:+ pretty (_idx (bs_graph st)))%string).
  set (v0 := unlinked (MergeSuccessor (cond_conf cl id (v_expect c)))).
  assert (alter f (length vs) (vs ++ [v0]) = vs ++ [f v0]) as Hvs.
  { rewrite alter_app_r_alt, Nat.sub_diag by lia. done. }
  rewrite Hvs. assert ((vs ++ [f v0]) !! length vs = Some (f v0)) as Hr
    by (rewrite lookup_app_r, Nat.sub_diag by lia; done).
  match goal with |- context [g_vertex (with_vertices ?g ?l) !! _] =>
    change (g_vertex (with_vertices g l)) with l end. rewrite Hr. cbn [mbind option_bind]. intros [= <- <-]. split; [|split; [done|intros; by apply lookup_app_l_Some]].
  split; simpl; [done|rewrite length_app; simpl; lia| | |].
  - intros i x [Hi|[_ Hi]]%lookup_app_Some; [by eapply Hu|].
    destruct (i - length vs)%nat; [|done]. by injection Hi as <-.
  - intros id' v [[<- <-]|[_ Hv]]%lookup_insert_Some.
    + split; [lia|]. exists (f v0). done.
    + apply Hn in Hv as (? & x & Hx & ?). split; [done|]. exists x.
      split; [by apply lookup_app_l_Some|done].
  - intros id' v (Hv & x & d & Hx & Hin & ?)%Ht. split; [done|]. exists x, d.
    split_and!; [by apply lookup_app_l_Some|done..].
Qed.

Lemma register_outputs_table self l table l' table' :
  register_outputs self l table = Some (l', table') →
  ∀ id v, table' !! id = Some v ↔ table !! id = Some v ∨ (v = self ∧ ∃ d, d ∈ l' ∧ gd_id d = id).
Proof.
  revert table l' table'. induction l as [|d l IH]; intros table l' table'; cbn [register_outputs].
  { intros [= <- <-] id v. set_solver. }
  case_bool_decide; [done|]. destruct (table !! gd_id (with_id d)) eqn:E; [done|].
  destruct (register_outputs self l _) as [[l1 t1]|] eqn:E1; simpl; [|done].
  intros [= <- <-] id v. rewrite (IH _ _ _ E1), lookup_insert_Some. split.
  - intros [[[<- <-]|[? ?]]|[-> (d' & ? & ?)]]; [|by left|]; right; (split; [done|]).
    + exists (with_id d). split; [left|done].
    + exists d'. split; [by right|done].
  - intros [Ht|[-> (d' & [->|Hd]%elem_of_cons & <-)]].
    + left. right. split; [|done]. intros Hid. rewrite Hid in E. congruence.
    + by left; left.
    + right. eauto.
Qed.

Lemma FillInputOutput_id c c' : FillInputOutput c = Some c' → v_id c' = v_id c.
Proof.
  unfold FillInputOutput. case_bool_decide; [by intros [= <-]|].
  destruct (GetProcessor _); simpl; [|done]. by intros [= <-].
Qed.

Lemma prepare_vertex_named n k cl st st' :
  (k < n)%nat → named n k st → prepare_vertex cl st k = Some st' → named n (S k) st'.
Proof.
  intros Hk Hnm. unfold prepare_vertex.
  destruct (g_vertex (bs_graph st) !! k) as [v|] eqn:Ev; [|done]. cbn [mbind option_bind].
  destruct (name_vertex cl (bs_graph st) (v_conf v)) as [c0 g0] eqn:E0.
  apply name_vertex_same in E0 as (Hv0 & Hd0 & Hn0 & Ht0).
  assert (named n k {| bs_graph := g0; generated_cond_nodes := generated_cond_nodes st |}) as Hnm0.
  { destruct Hnm. split; simpl; by rewrite ?Hv0, ?Hd0, ?Hn0, ?Ht0. }
  destruct (negb _ && negb _); [done|]. destruct (negb _ && negb _); [done|].
  destruct (expect_vertex _ _ _) as [[c1 st1]|] eqn:E1; [|done]. cbn [mbind option_bind].
  apply (expect_vertex_named n k) in E1 as (Hnm1 & Hid1 & Hkeep); [|lia|done].
  simpl in Hkeep. rewrite Hv0 in Hkeep. specialize (Hkeep k v Ev).
  case_bool_decide as Hfresh; [done|].
  destruct (match FillInputOutput (MergeSuccessor c1) with Some n => Some n | None => _ end)
    as [c2|] eqn:E2; [|done]. cbn [mbind option_bind].
  assert (v_id c2 = v_id c1) as Hid2.
  { destruct (FillInputOutput _) eqn:Ef; [injection E2 as <-; by apply FillInputOutput_id in Ef|].
    destruct (c_strict_dsl cl); [done|]. by injection E2 as <-. }
  destruct (register_outputs _ _ _) as [[output table]|] eqn:E3; [|done]. cbn [mbind option_bind].
  destruct (name_inputs _) as [input|]; [|done]. cbn [mbind option_bind]. intros [= <-].
  pose proof (register_outputs_table _ _ _ _ _ E3) as Ht. destruct Hnm1 as [Hd Hl Hu Hn Htab].
  pose proof (lookup_lt_Some _ _ _ Hkeep) as Hlt.
  split; simpl; [done|by rewrite length_insert| | |].
  - intros i x [[<- [<- _]]|[_ Hi]]%list_lookup_insert_Some; [|by eapply Hu].
    apply Hu in Hkeep. by rewrite Hkeep.
  - intros id i [[<- <-]|[_ Hi]]%lookup_insert_Some.
    + split; [lia|]. rewrite list_lookup_insert_eq by done. by eexists.
    + apply Hn in Hi as (Hor & x & Hx & ?). split; [lia|]. exists x.
      split; [|done]. rewrite list_lookup_insert_ne by lia. done.
  - intros id i [Hi|[-> (d & Hd' & Hid)]]%Ht.
    + apply Htab in Hi as (? & x & d & Hx & ?). split; [lia|]. exists x, d.
      rewrite list_lookup_insert_ne by lia. done.
    + split; [lia|]. eexists _, d. rewrite list_lookup_insert_eq by done. done.
Qed.

Lemma prepare_vertices_named n cl st st' j k :
  (k + j <= n)%nat → named n k st → prepare_vertices cl st (seq k j) = Some st' → named n (k + j) st'.
Proof.
  revert k st. induction j as [|j IH]; intros k st Hkj Hnm; simpl.
  { intros [= <-]. by rewrite Nat.add_0_r. }
  destruct (prepare_vertex cl st k) as [st1|] eqn:E; simpl; [|done].
  intros Hp%IH; [by rewrite Nat.add_succ_r|lia|]. eapply prepare_vertex_named, E; [lia|done].
Qed.

Lemma script_named name confs :
  named (length confs) 0 {| bs_graph := script_graph name confs; generated_cond_nodes := ∅ |}.
Proof.
  split; simpl; [done|by rewrite length_fmap| | |].
  - intros i x. rewrite list_lookup_fmap. destruct (confs !! i); simpl; [|done]. by intros [= <-].
  - intros id v. by rewrite lookup_empty.
  - intros id v. by rewrite lookup_empty.
Qed.

Lemma unlinked_linked vs : (∀ i x, vs !! i = Some x → x = unlinked (v_conf x)) → linked vs ∧ ∀ v w, ¬ edge vs v w.
Proof.
  intros Hu. assert (∀ v w, ¬ edge vs v w) as He.
  { intros v w. unfold edge, successors_of. destruct (vs !! v) as [x|] eqn:E; [|set_solver].
    apply Hu in E as ->. simpl. set_solver. }
  split; [|done]. apply linked_dense. split.
  - intros v w. split; [by intros ?%He|]. intros (x & Hx & Hs). apply Hu in Hx. rewrite Hx in Hs. simpl in Hs.
    rewrite lookup_empty in Hs. by destruct Hs.
  - intros w x Hx%Hu. rewrite Hx. split; simpl; [by rewrite map_size_empty|..]; intros *; by rewrite lookup_empty.
Qed.

(** The tables of a linked graph, the links and their indexes. *)
Lemma link_graph_spec cl name confs g :
  link_graph cl (script_graph name confs) = Some g →
  linked (g_vertex g) ∧
  (∀ v w, edge (g_vertex g) v w ↔ wants (g_vertex g) (_nodes g) (_data_mapping_table g) v w) ∧
  (∀ id v, _nodes g !! id = Some v → ∃ x, g_vertex g !! v = Some x ∧ v_id (v_conf x) = id) ∧
  (∀ id v, _data_mapping_table g !! id = Some v →
     ∃ x d, g_vertex g !! v = Some x ∧ d ∈ v_output (v_conf x) ∧ gd_id d = id).
Proof.
  unfold link_graph. destruct (prepare_vertices _ _ _) as [st|] eqn:Ep; [|done].
  cbn [mbind option_bind].
  apply (prepare_vertices_named (length confs)) in Ep; [|done|by apply script_named].
  destruct Ep as [Hd Hl Hu Hn Ht]. set (g0 := bs_graph st) in *.
  destruct (build_vertices _ _ _ _ _) as [vs|] eqn:Eb; [|done]. cbn [mbind option_bind]. intros [= <-].
  apply build_vertices_adds in Eb as [Len Conf Ed Lk].
  2: { intros id v (_ & x & Hx & _)%Hn. by eapply lookup_lt_Some. }
  2: { intros id v (_ & x & d & Hx & _)%Ht. by eapply lookup_lt_Some. }
  2: { apply Forall_forall. intros i Hi%elem_of_seq. lia. }
  destruct (unlinked_linked _ Hu) as [Hlk0 Hno].
  assert (∀ i x, g_vertex g0 !! i = Some x → ∃ y, vs !! i = Some y ∧ v_conf y = v_conf x) as Hback.
  { intros i x Hx. specialize (Conf i). rewrite Hx in Conf. simpl in Conf.
    destruct (vs !! i) as [y|]; [|done]. injection Conf as ?. eauto. }
  assert (∀ i x, vs !! i = Some x → ∃ y, g_vertex g0 !! i = Some y ∧ v_conf y = v_conf x) as Hforth.
  { intros i x Hx. specialize (Conf i). rewrite Hx in Conf. simpl in Conf.
    destruct (g_vertex g0 !! i) as [y|]; [|done]. injection Conf as ?. eauto. }
  simpl. split_and!; [by apply Lk| | |].
  - intros v w. rewrite Ed. unfold wants. split.
    + intros [?%Hno|(i & x & _ & Hx & Ha)]; [done|]. apply Hback in Hx as (y & Hy & Hc).
      exists i, y. by rewrite Hc.
    + intros (i & x & Hx & Ha). right. apply Hforth in Hx as (y & Hy & Hc). exists i, y.
      rewrite Hc. split_and!; [|done..]. apply elem_of_seq. apply lookup_lt_Some in Hy. lia.
  - intros id v (_ & x & Hx & <-)%Hn. apply Hback in Hx as (y & ? & Hc). exists y. by rewrite Hc.
  - intros id v (_ & x & d & Hx & ? & <-)%Ht. apply Hback in Hx as (y & ? & Hc).
    exists y, d. by rewrite Hc.
Qed.
End prepare.

(** ** The cycle test *)

Section cycles.
Context `{UnorderedLaws}.

(** The loop over the successors. *)
Fixpoint scan (find : nat → option bool) (l : list nat) : option bool :=
  match l with
  | [] => Some false
  | s :: l => found ← find s; if found : bool then Some true else scan find l
  end.

Lemma Find_unfold fuel vs u t :
  FindVertexInSuccessors (S fuel) vs u t =
  if bool_decide (t ∈ successors_of vs u) then Some true
  else scan (λ s, FindVertexInSuccessors fuel vs s t) (set_order (successors_of vs u)).
Proof.
  cbn [FindVertexInSuccessors]. case_bool_decide as He; [|case_bool_decide; [done|]].
  - rewrite He. rewrite bool_decide_eq_false_2 by set_solver.
    pose proof (set_order_perm ∅) as Hp. rewrite elements_empty in Hp.
    apply Permutation_nil_r in Hp. by rewrite Hp.
  - induction (set_order _) as [|s l IH]; simpl; [done|]. by destruct (FindVertexInSuccessors _ _ _ _) as [[]|].
Qed.

Lemma scan_true find l : scan find l = Some true → ∃ s, s ∈ l ∧ find s = Some true.
Proof.
  induction l as [|s l IH]; simpl; [done|]. destruct (find s) as [[]|] eqn:E; simpl; [|set_solver..].
  intros _. exists s. set_solver.
Qed.
Lemma scan_false find l : scan find l = Some false ↔ ∀ s, s ∈ l → find s = Some false.
Proof.
  induction l as [|s l IH]; simpl; [set_solver|]. split.
  - destruct (find s) as [[]|] eqn:E; simpl; [done| |done]. rewrite IH. set_solver.
  - intros Hall. rewrite (Hall s) by set_solver. simpl. apply IH. set_solver.
Qed.
Lemma scan_total find l : (∀ s, s ∈ l → is_Some (find s)) → is_Some (scan find l).
Proof.
  induction l as [|s l IH]; intros Hall; simpl; [done|].
  destruct (Hall s) as [[] ->]; [set_solver|done|]. simpl. apply IH. set_solver.
Qed.

Lemma set_order_elem s x : x ∈ set_order s ↔ x ∈ s.
Proof. by rewrite set_order_perm, elem_of_elements. Qed.

Lemma Find_true fuel vs u t : FindVertexInSuccessors fuel vs u t = Some true → tc (edge vs) u t.
Proof.
  revert u. induction fuel as [|fuel IH]; intros u; [done|]. rewrite Find_unfold.
  case_bool_decide; [intros _; by apply tc_once|].
  intros (s & Hs%set_order_elem & Hf)%scan_true. eapply tc_l; [exact Hs|by apply IH].
Qed.

(** A search that fails has seen everything that is reachable. *)
Lemma Find_false fuel vs u t :
  FindVertexInSuccessors fuel vs u t = Some false → ¬ tc (edge vs) u t ∧ sn (edge vs) u.
Proof.
  revert u. induction fuel as [|fuel IH]; intros u; [done|]. rewrite Find_unfold.
  case_bool_decide as Ht; [done|]. rewrite scan_false. setoid_rewrite set_order_elem. intros Hall.
  split.
  - intros Htc. inversion Htc as [|? s ? Hs Htc']; subst; [done|].
    by destruct (IH s (Hall s Hs)).
  - constructor. intros s Hs. by destruct (IH s (Hall s Hs)).
Qed.

Lemma Find_total vs u t : sn (edge vs) u → ∃ n, ∀ fuel, (n <= fuel)%nat → is_Some (FindVertexInSuccessors fuel vs u t).
Proof.
  intros Hsn. induction Hsn as [u _ IH]. unfold flip in IH.
  assert (∃ n, ∀ s, s ∈ set_order (successors_of vs u) →
            ∀ fuel, (n <= fuel)%nat → is_Some (FindVertexInSuccessors fuel vs s t)) as [n Hn].
  { assert (∀ s, s ∈ set_order (successors_of vs u) → edge vs u s) as Hin
      by (intros s; by rewrite set_order_elem).
    induction (set_order _) as [|s l IHl]; [exists 0%nat; set_solver|].
    destruct IHl as [n Hn]; [set_solver|]. destruct (IH s) as [m Hm]; [apply Hin; set_solver|].
    exists (n + m)%nat. intros s' [->|Hs']%elem_of_cons fuel Hf; [apply Hm; lia|].
    apply Hn; [done|lia]. }
  exists (S n). intros [|fuel] Hf; [lia|]. rewrite Find_unfold. case_bool_decide; [done|].
  apply scan_total. intros s Hs. apply Hn; [done|lia].
Qed.

Lemma tc_range vs u t : linked vs → tc (edge vs) u t → (t < length vs)%nat.
Proof.
  intros Hl Ht. induction Ht as [u t He|u s t He _ IH]; [|done].
  apply (lk_deps vs Hl) in He as (x & Hx & _). by eapply lookup_lt_Some.
Qed.

Lemma acyclic_sn vs u : linked vs → (∀ v, ¬ tc (edge vs) v v) → sn (edge vs) u.
Proof.
  intros Hl Hac. apply tc_finite_sn; [intros v; apply Hac|].
  exists (seq 0 (length vs)). intros t Ht%tc_range; [|done]. apply elem_of_seq. lia.
Qed.

Lemma test_loop_scan fuel vs (l : list (string * nat)) :
  test_circle_loop fuel vs l = scan (λ v, FindVertexInSuccessors fuel vs v v) l.*2.
Proof. induction l as [|[n v] l IH]; simpl; [done|]. by rewrite IH. Qed.

(** The vertices that are in the table of names. *)
Definition known (g : Graph) v : Prop := ∃ id, _nodes g !! id = Some v.

Lemma node_order_known g v : v ∈ (node_order (_nodes g)).*2 ↔ known g v.
Proof.
  rewrite node_order_perm. unfold known. rewrite list_elem_of_fmap. split.
  - intros ([id w] & -> & Hin). apply elem_of_map_to_list in Hin. eauto.
  - intros [id Hid]. exists (id, v). split; [done|]. by apply elem_of_map_to_list.
Qed.

Lemma TestCircle_false fuel g v :
  TestCircle fuel g = Some false → known g v → ¬ tc (edge (g_vertex g)) v v ∧ sn (edge (g_vertex g)) v.
Proof.
  unfold TestCircle. rewrite test_loop_scan, scan_false. intros Hall Hv%node_order_known.
  by eapply Find_false, Hall.
Qed.

Lemma TestCircle_terminates g :
  linked (g_vertex g) → (∀ v, ¬ tc (edge (g_vertex g)) v v) →
  ∃ n, ∀ fuel, (n <= fuel)%nat → TestCircle fuel g = Some false.
Proof.
  intros Hl Hac. unfold TestCircle. induction (node_order (_nodes g)) as [|[id v] l [n Hn]].
  { by exists 0%nat. }
  destruct (Find_total (g_vertex g) v v) as [m Hm]; [by apply acyclic_sn|]. exists (n + m)%nat.
  intros fuel Hf. cbn [test_circle_loop]. destruct (Hm fuel) as [[] E]; [lia|..]; rewrite E; simpl.
  - apply Find_true in E. by apply Hac in E.
  - apply Hn. lia.
Qed.

(** A search for a vertex that is not on a cycle, in a graph where it reaches
    one, never returns. *)
Lemma Find_diverges vs v : ¬ tc (edge vs) v v → ¬ sn (edge vs) v →
  ∀ fuel, FindVertexInSuccessors fuel vs v v = None.
Proof.
  intros Hno Hsn fuel. destruct (FindVertexInSuccessors fuel vs v v) as [[]|] eqn:E; [|..|done].
  - by apply Find_true in E.
  - by apply Find_false in E as [_ ?].
Qed.

Lemma cycle_not_sn vs v w : rtc (edge vs) v w → tc (edge vs) w w → ¬ sn (edge vs) v.
Proof.
  intros Hr Hc Hsn. pose proof (sn_step_rtc v w Hsn Hr) as Hw. clear Hr Hsn.
  induction Hw as [w _ IH]. unfold flip in IH.
  inversion Hc as [? ? He|? s ? He Hs]; subst; [by apply (IH w)|].
  apply (IH s He). eapply tc_r; [exact Hs|exact He].
Qed.
End cycles.

(** ** Properties *)

Section properties.
Context `{UnorderedLaws}.

Lemma Built_inv fuel cl g0 g :
  Graph_Build fuel cl g0 = Built g →
  link_graph cl g0 = Some g ∧ forallb Verify (g_vertex g) = true ∧ TestCircle fuel g = Some false.
Proof.
  unfold Graph_Build. destruct (link_graph cl g0) as [g1|]; [|done].
  destruct (forallb Verify (g_vertex g1)) eqn:Ev; simpl; [|done].
  destruct (TestCircle fuel g1) as [[]|] eqn:Et; [done| |done].
  destruct (_ && _); [done|]. by intros [= <-].
Qed.


(** The cycle test ends on every graph without cycles, so a script whose
    references resolve, whose vertices pass their checks and which has no
    cycle is built: with enough fuel the result is the linked graph. *)
Theorem Graph_Build_complete cl name confs g :
  link_graph cl (script_graph name confs) = Some g →
  forallb Verify (g_vertex g) = true → _nodes g ≠ ∅ → (∀ v, ¬ tc (edge (g_vertex g)) v v) →
  ∃ n, ∀ fuel, (n <= fuel)%nat → Graph_Build fuel cl (script_graph name confs) = Built g.
Proof.
  intros Hl Hv Hne Hac. destruct (TestCircle_terminates g) as [n Hn];
    [by apply link_graph_spec in Hl as [? _]|done|]. exists n. intros fuel Hf. unfold Graph_Build.
  rewrite Hl, Hv, (Hn fuel Hf). simpl. by rewrite bool_decide_eq_false_2.
Qed.

(** The cycle test does not end on every graph with a cycle: when the first
    vertex it looks at is not on a cycle but leads to one, the recursion goes
    round that cycle for ever. *)
Theorem TestCircle_diverges g id v rest w :
  node_order (_nodes g) = (id, v) :: rest →
  ¬ tc (edge (g_vertex g)) v v → rtc (edge (g_vertex g)) v w → tc (edge (g_vertex g)) w w →
  ∀ fuel, TestCircle fuel g = None.
Proof.
  intros Ho Hno Hr Hc fuel. unfold TestCircle. rewrite Ho. cbn [test_circle_loop].
  rewrite Find_diverges; [done|done|]. by eapply cycle_not_sn.
Qed.
End properties.
