(* ===== verification/DagData.v ===== *)
(** * DagData: the data contexts of a run (didagle: graph_processor_api.h, graph_processor.cpp)

    A [GraphDataContext] maps a name and a type to a pointer; what it does not
    have is looked up in its parent, in the container of injected objects and
    in the contexts of the subgraphs that have run.  Contexts refer to each
    other by address, in both directions, and a search carries the set of the
    contexts it has already been to.

    A pointer is an address, [None] the null pointer.  The templates over a type
    [T] take the number of the type as part of the key, and whether [T] is a
    shared pointer, whose reference is kept apart ([_sval]) from the raw pointer
    ([val]).  [None] as the result of a search says that the fuel ran out or
    that a context does not exist. *)

From S2P Require Import Prelude.
Open Scope Z_scope.

(** ** Data *)

(** A name and the number of a type. *)
Definition DIObjectKey : Type := string * Z.

Inductive ptr_kind := RawPtr | SharedPtr.

Record DataValue := { val : option Z; _sval : option Z; dv_idx : nat }.

(** [_data_array] points into the table, by key. *)
Record GraphDataContext := {
  _data_table : gmap DIObjectKey DataValue;
  _data_array : list DIObjectKey;
  _parent : option nat;
  _executed_childrens : list (option nat);
  _disable_entry_creation : bool;
}.

Abbreviation contexts := (gmap nat GraphDataContext).

Record GraphDataGetOptions := { with_parent : bool; with_di_container : bool; with_children : bool }.
Definition default_options : GraphDataGetOptions :=
  {| with_parent := true; with_di_container := true; with_children := true |}.

(** ** One context *)

Definition new_GraphDataContext : GraphDataContext :=
  {| _data_table := ∅; _data_array := []; _parent := None; _executed_childrens := [];
     _disable_entry_creation := false |}.

Definition with_table (t : gmap DIObjectKey DataValue) (c : GraphDataContext) : GraphDataContext :=
  {| _data_table := t; _data_array := _data_array c; _parent := _parent c;
     _executed_childrens := _executed_childrens c; _disable_entry_creation := _disable_entry_creation c |}.

(** The entry an index or a key refers to. *)
Definition GetDataValue (c : GraphDataContext) (key : DIObjectKey) (idx : Z) : option DIObjectKey :=
  if (0 <=? idx) && (idx <? Z.of_nat (length (_data_array c))) then _data_array c !! Z.to_nat idx
  else if bool_decide (is_Some (_data_table c !! key)) then Some key else None.

Definition RegisterData (c : GraphDataContext) (id : DIObjectKey) : nat * GraphDataContext :=
  match _data_table c !! id with
  | Some dv => (dv_idx dv, c)
  | None =>
      let idx := length (_data_array c) in
      (idx, {| _data_table := <[id := {| val := None; _sval := None; dv_idx := idx |}]> (_data_table c);
               _data_array := _data_array c ++ [id]; _parent := _parent c;
               _executed_childrens := _executed_childrens c;
               _disable_entry_creation := _disable_entry_creation c |})
  end.

Definition ReserveChildCapacity (n : nat) (c : GraphDataContext) : GraphDataContext :=
  {| _data_table := _data_table c; _data_array := _data_array c; _parent := _parent c;
     _executed_childrens := resize n None (_executed_childrens c);
     _disable_entry_creation := _disable_entry_creation c |}.

Definition SetChild (child : option nat) (idx : nat) (c : GraphDataContext) : GraphDataContext :=
  if (length (_executed_childrens c) <=? idx)%nat then c
  else {| _data_table := _data_table c; _data_array := _data_array c; _parent := _parent c;
          _executed_childrens := <[idx := child]> (_executed_childrens c);
          _disable_entry_creation := _disable_entry_creation c |}.

Definition GraphDataContext_SetParent (p : option nat) (c : GraphDataContext) : GraphDataContext :=
  {| _data_table := _data_table c; _data_array := _data_array c; _parent := p;
     _executed_childrens := _executed_childrens c; _disable_entry_creation := _disable_entry_creation c |}.

Definition DisableEntryCreation (c : GraphDataContext) : GraphDataContext :=
  {| _data_table := _data_table c; _data_array := _data_array c; _parent := _parent c;
     _executed_childrens := _executed_childrens c; _disable_entry_creation := true |}.

Definition DataValue_Reset (dv : DataValue) : DataValue :=
  {| val := None; _sval := None; dv_idx := dv_idx dv |}.

(** The entries of the array are cleared; entries that [Set] made are not in it. *)
Definition GraphDataContext_Reset (c : GraphDataContext) : GraphDataContext :=
  {| _data_table := foldl (λ t key, alter DataValue_Reset key t) (_data_table c) (_data_array c);
     _data_array := _data_array c; _parent := None;
     _executed_childrens := (λ _, None) <$> _executed_childrens c;
     _disable_entry_creation := false |}.

(** What the branches of [Set] store for a pointer [v]. *)
Definition stored (k : ptr_kind) (v : option Z) (dv : DataValue) : DataValue :=
  match k with
  | RawPtr => {| val := v; _sval := _sval dv; dv_idx := dv_idx dv |}
  | SharedPtr => {| val := v; _sval := v; dv_idx := dv_idx dv |}
  end.

Definition GraphDataContext_Set (k : ptr_kind) (c : GraphDataContext) (key : DIObjectKey) (v : option Z) (idx : Z)
    : bool * GraphDataContext :=
  match GetDataValue c key idx with
  | Some found => (true, with_table (alter (stored k v) found (_data_table c)) c)
  | None =>
      if _disable_entry_creation c then (false, c)
      else (true, with_table (<[key := stored k v {| val := None; _sval := None; dv_idx := 0 |}]> (_data_table c)) c)
  end.

(** What [Get] reads of an entry. *)
Definition read_value (k : ptr_kind) (dv : DataValue) : option Z :=
  match k with RawPtr => val dv | SharedPtr => _sval dv end.

Definition local_value (k : ptr_kind) (c : GraphDataContext) (key : DIObjectKey) (idx : Z) : option Z :=
  found ← GetDataValue c key idx; dv ← _data_table c !! found; read_value k dv.

(** ** Searching *)

Section walk.
(** What is looked for in one context, which may change it, and what the
    container of injected objects has. *)
Context {R : Type} (probe : contexts → nat → Z → option (option R * contexts)) (container : option R).

(** The body that [GetValue], [Get] and [Move] share. *)
Fixpoint walk (fuel : nat) (cs : contexts) (self : nat) (idx : Z) (opt : GraphDataGetOptions) (excludes : gset nat)
    : option (option R * contexts * gset nat) :=
  match fuel with
  | O => None
  | S fuel =>
      '(found, cs) ← probe cs self idx;
      match found with
      | Some r => Some (Some r, cs, excludes)
      | None =>
          c ← cs !! self;
          let excludes := {[self]} ∪ excludes in
          '(r, cs, excludes) ←
            match _parent c with
            | Some p =>
                if with_parent opt && negb (bool_decide (p ∈ excludes)) then
                  walk fuel cs p (-1) {| with_parent := true; with_di_container := false;
                                         with_children := with_children opt |} excludes
                else Some (None, cs, excludes)
            | None => Some (None, cs, excludes)
            end;
          match r, (if with_di_container opt then container else None) with
          | Some r, _ => Some (Some r, cs, excludes)
          | None, Some r => Some (Some r, cs, excludes)
          | None, None =>
              if with_children opt then
                (fix children (l : list (option nat)) (cs : contexts) (excludes : gset nat)
                     : option (option R * contexts * gset nat) :=
                   match l with
                   | [] => Some (None, cs, excludes)
                   | None :: l => children l cs excludes
                   | Some ch :: l =>
                       if bool_decide (ch ∈ excludes) then children l cs excludes
                       else
                         '(r, cs, excludes) ← walk fuel cs ch (-1) default_options excludes;
                         match r with
                         | Some r => Some (Some r, cs, excludes)
                         | None => children l cs excludes
                         end
                   end) (_executed_childrens c) cs excludes
              else Some (None, cs, excludes)
          end
      end
  end.
End walk.

(** The entry itself: the context and the key. *)
Definition probe_entry (key : DIObjectKey) (cs : contexts) (self : nat) (_ : Z)
    : option (option (nat * DIObjectKey) * contexts) :=
  c ← cs !! self;
  Some (if bool_decide (is_Some (_data_table c !! key)) then Some (self, key) else None, cs).
Definition GetValue (fuel : nat) (cs : contexts) (self : nat) (key : DIObjectKey) : option (option (nat * DIObjectKey)) :=
  '(r, _, _) ← walk (probe_entry key) None fuel cs self (-1) default_options ∅;
  Some r.

(** A pointer that is not null. *)
Definition probe_get (k : ptr_kind) (key : DIObjectKey) (cs : contexts) (self : nat) (idx : Z)
    : option (option Z * contexts) :=
  c ← cs !! self; Some (local_value k c key idx, cs).
Definition GraphDataContext_Get (container : DIObjectKey → option Z) (k : ptr_kind) (fuel : nat) (cs : contexts)
    (self : nat) (key : DIObjectKey) (idx : Z) : option (option Z) :=
  '(r, _, _) ← walk (probe_get k key) (container key) fuel cs self idx default_options ∅;
  Some r.

Definition clear_val (dv : DataValue) : DataValue :=
  {| val := None; _sval := _sval dv; dv_idx := dv_idx dv |}.

(** A raw pointer is exchanged for null; for a shared pointer the template has
    no code here. *)
Definition probe_move (k : ptr_kind) (key : DIObjectKey) (cs : contexts) (self : nat) (idx : Z)
    : option (option Z * contexts) :=
  c ← cs !! self;
  match k, GetDataValue c key idx with
  | RawPtr, Some found =>
      Some (local_value RawPtr c key idx, <[self := with_table (alter clear_val found (_data_table c)) c]> cs)
  | _, _ => Some (None, cs)
  end.
Definition GraphDataContext_Move (k : ptr_kind) (fuel : nat) (cs : contexts) (self : nat) (key : DIObjectKey) (idx : Z)
    : option (option Z * contexts) :=
  '(r, cs, _) ← walk (probe_move k key) None fuel cs self idx default_options ∅;
  Some (r, cs).

Definition alter_entry (f : DataValue → DataValue) (at_ : nat * DIObjectKey) (cs : contexts) : contexts :=
  alter (λ c, with_table (alter f at_.2 (_data_table c)) c) at_.1 cs.

(** [Move(from, to)]: the return code and the contexts. *)
Definition Move_data (fuel : nat) (cs : contexts) (self : nat) (from to : DIObjectKey) : option (Z * contexts) :=
  from_value ← GetValue fuel cs self from;
  to_value ← GetValue fuel cs self to;
  match from_value, to_value with
  | Some f, Some t =>
      cf ← cs !! f.1; dv ← _data_table cf !! f.2;
      let cs := alter_entry (λ d, {| val := val dv; _sval := _sval dv; dv_idx := dv_idx d |}) t cs in
      Some (0, alter_entry DataValue_Reset f cs)
  | _, _ => Some (-1, cs)
  end.
