(* ===== verification/DagDataSpec.v ===== *)
(** * DagDataSpec: searching the data contexts

    A search visits every context that is reachable through parents and
    children at most once, so it ends although the links go both ways, and it
    finds a value when there is one. *)

From stdpp Require Import relations.
From S2P Require Import Prelude DagData.
Open Scope Z_scope.

(** ** Links *)

Definition link (cs : contexts) (a b : nat) : Prop :=
  ∃ c, cs !! a = Some c ∧ (_parent c = Some b ∨ Some b ∈ _executed_childrens c).

(** Parents and children exist. *)
Definition closed (cs : contexts) : Prop := ∀ a b, link cs a b → is_Some (cs !! b).

Section walk.
Context {R : Type} (probe : contexts → nat → Z → option (option R * contexts)) (container : option R).
Context (cs : contexts) (Hclosed : closed cs).
(** What is in the contexts; a context is left alone where there is nothing. *)
Context (look : nat → Z → option R).
Context (Hprobe : ∀ a i, is_Some (cs !! a) →
  ∃ cs', probe cs a i = Some (look a i, cs') ∧ (look a i = None → cs' = cs)).

(** The result of a search that started with the contexts [before] excluded. *)
Definition searched (self : nat) (idx : Z) (opt : GraphDataGetOptions) (before : gset nat)
    (res : option R * contexts * gset nat) : Prop :=
  let '(r, cs', after) := res in
  before ⊆ after ∧
  match r with
  | Some v =>
      (∃ a i, rtc (link cs) self a ∧ (a = self ∧ i = idx ∨ i = -1) ∧ probe cs a i = Some (Some v, cs')) ∨
      container = Some v ∧ cs' = cs
  | None =>
      cs' = cs ∧ self ∈ after ∧ (with_di_container opt = true → container = None) ∧
      (with_parent opt = true → with_children opt = true →
       ∀ x, x ∈ after → x ∉ before →
         look x (if decide (x = self) then idx else -1) = None ∧ ∀ y, link cs x y → y ∈ after)
  end.

Definition children_of (fuel : nat) : list (option nat) → contexts → gset nat → option (option R * contexts * gset nat) :=
  fix children l cs excludes :=
    match l with
    | [] => Some (None, cs, excludes)
    | None :: l => children l cs excludes
    | Some ch :: l =>
        if bool_decide (ch ∈ excludes) then children l cs excludes
        else
          '(r, cs, excludes) ← walk probe container fuel cs ch (-1) default_options excludes;
          match r with
          | Some r => Some (Some r, cs, excludes)
          | None => children l cs excludes
          end
    end.

(** The loop over the children of [self]. *)
Lemma children_spec fuel self l before :
  (∀ ch, Some ch ∈ l → link cs self ch) →
  (∀ ch excl, before ⊆ excl → link cs self ch → ch ∉ excl →
     ∃ res, walk probe container fuel cs ch (-1) default_options excl = Some res ∧
            searched ch (-1) default_options excl res) →
  ∀ excl, before ⊆ excl →
  ∃ r cs' after, children_of fuel l cs excl = Some (r, cs', after) ∧ excl ⊆ after ∧
    match r with
    | Some v =>
        (∃ a, rtc (link cs) self a ∧ probe cs a (-1) = Some (Some v, cs')) ∨ container = Some v ∧ cs' = cs
    | None =>
        cs' = cs ∧ (∀ ch, Some ch ∈ l → ch ∈ after) ∧
        ∀ x, x ∈ after → x ∉ excl → look x (-1) = None ∧ ∀ y, link cs x y → y ∈ after
    end.
Proof using All.
  intros Hl Hw. induction l as [|[ch|] l IH]; intros excl He; cbn [children_of].
  - exists None, cs, excl. split_and!; [done|done|done|set_solver|set_solver].
  - assert (∀ ch, Some ch ∈ l → link cs self ch) as Hl' by (intros; apply Hl; by right).
    assert (link cs self ch) as Hlk by (apply Hl; left). case_bool_decide as Hin.
    { destruct (IH Hl' excl He) as (r & cs' & after & -> & Hsub & Hr). exists r, cs', after. split_and!; [done|done|].
      destruct r; [done|]. destruct Hr as (? & Hch & ?). split_and!; [done| |done].
      intros ch' [[= ->]|?]%elem_of_cons; [set_solver|by apply Hch]. }
    destruct (Hw ch excl He Hlk Hin) as ([[r cs1] mid] & -> & Hsub & Hres). cbn [mbind option_bind].
    destruct r as [v|].
    { exists (Some v), cs1, mid. split_and!; [done|done|]. destruct Hres as [(a & i & Hreach & Hi & Hp)|?]; [|by right].
      left. exists a. split; [by eapply rtc_l|]. by destruct Hi as [[-> ->]| ->]. }
    destruct Hres as (-> & Hself & _ & Hvis).
    destruct (IH Hl' mid) as (r & cs' & after & -> & Hsub' & Hr); [set_solver|].
    exists r, cs', after. split_and!; [done|set_solver|]. destruct r; [done|].
    destruct Hr as (? & Hch & Hvis'). split_and!; [done| |].
    + intros ch' [[= ->]|?]%elem_of_cons; [set_solver|by apply Hch].
    + intros x Hx Hnx. destruct (decide (x ∈ mid)) as [Hm|Hm]; [|by apply Hvis'].
      destruct (Hvis eq_refl eq_refl x Hm Hnx) as [Hlook Hnext].
      split; [by destruct (decide (x = ch))|]. intros y Hy. apply Hsub', Hnext, Hy.
  - destruct (IH ltac:(set_solver) excl He) as (r & cs' & after & -> & Hsub & Hr).
    exists r, cs', after. split_and!; [done|done|]. destruct r; [done|]. destruct Hr as (? & Hch & ?).
    split_and!; [done| |done]. intros ch' [[=]|?]%elem_of_cons. by apply Hch.
Qed.

Lemma walk_unfold fuel self idx opt excl :
  walk probe container (S fuel) cs self idx opt excl =
  '(found, cs) ← probe cs self idx;
  match found with
  | Some r => Some (Some r, cs, excl)
  | None =>
      c ← cs !! self;
      let excludes := {[self]} ∪ excl in
      '(r, cs, excludes) ←
        match _parent c with
        | Some p =>
            if with_parent opt && negb (bool_decide (p ∈ excludes)) then
              walk probe container fuel cs p (-1)
                {| with_parent := true; with_di_container := false; with_children := with_children opt |} excludes
            else Some (None, cs, excludes)
        | None => Some (None, cs, excludes)
        end;
      match r, (if with_di_container opt then container else None) with
      | Some r, _ => Some (Some r, cs, excludes)
      | None, Some r => Some (Some r, cs, excludes)
      | None, None =>
          if with_children opt then children_of fuel (_executed_childrens c) cs excludes
          else Some (None, cs, excludes)
      end
  end.
Proof. reflexivity. Qed.

Lemma fuel_step fuel self excl (after : gset nat) :
  is_Some (cs !! self) → self ∉ excl → {[self]} ∪ excl ⊆ after →
  (size (dom cs ∖ excl) <= S fuel)%nat → (size (dom cs ∖ after) <= fuel)%nat.
Proof using All.
  intros Hs Hn Hsub Hf. assert (dom cs ∖ after ⊆ (dom cs ∖ excl) ∖ {[self]}) as Hle%subseteq_size by set_solver.
  assert (self ∈ dom cs ∖ excl) as Hin by (apply elem_of_dom in Hs; set_solver).
  rewrite (size_difference (dom cs ∖ excl) {[self]}), size_singleton in Hle by set_solver. lia.
Qed.

(** The parent, with [self] already excluded. *)
Definition parent_part (fuel : nat) (p : option nat) (opt : GraphDataGetOptions) (excl : gset nat)
    : option (option R * contexts * gset nat) :=
  match p with
  | Some p =>
      if with_parent opt && negb (bool_decide (p ∈ excl)) then
        walk probe container fuel cs p (-1)
          {| with_parent := true; with_di_container := false; with_children := with_children opt |} excl
      else Some (None, cs, excl)
  | None => Some (None, cs, excl)
  end.

Lemma parent_spec fuel p opt excl :
  (∀ q o, p = Some q → q ∉ excl →
     ∃ res, walk probe container fuel cs q (-1) o excl = Some res ∧ searched q (-1) o excl res) →
  ∃ r cs' mid, parent_part fuel p opt excl = Some (r, cs', mid) ∧ excl ⊆ mid ∧
    match r with
    | Some v =>
        (∃ q a, p = Some q ∧ rtc (link cs) q a ∧ probe cs a (-1) = Some (Some v, cs')) ∨
        container = Some v ∧ cs' = cs
    | None =>
        cs' = cs ∧ (with_parent opt = true → with_children opt = true →
          (∀ q, p = Some q → q ∈ mid) ∧
          ∀ x, x ∈ mid → x ∉ excl → look x (-1) = None ∧ ∀ y, link cs x y → y ∈ mid)
    end.
Proof using All.
  intros Hw. unfold parent_part. destruct p as [q|].
  2:{ exists None, cs, excl. split_and!; [done|done|done|]. intros _ _. split; [done|set_solver]. }
  destruct (with_parent opt) eqn:Ho, (bool_decide_reflect (q ∈ excl)) as [Hin|Hin]; cbn [andb negb];
    try (exists None, cs, excl; split_and!; [done|done|done|]; intros; split; [naive_solver|set_solver]).
  destruct (Hw q {| with_parent := true; with_di_container := false; with_children := with_children opt |} eq_refl Hin) as ([[r cs'] mid] & -> & Hsub & Hr). exists r, cs', mid.
  split_and!; [done|done|]. destruct r as [v|].
  - destruct Hr as [(a & i & Hreach & Hi & Hp)|?]; [left|by right]. exists q, a. split_and!; [done|done|].
    by destruct Hi as [[-> ->]| ->].
  - destruct Hr as (-> & Hself & _ & Hvis). split; [done|]. intros _ Hc. split; [by intros ? [= <-]|].
    intros x Hx Hnx. destruct (Hvis eq_refl Hc x Hx Hnx) as [Hl ?]. split; [by destruct (decide _)|done].
Qed.

Lemma walk_spec fuel self idx opt excl :
  is_Some (cs !! self) → self ∉ excl → (size (dom cs ∖ excl) <= fuel)%nat →
  ∃ res, walk probe container fuel cs self idx opt excl = Some res ∧ searched self idx opt excl res.
Proof using All.
  revert self idx opt excl. induction fuel as [|fuel IH]; intros self idx opt excl Hs Hn Hf.
  { exfalso. assert (self ∈ dom cs ∖ excl) as Hin by (apply elem_of_dom in Hs; set_solver).
    assert (dom cs ∖ excl ≡ ∅) as He by (apply size_empty_inv; lia). set_solver. }
  rewrite walk_unfold. destruct (Hprobe self idx Hs) as (cs1 & Hp & Hsame). rewrite Hp. cbn [mbind option_bind].
  destruct (look self idx) as [v|] eqn:Hlook.
  { exists (Some v, cs1, excl). split; [done|]. split; [done|]. left. exists self, idx. split_and!; [done|by left|done]. }
  rewrite Hsame in * by done. destruct Hs as [c Hc]. rewrite Hc. cbn [mbind option_bind]. cbv zeta.
  assert (∀ ch mid, {[self]} ∪ excl ⊆ mid → link cs self ch → ch ∉ mid → ∀ o,
    ∃ res, walk probe container fuel cs ch (-1) o mid = Some res ∧ searched ch (-1) o mid res) as Hrec.
  { intros ch mid Hsub Hlk Hnot o. apply IH; [by eapply Hclosed|done|].
    eapply fuel_step; [by eexists|exact Hn|done|done]. }
  fold (parent_part fuel (_parent c) opt ({[self]} ∪ excl)).
  destruct (parent_spec fuel (_parent c) opt ({[self]} ∪ excl)) as (r & cs' & mid & -> & Hsub & Hr).
  { intros q o Hq Hnot. apply Hrec; [done| |done]. exists c. auto. }
  cbn [mbind option_bind]. destruct r as [v|].
  { exists (Some v, cs', mid). split; [done|]. split; [set_solver|].
    destruct Hr as [(q & a & Hq & Hreach & Hpr)|?]; [left|by right]. exists a, (-1). split_and!; [|by right|done].
    eapply rtc_l; [|done]. exists c. auto. }
  destruct Hr as (-> & Hpar). destruct (if with_di_container opt then container else None) as [v|] eqn:Hcont.
  { exists (Some v, cs, mid). split; [done|]. split; [set_solver|]. right. by destruct (with_di_container opt). }
  assert (with_di_container opt = true → container = None) as Hdi by (intros E; by rewrite E in Hcont).
  destruct (with_children opt) eqn:Hch.
  - destruct (children_spec fuel self (_executed_childrens c) mid) with (excl := mid)
      as (r & cs' & after & -> & Hsub' & Hr); [intros ch ?; exists c; by auto| |done|].
    { intros ch e He Hlk Hnot. apply Hrec; [set_solver|done|done]. }
    exists (r, cs', after). split; [done|]. split; [set_solver|]. destruct r as [v|].
    + destruct Hr as [(a & Hreach & Hpr)|?]; [left|by right]. exists a, (-1). split_and!; [done|by right|done].
    + destruct Hr as (-> & Hall & Hvis). split_and!; [done|set_solver|done|]. intros Ho _ x Hx Hnx.
      destruct (Hpar Ho eq_refl) as [Hparent Hvis']. destruct (decide (x = self)) as [->|Hne].
      * split; [done|]. intros y (c' & Hc' & [Hy|Hy]); simplify_eq; [by apply Hsub', Hparent|by apply Hall].
      * destruct (decide (x ∈ mid)) as [Hm|Hm]; [|by apply Hvis].
        destruct (Hvis' x Hm) as [? Hy]; [set_solver|]. split; [done|]. intros y Hlk. by apply Hsub', Hy.
  - exists (None, cs, mid). split; [done|]. split; [set_solver|]. split_and!; [done|set_solver|done|by rewrite Hch].
Qed.

(** From the outside: nothing is excluded and both directions are searched. *)
Lemma search_spec fuel self idx :
  is_Some (cs !! self) → (size cs <= fuel)%nat →
  ∃ r cs' excl, walk probe container fuel cs self idx default_options ∅ = Some (r, cs', excl) ∧
  match r with
  | Some v =>
      (∃ a i, rtc (link cs) self a ∧ (a = self ∧ i = idx ∨ i = -1) ∧ probe cs a i = Some (Some v, cs')) ∨
      container = Some v ∧ cs' = cs
  | None =>
      cs' = cs ∧ container = None ∧
      ∀ a, rtc (link cs) self a → look a (if decide (a = self) then idx else -1) = None
  end.
Proof using All.
  intros Hs Hf. destruct (walk_spec fuel self idx default_options ∅ Hs) as ([[r cs'] excl] & Hw & _ & Hr).
  { set_solver. }
  { by rewrite difference_empty_L, size_dom. }
  exists r, cs', excl. split; [done|]. destruct r as [v|]; [done|].
  destruct Hr as (-> & Hself & Hdi & Hvis). split_and!; [done|by apply Hdi|]. intros a Hreach.
  assert (a ∈ excl) as Ha; [|by apply (Hvis eq_refl eq_refl a Ha); set_solver].
  assert (∀ x y, x ∈ excl → link cs x y → y ∈ excl) as Hnext.
  { intros x y Hx Hxy. destruct (Hvis eq_refl eq_refl x Hx) as [_ Hn]; [set_solver|]. by apply Hn. }
  clear -Hreach Hself Hnext. induction Hreach as [|x y z Hxy _ IH]; [done|]. apply IH. by eapply Hnext.
Qed.
End walk.

(** ** Entries *)

Lemma GetDataValue_name c key : GetDataValue c key (-1) = if bool_decide (is_Some (_data_table c !! key)) then Some key else None.
Proof. done. Qed.

Lemma local_value_name k c key : local_value k c key (-1) = dv ← _data_table c !! key; read_value k dv.
Proof.
  unfold local_value. rewrite GetDataValue_name. case_bool_decide as Hs; [done|].
  destruct (_data_table c !! key); [by destruct Hs|done].
Qed.

(** The array points to entries of the table, each with its own index. *)
Definition registered (c : GraphDataContext) : Prop :=
  ∀ i key, _data_array c !! i = Some key → ∃ dv, _data_table c !! key = Some dv ∧ dv_idx dv = i.

(** [key] is in the array. *)
Definition is_registered (c : GraphDataContext) (key : DIObjectKey) : Prop :=
  ∃ dv, _data_table c !! key = Some dv ∧ _data_array c !! dv_idx dv = Some key.

Lemma registered_index c key i :
  _data_array c !! i = Some key → GetDataValue c key (Z.of_nat i) = Some key.
Proof.
  intros Hi. unfold GetDataValue. apply lookup_lt_Some in Hi as Hlt.
  rewrite (proj2 (Z.leb_le 0 (Z.of_nat i))), (proj2 (Z.ltb_lt _ _)), Nat2Z.id by lia. done.
Qed.

Lemma registered_value k c key i :
  registered c → _data_array c !! i = Some key → local_value k c key (Z.of_nat i) = local_value k c key (-1).
Proof.
  intros Hr Hi. destruct (Hr i key Hi) as (dv & Hdv & _). unfold local_value.
  rewrite (registered_index c key i Hi), GetDataValue_name, Hdv. done.
Qed.

Lemma RegisterData_spec c key :
  registered c → (∀ dv, _data_table c !! key = Some dv → is_registered c key) →
  let '(idx, c') := RegisterData c key in
  registered c' ∧ _data_array c' !! idx = Some key ∧
  (∀ i k, _data_array c !! i = Some k → _data_array c' !! i = Some k) ∧
  (∀ k dv, _data_table c !! k = Some dv → _data_table c' !! k = Some dv).
Proof.
  intros Hr Hk. unfold RegisterData. destruct (_data_table c !! key) as [dv|] eqn:E.
  { split_and!; [done| |done|done]. destruct (Hk dv eq_refl) as (dv' & Hdv & Hi). by rewrite E in Hdv; simplify_eq. }
  split_and!; simpl.
  - intros i k Hik. simpl in *. apply lookup_app_Some in Hik as [Hi|[Hge Hi]].
    + destruct (Hr i k Hi) as (dv & Hdv & <-). exists dv. rewrite lookup_insert_ne by congruence. done.
    + apply list_lookup_singleton_Some in Hi as [Hi ->]. eexists. rewrite lookup_insert_eq. split; [done|]. simpl. lia.
  - rewrite lookup_app_r, Nat.sub_diag by done. done.
  - intros i k Hi. by apply lookup_app_l_Some.
  - intros k dv Hdv. rewrite lookup_insert_ne; [done|]. congruence.
Qed.

(** What is set under a key is what is read under it, by name and by the
    index the key was registered with, and nothing else changes; [Set] fails
    only for a key without entry once the creation of entries is disabled, and
    then changes nothing. *)
Theorem Set_Get k c key v idx :
  (idx = -1 ∨ ∃ i, idx = Z.of_nat i ∧ _data_array c !! i = Some key ∧ registered c) →
  match GraphDataContext_Set k c key (Some v) idx with
  | (true, c') =>
      local_value k c' key idx = Some v ∧ local_value k c' key (-1) = Some v ∧
      ∀ key', key' ≠ key → _data_table c' !! key' = _data_table c !! key'
  | (false, c') => c' = c ∧ _disable_entry_creation c = true ∧ _data_table c !! key = None
  end.
Proof.
  intros Hidx. unfold GraphDataContext_Set.
  assert (GetDataValue c key idx = Some key ∧ is_Some (_data_table c !! key) ∨
          GetDataValue c key idx = None ∧ _data_table c !! key = None ∧ idx = -1) as [[-> [dv Hdv]]|(-> & Hn & ->)].
  { destruct Hidx as [->|(i & -> & Hi & Hr)].
    - rewrite GetDataValue_name. case_bool_decide as Hs; [by left|right]. split_and!; [done|by apply eq_None_not_Some|done].
    - left. split; [by apply registered_index|]. destruct (Hr i key Hi) as (dv & -> & _). done. }
  - assert (GetDataValue (with_table (alter (stored k (Some v)) key (_data_table c)) c) key idx = Some key) as Hg.
    { destruct Hidx as [->|(i & -> & Hi & _)]; [|by apply registered_index].
      rewrite GetDataValue_name. simpl. rewrite lookup_alter_eq, Hdv. done. }
    assert (∀ idx', GetDataValue (with_table (alter (stored k (Some v)) key (_data_table c)) c) key idx' = Some key →
      local_value k (with_table (alter (stored k (Some v)) key (_data_table c)) c) key idx' = Some v) as Hv.
    { intros idx' Hg'. unfold local_value. rewrite Hg'. simpl. rewrite lookup_alter_eq, Hdv. by destruct k. }
    split_and!; [by apply Hv| |intros key' Hne; simpl; by rewrite lookup_alter_ne]. apply Hv.
    rewrite GetDataValue_name. simpl. rewrite lookup_alter_eq, Hdv. done.
  - destruct (_disable_entry_creation c); [done|]. rewrite local_value_name. simpl.
    rewrite lookup_insert_eq. simpl. split_and!; [by destruct k..|].
    intros key' Hne. by rewrite lookup_insert_ne.
Qed.

(** ** Searches *)

Section searches.
Context (cs : contexts) (Hclosed : closed cs).

(** C27. A search for data ends, although contexts refer to their parents and to
    their children, and it is exact: it returns the value of a context that can
    be reached, or of the container, and null only when none of them has one. *)
Theorem Get_correct container k fuel self key :
  is_Some (cs !! self) → (size cs <= fuel)%nat →
  ∃ r, GraphDataContext_Get container k fuel cs self key (-1) = Some r ∧
  match r with
  | Some v =>
      (∃ a c, rtc (link cs) self a ∧ cs !! a = Some c ∧ local_value k c key (-1) = Some v) ∨
      container key = Some v
  | None =>
      container key = None ∧
      ∀ a c, rtc (link cs) self a → cs !! a = Some c → local_value k c key (-1) = None
  end.
Proof using Hclosed.
  intros Hs Hf. unfold GraphDataContext_Get.
  destruct (search_spec (probe_get k key) (container key) cs Hclosed
    (λ a i, c ← cs !! a; local_value k c key i)) with (fuel := fuel) (self := self) (idx := -1)
    as (r & cs' & excl & -> & Hr); [|done|done|].
  { intros a i [c Hc]. unfold probe_get. rewrite Hc. simpl. eauto. }
  exists r. split; [done|]. destruct r as [v|].
  - destruct Hr as [(a & i & Hreach & Hi & Hp)|[? _]]; [left|by right]. unfold probe_get in Hp.
    destruct (cs !! a) as [c|] eqn:Hc; [|done]. simpl in Hp. injection Hp as Hv _.
    exists a, c. split_and!; [done|done|]. destruct Hi as [[_ ->]| ->]; done.
  - destruct Hr as (_ & ? & Hall). split; [done|]. intros a c Hreach Hc. specialize (Hall a Hreach).
    rewrite Hc in Hall. by destruct (decide _).
Qed.

(** A value is moved out of exactly one context: [Move] finds a value that
    can be reached, replaces it by null in the context it was in and changes
    nothing else; it returns null only when no context that can be reached has
    one, and then changes nothing. *)
Theorem Move_takes fuel self key :
  is_Some (cs !! self) → (size cs <= fuel)%nat →
  ∃ r cs', GraphDataContext_Move RawPtr fuel cs self key (-1) = Some (r, cs') ∧
  match r with
  | Some v =>
      ∃ a c, rtc (link cs) self a ∧ cs !! a = Some c ∧ local_value RawPtr c key (-1) = Some v ∧
        cs' = <[a := with_table (alter clear_val key (_data_table c)) c]> cs ∧
        local_value RawPtr (with_table (alter clear_val key (_data_table c)) c) key (-1) = None
  | None =>
      cs' = cs ∧ ∀ a c, rtc (link cs) self a → cs !! a = Some c → local_value RawPtr c key (-1) = None
  end.
Proof using Hclosed.
  intros Hs Hf. unfold GraphDataContext_Move.
  destruct (search_spec (probe_move RawPtr key) None cs Hclosed
    (λ a i, c ← cs !! a; local_value RawPtr c key i)) with (fuel := fuel) (self := self) (idx := -1)
    as (r & cs' & excl & -> & Hr); [|done|done|].
  { intros a i [c Hc]. unfold probe_move. rewrite Hc. cbn [mbind option_bind].
    destruct (GetDataValue c key i) as [found|] eqn:Hg.
    2:{ exists cs. split; [|done]. unfold local_value. by rewrite Hg. }
    eexists. split; [done|]. unfold local_value. rewrite Hg. cbn [mbind option_bind]. intros Hv.
    apply map_eq. intros b. destruct (decide (b = a)) as [->|]; [|by rewrite lookup_insert_ne].
    rewrite lookup_insert_eq, Hc. f_equal. destruct c as [t arr p ch d]. unfold with_table. simpl in *. f_equal.
    apply map_eq. intros key'. destruct (decide (key' = found)) as [->|]; [|by rewrite lookup_alter_ne].
    rewrite lookup_alter_eq. destruct (t !! found) as [[v s ix]|]; [|done]. simpl in *. by subst v. }
  exists r, cs'. split; [done|]. destruct r as [v|].
  - destruct Hr as [(a & i & Hreach & Hi & Hp)|[? _]]; [|done]. unfold probe_move in Hp.
    assert (i = -1) as -> by (by destruct Hi as [[_ ->]| ->]).
    destruct (cs !! a) as [c|] eqn:Hc; [|done]. cbn [mbind option_bind] in Hp. rewrite GetDataValue_name in Hp.
    case_bool_decide as Hsome; [|done]. injection Hp as Hv <-. exists a, c. split_and!; [done..|].
    rewrite local_value_name. simpl. rewrite lookup_alter_eq. by destruct Hsome as [dv ->].
  - destruct Hr as (-> & _ & Hall). split; [done|]. intros a c Hreach Hc. specialize (Hall a Hreach).
    rewrite Hc in Hall. by destruct (decide _).
Qed.

(** [Move] has no code for shared pointers: a value that is held by a shared
    pointer is never moved, so an input that is to be moved never gets it. *)
Theorem Move_shared_null fuel self key :
  is_Some (cs !! self) → (size cs <= fuel)%nat →
  GraphDataContext_Move SharedPtr fuel cs self key (-1) = Some (None, cs).
Proof using Hclosed.
  intros Hs Hf. unfold GraphDataContext_Move.
  destruct (search_spec (probe_move SharedPtr key) None cs Hclosed (λ _ _, None)) with (fuel := fuel) (self := self) (idx := -1)
    as (r & cs' & excl & -> & Hr); [|done|done|].
  { intros a i [c Hc]. unfold probe_move. rewrite Hc. simpl. eauto. }
  cbn [mbind option_bind]. destruct r as [v|]; [|by destruct Hr as [-> _]].
  destruct Hr as [(a & i & _ & _ & Hp)|[? _]]; [|done]. unfold probe_move in Hp. by destruct (cs !! a).
Qed.
End searches.
