(* ===== verification/DagInject.v ===== *)
(** * DagInject: inputs and outputs of processors (didagle: graph_processor_di.cpp, graph_executor.cpp)

    A [ProcessorDI] connects the fields of a processor with the data of a run:
    it renames the fields as the script says, gives the inputs their pointers
    before the processor runs and publishes the outputs after it.  The closures
    that the macros of graph_processor_api.h register are [inject] and [emit].

    The fields of a processor hold pointers: [single] for plain and in-out
    inputs, [maps] for the inputs that collect several data under their names.
    The pointers a processor publishes ([out_value]) and the variables of its
    parameters are arguments. *)

From Stdlib Require Import Ascii.
From S2P Require Import Prelude DagGraph DagData.
Open Scope string_scope.
Open Scope list_scope.
Open Scope Z_scope.

(** ** Fields *)

(** [fd_info] is the field with the name of its data. *)
Record FieldData := {
  fd_name : string;
  fd_info : FieldInfo;
  fd_data : option GraphData;
  fd_idx : Z;
}.

Definition new_FieldData (id : FieldInfo) : FieldData :=
  {| fd_name := fi_name id; fd_info := id; fd_data := None; fd_idx := -1 |}.

Definition rename (name : string) (f : FieldInfo) : FieldInfo :=
  {| fi_name := name; fi_id := fi_id f; fi_shared := fi_shared f; fi_is_extern := fi_is_extern f;
     fi_is_aggregate := fi_is_aggregate f; fi_is_in_out := fi_is_in_out f |}.

Definition data_key (e : FieldData) : DIObjectKey := (fi_name (fd_info e), fi_id (fd_info e)).
Definition field_kind (e : FieldData) : ptr_kind := if fi_shared (fd_info e) then SharedPtr else RawPtr.

(** The first entry of the field gets the name of the data; [None] when there
    is none. *)
Fixpoint configure (data : GraphData) (ids : list FieldData) : option (list FieldData) :=
  match ids with
  | [] => None
  | e :: ids =>
      if bool_decide (gd_field data = fd_name e) then
        Some ({| fd_name := fd_name e; fd_info := rename (gd_id data) (fd_info e); fd_data := fd_data e;
                 fd_idx := fd_idx e |} :: ids)
      else cons e <$> configure data ids
  end.

Fixpoint configure_all (strict_dsl : bool) (config_fields : list GraphData) (ids : list FieldData)
    : option (list FieldData) :=
  match config_fields with
  | [] => Some ids
  | data :: rest =>
      match configure data ids with
      | Some ids => configure_all strict_dsl rest ids
      | None => if strict_dsl then None else configure_all strict_dsl rest ids
      end
  end.

(** [PrepareInputs] and [PrepareOutputs] are this on the fields the processor
    registered; [None] stands for the return code -1. *)
Definition SetupInputOutputIds (strict_dsl : bool) (fields : list FieldInfo) (config_fields : list GraphData)
    : option (list FieldData) :=
  configure_all strict_dsl config_fields (new_FieldData <$> fields).
Definition PrepareInputs (strict_dsl : bool) (p : ProcessorInfo) (config_inputs : list GraphData)
    : option (list FieldData) := SetupInputOutputIds strict_dsl (pi_inputs p) config_inputs.
Definition PrepareOutputs (strict_dsl : bool) (p : ProcessorInfo) (config_outputs : list GraphData)
    : option (list FieldData) := SetupInputOutputIds strict_dsl (pi_outputs p) config_outputs.

(** ** Injecting *)

Record processor_fields := {
  single : gmap string (option Z);
  maps : gmap string (gmap string Z);
}.

Definition set_single (name : string) (v : option Z) (pf : processor_fields) : processor_fields :=
  {| single := <[name := v]> (single pf); maps := maps pf |}.
Definition add_to_map (name data : string) (v : Z) (pf : processor_fields) : processor_fields :=
  {| single := single pf; maps := <[name := <[data := v]> (default ∅ (maps pf !! name))]> (maps pf) |}.

(** The state of an injection: the contexts and the fields. *)
Abbreviation inject_state := (contexts * processor_fields)%type.

Section inject.
(** The container of injected objects, the fuel for searches, the context of
    the run, and the variables of the parameters, if there are parameters. *)
Context (container : DIObjectKey → option Z) (fuel : nat) (self : nat) (vars : option (string → string)).

Definition is_var (name : string) : bool :=
  match name with String "$"%char _ => true | _ => false end.
Definition var_name (name : string) : string :=
  match name with String _ rest => rest | EmptyString => EmptyString end.

(** What [Get] or [Move] gives for a field. *)
Definition fetch (e : FieldData) (data : string) (move : bool) (cs : contexts) : option (option Z * contexts) :=
  let key := (data, fi_id (fd_info e)) in
  if move then GraphDataContext_Move (field_kind e) fuel cs self key (fd_idx e)
  else r ← GraphDataContext_Get container (field_kind e) fuel cs self key (fd_idx e); Some (r, cs).

(** The closure of an input: the return code and the new state. *)
Definition inject (e : FieldData) (data : string) (move : bool) (st : inject_state) : option (Z * inject_state) :=
  let '(cs, pf) := st in
  if fi_is_in_out (fd_info e) && negb move then Some (-1, (cs, pf))
  else
    '(r, cs) ← fetch e data move cs;
    if fi_is_aggregate (fd_info e) then
      match r with
      | None => Some (-1, (cs, pf))
      | Some v => Some (0, (cs, add_to_map (fd_name e) data v pf))
      end
    else Some (match r with None => -1 | Some _ => 0 end, (cs, set_single (fd_name e) r pf)).

(** A variable is replaced by its value, which must not be empty. *)
Definition inject_var (e : FieldData) (name : string) (move : bool) (var : string → string) (st : inject_state)
    : option (Z * inject_state) :=
  if bool_decide (var (var_name name) = "") then Some (-1, st) else inject e (var (var_name name)) move st.

Fixpoint inject_aggregate (e : FieldData) (d : GraphData) (ids : list string) (rc : Z) (st : inject_state)
    : option (Z * inject_state) :=
  match ids with
  | [] => Some (rc, st)
  | id :: ids =>
      '(_, st) ← match vars with
                 | Some var => if is_var id then inject_var e id (gd_move d) var st else Some (rc, st)
                 | None => Some (rc, st)
                 end;
      '(rc, st) ← inject e id (gd_move d) st;
      if negb (rc =? 0) && gd_required d then Some (rc, st) else inject_aggregate e d ids rc st
  end.

Definition inject_entry (e : FieldData) (st : inject_state) : option (Z * inject_state) :=
  match fd_data e with
  | Some d =>
      if bool_decide (gd_aggregate d = []) then
        match vars with
        | Some var => if is_var (fi_name (fd_info e)) then inject_var e (fi_name (fd_info e)) (gd_move d) var st
                      else inject e (fi_name (fd_info e)) (gd_move d) st
        | None => inject e (fi_name (fd_info e)) (gd_move d) st
        end
      else inject_aggregate e d (gd_aggregate d) 0 st
  | None =>
      let move_data := fi_is_in_out (fd_info e) in
      match vars with
      | Some var => if is_var (fi_name (fd_info e)) then inject_var e (fi_name (fd_info e)) move_data var st
                    else inject e (fi_name (fd_info e)) move_data st
      | None => inject e (fi_name (fd_info e)) move_data st
      end
  end.

Definition required_of (e : FieldData) : bool :=
  match fd_data e with Some d => gd_required d | None => false end.

Fixpoint InjectInputs (ids : list FieldData) (st : inject_state) : option (Z * inject_state) :=
  match ids with
  | [] => Some (0, st)
  | e :: ids =>
      '(rc, st) ← inject_entry e st;
      if negb (rc =? 0) && required_of e then Some (-1, st) else InjectInputs ids st
  end.

(** ** Publishing *)

(** The closure of an output ignores the result of [Set] and returns 0. *)
Definition emit (e : FieldData) (v : option Z) (data : string) (cs : contexts) : option (Z * contexts) :=
  c ← cs !! self;
  Some (0, <[self := snd (GraphDataContext_Set (field_kind e) c (data, fi_id (fd_info e)) v (fd_idx e))]> cs).

Definition collect_entry (out_value : string → option Z) (e : FieldData) (cs : contexts) : option contexts :=
  let name := fi_name (fd_info e) in
  match vars with
  | Some var =>
      if is_var name then
        if bool_decide (var (var_name name) = "") then Some cs
        else snd <$> emit e (out_value (fd_name e)) (var (var_name name)) cs
      else snd <$> emit e (out_value (fd_name e)) name cs
  | None => snd <$> emit e (out_value (fd_name e)) name cs
  end.

(** The return code is always 0. *)
Fixpoint CollectOutputs (out_value : string → option Z) (ids : list FieldData) (cs : contexts)
    : option (Z * contexts) :=
  match ids with
  | [] => Some (0, cs)
  | e :: ids => cs ← collect_entry out_value e cs; CollectOutputs out_value ids cs
  end.

Fixpoint MoveDataWhenSkipped (ids : list FieldData) (cs : contexts) : option (Z * contexts) :=
  match ids with
  | [] => Some (0, cs)
  | e :: ids =>
      match fd_data e with
      | Some d =>
          if bool_decide (gd_move_from_when_skipped d = "") then MoveDataWhenSkipped ids cs
          else
            '(_, cs) ← Move_data fuel cs self (gd_move_from_when_skipped d, fi_id (fd_info e)) (data_key e);
            MoveDataWhenSkipped ids cs
      | None => MoveDataWhenSkipped ids cs
      end
  end.
End inject.

(** ** Setting up a graph's data *)

(** The inputs and outputs of one vertex with a processor. *)
Record ProcessorDI := { _input_ids : list FieldData; _output_ids : list FieldData }.

(** The outputs of a vertex, none of which has the key of one before it;
    [None] stands for the return code -1. *)
Fixpoint collect_output_ids (all_output_ids : gset DIObjectKey) (l : list FieldData) : option (gset DIObjectKey) :=
  match l with
  | [] => Some all_output_ids
  | e :: l =>
      if bool_decide (data_key e ∈ all_output_ids) then None
      else collect_output_ids ({[data_key e]} ∪ all_output_ids) l
  end.

Definition with_idx (idx : Z) (e : FieldData) : FieldData :=
  {| fd_name := fd_name e; fd_info := fd_info e; fd_data := fd_data e; fd_idx := idx |}.

(** An input that the script describes, that is neither extern nor aggregated,
    must be an output of the graph. *)
Fixpoint register_inputs (all_output_ids : gset DIObjectKey) (l : list FieldData) (c : GraphDataContext)
    : option (list FieldData * GraphDataContext) :=
  match l with
  | [] => Some ([], c)
  | e :: l =>
      let missing := match fd_data e with
                     | Some d => negb (gd_is_extern d) && bool_decide (gd_aggregate d = [])
                                 && negb (bool_decide (data_key e ∈ all_output_ids))
                     | None => false
                     end in
      if missing then None
      else
        let '(e, c) := if fi_is_extern (fd_info e) then (e, c)
                       else let '(idx, c) := RegisterData c (data_key e) in (with_idx (Z.of_nat idx) e, c) in
        '(l, c) ← register_inputs all_output_ids l c; Some (e :: l, c)
  end.

Fixpoint register_outputs_of (l : list FieldData) (c : GraphDataContext) : list FieldData * GraphDataContext :=
  match l with
  | [] => ([], c)
  | e :: l =>
      let '(e, c) := if is_var (fi_name (fd_info e)) then (e, c)
                     else let '(idx, c) := RegisterData c (data_key e) in (with_idx (Z.of_nat idx) e, c) in
      let '(l, c) := register_outputs_of l c in (e :: l, c)
  end.

Fixpoint register_all (all_output_ids : gset DIObjectKey) (dis : list ProcessorDI) (c : GraphDataContext)
    : option (list ProcessorDI * GraphDataContext) :=
  match dis with
  | [] => Some ([], c)
  | di :: dis =>
      '(ins, c) ← register_inputs all_output_ids (_input_ids di) c;
      let '(outs, c) := register_outputs_of (_output_ids di) c in
      '(dis, c) ← register_all all_output_ids dis c;
      Some ({| _input_ids := ins; _output_ids := outs |} :: dis, c)
  end.
