(* ===== verification/DagInjectSpec.v ===== *)
(** * DagInjectSpec: what a processor publishes reaches the processors that read it

    Setting up a graph gives every field the index of its data; through these
    indexes an output that was collected is what the inputs of the same name
    and type are given.  Also here: what the code does with required inputs and
    with names that are variables. *)

From stdpp Require Import relations.
From S2P Require Import Prelude DagGraph DagData DagDataSpec DagInject.
Open Scope string_scope.
Open Scope Z_scope.

(** ** The data of the script is not attached to the fields *)

Definition bare (e : FieldData) : Prop := fd_data e = None.

Lemma configure_bare d ids ids' : configure d ids = Some ids' → Forall bare ids → Forall bare ids'.
Proof.
  revert ids'. induction ids as [|e ids IH]; intros ids'; simpl; [done|]. case_bool_decide.
  - intros [= <-] [He Hids]%Forall_cons. by constructor.
  - destruct (configure d ids) as [l|]; [|done]. intros [= <-] [He Hids]%Forall_cons. constructor; [done|by apply IH].
Qed.

Lemma configure_all_bare strict config ids ids' :
  configure_all strict config ids = Some ids' → Forall bare ids → Forall bare ids'.
Proof.
  revert ids. induction config as [|d config IH]; intros ids; simpl; [by intros [= <-]|].
  destruct (configure d ids) as [l|] eqn:E; [|destruct strict; [done|by apply IH]].
  intros Hc Hb. eapply IH; [done|]. by eapply configure_bare.
Qed.

Lemma Setup_bare strict fields config ids : SetupInputOutputIds strict fields config = Some ids → Forall bare ids.
Proof.
  unfold SetupInputOutputIds. intros Hc. eapply configure_all_bare; [done|].
  apply Forall_fmap, Forall_true. by intros.
Qed.

(** ** Contexts with the same links *)

Definition links_of (c : GraphDataContext) : option nat * list (option nat) := (_parent c, _executed_childrens c).
Definition same_links (cs cs' : contexts) : Prop := links_of <$> cs = links_of <$> cs'.

Lemma same_links_lookup cs cs' a :
  same_links cs cs' → links_of <$> cs !! a = links_of <$> cs' !! a.
Proof. unfold same_links. intros Hl. by rewrite <-!lookup_fmap, Hl. Qed.

Lemma same_links_insert cs a c c' :
  cs !! a = Some c → links_of c' = links_of c → same_links cs (<[a := c']> cs).
Proof.
  intros Ha Hl. unfold same_links. rewrite fmap_insert, insert_id; [done|]. by rewrite lookup_fmap, Ha, Hl.
Qed.

Lemma same_links_is_Some cs cs' a : same_links cs cs' → is_Some (cs !! a) ↔ is_Some (cs' !! a).
Proof. intros Hl%(same_links_lookup _ _ a). rewrite <-!(fmap_is_Some links_of). by rewrite Hl. Qed.

Lemma same_links_closed cs cs' : same_links cs cs' → closed cs → closed cs'.
Proof.
  intros Hl Hc a b (c' & Hc' & Hb). apply (same_links_is_Some cs cs' b Hl), (Hc a).
  pose proof (same_links_lookup cs cs' a Hl) as He. rewrite Hc' in He. destruct (cs !! a) as [c|] eqn:Ha; [|done].
  injection He as Hp Hch. exists c. split; [done|]. by rewrite Hp, Hch.
Qed.

Lemma same_links_size cs cs' : same_links cs cs' → size cs = size cs'.
Proof. intros Hl. by rewrite <-(map_size_fmap links_of cs), Hl, map_size_fmap. Qed.

(** ** One field *)

Section fields.
Context (container : DIObjectKey → option Z) (fuel : nat) (self : nat) (vars : option (string → string)).

(** The contexts a search may be started in. *)
Definition ready (cs : contexts) : Prop := closed cs ∧ is_Some (cs !! self) ∧ (size cs <= fuel)%nat.

Lemma ready_links cs cs' : same_links cs cs' → ready cs → ready cs'.
Proof.
  intros Hl (Hc & Hs & Hf). split_and!; [by eapply same_links_closed|by apply (same_links_is_Some cs cs')|].
  by rewrite <-(same_links_size cs cs').
Qed.

(** What a fetch does to the context of the run: at most the entry it asks for
    is cleared. *)
Definition untouched (key : DIObjectKey) (cs cs' : contexts) : Prop :=
  ∀ c, cs !! self = Some c →
    ∃ c', cs' !! self = Some c' ∧ _data_array c' = _data_array c ∧ (registered c → registered c') ∧
      _data_table c' !! key = _data_table c !! key.

Lemma untouched_refl key cs : untouched key cs cs.
Proof. intros c Hc. by exists c. Qed.

Lemma untouched_trans key cs1 cs2 cs3 : untouched key cs1 cs2 → untouched key cs2 cs3 → untouched key cs1 cs3.
Proof.
  intros H1 H2 c Hc. destruct (H1 c Hc) as (c2 & Hc2 & Ha2 & Hr2 & Ht2).
  destruct (H2 c2 Hc2) as (c3 & Hc3 & Ha3 & Hr3 & Ht3). exists c3. split_and!; [done|congruence|auto|congruence].
Qed.

(** The index of the entry, if it has one, is that of the key. *)
Definition indexed (c : GraphDataContext) (e : FieldData) : Prop :=
  fd_idx e = -1 ∨ ∃ i, fd_idx e = Z.of_nat i ∧ _data_array c !! i = Some (data_key e).

Lemma alter_registered c found f :
  (∀ dv, dv_idx (f dv) = dv_idx dv) → registered c → registered (with_table (alter f found (_data_table c)) c).
Proof.
  intros Hf Hr i k Hi. destruct (Hr i k Hi) as (dv & Hdv & Hidx). simpl.
  destruct (decide (k = found)) as [->|]; [|exists dv; by rewrite lookup_alter_ne].
  exists (f dv). rewrite lookup_alter_eq, Hdv. split; [done|]. by rewrite Hf.
Qed.

Lemma fetch_get e data cs : ready cs → ∃ r, fetch container fuel self e data false cs = Some (r, cs).
Proof.
  intros (Hc & Hs & Hf). unfold fetch, GraphDataContext_Get.
  set (key := (data, fi_id (fd_info e))).
  destruct (search_spec (probe_get (field_kind e) key) (container key) cs Hc
    (λ a i, c ← cs !! a; local_value (field_kind e) c key i)) with (fuel := fuel) (self := self) (idx := fd_idx e)
    as (r & cs' & excl & -> & _); [|done|done|by exists r].
  intros a i [c Ha]. unfold probe_get. rewrite Ha. simpl. eauto.
Qed.

Lemma clear_links c found : links_of (with_table (alter clear_val found (_data_table c)) c) = links_of c.
Proof. done. Qed.

(** A move touches the entry it is for, wherever it finds it. *)
Lemma fetch_move e data cs :
  ready cs → ∃ r cs', fetch container fuel self e data true cs = Some (r, cs') ∧ same_links cs cs' ∧
    ∀ key', (∀ c, cs !! self = Some c → GetDataValue c (data, fi_id (fd_info e)) (fd_idx e) ≠ Some key') →
      key' ≠ (data, fi_id (fd_info e)) → untouched key' cs cs'.
Proof.
  intros (Hc & Hs & Hf). unfold fetch, GraphDataContext_Move. set (key := (data, fi_id (fd_info e))).
  destruct (search_spec (probe_move (field_kind e) key) None cs Hc
    (λ a i, c ← cs !! a; match field_kind e with RawPtr => local_value RawPtr c key i | SharedPtr => None end))
    with (fuel := fuel) (self := self) (idx := fd_idx e) as (r & cs' & excl & -> & Hr); [|done|done|].
  { intros a i [c Ha]. unfold probe_move. rewrite Ha. cbn [mbind option_bind]. destruct (field_kind e); [|by eauto].
    destruct (GetDataValue c key i) as [found|] eqn:Hg.
    2:{ exists cs. split; [|done]. unfold local_value. by rewrite Hg. }
    eexists. split; [done|]. unfold local_value. rewrite Hg. cbn [mbind option_bind]. intros Hv.
    rewrite insert_id; [done|]. rewrite Ha. f_equal. destruct c as [t arr p ch d]. unfold with_table. simpl in *.
    f_equal. rewrite alter_id; [done|]. intros dv Hdv. rewrite Hdv in Hv. destruct dv. simpl in *. by subst. }
  exists r, cs'. split; [done|]. destruct r as [v|]; [|destruct Hr as (-> & _); split; [done|intros; apply untouched_refl]].
  destruct Hr as [(a & i & _ & Hi & Hp)|[? _]]; [|done]. unfold probe_move in Hp.
  destruct (cs !! a) as [c|] eqn:Ha; [|done]. cbn [mbind option_bind] in Hp.
  destruct (field_kind e); [|done]. destruct (GetDataValue c key i) as [found|] eqn:Hg; [|done].
  injection Hp as _ <-. split; [by eapply same_links_insert|].
  intros key' Hnot Hne c0 Hc0. destruct (decide (a = self)) as [->|Has].
  - rewrite Ha in Hc0. injection Hc0 as ->. eexists. rewrite lookup_insert_eq. split; [done|]. simpl.
    split_and!; [done|by apply alter_registered|]. rewrite lookup_alter_ne; [done|]. intros ->.
    destruct Hi as [[_ ->]| ->]; [by apply (Hnot c0 Ha)|].
    rewrite GetDataValue_name in Hg. case_bool_decide; [|done]. by injection Hg as <-.
  - exists c0. rewrite lookup_insert_ne by done. done.
Qed.

(** The data a field asks for. *)
Lemma fetch_local e c cs v :
  ready cs → cs !! self = Some c → registered c → indexed c e →
  local_value (field_kind e) c (data_key e) (-1) = Some v →
  fetch container fuel self e (fi_name (fd_info e)) false cs = Some (Some v, cs).
Proof.
  intros (_ & _ & Hf) Hc Hr Hi Hv. unfold fetch, GraphDataContext_Get.
  change (fi_name (fd_info e), fi_id (fd_info e)) with (data_key e).
  assert (size cs ≠ 0%nat) by (eapply (map_size_ne_0_lookup_2 _ self); by exists c).
  destruct fuel as [|fuel']; [lia|].
  assert (probe_get (field_kind e) (data_key e) cs self (fd_idx e) = Some (Some v, cs)) as Hp.
  { unfold probe_get. rewrite Hc. cbn [mbind option_bind]. do 2 f_equal.
    destruct Hi as [->|(i & -> & Hi)]; [done|]. by rewrite registered_value. }
  rewrite walk_unfold, Hp. done.
Qed.

(** Injecting into [e] leaves the other fields alone. *)
Definition only_field (e : FieldData) (pf pf' : processor_fields) : Prop :=
  ∀ f, f ≠ fd_name e → single pf' !! f = single pf !! f.

Lemma inject_total e data move cs pf :
  ready cs → ∃ rc cs' pf', inject container fuel self e data move (cs, pf) = Some (rc, (cs', pf')) ∧
    same_links cs cs' ∧ only_field e pf pf' ∧ (move = false → cs' = cs) ∧
    ∀ key', (∀ c, cs !! self = Some c → GetDataValue c (data, fi_id (fd_info e)) (fd_idx e) ≠ Some key') →
      key' ≠ (data, fi_id (fd_info e)) → untouched key' cs cs'.
Proof.
  intros Hr. unfold inject. destruct (fi_is_in_out (fd_info e) && negb move) eqn:E.
  { exists (-1), cs, pf. split_and!; [done..|intros; apply untouched_refl]. }
  assert (∃ r cs', fetch container fuel self e data move cs = Some (r, cs') ∧ same_links cs cs' ∧
    (move = false → cs' = cs) ∧ ∀ key', (∀ c, cs !! self = Some c →
      GetDataValue c (data, fi_id (fd_info e)) (fd_idx e) ≠ Some key') →
      key' ≠ (data, fi_id (fd_info e)) → untouched key' cs cs') as (r & cs' & -> & Hl & Hm & Hu).
  { destruct move.
    - destruct (fetch_move e data cs Hr) as (r & cs' & ? & ? & ?). exists r, cs'. split_and!; done.
    - destruct (fetch_get e data cs Hr) as [r ?]. exists r, cs. split_and!; [done..|intros; apply untouched_refl]. }
  cbn [mbind option_bind].
  assert (∀ v, only_field e pf (set_single (fd_name e) v pf)) as Hset
    by (intros v f Hne; simpl; by rewrite lookup_insert_ne).
  destruct (fi_is_aggregate (fd_info e)), r as [v|]; eexists _, cs', _; (split; [reflexivity|]); by split_and!.
Qed.

(** An entry that does not move the data of [key]. *)
Definition spares (key : DIObjectKey) (e : FieldData) : Prop :=
  fi_is_in_out (fd_info e) = false ∨ is_var (fi_name (fd_info e)) = false ∧ data_key e ≠ key.

Lemma entry_total e cs pf :
  bare e → ready cs → ∃ rc cs' pf', inject_entry container fuel self vars e (cs, pf) = Some (rc, (cs', pf')) ∧
    same_links cs cs' ∧ only_field e pf pf' ∧
    ∀ key, spares key e → (∀ c, cs !! self = Some c → indexed c e) → untouched key cs cs'.
Proof.
  intros Hb Hr. unfold inject_entry. rewrite Hb. cbv zeta.
  assert (∀ data, (data = fi_name (fd_info e) ∨ is_var (fi_name (fd_info e)) = true) →
    ∃ rc cs' pf', inject container fuel self e data (fi_is_in_out (fd_info e)) (cs, pf) = Some (rc, (cs', pf')) ∧
    same_links cs cs' ∧ only_field e pf pf' ∧
    ∀ key, spares key e → (∀ c, cs !! self = Some c → indexed c e) → untouched key cs cs') as Hinj.
  { intros data Hd. destruct (inject_total e data (fi_is_in_out (fd_info e)) cs pf Hr)
      as (rc & cs' & pf' & ? & ? & ? & Hm & Hu). exists rc, cs', pf'. split_and!; [done..|].
    intros key [Hin|[Hvar Hne]] Hidx; [rewrite Hm by done; apply untouched_refl|].
    destruct Hd as [->|Hd]; [|congruence]. apply Hu; [|done]. intros c Hc Hg.
    change (fi_name (fd_info e), fi_id (fd_info e)) with (data_key e) in Hg.
    destruct (Hidx c Hc) as [Hi|(i & Hi & Ha)]; rewrite Hi in Hg.
    - rewrite GetDataValue_name in Hg. case_bool_decide; [|done]. congruence.
    - rewrite (registered_index c _ i Ha) in Hg. congruence. }
  unfold inject_var. destruct vars as [var|]; [|by apply Hinj; left]. destruct (is_var _) eqn:Hv; [|by apply Hinj; left].
  case_bool_decide; [|by apply Hinj; right].
  exists (-1), cs, pf. split_and!; [done..|intros; apply untouched_refl].
Qed.

(** A plain entry whose data is there gets it. *)
Lemma entry_local e c cs pf v :
  bare e → ready cs → cs !! self = Some c → registered c → indexed c e →
  is_var (fi_name (fd_info e)) = false → fi_is_in_out (fd_info e) = false → fi_is_aggregate (fd_info e) = false →
  local_value (field_kind e) c (data_key e) (-1) = Some v →
  inject_entry container fuel self vars e (cs, pf) = Some (0, (cs, set_single (fd_name e) (Some v) pf)).
Proof.
  intros Hb Hr Hc Hreg Hi Hvar Hio Hag Hv. unfold inject_entry. rewrite Hb, Hvar, Hio. cbv zeta.
  assert (inject container fuel self e (fi_name (fd_info e)) false (cs, pf)
    = Some (0, (cs, set_single (fd_name e) (Some v) pf))) as Hinj; [|by destruct vars].
  unfold inject. rewrite Hio, (fetch_local e c cs v) by done. cbn [andb mbind option_bind]. by rewrite Hag.
Qed.

Lemma required_bare e : bare e → required_of e = false.
Proof. unfold required_of. by intros ->. Qed.

Lemma InjectInputs_total ids cs pf :
  Forall bare ids → ready cs →
  ∃ cs' pf', InjectInputs container fuel self vars ids (cs, pf) = Some (0, (cs', pf')) ∧
    ∀ f, f ∉ fd_name <$> ids → single pf' !! f = single pf !! f.
Proof.
  intros Hb. revert cs pf. induction Hb as [|e ids He _ IH]; intros cs pf Hr; simpl; [by eauto|].
  destruct (entry_total e cs pf He Hr) as (rc & cs1 & pf1 & -> & Hl & Ho & _). cbn [mbind option_bind].
  rewrite (required_bare e He), andb_false_r.
  destruct (IH cs1 pf1 (ready_links cs cs1 Hl Hr)) as (cs' & pf' & -> & Hf). exists cs', pf'. split; [done|].
  intros f Hn. rewrite Hf by set_solver. apply Ho. set_solver.
Qed.

(** Among the inputs of a processor, a plain one whose data is there gets it,
    when no other one moves that data away. *)
Lemma InjectInputs_local ids cs c pf e v :
  Forall bare ids → ready cs → cs !! self = Some c → registered c → Forall (indexed c) ids →
  NoDup (fd_name <$> ids) → e ∈ ids → (∀ e', e' ∈ ids → spares (data_key e) e') →
  is_var (fi_name (fd_info e)) = false → fi_is_in_out (fd_info e) = false → fi_is_aggregate (fd_info e) = false →
  local_value (field_kind e) c (data_key e) (-1) = Some v →
  ∃ cs' pf', InjectInputs container fuel self vars ids (cs, pf) = Some (0, (cs', pf')) ∧
    single pf' !! fd_name e = Some (Some v).
Proof.
  intros Hb. revert cs c pf. induction Hb as [|e0 ids He Hids IH]; intros cs c pf Hr Hc Hreg Hidx Hnd Hin Hsp Hvar Hio Hag Hv;
    [by apply elem_of_nil in Hin|].
  apply Forall_cons in Hidx as [Hi0 Hidx]. rewrite fmap_cons in Hnd. apply NoDup_cons in Hnd as [Hn0 Hnd].
  cbn [InjectInputs]. apply elem_of_cons in Hin as [<-|Hin].
  - rewrite (entry_local e c cs pf v) by done. cbn [mbind option_bind]. simpl.
    destruct (InjectInputs_total ids cs (set_single (fd_name e) (Some v) pf) Hids Hr) as (cs' & pf' & -> & Hf).
    exists cs', pf'. split; [done|]. rewrite Hf by done. simpl. by rewrite lookup_insert_eq.
  - destruct (entry_total e0 cs pf He Hr) as (rc & cs1 & pf1 & -> & Hl & Ho & Hu). cbn [mbind option_bind].
    rewrite (required_bare e0 He), andb_false_r.
    destruct (Hu (data_key e) (Hsp e0 ltac:(left))) with (c := c) as (c1 & Hc1 & Ha1 & Hr1 & Ht1);
      [intros c' Hc'; by simplify_eq|done|].
    apply (IH cs1 c1); [by eapply ready_links|done|by apply Hr1| |done|done|intros; apply Hsp; by right|done..|].
    + eapply Forall_impl; [exact Hidx|]. intros e' [?|(i & ? & ?)]; [by left|right; exists i; by rewrite Ha1].
    + by rewrite local_value_name, Ht1, <-local_value_name.
Qed.
End fields.

(** ** Publishing *)

Lemma Set_frame k c key v idx :
  (idx = -1 ∨ ∃ i, idx = Z.of_nat i ∧ _data_array c !! i = Some key) →
  let c' := (GraphDataContext_Set k c key v idx).2 in
  links_of c' = links_of c ∧ _data_array c' = _data_array c ∧ (registered c → registered c') ∧
  _disable_entry_creation c' = _disable_entry_creation c ∧
  ∀ key', key' ≠ key → _data_table c' !! key' = _data_table c !! key'.
Proof.
  intros Hidx. unfold GraphDataContext_Set.
  assert (GetDataValue c key idx = Some key ∨ GetDataValue c key idx = None ∧ _data_table c !! key = None)
    as [->|[-> Hn]].
  { destruct Hidx as [->|(i & -> & Hi)]; [|left; by apply registered_index].
    rewrite GetDataValue_name. case_bool_decide as Hs; [by left|right]. split; [done|]. by apply eq_None_not_Some. }
  - simpl. split_and!; [done|done| |done|intros key' Hne; by rewrite lookup_alter_ne].
    apply alter_registered. by destruct k.
  - destruct (_disable_entry_creation c) eqn:Hd; [by split_and!|]. simpl.
    split_and!; [done|done| |done|intros key' Hne; by rewrite lookup_insert_ne].
    intros Hr i key' Hi. destruct (Hr i key' Hi) as (dv & Hdv & ?). exists dv. simpl.
    rewrite lookup_insert_ne; [done|]. congruence.
Qed.

Section publish.
Context (fuel : nat) (self : nat) (vars : option (string → string)) (out_value : string → option Z).

(** The output of a plain name. *)
Lemma collect_plain e cs c :
  cs !! self = Some c → is_var (fi_name (fd_info e)) = false →
  collect_entry self vars out_value e cs
  = Some (<[self := (GraphDataContext_Set (field_kind e) c (data_key e) (out_value (fd_name e)) (fd_idx e)).2]> cs).
Proof.
  intros Hc Hv. unfold collect_entry. rewrite Hv. unfold emit. rewrite Hc. by destruct vars.
Qed.

Lemma indexed_set k c key v idx e :
  (idx = -1 ∨ ∃ i, idx = Z.of_nat i ∧ _data_array c !! i = Some key) →
  indexed c e → indexed (GraphDataContext_Set k c key v idx).2 e.
Proof.
  intros Hidx [?|(i & ? & Hi)]; [by left|right]. exists i. split; [done|].
  destruct (Set_frame k c key v idx Hidx) as (_ & -> & _). done.
Qed.

(** All outputs are published under their keys. *)
Lemma CollectOutputs_spec outs cs c :
  cs !! self = Some c → registered c → Forall (indexed c) outs → NoDup (data_key <$> outs) →
  Forall (λ e, is_var (fi_name (fd_info e)) = false) outs →
  ∃ cs' c', CollectOutputs self vars out_value outs cs = Some (0, cs') ∧ cs' !! self = Some c' ∧
    same_links cs cs' ∧ registered c' ∧ _data_array c' = _data_array c ∧
    (∀ key, key ∉ data_key <$> outs → _data_table c' !! key = _data_table c !! key) ∧
    ∀ e v, e ∈ outs → out_value (fd_name e) = Some v →
      (_disable_entry_creation c = false ∨ is_Some (_data_table c !! data_key e)) →
      local_value (field_kind e) c' (data_key e) (-1) = Some v.
Proof.
  revert cs c. induction outs as [|e outs IH]; intros cs c Hc Hr Hidx Hnd Hvar.
  { exists cs, c. split_and!; [done..|]. intros e v Hin. by apply elem_of_nil in Hin. }
  rewrite fmap_cons in Hnd. apply NoDup_cons in Hnd as [Hn Hnd]. apply Forall_cons in Hidx as [Hi Hidx].
  apply Forall_cons in Hvar as [Hv Hvar]. cbn [CollectOutputs].
  rewrite (collect_plain e cs c Hc Hv). cbn [mbind option_bind].
  pose proof (Set_frame (field_kind e) c (data_key e) (out_value (fd_name e)) (fd_idx e) Hi) as Hfr.
  cbv zeta in Hfr. destruct Hfr as (Hl1 & Ha1 & Hr1 & Hd1 & Ht1).
  set (c1 := (GraphDataContext_Set _ _ _ _ _).2) in *.
  destruct (IH (<[self := c1]> cs) c1) as (cs' & c' & Hcol & Hc' & Hl' & Hr' & Ha' & Ht' & Hall);
    [by rewrite lookup_insert_eq|by apply Hr1| |done|done|].
  { eapply Forall_impl; [exact Hidx|]. intros e' [?|(i & ? & ?)]; [by left|right; exists i; by rewrite Ha1]. }
  exists cs', c'. split_and!; [done|done| |done|congruence| |].
  - unfold same_links in *. rewrite <-Hl'. by apply (same_links_insert cs self c).
  - intros key Hk. rewrite Ht' by set_solver. apply Ht1. set_solver.
  - intros e' v [->|Hin]%elem_of_cons Ho Hen.
    + rewrite local_value_name, Ht', <-local_value_name by done.
      assert (fd_idx e = -1 ∨ ∃ i, fd_idx e = Z.of_nat i ∧ _data_array c !! i = Some (data_key e) ∧ registered c) as Hi'
        by (destruct Hi as [?|(i & ? & ?)]; [by left|right; eauto]).
      pose proof (Set_Get (field_kind e) c (data_key e) v (fd_idx e) Hi') as Hsg. revert Hsg.
      unfold c1. rewrite Ho. 
      destruct (GraphDataContext_Set (field_kind e) c (data_key e) (Some v) (fd_idx e)) as [[] c2]; simpl;
        [by intros (_ & ? & _)|].
      intros (_ & ? & ?). destruct Hen as [|[]]; congruence.
    + apply Hall; [done|done|]. rewrite Hd1, Ht1; [done|].
      intros Heq. apply Hn. rewrite <-Heq. by apply list_elem_of_fmap_2.
Qed.
End publish.

(** ** Setting up *)

Lemma collect_output_ids_spec l seen :
  match collect_output_ids seen l with
  | Some all => NoDup (data_key <$> l) ∧ (∀ key, key ∈ data_key <$> l → key ∉ seen) ∧
                all = list_to_set (data_key <$> l) ∪ seen
  | None => ¬ (NoDup (data_key <$> l) ∧ ∀ key, key ∈ data_key <$> l → key ∉ seen)
  end.
Proof.
  revert seen. induction l as [|e l IH]; intros seen; cbn [collect_output_ids].
  { split_and!; [constructor|intros key Hk; by apply elem_of_nil in Hk|set_solver]. }
  case_bool_decide as Hin.
  { intros [_ Hall]. by apply (Hall (data_key e)); [left|]. }
  specialize (IH ({[data_key e]} ∪ seen)). destruct (collect_output_ids _ l) as [all|].
  - destruct IH as (Hnd & Hall & ->). rewrite fmap_cons, NoDup_cons. split_and!; [|done|..].
    + intros Hk. apply (Hall _ Hk). set_solver.
    + intros key [->|Hk]%elem_of_cons; [done|]. specialize (Hall key Hk). set_solver.
    + rewrite list_to_set_cons. set_solver.
  - rewrite fmap_cons, NoDup_cons. intros [[Hn Hnd] Hall]. apply IH. split; [done|]. intros key Hk [->%elem_of_singleton|Hs]%elem_of_union; [done|].
    by apply (Hall key); [right|].
Qed.

(** Every entry of the table is in the array. *)
Definition all_registered (c : GraphDataContext) : Prop :=
  registered c ∧ ∀ key dv, _data_table c !! key = Some dv → _data_array c !! dv_idx dv = Some key.

Lemma RegisterData_all c key :
  all_registered c →
  let '(idx, c') := RegisterData c key in
  all_registered c' ∧ _data_array c' !! idx = Some key ∧ _data_array c `prefix_of` _data_array c'.
Proof.
  intros [Hr Ha]. pose proof (RegisterData_spec c key Hr) as Hs. unfold RegisterData in *.
  destruct (_data_table c !! key) as [dv|] eqn:E.
  - split_and!; [done|by apply Ha|done].
  - destruct Hs as (Hr' & Hi & _ & _); [done|]. split_and!; [|done|by eexists]. split; [done|]. simpl.
    intros k dv. destruct (decide (k = key)) as [->|].
    + rewrite lookup_insert_eq. intros [= <-]. done.
    + rewrite lookup_insert_ne by done. intros Hk%Ha. by apply lookup_app_l_Some.
Qed.

Lemma indexed_prefix c c' e : _data_array c `prefix_of` _data_array c' → indexed c e → indexed c' e.
Proof. intros Hp [?|(i & ? & Hi)]; [by left|right]. exists i. split; [done|]. by eapply prefix_lookup_Some. Qed.

(** An entry as [SetupInputOutputIds] makes it. *)
Definition fresh_entry (e : FieldData) : Prop := bare e ∧ fd_idx e = -1.

(** The same entry, possibly with an index. *)
Definition same_entry (e e' : FieldData) : Prop := e' = with_idx (fd_idx e') e.

Lemma configure_unindexed d ids ids' :
  configure d ids = Some ids' → Forall (λ e, fd_idx e = -1) ids → Forall (λ e, fd_idx e = -1) ids'.
Proof.
  revert ids'. induction ids as [|e ids IH]; intros ids'; simpl; [done|]. case_bool_decide.
  - intros [= <-] [He Hids]%Forall_cons. by constructor.
  - destruct (configure d ids) as [l|]; [|done]. intros [= <-] [He Hids]%Forall_cons. constructor; [done|by apply IH].
Qed.

Lemma Setup_fresh strict fields config ids : SetupInputOutputIds strict fields config = Some ids → Forall fresh_entry ids.
Proof.
  intros Hs. apply Forall_and. split; [by eapply Setup_bare|]. revert Hs. unfold SetupInputOutputIds.
  assert (Forall (λ e, fd_idx e = -1) (new_FieldData <$> fields)) as Hi by (by apply Forall_fmap, Forall_true).
  revert Hi. generalize (new_FieldData <$> fields). induction config as [|d config IH]; intros l Hl; simpl; [by intros [= <-]|].
  destruct (configure d l) as [l'|] eqn:E; [|destruct strict; [done|by apply IH]].
  apply IH. by eapply configure_unindexed.
Qed.

Lemma register_one c e :
  all_registered c →
  let '(idx, c') := RegisterData c (data_key e) in
  all_registered c' ∧ _data_array c `prefix_of` _data_array c' ∧ indexed c' (with_idx (Z.of_nat idx) e).
Proof.
  intros Ha. pose proof (RegisterData_all c (data_key e) Ha) as Hr. destruct (RegisterData c (data_key e)) as [idx c'].
  destruct Hr as (? & Hi & ?). split_and!; [done|done|]. right. by exists idx.
Qed.

(** What registering a list of entries gives. *)
Definition registers (l l' : list FieldData) (c c' : GraphDataContext) : Prop :=
  all_registered c' ∧ _data_array c `prefix_of` _data_array c' ∧ Forall (indexed c') l' ∧ Forall2 same_entry l l'.

Lemma registers_cons e e' l l' c c1 c' :
  _data_array c `prefix_of` _data_array c1 → indexed c1 e' → same_entry e e' →
  registers l l' c1 c' → registers (e :: l) (e' :: l') c c'.
Proof.
  intros Hp Hi Hs (Ha & Hp' & Hl & H2). split_and!; [done|by etrans| |by constructor].
  constructor; [by eapply indexed_prefix|done].
Qed.

Lemma register_inputs_spec all l c :
  Forall fresh_entry l → all_registered c →
  ∃ l' c', register_inputs all l c = Some (l', c') ∧ registers l l' c c'.
Proof.
  intros Hl. revert c. induction Hl as [|e l [Hb Hi] _ IH]; intros c Ha; cbn [register_inputs].
  { exists [], c. split; [done|]. split_and!; [done|done|constructor|constructor]. }
  rewrite Hb. destruct (fi_is_extern (fd_info e)).
  - destruct (IH c Ha) as (l' & c' & -> & Hr). exists (e :: l'), c'. split; [done|].
    eapply (registers_cons _ _ _ _ _ c); [done|by left|by destruct e|done].
  - pose proof (register_one c e Ha) as Hone. destruct (RegisterData c (data_key e)) as [idx c1].
    destruct Hone as (Ha1 & Hp & Hi1). destruct (IH c1 Ha1) as (l' & c' & -> & Hr).
    exists (with_idx (Z.of_nat idx) e :: l'), c'. split; [done|]. by eapply (registers_cons _ _ _ _ _ c1).
Qed.

Lemma register_outputs_spec l c :
  Forall fresh_entry l → all_registered c →
  ∃ l' c', register_outputs_of l c = (l', c') ∧ registers l l' c c'.
Proof.
  intros Hl. revert c. induction Hl as [|e l [Hb Hi] _ IH]; intros c Ha; cbn [register_outputs_of].
  { exists [], c. split; [done|]. split_and!; [done|done|constructor|constructor]. }
  destruct (is_var (fi_name (fd_info e))).
  - destruct (IH c Ha) as (l' & c' & -> & Hr). exists (e :: l'), c'. split; [done|].
    eapply (registers_cons _ _ _ _ _ c); [done|by left|by destruct e|done].
  - pose proof (register_one c e Ha) as Hone. destruct (RegisterData c (data_key e)) as [idx c1].
    destruct Hone as (Ha1 & Hp & Hi1). destruct (IH c1 Ha1) as (l' & c' & -> & Hr).
    exists (with_idx (Z.of_nat idx) e :: l'), c'. split; [done|]. by eapply (registers_cons _ _ _ _ _ c1).
Qed.

Definition same_di (c : GraphDataContext) (di di' : ProcessorDI) : Prop :=
  Forall2 same_entry (_input_ids di) (_input_ids di') ∧ Forall2 same_entry (_output_ids di) (_output_ids di') ∧
  Forall (indexed c) (_input_ids di') ∧ Forall (indexed c) (_output_ids di').

Lemma register_all_spec all dis c :
  Forall (λ di, Forall fresh_entry (_input_ids di) ∧ Forall fresh_entry (_output_ids di)) dis → all_registered c →
  ∃ dis' c', register_all all dis c = Some (dis', c') ∧ all_registered c' ∧
    _data_array c `prefix_of` _data_array c' ∧ Forall2 (same_di c') dis dis'.
Proof.
  intros Hl. revert c. induction Hl as [|di dis [Hin Hout] _ IH]; intros c Ha; cbn [register_all].
  { exists [], c. split_and!; [done..|constructor]. }
  destruct (register_inputs_spec all _ c Hin Ha) as (ins & c1 & -> & Ha1 & Hp1 & Hi1 & He1). cbn [mbind option_bind].
  destruct (register_outputs_spec _ c1 Hout Ha1) as (outs & c2 & -> & Ha2 & Hp2 & Hi2 & He2).
  destruct (IH c2 Ha2) as (dis' & c' & -> & Ha' & Hp' & Hd'). cbn [mbind option_bind].
  eexists _, c'. split; [done|]. split_and!; [done|by do 2 etrans|]. constructor; [|done]. split_and!; simpl; [done|done|..].
  - eapply Forall_impl; [exact Hi1|]. intros e. apply indexed_prefix. by etrans.
  - eapply Forall_impl; [exact Hi2|]. intros e. by apply indexed_prefix.
Qed.

(** Resetting a context leaves every entry at its index. *)
Lemma Reset_all_registered c : all_registered c → all_registered (GraphDataContext_Reset c).
Proof.
  intros [Hr Ha]. unfold all_registered, registered, GraphDataContext_Reset in *. cbn [_data_table _data_array].
  assert (∀ (l : list DIObjectKey) (t : gmap DIObjectKey DataValue) key,
    dv_idx <$> (foldl (λ t key, alter DataValue_Reset key t) t l !! key) = dv_idx <$> (t !! key)) as Hidx.
  { intros l. induction l as [|k l IH]; intros t key; cbn [foldl]; [done|]. rewrite IH.
    destruct (decide (k = key)) as [->|]; [|by rewrite lookup_alter_ne].
    rewrite lookup_alter_eq. by destruct (t !! key). }
  split.
  - intros i key Hi. destruct (Hr i key Hi) as (dv & Hdv & Hd). specialize (Hidx (_data_array c) (_data_table c) key).
    rewrite Hdv in Hidx. destruct (foldl _ _ _ !! key) as [dv'|]; [|done]. injection Hidx as Hidx. exists dv'. split; [done|congruence].
  - intros key dv Hdv. specialize (Hidx (_data_array c) (_data_table c) key). rewrite Hdv in Hidx.
    destruct (_data_table c !! key) as [dv'|] eqn:E; [|done]. injection Hidx as ->. by apply Ha.
Qed.

(** ** Properties *)

Section properties.
Context (container : DIObjectKey → option Z) (fuel : nat) (self : nat) (vars : option (string → string)).

(** C8. Data flows: what a processor publishes for an output is what every
    plain input of the same name and type is given afterwards, through the
    indexes of the setup, whatever the other inputs are, unless one of them
    moves the same data away. *)
Theorem output_reaches_input out_value outs ins e_out e_in cs c pf v :
  closed cs → (size cs <= fuel)%nat → cs !! self = Some c → registered c →
  Forall (indexed c) outs → Forall (indexed c) ins → Forall bare ins →
  NoDup (data_key <$> outs) → Forall (λ e, is_var (fi_name (fd_info e)) = false) outs → NoDup (fd_name <$> ins) →
  e_out ∈ outs → e_in ∈ ins → data_key e_in = data_key e_out → field_kind e_in = field_kind e_out →
  fi_is_in_out (fd_info e_in) = false → fi_is_aggregate (fd_info e_in) = false →
  (∀ e, e ∈ ins → spares (data_key e_in) e) →
  is_Some (_data_table c !! data_key e_out) → out_value (fd_name e_out) = Some v →
  ∃ cs1 cs2 pf2, CollectOutputs self vars out_value outs cs = Some (0, cs1) ∧
    InjectInputs container fuel self vars ins (cs1, pf) = Some (0, (cs2, pf2)) ∧
    single pf2 !! fd_name e_in = Some (Some v).
Proof.
  intros Hcl Hf Hc Hr Ho Hi Hb Hnd Hv Hni Heo Hei Hk Hkind Hio Hag Hsp Hs Hout.
  destruct (CollectOutputs_spec self vars out_value outs cs c Hc Hr Ho Hnd Hv)
    as (cs1 & c1 & Hcol & Hc1 & Hl & Hr1 & Ha1 & _ & Hall).
  assert (local_value (field_kind e_in) c1 (data_key e_in) (-1) = Some v) as Hval
    by (rewrite Hk, Hkind; apply Hall; [done|done|by right]).
  assert (ready fuel self cs1) as Hready by (by apply (ready_links fuel self cs cs1 Hl); split_and!; [done|exists c|]).
  assert (is_var (fi_name (fd_info e_in)) = false) as Hvin.
  { unfold data_key in Hk. injection Hk as Hname _. rewrite Hname. rewrite Forall_forall in Hv. by apply Hv. }
  destruct (InjectInputs_local container fuel self vars ins cs1 c1 pf e_in v) as (cs2 & pf2 & ? & ?); try done.
  - eapply Forall_impl; [exact Hi|]. intros e [?|(i & ? & ?)]; [by left|right; exists i; by rewrite Ha1].
  - eauto 10.
Qed.

(** The entries of a processor never refer to the data of the script, so
    what the script says about an input is ignored: injecting never fails, also
    when a required input has no data, and nothing is moved for a vertex that
    is skipped. *)
Theorem required_ignored strict p inputs outputs ins outs cs pf :
  PrepareInputs strict p inputs = Some ins → PrepareOutputs strict p outputs = Some outs →
  closed cs → is_Some (cs !! self) → (size cs <= fuel)%nat →
  (∃ st, InjectInputs container fuel self vars ins (cs, pf) = Some (0, st)) ∧
  MoveDataWhenSkipped fuel self outs cs = Some (0, cs).
Proof.
  intros Hin%Setup_bare Hout%Setup_bare Hcl Hs Hf. split.
  - destruct (InjectInputs_total container fuel self vars ins cs pf Hin) as (cs' & pf' & ? & _); [done|]. eauto.
  - clear -Hout. induction Hout as [|e outs He _ IH]; simpl; [done|]. by rewrite He.
Qed.

(** An output whose name is a variable is lost: it has no entry of its own,
    and since entries cannot be made while a graph runs, nothing is stored
    under the name the variable stands for, but the return code is 0. *)
Theorem var_output_lost out_value e var cs c :
  vars = Some var → cs !! self = Some c → is_var (fi_name (fd_info e)) = true → fd_idx e = -1 →
  _disable_entry_creation c = true →
  _data_table c !! (var (var_name (fi_name (fd_info e))), fi_id (fd_info e)) = None →
  CollectOutputs self vars out_value [e] cs = Some (0, cs).
Proof.
  intros -> Hc Hv Hi Hd Hn. cbn [CollectOutputs]. unfold collect_entry. cbv zeta. rewrite Hv.
  case_bool_decide; [done|]. unfold emit. rewrite Hc. cbn [mbind option_bind fmap option_fmap option_map].
  assert (GraphDataContext_Set (field_kind e) c (var (var_name (fi_name (fd_info e))), fi_id (fd_info e))
    (out_value (fd_name e)) (fd_idx e) = (false, c)) as ->; [|cbn [snd]; by rewrite insert_id].
  unfold GraphDataContext_Set. rewrite Hi, GetDataValue_name, bool_decide_eq_false_2, Hd; [done|].
  by apply eq_None_not_Some.
Qed.

(** An input whose name is a variable does not find the data of its own
    context: it was registered under the name with the dollar sign, and the
    index of that entry is used instead of the name the variable stands for. *)
Theorem var_input_misses e var c i :
  vars = Some var → is_var (fi_name (fd_info e)) = true → bare e → fi_is_aggregate (fd_info e) = false →
  fi_is_in_out (fd_info e) = false → fd_idx e = Z.of_nat i → _data_array c !! i = Some (data_key e) → registered c →
  local_value (field_kind e) c (data_key e) (-1) = None →
  _parent c = None → _executed_childrens c = [] →
  container (var (var_name (fi_name (fd_info e))), fi_id (fd_info e)) = None → (0 < fuel)%nat →
  ∀ pf, ∃ pf', InjectInputs container fuel self vars [e] ({[self := c]}, pf) = Some (0, ({[self := c]}, pf')) ∧
    ∀ v, single pf !! fd_name e = None → single pf' !! fd_name e ≠ Some (Some v).
Proof.
  intros -> Hv Hb Hag Hio Hi Ha Hr Hval Hpar Hch Hcon Hf pf.
  cbn [InjectInputs]. unfold inject_entry. rewrite Hb, Hv, Hio. cbv zeta. unfold inject_var.
  case_bool_decide as Hemp.
  { exists pf. cbn [mbind option_bind]. rewrite (required_bare e Hb), andb_false_r. split; [done|]. by intros v ->. }
  set (name := var (var_name (fi_name (fd_info e)))) in *.
  assert (local_value (field_kind e) c (name, fi_id (fd_info e)) (fd_idx e) = None) as Hmiss.
  { rewrite Hi. assert (GetDataValue c (name, fi_id (fd_info e)) (Z.of_nat i) = Some (data_key e)) as Hg.
    { rewrite <-(registered_index c (data_key e) i Ha). apply lookup_lt_Some in Ha. unfold GetDataValue.
      by rewrite (proj2 (Z.leb_le 0 (Z.of_nat i))), (proj2 (Z.ltb_lt _ _)) by lia. }
    unfold local_value. rewrite Hg. rewrite local_value_name in Hval. exact Hval. }
  assert (fetch container fuel self e name false {[self := c]} = Some (None, {[self := c]})) as Hfetch.
  { unfold fetch, GraphDataContext_Get. destruct fuel as [|fuel']; [lia|].
    assert (({[self := c]} : contexts) !! self = Some c) as Hself by apply lookup_singleton_eq.
    assert (probe_get (field_kind e) (name, fi_id (fd_info e)) {[self := c]} self (fd_idx e) = Some (None, {[self := c]}))
      as Hp by (unfold probe_get; rewrite Hself; cbn [mbind option_bind]; by rewrite Hmiss).
    rewrite walk_unfold, Hp. cbn [mbind option_bind]. rewrite Hself. cbn [mbind option_bind].
    rewrite Hpar, Hch, Hcon. done. }
  unfold inject. rewrite Hio, Hfetch. cbn [andb mbind option_bind]. rewrite Hag. cbn [andb negb Z.eqb mbind option_bind].
  rewrite (required_bare e Hb). eexists. split; [done|]. intros v _. simpl. by rewrite lookup_insert_eq.
Qed.
End properties.
