(* ===== verification/DagExec.v ===== *)
(** * DagExec: running a dataflow graph (didagle: graph_executor.cpp)

    A graph is run by vertex contexts that count the dependencies they still
    wait for.  The threads of the application's executor run vertices
    concurrently, so a run is a sequence of steps of the shared state, one step
    for each access to an atomic counter: a vertex starts, its processor
    returns and the number of vertices to join is decremented, one successor
    is told the result and its counter is decremented, the successors that
    became ready are scheduled.  Any order of the steps of different vertices
    is possible.

    [GraphContext::Setup] makes the contexts, with the checks that make it
    return -1.  The data that is moved between processors is in DagData and
    DagInject and the parameters are in DagParams; the events for tracing are
    not modelled. *)

From Stdlib Require Import Ascii.
From S2P Require Import Prelude DagGraph DagData DagInject.
Open Scope string_scope.
Open Scope list_scope.
Open Scope Z_scope.

(** Where the activation of a vertex is.  [Lost]: its future or coroutine has
    failed, and nothing is left that would finish it. *)
Inductive phase :=
| Idle
| Scheduled
| Running
| Lost
| Notifying (i : nat) (ready_successors : list nat)
| Finished.

#[export] Instance phase_eq_dec : EqDecision phase.
Proof. solve_decision. Defined.

Record VertexContext := {
  _waiting_num : Z;
  _deps_results : list VertexResult;
  _result : VertexResult;
  _code : Z;
  _successor_ctxs : list nat;
  _successor_dep_idxs : list Z;
  vc_phase : phase;
}.

#[export] Instance VertexContext_inhabited : Inhabited VertexContext :=
  populate {| _waiting_num := 0; _deps_results := []; _result := V_RESULT_INVALID; _code := 0;
              _successor_ctxs := []; _successor_dep_idxs := []; vc_phase := Idle |}.

(** Whether a graph, cluster or context could be set up; [Failure] stands for
    the return code -1, and [Crash] for a program that aborts or recurses for
    ever. *)
Inductive attempt (A : Type) := Done (a : A) | Failure | Crash.
Arguments Done {A} a.
Arguments Failure {A}.
Arguments Crash {A}.

Record GraphContext := {
  _vertex_context_table : gmap nat VertexContext;
  _join_vertex_num : Z;
  _start_ctxs : list nat;
  (** The codes [_done] was called with. *)
  done_calls : list Z;
}.

Definition V_CODE_ERR : Z := 2.
Definition V_CODE_SKIP : Z := 3.

(** How the work of a vertex ends: its inputs cannot be injected, its processor
    returns or throws, its subgraph is done, or the future or coroutine of its
    processor ends with an exception, for which [thenValue] does not run the
    closure. *)
Inductive outcome :=
| InjectFailed
| Returned (rc : Z)
| Threw
| SubgraphDone (code : Z)
| FutureFailed.

(** The steps of a run.  When a vertex starts it reads the setting its
    configuration names from the data context ([None]: it is not there), and
    whether the deadline has passed. *)
Inductive event :=
| Start (v : nat) (setting : option bool) (expired : bool)
| Return (v : nat) (o : outcome)
| Notify (v : nat).

Inductive step_result := NotEnabled | Undefined | Next (st : GraphContext).

(** What the executor asks of a vertex beyond its links: it has a processor or a
    subgraph, its processor does input and output. *)
Class VertexKinds := {
  has_target : nat → bool;
  has_processor : nat → bool;
  isIOProcessor : nat → bool;
}.

(** Whether an expression processor accepts its condition, and a processor the
    parameters of its vertex, when they are set up. *)
Class ProcessorSetup := {
  expr_setup : string → string → bool;
  processor_setup : VertexConf → bool;
}.

(** ** Setting up a vertex *)

Section vertex.
Context `{Runtime, !ProcessorSetup}.

(** The processor of a vertex: [None] when there is none. *)
Definition vertex_processor (c : VertexConf) : option ProcessorInfo :=
  if negb (bool_decide (v_graph c = "")) then
    if negb (bool_decide (v_while_cluster c = "")) then GetProcessor "ispine_while_processor" else None
  else GetProcessor (v_processor c).

(** A condition of [select_args]: its processor exists and is set up. *)
Definition select_ok (strict : bool) (expr : string) (cond : string) : bool :=
  if IsCondExpr cond then
    match GetProcessor expr with
    | None => negb strict
    | Some _ => expr_setup expr cond
    end
  else true.

(** [VertexContext::Setup]: the inputs and outputs of the processor, if there
    is one; [None] stands for the return code -1. *)
Definition VertexContext_Setup (cl : ClusterConf) (c : VertexConf) : option (option ProcessorDI) :=
  let p := vertex_processor c in
  if c_strict_dsl cl && bool_decide (p = None) && negb (bool_decide (v_processor c = "")) then None
  else if negb (forallb (select_ok (c_strict_dsl cl) (c_default_expr_processor cl)) (v_select_args c)) then None
  else match p with
       | None => Some None
       | Some p =>
           ins ← PrepareInputs (c_strict_dsl cl) p (v_input c);
           outs ← PrepareOutputs (c_strict_dsl cl) p (v_output c);
           if processor_setup c then Some (Some {| _input_ids := ins; _output_ids := outs |}) else None
       end.
End vertex.

Section exec.
Context `{Runtime, !VertexKinds}.
Context (g : Graph).

(** ** Setting up a graph *)

Definition vertex_of (v : nat) : option Vertex := g_vertex g !! v.
Definition deps_of (v : nat) : gmap nat nat :=
  match vertex_of v with Some x => _deps_idx x | None => ∅ end.
Definition expected_of (v : nat) : list VertexResult :=
  match vertex_of v with Some x => _deps_expected_results x | None => [] end.

Definition VertexContext_Reset (v : nat) (c : VertexContext) : VertexContext :=
  {| _waiting_num := u32 (Z.of_nat (size (deps_of v)));
     _deps_results := replicate (size (deps_of v)) V_RESULT_INVALID;
     _result := V_RESULT_INVALID; _code := 0;
     _successor_ctxs := _successor_ctxs c; _successor_dep_idxs := _successor_dep_idxs c;
     vc_phase := Idle |}.

Definition new_VertexContext (v : nat) : VertexContext :=
  VertexContext_Reset v {| _waiting_num := 0; _deps_results := []; _result := V_RESULT_INVALID;
    _code := 0; _successor_ctxs := []; _successor_dep_idxs := []; vc_phase := Idle |}.

(** What the first loop of [GraphContext::Setup] has made: a context for each
    vertex, the inputs and outputs of the vertices with a processor, the number
    of vertices that run a graph of another cluster, and the keys of all
    outputs. *)
Record setup_progress := {
  su_contexts : gmap nat VertexContext;
  su_dis : gmap nat ProcessorDI;
  _children_count : nat;
  all_output_ids : gset DIObjectKey;
}.

Definition setup_vertex `{!ProcessorSetup} (cl : ClusterConf) (v : nat) (s : setup_progress)
    : attempt setup_progress :=
  match vertex_of v with
  | None => Crash
  | Some x =>
      match VertexContext_Setup cl (v_conf x) with
      | None => Failure
      | Some di =>
          match collect_output_ids (all_output_ids s) (default [] (_output_ids <$> di)) with
          | None => Failure
          | Some all =>
              Done {| su_contexts := <[v := new_VertexContext v]> (su_contexts s);
                      su_dis := partial_alter (λ _, di) v (su_dis s);
                      _children_count := if bool_decide (v_cluster (v_conf x) = "")
                                         then _children_count s else S (_children_count s);
                      all_output_ids := all |}
          end
      end
  end.

(** The vertices of the table of names, in its order. *)
Fixpoint setup_vertices `{!ProcessorSetup} (cl : ClusterConf) (l : list (string * nat)) (s : setup_progress)
    : attempt setup_progress :=
  match l with
  | [] => Done s
  | (_, v) :: l => match setup_vertex cl v s with Done s => setup_vertices cl l s | r => r end
  end.

(** [None]: a successor has no context and the program aborts. *)
Definition SetupSuccessors (table : gmap nat VertexContext) (v : nat) (c : VertexContext)
    : option VertexContext :=
  let succ := set_order (successors_of (g_vertex g) v) in
  if forallb (λ s, bool_decide (is_Some (table !! s))) succ then
    Some {| _waiting_num := _waiting_num c; _deps_results := _deps_results c; _result := _result c;
            _code := _code c; _successor_ctxs := succ;
            _successor_dep_idxs := (λ s, match vertex_of s with
                                         | Some x => GetDependencyIndex x v
                                         | None => -1
                                         end) <$> succ;
            vc_phase := vc_phase c |}
  else None.

Definition Ready (c : VertexContext) : bool := 0 =? _waiting_num c.

(** [done_calls] restarts here: the next run comes with its own [_done]. *)
Definition GraphContext_Reset (st : GraphContext) : GraphContext :=
  {| _vertex_context_table := map_imap (λ v c, Some (VertexContext_Reset v c)) (_vertex_context_table st);
     _join_vertex_num := u32 (Z.of_nat (size (_vertex_context_table st)));
     _start_ctxs := _start_ctxs st; done_calls := [] |}.

(** Every context gets its successors; [None]: the program aborts. *)
Definition link_contexts (table : gmap nat VertexContext) : option (gmap nat VertexContext) :=
  if forallb (λ p, bool_decide (is_Some (SetupSuccessors table p.1 p.2))) (map_to_list table)
  then Some (map_imap (λ v c, SetupSuccessors table v c) table)
  else None.

(** The contexts, the inputs and outputs with the indexes of their data, and
    the data context. *)
Definition GraphContext_Setup `{!ProcessorSetup} (cl : ClusterConf)
    : attempt (GraphContext * gmap nat ProcessorDI * GraphDataContext) :=
  match setup_vertices cl (node_order (_nodes g))
          {| su_contexts := ∅; su_dis := ∅; _children_count := 0; all_output_ids := ∅ |} with
  | Failure => Failure
  | Crash => Crash
  | Done s =>
      match link_contexts (su_contexts s) with
      | None => Crash
      | Some table =>
          let order := set_order (dom table) in
          match register_all (all_output_ids s) (omap (λ v, su_dis s !! v) order)
                  (ReserveChildCapacity (_children_count s) new_GraphDataContext) with
          | None => Failure
          | Some (dis, data_ctx) =>
              Done (GraphContext_Reset
                      {| _vertex_context_table := table; _join_vertex_num := 0;
                         _start_ctxs := filter (λ v, Ready (table !!! v)) order; done_calls := [] |},
                    list_to_map (zip (filter (λ v, is_Some (su_dis s !! v)) order) dis),
                    GraphDataContext_Reset data_ctx)
          end
      end
  end.

(** ** Steps *)

Definition ctx (st : GraphContext) (v : nat) : VertexContext := _vertex_context_table st !!! v.

Definition set_ctx (st : GraphContext) (v : nat) (c : VertexContext) : GraphContext :=
  {| _vertex_context_table := <[v := c]> (_vertex_context_table st);
     _join_vertex_num := _join_vertex_num st; _start_ctxs := _start_ctxs st;
     done_calls := done_calls st |}.

Definition set_phase (c : VertexContext) (p : phase) : VertexContext :=
  {| _waiting_num := _waiting_num c; _deps_results := _deps_results c; _result := _result c;
     _code := _code c; _successor_ctxs := _successor_ctxs c;
     _successor_dep_idxs := _successor_dep_idxs c; vc_phase := p |}.

Definition schedule (st : GraphContext) (v : nat) : GraphContext :=
  set_ctx st v (set_phase (ctx st v) Scheduled).

(** The order in which ready vertices are handed out: all but one to the
    concurrent executor, and that one, the first that does no input or output,
    is run by this thread. *)
Definition ExecuteReadyVertexs (ready : list nat) : list nat :=
  match ready with
  | [] => []
  | [v] => [v]
  | v0 :: _ =>
      let local_execute :=
        default v0 (snd <$> list_find (λ v, negb (has_processor v) || negb (isIOProcessor v)) ready) in
      filter (λ v, v ≠ local_execute) ready ++ [local_execute]
  end.

(** The contexts that waited for nothing after the setup are scheduled. *)
Definition GraphContext_Execute (st : GraphContext) : GraphContext :=
  foldl schedule st (ExecuteReadyVertexs (_start_ctxs st)).

(** Every dependency ended with a result that is expected of it. *)
Definition match_deps (v : nat) (results : list VertexResult) : bool :=
  forallb (λ p, negb (bool_decide (p.1 = V_RESULT_INVALID))
                && negb (Z.land (result_bits p.1) (result_bits p.2) =? 0))
          (zip results (expected_of v)).

(** The code a processor's return value becomes. *)
Definition processor_code (v : nat) (exec_rc : Z) : Z :=
  match vertex_of v with
  | Some x => if v_ignore_processor_execute_error (v_conf x) && negb (IsCondVertex (v_conf x))
              then 0 else exec_rc
  | None => exec_rc
  end.
(** The code [FinishVertexProcess] is called with; [None]: it is not called. *)
Definition outcome_code (v : nat) (o : outcome) : option Z :=
  match o with
  | InjectFailed => Some V_CODE_SKIP
  | Returned rc => Some (processor_code v rc)
  | Threw => Some (processor_code v V_CODE_ERR)
  | SubgraphDone code => Some code
  | FutureFailed => None
  end.

(** [FinishVertexProcess] and [OnVertexDone] up to its loop. *)
Definition FinishVertexProcess (st : GraphContext) (v : nat) (code : Z) : GraphContext :=
  let c := ctx st v in
  let last := 1 =? _join_vertex_num st in
  let c := {| _waiting_num := _waiting_num c; _deps_results := _deps_results c;
              _result := if negb (0 =? code) then V_RESULT_ERR else V_RESULT_OK; _code := code;
              _successor_ctxs := _successor_ctxs c; _successor_dep_idxs := _successor_dep_idxs c;
              vc_phase := if last then Finished else Notifying 0 [] |} in
  {| _vertex_context_table := <[v := c]> (_vertex_context_table st);
     _join_vertex_num := u32 (_join_vertex_num st - 1); _start_ctxs := _start_ctxs st;
     done_calls := if last then done_calls st ++ [0] else done_calls st |}.

(** Returns the counter before the update; [None] when the index is out of
    range. *)
Definition SetDependencyResult (c : VertexContext) (idx : Z) (r : VertexResult)
    : option (Z * VertexContext) :=
  if idx <? 0 then None
  else
    last_result_val ← _deps_results c !! Z.to_nat idx;
    let waiting := if bool_decide (last_result_val = V_RESULT_INVALID)
                   then u32 (_waiting_num c - 1) else _waiting_num c in
    Some (_waiting_num c,
          {| _waiting_num := waiting; _deps_results := <[Z.to_nat idx := r]> (_deps_results c);
             _result := _result c; _code := _code c; _successor_ctxs := _successor_ctxs c;
             _successor_dep_idxs := _successor_dep_idxs c; vc_phase := vc_phase c |}).

(** The setting [expect_config] names, or its negation. *)
Definition expect_config_ok (v : nat) (setting : option bool) : bool :=
  match vertex_of v with
  | Some x =>
      let match_result := default false setting in
      match v_expect_config (v_conf x) with
      | EmptyString => true
      | String "!"%char _ => negb match_result
      | _ => match_result
      end
  | None => true
  end.

Definition VertexContext_Execute (st : GraphContext) (v : nat) (setting : option bool) (expired : bool)
    : GraphContext :=
  let c := ctx st v in
  if has_target v && match_deps v (_deps_results c) && expect_config_ok v setting && negb expired
  then set_ctx st v (set_phase c Running)
  else FinishVertexProcess st v V_CODE_SKIP.

(** An iteration of the loop of [OnVertexDone], or its end. *)
Definition OnVertexDone_step (st : GraphContext) (v : nat) (i : nat) (ready : list nat) : step_result :=
  let c := ctx st v in
  let finish st := set_ctx st v (set_phase (ctx st v) Finished) in
  match _successor_ctxs c !! i, _successor_dep_idxs c !! i with
  | Some s, Some idx =>
      match SetDependencyResult (ctx st s) idx (_result c) with
      | None => Undefined
      | Some (wait_num, cs) =>
          let st := set_ctx st s cs in
          if 1 =? wait_num then
            if (S i =? length (_successor_ctxs c))%nat && bool_decide (ready = [])
            then Next (finish (schedule st s))
            else Next (set_ctx st v (set_phase (ctx st v) (Notifying (S i) (ready ++ [s]))))
          else Next (set_ctx st v (set_phase (ctx st v) (Notifying (S i) ready)))
      end
  | None, _ => Next (finish (foldl schedule st (ExecuteReadyVertexs ready)))
  | Some _, None => Undefined
  end.

Definition exec_step (st : GraphContext) (e : event) : step_result :=
  match e with
  | Start v setting expired =>
      match vc_phase (ctx st v) with
      | Scheduled => Next (VertexContext_Execute st v setting expired)
      | _ => NotEnabled
      end
  | Return v o =>
      match vc_phase (ctx st v) with
      | Running => Next (match outcome_code v o with
                         | Some code => FinishVertexProcess st v code
                         | None => set_ctx st v (set_phase (ctx st v) Lost)
                         end)
      | _ => NotEnabled
      end
  | Notify v =>
      match vc_phase (ctx st v) with
      | Notifying i ready => OnVertexDone_step st v i ready
      | _ => NotEnabled
      end
  end.

Inductive run : GraphContext → list event → GraphContext → Prop :=
| run_nil st : run st [] st
| run_cons st e st1 es st2 : exec_step st e = Next st1 → run st1 es st2 → run st (e :: es) st2.

Fixpoint exec_all (st : GraphContext) (es : list event) : step_result :=
  match es with
  | [] => Next st
  | e :: es => match exec_step st e with Next st => exec_all st es | r => r end
  end.
End exec.
