(* ===== verification/DagExecSpec.v ===== *)
(** * DagExecSpec: every schedule runs every vertex once, in dependency order

    [Executable] is what the executor needs of a graph; a graph that was built
    satisfies it (DagProperties.v).  The invariant [inv] holds in every state a
    run can reach. *)

From stdpp Require Import relations.
From S2P Require Import Prelude DagGraph DagGraphSpec DagExec.
Open Scope Z_scope.

Class Executable (g : Graph) : Prop := {
  ex_linked : linked (g_vertex g);
  ex_known v : (v < length (g_vertex g))%nat → known g v;
  ex_range v : known g v → (v < length (g_vertex g))%nat;
  ex_acyclic v : ¬ tc (edge (g_vertex g)) v v;
  ex_nonempty : g_vertex g ≠ [];
  ex_size : Z.of_nat (length (g_vertex g)) < 2 ^ 32;
}.

Section spec.
Context `{UnorderedLaws, !VertexKinds}.
Context (g : Graph) `{!Executable g}.
Implicit Types (st : GraphContext) (u v w s : nat).

Abbreviation vs := (g_vertex g).
Abbreviation n := (length (g_vertex g)).

(** ** Links *)

Definition succs v : list nat := set_order (successors_of vs v).

Lemma succs_edge v s : s ∈ succs v ↔ edge vs v s.
Proof. unfold succs. by rewrite set_order_elem. Qed.

Lemma succs_NoDup v : NoDup (succs v).
Proof. unfold succs. rewrite set_order_perm. apply NoDup_elements. Qed.

Lemma edge_deps v w : edge vs v w ↔ is_Some (deps_of g w !! v).
Proof.
  rewrite (lk_deps _ ex_linked). unfold deps_of, vertex_of. split.
  - intros (x & -> & ?). done.
  - destruct (vs !! w) as [x|] eqn:E; [eauto|]. rewrite lookup_empty. by intros [].
Qed.

Lemma edge_lt v w : edge vs v w → (v < n)%nat ∧ (w < n)%nat.
Proof.
  intros He. split; [by eapply edge_range|]. apply (lk_deps _ ex_linked) in He as (x & Hx & _).
  by eapply lookup_lt_Some.
Qed.

Lemma edge_irrefl v : ¬ edge vs v v.
Proof. intros He. apply (ex_acyclic v). by apply tc_once. Qed.

Lemma deps_bound w v i : deps_of g w !! v = Some i → (i < size (deps_of g w))%nat.
Proof.
  unfold deps_of, vertex_of. destruct (vs !! w) eqn:E; [|by rewrite lookup_empty].
  by eapply (lk_bound _ ex_linked).
Qed.

Lemma deps_inj w v v' i : deps_of g w !! v = Some i → deps_of g w !! v' = Some i → v = v'.
Proof.
  unfold deps_of, vertex_of. destruct (vs !! w) eqn:E; [|by rewrite lookup_empty].
  by eapply (lk_inj _ ex_linked).
Qed.

(** Every index is taken. *)
Lemma deps_surj w i : (i < size (deps_of g w))%nat → ∃ v, deps_of g w !! v = Some i.
Proof.
  intros Hi. set (m := deps_of g w) in *.
  assert (NoDup (map_to_list m).*2) as Hnd.
  { apply NoDup_fmap_2_strong; [|apply NoDup_map_to_list].
    intros [v a] [v' b] Ha%elem_of_map_to_list Hb%elem_of_map_to_list. simpl. intros ->.
    f_equal. by eapply (deps_inj w). }
  assert ((map_to_list m).*2 ≡ₚ seq 0 (size m)) as Hp.
  { apply submseteq_length_Permutation; [|by rewrite length_seq, length_fmap, length_map_to_list].
    apply NoDup_submseteq; [done|]. intros x ([v y] & -> & Hx)%list_elem_of_fmap.
    apply elem_of_map_to_list in Hx. apply elem_of_seq. simpl.
    pose proof (deps_bound w v y Hx) as Hb. fold m in Hb. lia. }
  assert (i ∈ (map_to_list m).*2) as ([v y] & -> & Hx)%list_elem_of_fmap
    by (rewrite Hp; apply elem_of_seq; lia).
  exists v. by apply elem_of_map_to_list in Hx.
Qed.

(** ** The invariant *)

Definition unfinished st v : bool :=
  match vc_phase (ctx st v) with Idle | Scheduled | Running | Lost => true | _ => false end.
Definition told st v : nat :=
  match vc_phase (ctx st v) with
  | Idle | Scheduled | Running | Lost => 0
  | Notifying i _ => i
  | Finished => length (succs v)
  end.
Definition ready_of st v : list nat :=
  match vc_phase (ctx st v) with Notifying _ ready => ready | _ => [] end.

(** [v] has told its result to [w]. *)
Definition notified st v w : bool := bool_decide (w ∈ take (told st v) (succs v)).

(** What [w] still waits for. *)
Definition pending st w : gset nat := filter (λ v, notified st v w = false) (dom (deps_of g w)).

Definition vertices : gset nat := set_seq 0 n.
Definition unfinished_set st : gset nat := filter (λ v, unfinished st v = true) vertices.

Record inv st : Prop := {
  iv_dom v : (v < n)%nat ↔ is_Some (_vertex_context_table st !! v);
  iv_succ v : (v < n)%nat → _successor_ctxs (ctx st v) = succs v;
  iv_idx v : (v < n)%nat → _successor_dep_idxs (ctx st v)
    = (λ s, match vertex_of g s with Some x => GetDependencyIndex x v | None => -1 end) <$> succs v;
  iv_told v : (v < n)%nat → (told st v <= length (succs v))%nat;
  iv_length w : (w < n)%nat → length (_deps_results (ctx st w)) = size (deps_of g w);
  iv_results v w i : deps_of g w !! v = Some i →
    _deps_results (ctx st w) !! i
    = Some (if notified st v w then _result (ctx st v) else V_RESULT_INVALID);
  iv_waiting w : (w < n)%nat → _waiting_num (ctx st w) = Z.of_nat (size (pending st w));
  iv_result v : (v < n)%nat → _result (ctx st v) = V_RESULT_INVALID ↔ unfinished st v = true;
  iv_started w : (w < n)%nat → vc_phase (ctx st w) ≠ Idle → pending st w = ∅;
  iv_held w : (w < n)%nat → vc_phase (ctx st w) = Idle → pending st w = ∅ →
    ∃ v, (v < n)%nat ∧ w ∈ ready_of st v;
  iv_ready v w : (v < n)%nat → w ∈ ready_of st v →
    (w < n)%nat ∧ vc_phase (ctx st w) = Idle ∧ pending st w = ∅;
  iv_ready_nodup v : (v < n)%nat → NoDup (ready_of st v);
  iv_ready_one v v' w : (v < n)%nat → (v' < n)%nat →
    w ∈ ready_of st v → w ∈ ready_of st v' → v = v';
  iv_join : _join_vertex_num st = Z.of_nat (size (unfinished_set st));
  iv_done : done_calls st = if _join_vertex_num st =? 0 then [0] else [];
}.

Lemma elem_of_vertices v : v ∈ vertices ↔ (v < n)%nat.
Proof. unfold vertices. rewrite elem_of_set_seq. lia. Qed.

Lemma elem_of_unfinished st v : v ∈ unfinished_set st ↔ (v < n)%nat ∧ unfinished st v = true.
Proof. unfold unfinished_set. rewrite elem_of_filter, elem_of_vertices. tauto. Qed.

Lemma elem_of_pending st v w : v ∈ pending st w ↔ edge vs v w ∧ notified st v w = false.
Proof. unfold pending. rewrite elem_of_filter, elem_of_dom, edge_deps. tauto. Qed.

Lemma pending_ext st st' w :
  (∀ v, edge vs v w → notified st' v w = notified st v w) → pending st' w = pending st w.
Proof.
  intros Hn. apply set_eq. intros v. rewrite !elem_of_pending. split; intros [He ?];
    (split; [done|]); specialize (Hn v He); congruence.
Qed.

(** A vertex that has not told a successor yet has it waiting, idle. *)
Lemma untold_idle st v s :
  inv st → edge vs v s → notified st v s = false → vc_phase (ctx st s) = Idle.
Proof.
  intros Hi He Hn. destruct (edge_lt v s He) as [_ Hs].
  destruct (vc_phase (ctx st s)) eqn:E; [done|..];
    (assert (v ∈ pending st s) as Hp by (by apply elem_of_pending));
    rewrite (iv_started st Hi s Hs) in Hp by congruence; set_solver.
Qed.

Lemma vertices_size : Z.of_nat (size vertices) < 2 ^ 32.
Proof.
  unfold vertices. pose proof ex_size. rewrite size_set_seq. done.
Qed.

Lemma unfinished_size st : Z.of_nat (size (unfinished_set st)) < 2 ^ 32.
Proof.
  pose proof vertices_size. assert (size (unfinished_set st) <= size vertices)%nat; [|lia].
  apply subseteq_size. unfold unfinished_set. set_solver.
Qed.

(** ** Steps that only move phases *)

Lemma ctx_set st v c u : ctx (set_ctx st v c) u = if decide (u = v) then c else ctx st u.
Proof.
  unfold ctx, set_ctx. simpl. destruct (decide (u = v)) as [->|Hne].
  - apply lookup_total_insert_eq.
  - by apply lookup_total_insert_ne.
Qed.

Lemma notified_told st st' v w : told st' v = told st v → notified st' v w = notified st v w.
Proof. unfold notified. by intros ->. Qed.

Lemma pending_told st st' w :
  (∀ v, (v < n)%nat → told st' v = told st v) → pending st' w = pending st w.
Proof.
  intros Ht. apply pending_ext. intros v He. apply notified_told, Ht. by apply edge_lt in He as [? _].
Qed.

(** Phases move such that nobody is told anything and nobody finishes; vertices
    leave the lists of ready ones exactly when they stop being idle. *)
Lemma inv_phases st st' :
  inv st →
  (∀ u, ∃ p, ctx st' u = set_phase (ctx st u) p) →
  (∀ u, is_Some (_vertex_context_table st' !! u) ↔ is_Some (_vertex_context_table st !! u)) →
  _join_vertex_num st' = _join_vertex_num st → done_calls st' = done_calls st →
  (∀ u, (u < n)%nat → told st' u = told st u ∧ unfinished st' u = unfinished st u) →
  (∀ w, (w < n)%nat → vc_phase (ctx st' w) ≠ Idle →
     vc_phase (ctx st w) ≠ Idle ∨ ∃ v, (v < n)%nat ∧ w ∈ ready_of st v) →
  (∀ w, (w < n)%nat → vc_phase (ctx st' w) = Idle → vc_phase (ctx st w) = Idle) →
  (∀ v w, (v < n)%nat → w ∈ ready_of st' v ↔ w ∈ ready_of st v ∧ vc_phase (ctx st' w) = Idle) →
  (∀ v, (v < n)%nat → NoDup (ready_of st' v)) →
  inv st'.
Proof.
  intros Hi Hc Hdom Hj Hd Htu Hst Hidle Hready Hnd.
  assert (∀ w, pending st' w = pending st w) as Hp by (intros; apply pending_told; intros; by apply Htu).
  assert (unfinished_set st' = unfinished_set st) as Hu.
  { apply set_eq. intros v. rewrite !elem_of_unfinished. split; intros [Hv ?];
      destruct (Htu v Hv); split; congruence. }
  assert (∀ u, _successor_ctxs (ctx st' u) = _successor_ctxs (ctx st u) ∧
    _successor_dep_idxs (ctx st' u) = _successor_dep_idxs (ctx st u) ∧
    _deps_results (ctx st' u) = _deps_results (ctx st u) ∧
    _waiting_num (ctx st' u) = _waiting_num (ctx st u) ∧ _result (ctx st' u) = _result (ctx st u)) as Hf
    by (intros u; destruct (Hc u) as [p ->]; split_and!; reflexivity).
  split.
  - intros v. rewrite Hdom. apply Hi.
  - intros v Hv. destruct (Hf v) as (-> & _). by apply Hi.
  - intros v Hv. destruct (Hf v) as (_ & -> & _). by apply Hi.
  - intros v Hv. destruct (Htu v Hv) as [-> _]. by apply Hi.
  - intros w Hw. destruct (Hf w) as (_ & _ & -> & _). by apply Hi.
  - intros v w i Hvw. destruct (Hf w) as (_ & _ & -> & _). destruct (Hf v) as (_ & _ & _ & _ & ->).
    assert (v < n)%nat as Hv by (eapply (edge_lt v w), edge_deps; eauto).
    rewrite (notified_told st) by (by apply Htu). by apply Hi.
  - intros w Hw. destruct (Hf w) as (_ & _ & _ & -> & _). rewrite Hp. by apply Hi.
  - intros v Hv. destruct (Hf v) as (_ & _ & _ & _ & ->). destruct (Htu v Hv) as [_ ->]. by apply Hi.
  - intros w Hw Hne. rewrite Hp. destruct (Hst w Hw Hne) as [?|(v & Hv & Hr)]; [by apply Hi|].
    by apply (iv_ready st Hi v w).
  - intros w Hw Hid Hpe. rewrite Hp in Hpe. destruct (iv_held st Hi w Hw) as (v & Hv & Hr); [by apply Hidle|done|].
    exists v. split; [done|]. by apply Hready.
  - intros v w Hv [Hr Hid]%Hready; [|done]. rewrite Hp. destruct (iv_ready st Hi v w Hv Hr) as (? & _ & ?). done.
  - done.
  - intros v v' w Hv Hv' [? _]%Hready [? _]%Hready; [|done..]. by eapply (iv_ready_one st Hi).
  - rewrite Hj, Hu. apply Hi.
  - rewrite Hd, Hj. apply Hi.
Qed.

(** A vertex starts to run, or its work is lost. *)
Lemma inv_move st v p p' :
  inv st → (v < n)%nat → vc_phase (ctx st v) = p →
  p = Scheduled ∧ p' = Running ∨ p = Running ∧ p' = Lost →
  inv (set_ctx st v (set_phase (ctx st v) p')).
Proof.
  intros Hi Hv Hp Hpp. set (st' := set_ctx _ _ _).
  assert (p ≠ Idle ∧ p' ≠ Idle) as [Hpi Hpi'] by (by destruct Hpp as [[-> ->]|[-> ->]]).
  assert (∀ u, vc_phase (ctx st' u) = if decide (u = v) then p' else vc_phase (ctx st u)) as Hph.
  { intros u. unfold st'. rewrite ctx_set. by destruct (decide (u = v)). }
  assert (∀ u, told st' u = told st u ∧ unfinished st' u = unfinished st u ∧ ready_of st' u = ready_of st u) as Hs.
  { intros u. unfold told, unfinished, ready_of. rewrite Hph.
    destruct (decide (u = v)) as [->|]; [rewrite Hp; by destruct Hpp as [[-> ->]|[-> ->]]|done]. }
  apply (inv_phases st); try done.
  - intros u. unfold st'. rewrite ctx_set. destruct (decide (u = v)) as [->|]; [by eexists|].
    exists (vc_phase (ctx st u)). by destruct (ctx st u).
  - intros u. simpl. rewrite lookup_insert_is_Some'. split; [intros [<-|?]; [|done]|by right].
    by apply (iv_dom st Hi).
  - intros u _. by destruct (Hs u) as (-> & -> & _).
  - intros w _. rewrite Hph. destruct (decide (w = v)) as [->|]; [|by left]. left. by rewrite Hp.
  - intros w _. rewrite Hph. by destruct (decide (w = v)).
  - intros u w Hu. destruct (Hs u) as (_ & _ & ->). rewrite Hph. split; [|by intros []].
    intros Hr. split; [done|]. destruct (iv_ready st Hi u w Hu Hr) as (_ & Hid & _).
    destruct (decide (w = v)) as [->|]; [congruence|done].
  - intros u Hu. destruct (Hs u) as (_ & _ & ->). by apply Hi.
Qed.

(** ** A vertex finishes *)

Lemma active_unfinished st v : vc_phase (ctx st v) = Scheduled ∨ vc_phase (ctx st v) = Running →
  unfinished st v = true ∧ told st v = 0%nat ∧ ready_of st v = [].
Proof. unfold unfinished, told, ready_of. by intros [-> | ->]. Qed.

(** The last vertex to finish has no successors. *)
Lemma last_no_succs st v :
  inv st → (v < n)%nat → vc_phase (ctx st v) = Scheduled ∨ vc_phase (ctx st v) = Running →
  _join_vertex_num st = 1 → succs v = [].
Proof.
  intros Hi Hv Hp Hj. destruct (succs v) as [|s l] eqn:E; [done|exfalso].
  destruct (active_unfinished st v Hp) as (Hu & Ht & _).
  assert (edge vs v s) as He by (apply succs_edge; rewrite E; left).
  assert (vc_phase (ctx st s) = Idle) as Hs.
  { apply (untold_idle st v); [done|done|]. unfold notified. rewrite Ht. by apply bool_decide_eq_false_2, not_elem_of_nil. }
  assert (v ≠ s) by (intros ->; by apply (edge_irrefl s)).
  assert ({[v; s]} ⊆ unfinished_set st) as Hsub%subseteq_size.
  { intros x. rewrite elem_of_union, !elem_of_singleton, elem_of_unfinished. destruct (edge_lt _ _ He).
    intros [-> | ->]; [done|]. split; [done|]. unfold unfinished. by rewrite Hs. }
  rewrite size_union, !size_singleton in Hsub by set_solver.
  rewrite (iv_join st Hi) in Hj. lia.
Qed.

Lemma inv_finish st v code :
  inv st → (v < n)%nat → vc_phase (ctx st v) = Scheduled ∨ vc_phase (ctx st v) = Running →
  inv (FinishVertexProcess st v code).
Proof.
  intros Hi Hv Hp. destruct (active_unfinished st v Hp) as (Hu & Ht & Hr).
  pose proof (last_no_succs st v Hi Hv Hp) as Hlast. pose proof (iv_join st Hi) as Hj.
  set (st' := FinishVertexProcess st v code).
  assert (∀ u, u ≠ v → ctx st' u = ctx st u) as Hother
    by (intros u Hne; unfold st', FinishVertexProcess, ctx; simpl; by rewrite lookup_total_insert_ne).
  assert (told st' v = 0%nat ∧ unfinished st' v = false ∧ ready_of st' v = [] ∧
          vc_phase (ctx st' v) ≠ Idle ∧ _result (ctx st' v) ≠ V_RESULT_INVALID ∧
          _successor_ctxs (ctx st' v) = _successor_ctxs (ctx st v) ∧
          _successor_dep_idxs (ctx st' v) = _successor_dep_idxs (ctx st v) ∧
          _deps_results (ctx st' v) = _deps_results (ctx st v) ∧
          _waiting_num (ctx st' v) = _waiting_num (ctx st v))
    as (Ht' & Hu' & Hr' & Hp' & Hres' & Hsc & Hsi & Hdr & Hw).
  { unfold told, unfinished, ready_of, st', FinishVertexProcess, ctx.
    destruct (Z.eqb_spec 1 (_join_vertex_num st)) as [E|]; destruct (0 =? code); simpl;
      rewrite !lookup_total_insert_eq; simpl; rewrite ?(Hlast (eq_sym E)); done. }
  assert (∀ u, told st' u = told st u ∧ ready_of st' u = ready_of st u) as Hsame.
  { intros u. destruct (decide (u = v)) as [->|Hne]; [by rewrite Ht', Hr', Ht, Hr|].
    unfold told, ready_of. by rewrite Hother. }
  assert (∀ w, pending st' w = pending st w) as Hpe by (intros; apply pending_told; intros; apply Hsame).
  assert (∀ u, _successor_ctxs (ctx st' u) = _successor_ctxs (ctx st u) ∧
    _successor_dep_idxs (ctx st' u) = _successor_dep_idxs (ctx st u) ∧
    _deps_results (ctx st' u) = _deps_results (ctx st u) ∧
    _waiting_num (ctx st' u) = _waiting_num (ctx st u)) as Hf.
  { intros u. destruct (decide (u = v)) as [->|Hne]; [done|]. by rewrite Hother. }
  assert (unfinished_set st' = unfinished_set st ∖ {[v]}) as Huset.
  { apply set_eq. intros u. rewrite elem_of_difference, elem_of_singleton, !elem_of_unfinished.
    destruct (decide (u = v)) as [->|Hne]; [naive_solver congruence|].
    unfold unfinished. rewrite Hother by done. tauto. }
  assert (v ∈ unfinished_set st) as Hvu by (by apply elem_of_unfinished).
  assert (size (unfinished_set st) = S (size (unfinished_set st'))) as Hsize.
  { rewrite Huset, size_difference, size_singleton by set_solver.
    assert (size (unfinished_set st) ≠ 0)%nat; [|lia]. intros E%size_empty_inv. set_solver. }
  assert (_join_vertex_num st' = Z.of_nat (size (unfinished_set st'))) as Hj'.
  { unfold st' at 1, FinishVertexProcess. cbn [_join_vertex_num]. rewrite Hj, Hsize. pose proof (unfinished_size st).
    rewrite u32_id; [lia|]. unfold is_u32. lia. }
  split.
  - intros u. rewrite (iv_dom st Hi u). simpl. rewrite lookup_insert_is_Some'.
    split; [by right|intros [<-|?]; [by apply (iv_dom st Hi)|done]].
  - intros u Hlt. destruct (Hf u) as (-> & _). by apply Hi.
  - intros u Hlt. destruct (Hf u) as (_ & -> & _). by apply Hi.
  - intros u Hlt. destruct (Hsame u) as [-> _]. by apply Hi.
  - intros u Hlt. destruct (Hf u) as (_ & _ & -> & _). by apply Hi.
  - intros u w i Hi'. destruct (Hf w) as (_ & _ & -> & _). rewrite (iv_results st Hi u w i Hi').
    rewrite (notified_told st st') by apply Hsame. destruct (decide (u = v)) as [->|Hne]; [|by rewrite Hother].
    unfold notified. rewrite Ht. by rewrite bool_decide_eq_false_2 by apply not_elem_of_nil.
  - intros w Hlt. destruct (Hf w) as (_ & _ & _ & ->). rewrite Hpe. by apply Hi.
  - intros u Hlt. destruct (decide (u = v)) as [->|Hne]; [naive_solver congruence|].
    unfold unfinished. rewrite Hother by done. by apply (iv_result st Hi).
  - intros w Hlt Hne. rewrite Hpe. apply Hi; [done|]. destruct (decide (w = v)) as [->|Hwv];
      [destruct Hp; congruence|]. by rewrite Hother in Hne.
  - intros w Hlt Hid. rewrite Hpe. intros He. destruct (decide (w = v)) as [->|Hwv]; [done|].
    rewrite Hother in Hid by done. destruct (iv_held st Hi w Hlt Hid He) as (u & ? & ?).
    exists u. destruct (Hsame u) as [_ ->]. done.
  - intros u w Hlt. destruct (Hsame u) as [_ ->]. intros Hin.
    destruct (iv_ready st Hi u w Hlt Hin) as (? & Hid & ?). rewrite Hpe.
    rewrite Hother; [done|]. intros ->. destruct Hp; congruence.
  - intros u Hlt. destruct (Hsame u) as [_ ->]. by apply Hi.
  - intros u u' w Hlt Hlt'. destruct (Hsame u) as [_ ->], (Hsame u') as [_ ->]. by apply (iv_ready_one st Hi).
  - done.
  - rewrite Hj'. unfold st' at 1, FinishVertexProcess. cbn [done_calls]. rewrite (iv_done st Hi), Hj, Hsize.
    destruct (size (unfinished_set st')) as [|k] eqn:Ek; [done|].
    by rewrite (proj2 (Z.eqb_neq 1 (Z.of_nat (S (S k))))) by lia.
Qed.

(** ** The ready successors are scheduled *)

Lemma ExecuteReadyVertexs_perm l : NoDup l → ExecuteReadyVertexs l ≡ₚ l.
Proof.
  intros Hnd. unfold ExecuteReadyVertexs. destruct l as [|v0 [|v1 l]]; [done..|].
  set (r := v0 :: v1 :: l) in *. set (x := default _ _).
  assert (x ∈ r) as Hx.
  { unfold x. destruct (list_find _ r) as [[i y]|] eqn:E; simpl; [|left].
    apply list_find_Some in E as (E & _). by eapply list_elem_of_lookup_2. }
  clearbody x. apply NoDup_Permutation; [|done|].
  - apply NoDup_app. split_and!; [by apply NoDup_filter| |apply NoDup_singleton].
    intros y [? _]%list_elem_of_filter ?%list_elem_of_singleton. done.
  - intros y. rewrite elem_of_app, list_elem_of_filter, list_elem_of_singleton.
    destruct (decide (y = x)); naive_solver.
Qed.

Lemma ctx_schedules l st u :
  ctx (foldl schedule st l) u = if decide (u ∈ l) then set_phase (ctx st u) Scheduled else ctx st u.
Proof.
  revert st. induction l as [|v l IH]; intros st; cbn [foldl]; [by rewrite decide_False by apply not_elem_of_nil|].
  rewrite IH. unfold schedule. rewrite ctx_set.
  destruct (decide (u ∈ l)) as [Hin|Hin], (decide (u = v)) as [->|Hne].
  - by rewrite decide_True by left.
  - by rewrite decide_True by by right.
  - by rewrite decide_True by left.
  - by rewrite decide_False by set_solver.
Qed.

Lemma dom_schedules l st u :
  (∀ v, v ∈ l → is_Some (_vertex_context_table st !! v)) →
  is_Some (_vertex_context_table (foldl schedule st l) !! u) ↔ is_Some (_vertex_context_table st !! u).
Proof.
  revert st. induction l as [|v l IH]; intros st Hl; simpl; [done|]. rewrite IH.
  - simpl. rewrite lookup_insert_is_Some'. split; [intros [<-|?]; [|done]|by right]. apply Hl. left.
  - intros w Hw. simpl. rewrite lookup_insert_is_Some'. right. apply Hl. by right.
Qed.

Lemma schedules_other l st :
  _join_vertex_num (foldl schedule st l) = _join_vertex_num st ∧
  done_calls (foldl schedule st l) = done_calls st.
Proof. revert st. induction l as [|v l IH]; intros st; simpl; [done|]. by destruct (IH (schedule st v)). Qed.

Lemma inv_schedule st st' v ready :
  inv st → (v < n)%nat → vc_phase (ctx st v) = Notifying (length (succs v)) ready →
  (∀ u, ctx st' u = set_phase (ctx st u) (if decide (u = v) then Finished
                      else if decide (u ∈ ready) then Scheduled else vc_phase (ctx st u))) →
  (∀ u, is_Some (_vertex_context_table st' !! u) ↔ is_Some (_vertex_context_table st !! u)) →
  _join_vertex_num st' = _join_vertex_num st → done_calls st' = done_calls st →
  inv st'.
Proof.
  intros Hi Hv Hp Hc Hdom Hj Hd.
  assert (ready_of st v = ready) as Hrv by (unfold ready_of; by rewrite Hp).
  assert (∀ u, u ∈ ready → (u < n)%nat ∧ vc_phase (ctx st u) = Idle ∧ u ≠ v) as Hr.
  { intros u Hu. destruct (iv_ready st Hi v u Hv) as (? & Hid & _); [by rewrite Hrv|].
    split_and!; [done..|]. intros ->. congruence. }
  assert (∀ u, vc_phase (ctx st' u) = if decide (u = v) then Finished
            else if decide (u ∈ ready) then Scheduled else vc_phase (ctx st u)) as Hph
    by (intros u; by rewrite Hc).
  assert (∀ u, told st' u = told st u ∧ unfinished st' u = unfinished st u) as Hs.
  { intros u. unfold told, unfinished. rewrite Hph. destruct (decide (u = v)) as [->|]; [by rewrite Hp|].
    destruct (decide (u ∈ ready)) as [(_ & -> & _)%Hr|]; done. }
  assert (∀ u, ready_of st' u = if decide (u = v) then [] else ready_of st u) as Hro.
  { intros u. unfold ready_of. rewrite Hph. destruct (decide (u = v)); [done|].
    destruct (decide (u ∈ ready)) as [(_ & -> & _)%Hr|]; done. }
  apply (inv_phases st st' Hi); [|done|done|done|..].
  - intros u. eexists. apply Hc.
  - intros u _. apply Hs.
  - intros w Hw. rewrite Hph. destruct (decide (w = v)) as [->|]; [left; by rewrite Hp|].
    destruct (decide (w ∈ ready)); [|by left]. right. exists v. by rewrite Hrv.
  - intros w _. rewrite Hph. destruct (decide (w = v)); [done|]. by destruct (decide (w ∈ ready)).
  - intros u w Hu. rewrite Hro, Hph. destruct (decide (u = v)) as [->|Huv].
    + rewrite Hrv, elem_of_nil. split; [done|]. intros [Hw Hid].
      destruct (Hr w Hw) as (_ & _ & ?). rewrite decide_False, decide_True in Hid by done. done.
    + split; [|by intros []]. intros Hw. split; [done|]. destruct (iv_ready st Hi u w Hu Hw) as (_ & Hid & _).
      rewrite decide_False by (intros ->; congruence). rewrite decide_False; [done|].
      intros Hin. apply Huv. eapply (iv_ready_one st Hi); [done..|exact Hw|by rewrite Hrv].
  - intros u Hu. rewrite Hro. destruct (decide (u = v)); [constructor|by apply Hi].
Qed.

(** ** A successor is told a result *)

Section tell.
Context (st : GraphContext) (Hi : inv st) (v i s : nat) (ready : list nat).
Context (Hv : (v < n)%nat) (Hp : vc_phase (ctx st v) = Notifying i ready) (Hs : succs v !! i = Some s).

Lemma tell_edge : edge vs v s.
Proof using All. apply succs_edge. by eapply list_elem_of_lookup_2. Qed.

Lemma tell_fresh : notified st v s = false.
Proof using All.
  unfold notified, told. rewrite Hp. apply bool_decide_eq_false_2. intros Hin.
  apply list_elem_of_lookup in Hin as [j Hj]. apply lookup_take_Some in Hj as [Hj Hlt].
  assert (j = i); [|lia]. eapply NoDup_lookup; [apply succs_NoDup|exact Hj|exact Hs].
Qed.

Lemma tell_idle : vc_phase (ctx st s) = Idle.
Proof using All. apply (untold_idle st v); [done|apply tell_edge|apply tell_fresh]. Qed.

Lemma tell_ne : v ≠ s.
Proof using All. intros E. pose proof tell_idle as Hid. rewrite <-E in Hid. congruence. Qed.

Lemma tell_lt : (s < n)%nat.
Proof using All. by destruct (edge_lt v s tell_edge). Qed.

Lemma tell_index :
  ∃ idx, deps_of g s !! v = Some idx ∧
    _successor_dep_idxs (ctx st v) !! i = Some (Z.of_nat idx) ∧
    SetDependencyResult (ctx st s) (Z.of_nat idx) (_result (ctx st v))
    = Some (_waiting_num (ctx st s),
        {| _waiting_num := _waiting_num (ctx st s) - 1;
           _deps_results := <[idx := _result (ctx st v)]> (_deps_results (ctx st s));
           _result := _result (ctx st s); _code := _code (ctx st s);
           _successor_ctxs := _successor_ctxs (ctx st s);
           _successor_dep_idxs := _successor_dep_idxs (ctx st s); vc_phase := vc_phase (ctx st s) |}).
Proof using All.
  destruct (proj1 (edge_deps v s) tell_edge) as [idx Hidx]. exists idx. split; [done|]. split.
  - rewrite (iv_idx st Hi v Hv), list_lookup_fmap, Hs. simpl. unfold deps_of in Hidx.
    destruct (vertex_of g s); [|by rewrite lookup_empty in Hidx].
    unfold GetDependencyIndex. by rewrite Hidx.
  - unfold SetDependencyResult. rewrite (proj2 (Z.ltb_ge (Z.of_nat idx) 0)), Nat2Z.id by lia.
    rewrite (iv_results st Hi v s idx Hidx), tell_fresh. simpl.
    assert (is_u32 (_waiting_num (ctx st s) - 1)) as Hu; [|by rewrite u32_id].
    rewrite (iv_waiting st Hi s tell_lt).
    assert (v ∈ pending st s) as Hin by (apply elem_of_pending; split; [apply tell_edge|apply tell_fresh]).
    assert (size (pending st s) ≠ 0)%nat by (intros E%size_empty_inv; set_solver).
    assert (size (pending st s) <= size (vertices))%nat.
    { apply subseteq_size. intros u [He _]%elem_of_pending. apply elem_of_vertices.
      by destruct (edge_lt u s He). }
    pose proof vertices_size. unfold is_u32. lia.
Qed.

(** The counter reaches zero when this was the last result. *)
Definition tell_ready : list nat := if 1 =? _waiting_num (ctx st s) then ready ++ [s] else ready.

Context (st' : GraphContext) (idx : nat) (Hidx : deps_of g s !! v = Some idx).
Context (Hctx : ∀ u, ctx st' u =
  if decide (u = v) then set_phase (ctx st v) (Notifying (S i) tell_ready)
  else if decide (u = s) then
    {| _waiting_num := _waiting_num (ctx st s) - 1;
       _deps_results := <[idx := _result (ctx st v)]> (_deps_results (ctx st s));
       _result := _result (ctx st s); _code := _code (ctx st s);
       _successor_ctxs := _successor_ctxs (ctx st s);
       _successor_dep_idxs := _successor_dep_idxs (ctx st s); vc_phase := vc_phase (ctx st s) |}
  else ctx st u).

Lemma tell_phase u :
  vc_phase (ctx st' u) = if decide (u = v) then Notifying (S i) tell_ready else vc_phase (ctx st u).
Proof using All. rewrite Hctx. destruct (decide (u = v)); [done|]. by destruct (decide (u = s)) as [->|]. Qed.

Lemma tell_ready_of u : ready_of st' u = if decide (u = v) then tell_ready else ready_of st u.
Proof using All. unfold ready_of. rewrite tell_phase. by destruct (decide (u = v)). Qed.

Lemma tell_unfinished u : unfinished st' u = unfinished st u.
Proof using All. unfold unfinished. rewrite tell_phase. destruct (decide (u = v)) as [->|]; [by rewrite Hp|done]. Qed.

Lemma tell_result u : _result (ctx st' u) = _result (ctx st u).
Proof using All. rewrite Hctx. destruct (decide (u = v)) as [->|]; [done|]. by destruct (decide (u = s)) as [->|]. Qed.

Lemma tell_notified u w :
  notified st' u w = if decide (u = v ∧ w = s) then true else notified st u w.
Proof using All.
  destruct (decide (u = v)) as [->|Hne].
  - assert (take (S i) (succs v) = take i (succs v) ++ [s]) as Ht by (by apply take_S_r).
    unfold notified, told. rewrite tell_phase, decide_True, Hp, Ht by done.
    destruct (decide (v = v ∧ w = s)) as [[_ ->]|Hn].
    + apply bool_decide_eq_true_2. set_solver.
    + apply bool_decide_ext. set_solver.
  - rewrite decide_False by tauto. apply notified_told. unfold told.
    by rewrite tell_phase, decide_False by done.
Qed.

Lemma tell_pending w :
  pending st' w = if decide (w = s) then pending st s ∖ {[v]} else pending st w.
Proof using All.
  apply set_eq. intros u. destruct (decide (w = s)) as [->|Hne].
  - rewrite elem_of_difference, elem_of_singleton, !elem_of_pending, tell_notified.
    destruct (decide (u = v ∧ s = s)); naive_solver.
  - rewrite !elem_of_pending, tell_notified. by rewrite decide_False by tauto.
Qed.

Lemma tell_size : size (pending st s) = S (size (pending st' s)).
Proof using All.
  rewrite tell_pending, decide_True by done.
  assert (v ∈ pending st s) as Hin by (apply elem_of_pending; split; [apply tell_edge|apply tell_fresh]).
  rewrite size_difference, size_singleton by set_solver.
  assert (size (pending st s) ≠ 0)%nat by (intros E%size_empty_inv; set_solver). lia.
Qed.

(** [s] joins the ready ones exactly when it waits for nothing more. *)
Lemma tell_ready_spec w :
  w ∈ tell_ready ↔ w ∈ ready ∨ (w = s ∧ pending st' s = ∅).
Proof using All.
  unfold tell_ready. rewrite (iv_waiting st Hi s tell_lt), tell_size.
  destruct (Z.eqb_spec 1 (Z.of_nat (S (size (pending st' s))))) as [E|E].
  - assert (pending st' s = ∅) as Hs0 by (apply leibniz_equiv, size_empty_inv; lia). set_solver.
  - assert (pending st' s ≠ ∅) by (intros Hs0; rewrite Hs0, size_empty in E; done). set_solver.
Qed.

Lemma inv_tell :
  (∀ u, is_Some (_vertex_context_table st' !! u) ↔ is_Some (_vertex_context_table st !! u)) →
  _join_vertex_num st' = _join_vertex_num st → done_calls st' = done_calls st → inv st'.
Proof using All.
  intros Hdom Hj Hd. pose proof tell_ne as Hne. pose proof tell_lt as Hlt. pose proof tell_idle as Hid.
  assert (ready_of st v = ready) as Hrv by (unfold ready_of; by rewrite Hp).
  assert (s ∉ ready) as Hsr.
  { intros Hin. destruct (iv_ready st Hi v s Hv) as (_ & _ & He); [by rewrite Hrv|].
    assert (v ∈ pending st s) as Hvp by (apply elem_of_pending; split; [apply tell_edge|apply tell_fresh]).
    set_solver. }
  assert (∀ u w, (u < n)%nat → w ∈ ready_of st' u → w ∈ ready_of st u ∨ (u = v ∧ w = s ∧ pending st' s = ∅)) as Hro.
  { intros u w Hu. rewrite tell_ready_of. destruct (decide (u = v)) as [->|]; [|by left].
    rewrite tell_ready_spec, Hrv. naive_solver. }
  assert (∀ u w, (u < n)%nat → w ∈ ready_of st u → w ≠ s) as Hnots.
  { intros u w Hu Hw ->. destruct (iv_ready st Hi u s Hu Hw) as (_ & _ & He).
    assert (v ∈ pending st s) as Hvp by (apply elem_of_pending; split; [apply tell_edge|apply tell_fresh]).
    set_solver. }
  assert (∀ w, pending st w = ∅ → pending st' w = ∅) as Hpe.
  { intros w He. rewrite tell_pending. destruct (decide (w = s)) as [->|]; [set_solver|done]. }
  split.
  - intros u. rewrite Hdom. apply Hi.
  - intros u Hu. rewrite Hctx. destruct (decide (u = v)) as [->|]; [by apply Hi|].
    destruct (decide (u = s)) as [->|]; by apply Hi.
  - intros u Hu. rewrite Hctx. destruct (decide (u = v)) as [->|]; [by apply Hi|].
    destruct (decide (u = s)) as [->|]; by apply Hi.
  - intros u Hu. unfold told. rewrite tell_phase. destruct (decide (u = v)) as [->|]; [|by apply Hi].
    apply lookup_lt_Some in Hs. lia.
  - intros w Hw. rewrite Hctx. destruct (decide (w = v)) as [->|]; [by apply Hi|].
    destruct (decide (w = s)) as [->|]; [|by apply Hi]. simpl. rewrite length_insert. by apply Hi.
  - intros u w j Hj'. rewrite tell_result, tell_notified.
    pose proof (iv_results st Hi u w j Hj') as Hres.
    assert (_deps_results (ctx st' w) !! j = if decide (w = s)
      then <[idx := _result (ctx st v)]> (_deps_results (ctx st s)) !! j
      else _deps_results (ctx st w) !! j) as ->.
    { rewrite Hctx. destruct (decide (w = v)) as [->|]; [by rewrite decide_False|].
      by destruct (decide (w = s)) as [->|]. }
    destruct (decide (w = s)) as [->|Hws]; [|by rewrite decide_False by tauto].
    destruct (decide (u = v ∧ s = s)) as [[-> _]|Hn].
    + assert (j = idx) as -> by congruence. rewrite list_lookup_insert_eq; [done|].
      by apply lookup_lt_Some in Hres.
    + rewrite list_lookup_insert_ne; [done|]. intros ->. apply Hn. split; [|done].
      by eapply deps_inj.
  - intros w Hw. rewrite Hctx. destruct (decide (w = v)) as [->|Hwv].
    { simpl. rewrite tell_pending, decide_False by done. by apply Hi. }
    destruct (decide (w = s)) as [->|Hws].
    + simpl. rewrite (iv_waiting st Hi s Hlt), tell_size. lia.
    + rewrite tell_pending, decide_False by done. by apply Hi.
  - intros u Hu. rewrite tell_result, tell_unfinished. by apply Hi.
  - intros w Hw. rewrite tell_phase. intros Hph. apply Hpe. apply Hi; [done|].
    destruct (decide (w = v)) as [->|]; [by rewrite Hp|done].
  - intros w Hw. rewrite tell_phase. destruct (decide (w = v)) as [->|Hwv]; [done|]. intros Hwi Hwp.
    destruct (decide (w = s)) as [->|Hws].
    + exists v. split; [done|]. rewrite tell_ready_of, decide_True by done. apply tell_ready_spec. by right.
    + rewrite tell_pending, decide_False in Hwp by done.
      destruct (iv_held st Hi w Hw Hwi Hwp) as (u & Hu & Hin). exists u. split; [done|].
      rewrite tell_ready_of. destruct (decide (u = v)) as [->|]; [|done].
      apply tell_ready_spec. left. by rewrite <-Hrv.
  - intros u w Hu Hin. rewrite tell_phase. apply Hro in Hin as [Hin|(-> & -> & He)]; [|..|done].
    + destruct (iv_ready st Hi u w Hu Hin) as (? & ? & ?). split_and!; [done| |by apply Hpe].
      rewrite decide_False; [done|]. intros ->. congruence.
    + rewrite decide_False by done. done.
  - intros u Hu. rewrite tell_ready_of. destruct (decide (u = v)) as [->|]; [|by apply Hi].
    pose proof (iv_ready_nodup st Hi v Hv) as Hnd. rewrite Hrv in Hnd. unfold tell_ready.
    destruct (1 =? _); [|done]. apply NoDup_app. split_and!; [done| |apply NoDup_singleton].
    intros x Hx ->%list_elem_of_singleton. done.
  - intros u u' w Hu Hu' Hin Hin'. apply Hro in Hin; [|done]. apply Hro in Hin'; [|done].
    destruct Hin as [Hin|(Eu & Ew & _)], Hin' as [Hin'|(Eu' & Ew' & _)].
    + by eapply (iv_ready_one st Hi).
    + by destruct (Hnots u w Hu Hin).
    + by destruct (Hnots u' w Hu' Hin').
    + congruence.
  - rewrite Hj, (iv_join st Hi). do 2 f_equal. apply set_eq. intros u.
    by rewrite !elem_of_unfinished, tell_unfinished.
  - rewrite Hd, Hj. apply Hi.
Qed.
End tell.
End spec.
