(* ===== verification/DagRuns.v ===== *)
(** * DagRuns: the runs of a graph

    When the setup of the contexts fails, the invariant of the steps, and what
    follows from it for every run. *)

From stdpp Require Import relations.
From S2P Require Import Prelude DagGraph DagGraphSpec DagData DagDataSpec DagInject DagInjectSpec DagExec DagExecSpec.

(** * The runs of a dataflow graph

    A run starts with the contexts [GraphContext::Setup] makes and the start
    vertices scheduled; the invariant of DagExecSpec.v holds in all its states.
    From it: no step is undefined, a run cannot go on for ever and cannot get
    stuck before the end unless a future fails, [done] is called once, when every
    vertex has finished and nobody has anything left to tell, and the results do
    not depend on the order of the steps. *)

Open Scope Z_scope.

(** The elements with an image, paired with what became of their images. *)
Lemma zip_omap {A B C} (f : A → option B) (P : B → C → Prop) (l : list A) (l' : list C) :
  Forall2 P (omap f l) l' →
  ∀ x y, (x, y) ∈ zip (filter (λ x, is_Some (f x)) l) l' → ∃ b, f x = Some b ∧ P b y.
Proof.
  revert l'. induction l as [|a l IH]; intros l' Hf x y; [by intros ?%elem_of_nil|].
  cbn [omap list_omap] in Hf. destruct (f a) as [b|] eqn:E.
  - rewrite filter_cons_True by (by exists b). apply Forall2_cons_inv_l in Hf as (c & l'' & Hb & Hf & ->).
    cbn [zip zip_with]. rewrite elem_of_cons. intros [[= -> ->]|Hin]; [by exists b|]. by eapply IH.
  - rewrite filter_cons_False by (rewrite E; by intros []). by apply IH.
Qed.

Section runs.
Context `{UnorderedLaws, !VertexKinds}.
Context (g : Graph) `{!Executable g}.
Implicit Types (st : GraphContext) (u v w s : nat) (e : event).

Abbreviation vs := (g_vertex g).
Abbreviation n := (length (g_vertex g)).
Abbreviation inv := (DagExecSpec.inv g).

(** ** The first state *)

Lemma foldl_insert_lookup {A} (f : nat → A) (l : list (string * nat)) (m : gmap nat A) v :
  foldl (λ t p, <[p.2 := f p.2]> t) m l !! v = if decide (v ∈ l.*2) then Some (f v) else m !! v.
Proof.
  revert m. induction l as [|[k u] l IH]; intros m; cbn [foldl]; [by rewrite decide_False by apply not_elem_of_nil|].
  rewrite IH, fmap_cons. simpl. destruct (decide (v ∈ l.*2)) as [Hin|Hin].
  - by rewrite decide_True by by right.
  - destruct (decide (u = v)) as [->|Hne].
    + rewrite lookup_insert_eq, decide_True; [done|left].
    + rewrite lookup_insert_ne, decide_False by set_solver. done.
Qed.

(** The contexts of the vertices in the table of names. *)
Definition setup_table : gmap nat VertexContext :=
  foldl (λ t p, <[p.2 := new_VertexContext g p.2]> t) ∅ (node_order (_nodes g)).

Lemma setup_table_lookup v :
  setup_table !! v = if decide (v < n)%nat then Some (new_VertexContext g v) else None.
Proof.
  unfold setup_table. rewrite foldl_insert_lookup, lookup_empty.
  destruct (decide (v < n)%nat) as [Hv|Hv].
  - by rewrite decide_True by by apply node_order_known, ex_known.
  - rewrite decide_False; [done|]. by intros ?%node_order_known%ex_range.
Qed.

(** The context of [v] before the run. *)
Definition fresh_ctx v : VertexContext :=
  {| _waiting_num := u32 (Z.of_nat (size (deps_of g v)));
     _deps_results := replicate (size (deps_of g v)) V_RESULT_INVALID;
     _result := V_RESULT_INVALID; _code := 0; _successor_ctxs := succs g v;
     _successor_dep_idxs :=
       (λ s, match vertex_of g s with Some x => GetDependencyIndex x v | None => -1 end) <$> succs g v;
     vc_phase := Idle |}.

Lemma setup_successors_ok v c :
  is_Some (SetupSuccessors g setup_table v c) ∧
  VertexContext_Reset g v <$> SetupSuccessors g setup_table v c = Some (fresh_ctx v) ∧
  ∀ c', SetupSuccessors g setup_table v c = Some c' → _waiting_num c' = _waiting_num c.
Proof.
  unfold SetupSuccessors. assert (forallb (λ s, bool_decide (is_Some (setup_table !! s)))
    (set_order (successors_of vs v)) = true) as ->; [|split_and!; [done..|by intros c' [= <-]]].
  apply forallb_forall. intros s Hs%list_elem_of_In. apply bool_decide_eq_true_2.
  assert (edge vs v s) as [_ Hlt]%(edge_lt g) by (by apply set_order_elem).
  by rewrite setup_table_lookup, decide_True.
Qed.

Lemma setup_dom : dom setup_table = vertices g.
Proof.
  apply set_eq. intros v. rewrite elem_of_dom, elem_of_vertices, setup_table_lookup.
  destruct (decide (v < n)%nat); split; try done.
Qed.

(** The vertices without dependencies. *)
Definition roots : list nat :=
  filter (λ v, 0 =? _waiting_num (fresh_ctx v)) (set_order (vertices g)).

Definition setup_state : GraphContext :=
  {| _vertex_context_table := map_imap (λ v _, Some (fresh_ctx v)) setup_table;
     _join_vertex_num := u32 (Z.of_nat (size setup_table)); _start_ctxs := roots;
     done_calls := [] |}.

Lemma filter_ext_in {A} (p q : A → bool) (l : list A) :
  (∀ x, x ∈ l → p x = q x) → filter (λ x, p x) l = filter (λ x, q x) l.
Proof.
  induction l as [|x l IH]; intros Hl; [done|]. rewrite !filter_cons, (Hl x) by left.
  rewrite IH; [done|]. intros y Hy. apply Hl. by right.
Qed.

Lemma map_imap_dom {A B} (f : nat → A → option B) (m : gmap nat A) :
  (∀ v c, m !! v = Some c → is_Some (f v c)) → dom (map_imap f m) = dom m.
Proof.
  intros Hf. apply set_eq. intros v. rewrite !elem_of_dom, map_lookup_imap.
  destruct (m !! v) as [c|] eqn:E; simpl; [|done]. by split; [|intros; apply Hf].
Qed.

(** The contexts are linked, reset and collected as [setup_state] says. *)
Lemma link_ok : ∃ table, link_contexts g setup_table = Some table ∧ dom table = vertices g ∧
  GraphContext_Reset g {| _vertex_context_table := table; _join_vertex_num := 0;
    _start_ctxs := filter (λ v, Ready (table !!! v)) (set_order (dom table)); done_calls := [] |} = setup_state.
Proof.
  unfold link_contexts, setup_state. rewrite (proj2 (forallb_forall _ _)).
  2:{ intros [v c] _. apply bool_decide_eq_true_2. apply setup_successors_ok. }
  eexists. split; [done|]. set (table := map_imap _ setup_table).
  assert (dom table = dom setup_table) as Hd.
  { apply map_imap_dom. intros v c _. apply setup_successors_ok. }
  split; [by rewrite Hd, setup_dom|].
  assert (∀ v, (v < n)%nat → _waiting_num (table !!! v) = _waiting_num (fresh_ctx v)) as Hw.
  { intros v Hv. rewrite lookup_total_alt. unfold table. rewrite map_lookup_imap, setup_table_lookup.
    rewrite decide_True by done. simpl.
    destruct (setup_successors_ok v (new_VertexContext g v)) as ([c' Hc] & _ & Hs).
    rewrite Hc. simpl. by rewrite (Hs c' Hc). }
  unfold GraphContext_Reset. simpl. f_equal.
  - apply map_eq. intros v. unfold table. rewrite !map_lookup_imap.
    destruct (setup_table !! v) as [c|]; [|done]. cbn [mbind option_bind].
    destruct (setup_successors_ok v c) as (_ & Hf & _). by destruct (SetupSuccessors _ _ _ _).
  - do 2 f_equal. by rewrite <-!size_dom, Hd.
  - rewrite Hd, setup_dom. apply filter_ext_in.
    intros v Hv%set_order_elem%elem_of_vertices. unfold Ready. by rewrite Hw.
Qed.

(** ** When the setup fails *)

Section setup.
Context `{!ProcessorSetup} (cl : ClusterConf).

(** What [VertexContext::Setup] gives for [v]. *)
Definition vertex_setup v : option (option ProcessorDI) := vertex_of g v ≫= λ x, VertexContext_Setup cl (v_conf x).

(** The keys of the outputs of the vertices [l]. *)
Definition keys_of (l : list (string * nat)) : list DIObjectKey :=
  l ≫= λ p, match vertex_setup p.2 with Some (Some di) => data_key <$> _output_ids di | _ => [] end.

(** Every vertex accepts its setup and no two outputs have the same key. *)
Definition setup_accepts : Prop :=
  (∀ v, (v < n)%nat → is_Some (vertex_setup v)) ∧ NoDup (keys_of (node_order (_nodes g))).

(** The first loop of the setup: its contexts, the origin of the inputs and
    outputs, and exactly when it returns -1. *)
Lemma setup_vertices_spec l (s : setup_progress) :
  (∀ p, p ∈ l → (p.2 < n)%nat) →
  match setup_vertices g cl l s with
  | Done s' =>
      (∀ p, p ∈ l → is_Some (vertex_setup p.2)) ∧ NoDup (keys_of l) ∧
      (∀ key, key ∈ keys_of l → key ∉ all_output_ids s) ∧
      su_contexts s' = foldl (λ t p, <[p.2 := new_VertexContext g p.2]> t) (su_contexts s) l ∧
      (∀ v di, su_dis s' !! v = Some di → su_dis s !! v = Some di ∨ vertex_setup v = Some (Some di))
  | Failure =>
      ¬ ((∀ p, p ∈ l → is_Some (vertex_setup p.2)) ∧ NoDup (keys_of l) ∧
         ∀ key, key ∈ keys_of l → key ∉ all_output_ids s)
  | Crash => False
  end.
Proof.
  revert s. induction l as [|[name v] l IH]; intros s Hl; cbn [setup_vertices].
  { split_and!; [by intros p Hp%elem_of_nil|constructor|by intros key Hk%elem_of_nil|done|by left]. }
  assert (∃ x, vertex_of g v = Some x) as [x Hx].
  { apply lookup_lt_is_Some_2. apply (Hl (name, v)). left. }
  assert (vertex_setup v = VertexContext_Setup cl (v_conf x)) as Hv by (unfold vertex_setup; by rewrite Hx).
  unfold setup_vertex. rewrite Hx, <-Hv. destruct (vertex_setup v) as [di|] eqn:Hdi.
  2:{ intros [Hall _]. specialize (Hall (name, v) ltac:(left)). simpl in Hall. rewrite Hdi in Hall. by destruct Hall. }
  set (outs := default [] (_output_ids <$> di)).
  assert (keys_of ((name, v) :: l) = (data_key <$> outs) ++ keys_of l) as Hk.
  { unfold keys_of. rewrite bind_cons. simpl. rewrite Hdi. by destruct di. }
  pose proof (collect_output_ids_spec outs (all_output_ids s)) as Hc.
  destruct (collect_output_ids (all_output_ids s) outs) as [all|].
  2:{ intros (_ & Hnd & Hall). apply Hc. rewrite Hk in Hnd, Hall. apply NoDup_app in Hnd as (? & _ & _).
      split; [done|]. intros key Hkey. apply Hall. set_solver. }
  destruct Hc as (Hnd & Hfree & ->). set (s1 := Build_setup_progress _ _ _ _).
  specialize (IH s1 (λ p Hp, Hl p (list_elem_of_further p _ l Hp))).
  destruct (setup_vertices g cl l s1) as [s'| |]; [| |done]; rewrite Hk.
  - destruct IH as (Hall & Hnd' & Hfree' & Hctx & Hdis). split_and!; [| | |exact Hctx|].
    + intros p [->|Hp]%elem_of_cons; [simpl; by rewrite Hdi|by apply Hall].
    + apply NoDup_app. split_and!; [done| |done]. intros key Hkey Hkey'. apply (Hfree' key Hkey'). simpl. set_solver.
    + intros key [Hkey|Hkey]%elem_of_app; [by apply Hfree|]. specialize (Hfree' key Hkey). simpl in Hfree'. set_solver.
    + intros u d [Hu|Hu]%Hdis; [|by right]. simpl in Hu. destruct (decide (u = v)) as [->|Hne].
      * rewrite lookup_partial_alter_eq in Hu. subst di. right. by rewrite Hdi.
      * rewrite lookup_partial_alter_ne in Hu by done. by left.
  - intros (Hall & Hnd' & Hfree'). apply IH. apply NoDup_app in Hnd' as (_ & Hdisj & Hnd').
    split_and!; [intros p Hp; apply Hall; by right|done|]. intros key Hkey. simpl.
    specialize (Hfree' key). rewrite elem_of_app in Hfree'. intros [Hin%elem_of_list_to_set|Hin]%elem_of_union.
    + by apply (Hdisj key).
    + by apply Hfree'; [right|].
Qed.

Lemma VertexContext_Setup_fresh c di :
  VertexContext_Setup cl c = Some (Some di) →
  Forall fresh_entry (_input_ids di) ∧ Forall fresh_entry (_output_ids di).
Proof.
  unfold VertexContext_Setup. cbv zeta. destruct (_ && _ && _); [done|]. destruct (negb (forallb _ _)); [done|].
  destruct (vertex_processor c) as [p|]; [|done].
  destruct (PrepareInputs _ _ _) as [ins|] eqn:Hin; [|done]. cbn [mbind option_bind].
  destruct (PrepareOutputs _ _ _) as [outs|] eqn:Hout; [|done]. cbn [mbind option_bind].
  case_match; [|done]. intros [= <-]. simpl. split; by eapply Setup_fresh.
Qed.

(** The setup of a graph: it returns -1 exactly when a vertex refuses its setup
    or two outputs have the same key, it does not abort, and otherwise the
    contexts are those of [setup_state] and every field of every processor has
    the index of its own data, shared by all fields with the same key. *)
Lemma setup_cases :
  (setup_accepts ∧ ∃ dis data, GraphContext_Setup g cl = Done (setup_state, dis, data) ∧ all_registered data ∧
     ∀ v di', dis !! v = Some di' → ∃ di, vertex_setup v = Some (Some di) ∧ same_di data di di') ∨
  (¬ setup_accepts ∧ GraphContext_Setup g cl = Failure).
Proof.
  assert (∀ p, p ∈ node_order (_nodes g) → (p.2 < n)%nat) as Hl.
  { intros p Hp. apply ex_range, node_order_known. by apply list_elem_of_fmap_2. }
  assert (∀ v, (v < n)%nat → ∃ p, p ∈ node_order (_nodes g) ∧ p.2 = v) as Hall.
  { intros v Hv. assert (v ∈ (node_order (_nodes g)).*2) as (p & -> & Hp)%list_elem_of_fmap
      by (by apply node_order_known, ex_known). by exists p. }
  unfold GraphContext_Setup. set (s0 := Build_setup_progress _ _ _ _).
  pose proof (setup_vertices_spec _ s0 Hl) as Hs.
  destruct (setup_vertices g cl (node_order (_nodes g)) s0) as [s| |]; [left|right|done].
  2:{ split; [|done]. intros [Hv Hnd]. apply Hs. split_and!; [intros p Hp; by apply Hv, Hl|done|].
      intros key _. apply not_elem_of_empty. }
  destruct Hs as (Hv & Hnd & _ & Hctx & Hdis). split.
  { split; [|done]. intros v (p & Hp & <-)%Hall. by apply Hv. }
  assert (∀ v di, su_dis s !! v = Some di → vertex_setup v = Some (Some di)) as Hdi.
  { intros v di [Hd|?]%Hdis; [|done]. simpl in Hd. by rewrite lookup_empty in Hd. }
  change (su_contexts s0) with (∅ : gmap nat VertexContext) in Hctx. fold setup_table in Hctx. rewrite Hctx. destruct link_ok as (table & -> & Hd & Hst).
  rewrite Hst. set (order := set_order (dom table)).
  destruct (register_all_spec (all_output_ids s) (omap (λ v, su_dis s !! v) order)
    (ReserveChildCapacity (_children_count s) new_GraphDataContext)) as (dis & data & -> & Hreg & _ & Hsame).
  - apply Forall_forall. intros di (v & _ & Hvd)%list_elem_of_omap. apply Hdi in Hvd. unfold vertex_setup in Hvd.
    destruct (vertex_of g v) as [x|]; [|done]. by eapply VertexContext_Setup_fresh.
  - split; [intros i key; by destruct i|]. intros key dv Hk. simpl in Hk. by rewrite lookup_empty in Hk.
  - eexists _, _. split; [done|]. split; [by apply Reset_all_registered|].
    intros v di' Hvd%elem_of_list_to_map_2. destruct (zip_omap _ _ _ _ Hsame v di' Hvd) as (di & Hd' & ?).
    exists di. split; [by apply Hdi|done].
Qed.
Lemma not_setup_accepts :
  ¬ setup_accepts ↔
  (∃ v x, vs !! v = Some x ∧ VertexContext_Setup cl (v_conf x) = None) ∨ ¬ NoDup (keys_of (node_order (_nodes g))).
Proof.
  unfold setup_accepts, vertex_setup, vertex_of. split.
  - intros Hn. destruct (decide (NoDup (keys_of (node_order (_nodes g))))) as [Hnd|]; [left|by right].
    destruct (decide (Exists (λ v, (x ← vs !! v; VertexContext_Setup cl (v_conf x)) = None) (seq 0 n)))
      as [(v & Hv%elem_of_seq & Hno)%Exists_exists|Hall].
    + exists v. destruct (lookup_lt_is_Some_2 vs v) as [x Hx]; [lia|]. exists x. split; [done|]. by rewrite Hx in Hno.
    + destruct Hn. split; [|done]. intros v Hv. apply not_eq_None_Some. intros Hno. apply Hall, Exists_exists.
      exists v. split; [apply elem_of_seq; lia|done].
  - intros Hno [Hall Hnd]. destruct Hno as [(v & x & Hx & Hno)|]; [|done].
    destruct (Hall v) as [di Hdi]; [by eapply lookup_lt_Some|]. rewrite Hx in Hdi. simpl in Hdi. congruence.
Qed.
End setup.

Lemma setup_state_lookup v :
  _vertex_context_table setup_state !! v = if decide (v < n)%nat then Some (fresh_ctx v) else None.
Proof.
  simpl. rewrite map_lookup_imap, setup_table_lookup. by destruct (decide (v < n)%nat).
Qed.

Lemma ctx_setup v : (v < n)%nat → ctx setup_state v = fresh_ctx v.
Proof.
  intros Hv. unfold ctx. rewrite lookup_total_alt, setup_state_lookup. by rewrite decide_True.
Qed.

Definition first_state : GraphContext := GraphContext_Execute setup_state.

Lemma deps_size w : Z.of_nat (size (deps_of g w)) < 2 ^ 32.
Proof.
  pose proof (vertices_size g). assert (size (deps_of g w) <= size (vertices g))%nat; [|lia].
  rewrite <-size_dom. apply subseteq_size. intros u Hu%elem_of_dom. apply elem_of_vertices.
  apply edge_deps, edge_lt in Hu; [|done..]. tauto.
Qed.

Lemma roots_elem v : v ∈ roots ↔ (v < n)%nat ∧ size (deps_of g v) = 0%nat.
Proof.
  unfold roots. rewrite list_elem_of_filter, set_order_elem, elem_of_vertices.
  cbn [fresh_ctx _waiting_num]. pose proof (deps_size v). rewrite u32_id by (unfold is_u32; lia).
  rewrite Is_true_true, Z.eqb_eq. split; [intros []|intros []]; split; try done; lia.
Qed.

Lemma roots_NoDup : NoDup roots.
Proof. apply NoDup_filter. rewrite set_order_perm. apply NoDup_elements. Qed.

Lemma ctx_first v : (v < n)%nat →
  ctx first_state v = set_phase (fresh_ctx v)
    (if decide (size (deps_of g v) = 0%nat) then Scheduled else Idle).
Proof.
  intros Hv. unfold first_state, GraphContext_Execute. rewrite (ctx_schedules g), (ctx_setup v Hv).
  destruct (decide (v ∈ ExecuteReadyVertexs (_start_ctxs setup_state))) as [Hin|Hin];
    rewrite ExecuteReadyVertexs_perm, roots_elem in Hin by apply roots_NoDup.
  - by rewrite decide_True by tauto.
  - by rewrite decide_False by tauto.
Qed.

Lemma first_phase v : (v < n)%nat →
  vc_phase (ctx first_state v) = Scheduled ∧ size (deps_of g v) = 0%nat ∨
  vc_phase (ctx first_state v) = Idle ∧ size (deps_of g v) ≠ 0%nat.
Proof. intros Hv. rewrite (ctx_first v Hv). destruct (decide _); [by left|by right]. Qed.

Lemma first_told v : (v < n)%nat →
  told g first_state v = 0%nat ∧ unfinished first_state v = true ∧ ready_of first_state v = [].
Proof. intros Hv. unfold told, unfinished, ready_of. by destruct (first_phase v Hv) as [[-> _]|[-> _]]. Qed.

Lemma first_pending w : pending g first_state w = dom (deps_of g w).
Proof.
  apply set_eq. intros v. rewrite elem_of_pending, elem_of_dom, <-edge_deps by done.
  split; [by intros []|]. intros He. split; [done|]. apply edge_lt in He as [Hv _]; [|done].
  unfold notified. destruct (first_told v Hv) as (-> & _). by apply bool_decide_eq_false_2, not_elem_of_nil.
Qed.

Lemma first_inv : inv first_state.
Proof.
  pose proof (schedules_other (ExecuteReadyVertexs (_start_ctxs setup_state)) setup_state) as [Hj Hd].
  fold first_state in Hj, Hd. assert (unfinished_set g first_state = vertices g) as Hu.
  { apply set_eq. intros v. rewrite elem_of_unfinished, elem_of_vertices. split; [by intros []|].
    intros Hv. by destruct (first_told v Hv) as (_ & -> & _). }
  assert (size setup_table = size (vertices g)) as Hsz by (by rewrite <-size_dom, setup_dom).
  assert (_join_vertex_num first_state = Z.of_nat (size (vertices g))) as Hjoin.
  { unfold first_state, GraphContext_Execute. rewrite Hj. simpl. rewrite Hsz. pose proof (vertices_size g).
    apply u32_id. unfold is_u32. lia. }
  assert (∀ v, v ∈ ExecuteReadyVertexs (_start_ctxs setup_state) → (v < n)%nat) as Hlt.
  { intros v Hv. rewrite ExecuteReadyVertexs_perm in Hv by apply roots_NoDup.
    by apply roots_elem in Hv as [? _]. }
  split.
  - intros v. unfold first_state, GraphContext_Execute. rewrite dom_schedules.
    + rewrite setup_state_lookup. destruct (decide (v < n)%nat); split; try done; by intros [].
    + intros u Hu'%Hlt. rewrite setup_state_lookup. by rewrite decide_True.
  - intros v Hv. by rewrite ctx_first.
  - intros v Hv. by rewrite ctx_first.
  - intros v Hv. destruct (first_told v Hv) as (-> & _). lia.
  - intros w Hw. rewrite ctx_first by done. simpl. by rewrite length_replicate.
  - intros v w i Hi. assert (edge vs v w) as He by (apply edge_deps; [done|eauto]).
    apply edge_lt in He as [Hv Hw]; [|done]. rewrite (ctx_first w Hw). simpl.
    rewrite lookup_replicate_2 by (by eapply deps_bound). unfold notified.
    destruct (first_told v Hv) as (-> & _). by rewrite bool_decide_eq_false_2 by apply not_elem_of_nil.
  - intros w Hw. rewrite (ctx_first w Hw), first_pending, size_dom. simpl. apply u32_id.
    pose proof (deps_size w). unfold is_u32. lia.
  - intros v Hv. destruct (first_told v Hv) as (_ & -> & _). by rewrite (ctx_first v Hv).
  - intros w Hw. rewrite first_pending. destruct (first_phase w Hw) as [[_ Hs]|[-> _]]; [|done].
    intros _. apply map_size_empty_inv in Hs. by rewrite Hs, dom_empty_L.
  - intros w Hw. rewrite first_pending. destruct (first_phase w Hw) as [[-> _]|[_ Hs]]; [done|].
    intros _ He. apply dom_empty_inv_L in He. by rewrite He in Hs.
  - intros v w Hv. destruct (first_told v Hv) as (_ & _ & ->). by intros ?%elem_of_nil.
  - intros v Hv. destruct (first_told v Hv) as (_ & _ & ->). constructor.
  - intros v v' w Hv _. destruct (first_told v Hv) as (_ & _ & ->). by intros ?%elem_of_nil.
  - by rewrite Hjoin, Hu.
  - rewrite Hjoin. unfold first_state, GraphContext_Execute. rewrite Hd. simpl.
    assert (size (vertices g) ≠ 0)%nat as Hne.
    { unfold vertices. rewrite size_set_seq. pose proof ex_nonempty. by destruct vs. }
    by rewrite (proj2 (Z.eqb_neq (Z.of_nat (size (vertices g))) 0)) by lia.
Qed.

(** ** Steps *)

Lemma enabled_lt st v : inv st → vc_phase (ctx st v) ≠ Idle → (v < n)%nat.
Proof.
  intros Hi Hp. apply (iv_dom g st Hi). unfold ctx in Hp. rewrite lookup_total_alt in Hp.
  by destruct (_ !! v).
Qed.

Lemma set_ctx_dom st v c u :
  is_Some (_vertex_context_table st !! v) →
  is_Some (_vertex_context_table (set_ctx st v c) !! u) ↔ is_Some (_vertex_context_table st !! u).
Proof. intros Hv. simpl. rewrite lookup_insert_is_Some'. split; [by intros [<-|]|by right]. Qed.

(** The context of [s] once [v] has told it its result, at position [idx]. *)
Definition told_ctx (c : VertexContext) (idx : nat) (r : VertexResult) : VertexContext :=
  {| _waiting_num := _waiting_num c - 1; _deps_results := <[idx := r]> (_deps_results c);
     _result := _result c; _code := _code c; _successor_ctxs := _successor_ctxs c;
     _successor_dep_idxs := _successor_dep_idxs c; vc_phase := vc_phase c |}.

(** The state once successor number [i] of [v] has been told. *)
Definition tell_state st v i s ready idx : GraphContext :=
  set_ctx (set_ctx st s (told_ctx (ctx st s) idx (_result (ctx st v)))) v
    (set_phase (ctx st v) (Notifying (S i) (tell_ready st s ready))).

Lemma tell_state_ctx st v i s ready idx u :
  ctx (tell_state st v i s ready idx) u =
  if decide (u = v) then set_phase (ctx st v) (Notifying (S i) (tell_ready st s ready))
  else if decide (u = s) then told_ctx (ctx st s) idx (_result (ctx st v)) else ctx st u.
Proof. unfold tell_state. by rewrite !ctx_set. Qed.

Lemma tell_state_inv st v i s ready idx :
  inv st → (v < n)%nat → vc_phase (ctx st v) = Notifying i ready → succs g v !! i = Some s →
  deps_of g s !! v = Some idx → inv (tell_state st v i s ready idx).
Proof.
  intros Hi Hv Hp Hs Hidx. assert (s < n)%nat as Hlt by (by eapply (tell_lt g st Hi v i s ready)).
  apply (inv_tell g st Hi v i s ready Hv Hp Hs _ idx Hidx); [intros u; apply tell_state_ctx| |done..].
  intros u. unfold tell_state. rewrite !set_ctx_dom; [done|..]; [by apply Hi|].
  rewrite set_ctx_dom; by apply Hi.
Qed.

(** What a notification does: it tells one successor, or hands out the ready
    ones, or does both when its last successor is the only one ready. *)
Inductive notify_spec st v i ready : GraphContext → Prop :=
| notify_tell s idx :
    succs g v !! i = Some s → deps_of g s !! v = Some idx →
    notify_spec st v i ready (tell_state st v i s ready idx)
| notify_direct s idx st' :
    succs g v !! i = Some s → deps_of g s !! v = Some idx →
    S i = length (succs g v) → tell_ready st s ready = [s] →
    st' = set_ctx (schedule (tell_state st v i s ready idx) s) v (set_phase (ctx st v) Finished) →
    notify_spec st v i ready st'
| notify_end :
    i = length (succs g v) →
    notify_spec st v i ready
      (set_ctx (foldl schedule st (ExecuteReadyVertexs ready)) v
         (set_phase (ctx (foldl schedule st (ExecuteReadyVertexs ready)) v) Finished)).

Lemma set_ctx_set st v c c' : set_ctx (set_ctx st v c) v c' = set_ctx st v c'.
Proof. unfold set_ctx. simpl. by rewrite insert_insert_eq. Qed.

Lemma set_ctx_comm st v s c c' : v ≠ s → set_ctx (set_ctx st v c) s c' = set_ctx (set_ctx st s c') v c.
Proof. intros Hne. unfold set_ctx. simpl. by rewrite insert_insert_ne. Qed.

Lemma notify_step st v i ready :
  inv st → (v < n)%nat → vc_phase (ctx st v) = Notifying i ready →
  ∃ st', OnVertexDone_step st v i ready = Next st' ∧ notify_spec st v i ready st'.
Proof.
  intros Hi Hv Hp. unfold OnVertexDone_step. rewrite (iv_succ g st Hi v Hv).
  destruct (succs g v !! i) as [s|] eqn:Hs.
  - destruct (tell_index g st Hi v i s ready Hv Hp Hs) as (idx & Hidx & -> & ->).
    pose proof (tell_ne g st Hi v i s ready Hv Hp Hs) as Hne. fold (told_ctx (ctx st s) idx (_result (ctx st v))).
    set (mid := set_ctx st s _). assert (ctx mid v = ctx st v) as Hmv
      by (unfold mid; rewrite ctx_set; by rewrite decide_False).
    assert (∀ r, r = tell_ready st s ready →
      set_ctx mid v (set_phase (ctx st v) (Notifying (S i) r)) = tell_state st v i s ready idx) as Htell by (by intros r ->).
    cbv zeta. unfold schedule. rewrite !ctx_set, Hmv, decide_False by done. unfold tell_ready in Htell.
    destruct (1 =? _waiting_num (ctx st s)) eqn:Ew.
    + destruct (Nat.eqb_spec (S i) (length (succs g v))) as [El|El];
        destruct (bool_decide_reflect (ready = [])) as [Er|Er]; simpl;
        try (eexists; split; [done|]; rewrite Htell by done; by econstructor).
      eexists. split; [done|]. subst ready. eapply notify_direct; [done..|unfold tell_ready; by rewrite Ew|].
      unfold schedule, tell_state. fold mid. rewrite ctx_set, decide_False by done.
      by rewrite (set_ctx_comm mid v s), set_ctx_set by done.
    + eexists. split; [done|]. rewrite Htell by done. by econstructor.
  - eexists. split; [done|]. apply notify_end. apply lookup_ge_None in Hs.
    pose proof (iv_told g st Hi v Hv) as Ht. unfold told in Ht. rewrite Hp in Ht. lia.
Qed.

Lemma notify_inv st v i ready st' :
  inv st → (v < n)%nat → vc_phase (ctx st v) = Notifying i ready →
  notify_spec st v i ready st' → inv st'.
Proof.
  intros Hi Hv Hp [s idx Hs Hidx|s idx ? Hs Hidx Hl Hr ->|Hl].
  - by apply tell_state_inv.
  - pose proof (tell_ne g st Hi v i s ready Hv Hp Hs) as Hne.
    pose proof (tell_lt g st Hi v i s ready Hv Hp Hs) as Hlt.
    pose proof (tell_state_inv st v i s ready idx Hi Hv Hp Hs Hidx) as Hm.
    set (mid := tell_state st v i s ready idx) in *.
    assert (ctx mid v = set_phase (ctx st v) (Notifying (length (succs g v)) [s])) as Hmv.
    { unfold mid. rewrite tell_state_ctx, decide_True by done. by rewrite Hr, Hl. }
    apply (inv_schedule g mid _ v [s] Hm Hv); [by rewrite Hmv| | |done..].
    + intros u. unfold schedule. rewrite !ctx_set. destruct (decide (u = v)) as [->|]; [by rewrite Hmv|].
      destruct (decide (u = s)) as [->|]; [by rewrite decide_True by left|].
      rewrite decide_False by set_solver. by destruct (ctx mid u).
    + intros u. unfold schedule. rewrite !set_ctx_dom; [done|..]; [by apply Hm|].
      rewrite set_ctx_dom; by apply Hm.
  - pose proof (iv_ready_nodup g st Hi v Hv) as Hnd. pose proof (iv_ready g st Hi v) as Hrd.
    unfold ready_of in Hnd, Hrd. rewrite Hp in Hnd, Hrd.
    assert (∀ u, u ∈ ExecuteReadyVertexs ready ↔ u ∈ ready) as Hperm
      by (intros u; by rewrite ExecuteReadyVertexs_perm).
    assert (∀ u, is_Some (_vertex_context_table (foldl schedule st (ExecuteReadyVertexs ready)) !! u)
              ↔ is_Some (_vertex_context_table st !! u)) as Hdom.
    { intros u. apply dom_schedules. intros w Hw%Hperm. apply Hi. by apply Hrd. }
    destruct (schedules_other (ExecuteReadyVertexs ready) st) as [Hj Hd].
    apply (inv_schedule g st _ v ready Hi Hv); [by rewrite Hp, Hl| | |done..].
    + intros u. rewrite ctx_set, !(ctx_schedules g). destruct (decide (u = v)) as [->|Hne].
      { rewrite decide_False; [done|]. intros Hin%Hperm. apply Hrd in Hin as (_ & Hid & _); congruence. }
      destruct (decide (u ∈ ExecuteReadyVertexs ready)) as [Hin|Hin]; rewrite Hperm in Hin.
      * by rewrite decide_True.
      * rewrite decide_False by done. by destruct (ctx st u).
    + intros u. rewrite set_ctx_dom; [done|]. apply Hdom. by apply Hi.
Qed.

(** ** Every step of every run *)

Lemma step_inv st e st' : inv st → exec_step g st e = Next st' → inv st'.
Proof.
  intros Hi. destruct e as [v cfg late|v o|v]; simpl; destruct (vc_phase (ctx st v)) as [| | | |i ready|] eqn:Hp;
    try done; (assert (v < n)%nat as Hv by (apply (enabled_lt st v Hi); congruence)).
  - intros [= <-]. unfold VertexContext_Execute. destruct (_ && _ && _ && _).
    + apply (inv_move g st v Scheduled); [done..|by left].
    + apply inv_finish; [done..|by left].
  - intros [= <-]. destruct (outcome_code g v o).
    + apply inv_finish; [done..|by right].
    + apply (inv_move g st v Running); [done..|by right].
  - destruct (notify_step st v i ready Hi Hv Hp) as (st1 & -> & Hn). intros [= <-].
    by eapply notify_inv.
Qed.

Lemma step_defined st e : inv st → exec_step g st e ≠ Undefined.
Proof.
  intros Hi. destruct e as [v cfg late|v o|v]; simpl; destruct (vc_phase (ctx st v)) as [| | | |i ready|] eqn:Hp;
    try done. assert (v < n)%nat as Hv by (apply (enabled_lt st v Hi); congruence).
  by destruct (notify_step st v i ready Hi Hv Hp) as (st1 & -> & _).
Qed.

Lemma run_inv st es st' : run g st es st' → inv st → inv st'.
Proof. induction 1 as [|st e st1 es st2 Hs _ IH]; [done|]. intros Hi. by apply IH, (step_inv st e). Qed.
End runs.

(** * What every run of a graph does

    The steps of a run may be taken in any order; whatever the order, a run has a
    bounded number of steps, and if no future fails it is never stuck before every
    vertex has finished, it calls [done] once, and the codes it computes are those of
    [dag_code], the evaluation of the graph by recursion on the dependencies. *)

Open Scope Z_scope.

(** What the environment decides in a run: the setting a vertex finds in the
    data context, whether it is too late for it, and how its work ends. *)
Record environment := {
  env_setting : nat → option bool;
  env_expired : nat → bool;
  env_outcome : nat → outcome;
}.

Definition follows (E : environment) (e : event) : Prop :=
  match e with
  | Start v setting expired => setting = env_setting E v ∧ expired = env_expired E v
  | Return v o => o = env_outcome E v
  | Notify _ => True
  end.

Definition subject (e : event) : nat :=
  match e with Start v _ _ | Return v _ | Notify v => v end.

(** The steps a vertex can still take: it starts, its processor returns, it
    tells each successor and hands out the ready ones. *)
Definition steps_left (succs : nat) (p : phase) : nat :=
  match p with
  | Idle | Scheduled => succs + 3
  | Running => succs + 2
  | Lost => 0
  | Notifying i _ => succs + 1 - i
  | Finished => 0
  end.

Lemma sum_list_fmap_lt {A} (f f' : A → nat) (l : list A) (x : A) :
  (∀ y, y ∈ l → f' y <= f y)%nat → x ∈ l → (f' x < f x)%nat →
  (sum_list (f' <$> l) < sum_list (f <$> l))%nat.
Proof.
  assert (∀ l, (∀ y, y ∈ l → f' y <= f y)%nat → (sum_list (f' <$> l) <= sum_list (f <$> l))%nat) as Hle.
  { clear l. induction l as [|y l IH]; intros Hl; csimpl; [done|].
    pose proof (Hl y ltac:(left)). assert (sum_list (f' <$> l) <= sum_list (f <$> l))%nat; [|lia].
    apply IH. intros z Hz. apply Hl. by right. }
  induction l as [|y l IH]; intros Hl Hx Hlt; [by apply elem_of_nil in Hx|]. csimpl.
  pose proof (Hl y ltac:(left)). assert (∀ z, z ∈ l → f' z <= f z)%nat as Hl' by (intros z ?; apply Hl; by right).
  apply elem_of_cons in Hx as [->|Hx]; [specialize (Hle l Hl'); lia|]. specialize (IH Hl' Hx Hlt). lia.
Qed.

Section theorems.
Context `{UnorderedLaws, !VertexKinds}.
Context (g : Graph) `{!Executable g}.
Implicit Types (st : GraphContext) (u v w s : nat) (e : event).

Abbreviation vs := (g_vertex g).
Abbreviation n := (length (g_vertex g)).
Abbreviation inv := (DagExecSpec.inv g).

(** ** What a step leaves alone *)

Lemma notify_other st v i ready st' u :
  inv st → (v < n)%nat → vc_phase (ctx st v) = Notifying i ready → notify_spec g st v i ready st' → u ≠ v →
  (vc_phase (ctx st u) ≠ Idle → ctx st' u = ctx st u) ∧
  (vc_phase (ctx st u) = Idle → vc_phase (ctx st' u) = Idle ∨ vc_phase (ctx st' u) = Scheduled).
Proof.
  intros Hi Hv Hp [s idx Hs Hidx|s idx ? Hs Hidx Hl Hr ->|Hl] Hne.
  - pose proof (tell_idle g st Hi v i s ready Hv Hp Hs) as Hid.
    rewrite tell_state_ctx, decide_False by done. destruct (decide (u = s)) as [->|]; [|by auto].
    split; [congruence|]. by left.
  - pose proof (tell_idle g st Hi v i s ready Hv Hp Hs) as Hid. unfold schedule.
    rewrite !ctx_set, decide_False by done. destruct (decide (u = s)) as [->|].
    { split; [congruence|]. by right. }
    rewrite tell_state_ctx, !decide_False by done. auto.
  - rewrite ctx_set, decide_False, (ctx_schedules g) by done.
    destruct (decide (u ∈ ExecuteReadyVertexs ready)) as [Hin|]; [|by auto].
    pose proof (iv_ready_nodup g st Hi v Hv) as Hnd. pose proof (iv_ready g st Hi v u Hv) as Hrd.
    unfold ready_of in Hnd, Hrd. rewrite Hp in Hnd, Hrd.
    rewrite ExecuteReadyVertexs_perm in Hin by done. destruct (Hrd Hin) as (_ & Hid & _).
    split; [congruence|]. by right.
Qed.

Lemma notify_self st v i ready st' :
  inv st → (v < n)%nat → vc_phase (ctx st v) = Notifying i ready → notify_spec g st v i ready st' →
  ∃ p, ctx st' v = set_phase (ctx st v) p ∧
    (p = Finished ∨ ∃ r, p = Notifying (S i) r ∧ (i < length (succs g v))%nat).
Proof.
  intros Hi Hv Hp [s idx Hs Hidx|s idx ? Hs Hidx Hl Hr ->|Hl].
  - eexists. rewrite tell_state_ctx, decide_True by done. split; [done|]. right.
    eexists. split; [done|]. by eapply lookup_lt_Some.
  - exists Finished. rewrite ctx_set, decide_True by done. by auto.
  - exists Finished. rewrite ctx_set, decide_True, (ctx_schedules g) by done. split; [|by left].
    by destruct (decide _).
Qed.

Lemma finish_other st v code u : u ≠ v → ctx (FinishVertexProcess st v code) u = ctx st u.
Proof. intros Hne. unfold FinishVertexProcess, ctx. simpl. by rewrite lookup_total_insert_ne. Qed.

Lemma step_other st e st' u :
  inv st → exec_step g st e = Next st' → u ≠ subject e →
  (vc_phase (ctx st u) ≠ Idle → ctx st' u = ctx st u) ∧
  (vc_phase (ctx st u) = Idle → vc_phase (ctx st' u) = Idle ∨ vc_phase (ctx st' u) = Scheduled).
Proof.
  intros Hi. destruct e as [v cfg late|v o|v]; simpl; destruct (vc_phase (ctx st v)) as [| | | |i ready|] eqn:Hp;
    try done; (assert (v < n)%nat as Hv by (apply (enabled_lt g st v Hi); congruence)); intros Hs Hne.
  - injection Hs as <-. unfold VertexContext_Execute. destruct (_ && _ && _ && _).
    + rewrite ctx_set, decide_False by done. auto.
    + rewrite finish_other by done. auto.
  - injection Hs as <-. destruct (outcome_code g v o).
    + rewrite finish_other by done. auto.
    + rewrite ctx_set, decide_False by done. auto.
  - destruct (notify_step g st v i ready Hi Hv Hp) as (st1 & Hs1 & Hn).
    rewrite Hs1 in Hs. injection Hs as <-. by eapply notify_other.
Qed.

(** ** Termination *)

Definition left_of st v : nat := steps_left (length (succs g v)) (vc_phase (ctx st v)).
Definition measure st : nat := sum_list (left_of st <$> seq 0 n).

Lemma finish_phase st v code :
  vc_phase (ctx (FinishVertexProcess st v code) v) = Finished ∨
  vc_phase (ctx (FinishVertexProcess st v code) v) = Notifying 0 [].
Proof.
  unfold FinishVertexProcess, ctx. simpl. rewrite lookup_total_insert_eq. simpl.
  case_match; auto.
Qed.

Lemma step_subject st e st' :
  inv st → exec_step g st e = Next st' →
  (subject e < n)%nat ∧ (left_of st' (subject e) < left_of st (subject e))%nat.
Proof.
  intros Hi. destruct e as [v cfg late|v o|v]; simpl; unfold left_of;
    destruct (vc_phase (ctx st v)) as [| | | |i ready|] eqn:Hp;
    try done; (assert (v < n)%nat as Hv by (apply (enabled_lt g st v Hi); congruence)); intros Hs; (split; [done|]).
  - injection Hs as <-. unfold VertexContext_Execute. destruct (_ && _ && _ && _).
    + rewrite ctx_set, decide_True by done. simpl. lia.
    + destruct (finish_phase st v V_CODE_SKIP) as [-> | ->]; simpl; lia.
  - injection Hs as <-. destruct (outcome_code g v o) as [code|].
    + destruct (finish_phase st v code) as [-> | ->]; simpl; lia.
    + rewrite ctx_set, decide_True by done. simpl. lia.
  - destruct (notify_step g st v i ready Hi Hv Hp) as (st1 & Hs1 & Hn).
    rewrite Hs1 in Hs. injection Hs as <-.
    pose proof (iv_told g st Hi v Hv) as Ht. unfold told in Ht. rewrite Hp in Ht.
    destruct (notify_self st v i ready st1 Hi Hv Hp Hn) as (p & -> & [->|(r & -> & ?)]); simpl; lia.
Qed.

Lemma step_measure st e st' :
  inv st → exec_step g st e = Next st' → (measure st' < measure st)%nat.
Proof.
  intros Hi Hs. destruct (step_subject st e st' Hi Hs) as [Hv Hlt].
  apply (sum_list_fmap_lt _ _ _ (subject e)); [|apply elem_of_seq; lia|done].
  intros u _. destruct (decide (u = subject e)) as [->|Hne]; [lia|].
  destruct (step_other st e st' u Hi Hs Hne) as [Hact Hidle]. unfold left_of.
  destruct (vc_phase (ctx st u)) eqn:Hp; try (rewrite Hact by done; by rewrite Hp).
  destruct (Hidle eq_refl) as [-> | ->]; done.
Qed.

Lemma run_measure st es st' :
  run g st es st' → inv st → (length es + measure st' <= measure st)%nat.
Proof.
  induction 1 as [|st e st1 es st2 Hs Hrun IH]; intros Hi; simpl; [lia|].
  pose proof (step_measure st e st1 Hi Hs). specialize (IH (step_inv g st e st1 Hi Hs)). lia.
Qed.

Lemma first_measure : measure (first_state g) = sum_list ((λ v, length (succs g v) + 3)%nat <$> seq 0 n).
Proof.
  unfold measure. f_equal. apply list_fmap_ext. intros k v Hk%lookup_seq.
  unfold left_of. destruct (first_phase g v) as [[-> _]|[-> _]]; [lia|done..].
Qed.

(** ** Progress *)

Lemma active_step E st v :
  inv st → (v < n)%nat → vc_phase (ctx st v) ≠ Idle → vc_phase (ctx st v) ≠ Finished →
  vc_phase (ctx st v) ≠ Lost → ∃ e st', follows E e ∧ exec_step g st e = Next st'.
Proof.
  intros Hi Hv Hni Hnf Hnl. destruct (vc_phase (ctx st v)) as [| | | |i ready|] eqn:Hp; try done.
  - exists (Start v (env_setting E v) (env_expired E v)). eexists. simpl. by rewrite Hp.
  - exists (Return v (env_outcome E v)). eexists. simpl. by rewrite Hp.
  - destruct (notify_step g st v i ready Hi Hv Hp) as (st1 & Hs & _).
    exists (Notify v), st1. simpl. by rewrite Hp.
Qed.

(** Induction on the dependencies. *)
Lemma tc_flip_edge u v : tc (flip (edge vs)) u v → tc (edge vs) v u.
Proof.
  induction 1 as [u v He|u v w He _ IH]; [by apply tc_once|]. by eapply tc_r.
Qed.

Lemma dep_ind (P : nat → Prop) : (∀ v, (∀ u, edge vs u v → P u) → P v) → ∀ v, P v.
Proof.
  intros HP v. assert (sn (flip (edge vs)) v) as Hsn.
  { apply tc_finite_sn; [intros u Hu%tc_flip_edge; by apply (ex_acyclic u)|].
    exists (seq 0 n). intros u Hu%tc_flip_edge. apply elem_of_seq.
    inversion Hu as [? ? He|? ? ? He]; subst; apply edge_lt in He as [? _]; try done; lia. }
  induction Hsn as [v _ IH]. apply HP. intros u He. apply IH. done.
Qed.

(** Some vertex is active when one is idle: an idle vertex waits for an idle
    or an active one, and the waiting has no cycle. *)
Lemma idle_active st v :
  inv st → (v < n)%nat → vc_phase (ctx st v) = Idle →
  ∃ u, (u < n)%nat ∧ vc_phase (ctx st u) ≠ Idle ∧ vc_phase (ctx st u) ≠ Finished.
Proof.
  intros Hi. induction v as [v IH] using dep_ind. intros Hv Hp.
  destruct (decide (pending g st v = ∅)) as [He|[u Hu]%set_choose_L].
  - destruct (iv_held g st Hi v Hv Hp He) as (u & Hu & Hin). exists u.
    unfold ready_of in Hin. split; [done|]. destruct (vc_phase (ctx st u)); set_solver.
  - apply elem_of_pending in Hu as [Hu Hn]; [|done..]. destruct (edge_lt g u v Hu) as [Hlt _].
    destruct (vc_phase (ctx st u)) as [| | | |i ready|] eqn:E; [by apply (IH u)|..];
      try (exists u; by rewrite E). exfalso. unfold notified, told in Hn. rewrite E in Hn.
    rewrite take_ge in Hn by done. apply bool_decide_eq_false_1 in Hn. apply Hn. by apply succs_edge.
Qed.

Definition complete st : Prop := ∀ v, (v < n)%nat → vc_phase (ctx st v) = Finished.

Lemma progress E st :
  inv st →
  complete st ∨ (∃ e st', follows E e ∧ exec_step g st e = Next st') ∨
  ∃ v, (v < n)%nat ∧ vc_phase (ctx st v) = Lost.
Proof.
  intros Hi.
  destruct (decide (Forall (λ v, vc_phase (ctx st v) = Finished) (seq 0 n))) as [Hall|Hn].
  - left. intros v Hv. rewrite Forall_forall in Hall. apply Hall, elem_of_seq. lia.
  - right.
    apply not_Forall_Exists, Exists_exists in Hn as (v & Hv%elem_of_seq & Hnf); [|apply _].
    assert (∃ u, (u < n)%nat ∧ vc_phase (ctx st u) ≠ Idle ∧ vc_phase (ctx st u) ≠ Finished) as (u & Hu & Hui & Huf).
    { destruct (decide (vc_phase (ctx st v) = Idle)); [apply (idle_active st v Hi); [lia|done]|].
      exists v. split; [lia|done]. }
    destruct (decide (vc_phase (ctx st u) = Lost)); [right; by exists u|left]. by apply (active_step E st u).
Qed.

Lemma run_app st es st1 es' st2 : run g st es st1 → run g st1 es' st2 → run g st (es ++ es') st2.
Proof. induction 1 as [|st e st0 es st1 Hs _ IH]; intros Hr; [done|]. econstructor; [done|by apply IH]. Qed.

(** ** Failed futures *)

Lemma finished_all st v :
  inv st → _join_vertex_num st = 0 → (v < n)%nat → unfinished st v = false.
Proof.
  intros Hi Hj Hv. destruct (unfinished st v) eqn:Hu; [|done]. exfalso.
  assert (v ∈ unfinished_set g st) as Hin by (by apply elem_of_unfinished).
  rewrite (iv_join g st Hi) in Hj. assert (size (unfinished_set g st) = 0)%nat as Hz by lia.
  apply size_empty_inv in Hz. set_solver.
Qed.

(** A vertex is lost when its future fails, and stays lost. *)
Lemma lost_step st e st' v :
  inv st → exec_step g st e = Next st' →
  vc_phase (ctx st' v) = Lost ↔ vc_phase (ctx st v) = Lost ∨ e = Return v FutureFailed.
Proof.
  intros Hi Hs. destruct (decide (v = subject e)) as [->|Hne].
  2:{ destruct (step_other st e st' v Hi Hs Hne) as [Hact Hidle].
      assert (e ≠ Return v FutureFailed) by (intros ->; done).
      destruct (decide (vc_phase (ctx st v) = Idle)) as [Hid|Hact']; [|rewrite Hact by done; naive_solver].
      destruct (Hidle Hid) as [-> | ->]; rewrite Hid; naive_solver. }
  revert Hs. destruct e as [v cfg late|v o|v]; cbn [subject exec_step];
    destruct (vc_phase (ctx st v)) as [| | | |i ready|] eqn:Hp; try done; intros Hs.
  - injection Hs as <-. unfold VertexContext_Execute. destruct (_ && _ && _ && _).
    + rewrite ctx_set, decide_True by done. simpl. naive_solver.
    + destruct (finish_phase st v V_CODE_SKIP) as [-> | ->]; naive_solver.
  - injection Hs as <-. destruct (outcome_code g v o) as [code|] eqn:Ho.
    + destruct (finish_phase st v code) as [-> | ->]; naive_solver.
    + rewrite ctx_set, decide_True by done. destruct o; try done. simpl. naive_solver.
  - assert (v < n)%nat as Hv by (apply (enabled_lt g st v Hi); congruence).
    destruct (notify_step g st v i ready Hi Hv Hp) as (st1 & Hs1 & Hn). rewrite Hs1 in Hs. injection Hs as <-.
    destruct (notify_self st v i ready st1 Hi Hv Hp Hn) as (p & -> & [->|(r & -> & _)]); simpl; naive_solver.
Qed.

Lemma lost_run st es st' v :
  run g st es st' → inv st →
  vc_phase (ctx st' v) = Lost ↔ vc_phase (ctx st v) = Lost ∨ Return v FutureFailed ∈ es.
Proof.
  induction 1 as [|st e st1 es st2 Hs _ IH]; intros Hi; [rewrite elem_of_nil; tauto|].
  rewrite IH, (lost_step st e st1 v Hi Hs), elem_of_cons by (by eapply step_inv). naive_solver.
Qed.

Lemma first_not_lost v : vc_phase (ctx (first_state g) v) ≠ Lost.
Proof.
  intros Hl. assert (v < n)%nat as Hv by (apply (enabled_lt g _ v (first_inv g)); congruence).
  destruct (first_phase g v Hv) as [[E _]|[E _]]; congruence.
Qed.

(** Nothing that depends on a lost vertex has been scheduled. *)
Lemma lost_below st v w :
  inv st → vc_phase (ctx st v) = Lost → tc (edge vs) v w → vc_phase (ctx st w) = Idle.
Proof.
  intros Hi Hl Hvw.
  assert (∀ u w, edge vs u w → vc_phase (ctx st u) = Idle ∨ vc_phase (ctx st u) = Lost →
    vc_phase (ctx st w) = Idle) as Hone.
  { intros u x He Hu. apply (untold_idle g st u x Hi He). unfold notified, told.
    destruct Hu as [-> | ->]; by apply bool_decide_eq_false_2, not_elem_of_nil. }
  assert (vc_phase (ctx st v) = Idle ∨ vc_phase (ctx st v) = Lost) as Hv by (by right). clear Hl.
  induction Hvw as [u x He|u x y He _ IH]; [by eapply Hone|]. apply IH. left. by eapply Hone.
Qed.

Lemma lost_done st v : inv st → vc_phase (ctx st v) = Lost → done_calls st = [].
Proof.
  intros Hi Hl. rewrite (iv_done g st Hi). destruct (Z.eqb_spec (_join_vertex_num st) 0) as [Hj|]; [|done].
  assert (v < n)%nat as Hv by (apply (enabled_lt g st v Hi); congruence).
  pose proof (finished_all st v Hi Hj Hv) as Hf. unfold unfinished in Hf. by rewrite Hl in Hf.
Qed.

(** The futures of a run do not fail. *)
Definition answers (E : environment) : Prop := ∀ v, env_outcome E v ≠ FutureFailed.

Lemma follows_not_lost E e v : answers E → follows E e → e ≠ Return v FutureFailed.
Proof. intros Ha Hf ->. by apply (Ha v). Qed.

Lemma run_to_end E st :
  answers E → inv st → (∀ v, vc_phase (ctx st v) ≠ Lost) →
  ∃ es st', run g st es st' ∧ Forall (follows E) es ∧ complete st'.
Proof.
  intros Ha. remember (measure st) as k eqn:Hk. revert st Hk.
  induction k as [k IH] using lt_wf_ind. intros st -> Hi Hnl.
  destruct (progress E st Hi) as [Hc|[(e & st1 & He & Hs)|(v & _ & Hv)]]; [| |by destruct (Hnl v)].
  { exists [], st. split_and!; [constructor|constructor|done]. }
  destruct (IH (measure st1) (step_measure st e st1 Hi Hs) st1 eq_refl (step_inv g st e st1 Hi Hs))
    as (es & st' & Hr & Hf & Hc).
  { intros v [?|?]%(lost_step st e st1 v Hi Hs); [by destruct (Hnl v)|by eapply (follows_not_lost E e v)]. }
  exists (e :: es), st'. split_and!; [by econstructor|by constructor|done].
Qed.

(** ** The end of a run *)

Lemma finished_quiet st v :
  inv st → _join_vertex_num st = 0 → (v < n)%nat →
  vc_phase (ctx st v) = Finished ∨ vc_phase (ctx st v) = Notifying (length (succs g v)) [].
Proof.
  intros Hi Hj Hv. pose proof (finished_all st v Hi Hj Hv) as Hu. unfold unfinished in Hu.
  destruct (vc_phase (ctx st v)) as [| | | |i ready|] eqn:Hp; try done; [|by left]. right.
  assert (∀ w, (w < n)%nat → vc_phase (ctx st w) ≠ Idle) as Hni.
  { intros w Hw Hid. pose proof (finished_all st w Hi Hj Hw) as Hf. unfold unfinished in Hf. by rewrite Hid in Hf. }
  f_equal.
  - pose proof (iv_told g st Hi v Hv) as Ht. unfold told in Ht. rewrite Hp in Ht.
    destruct (decide (i = length (succs g v))) as [|Hne]; [done|exfalso].
    destruct (lookup_lt_is_Some_2 (succs g v) i) as [s Hs]; [lia|].
    apply (Hni s); [by eapply (tell_lt g st Hi v i s ready)|by eapply (tell_idle g st Hi v i s ready)].
  - destruct ready as [|w ready]; [done|exfalso].
    destruct (iv_ready g st Hi v w Hv) as (Hw & Hid & _); [unfold ready_of; rewrite Hp; left|].
    by apply (Hni w).
Qed.

Lemma complete_done st : inv st → complete st → done_calls st = [0].
Proof.
  intros Hi Hc. rewrite (iv_done g st Hi), (iv_join g st Hi).
  assert (unfinished_set g st = ∅) as ->; [|done]. apply set_eq. intros v.
  rewrite elem_of_unfinished, elem_of_empty. split; [|done]. intros [Hv Hu].
  unfold unfinished in Hu. by rewrite Hc in Hu.
Qed.
End theorems.
