(* ===== verification/DagProperties.v ===== *)
(** * DagProperties: what every run of a graph gives

    The results do not depend on the schedule; the properties of runs. *)

From stdpp Require Import relations.
From S2P Require Import Prelude DagGraph DagGraphSpec DagInject DagExec DagExecSpec DagRuns.

(** * The codes a run computes

    [dag_code] evaluates a graph by recursion on the dependencies, without
    contexts, counters or an order of steps.  Every complete run computes its
    codes, so they do not depend on how the vertices are scheduled. *)

Open Scope Z_scope.

Definition code_result (code : Z) : VertexResult := if negb (0 =? code) then V_RESULT_ERR else V_RESULT_OK.

Section reference.
Context `{!VertexKinds} (g : Graph) (E : environment).

(** Each dependency ended with a result that [v] expects of it. *)
Definition deps_ok (code : nat → Z) (v : nat) : bool :=
  forallb (λ p : nat * nat, match expected_of g v !! p.2 with
    | Some e => negb (Z.land (result_bits (code_result (code p.1))) (result_bits e) =? 0)
    | None => true
    end) (map_to_list (deps_of g v)).

(** The code of [v] from the codes of its dependencies; a vertex whose future
    fails keeps the code 0 it was reset to. *)
Definition vertex_code (code : nat → Z) (v : nat) : Z :=
  if has_target v && deps_ok code v && expect_config_ok g v (env_setting E v)
     && negb (env_expired E v)
  then default 0 (outcome_code g v (env_outcome E v)) else V_CODE_SKIP.

Fixpoint dag_code (fuel : nat) (v : nat) : Z :=
  match fuel with
  | O => V_CODE_SKIP
  | S fuel => vertex_code (dag_code fuel) v
  end.
End reference.

Section results.
Context `{UnorderedLaws, !VertexKinds}.
Context (g : Graph) `{!Executable g} (E : environment).
Implicit Types (st : GraphContext) (u v w s : nat) (e : event).

Abbreviation vs := (g_vertex g).
Abbreviation n := (length (g_vertex g)).
Abbreviation inv := (DagExecSpec.inv g).

Lemma deps_ok_ext code code' v :
  (∀ u, edge vs u v → code u = code' u) → deps_ok g code v = deps_ok g code' v.
Proof.
  intros Hc. unfold deps_ok.
  assert (∀ p, p ∈ map_to_list (deps_of g v) → code p.1 = code' p.1) as Hin.
  { intros [u i] Hp%elem_of_map_to_list. apply Hc, edge_deps; [done|]. by exists i. }
  induction (map_to_list (deps_of g v)) as [|p l IH]; [done|]. cbn [forallb].
  rewrite (Hin p) by left. f_equal. apply IH. intros q Hq. apply Hin. by right.
Qed.

Lemma vertex_code_ext code code' v :
  (∀ u, edge vs u v → code u = code' u) → vertex_code g E code v = vertex_code g E code' v.
Proof. intros Hc. unfold vertex_code. by rewrite (deps_ok_ext code code' v Hc). Qed.

(** [n] levels are enough: a chain of dependencies has no repetition. *)
Lemma dag_code_unique code fuel v (below : gset nat) :
  (∀ u, (u < n)%nat → code u = vertex_code g E code u) →
  (v < n)%nat → (∀ x, x ∈ below → (x < n)%nat ∧ tc (edge vs) v x) →
  (n <= fuel + size below)%nat → dag_code g E fuel v = code v.
Proof.
  intros Hc. revert v below. induction fuel as [|fuel IH]; intros v below Hv Hb Hn.
  - exfalso. assert (size (below ∪ {[v]}) <= size (vertices g))%nat as Hle.
    { apply subseteq_size. intros x. rewrite elem_of_vertices, elem_of_union, elem_of_singleton.
      intros [Hx%Hb| ->]; tauto. }
    assert (v ∉ below) by (intros [_ Hin]%Hb; by apply (ex_acyclic v)).
    rewrite size_union, size_singleton in Hle by set_solver.
    unfold vertices in Hle. rewrite size_set_seq in Hle. lia.
  - rewrite Hc by done. apply vertex_code_ext. intros u He. destruct (edge_lt g u v He) as [Hu _].
    assert (v ∉ below) by (intros [_ Hin]%Hb; by apply (ex_acyclic v)).
    apply (IH u (below ∪ {[v]})); [done| |rewrite size_union, size_singleton by set_solver; lia].
    intros x [Hx| ->%elem_of_singleton]%elem_of_union; [|split; [done|by apply tc_once]].
    destruct (Hb x Hx). split; [done|]. by eapply tc_l.
Qed.

(** ** The codes of the vertices that have finished *)

Definition go st v : bool := has_target v && match_deps g v (_deps_results (ctx st v))
  && expect_config_ok g v (env_setting E v) && negb (env_expired E v).

Definition settled st : Prop := ∀ v, (v < n)%nat →
  match vc_phase (ctx st v) with
  | Idle | Scheduled => True
  | Running | Lost => go st v = true
  | Notifying _ _ | Finished =>
      _code (ctx st v) = (if go st v then default 0 (outcome_code g v (env_outcome E v)) else V_CODE_SKIP) ∧
      _result (ctx st v) = code_result (_code (ctx st v))
  end.

Lemma finish_ctx st v code :
  ∃ p, vc_phase (ctx (FinishVertexProcess st v code) v) = p ∧ (p = Finished ∨ p = Notifying 0 []) ∧
    _deps_results (ctx (FinishVertexProcess st v code) v) = _deps_results (ctx st v) ∧
    _code (ctx (FinishVertexProcess st v code) v) = code ∧
    _result (ctx (FinishVertexProcess st v code) v) = code_result code.
Proof.
  eexists. split; [done|]. split; [apply finish_phase|].
  unfold FinishVertexProcess, ctx. simpl. by rewrite lookup_total_insert_eq.
Qed.

Lemma settled_finish st v code :
  code = (if go st v then default 0 (outcome_code g v (env_outcome E v)) else V_CODE_SKIP) →
  let c := ctx (FinishVertexProcess st v code) v in
  match vc_phase c with
  | Idle | Scheduled => True
  | Running | Lost => go (FinishVertexProcess st v code) v = true
  | Notifying _ _ | Finished =>
      _code c = (if go (FinishVertexProcess st v code) v
                 then default 0 (outcome_code g v (env_outcome E v)) else V_CODE_SKIP) ∧
      _result c = code_result (_code c)
  end.
Proof.
  intros Hc. destruct (finish_ctx st v code) as (p & Hp & Hor & Hd & Hcode & Hr). cbv zeta.
  unfold go in *. rewrite Hp, Hd, Hcode, Hr. by destruct Hor as [-> | ->].
Qed.

Lemma step_settled st e st' :
  inv st → follows E e → exec_step g st e = Next st' → settled st → settled st'.
Proof.
  intros Hi Hf Hs Hset u Hu. destruct (decide (u = subject e)) as [->|Hne].
  2:{ destruct (step_other g st e st' u Hi Hs Hne) as [Hact Hidle]. specialize (Hset u Hu). unfold go in *.
      destruct (vc_phase (ctx st u)) eqn:Hp; try (rewrite Hact by done; by rewrite Hp).
      by destruct (Hidle eq_refl) as [-> | ->]. }
  specialize (Hset _ Hu). revert Hs. destruct e as [v cfg late|v o|v]; simpl in *;
    destruct (vc_phase (ctx st v)) as [| | | |i ready|] eqn:Hp; try done.
  - intros [= <-]. unfold VertexContext_Execute. destruct Hf as [-> ->]. fold (go st v).
    destruct (go st v) eqn:Hgo.
    + unfold go in *. by rewrite ctx_set, decide_True.
    + apply settled_finish. by rewrite Hgo.
  - intros [= <-]. subst o. destruct (outcome_code g v (env_outcome E v)) as [code|] eqn:Ho.
    + rewrite <-Ho. apply settled_finish. by rewrite Hset, Ho.
    + unfold go in *. by rewrite ctx_set, decide_True.
  - destruct (notify_step g st v i ready Hi Hu Hp) as (st1 & -> & Hn). intros [= <-]. unfold go in *.
    destruct (notify_self g st v i ready st1 Hi Hu Hp Hn) as (p & -> & [->|(r & -> & _)]); exact Hset.
Qed.

Lemma run_settled st es st' :
  run g st es st' → Forall (follows E) es → inv st → settled st → settled st'.
Proof.
  induction 1 as [|st e st1 es st2 Hs Hrun IH]; intros Hf Hi Hset; [done|].
  apply Forall_cons in Hf as [He Hf]. apply IH; [done|by eapply step_inv|by eapply step_settled].
Qed.

Lemma first_settled : settled (first_state g).
Proof. intros v Hv. by destruct (first_phase g v Hv) as [[-> _]|[-> _]]. Qed.

(** ** Results through the links *)

Lemma match_deps_codes st v :
  inv st → (v < n)%nat → (∀ u, edge vs u v → notified g st u v = true ∧ _result (ctx st u) = code_result (_code (ctx st u))) →
  match_deps g v (_deps_results (ctx st v)) = deps_ok g (λ u, _code (ctx st u)) v.
Proof.
  intros Hi Hv Hdeps.
  assert (∀ u i, deps_of g v !! u = Some i →
    _deps_results (ctx st v) !! i = Some (code_result (_code (ctx st u)))) as Hres.
  { intros u i Hui. rewrite (iv_results g st Hi u v i Hui).
    destruct (Hdeps u) as [-> ->]; [by apply edge_deps; [done|exists i]|done]. }
  unfold match_deps, deps_ok. apply eq_bool_prop_intro. rewrite !Is_true_true, !forallb_forall. split.
  - intros Hall [u i] Hin%list_elem_of_In%elem_of_map_to_list. cbn [fst snd].
    destruct (expected_of g v !! i) as [x|] eqn:Hx; [|done].
    specialize (Hall (code_result (_code (ctx st u)), x)). cbn [fst snd] in Hall.
    apply andb_prop in Hall as [_ ?]; [done|]. apply list_elem_of_In, list_elem_of_lookup.
    exists i. apply lookup_zip_Some. split; [by apply Hres|done].
  - intros Hall [r x] Hin%list_elem_of_In. apply list_elem_of_lookup in Hin as [i [Hr Hx]%lookup_zip_Some].
    cbn [fst snd]. destruct (deps_surj g v i) as [u Hui].
    { rewrite <-(iv_length g st Hi v Hv). by eapply lookup_lt_Some. }
    rewrite (Hres u i Hui) in Hr. injection Hr as <-.
    specialize (Hall (u, i)). cbn [fst snd] in Hall. rewrite Hx in Hall.
    rewrite Hall by (by apply list_elem_of_In, elem_of_map_to_list). unfold code_result.
    by destruct (0 =? _).
Qed.

(** In a complete run every vertex has the code its dependencies give it. *)
Lemma complete_code st v :
  inv st → settled st → complete g st → (v < n)%nat →
  _code (ctx st v) = vertex_code g E (λ u, _code (ctx st u)) v ∧
  _result (ctx st v) = code_result (_code (ctx st v)).
Proof.
  intros Hi Hset Hc Hv. assert (∀ u, (u < n)%nat → _result (ctx st u) = code_result (_code (ctx st u))) as Hres.
  { intros u Hu. specialize (Hset u Hu). rewrite (Hc u Hu) in Hset. apply Hset. }
  split; [|by apply Hres]. pose proof (Hset v Hv) as Hs. rewrite (Hc v Hv) in Hs. destruct Hs as [-> _].
  unfold vertex_code, go. rewrite match_deps_codes; [done..|].
  intros u He. destruct (edge_lt g u v He) as [Hu _]. split; [|by apply Hres].
  unfold notified, told. rewrite (Hc u Hu), take_ge by done. apply bool_decide_eq_true_2. by apply succs_edge.
Qed.
End results.

(** * What didagle promises of a graph that was built

    The theorems here are about the states a run reaches from
    [GraphContext::Setup] and [GraphContext::Execute], for every order of the
    steps, and about the composition with [Graph::Build]. *)

Open Scope Z_scope.

Section properties.
Context `{UnorderedLaws, !VertexKinds}.
Implicit Types (st : GraphContext) (u v w s : nat) (e : event).

Lemma schedules_start l st : _start_ctxs (foldl schedule st l) = _start_ctxs st.
Proof. revert st. induction l as [|v l IH]; intros st0; [done|]. simpl. by rewrite IH. Qed.

Lemma run_start_ctxs g st es st' : run g st es st' → _start_ctxs st' = _start_ctxs st.
Proof.
  induction 1 as [|st e st1 es st2 Hs _ IH]; [done|]. rewrite IH. clear IH. revert Hs.
  destruct e as [v cfg late|v o|v]; simpl; destruct (vc_phase (ctx st v)); try done.
  - intros [= <-]. unfold VertexContext_Execute. by destruct (_ && _ && _ && _).
  - intros [= <-]. by destruct (outcome_code g v o).
  - unfold OnVertexDone_step. repeat case_match; try done; intros [= <-]; simpl;
      rewrite ?schedules_start; done.
Qed.

Lemma link_graph_length cl name confs g :
  link_graph cl (script_graph name confs) = Some g → (g_declared g <= length (g_vertex g))%nat.
Proof.
  unfold link_graph. destruct (prepare_vertices _ _ _) as [st|] eqn:Ep; [|done]. cbn [mbind option_bind].
  apply (prepare_vertices_named (length confs)) in Ep; [|done|by apply script_named].
  destruct Ep as [Hd Hl Hu Hn Ht]. set (g0 := bs_graph st) in *.
  destruct (build_vertices _ _ _ _ _) as [vs|] eqn:Eb; [|done]. cbn [mbind option_bind]. intros [= <-].
  apply build_vertices_adds in Eb as [Len _ _ _].
  - simpl. rewrite Len. lia.
  - intros id v (_ & x & Hx & _)%Hn. by eapply lookup_lt_Some.
  - intros id v (_ & x & d & Hx & _)%Ht. by eapply lookup_lt_Some.
  - apply Forall_forall. intros i Hi%elem_of_seq. lia.
Qed.

(** What the executor needs of a graph is what [Build] ensures, when no
    generated name hides a vertex. *)
Lemma built_executable fuel cl name confs g :
  Graph_Build fuel cl (script_graph name confs) = Built g →
  (∀ v, (v < length (g_vertex g))%nat → known g v) → Z.of_nat (length (g_vertex g)) < 2 ^ 32 →
  Executable g.
Proof.
  intros Hb Hk Hsz. pose proof Hb as (Hl & _ & Ht)%Built_inv.
  pose proof (link_graph_length _ _ _ _ Hl) as Hlen. apply link_graph_spec in Hl as (Hlk & _ & Hn & _).
  split; [done|done| | | |done].
  - intros v [id Hid]. apply Hn in Hid as (x & Hx & _). by eapply lookup_lt_Some.
  - intros v Hc. assert (v < length (g_vertex g))%nat as Hv by (by eapply tc_range).
    by destruct (TestCircle_false _ _ _ Ht (Hk v Hv)).
  - intros He. unfold Graph_Build in Hb. destruct (link_graph _ _) as [g1|]; [|done].
    destruct (forallb _ _); [|done]. cbn [negb] in Hb. destruct (TestCircle fuel g1) as [[]|]; try done.
    destruct (bool_decide_reflect (_nodes g1 = ∅)) as [_|Hne]; simpl in Hb.
    + destruct (Nat.eqb_spec (length (g_vertex g1)) (g_declared g1)) as [_|Hd]; [done|].
      injection Hb as <-. rewrite He in Hd, Hlen. simpl in *. lia.
    + injection Hb as <-. apply Hne, map_empty. intros id. destruct (_nodes g1 !! id) as [v|] eqn:E; [|done].
      apply Hn in E as (x & Hx & _). by rewrite He, lookup_nil in Hx.
Qed.

Context `{!ProcessorSetup} (g : Graph) `{!Executable g} (cl : ClusterConf).
Abbreviation n := (length (g_vertex g)).

Lemma setup_done st0 dis data : GraphContext_Setup g cl = Done (st0, dis, data) → st0 = setup_state g.
Proof. destruct (setup_cases g cl) as [(_ & ? & ? & -> & _)|[_ ->]]; [by intros [= <- _ _]|done]. Qed.

Lemma reached_inv st0 dis data es st :
  GraphContext_Setup g cl = Done (st0, dis, data) → run g (GraphContext_Execute st0) es st → DagExecSpec.inv g st.
Proof. intros ->%setup_done Hr. exact (run_inv g _ _ _ Hr (first_inv g)). Qed.

(** Setting up the contexts of a graph does not abort, and no step of any run
    does: no successor is without context, no result is stored out of the range
    of the results a vertex keeps. *)
Theorem run_safe :
  GraphContext_Setup g cl ≠ Crash ∧
  ∀ st0 dis data es st e, GraphContext_Setup g cl = Done (st0, dis, data) →
    run g (GraphContext_Execute st0) es st → exec_step g st e ≠ Undefined.
Proof.
  split; [by destruct (setup_cases g cl) as [(_ & ? & ? & -> & _)|[_ ->]]|].
  intros st0 dis data es st e Hs Hr. apply (step_defined g). exact (reached_inv st0 dis data es st Hs Hr).
Qed.

(** C14. In every state of a run, a vertex that has been scheduled has all its
    dependencies finished, and holds the final result of each of them at the
    index [Build] gave it. *)
Theorem run_in_order st0 dis data es st v w i :
  GraphContext_Setup g cl = Done (st0, dis, data) → run g (GraphContext_Execute st0) es st →
  vc_phase (ctx st w) ≠ Idle → deps_of g w !! v = Some i →
  unfinished st v = false ∧ _result (ctx st v) ≠ V_RESULT_INVALID ∧
  _deps_results (ctx st w) !! i = Some (_result (ctx st v)).
Proof.
  intros Hs Hr Hp Hd. pose proof (reached_inv st0 dis data es st Hs Hr) as Hi.
  assert (edge (g_vertex g) v w) as He by (apply edge_deps; [done|by exists i]).
  destruct (edge_lt g v w He) as [Hv Hw]. pose proof (iv_started g st Hi w Hw Hp) as Hpend.
  assert (notified g st v w = true) as Hn.
  { destruct (notified g st v w) eqn:E; [done|]. assert (v ∈ pending g st w); [|set_solver].
    by apply elem_of_pending. }
  assert (unfinished st v = false) as Hu.
  { unfold notified, told in Hn. unfold unfinished. destruct (vc_phase (ctx st v)); try done;
      by apply bool_decide_eq_true_1, elem_of_nil in Hn. }
  split_and!; [done| |by rewrite (iv_results g st Hi v w i Hd), Hn].
  rewrite (iv_result g st Hi v Hv), Hu. done.
Qed.

(** The closure [done] is called once in a run, when the last vertex
    finishes: before that it has not been called, and from then on no vertex is
    waiting, scheduled or running, and the threads that are still in
    [OnVertexDone] have nobody left to tell and nothing left to start. *)
Theorem run_done_once st0 dis data es st :
  GraphContext_Setup g cl = Done (st0, dis, data) → run g (GraphContext_Execute st0) es st →
  done_calls st = [] ∧ (∃ v, (v < n)%nat ∧ unfinished st v = true) ∨
  done_calls st = [0] ∧ ∀ v, (v < n)%nat →
    vc_phase (ctx st v) = Finished ∨ vc_phase (ctx st v) = Notifying (length (succs g v)) [].
Proof.
  intros Hs Hr. pose proof (reached_inv st0 dis data es st Hs Hr) as Hi.
  rewrite (iv_done g st Hi). destruct (Z.eqb_spec (_join_vertex_num st) 0) as [Hj|Hj].
  - right. split; [done|]. intros v Hv. by apply finished_quiet.
  - left. split; [done|]. rewrite (iv_join g st Hi) in Hj.
    destruct (set_choose_or_empty (unfinished_set g st)) as [[v Hv]|He].
    + exists v. by apply elem_of_unfinished in Hv.
    + apply leibniz_equiv in He. by rewrite He in Hj.
Qed.


(** C13. A future or coroutine that fails blocks the run for ever: in every
    state of the run from then on its vertex has not finished, no vertex that
    depends on it, directly or not, has been scheduled, and [done] has not been
    called. *)
Theorem failed_future_blocks st0 dis data es st v :
  GraphContext_Setup g cl = Done (st0, dis, data) → run g (GraphContext_Execute st0) es st →
  Return v FutureFailed ∈ es →
  vc_phase (ctx st v) = Lost ∧ (∀ w, tc (edge (g_vertex g)) v w → vc_phase (ctx st w) = Idle) ∧
  done_calls st = [].
Proof.
  intros Hs Hr Hin. pose proof (reached_inv st0 dis data es st Hs Hr) as Hi. apply setup_done in Hs as ->.
  assert (vc_phase (ctx st v) = Lost) as Hl by (apply (lost_run g _ _ _ v Hr (first_inv g)); by right).
  split_and!; [done|intros w Hw; by eapply (lost_below g st v w)|by apply (lost_done g st v)].
Qed.

(** C33. Every run ends: whatever the order, it has at most three steps for each
    vertex and one for each link between two vertices. *)
Theorem run_ends st0 dis data es st :
  GraphContext_Setup g cl = Done (st0, dis, data) → run g (GraphContext_Execute st0) es st →
  (length es <= sum_list ((λ v, length (succs g v) + 3)%nat <$> seq 0 n))%nat.
Proof.
  intros ->%setup_done Hr. rewrite <-(first_measure g).
  pose proof (run_measure g _ _ _ Hr (first_inv g)). unfold first_state. lia.
Qed.

(** C3. The codes of a complete run do not depend on the order of its steps:
    they are the codes [dag_code] computes by recursion on the dependencies,
    for the settings, deadlines and outcomes of the run. *)
Theorem run_refines (E : environment) st0 dis data es st v :
  GraphContext_Setup g cl = Done (st0, dis, data) → run g (GraphContext_Execute st0) es st →
  Forall (follows E) es → complete g st → (v < n)%nat →
  _code (ctx st v) = dag_code g E n v ∧ _result (ctx st v) = code_result (dag_code g E n v).
Proof.
  intros Hs Hr Hf Hc Hv. pose proof (reached_inv st0 dis data es st Hs Hr) as Hi.
  assert (settled g E st) as Hset.
  { apply setup_done in Hs as ->.
    exact (run_settled g E _ _ _ Hr Hf (first_inv g) (first_settled g E)). }
  destruct (complete_code g E st v Hi Hset Hc Hv) as [_ ->].
  rewrite (dag_code_unique g E (λ u, _code (ctx st u)) n v ∅); [done| |done|set_solver|lia].
  intros u Hu. by apply complete_code.
Qed.

(** Resetting a graph context restores the state after the setup, whatever
    the run before it did, so a pooled context can be run again. *)
Theorem Reset_restores st0 dis data es st :
  GraphContext_Setup g cl = Done (st0, dis, data) → run g (GraphContext_Execute st0) es st →
  GraphContext_Reset g st = st0.
Proof.
  intros Hs Hr. pose proof (reached_inv st0 dis data es st Hs Hr) as Hi.
  apply run_start_ctxs in Hr. apply setup_done in Hs as ->.
  assert (dom (_vertex_context_table st) = dom (setup_table g)) as Hd.
  { rewrite (setup_dom g). apply set_eq. intros v. rewrite elem_of_dom, <-(iv_dom g st Hi). by rewrite elem_of_vertices. }
  unfold GraphContext_Reset, setup_state. f_equal.
  - apply map_eq. intros v. rewrite !map_lookup_imap.
    assert (is_Some (_vertex_context_table st !! v) ↔ is_Some (setup_table g !! v)) as Hsome
      by (by rewrite <-!elem_of_dom, Hd).
    destruct (_vertex_context_table st !! v) as [c|] eqn:E.
    + destruct (setup_table g !! v) as [c'|]; [|by destruct (proj1 Hsome)]. simpl. f_equal.
      assert (v < n)%nat as Hv by (apply (iv_dom g st Hi); by exists c).
      assert (ctx st v = c) as Hc by (unfold ctx; by rewrite lookup_total_alt, E).
      unfold VertexContext_Reset, fresh_ctx. rewrite <-Hc.
      by rewrite (iv_succ g st Hi v Hv), (iv_idx g st Hi v Hv).
    + destruct (setup_table g !! v); [by destruct (proj2 Hsome)|done].
  - by rewrite <-!size_dom, Hd.
  - rewrite Hr. unfold GraphContext_Execute. by rewrite schedules_start.
Qed.
End properties.

Section composition.
Context `{UnorderedLaws, !VertexKinds, !ProcessorSetup}.

(** C2. A graph that was built can be set up and run.  When no name hides a
    vertex and there are fewer than 2^32 vertices, [GraphContext::Setup] does
    not abort; it returns -1 exactly when a vertex refuses its setup or two
    outputs have the same name and type.  Otherwise there is a run to the end
    for every environment in which no future fails, and that run calls [done]
    once and gives every vertex the code of [dag_code]. *)
Theorem built_graph_runs fuel cl name confs g :
  Graph_Build fuel cl (script_graph name confs) = Built g →
  (∀ v, (v < length (g_vertex g))%nat → known g v) → Z.of_nat (length (g_vertex g)) < 2 ^ 32 →
  GraphContext_Setup g cl ≠ Crash ∧
  (GraphContext_Setup g cl = Failure ↔
    (∃ v x, g_vertex g !! v = Some x ∧ VertexContext_Setup cl (v_conf x) = None) ∨
    ¬ NoDup (keys_of g cl (node_order (_nodes g)))) ∧
  ∀ st0 dis data (E : environment), GraphContext_Setup g cl = Done (st0, dis, data) → answers E →
    ∃ es st, run g (GraphContext_Execute st0) es st ∧ Forall (follows E) es ∧
      complete g st ∧ done_calls st = [0] ∧
      ∀ v, (v < length (g_vertex g))%nat → _code (ctx st v) = dag_code g E (length (g_vertex g)) v.
Proof.
  intros Hb Hk Hsz. pose proof (built_executable _ _ _ _ _ Hb Hk Hsz) as Hex. split_and!.
  - by destruct (setup_cases g cl) as [(_ & ? & ? & -> & _)|[_ ->]].
  - rewrite <-not_setup_accepts. by destruct (setup_cases g cl) as [(? & ? & ? & -> & _)|[? ->]].
  - intros st0 dis data E ->%setup_done Ha; [|done].
    destruct (run_to_end g E (first_state g) Ha (first_inv g) (first_not_lost g)) as (es & st & Hr & Hf & Hc).
    exists es, st. pose proof (run_inv g _ _ _ Hr (first_inv g)) as Hi.
    pose proof (run_settled g E _ _ _ Hr Hf (first_inv g) (first_settled g E)) as Hset.
    split_and!; [done..|by apply (complete_done g)|]. intros v Hv.
    rewrite (dag_code_unique g E (λ u, _code (ctx st u)) _ v ∅); [done| |done|set_solver|lia].
    intros u Hu. by apply complete_code.
Qed.
End composition.
