(* ===== verification/DagWitness.v ===== *)
(** * DagWitness: the theorems about graphs at a concrete script

    Four declared vertices and a generated one: [load] gives the data [x] that
    [rank] and [fill] read, [rank] runs only when the expression [enabled] holds,
    [fill] when [rank] failed, [save] after both. *)

From stdpp Require Import relations.
From S2P Require Import Prelude DagGraph DagGraphSpec DagData DagInject DagExec DagExecSpec DagRuns DagProperties.
Open Scope string_scope.
Open Scope Z_scope.

(** ** A runtime *)

(** A plain input or output of type 1. *)
Definition demo_field (name : string) : FieldInfo :=
  {| fi_name := name; fi_id := 1; fi_shared := false; fi_is_extern := false; fi_is_aggregate := false;
     fi_is_in_out := false |}.

#[export] Instance demo_runtime : Runtime := {|
  GetProcessor := λ p,
    if bool_decide (p = "load") then Some {| pi_inputs := []; pi_outputs := [demo_field "x"] |}
    else if bool_decide (p = "rank") then Some {| pi_inputs := [demo_field "x"]; pi_outputs := [] |}
    else if bool_decide (p = "save") then Some {| pi_inputs := []; pi_outputs := [] |}
    else if bool_decide (p = "expr") then Some {| pi_inputs := []; pi_outputs := [demo_field "hit"] |}
    else None;
  set_order := elements;
  node_order := map_to_list;
|}.

#[export] Instance demo_laws : UnorderedLaws.
Proof. split; intros; reflexivity. Qed.

#[export] Instance demo_kinds : VertexKinds :=
  {| has_target := λ _, true; has_processor := λ _, true; isIOProcessor := λ v, (v =? 1)%nat |}.

(** Every processor is set up, apart from that of the vertex [broken]. *)
#[export] Instance demo_setups : ProcessorSetup :=
  {| expr_setup := λ _ _, true; processor_setup := λ c, negb (bool_decide (v_id c = "broken")) |}.

(** ** A script *)

Definition demo_cluster : ClusterConf :=
  {| c_name := "demo.toml"; c_strict_dsl := true; c_default_expr_processor := "expr"; c_config_setting := ["night"] |}.

Definition demo_conf (id processor expect expect_config : string) (ignore : bool) (refs : VertexRefs) : VertexConf :=
  {| v_id := id; v_is_id_generated := false; v_processor := processor; v_select_args := []; v_cond := "";
     v_expect := expect; v_expect_deps := ∅; v_expect_config := expect_config; v_is_start := false;
     v_cluster := ""; v_graph := ""; v_while_cluster := ""; v_ignore_processor_execute_error := ignore;
     v_refs := refs; v_input := []; v_output := [] |}.

Definition demo_refs (ok err : gset string) (next : gset string) : VertexRefs :=
  {| successor := next; successor_on_ok := ∅; successor_on_err := ∅; consequent := ∅; alternative := ∅;
     deps := ∅; deps_on_ok := ok; deps_on_err := err |}.

Definition demo_script : list VertexConf :=
  [demo_conf "" "load" "" "" true (demo_refs ∅ ∅ ∅);
   demo_conf "rank" "rank" "enabled" "" false (demo_refs {["load"]} ∅ {["save"]});
   demo_conf "fill" "rank" "" "!night" true (demo_refs ∅ {["rank"]} {["save"]});
   demo_conf "save" "save" "" "" true (demo_refs ∅ ∅ ∅)].

Definition demo_empty : Graph :=
  {| g_name := ""; g_vertex := []; g_declared := 0; _nodes := ∅; _data_mapping_table := ∅; _idx := 0 |}.

Definition demo : Graph :=
  match Graph_Build 10 demo_cluster (script_graph "g" demo_script) with Built g => g | _ => demo_empty end.

Lemma demo_built : Graph_Build 10 demo_cluster (script_graph "g" demo_script) = Built demo.
Proof. vm_compute. reflexivity. Qed.

Lemma demo_known v : (v < length (g_vertex demo))%nat → known demo v.
Proof.
  intros Hv. exists (default "" (["load"; "rank"; "fill"; "save"; "g_0"] !! v)). revert v Hv.
  do 5 (intros [|v]; [intros _; vm_compute; reflexivity|]; revert v).
  intros v Hv. exfalso. revert Hv. change (length (g_vertex demo)) with 5%nat. lia.
Qed.

#[export] Instance demo_executable : Executable demo.
Proof. apply (built_executable 10 demo_cluster "g" demo_script demo demo_built demo_known). reflexivity. Qed.

(** ** A run: [rank] fails, [fill] takes its place *)

Definition demo_env : environment :=
  {| env_setting := λ v, if (v =? 2)%nat then Some false else None; env_expired := λ _, false;
     env_outcome := λ v, if (v =? 1)%nat then Returned 7 else if (v =? 3)%nat then Threw else Returned 0 |}.

Definition demo_contexts_of (g : Graph) : GraphContext * gmap nat ProcessorDI * GraphDataContext :=
  match GraphContext_Setup g demo_cluster with
  | Done r => r
  | _ => ({| _vertex_context_table := ∅; _join_vertex_num := 0; _start_ctxs := []; done_calls := [] |}, ∅,
          new_GraphDataContext)
  end.
Definition demo_start : GraphContext := (demo_contexts_of demo).1.1.
Definition demo_fields : gmap nat ProcessorDI := (demo_contexts_of demo).1.2.
Definition demo_data : GraphDataContext := (demo_contexts_of demo).2.

Definition demo_events : list event :=
  [Start 0 None false; Return 0 (Returned 0); Notify 0; Notify 0; Notify 0; Notify 0;
   Start 4 None false; Return 4 (Returned 0); Notify 4;
   Start 1 None false; Return 1 (Returned 7); Notify 1; Notify 1; Notify 1;
   Start 2 (Some false) false; Return 2 (Returned 0); Notify 2;
   Start 3 None false; Return 3 Threw].

Definition run_of (g : Graph) (es : list event) : GraphContext :=
  match exec_all g (GraphContext_Execute demo_start) es with Next st => st | _ => demo_start end.

Lemma exec_all_run g st es st' : exec_all g st es = Next st' → run g st es st'.
Proof.
  revert st. induction es as [|e es IH]; intros st; simpl; [intros [= ->]; constructor|].
  destruct (exec_step g st e) as [| |st1] eqn:E; try done. intros Hr. econstructor; [done|by apply IH].
Qed.

Definition demo_end : GraphContext := run_of demo demo_events.
Definition demo_middle : GraphContext := run_of demo (take 15 demo_events).

Lemma demo_set_up : GraphContext_Setup demo demo_cluster = Done (demo_start, demo_fields, demo_data).
Proof. vm_compute. reflexivity. Qed.
Lemma demo_runs : run demo (GraphContext_Execute demo_start) demo_events demo_end.
Proof. apply exec_all_run. vm_compute. reflexivity. Qed.
Lemma demo_half : run demo (GraphContext_Execute demo_start) (take 15 demo_events) demo_middle.
Proof. apply exec_all_run. vm_compute. reflexivity. Qed.
Lemma demo_follows : Forall (follows demo_env) demo_events.
Proof. unfold demo_events, demo_env. repeat constructor. Qed.

Lemma demo_complete : complete demo demo_end.
Proof.
  intros v Hv. change (length (g_vertex demo)) with 5%nat in Hv.
  do 5 (destruct v as [|v]; [vm_compute; reflexivity|]). lia.
Qed.

(** ** Graphs *)


Lemma Graph_Build_complete_witness :
  ∃ n, ∀ fuel, (n <= fuel)%nat → Graph_Build fuel demo_cluster (script_graph "g" demo_script) = Built demo.
Proof.
  apply (Graph_Build_complete demo_cluster "g" demo_script demo);
    [vm_compute; reflexivity|vm_compute; reflexivity|vm_compute; discriminate|apply ex_acyclic].
Defined.

(** A vertex [c] that leads to the cycle of [a] and [b]. *)
Definition loop_script : list VertexConf :=
  [demo_conf "c" "save" "" "" true (demo_refs ∅ ∅ {["a"]});
   demo_conf "a" "save" "" "" true (demo_refs ∅ ∅ {["b"]});
   demo_conf "b" "save" "" "" true (demo_refs ∅ ∅ {["a"]})].
Definition loop : Graph := default demo_empty (link_graph demo_cluster (script_graph "g" loop_script)).

Lemma loop_edge v w : w ∈ elements (successors_of (g_vertex loop) v) → edge (g_vertex loop) v w.
Proof. apply elem_of_elements. Qed.

Lemma loop_no_way_back v : ¬ tc (edge (g_vertex loop)) v 0%nat.
Proof.
  intros Hc. remember 0%nat as w eqn:Hw. induction Hc as [x y He|]; [subst y|by auto].
  unfold edge in He. apply elem_of_elements in He. destruct x as [|[|[|x]]]; vm_compute in He; set_solver.
Qed.

Lemma TestCircle_diverges_witness :
  TestCircle 1000 loop = None ∧ Graph_Build 1000 demo_cluster (script_graph "g" loop_script) = Unfinished.
Proof.
  split; [|vm_compute; reflexivity].
  apply (TestCircle_diverges loop "c" 0 [("a", 1%nat); ("b", 2%nat)] 1).
  - vm_compute. reflexivity.
  - apply loop_no_way_back.
  - apply rtc_once, loop_edge. vm_compute. left.
  - apply (tc_l _ _ 2%nat); [|apply tc_once]; apply loop_edge; vm_compute; left.
Defined.

(** ** A generated name hides a vertex *)

Definition hidden_script : list VertexConf :=
  [demo_conf "load" "load" "" "" true (demo_refs ∅ ∅ ∅);
   demo_conf "g_0" "rank" "" "" true (demo_refs ∅ ∅ ∅);
   demo_conf "save" "save" "enabled" "" true (demo_refs {["load"]} ∅ ∅)].
Definition hidden : Graph :=
  match Graph_Build 10 demo_cluster (script_graph "g" hidden_script) with Built g => g | _ => demo_empty end.

(** The name generated for the vertex of a condition is not checked against
    the names of the script: here it takes the place of the declared vertex
    [g_0] in the table of names.  The graph is built without an error, but the
    hidden vertex gets no context, and since it is a successor of [load],
    setting up the contexts aborts the program. *)
Theorem hidden_vertex_aborts :
  Graph_Build 10 demo_cluster (script_graph "g" hidden_script) = Built hidden ∧
  v_id ∘ v_conf <$> g_vertex hidden !! 1%nat = Some "g_0" ∧ FindVertexById hidden "g_0" = Some 3%nat ∧
  GraphContext_Setup hidden demo_cluster = Crash.
Proof. vm_compute. split_and!; reflexivity. Qed.

(** ** Runs *)

Lemma run_safe_witness :
  GraphContext_Setup demo demo_cluster ≠ Crash ∧ ∀ e, exec_step demo demo_end e ≠ Undefined.
Proof.
  destruct (run_safe demo demo_cluster) as [Hc Hs]. split; [exact Hc|].
  intros e. exact (Hs _ _ _ _ _ e demo_set_up demo_runs).
Defined.

Lemma run_in_order_witness :
  vc_phase (ctx demo_middle 2) = Running ∧ unfinished demo_middle 1 = false ∧
  _deps_results (ctx demo_middle 2) !! 0%nat = Some V_RESULT_ERR.
Proof.
  split; [vm_compute; reflexivity|].
  destruct (run_in_order demo demo_cluster demo_start demo_fields demo_data (take 15 demo_events) demo_middle 1 2 0 demo_set_up demo_half)
    as (Hu & _ & Hr); [vm_compute; discriminate|vm_compute; reflexivity|].
  split; [exact Hu|]. rewrite Hr. vm_compute. reflexivity.
Defined.

Lemma run_done_once_witness :
  done_calls demo_middle = [] ∧ done_calls demo_end = [0] ∧
  ∀ v, (v < length (g_vertex demo))%nat →
    vc_phase (ctx demo_end v) = Finished ∨ vc_phase (ctx demo_end v) = Notifying (length (succs demo v)) [].
Proof.
  split; [vm_compute; reflexivity|].
  destruct (run_done_once demo demo_cluster demo_start demo_fields demo_data demo_events demo_end demo_set_up demo_runs) as [[Hd _]|Hd]; [|exact Hd].
  vm_compute in Hd. discriminate.
Defined.


Lemma run_ends_witness : length demo_events = 19%nat ∧
  (length demo_events <= sum_list ((λ v, length (succs demo v) + 3)%nat <$> seq 0 (length (g_vertex demo))))%nat.
Proof. split; [reflexivity|]. exact (run_ends demo demo_cluster demo_start demo_fields demo_data demo_events demo_end demo_set_up demo_runs). Defined.

Lemma run_refines_witness :
  _code (ctx demo_end 1) = 7 ∧ _code (ctx demo_end 1) = dag_code demo demo_env (length (g_vertex demo)) 1.
Proof.
  split; [vm_compute; reflexivity|].
  apply (run_refines demo demo_cluster demo_env demo_start demo_fields demo_data demo_events demo_end 1 demo_set_up demo_runs
           demo_follows demo_complete). vm_compute. lia.
Defined.

Lemma Reset_restores_witness : GraphContext_Reset demo demo_end = demo_start.
Proof. exact (Reset_restores demo demo_cluster demo_start demo_fields demo_data demo_events demo_end demo_set_up demo_runs). Defined.

(** A script with two conditions, whose generated vertices both publish [hit],
    and one where a processor is not set up: the graphs are built, and their
    setup fails. *)
Definition script_graph_of (confs : list VertexConf) : Graph :=
  match Graph_Build 10 demo_cluster (script_graph "g" confs) with Built g => g | _ => demo_empty end.
Definition twice : Graph := script_graph_of (demo_conf "again" "save" "other" "" true (demo_refs ∅ ∅ ∅) :: demo_script).
Definition refused : Graph := script_graph_of (demo_conf "broken" "save" "" "" true (demo_refs {["load"]} ∅ ∅) :: demo_script).

Example setup_failures :
  length (g_vertex twice) = 7%nat ∧ GraphContext_Setup twice demo_cluster = Failure ∧
  length (g_vertex refused) = 6%nat ∧ GraphContext_Setup refused demo_cluster = Failure.
Proof. vm_compute. split_and!; reflexivity. Qed.

Lemma built_graph_runs_witness :
  GraphContext_Setup demo demo_cluster = Done (demo_start, demo_fields, demo_data) ∧
  ∃ es st, run demo (GraphContext_Execute demo_start) es st ∧
    Forall (follows demo_env) es ∧ complete demo st ∧ done_calls st = [0] ∧
    ∀ v, (v < length (g_vertex demo))%nat → _code (ctx st v) = dag_code demo demo_env (length (g_vertex demo)) v.
Proof.
  split; [exact demo_set_up|].
  destruct (built_graph_runs 10 demo_cluster "g" demo_script demo demo_built demo_known eq_refl) as (_ & _ & Hr).
  apply (Hr demo_start demo_fields demo_data demo_env demo_set_up).
  intros v. unfold demo_env. simpl. by destruct (v =? 1)%nat, (v =? 3)%nat.
Defined.

(** The future of [rank] fails: [fill] and [save] are never started. *)
Definition lost_events : list event := take 10 demo_events ++ [Return 1 FutureFailed].
Definition lost_end : GraphContext := run_of demo lost_events.

Lemma lost_runs : run demo (GraphContext_Execute demo_start) lost_events lost_end.
Proof. apply exec_all_run. vm_compute. reflexivity. Qed.

Lemma failed_future_blocks_witness :
  vc_phase (ctx lost_end 1) = Lost ∧ vc_phase (ctx lost_end 2) = Idle ∧ vc_phase (ctx lost_end 3) = Idle ∧
  done_calls lost_end = [].
Proof.
  assert (∀ v w, w ∈ elements (successors_of (g_vertex demo) v) → edge (g_vertex demo) v w) as He
    by (intros v w; apply elem_of_elements).
  destruct (failed_future_blocks demo demo_cluster demo_start demo_fields demo_data lost_events lost_end 1
              demo_set_up lost_runs) as (Hl & Hw & Hd).
  - unfold lost_events. apply elem_of_app. right. left.
  - split_and!; [exact Hl|apply Hw, tc_once, He; vm_compute; left| |exact Hd].
    apply Hw. apply (tc_l _ _ 2%nat); [|apply tc_once]; apply He; vm_compute; left.
Defined.
