(* ===== verification/DagParams.v ===== *)
(** * DagParams: the parameters of a graph (didagle: graph_params.cpp, graph_data.cpp)

    A [Params] object is a scalar, a table of members or an array, and may have
    a parent where members it does not have are looked up.  Members, elements
    and parents are references, so the objects live in a store; a reference is
    an address.  The two static objects for "no such member" are the address
    [default_value], which no operation writes to.

    Lookups along the parents and the loop of [GetVar] have no bound in the
    source; they run on fuel here, and [None] says that it ran out. *)

From Stdlib Require Import Ascii.
From stdpp Require Import pretty.
From S2P Require Import Prelude.
Open Scope string_scope.
Open Scope list_scope.
Open Scope Z_scope.

(** ** Data *)

Inductive ParamValueType :=
| PARAM_INVALID | PARAM_STRING | PARAM_INT | PARAM_DOUBLE | PARAM_BOOL | PARAM_OBJECT | PARAM_ARRAY.

#[export] Instance ParamValueType_eq_dec : EqDecision ParamValueType.
Proof. solve_decision. Defined.

(** [dv] holds the bits of the double. *)
Record Params := {
  _param_type : ParamValueType;
  str : string;
  iv : Z;
  dv : Z;
  bv : bool;
  invalid : bool;
  params : gmap string nat;
  param_array : list nat;
  parent : option nat;
}.

Record store := { objects : gmap nat Params; next : nat }.

Definition new_Params (invalid_ : bool) : Params :=
  {| _param_type := PARAM_INVALID; str := ""; iv := 0; dv := 0; bv := false; invalid := invalid_;
     params := ∅; param_array := []; parent := None |}.

Definition default_value : nat := 0.
Definition empty_store : store := {| objects := {[default_value := new_Params true]}; next := 1 |}.

Definition obj (h : store) (a : nat) : Params := default (new_Params true) (objects h !! a).
Definition update (h : store) (a : nat) (f : Params → Params) : store :=
  {| objects := alter f a (objects h); next := next h |}.
Definition alloc (h : store) (p : Params) : nat * store :=
  (next h, {| objects := <[next h := p]> (objects h); next := S (next h) |}).

(** ** Fields *)

Definition with_type (t : ParamValueType) (p : Params) : Params :=
  {| _param_type := t; str := str p; iv := iv p; dv := dv p; bv := bv p; invalid := invalid p;
     params := params p; param_array := param_array p; parent := parent p |}.
Definition with_str (s : string) (p : Params) : Params :=
  {| _param_type := _param_type p; str := s; iv := iv p; dv := dv p; bv := bv p; invalid := invalid p;
     params := params p; param_array := param_array p; parent := parent p |}.
Definition with_bool (b : bool) (p : Params) : Params :=
  {| _param_type := _param_type p; str := str p; iv := iv p; dv := dv p; bv := b; invalid := invalid p;
     params := params p; param_array := param_array p; parent := parent p |}.
Definition with_member (name : string) (a : nat) (p : Params) : Params :=
  {| _param_type := _param_type p; str := str p; iv := iv p; dv := dv p; bv := bv p; invalid := invalid p;
     params := <[name := a]> (params p); param_array := param_array p; parent := parent p |}.
Definition with_array (l : list nat) (p : Params) : Params :=
  {| _param_type := _param_type p; str := str p; iv := iv p; dv := dv p; bv := bv p; invalid := invalid p;
     params := params p; param_array := l; parent := parent p |}.
Definition with_parent (q : option nat) (p : Params) : Params :=
  {| _param_type := _param_type p; str := str p; iv := iv p; dv := dv p; bv := bv p; invalid := invalid p;
     params := params p; param_array := param_array p; parent := q |}.

Definition Valid (p : Params) : bool := negb (invalid p).
Definition has_type (t : ParamValueType) (p : Params) : bool :=
  if invalid p then false else bool_decide (_param_type p = t).
Definition IsBool (p : Params) : bool := has_type PARAM_BOOL p.
Definition IsString (p : Params) : bool := has_type PARAM_STRING p.
Definition IsDouble (p : Params) : bool := has_type PARAM_DOUBLE p.
Definition IsInt (p : Params) : bool := has_type PARAM_INT p.
Definition IsObject (p : Params) : bool := has_type PARAM_OBJECT p.
Definition IsArray (p : Params) : bool := has_type PARAM_ARRAY p.

Definition SetString (v : string) (p : Params) : Params := with_type PARAM_STRING (with_str v p).
Definition SetInt (v : Z) (p : Params) : Params :=
  {| _param_type := PARAM_INT; str := str p; iv := v; dv := dv p; bv := bv p; invalid := invalid p;
     params := params p; param_array := param_array p; parent := parent p |}.
Definition SetDouble (d : Z) (p : Params) : Params :=
  {| _param_type := PARAM_DOUBLE; str := str p; iv := iv p; dv := d; bv := bv p; invalid := invalid p;
     params := params p; param_array := param_array p; parent := parent p |}.
Definition SetBool (v : bool) (p : Params) : Params := with_type PARAM_BOOL (with_bool v p).

Definition Params_Size (p : Params) : nat :=
  if (0 <? size (params p))%nat then size (params p) else length (param_array p).

(** The type is left as it was. *)
Definition BuildFromString (v : string) (p : Params) : Params :=
  if invalid p then p
  else if bool_decide (v = "true") then with_bool true (with_str v p)
  else if bool_decide (v = "false") then with_bool false (with_str v p)
  else with_str v p.

(** ** Lookup *)

Fixpoint Params_Get (fuel : nat) (h : store) (self : nat) (name : string) : option nat :=
  match fuel with
  | O => None
  | S fuel =>
      match params (obj h self) !! name, parent (obj h self) with
      | Some a, _ => Some a
      | None, Some p => Params_Get fuel h p name
      | None, None => Some default_value
      end
  end.

Fixpoint Params_Contains (fuel : nat) (h : store) (self : nat) (name : string) : option bool :=
  match fuel with
  | O => None
  | S fuel =>
      match params (obj h self) !! name, parent (obj h self) with
      | Some _, _ => Some true
      | None, Some p => Params_Contains fuel h p name
      | None, None => Some false
      end
  end.

(** [std::string::find] of a character. *)
Fixpoint find_char (ch : ascii) (s : string) : option nat :=
  match s with
  | EmptyString => None
  | String c s => if Ascii.eqb c ch then Some O else S <$> find_char ch s
  end.

(** [depth] is the fuel of the lookups along the parents. *)
Fixpoint GetVar (fuel depth : nat) (h : store) (var_params : nat) (var_name : string) : option nat :=
  match fuel with
  | O => None
  | S fuel =>
      match find_char "." var_name with
      | None => Params_Get depth h var_params var_name
      | Some pos =>
          let part := String.substring 0 pos var_name in
          var_params ← Params_Get depth h var_params part;
          GetVar fuel depth h var_params (String.substring pos (String.length var_name - pos) var_name)
      end
  end.

Fixpoint SetParent (fuel : nat) (h : store) (self : nat) (p : option nat) : option store :=
  match fuel with
  | O => None
  | S fuel =>
      match p with
      | None => Some (update h self (with_parent None))
      | Some p =>
          if (self =? p)%nat then Some h
          else match parent (obj h self) with
               | None => Some (update h self (with_parent (Some p)))
               | Some q => if (q =? p)%nat then Some h else SetParent fuel h q (Some p)
               end
      end
  end.

(** ** Members and elements *)

(** [params[name]] of the hash map: the member, made when it is missing. *)
Definition own_member (h : store) (self : nat) (name : string) : nat * store :=
  match params (obj h self) !! name with
  | Some a => (a, h)
  | None => let '(a, h) := alloc h (new_Params false) in (a, update h self (with_member name a))
  end.

(** The operator for reading and writing: a member of a parent is returned as
    it is, so writing to the result changes the parent's. *)
Definition member_ref (fuel : nat) (h : store) (self : nat) (name : string) : option (nat * store) :=
  p ← Params_Get fuel h self name;
  if Valid (obj h p) then Some (p, h)
  else Some (own_member (update h self (with_type PARAM_OBJECT)) self name).

Definition element (h : store) (self : nat) (idx : nat) : nat :=
  default default_value (param_array (obj h self) !! idx).

(** Appends [n] new elements. *)
Fixpoint grow (n : nat) (h : store) (self : nat) : store :=
  match n with
  | O => h
  | S n => let '(a, h) := alloc h (new_Params false) in
           grow n (update h self (λ p, with_array (param_array p ++ [a]) p)) self
  end.

Definition element_ref (h : store) (self : nat) (idx : nat) : nat * store :=
  match param_array (obj h self) !! idx with
  | Some a => (a, h)
  | None =>
      let h := update h self (with_type PARAM_ARRAY) in
      let h := grow (S idx - length (param_array (obj h self))) h self in
      (element h self idx, h)
  end.

Definition Params_Add (h : store) (self : nat) : nat * store :=
  let h := update (grow 1 h self) self (with_type PARAM_ARRAY) in
  (element h self (length (param_array (obj h self)) - 1), h).

(** The five [Put]s, by what they do to the member. *)
Definition put_with (f : Params → Params) (h : store) (self : nat) (name : string) : store :=
  let '(a, h) := own_member (update h self (with_type PARAM_OBJECT)) self name in update h a f.
Definition Put_string (h : store) (self : nat) (name value : string) : store := put_with (SetString value) h self name.
Definition Put_int (h : store) (self : nat) (name : string) (value : Z) : store := put_with (SetInt value) h self name.
Definition Put_double (h : store) (self : nat) (name : string) (value : Z) : store := put_with (SetDouble value) h self name.
Definition Put_bool (h : store) (self : nat) (name : string) (value : bool) : store := put_with (SetBool value) h self name.

(** ** Reading from text and from TOML *)

(** [boost::split] with one separator: empty pieces are kept. *)
Fixpoint split_on (sep : ascii) (s : list ascii) : list (list ascii) :=
  match s with
  | [] => [[]]
  | ch :: s => match split_on sep s with
               | [] => [[ch]]
               | piece :: rest => if Ascii.eqb ch sep then [] :: piece :: rest else (ch :: piece) :: rest
               end
  end.

Definition is_space (ch : ascii) : bool :=
  let n := Z.of_nat (Ascii.nat_of_ascii ch) in (n =? 32) || ((9 <=? n) && (n <=? 13)).
Fixpoint drop_spaces (s : list ascii) : list ascii :=
  match s with
  | [] => []
  | ch :: s' => if is_space ch then drop_spaces s' else s
  end.
Definition trim (s : list ascii) : list ascii := rev (drop_spaces (rev (drop_spaces s))).

Definition parse_pair (h : store) (self : nat) (item : list ascii) : store :=
  match split_on "="%char item with
  | [k; v] =>
      let name := String.string_of_list_ascii (trim k) in
      let '(a, h) := own_member (update h self (with_type PARAM_OBJECT)) self name in
      update h a (BuildFromString (String.string_of_list_ascii (trim v)))
  | _ => h
  end.

Definition ParseFromString (h : store) (self : nat) (v : string) : store :=
  foldl (λ h item, parse_pair h self item) h (split_on ","%char (String.list_ascii_of_string v)).

(** A value as toml11 gives it; [toml_other] stands for dates and times. *)
Inductive toml :=
| toml_table (members : list (string * toml))
| toml_integer (i : Z)
| toml_boolean (b : bool)
| toml_floating (bits : Z)
| toml_string (s : string)
| toml_array (items : list toml)
| toml_other.

Section toml.
(** [std::to_string] of a double. *)
Context (double_to_string : Z → string).

Definition with_scalar (t : ParamValueType) (s : string) (f : Params → Params) (p : Params) : Params :=
  let p := with_type t (with_str s (f p)) in
  {| _param_type := _param_type p; str := str p; iv := iv p; dv := dv p; bv := bv p; invalid := false;
     params := params p; param_array := param_array p; parent := parent p |}.

(** Fills the object at [self]; [None] stands for the result false. *)
Fixpoint ParseFromToml (h : store) (self : nat) (doc : toml) : option store :=
  match doc with
  | toml_table members =>
      h ← (fix fill (h : store) (l : list (string * toml)) : option store :=
             match l with
             | [] => Some h
             | (name, value) :: l =>
                 let '(tmp, h) := alloc h (new_Params false) in
                 h ← ParseFromToml h tmp value;
                 fill (update h self (with_member name tmp)) l
             end) h members;
      Some (update h self (λ p, with_scalar PARAM_OBJECT (str p) id p))
  | toml_integer i => Some (update h self (with_scalar PARAM_INT (pretty i) (SetInt i)))
  | toml_boolean b => Some (update h self (with_scalar PARAM_BOOL (if b then "1" else "0") (SetBool b)))
  | toml_floating d => Some (update h self (with_scalar PARAM_DOUBLE (double_to_string d) (SetDouble d)))
  | toml_string s => Some (update h self (with_scalar PARAM_STRING s id))
  | toml_array items =>
      h ← (fix fill (h : store) (l : list toml) : option store :=
             match l with
             | [] => Some h
             | item :: l =>
                 let '(tmp, h) := alloc h (new_Params false) in
                 h ← ParseFromToml h tmp item;
                 fill (update h self (λ p, with_array (param_array p ++ [tmp]) p)) l
             end) h items;
      Some (update h self (λ p, with_scalar PARAM_ARRAY (str p) id p))
  | toml_other => None
  end.
End toml.

(** ** Copying *)

(** The copy constructor: members and elements are copied, the parent is
    shared.  [fuel] bounds the depth of the tree of members. *)
Fixpoint copy (fuel : nat) (h : store) (a : nat) : option (nat * store) :=
  match fuel with
  | O => None
  | S fuel =>
      let p := obj h a in
      '(members, h) ← (fix go (h : store) (l : list (string * nat)) : option (gmap string nat * store) :=
          match l with
          | [] => Some (∅, h)
          | (name, m) :: l =>
              '(c, h) ← copy fuel h m;
              '(rest, h) ← go h l;
              Some (<[name := c]> rest, h)
          end) h (map_to_list (params p));
      '(items, h) ← (fix go (h : store) (l : list nat) : option (list nat * store) :=
          match l with
          | [] => Some ([], h)
          | m :: l => '(c, h) ← copy fuel h m; '(rest, h) ← go h l; Some (c :: rest, h)
          end) h (param_array p);
      Some (alloc h {| _param_type := _param_type p; str := str p; iv := iv p; dv := dv p; bv := bv p;
                       invalid := invalid p; params := members; param_array := items;
                       parent := parent p |})
  end.

Fixpoint insert_members (fuel : nat) (h : store) (self : nat) (l : list (string * nat)) : option store :=
  match l with
  | [] => Some h
  | (name, m) :: l =>
      '(c, h) ← copy fuel h m;
      insert_members fuel (update h self (with_member name c)) self l
  end.
Fixpoint insert_items (fuel : nat) (h : store) (self : nat) (l : list nat) : option store :=
  match l with
  | [] => Some h
  | m :: l =>
      '(c, h) ← copy fuel h m;
      insert_items fuel (update h self (λ p, with_array (param_array p ++ [c]) p)) self l
  end.
Definition Params_Insert (fuel : nat) (h : store) (self other : nat) : option store :=
  let h := update h self (with_type PARAM_OBJECT) in
  h ← insert_members fuel h self (map_to_list (params (obj h other)));
  insert_items fuel h self (param_array (obj h other)).

(** ** Dotted names *)

Lemma substring_all s : String.substring 0 (String.length s) s = s.
Proof. induction s as [|ch s IH]; simpl; [done|]. by rewrite IH. Qed.

Lemma find_char_rest ch s pos :
  find_char ch s = Some pos → ∃ rest, String.substring pos (String.length s - pos) s = String ch rest.
Proof.
  revert pos. induction s as [|c s IH]; intros pos; cbn [find_char]; [done|].
  destruct (Ascii.eqb_spec c ch) as [->|Hne].
  - intros [= <-]. exists s. simpl. f_equal. apply substring_all.
  - destruct (find_char ch s) as [n|] eqn:E; [|done]. intros [= <-]. by apply IH.
Qed.

(** The loop of [GetVar] never advances past a dot: the rest of the name it
    goes on with still starts with the dot, so for every name with a dot, in
    every store where the lookups themselves end, it goes on for ever. *)
Theorem GetVar_dotted_diverges depth h self name pos :
  find_char "." name = Some pos → ∀ fuel, GetVar fuel depth h self name = None.
Proof.
  intros Hp fuel. revert self name pos Hp. induction fuel as [|fuel IH]; intros self name pos Hp; [done|].
  cbn [GetVar]. rewrite Hp. destruct (Params_Get depth h self _) as [p|]; [|done]. cbn [mbind option_bind].
  destruct (find_char_rest _ name pos Hp) as [rest ->]. by apply (IH _ _ 0%nat).
Qed.

(** ** Chains of parents *)

(** The objects from [a] to the last parent. *)
Inductive chain (h : store) : nat → list nat → Prop :=
| chain_end a : parent (obj h a) = None → chain h a [a]
| chain_next a p l : parent (obj h a) = Some p → chain h p l → chain h a (a :: l).

(** The first object of the chain that has the member decides. *)
Fixpoint first_member (h : store) (l : list nat) (name : string) : nat :=
  match l with
  | [] => default_value
  | a :: l => default (first_member h l name) (params (obj h a) !! name)
  end.

Lemma chain_Get h a l name fuel :
  chain h a l → (length l <= fuel)%nat → Params_Get fuel h a name = Some (first_member h l name).
Proof.
  intros Hc. revert fuel. induction Hc as [a Hp|a p l Hp _ IH]; intros [|fuel] Hf; simpl in *; try lia; rewrite Hp.
  - by destruct (params (obj h a) !! name).
  - destruct (params (obj h a) !! name); [done|]. apply IH. lia.
Qed.

Lemma chain_Contains h a l name fuel :
  chain h a l → (length l <= fuel)%nat →
  Params_Contains fuel h a name = Some (existsb (λ b, bool_decide (is_Some (params (obj h b) !! name))) l).
Proof.
  intros Hc. revert fuel. induction Hc as [a Hp|a p l Hp _ IH]; intros [|fuel] Hf; simpl in *; try lia; rewrite Hp.
  - by destruct (params (obj h a) !! name).
  - destruct (params (obj h a) !! name); [done|]. simpl. apply IH. lia.
Qed.

Lemma chain_unique h a l l' : chain h a l → chain h a l' → l = l'.
Proof.
  intros Hc. revert l'. induction Hc as [a Hp|a p l Hp _ IH]; intros l' Hc'; inversion Hc'; subst; try congruence.
  f_equal. apply IH. congruence.
Qed.

(** A chain that ends does not repeat an object. *)
Lemma chain_suffix h a l b : chain h a l → b ∈ l → ∃ l', chain h b l' ∧ (length l' <= length l)%nat.
Proof.
  induction 1 as [a Hp|a p l Hp Hc IH]; intros Hb.
  - apply list_elem_of_singleton in Hb as ->. exists [a]. split; [by constructor|done].
  - apply elem_of_cons in Hb as [->|Hb]; [exists (a :: l); split; [by econstructor|done]|].
    destruct (IH Hb) as (l' & ? & ?). exists l'. split; [done|]. simpl. lia.
Qed.

Lemma chain_NoDup h a l : chain h a l → NoDup l.
Proof.
  induction 1 as [a Hp|a p l Hp Hc IH]; [apply NoDup_singleton|]. constructor; [|done].
  intros Hin. destruct (chain_suffix h p l a Hc Hin) as (l' & Hl' & Hle).
  assert (l' = a :: l) as -> by (eapply chain_unique; [done|by econstructor]). simpl in Hle. lia.
Qed.

Lemma obj_update h a f b : is_Some (objects h !! a) →
  obj (update h a f) b = if decide (b = a) then f (obj h a) else obj h b.
Proof.
  intros [p Hp]. unfold obj, update. simpl. destruct (decide (b = a)) as [->|Hne].
  - by rewrite lookup_alter_eq, Hp.
  - by rewrite lookup_alter_ne.
Qed.

(** Objects whose members and parents are the same have the same chains and
    the same members. *)
Lemma chain_frame h h' a l :
  chain h a l → (∀ b, b ∈ l → parent (obj h' b) = parent (obj h b)) → chain h' a l.
Proof.
  induction 1 as [a Hp|a p l Hp _ IH]; intros Hb.
  - constructor. by rewrite Hb by left.
  - econstructor; [by rewrite Hb by left|]. apply IH. intros b Hin. apply Hb. by right.
Qed.

(** [h'] is [h] with the chain of [p] hung behind that of [a]. *)
Lemma SetParent_chain fuel h a l p lp :
  chain h a l → chain h p lp → l ## lp → (∀ b, b ∈ l → is_Some (objects h !! b)) →
  (length l <= fuel)%nat →
  ∃ h', SetParent fuel h a (Some p) = Some h' ∧ chain h' a (l ++ lp) ∧
    ∀ b, params (obj h' b) = params (obj h b) ∧ (b ∉ l → parent (obj h' b) = parent (obj h b)).
Proof.
  intros Hc Hcp Hd Hw. revert fuel. induction Hc as [a Hp|a q l Hp Hc IH]; intros [|fuel] Hf; simpl in *; try lia.
  - assert (p ∈ lp) as Hin by (inversion Hcp; left).
    rewrite (proj2 (Nat.eqb_neq a p)) by (intros ->; eapply Hd; [left|done]). rewrite Hp.
    assert (∀ b, obj (update h a (with_parent (Some p))) b = if decide (b = a) then with_parent (Some p) (obj h a) else obj h b) as Ho
      by (intros b; apply obj_update, Hw; left).
    eexists. split; [done|]. split.
    + econstructor; [by rewrite Ho, decide_True|]. eapply chain_frame; [done|]. intros b Hb. rewrite Ho.
      rewrite decide_False; [done|]. intros ->. eapply Hd; [left|done].
    + intros b. rewrite Ho. destruct (decide (b = a)) as [->|]; [|done]. split; [done|]. intros Hn. destruct Hn. left.
  - assert (p ∈ lp) as Hin by (inversion Hcp; left).
    rewrite (proj2 (Nat.eqb_neq a p)) by (intros ->; eapply Hd; [left|done]). rewrite Hp.
    assert (q ∈ l) as Hq by (inversion Hc; left).
    rewrite (proj2 (Nat.eqb_neq q p)) by (intros ->; eapply Hd; [right; done|done]).
    destruct (IH ltac:(set_solver) ltac:(set_solver) fuel) as (h' & Hs & Hc' & Hb); [lia|].
    exists h'. split; [done|]. split.
    + econstructor; [|done]. destruct (Hb a) as [_ ->]; [done|].
      assert (NoDup (a :: l)) as Hnd by (by eapply chain_NoDup; econstructor). by apply NoDup_cons in Hnd as [? _].
    + intros b. destruct (Hb b) as [? Hb']. split; [done|]. intros Hn. apply Hb'. set_solver.
Qed.

Lemma first_member_app h l l' name :
  first_member h (l ++ l') name
  = if existsb (λ b, bool_decide (is_Some (params (obj h b) !! name))) l
    then first_member h l name else first_member h l' name.
Proof.
  induction l as [|a l IH]; simpl; [done|]. destruct (params (obj h a) !! name); simpl; [done|]. apply IH.
Qed.

Lemma first_member_ext h h' l name :
  (∀ b, params (obj h' b) = params (obj h b)) → first_member h' l name = first_member h l name.
Proof. intros He. induction l as [|a l IH]; simpl; [done|]. by rewrite He, IH. Qed.

(** Giving an object a parent hangs the parent's chain behind its own: a
    lookup then finds a member of its own chain first, and otherwise what the
    parent finds; nothing else changes, and with as much fuel as there are
    objects on the chains every lookup ends. *)
Theorem SetParent_lookup fuel h a l p lp name :
  chain h a l → chain h p lp → l ## lp → (∀ b, b ∈ l → is_Some (objects h !! b)) →
  (length l + length lp <= fuel)%nat →
  ∃ h', SetParent fuel h a (Some p) = Some h' ∧
    Params_Get fuel h' a name =
      (if existsb (λ b, bool_decide (is_Some (params (obj h b) !! name))) l
       then Params_Get fuel h a name else Params_Get fuel h p name) ∧
    (∀ b, params (obj h' b) = params (obj h b)) ∧ (∀ b, b ∉ l → parent (obj h' b) = parent (obj h b)).
Proof.
  intros Hc Hcp Hd Hw Hf.
  destruct (SetParent_chain fuel h a l p lp Hc Hcp Hd Hw) as (h' & Hs & Hc' & Hb); [lia|].
  exists h'. split; [done|]. split; [|split; intros b; apply Hb].
  rewrite (chain_Get h' a (l ++ lp)), (chain_Get h a l), (chain_Get h p lp) by (rewrite ?length_app; done || lia).
  rewrite (first_member_ext h h') by apply Hb. rewrite first_member_app. by destruct (existsb _ _).
Qed.

(** ** Concrete parameters *)

Definition demo_params : store :=
  let '(a, h) := alloc empty_store (new_Params false) in
  let '(b, h) := alloc h (new_Params false) in
  Put_int (Put_string (ParseFromString h a "x = 1 ,flag=true,bad") a "name" "left") b "y" 7.

Lemma GetVar_dotted_diverges_witness : GetVar 1000 10 demo_params 1 "x.y" = None.
Proof. apply (GetVar_dotted_diverges 10 demo_params 1 "x.y" 1). reflexivity. Defined.

Lemma SetParent_lookup_witness :
  ∃ h', SetParent 10 demo_params 1 (Some 2%nat) = Some h' ∧
    Params_Get 10 h' 1 "y" = Params_Get 10 demo_params 2 "y" ∧
    iv (obj demo_params (default 0%nat (Params_Get 10 demo_params 2 "y"))) = 7.
Proof.
  destruct (SetParent_lookup 10 demo_params 1 [1%nat] 2 [2%nat] "y") as (h' & Hs & Hg & _).
  - apply chain_end. vm_compute. reflexivity.
  - apply chain_end. vm_compute. reflexivity.
  - set_solver.
  - intros b ->%list_elem_of_singleton. vm_compute. eauto.
  - simpl. lia.
  - exists h'. split; [exact Hs|]. split; [rewrite Hg|]; vm_compute; reflexivity.
Defined.
