(* ===== verification/DagCluster.v ===== *)
(** * DagCluster: clusters of graphs (didagle: graph.cpp, graph_executor.cpp)

    A cluster holds the graphs of a script; [Build] selects one graph for every
    name.  A [GraphClusterContext] has a context for every graph of a cluster
    and runs one at a time; contexts are pooled.  The manager finds clusters by
    name and starts runs.

    A [Graph*] is the position of the graph in the script; a [GraphContext*] is
    the name of its graph.  Expression processors are arguments: whether their
    setup succeeds ([ProcessorSetup]), and the code they return.  Events for tracing, reference
    counts and the queue of the pool are left out; the pool is a list. *)

From Stdlib Require Import Ascii.
From S2P Require Import Prelude DagGraph DagExec DagParams DagData DagInject.
Open Scope string_scope.
Open Scope list_scope.
Open Scope Z_scope.

(** ** Data *)

Record ConfigSetting := { cfg_name : string; cfg_cond : string; cfg_processor : string }.

Record GraphScript := {
  gs_name : string;
  gs_expect_version : string;
  gs_priority : Z;
  gs_vertex : list VertexConf;
}.

Record GraphCluster := {
  gc_name : string;
  gc_strict_dsl : bool;
  gc_default_expr_processor : string;
  gc_default_context_pool_size : Z;
  gc_graph : list GraphScript;
  gc_config_setting : list ConfigSetting;
  gc_graphs : gmap string nat;
  (** The graph objects that were built. *)
  gc_built : gmap nat Graph;
  gc_builded : bool;
}.

(** The context of a graph: the state of its run and its data. *)
Record graph_context := {
  gx_graph : nat;
  gx_run : GraphContext;
  gx_dis : gmap nat ProcessorDI;
  gx_data : GraphDataContext;
}.

(** [results] are the values of [_config_settings], with the processors that
    compute them. *)
Record GraphClusterContext := {
  _running_graph : option string;
  _last_runnin_graph : option string;
  _config_settings : list (ConfigSetting * Z);
  _graph_context_table : gmap string graph_context;
  _end_ustime : Z;
}.

Section cluster.
Context `{Runtime, !VertexKinds, !ProcessorSetup}.
(** The version test of the options, if there is one, and the fuel of the cycle
    test. *)
Context (check_version : option (string → bool)) (fuel : nat).

(** ** Setting up graphs *)

Definition cluster_conf (cl : GraphCluster) : ClusterConf :=
  {| c_name := gc_name cl; c_strict_dsl := gc_strict_dsl cl;
     c_default_expr_processor := gc_default_expr_processor cl;
     c_config_setting := cfg_name <$> gc_config_setting cl |}.

(** The context of the graph at position [pos] of the script. *)
Definition setup_graph (cl : GraphCluster) (pos : nat) (g : Graph) : attempt graph_context :=
  match GraphContext_Setup g (cluster_conf cl) with
  | Failure => Failure
  | Crash => Crash
  | Done (run, dis, data) => Done {| gx_graph := pos; gx_run := run; gx_dis := dis; gx_data := data |}
  end.

(** The arguments of the first condition that holds: an expression whose
    processor returns 0, or a setting that is true. *)
Fixpoint select_params (expr : option (string → Z)) (setting : string → option bool) (l : list (string * nat))
    : option nat :=
  match l with
  | [] => None
  | (cond, args) :: l =>
      match expr with
      | Some eval =>
          if IsCondExpr cond then if eval cond =? 0 then Some args else select_params expr setting l
          else match setting cond with Some true => Some args | _ => select_params expr setting l end
      | None => match setting cond with Some true => Some args | _ => select_params expr setting l end
      end
  end.

(** [VertexContext::GetExecParams]: the selected arguments or the vertex's own,
    with the parameters of the cluster as parent. *)
Definition GetExecParams (depth : nat) (h : store) (expr : option (string → Z)) (setting : string → option bool)
    (select : list (string * nat)) (own : nat) (cluster_exec_params : option nat) : option (nat * store) :=
  let exec_params := default own (select_params expr setting select) in
  match cluster_exec_params with
  | None => Some (exec_params, h)
  | Some p => h ← SetParent depth h exec_params (Some p); Some (exec_params, h)
  end.

(** ** Contexts of a cluster *)

(** A setting whose processor does not exist is left out. *)
Fixpoint setup_settings (strict : bool) (l : list ConfigSetting) : option (list (ConfigSetting * Z)) :=
  match l with
  | [] => Some []
  | cfg :: l =>
      match GetProcessor (cfg_processor cfg) with
      | None => if strict then None else setup_settings strict l
      | Some _ =>
          if expr_setup (cfg_processor cfg) (cfg_cond cfg)
          then rest ← setup_settings strict l; Some ((cfg, 0) :: rest)
          else None
      end
  end.

Fixpoint setup_graphs (cl : GraphCluster) (l : list (string * nat)) : attempt (gmap string graph_context) :=
  match l with
  | [] => Done ∅
  | (name, pos) :: l =>
      match gc_built cl !! pos with
      | None => Failure
      | Some g =>
          match setup_graph cl pos g with
          | Failure => Failure
          | Crash => Crash
          | Done gx => match setup_graphs cl l with
                       | Done rest => Done (<[name := gx]> rest)
                       | r => r
                       end
          end
      end
  end.

Definition GraphClusterContext_Setup (cl : GraphCluster) : attempt GraphClusterContext :=
  match setup_settings (gc_strict_dsl cl) (gc_config_setting cl) with
  | None => Failure
  | Some settings =>
      match setup_graphs cl (map_to_list (gc_graphs cl)) with
      | Failure => Failure
      | Crash => Crash
      | Done table => Done {| _running_graph := None; _last_runnin_graph := None; _config_settings := settings;
                              _graph_context_table := table; _end_ustime := 0 |}
      end
  end.

Definition with_running (r last : option string) (x : GraphClusterContext) : GraphClusterContext :=
  {| _running_graph := r; _last_runnin_graph := last; _config_settings := _config_settings x;
     _graph_context_table := _graph_context_table x; _end_ustime := _end_ustime x |}.

Definition alter_graph (f : graph_context → graph_context) (name : string) (x : GraphClusterContext)
    : GraphClusterContext :=
  {| _running_graph := _running_graph x; _last_runnin_graph := _last_runnin_graph x;
     _config_settings := _config_settings x;
     _graph_context_table := alter f name (_graph_context_table x); _end_ustime := _end_ustime x |}.

Definition with_data (f : GraphDataContext → GraphDataContext) (gx : graph_context) : graph_context :=
  {| gx_graph := gx_graph gx; gx_run := gx_run gx; gx_dis := gx_dis gx; gx_data := f (gx_data gx) |}.

(** The context to run the graph [name] with, whose data context gets the
    caller's as parent. *)
Definition GetRunGraph (name : string) (extern_data_ctx : option nat) (x : GraphClusterContext)
    : option string * GraphClusterContext :=
  let parent := alter_graph (with_data (GraphDataContext_SetParent extern_data_ctx)) in
  match _running_graph x with
  | Some r => (Some r, x)
  | None =>
      if bool_decide (_last_runnin_graph x = Some name) then
        (Some name, parent name (with_running (Some name) (_last_runnin_graph x) x))
      else match _graph_context_table x !! name with
           | None => (None, x)
           | Some _ => (Some name, parent name (with_running (Some name) (Some name) x))
           end
  end.

Definition reset_graph (g : Graph) (gx : graph_context) : graph_context :=
  {| gx_graph := gx_graph gx; gx_run := GraphContext_Reset g (gx_run gx); gx_dis := gx_dis gx;
     gx_data := GraphDataContext_Reset (gx_data gx) |}.

(** [graph_of] finds the graph of a context. *)
Definition GraphClusterContext_Reset (graph_of : nat → Graph) (x : GraphClusterContext) : GraphClusterContext :=
  let x := match _running_graph x with
           | Some name => with_running None (_last_runnin_graph x)
                            (alter_graph (λ gx, reset_graph (graph_of (gx_graph gx)) gx) name x)
           | None => x
           end in
  {| _running_graph := _running_graph x; _last_runnin_graph := _last_runnin_graph x;
     _config_settings := (λ p, (p.1, 0)) <$> _config_settings x;
     _graph_context_table := _graph_context_table x; _end_ustime := 0 |}.

(** ** Running a graph of a cluster *)

Section execute.
(** The code an expression processor returns on its condition, the address of
    the result of setting number [i], and the number of the type bool. *)
Context (eval : ConfigSetting → Z) (result_addr : nat → Z) (bool_type : Z).

(** Result number [i] is published under the name of the [i]th setting of the
    cluster. *)
Fixpoint publish_settings (names : list ConfigSetting) (i : nat) (l : list (ConfigSetting * Z))
    (c : GraphDataContext) : option (list (ConfigSetting * Z) * GraphDataContext) :=
  match l with
  | [] => Some ([], c)
  | (cfg, _) :: l =>
      let result := if eval cfg =? 0 then 1 else 0 in
      name ← names !! i;
      let '(_, c) := GraphDataContext_Set RawPtr c (cfg_name name, bool_type) (Some (result_addr i)) (-1) in
      '(l, c) ← publish_settings names (S i) l c;
      Some ((cfg, result) :: l, c)
  end.

(** [GraphClusterContext::Execute]: [inl] when there is no such graph and
    [done] was called with -1, and otherwise the name of the graph that is
    started; [None]: a setting is out of range. *)
Definition GraphClusterContext_Execute (cl : GraphCluster) (graph : string) (extern_data_ctx : option nat)
    (x : GraphClusterContext) : option ((Z + string) * GraphClusterContext) :=
  match GetRunGraph graph extern_data_ctx x with
  | (None, x) => Some (inl (-1), x)
  | (Some name, x) =>
      gx ← _graph_context_table x !! name;
      '(settings, data) ← publish_settings (gc_config_setting cl) 0 (_config_settings x) (gx_data gx);
      let gx := {| gx_graph := gx_graph gx; gx_run := GraphContext_Execute (gx_run gx); gx_dis := gx_dis gx;
                   gx_data := DisableEntryCreation data |} in
      Some (inr name,
            {| _running_graph := _running_graph x; _last_runnin_graph := _last_runnin_graph x;
               _config_settings := settings;
               _graph_context_table := <[name := gx]> (_graph_context_table x);
               _end_ustime := _end_ustime x |})
  end.
End execute.

(** ** Building a cluster *)

Definition version_ok (f : GraphScript) : bool :=
  match check_version with Some check => check (gs_expect_version f) | None => true end.

(** A graph is selected when its name is free or the graph that has the name
    has a lower priority. *)
Definition selected (scripts : list GraphScript) (table : gmap string nat) (f : GraphScript) : bool :=
  match table !! gs_name f with
  | Some j => match scripts !! j with Some h => gs_priority h <? gs_priority f | None => true end
  | None => true
  end.

Fixpoint build_graphs (conf : ClusterConf) (scripts : list GraphScript) (i : nat) (l : list GraphScript)
    (table : gmap string nat) (built : gmap nat Graph) : attempt (gmap string nat * gmap nat Graph) :=
  match l with
  | [] => Done (table, built)
  | f :: l =>
      if version_ok f && selected scripts table f then
        let name := gs_name f in
        match Graph_Build fuel conf
                {| g_name := name; g_vertex := unlinked <$> gs_vertex f; g_declared := length (gs_vertex f);
                   _nodes := ∅; _data_mapping_table := ∅; _idx := 0 |} with
        | Built g => build_graphs conf scripts (S i) l (<[name := i]> table) (<[i := g]> built)
        | Failed => Failure
        | Unfinished => Crash
        end
      else build_graphs conf scripts (S i) l table built
  end.

(** The default processor for the settings without one. *)
Fixpoint default_processors (expr : string) (l : list ConfigSetting) : option (list ConfigSetting) :=
  match l with
  | [] => Some []
  | cfg :: l =>
      if bool_decide (cfg_processor cfg = "") then
        if bool_decide (expr = "") then None
        else cons {| cfg_name := cfg_name cfg; cfg_cond := cfg_cond cfg; cfg_processor := expr |}
               <$> default_processors expr l
      else cons cfg <$> default_processors expr l
  end.

(** The pool is filled with [n] contexts, whose setup is not checked. *)
Fixpoint fill_pool (n : nat) (cl : GraphCluster) : attempt (list (option GraphClusterContext)) :=
  match n with
  | O => Done []
  | S n => match GraphClusterContext_Setup cl, fill_pool n cl with
           | Crash, _ | _, Crash => Crash
           | _, Failure => Failure
           | Done x, Done l => Done (Some x :: l)
           | Failure, Done l => Done (None :: l)
           end
  end.

Definition GraphCluster_Build (cl : GraphCluster) : attempt (GraphCluster * list (option GraphClusterContext)) :=
  if gc_builded cl then Done (cl, [])
  else
    match build_graphs (cluster_conf cl) (gc_graph cl) 0 (gc_graph cl) (gc_graphs cl) (gc_built cl) with
    | Failure => Failure
    | Crash => Crash
    | Done (table, built) =>
        match default_processors (gc_default_expr_processor cl) (gc_config_setting cl) with
        | None => Failure
        | Some settings =>
            let cl := {| gc_name := gc_name cl; gc_strict_dsl := gc_strict_dsl cl;
                         gc_default_expr_processor := gc_default_expr_processor cl;
                         gc_default_context_pool_size := gc_default_context_pool_size cl;
                         gc_graph := gc_graph cl; gc_config_setting := settings; gc_graphs := table;
                         gc_built := built; gc_builded := true |} in
            match (if gc_strict_dsl cl then GraphClusterContext_Setup cl
                   else Done {| _running_graph := None; _last_runnin_graph := None; _config_settings := [];
                                _graph_context_table := ∅; _end_ustime := 0 |}) with
            | Failure => Failure
            | Crash => Crash
            | Done _ => match fill_pool (Z.to_nat (gc_default_context_pool_size cl)) cl with
                        | Done pool => Done (cl, pool)
                        | Failure => Failure
                        | Crash => Crash
                        end
            end
        end
    end.

Definition FindGraphByName (cl : GraphCluster) (name : string) : option nat := gc_graphs cl !! name.
Definition GraphCluster_Exists (cl : GraphCluster) (graph : string) : bool :=
  negb (bool_decide (FindGraphByName cl graph = None)).

(** A context of the pool, or a new one, whose setup is not checked. *)
Definition GetContext (cl : GraphCluster) (pool : list (option GraphClusterContext))
    : attempt (option GraphClusterContext * list (option GraphClusterContext)) :=
  match pool with
  | x :: pool => Done (x, pool)
  | [] => match GraphClusterContext_Setup cl with
          | Crash => Crash
          | Failure => Done (None, [])
          | Done x => Done (Some x, [])
          end
  end.

Definition ReleaseContext (graph_of : nat → Graph) (x : GraphClusterContext) (pool : list (option GraphClusterContext))
    : list (option GraphClusterContext) := pool ++ [Some (GraphClusterContext_Reset graph_of x)].

(** ** The manager *)

(** Clusters by the name of their file, each with its pool. *)
Record GraphManager := {
  has_concurrent_executor : bool;
  m_graphs : gmap string (GraphCluster * list (option GraphClusterContext));
}.

Definition with_cluster (m : GraphManager) (name : string) (cl : GraphCluster)
    (pool : list (option GraphClusterContext)) : GraphManager :=
  {| has_concurrent_executor := has_concurrent_executor m; m_graphs := <[name := (cl, pool)]> (m_graphs m) |}.

(** The graph of a context of [cl]. *)
Definition graph_at (cl : GraphCluster) (pos : nat) : Graph :=
  default {| g_name := ""; g_vertex := []; g_declared := 0; _nodes := ∅; _data_mapping_table := ∅; _idx := 0 |}
    (gc_built cl !! pos).

Definition with_end_time (t : Z) (x : GraphClusterContext) : GraphClusterContext :=
  {| _running_graph := _running_graph x; _last_runnin_graph := _last_runnin_graph x;
     _config_settings := _config_settings x; _graph_context_table := _graph_context_table x; _end_ustime := t |}.

(** The characters before the first slash. *)
Fixpoint until_slash (s : list ascii) : list ascii :=
  match s with
  | [] => []
  | ch :: s => if Ascii.eqb ch "/" then [] else ch :: until_slash s
  end.
Definition get_basename (filename : string) : string :=
  String.string_of_list_ascii (rev (until_slash (rev (String.list_ascii_of_string filename)))).

(** [parsed]: the cluster the TOML parser made of the file, if it could. *)
Definition GraphManager_Load (m : GraphManager) (file : string) (parsed : option GraphCluster)
    : attempt GraphManager :=
  match parsed with
  | None => Failure
  | Some g =>
      let name := get_basename file in
      let g := {| gc_name := name; gc_strict_dsl := gc_strict_dsl g;
                  gc_default_expr_processor := gc_default_expr_processor g;
                  gc_default_context_pool_size := gc_default_context_pool_size g; gc_graph := gc_graph g;
                  gc_config_setting := gc_config_setting g; gc_graphs := gc_graphs g; gc_built := gc_built g;
                  gc_builded := gc_builded g |} in
      match GraphCluster_Build g with
      | Done (g, pool) => Done (with_cluster m name g pool)
      | Failure => Failure
      | Crash => Crash
      end
  end.

Definition GraphManager_Exists (m : GraphManager) (cluster graph : string) : bool :=
  match m_graphs m !! cluster with Some (c, _) => GraphCluster_Exists c graph | None => false end.

Section manager.
Context (eval : ConfigSetting → Z) (result_addr : nat → Z) (bool_type : Z).

(** The return code, the codes [done] was called with, the run that was started
    and the manager.  [Failure]: the pool gave a context whose setup failed. *)
Definition GraphManager_Execute (m : GraphManager) (data_ctx : option nat) (cluster graph : string)
    (now time_out_ms : Z) : attempt (Z * list Z * option GraphClusterContext * GraphManager) :=
  if negb (has_concurrent_executor m) then Done (-1, [-1], None, m)
  else match data_ctx, m_graphs m !! cluster with
       | None, _ => Done (-1, [-1], None, m)
       | Some _, None => Done (-1, [-1], None, m)
       | Some data_ctx, Some (cl, pool) =>
           match GetContext cl pool with
           | Crash => Crash
           | Failure | Done (None, _) => Failure
           | Done (Some x, pool) =>
               let x := if time_out_ms =? 0 then x else with_end_time (u64 (now + u64 (time_out_ms * 1000))) x in
               match GraphClusterContext_Execute eval result_addr bool_type cl graph (Some data_ctx) x with
               | None => Crash
               | Some (inl code, x) =>
                   Done (0, [code], None, with_cluster m cluster cl (ReleaseContext (graph_at cl) x pool))
               | Some (inr _, x) => Done (0, [], Some x, with_cluster m cluster cl pool)
               end
           end
       end.
End manager.
End cluster.
