(* ===== verification/DagClusterSpec.v ===== *)
(** * DagClusterSpec: clusters and the manager

    Which graph a name refers to, what the contexts of a cluster run, when the
    manager calls [done], and how the settings get their names. *)

From S2P Require Import Prelude DagGraph DagGraphSpec DagExec DagData DagDataSpec DagInject DagCluster.
Open Scope string_scope.
Open Scope list_scope.
Open Scope Z_scope.

Section cluster.
Context `{Runtime, !VertexKinds, !ProcessorSetup}.
Context (check_version : option (string → bool)) (fuel : nat).

Abbreviation accepted := (version_ok check_version).

(** ** The graph of a name *)

(** [i] is the first script of the name with the highest priority, among those
    whose version is accepted. *)
Definition chosen (scripts : list GraphScript) (name : string) (i : nat) : Prop :=
  ∃ f, scripts !! i = Some f ∧ gs_name f = name ∧ accepted f = true ∧
    ∀ j h, scripts !! j = Some h → gs_name h = name → accepted h = true →
      gs_priority h <= gs_priority f ∧ (gs_priority h = gs_priority f → (i <= j)%nat).

(** The tables after the scripts [pre]. *)
Record selects (conf : ClusterConf) (pre : list GraphScript) (table : gmap string nat) (built : gmap nat Graph) : Prop := {
  sl_some name i : table !! name = Some i → chosen pre name i;
  sl_none name : table !! name = None → ∀ j h, pre !! j = Some h → gs_name h = name → accepted h = false;
  sl_built name i : table !! name = Some i → ∃ f g, pre !! i = Some f ∧ built !! i = Some g ∧
    Graph_Build fuel conf (script_graph (gs_name f) (gs_vertex f)) = Built g;
}.

Lemma lookup_snoc_cases {A} (l : list A) (x y : A) i :
  (l ++ [x]) !! i = Some y → l !! i = Some y ∨ i = length l ∧ y = x.
Proof.
  intros [?|[Hge Hi]]%lookup_app_Some; [by left|right]. apply list_lookup_singleton_Some in Hi as [Hi ->].
  split; [lia|done].
Qed.

(** A script that is not selected. *)
Lemma selects_skip conf pre f table built :
  selects conf pre table built →
  (accepted f = true → ∃ j h, table !! gs_name f = Some j ∧ pre !! j = Some h ∧ gs_priority f <= gs_priority h) →
  selects conf (pre ++ [f]) table built.
Proof.
  intros [Hs Hn Hb] Hskip. split.
  - intros name i Hi. destruct (Hs name i Hi) as (x & Hx & Hname & Hacc & Hbest). exists x.
    split_and!; [by apply lookup_app_l_Some|done|done|]. intros j h [Hj|[-> ->]]%lookup_snoc_cases Hh Ha.
    + by eapply Hbest.
    + destruct (Hskip Ha) as (k & h & Hk & Hpk & Hle). rewrite Hh, Hi in Hk. injection Hk as <-.
      rewrite Hx in Hpk. injection Hpk as <-. split; [done|]. intros _. apply lookup_lt_Some in Hx. lia.
  - intros name Hnone j h [Hj|[-> ->]]%lookup_snoc_cases Hh; [by eapply Hn|].
    destruct (accepted f) eqn:Ha; [|done]. destruct (Hskip eq_refl) as (k & ? & Hk & _). congruence.
  - intros name i Hi. destruct (Hb name i Hi) as (x & gr & ? & ? & ?). exists x, gr.
    split_and!; [by apply lookup_app_l_Some|done|done].
Qed.

(** A script that is selected. *)
Lemma selects_take conf pre f table built gr :
  selects conf pre table built → accepted f = true →
  (∀ j h, table !! gs_name f = Some j → pre !! j = Some h → gs_priority h < gs_priority f) →
  Graph_Build fuel conf (script_graph (gs_name f) (gs_vertex f)) = Built gr →
  selects conf (pre ++ [f]) (<[gs_name f := length pre]> table) (<[length pre := gr]> built).
Proof.
  intros [Hs Hn Hb] Ha Hprio Hbuild. split.
  - intros name i. destruct (decide (name = gs_name f)) as [->|Hne].
    + rewrite lookup_insert_eq. intros [= <-]. exists f. rewrite lookup_app_r, Nat.sub_diag by done.
      split_and!; [done..|]. intros j h [Hj|[-> ->]]%lookup_snoc_cases Hh Hah; [|done].
      destruct (table !! gs_name f) as [k|] eqn:E; [|rewrite (Hn _ E j h Hj Hh) in Hah; done].
      destruct (Hs _ _ E) as (x & Hx & _ & _ & Hbest). specialize (Hprio k x eq_refl Hx).
      destruct (Hbest j h Hj Hh Hah) as [? _]. split; lia.
    + rewrite lookup_insert_ne by done. intros Hi. destruct (Hs name i Hi) as (x & Hx & Hname & Hacc & Hbest).
      exists x. split_and!; [by apply lookup_app_l_Some|done|done|].
      intros j h [Hj|[-> ->]]%lookup_snoc_cases Hh Hah; [by eapply Hbest|congruence].
  - intros name. destruct (decide (name = gs_name f)) as [->|Hne]; [by rewrite lookup_insert_eq|].
    rewrite lookup_insert_ne by done. intros Hnone j h [Hj|[-> ->]]%lookup_snoc_cases Hh; [by eapply Hn|congruence].
  - intros name i. destruct (decide (name = gs_name f)) as [->|Hne].
    + rewrite lookup_insert_eq. intros [= <-]. exists f, gr. rewrite lookup_app_r, Nat.sub_diag, lookup_insert_eq by done. done.
    + rewrite lookup_insert_ne by done. intros Hi. destruct (Hb name i Hi) as (x & y & Hx & Hy & ?). exists x, y.
      split_and!; [by apply lookup_app_l_Some| |done]. rewrite lookup_insert_ne; [done|].
      apply lookup_lt_Some in Hx. lia.
Qed.

Lemma build_graphs_selects conf scripts pre l table built table' built' :
  scripts = pre ++ l → selects conf pre table built →
  build_graphs check_version fuel conf scripts (length pre) l table built = Done (table', built') →
  selects conf scripts table' built'.
Proof.
  revert pre table built. induction l as [|f l IH]; intros pre table built -> Hs; cbn [build_graphs].
  { rewrite app_nil_r. by intros [= <- <-]. }
  assert (∀ j h, pre !! j = Some h → (pre ++ f :: l) !! j = Some h) as Hpre by (intros; by apply lookup_app_l_Some).
  replace (S (length pre)) with (length (pre ++ [f])) by (rewrite length_app; simpl; lia).
  destruct (accepted f) eqn:Ha, (selected (pre ++ f :: l) table f) eqn:Hsel; cbn [andb];
    try (apply IH; [by rewrite <-app_assoc|]; apply selects_skip; [done|]; try congruence).
  - fold (script_graph (gs_name f) (gs_vertex f)).
    destruct (Graph_Build fuel conf _) as [gr| |] eqn:Hbuild; [|done..].
    apply IH; [by rewrite <-app_assoc|]. apply selects_take; [done|done| |done].
    intros j h Hj Hh. unfold selected in Hsel. rewrite Hj, (Hpre j h Hh) in Hsel. by apply Z.ltb_lt.
  - intros _. unfold selected in Hsel. destruct (table !! gs_name f) as [j|] eqn:Hj; [|done].
    destruct (sl_some _ _ _ _ Hs _ _ Hj) as (h & Hh & _). exists j, h. split_and!; [done|done|].
    rewrite (Hpre j h Hh) in Hsel. by apply Z.ltb_ge.
Qed.

(** A cluster that was built knows a graph under a name exactly when the
    script has one of that name whose version is accepted; it is the first one
    with the highest priority, and [Graph::Build] accepted it. *)
Theorem cluster_selects cl cl' pool name :
  gc_builded cl = false → gc_graphs cl = ∅ → gc_built cl = ∅ →
  GraphCluster_Build check_version fuel cl = Done (cl', pool) →
  match FindGraphByName cl' name with
  | Some i =>
      chosen (gc_graph cl) name i ∧
      ∃ f g, gc_graph cl !! i = Some f ∧ gc_built cl' !! i = Some g ∧
        Graph_Build fuel (cluster_conf cl) (script_graph (gs_name f) (gs_vertex f)) = Built g
  | None => ∀ i f, gc_graph cl !! i = Some f → gs_name f = name → accepted f = false
  end.
Proof.
  intros Hb Hg Hbu. unfold GraphCluster_Build. rewrite Hb, Hg, Hbu.
  destruct (build_graphs _ _ _ _ _ _ _ _) as [[table built]| |] eqn:Hl; [|done..].
  assert (selects (cluster_conf cl) (gc_graph cl) table built) as [Hs Hn Hbuilt].
  { apply (build_graphs_selects _ _ [] (gc_graph cl) ∅ ∅); [done| |done].
    split; [intros ??; by rewrite lookup_empty|intros ?? [] ??; done|intros ??; by rewrite lookup_empty]. }
  destruct (default_processors _ _) as [settings|]; [|done]. cbv zeta.
  destruct (if gc_strict_dsl _ then _ else _) as [x| |]; [|done..].
  destruct (fill_pool _ _) as [p| |]; [|done..]. intros [= <- <-]. unfold FindGraphByName. simpl.
  destruct (table !! name) as [i|] eqn:E; [split; [by apply Hs|by eapply Hbuilt]|]. by apply Hn.
Qed.

(** ** Running one graph at a time *)

(** The graphs a context refers to are in its table. *)
Definition context_ok (x : GraphClusterContext) : Prop :=
  (∀ name, _running_graph x = Some name → is_Some (_graph_context_table x !! name)) ∧
  (∀ name, _last_runnin_graph x = Some name → is_Some (_graph_context_table x !! name)).

Lemma alter_graph_ok f name x : context_ok x → context_ok (alter_graph f name x).
Proof. intros [Hr Hl]. split; intros n Hn; simpl; rewrite lookup_alter_is_Some; [by apply Hr|by apply Hl]. Qed.

Lemma Reset_ok graph_of x : context_ok x → context_ok (GraphClusterContext_Reset graph_of x).
Proof.
  intros Hx. unfold GraphClusterContext_Reset. destruct (_running_graph x) as [name|] eqn:E.
  - destruct (alter_graph_ok (λ gx, reset_graph (graph_of (gx_graph gx)) gx) name x Hx) as [_ Hl]. by split.
  - split; simpl; [by rewrite E|by apply Hx].
Qed.

Lemma GetRunGraph_ok name ext x : context_ok x → context_ok (GetRunGraph name ext x).2.
Proof.
  intros Hx. unfold GetRunGraph. destruct (_running_graph x); [done|]. case_bool_decide as Hl.
  - cbn [snd]. apply alter_graph_ok. split; simpl; [intros n [= <-]|]; by apply Hx.
  - destruct (_graph_context_table x !! name) eqn:E; [|done]. cbn [snd]. apply alter_graph_ok.
    split; simpl; intros n [= <-]; by rewrite E.
Qed.

(** A context that was reset runs the graph it is asked for: the shortcut to
    the last graph agrees with the table, and a graph is refused exactly when
    the cluster does not have it.  A context that was not reset answers with the
    graph that is running, whatever the name. *)
Theorem GetRunGraph_after_reset graph_of x name ext :
  context_ok x →
  (GetRunGraph name ext (GraphClusterContext_Reset graph_of x)).1
  = (if bool_decide (is_Some (_graph_context_table x !! name)) then Some name else None) ∧
  (∀ r, _running_graph x = Some r → (GetRunGraph name ext x).1 = Some r).
Proof.
  intros Hx. split; [|intros r Hr; unfold GetRunGraph; by rewrite Hr].
  assert (_running_graph (GraphClusterContext_Reset graph_of x) = None) as Hr.
  { unfold GraphClusterContext_Reset. by destruct (_running_graph x) eqn:E. }
  assert (∀ n, is_Some (_graph_context_table (GraphClusterContext_Reset graph_of x) !! n)
            ↔ is_Some (_graph_context_table x !! n)) as Hd.
  { intros n. unfold GraphClusterContext_Reset. destruct (_running_graph x); simpl; [|done]. by rewrite lookup_alter_is_Some. }
  destruct (Reset_ok graph_of x Hx) as [_ Hl]. unfold GetRunGraph. rewrite Hr. case_bool_decide as Hlast.
  - cbn [fst]. rewrite bool_decide_eq_true_2; [done|]. by apply Hd, Hl.
  - destruct (_graph_context_table (GraphClusterContext_Reset graph_of x) !! name) as [gx|] eqn:E; cbn [fst].
    + rewrite bool_decide_eq_true_2; [done|]. apply Hd. by rewrite E.
    + rewrite bool_decide_eq_false_2; [done|]. intros Hs%Hd. rewrite E in Hs. by destruct Hs.
Qed.

(** ** The manager *)

(** The manager tells its caller about every failure exactly once: either
    [done] has been called once, with -1, and no run was started, or a run was
    started and [done] is left to it; the pools of the other clusters are not
    touched. *)
Theorem manager_done eval addr ty m data cluster graph now timeout rc calls x m' :
  GraphManager_Execute eval addr ty m data cluster graph now timeout
  = Done (rc, calls, x, m') →
  (calls = [-1] ∧ x = None ∨ calls = [] ∧ rc = 0 ∧ ∃ y r, x = Some y ∧ _running_graph y = Some r) ∧
  ∀ name, name ≠ cluster → m_graphs m' !! name = m_graphs m !! name.
Proof.
  unfold GraphManager_Execute. destruct (has_concurrent_executor m); simpl;
    [|intros [= <- <- <- <-]; split; [by left|done]].
  destruct data as [d|]; [|intros [= <- <- <- <-]; split; [by left|done]].
  destruct (m_graphs m !! cluster) as [[cl pool]|]; [|intros [= <- <- <- <-]; split; [by left|done]].
  destruct (GetContext cl pool) as [[[y|] pool']| |]; [|done..].
  set (y' := if timeout =? 0 then y else _). clearbody y'.
  unfold GraphClusterContext_Execute. destruct (GetRunGraph graph (Some d) y') as [[name|] z] eqn:Hg.
  2:{ intros [= <- <- <- <-]. split; [by left|]. intros n Hne. simpl. by rewrite lookup_insert_ne. }
  destruct (_graph_context_table z !! name) as [gx|]; [|done]. cbn [mbind option_bind].
  destruct (publish_settings _ _ _ _ _ _ _) as [[settings data]|]; [|done]. cbn [mbind option_bind].
  intros [= <- <- <- <-]. split; [|intros n Hne; simpl; by rewrite lookup_insert_ne]. right.
  split_and!; [done|done|]. eexists _, name. split; [done|]. simpl.
  unfold GetRunGraph in Hg. destruct (_running_graph y') as [r|] eqn:Er; [injection Hg as <- <-; done|].
  case_bool_decide; [injection Hg as <- <-; done|]. destruct (_graph_context_table y' !! graph); [|done].
  injection Hg as <- <-. done.
Qed.

(** Settings get the wrong names when one of them is left out: in a cluster
    that is not strict, a first setting whose processor does not exist gets the
    result of the second one, and the second name has no value. *)
Theorem setting_shift eval addr ty a b :
  GetProcessor (cfg_processor a) = None → is_Some (GetProcessor (cfg_processor b)) →
  expr_setup (cfg_processor b) (cfg_cond b) = true → cfg_name a ≠ cfg_name b →
  ∃ settings c, setup_settings false [a; b] = Some settings ∧
    publish_settings eval addr ty [a; b] 0 settings new_GraphDataContext
    = Some ([(b, if eval b =? 0 then 1 else 0)], c) ∧
    local_value RawPtr c (cfg_name a, ty) (-1) = Some (addr 0%nat) ∧
    local_value RawPtr c (cfg_name b, ty) (-1) = None.
Proof.
  intros Ha [p Hb] Hs Hne. simpl. rewrite Ha, Hb, Hs. eexists _, _. split; [done|]. split; [done|].
  rewrite !local_value_name. simpl. rewrite lookup_insert_eq, lookup_insert_ne by congruence. done.
Qed.
End cluster.
