(* ===== verification/DagDataWitness.v ===== *)
(** * DagDataWitness: data, injection and clusters at work

    The theorems on data contexts, on injection and on clusters applied to concrete states. *)

From stdpp Require Import relations.
From S2P Require Import Prelude DagGraph DagGraphSpec DagExec DagWitness DagData DagDataSpec DagInject DagInjectSpec DagCluster DagClusterSpec.

(** * The theorems about data at concrete contexts

    The context 1 of a run, with the data [x] and [$v], and the context 0 of the
    caller, with the data [y]; each refers to the other. *)

Open Scope string_scope.
Open Scope Z_scope.

Definition plain_field (name : string) : FieldInfo :=
  {| fi_name := name; fi_id := 1; fi_shared := false; fi_is_extern := false; fi_is_aggregate := false;
     fi_is_in_out := false |}.

(** One vertex publishes [x], another reads [x] and the data that the variable
    [v] names. *)
Definition demo_dis : list ProcessorDI :=
  [{| _input_ids := []; _output_ids := [new_FieldData (plain_field "x")] |};
   {| _input_ids := [new_FieldData (plain_field "x"); new_FieldData (plain_field "$v")]; _output_ids := [] |}].

Definition demo_setup : list ProcessorDI * GraphDataContext :=
  default ([], new_GraphDataContext) (register_all {[("x", 1)]} demo_dis new_GraphDataContext).

Definition demo_context : GraphDataContext := DisableEntryCreation (GraphDataContext_SetParent (Some 0%nat) demo_setup.2).
Definition demo_caller : GraphDataContext :=
  let c := snd (GraphDataContext_Set RawPtr new_GraphDataContext ("y", 1) (Some 7) (-1)) in
  SetChild (Some 1%nat) 0 (ReserveChildCapacity 1 c).
Definition demo_contexts : contexts := {[0%nat := demo_caller; 1%nat := demo_context]}.
Definition demo_container (_ : DIObjectKey) : option Z := None.
Definition demo_vars (_ : string) : string := "x".

(** Statements about all entries of an array and a table, by evaluation. *)
Lemma registered_check c :
  forallb (λ p : nat * DIObjectKey, match _data_table c !! p.2 with
                                    | Some dv => (dv_idx dv =? p.1)%nat
                                    | None => false
                                    end) (imap pair (_data_array c)) = true → registered c.
Proof.
  rewrite forallb_forall. intros Hall i key Hi. specialize (Hall (i, key)). simpl in Hall.
  destruct (_data_table c !! key) as [dv|].
  - exists dv. split; [done|]. apply Nat.eqb_eq, Hall, list_elem_of_In, list_elem_of_lookup.
    exists i. by rewrite list_lookup_imap, Hi.
  - exfalso. assert (false = true); [|done]. apply Hall, list_elem_of_In, list_elem_of_lookup.
    exists i. by rewrite list_lookup_imap, Hi.
Qed.

Lemma demo_registered : registered demo_context.
Proof. apply registered_check. vm_compute. reflexivity. Qed.

Lemma closed_check cs :
  map_fold (λ a c b, b && match _parent c with Some p => bool_decide (is_Some (cs !! p)) | None => true end
                       && forallb (λ ch, match ch with Some p => bool_decide (is_Some (cs !! p)) | None => true end)
                            (_executed_childrens c)) true cs = true → closed cs.
Proof.
  intros Hf a b (c & Hc & Hb). revert Hf. rewrite (map_fold_delete_L _ _ a c cs); [| |done].
  - rewrite !andb_true_iff, forallb_forall. intros [[_ Hp] Hch]. destruct Hb as [E|Hin].
    + rewrite E in Hp. by apply bool_decide_eq_true_1 in Hp.
    + apply list_elem_of_In, Hch in Hin. by apply bool_decide_eq_true_1 in Hin.
  - intros ? ? ? ? ? ? ? ?. rewrite <-!andb_assoc. f_equal. rewrite !andb_assoc. rewrite <-!andb_assoc.
    match goal with |- ?x && (?y && (?z && ?t)) = _ => destruct x, y, z, t; reflexivity end.
Qed.

Lemma demo_closed : closed demo_contexts.
Proof. apply closed_check. vm_compute. reflexivity. Qed.

Lemma demo_self : demo_contexts !! 1%nat = Some demo_context.
Proof. reflexivity. Qed.

(** ** Contexts *)

Lemma Set_Get_witness :
  local_value RawPtr (snd (GraphDataContext_Set RawPtr demo_context ("x", 1) (Some 5) 0)) ("x", 1) (-1) = Some 5.
Proof.
  pose proof (Set_Get RawPtr demo_context ("x", 1) 5 0) as Hs.
  destruct (GraphDataContext_Set RawPtr demo_context ("x", 1) (Some 5) 0) as [b c] eqn:E.
  assert (b = true) as -> by (vm_compute in E; congruence). simpl. apply Hs. right. exists 0%nat.
  split; [reflexivity|]. split; [vm_compute; reflexivity|apply demo_registered].
Defined.

Lemma Get_correct_witness :
  ∃ r, GraphDataContext_Get demo_container RawPtr 2 demo_contexts 1 ("y", 1) (-1) = Some r ∧ r = Some 7.
Proof.
  destruct (Get_correct demo_contexts demo_closed demo_container RawPtr 2 1 ("y", 1)) as (r & Hr & _);
    [by exists demo_context|vm_compute; lia|]. exists r. split; [exact Hr|]. vm_compute in Hr. congruence.
Defined.

Lemma Move_takes_witness :
  ∃ r cs', GraphDataContext_Move RawPtr 2 demo_contexts 1 ("y", 1) (-1) = Some (r, cs') ∧ r = Some 7.
Proof.
  destruct (Move_takes demo_contexts demo_closed 2 1 ("y", 1)) as (r & cs' & Hr & _);
    [by exists demo_context|vm_compute; lia|]. exists r, cs'. split; [exact Hr|]. vm_compute in Hr. congruence.
Defined.

Lemma Move_shared_null_witness :
  GraphDataContext_Move SharedPtr 2 demo_contexts 1 ("y", 1) (-1) = Some (None, demo_contexts).
Proof. apply (Move_shared_null demo_contexts demo_closed); [by exists demo_context|vm_compute; lia]. Defined.

(** ** Fields *)

Definition demo_out : FieldData := with_idx 0 (new_FieldData (plain_field "x")).
Definition demo_var : FieldData := with_idx 1 (new_FieldData (plain_field "$v")).

Lemma demo_indexed : Forall (indexed demo_context) [demo_out; demo_var].
Proof.
  constructor; [right; exists 0%nat|constructor; [right; exists 1%nat|constructor]];
    (split; [reflexivity|vm_compute; reflexivity]).
Qed.

Lemma output_reaches_input_witness :
  ∃ cs1 cs2 pf2, CollectOutputs 1 None (λ _, Some 9) [demo_out] demo_contexts = Some (0, cs1) ∧
    InjectInputs demo_container 2 1 None [demo_out; demo_var] (cs1, {| single := ∅; maps := ∅ |}) = Some (0, (cs2, pf2)) ∧
    single pf2 !! "x" = Some (Some 9).
Proof.
  pose proof demo_indexed as [H0 _]%Forall_cons.
  apply (output_reaches_input demo_container 2 1 None (λ _, Some 9) [demo_out] [demo_out; demo_var] demo_out demo_out
           demo_contexts demo_context).
  - apply demo_closed.
  - vm_compute. lia.
  - apply demo_self.
  - apply demo_registered.
  - constructor; [exact H0|constructor].
  - apply demo_indexed.
  - repeat constructor.
  - apply NoDup_singleton.
  - repeat constructor.
  - apply NoDup_cons. split; [|apply NoDup_singleton]. by intros ?%list_elem_of_singleton.
  - left.
  - left.
  - reflexivity.
  - reflexivity.
  - reflexivity.
  - reflexivity.
  - intros e He. left. rewrite !elem_of_cons, elem_of_nil in He. by destruct He as [->|[->|[]]].
  - vm_compute. eauto.
  - reflexivity.
Defined.

Definition demo_processor : ProcessorInfo := {| pi_inputs := [plain_field "z"]; pi_outputs := [plain_field "x"] |}.
Definition demo_required : GraphData :=
  {| gd_id := "z"; gd_field := "z"; gd_move_from_when_skipped := ""; gd_aggregate := []; gd_required := true;
     gd_move := false; gd_is_extern := false; gd_is_in_out := false |}.
Definition demo_fallback : GraphData :=
  {| gd_id := "x"; gd_field := "x"; gd_move_from_when_skipped := "y"; gd_aggregate := []; gd_required := false;
     gd_move := false; gd_is_extern := false; gd_is_in_out := false |}.

Lemma required_ignored_witness :
  ∃ ins outs, PrepareInputs true demo_processor [demo_required] = Some ins ∧
    PrepareOutputs true demo_processor [demo_fallback] = Some outs ∧
    (∃ st, InjectInputs demo_container 2 1 None ins (demo_contexts, {| single := ∅; maps := ∅ |}) = Some (0, st)) ∧
    MoveDataWhenSkipped 2 1 outs demo_contexts = Some (0, demo_contexts).
Proof.
  eexists _, _. split; [reflexivity|]. split; [reflexivity|].
  apply (required_ignored demo_container 2 1 None true demo_processor [demo_required] [demo_fallback]);
    [reflexivity|reflexivity|apply demo_closed|by exists demo_context|vm_compute; lia].
Defined.

(** The variable stands for a name without data. *)
Lemma var_output_lost_witness :
  CollectOutputs 1 (Some (λ _, "w")) (λ _, Some 9) [new_FieldData (plain_field "$v")] demo_contexts
  = Some (0, demo_contexts).
Proof.
  apply (var_output_lost 1 (Some (λ _, "w")) (λ _, Some 9) (new_FieldData (plain_field "$v")) (λ _, "w")
           demo_contexts demo_context); try reflexivity.
Defined.

(** The variable stands for [x], which has the value 5. *)
Definition demo_alone : GraphDataContext :=
  GraphDataContext_SetParent None (snd (GraphDataContext_Set RawPtr demo_context ("x", 1) (Some 5) 0)).

Lemma demo_alone_registered : registered demo_alone.
Proof. apply registered_check. vm_compute. reflexivity. Qed.

Lemma var_input_misses_witness :
  local_value RawPtr demo_alone ("x", 1) (-1) = Some 5 ∧
  ∃ pf', InjectInputs demo_container 1 1 (Some demo_vars) [demo_var] ({[1%nat := demo_alone]}, {| single := ∅; maps := ∅ |})
         = Some (0, ({[1%nat := demo_alone]}, pf')) ∧
    ∀ v, single pf' !! "$v" ≠ Some (Some v).
Proof.
  split; [vm_compute; reflexivity|].
  destruct (var_input_misses demo_container 1 1 (Some demo_vars) demo_var demo_vars demo_alone 1)
    with (pf := {| single := ∅; maps := ∅ |} : processor_fields) as (pf' & Hi & Hn);
    [reflexivity..|vm_compute; reflexivity|apply demo_alone_registered|vm_compute; reflexivity|reflexivity|reflexivity|reflexivity|lia|].
  exists pf'. split; [exact Hi|]. intros v. by apply Hn.
Defined.

(** * The theorems about clusters at a concrete one

    Three scripts for the graph [g]: the second has the highest priority, but
    its version is refused. *)

Open Scope string_scope.
Open Scope list_scope.
Open Scope Z_scope.

Definition demo_version : option (string → bool) := Some (λ v, negb (bool_decide (v = "old"))).

Definition demo_graph (version : string) (priority : Z) : GraphScript :=
  {| gs_name := "g"; gs_expect_version := version; gs_priority := priority; gs_vertex := demo_script |}.
Definition night : ConfigSetting := {| cfg_name := "night"; cfg_cond := "hour > 20"; cfg_processor := "" |}.

Definition demo_gc : GraphCluster :=
  {| gc_name := "demo.toml"; gc_strict_dsl := true; gc_default_expr_processor := "expr";
     gc_default_context_pool_size := 1;
     gc_graph := [demo_graph "new" 1; demo_graph "old" 9; demo_graph "new" 3];
     gc_config_setting := [night]; gc_graphs := ∅; gc_built := ∅; gc_builded := false |}.

Definition demo_built_gc : GraphCluster * list (option GraphClusterContext) :=
  match GraphCluster_Build demo_version 10 demo_gc with
  | Done r => r
  | _ => (demo_gc, [])
  end.

Lemma cluster_selects_witness :
  FindGraphByName demo_built_gc.1 "g" = Some 2%nat ∧ chosen demo_version (gc_graph demo_gc) "g" 2.
Proof.
  assert (FindGraphByName demo_built_gc.1 "g" = Some 2%nat) as Hf by (vm_compute; reflexivity).
  split; [exact Hf|].
  pose proof (cluster_selects demo_version 10 demo_gc demo_built_gc.1 demo_built_gc.2 "g") as Hs.
  rewrite Hf in Hs. apply Hs; [reflexivity|reflexivity|reflexivity|vm_compute; reflexivity].
Defined.

(** The context of the pool. *)
Definition demo_cluster_context : GraphClusterContext :=
  match demo_built_gc.2 with
  | Some x :: _ => x
  | _ => {| _running_graph := None; _last_runnin_graph := None; _config_settings := [];
            _graph_context_table := ∅; _end_ustime := 0 |}
  end.

Lemma GetRunGraph_after_reset_witness :
  (GetRunGraph "g" (Some 0%nat) (GraphClusterContext_Reset (graph_at demo_built_gc.1) demo_cluster_context)).1 = Some "g".
Proof.
  destruct (GetRunGraph_after_reset (graph_at demo_built_gc.1) demo_cluster_context "g" (Some 0%nat)) as [Hr _].
  - split; intros name Hn; vm_compute in Hn; discriminate.
  - rewrite Hr. vm_compute. reflexivity.
Defined.

Definition demo_manager : GraphManager :=
  {| has_concurrent_executor := true; m_graphs := {["demo.toml" := demo_built_gc]} |}.

Definition demo_started : attempt (Z * list Z * option GraphClusterContext * GraphManager) :=
  GraphManager_Execute (λ _, 0) (λ i, 100 + Z.of_nat i) 2 demo_manager (Some 0%nat)
    "demo.toml" "g" 5 0.

Lemma manager_done_witness :
  ∃ rc calls x m', demo_started = Done (rc, calls, x, m') ∧ calls = [] ∧ is_Some x.
Proof.
  destruct demo_started as [[[[rc calls] x] m']| |] eqn:E; [|vm_compute in E; discriminate..].
  exists rc, calls, x, m'. split; [reflexivity|].
  assert (calls = []) as Hc by (vm_compute in E; congruence).
  destruct (manager_done _ _ _ _ _ _ _ _ _ _ _ _ _ E) as [[[Hc' _]|(_ & _ & y & r & -> & _)] _];
    [congruence|]. split; [exact Hc|]. by exists y.
Defined.

Lemma setting_shift_witness :
  ∃ settings c,
    setup_settings false [{| cfg_name := "a"; cfg_cond := ""; cfg_processor := "none" |};
                                    {| cfg_name := "b"; cfg_cond := ""; cfg_processor := "expr" |}] = Some settings ∧
    publish_settings (λ _, 0) (λ _, 100) 2
      [{| cfg_name := "a"; cfg_cond := ""; cfg_processor := "none" |};
       {| cfg_name := "b"; cfg_cond := ""; cfg_processor := "expr" |}] 0 settings new_GraphDataContext
    = Some ([({| cfg_name := "b"; cfg_cond := ""; cfg_processor := "expr" |}, 1)], c) ∧
    local_value RawPtr c ("a", 2) (-1) = Some 100 ∧ local_value RawPtr c ("b", 2) (-1) = None.
Proof.
  apply (setting_shift (λ _, 0) (λ _, 100) 2); [reflexivity|by eexists|reflexivity|discriminate].
Defined.
