(* ===== verification/RdictHash.v ===== *)
(** * RdictHash: the hash functions of rdict (rdict.h, namespace wyhash)

    A key is the list of its bytes; a read outside it is [None].  The result is
    a 64-bit number.  Proved here: the portable multiplication computes the same
    as the one with 128-bit integers, and no read of [hash] is out of bounds. *)

From S2P Require Import Prelude.

(** ** Multiplication *)

(** With [__uint128_t]: the low and the high half of the product. *)
Definition mum (a b : Z) : Z * Z :=
  let r := a * b in (u64 r, u64 (Z.shiftr r 64)).

(** Without it: four products of 32-bit halves and the two carries. *)
Definition mum_portable (a b : Z) : Z * Z :=
  let ha := Z.shiftr a 32 in
  let hb := Z.shiftr b 32 in
  let la := u32 a in
  let lb := u32 b in
  let rh := u64 (ha * hb) in
  let rm0 := u64 (ha * lb) in
  let rm1 := u64 (hb * la) in
  let rl := u64 (la * lb) in
  let t := u64 (rl + u64 (Z.shiftl rm0 32)) in
  let c := Z.b2z (t <? rl) in
  let lo := u64 (t + u64 (Z.shiftl rm1 32)) in
  let c := c + Z.b2z (lo <? t) in
  let hi := u64 (rh + Z.shiftr rm0 32 + Z.shiftr rm1 32 + c) in
  (lo, hi).

Definition mix (a b : Z) : Z := let '(a, b) := mum a b in Z.lxor a b.

(** ** Reads *)

Definition read_le (n : nat) (key : list Z) (p : Z) : option Z :=
  if (0 <=? p) && (p + Z.of_nat n <=? Z.of_nat (length key))
  then Some (le_value (take n (drop (Z.to_nat p) key))) else None.
Definition r8 (key : list Z) (p : Z) : option Z := read_le 8 key p.
Definition r4 (key : list Z) (p : Z) : option Z := read_le 4 key p.
(** Reads 1, 2 or 3 bytes. *)
Definition r3 (key : list Z) (p k : Z) : option Z :=
  x ← read_le 1 key p; y ← read_le 1 key (p + Z.shiftr k 1); z ← read_le 1 key (p + k - 1);
  Some (Z.lor (Z.lor (u64 (Z.shiftl x 16)) (u64 (Z.shiftl y 8))) z).

Definition secret0 : Z := 0xa0761d6478bd642f.
Definition secret1 : Z := 0xe7037ed1a0b428db.
Definition secret2 : Z := 0x8ebc6af09c88c6e3.
Definition secret3 : Z := 0x589965cc75374cc3.

(** ** Hashing bytes *)

(** [seed = mix(r8(p) ^ secret, r8(p + 8) ^ seed)] *)
Definition absorb (key : list Z) (p secret seed : Z) : option Z :=
  x ← r8 key p; y ← r8 key (p + 8); Some (mix (Z.lxor x secret) (Z.lxor y seed)).

(** [do ... while (i > 48)]; the loop ends before the fuel, the length of the
    key, does. *)
Fixpoint loop48 (fuel : nat) (key : list Z) (p i seed see1 see2 : Z) : option (Z * Z * Z) :=
  match fuel with
  | O => None
  | S fuel =>
      seed ← absorb key p secret1 seed;
      see1 ← absorb key (p + 16) secret2 see1;
      see2 ← absorb key (p + 32) secret3 see2;
      let p := p + 48 in
      let i := i - 48 in
      if 48 <? i then loop48 fuel key p i seed see1 see2
      else Some (p, i, Z.lxor seed (Z.lxor see1 see2))
  end.

(** [while (i > 16)] *)
Fixpoint loop16 (fuel : nat) (key : list Z) (p i seed : Z) : option (Z * Z * Z) :=
  if 16 <? i then
    match fuel with
    | O => None
    | S fuel => seed ← absorb key p secret1 seed; loop16 fuel key (p + 16) (i - 16) seed
    end
  else Some (p, i, seed).

Definition hash_bytes (key : list Z) : option Z :=
  let len := Z.of_nat (length key) in
  let seed := secret0 in
  '(a, b, seed) ←
    (if len <=? 16 then
       if 4 <=? len then
         let half := Z.shiftl (Z.shiftr len 3) 2 in
         x ← r4 key 0; y ← r4 key half;
         z ← r4 key (len - 4); w ← r4 key (len - 4 - half);
         Some (Z.lor (u64 (Z.shiftl x 32)) y, Z.lor (u64 (Z.shiftl z 32)) w, seed)
       else if 0 <? len then a ← r3 key 0 len; Some (a, 0, seed)
       else Some (0, 0, seed)
     else
       '(p, i, seed) ← (if 48 <? len then loop48 (length key) key 0 len seed seed seed
                        else Some (0, len, seed));
       '(p, i, seed) ← loop16 (length key) key p i seed;
       a ← r8 key (p + i - 16); b ← r8 key (p + i - 8);
       Some (a, b, seed));
  Some (mix (Z.lxor secret1 len) (mix (Z.lxor a secret1) (Z.lxor b seed))).

(** Hashing a number. *)
Definition hash_u64 (x : Z) : Z := mix x 0x9E3779B97F4A7C15.

(** ** The two multiplications agree *)

(** An addition of 64-bit numbers carries exactly when the sum is smaller than
    an operand. *)
Lemma carry_out x y : is_u64 x → is_u64 y → x + y = u64 (x + y) + 2 ^ 64 * Z.b2z (u64 (x + y) <? x).
Proof.
  unfold is_u64, u64. intros Hx Hy.
  destruct (decide (x + y < 2 ^ 64)).
  - rewrite Z.mod_small by lia. destruct (Z.ltb_spec (x + y) x); simpl; lia.
  - replace ((x + y) mod 2 ^ 64) with (x + y - 2 ^ 64).
    + destruct (Z.ltb_spec (x + y - 2 ^ 64) x); simpl; lia.
    + rewrite <-(Z_mod_plus_full (x + y) (-1)), Z.mod_small; lia.
Qed.

Lemma halves a : is_u64 a → ∃ h l, a = h * 2 ^ 32 + l ∧ Z.shiftr a 32 = h ∧ u32 a = l ∧ is_u32 h ∧ is_u32 l.
Proof.
  unfold is_u64, is_u32, u32. intros Ha. exists (a / 2 ^ 32), (a mod 2 ^ 32).
  rewrite Z.shiftr_div_pow2 by lia. pose proof (Z.div_mod a (2 ^ 32)).
  pose proof (Z.mod_pos_bound a (2 ^ 32)).
  assert (a / 2 ^ 32 < 2 ^ 32) by (apply Z.div_lt_upper_bound; lia).
  assert (0 <= a / 2 ^ 32) by (apply Z.div_pos; lia). repeat split; lia.
Qed.

Lemma mul_u32 x y : is_u32 x → is_u32 y → 0 <= x * y <= (2 ^ 32 - 1) * (2 ^ 32 - 1).
Proof. unfold is_u32. nia. Qed.

(** The low half of a product, moved up. *)
Lemma shiftl_32 x : is_u64 x → ∃ h l, x = h * 2 ^ 32 + l ∧ Z.shiftr x 32 = h ∧
  u64 (Z.shiftl x 32) = l * 2 ^ 32 ∧ is_u32 h ∧ is_u32 l.
Proof.
  intros Hx. destruct (halves x Hx) as (h&l&Hs&Hh&Hl&Hrh&Hrl). exists h, l.
  split; [done|split; [done|split; [|done]]].
  unfold u64, is_u32 in *. rewrite Z.shiftl_mul_pow2, Hs by lia.
  replace ((h * 2 ^ 32 + l) * 2 ^ 32) with (l * 2 ^ 32 + h * 2 ^ 64) by lia.
  rewrite Z_mod_plus_full, Z.mod_small; lia.
Qed.

(** The multiplication from four products of halves computes both halves of
    the 128-bit product, for all operands. *)
Theorem mum_portable_correct a b : is_u64 a → is_u64 b → mum_portable a b = mum a b.
Proof.
  intros Ha Hb. unfold mum_portable, mum.
  destruct (halves a Ha) as (ha&la&Hsa&->&->&Hha&Hla). destruct (halves b Hb) as (hb&lb&Hsb&->&->&Hhb&Hlb).
  pose proof (mul_u32 _ _ Hha Hhb) as Hrh. pose proof (mul_u32 _ _ Hha Hlb) as Hm0.
  pose proof (mul_u32 _ _ Hhb Hla) as Hm1. pose proof (mul_u32 _ _ Hla Hlb) as Hrl.
  rewrite !(u64_id (_ * _)) by (unfold is_u64; lia).
  destruct (shiftl_32 (ha * lb)) as (h0&l0&Hp0&->&->&?&?); [unfold is_u64; lia|].
  destruct (shiftl_32 (hb * la)) as (h1&l1&Hp1&->&->&?&?); [unfold is_u64; lia|].
  assert (is_u64 (l0 * 2 ^ 32) ∧ is_u64 (l1 * 2 ^ 32)) as [??] by (unfold is_u64, is_u32 in *; lia).
  pose proof (carry_out (la * lb) (l0 * 2 ^ 32) ltac:(unfold is_u64; lia) ltac:(done)) as Hc0.
  set (t := u64 (la * lb + l0 * 2 ^ 32)) in *.
  pose proof (carry_out t (l1 * 2 ^ 32) (u64_range _) ltac:(done)) as Hc1.
  set (lo := u64 (t + l1 * 2 ^ 32)) in *.
  set (c0 := Z.b2z (t <? la * lb)) in *. set (c1 := Z.b2z (lo <? t)) in *.
  assert (a * b = 2 ^ 64 * (ha * hb + h0 + h1 + (c0 + c1)) + lo) as Hab by nia.
  pose proof (u64_range (t + l1 * 2 ^ 32)) as Hlo. fold lo in Hlo. unfold is_u64 in Hlo.
  assert (0 <= c0 <= 1 ∧ 0 <= c1 <= 1) as [??]
    by (subst c0 c1; destruct (t <? la * lb), (lo <? t); simpl; lia).
  unfold is_u64 in Ha, Hb.
  rewrite Z.shiftr_div_pow2, Hab, (Z.mul_comm (2 ^ 64)), Z.div_add_l, Z.div_small by lia.
  f_equal.
  - unfold u64. rewrite Z.add_comm, Z_mod_plus_full, Z.mod_small; lia.
  - f_equal. lia.
Qed.

(** ** Bounds *)

Lemma read_le_ok n key p :
  Forall is_u8 key → 0 <= p → p + Z.of_nat n <= Z.of_nat (length key) →
  ∃ x, read_le n key p = Some x ∧ 0 <= x < 256 ^ Z.of_nat n.
Proof.
  intros Hk Hp Hn. unfold read_le. rewrite (proj2 (Z.leb_le 0 p)), (proj2 (Z.leb_le _ _)) by lia.
  simpl. eexists; split; [done|].
  assert (length (take n (drop (Z.to_nat p) key)) = n) as Hl by (rewrite length_take, length_drop; lia).
  pose proof (le_value_range (take n (drop (Z.to_nat p) key))) as Hr. rewrite Hl in Hr.
  apply Hr. by apply Forall_take, Forall_drop.
Qed.

Lemma r8_ok key p : Forall is_u8 key → 0 <= p → p + 8 <= Z.of_nat (length key) → ∃ x, r8 key p = Some x ∧ is_u64 x.
Proof. intros. destruct (read_le_ok 8 key p) as (x&?&?); [done..|]. by exists x. Qed.
Lemma r4_ok key p : Forall is_u8 key → 0 <= p → p + 4 <= Z.of_nat (length key) → ∃ x, r4 key p = Some x ∧ is_u32 x.
Proof. intros. destruct (read_le_ok 4 key p) as (x&?&?); [done..|]. by exists x. Qed.

(** Numbers of [n] bits are closed under the bitwise operations. *)
Lemma bitwise_range n x y :
  0 <= n → 0 <= x < 2 ^ n → 0 <= y < 2 ^ n → 0 <= Z.lxor x y < 2 ^ n ∧ 0 <= Z.lor x y < 2 ^ n.
Proof.
  intros Hn Hx Hy.
  assert (∀ z i, 0 <= z < 2 ^ n → n <= i → Z.testbit z i = false) as Hz.
  { intros z i Hz Hi. rewrite <-(Z.mod_small z (2 ^ n)) by lia. apply Z.mod_pow2_bits_high. lia. }
  assert (∀ z, (∀ i, n <= i → Z.testbit z i = false) → 0 <= z < 2 ^ n) as Hr.
  { intros z Hb. replace z with (z mod 2 ^ n); [apply Z.mod_pos_bound; lia|].
    apply Z.bits_inj'. intros i Hi. destruct (decide (i < n)).
    - apply Z.mod_pow2_bits_low. lia.
    - rewrite Z.mod_pow2_bits_high by lia. symmetry. apply Hb. lia. }
  split; apply Hr; intros i Hi; rewrite ?Z.lxor_spec, ?Z.lor_spec, !Hz by done; done.
Qed.

Lemma lxor_u64 x y : is_u64 x → is_u64 y → is_u64 (Z.lxor x y).
Proof. intros. by apply (bitwise_range 64). Qed.
Lemma lor_u64 x y : is_u64 x → is_u64 y → is_u64 (Z.lor x y).
Proof. intros. by apply (bitwise_range 64). Qed.
Lemma mix_u64 a b : is_u64 (mix a b).
Proof. unfold mix, mum. apply lxor_u64; apply u64_range. Qed.
Lemma hash_u64_range x : is_u64 (hash_u64 x).
Proof. apply mix_u64. Qed.

Lemma absorb_ok key p secret seed :
  Forall is_u8 key → 0 <= p → p + 16 <= Z.of_nat (length key) → ∃ s, absorb key p secret seed = Some s ∧ is_u64 s.
Proof.
  intros Hk Hp Hl. unfold absorb.
  destruct (r8_ok key p) as (x&->&_); [done|lia..|]. destruct (r8_ok key (p + 8)) as (y&->&_); [done|lia..|].
  simpl. eexists; split; [done|]. apply mix_u64.
Qed.

Lemma loop48_ok fuel key p i seed see1 see2 :
  Forall is_u8 key → 0 <= p → 48 < i → i < 48 * Z.of_nat fuel → p + i = Z.of_nat (length key) →
  ∃ p' i' s', loop48 fuel key p i seed see1 see2 = Some (p', i', s') ∧
    p <= p' ∧ 0 < i' <= 48 ∧ p' + i' = p + i ∧ is_u64 s'.
Proof.
  intros Hk. revert p i seed see1 see2. induction fuel as [|fuel IH]; intros p i seed see1 see2 Hp Hi Hf Hl; [lia|].
  simpl. destruct (absorb_ok key p secret1 seed) as (s0&->&?); [done|lia..|].
  destruct (absorb_ok key (p + 16) secret2 see1) as (s1&->&?); [done|lia..|].
  destruct (absorb_ok key (p + 32) secret3 see2) as (s2&->&?); [done|lia..|]. simpl.
  destruct (Z.ltb_spec 48 (i - 48)).
  - destruct (IH (p + 48) (i - 48) s0 s1 s2) as (p'&i'&s'&->&?&?&?&?); [lia..|].
    exists p', i', s'. split_and!; try done; lia.
  - do 3 eexists. split; [done|]. split_and!; [lia..|]. by repeat apply lxor_u64.
Qed.

Lemma loop16_ok fuel key p i seed :
  Forall is_u8 key → 0 <= p → 0 < i → i <= 16 * Z.of_nat fuel + 16 → p + i = Z.of_nat (length key) → is_u64 seed →
  ∃ p' i' s', loop16 fuel key p i seed = Some (p', i', s') ∧ p' + i' = p + i ∧ is_u64 s'.
Proof.
  intros Hk. revert p i seed. induction fuel as [|fuel IH]; intros p i seed Hp Hi Hf Hl Hs; simpl;
    (destruct (Z.ltb_spec 16 i); [|by eauto 10]); [lia|].
  destruct (absorb_ok key p secret1 seed) as (s0&->&?); [done|lia..|]. simpl.
  destruct (IH (p + 16) (i - 16) s0) as (p'&i'&s'&->&?&?); [lia..|done|].
  exists p', i', s'. split_and!; try done; lia.
Qed.

(** Hashing the bytes of a key reads only bytes of the key, whatever its
    length, its loops end, and the result is a number of 64 bits. *)
Theorem hash_bytes_safe key : Forall is_u8 key → ∃ h, hash_bytes key = Some h ∧ is_u64 h.
Proof.
  intros Hk. unfold hash_bytes. set (len := Z.of_nat (length key)).
  destruct (Z.leb_spec len 16); [destruct (Z.leb_spec 4 len)|].
  - set (half := Z.shiftl (Z.shiftr len 3) 2).
    assert (0 <= half <= len - 4) as Hh.
    { subst half. rewrite Z.shiftl_mul_pow2, Z.shiftr_div_pow2 by lia. change (2 ^ 3) with 8. change (2 ^ 2) with 4.
      pose proof (Z.div_mod len 8). pose proof (Z.mod_pos_bound len 8). lia. }
    destruct (r4_ok key 0) as (x&->&?); [done|lia..|]. destruct (r4_ok key half) as (y&->&?); [done|lia..|].
    destruct (r4_ok key (len - 4)) as (z&->&?); [done|lia..|].
    destruct (r4_ok key (len - 4 - half)) as (w&->&?); [done|lia..|].
    simpl. eexists; split; [done|]. apply mix_u64.
  - destruct (Z.ltb_spec 0 len); simpl; [|eexists; split; [done|apply mix_u64]].
    assert (0 <= Z.shiftr len 1 < len) as Hh.
    { rewrite Z.shiftr_div_pow2 by lia. change (2 ^ 1) with 2. pose proof (Z.div_lt len 2).
      pose proof (Z.div_pos len 2). lia. }
    unfold r3. destruct (read_le_ok 1 key 0) as (x&->&?); [done|lia..|].
    destruct (read_le_ok 1 key (0 + Z.shiftr len 1)) as (y&->&?); [done|lia..|].
    destruct (read_le_ok 1 key (0 + len - 1)) as (z&->&?); [done|lia..|].
    simpl. eexists; split; [done|apply mix_u64].
  - assert (∃ p i s, (if 48 <? len then loop48 (length key) key 0 len secret0 secret0 secret0
                      else Some (0, len, secret0)) = Some (p, i, s) ∧
              0 <= p ∧ 0 < i ∧ p + i = len ∧ is_u64 s) as (p&i&s&->&?&?&?&?).
    { destruct (Z.ltb_spec 48 len).
      - destruct (loop48_ok (length key) key 0 len secret0 secret0 secret0) as (p&i&s&->&?&?&?&?); [done|lia..|].
        exists p, i, s. split_and!; try done; lia.
      - exists 0, len, secret0. split_and!; try done; lia. }
    simpl. destruct (loop16_ok (length key) key p i s) as (p'&i'&s'&->&?&?); [done|lia..|done|]. simpl.
    destruct (r8_ok key (p' + i' - 16)) as (a&->&?); [done|lia..|].
    destruct (r8_ok key (p' + i' - 8)) as (b&->&?); [done|lia..|].
    simpl. eexists; split; [done|apply mix_u64].
Qed.

(** [mix] with the portable multiplication is the same function. *)
Lemma mix_portable a b : is_u64 a → is_u64 b → (let '(x, y) := mum_portable a b in Z.lxor x y) = mix a b.
Proof. intros. unfold mix. by rewrite mum_portable_correct. Qed.
