(* ===== verification/RdictTable.v ===== *)
(** * RdictTable: the bucket array of a dictionary (rdict.h)

    Open addressing with the order of Robin Hood hashing: a bucket keeps, in one
    number, the distance of its entry to the bucket its hash names and eight
    bits of the hash; 0 says that the bucket is free.  This file has the loops
    over the array, which are the same for both kinds of buckets: what else a
    bucket holds is its [payload].

    [None] as a result says that the source reads outside the array or that its
    loop has been to every bucket without finding an end: the loops go to the
    next bucket in every round, and their fuel is one round more than there are
    buckets.  Such a loop goes on until the distances overflow their 24 bits
    ([place_full]).  *)

From S2P Require Import Prelude RdictHash.

Definition k_dist_inc : Z := Z.shiftl 1 8.
Definition k_fingerprint_mask : Z := k_dist_inc - 1.

Record Bucket (P : Type) := { payload : P; dist_and_fingerprint : Z }.
Arguments payload {P}.
Arguments dist_and_fingerprint {P}.
Arguments Build_Bucket {P}.

Definition dist_and_fingerprint_from_hash (hash : Z) : Z :=
  Z.lor k_dist_inc (Z.land (u32 hash) k_fingerprint_mask).
Definition bucket_idx_from_hash (shifts hash : Z) : Z := u64 (Z.shiftr hash shifts).
Definition dist_inc (x : Z) : Z := u32 (x + k_dist_inc).
Definition next (num_buckets bucket_idx : Z) : Z :=
  if u64 (bucket_idx + 1) =? num_buckets then 0 else u64 (bucket_idx + 1).

Section loops.
Context {P : Type}.
Implicit Types (bs : list (Bucket P)) (idx df n : Z).

Definition bucket_at bs idx : option (Bucket P) := if idx <? 0 then None else bs !! Z.to_nat idx.

(** The loop of [next_while_less]; the index is returned as the first of a
    [std::pair<uint32_t, uint64_t>]. *)
Fixpoint less_loop (fuel : nat) n bs df idx : option (Z * Z) :=
  match fuel with
  | O => None
  | S fuel =>
      b ← bucket_at bs idx;
      if df <? dist_and_fingerprint b then less_loop fuel n bs (dist_inc df) (next n idx)
      else Some (u32 idx, df)
  end.
Definition next_while_less n (shifts : Z) bs (hash : Z) : option (Z * Z) :=
  less_loop (S (length bs)) n bs (dist_and_fingerprint_from_hash hash) (bucket_idx_from_hash shifts hash).

Fixpoint place_and_shift_up (fuel : nat) n bs (bucket : Bucket P) (place : Z) : option (list (Bucket P)) :=
  match fuel with
  | O => None
  | S fuel =>
      b ← bucket_at bs place;
      if negb (0 =? dist_and_fingerprint b) then
        place_and_shift_up fuel n (<[Z.to_nat place := bucket]> bs)
          {| payload := payload b; dist_and_fingerprint := dist_inc (dist_and_fingerprint b) |} (next n place)
      else Some (<[Z.to_nat place := bucket]> bs)
  end.

(** The loop [Put], [PutDirect], [Exists] and [Get] start with: the bucket with
    the key, or the first bucket whose entry is nearer to its place than the key
    would be. *)
Context {K : Type} `{!EqDecision K} (key_by : P → option K).
Inductive probe_result := Found (idx : Z) | Absent (idx df : Z).
Fixpoint probe_loop (fuel : nat) n bs (key : K) df idx : option probe_result :=
  match fuel with
  | O => None
  | S fuel =>
      b ← bucket_at bs idx;
      if df <=? dist_and_fingerprint b then
        hit ← (if df =? dist_and_fingerprint b
               then k ← key_by (payload b); Some (bool_decide (key = k)) else Some false);
        if (hit : bool) then Some (Found idx)
        else probe_loop fuel n bs key (dist_inc df) (next n idx)
      else Some (Absent idx df)
  end.
Definition probe n (shifts : Z) bs (key : K) (hash : Z) : option probe_result :=
  probe_loop (S (length bs)) n bs key (dist_and_fingerprint_from_hash hash) (bucket_idx_from_hash shifts hash).

(** What the entries of an array are, in the order of the buckets. *)
Definition bucket_payload (b : Bucket P) : list P :=
  if 0 =? dist_and_fingerprint b then [] else [payload b].
Definition payloads bs : list P := bs ≫= bucket_payload.

(** [memset] of the array to 0. *)
Definition clear_buckets `{!Inhabited P} (n : Z) : list (Bucket P) :=
  replicate (Z.to_nat n) {| payload := inhabitant; dist_and_fingerprint := 0 |}.
End loops.
Arguments probe_result : clear implicits.

(** ** The invariant of the array *)

#[local] Arguments Z.eqb : simpl never.

Section invariant.
Context {P : Type} (n shifts : Z) (hash_of : P → Z).
Context (Hn : n = 2 ^ (64 - shifts)) (Hshifts : 41 <= shifts <= 62).
Implicit Types (bs : list (Bucket P)).

Definition home (h : Z) : Z := bucket_idx_from_hash shifts h.
Definition fingerprint (h : Z) : Z := Z.land (u32 h) k_fingerprint_mask.

(** The number at a place; a place outside the array counts as free. *)
Definition df_at bs (i : Z) : Z :=
  match bs !! Z.to_nat i with Some b => dist_and_fingerprint b | None => 0 end.

(** What the number of an entry must be at a place. *)
Definition df_for (h i : Z) : Z := 256 * ((i - home h) mod n + 1) + fingerprint h.

(** Every entry has the number of its place, and an entry that is not where its
    hash says is not followed by one that is farther away by more than a step:
    so the entries a search passes are at least as far away as the one it
    looks for. *)
Record table_ok bs : Prop := {
  ok_length : Z.of_nat (length bs) = n;
  ok_df : ∀ i b, 0 <= i → bs !! Z.to_nat i = Some b → dist_and_fingerprint b ≠ 0 →
          dist_and_fingerprint b = df_for (hash_of (payload b)) i;
  ok_order : ∀ i, 0 <= i < n → 512 <= df_at bs ((i + 1) mod n) → df_at bs ((i + 1) mod n) <= df_at bs i + 256;
}.

Definition has_free bs : Prop := ∃ e, 0 <= e < n ∧ df_at bs e = 0.

Lemma n_bounds : 4 <= n <= 2 ^ 23.
Proof using Hn Hshifts.
  subst n. split; [change 4 with (2 ^ 2)|]; apply Z.pow_le_mono_r; lia.
Qed.

Lemma fingerprint_range h : 0 <= fingerprint h < 256.
Proof.
  unfold fingerprint, k_fingerprint_mask, k_dist_inc. change (Z.shiftl 1 8 - 1) with (Z.ones 8).
  rewrite Z.land_ones by done. by apply Z.mod_pos_bound.
Qed.

Lemma home_range h : is_u64 h → 0 <= home h < n.
Proof using Hn Hshifts.
  unfold home, bucket_idx_from_hash, is_u64. intros Hh. rewrite Z.shiftr_div_pow2 by lia.
  assert (0 <= h / 2 ^ shifts < n) as Hr.
  { split; [apply Z.div_pos; lia|]. apply Z.div_lt_upper_bound; [lia|]. subst n.
    rewrite <-Z.pow_add_r by lia. replace (shifts + (64 - shifts)) with 64 by lia. lia. }
  rewrite u64_id; [done|]. pose proof n_bounds. unfold is_u64. lia.
Qed.

Lemma first_df h : dist_and_fingerprint_from_hash h = 256 + fingerprint h.
Proof.
  unfold dist_and_fingerprint_from_hash. fold (fingerprint h). change k_dist_inc with 256.
  rewrite <-Z.add_lor_land. unfold fingerprint. rewrite (Z.land_comm 256), <-Z.land_assoc.
  change (Z.land k_fingerprint_mask 256) with 0. by rewrite Z.land_0_r, Z.add_0_r.
Qed.

(** ** Places as steps from the home of an entry *)

Definition probe_at (h j : Z) : Z := (h + j) mod n.

Lemma probe_at_range h j : 0 <= probe_at h j < n.
Proof using Hn Hshifts. pose proof n_bounds. apply Z.mod_pos_bound. lia. Qed.

Lemma probe_at_next h j : (probe_at h j + 1) mod n = probe_at h (j + 1).
Proof. unfold probe_at. rewrite Zplus_mod_idemp_l. f_equal. lia. Qed.

Lemma steps_to h i : 0 <= i < n → probe_at h ((i - h) mod n) = i ∧ 0 <= (i - h) mod n < n.
Proof using Hn Hshifts.
  pose proof n_bounds. intros Hi. split; [|apply Z.mod_pos_bound; lia].
  unfold probe_at. rewrite Zplus_mod_idemp_r. replace (h + (i - h)) with i by lia. by apply Z.mod_small.
Qed.

Lemma steps_of h j : 0 <= j < n → (probe_at h j - h) mod n = j.
Proof using Hn Hshifts.
  pose proof n_bounds. intros Hj. unfold probe_at. rewrite Zminus_mod_idemp_l.
  replace (h + j - h) with j by lia. by apply Z.mod_small.
Qed.

Lemma next_probe h j : next n (probe_at h j) = probe_at h (j + 1).
Proof using Hn Hshifts.
  pose proof n_bounds. rewrite <-probe_at_next. pose proof (probe_at_range h j) as Hr.
  unfold next. rewrite u64_id by (unfold is_u64; lia). destruct (Z.eqb_spec (probe_at h j + 1) n) as [->|].
  - by rewrite Z.mod_same by lia.
  - rewrite Z.mod_small; lia.
Qed.

Lemma df_for_probe h j : 0 <= j < n → df_for h (probe_at (home h) j) = 256 * (j + 1) + fingerprint h.
Proof using Hn Hshifts. intros. unfold df_for. by rewrite steps_of. Qed.

Lemma inc_df j h : 0 <= j <= n → dist_inc (256 * j + fingerprint h) = 256 * (j + 1) + fingerprint h.
Proof using Hn Hshifts.
  intros Hj. pose proof n_bounds. pose proof (fingerprint_range h). unfold dist_inc. change k_dist_inc with 256.
  rewrite u32_id by (unfold is_u32; lia). lia.
Qed.

Lemma lookup_at bs i : table_ok bs → 0 <= i < n → ∃ b, bucket_at bs i = Some b ∧ bs !! Z.to_nat i = Some b ∧
  df_at bs i = dist_and_fingerprint b.
Proof using Hn Hshifts.
  intros Hok Hi. unfold bucket_at, df_at. rewrite (proj2 (Z.ltb_ge i 0)) by lia.
  destruct (lookup_lt_is_Some_2 bs (Z.to_nat i)) as [b Hb]; [pose proof (ok_length bs Hok); lia|].
  exists b. by rewrite Hb.
Qed.

(** The number of an entry is at least 256 and at most what the last place
    gives. *)
Lemma df_range bs i : table_ok bs → 0 <= i < n → df_at bs i = 0 ∨ 256 <= df_at bs i <= 256 * n + 255.
Proof using Hn Hshifts.
  intros Hok Hi. destruct (lookup_at bs i Hok Hi) as (b&_&Hb&->).
  destruct (decide (dist_and_fingerprint b = 0)) as [|Hne]; [by left|right].
  rewrite (ok_df bs Hok i b) by (done || lia). unfold df_for.
  pose proof (fingerprint_range (hash_of (payload b))). destruct (steps_to (home (hash_of (payload b))) i Hi). lia.
Qed.

(** An entry at distance [j]: all places from its home on hold entries that are
    at least as far away. *)
Lemma chain bs h j k : table_ok bs → 0 <= k <= j → j < n →
  df_for h (probe_at (home h) j) <= df_at bs (probe_at (home h) j) →
  df_for h (probe_at (home h) k) <= df_at bs (probe_at (home h) k).
Proof using Hn Hshifts.
  intros Hok Hk Hj Hd. pose proof (fingerprint_range h).
  assert (∀ d : nat, Z.of_nat d <= j →
    df_for h (probe_at (home h) (j - Z.of_nat d)) <= df_at bs (probe_at (home h) (j - Z.of_nat d))) as Hall.
  { induction d as [|d IH]; intros Hdj; [by rewrite Z.sub_0_r|]. specialize (IH ltac:(lia)).
    set (c := j - Z.of_nat (S d)) in *. replace (j - Z.of_nat d) with (c + 1) in IH by lia.
    rewrite df_for_probe in IH |- * by lia.
    pose proof (ok_order bs Hok (probe_at (home h) c) (probe_at_range _ _)) as Ho.
    rewrite probe_at_next in Ho. lia. }
  specialize (Hall (Z.to_nat (j - k))). rewrite Z2Nat.id in Hall by lia.
  replace (j - (j - k)) with k in Hall by lia. apply Hall. lia.
Qed.

(** In an array with a free bucket no entry is all the way round from its
    home. *)
Lemma no_wrap bs h i : table_ok bs → has_free bs → 0 <= i < n → df_for h i <= df_at bs i →
  (i - home h) mod n + 1 < n.
Proof using Hn Hshifts.
  intros Hok (e&He&Hz) Hi Hd. destruct (steps_to (home h) i Hi) as [Hs Hr].
  destruct (steps_to (home h) e He) as [Hse Hre].
  destruct (decide ((i - home h) mod n + 1 < n)) as [|Hge]; [done|].
  pose proof (chain bs h ((i - home h) mod n) ((e - home h) mod n) Hok) as Hc.
  rewrite Hs, Hse, Hz in Hc. specialize (Hc ltac:(lia) ltac:(lia) Hd).
  unfold df_for in Hc. pose proof (fingerprint_range h). lia.
Qed.

(** ** Placing an entry *)

(** Where an entry may be put: its number is that of the place, it is at least
    as far away as the entry there, and no more than a step farther than the
    one before. *)
Record fits bs (b : Bucket P) (i : Z) : Prop := {
  fits_range : 0 <= i < n;
  fits_df : dist_and_fingerprint b = df_for (hash_of (payload b)) i;
  fits_here : df_at bs i <= dist_and_fingerprint b;
  fits_before : 512 <= dist_and_fingerprint b → dist_and_fingerprint b <= df_at bs ((i - 1) mod n) + 256;
}.

Lemma df_at_insert bs i j b : table_ok bs → 0 <= i < n → 0 <= j < n →
  df_at (<[Z.to_nat i := b]> bs) j = if decide (i = j) then dist_and_fingerprint b else df_at bs j.
Proof using Hn Hshifts.
  intros Hok Hi Hj. pose proof (ok_length bs Hok) as Hl. unfold df_at. case_decide as E.
  - subst j. rewrite list_lookup_insert_eq by lia. done.
  - rewrite list_lookup_insert_ne by lia. done.
Qed.

Lemma pred_succ i : 0 <= i < n → ((i + 1) mod n - 1) mod n = i.
Proof using Hn Hshifts.
  pose proof n_bounds. intros. rewrite Zminus_mod_idemp_l. replace (i + 1 - 1) with i by lia. by apply Z.mod_small.
Qed.

(** Writing an entry that fits keeps the invariant, also over another entry. *)
Lemma insert_ok bs b i : table_ok bs → fits bs b i → table_ok (<[Z.to_nat i := b]> bs).
Proof using Hn Hshifts.
  intros Hok [Hi Hdf Hh Hb]. pose proof n_bounds. split.
  - rewrite length_insert. by apply ok_length.
  - intros j c Hj Hl Hne. destruct (decide (j = i)) as [->|Hji].
    + rewrite list_lookup_insert_eq in Hl by (pose proof (ok_length bs Hok); lia). by injection Hl as <-.
    + rewrite list_lookup_insert_ne in Hl by lia. by apply (ok_df bs Hok).
  - intros j Hj. pose proof (Z.mod_pos_bound (j + 1) n) as Hm.
    rewrite !df_at_insert by (done || lia).
    pose proof (ok_order bs Hok j Hj) as Ho. pose proof (pred_succ j Hj) as Hp.
    repeat case_decide; subst; rewrite ?Hp in Hb; try lia.
Qed.

Lemma payloads_insert bs i b : bs !! i = Some b → ∃ rest, payloads bs ≡ₚ bucket_payload b ++ rest ∧
  ∀ c, payloads (<[i := c]> bs) ≡ₚ bucket_payload c ++ rest.
Proof.
  intros Hl. exists (payloads (take i bs) ++ payloads (drop (S i) bs)).
  assert (∀ c, payloads (take i bs ++ c :: drop (S i) bs) ≡ₚ
    bucket_payload c ++ payloads (take i bs) ++ payloads (drop (S i) bs)) as Hp.
  { intros c. unfold payloads. rewrite bind_app, bind_cons, !app_assoc.
    apply Permutation_app_tail, Permutation_app_comm. }
  split; [rewrite <-(take_drop_middle bs i b Hl) at 1; apply Hp|].
  intros c. rewrite insert_take_drop by by eapply lookup_lt_Some. apply Hp.
Qed.

Lemma shifted_fits bs b i : table_ok bs → has_free bs → fits bs b i → ∀ c, bs !! Z.to_nat i = Some c →
  dist_and_fingerprint c ≠ 0 →
  fits (<[Z.to_nat i := b]> bs) {| payload := payload c; dist_and_fingerprint := dist_inc (dist_and_fingerprint c) |}
       (next n i) ∧ dist_inc (dist_and_fingerprint c) ≠ 0.
Proof using Hn Hshifts.
  intros Hok Hfree Hf c Hc Hne. pose proof n_bounds. destruct Hf as [Hi Hdf Hh Hb].
  destruct (lookup_at bs i Hok Hi) as (c'&_&Hc'&Hat). rewrite Hc in Hc'. injection Hc' as <-.
  pose proof (ok_df bs Hok i c ltac:(lia) Hc Hne) as Hcd. set (h := hash_of (payload c)) in *.
  pose proof (no_wrap bs h i Hok Hfree Hi ltac:(lia)) as Hw.
  destruct (steps_to (home h) i Hi) as [Hs Hr]. set (j := (i - home h) mod n) in *.
  assert (dist_and_fingerprint c = 256 * (j + 1) + fingerprint h) as Hcj by done.
  rewrite Hcj, inc_df by lia. pose proof (fingerprint_range h).
  rewrite <-Hs, next_probe, Hs.
  assert (i ≠ probe_at (home h) (j + 1)) as Hni.
  { intros He. assert (j = j + 1); [|lia]. rewrite <-(steps_of (home h) (j + 1)) by lia. by rewrite <-He. }
  pose proof (probe_at_range (home h) (j + 1)) as Hpr.
  split; [split; cbn [payload dist_and_fingerprint]|lia].
  - done.
  - rewrite df_for_probe by lia. done.
  - rewrite df_at_insert, decide_False by done.
    pose proof (ok_order bs Hok i Hi) as Ho. rewrite <-Hs, probe_at_next, Hs in Ho. lia.
  - intros _. rewrite <-Hs, <-probe_at_next, pred_succ, Hs by (apply probe_at_range).
    rewrite df_at_insert, decide_True by done. lia.
Qed.

Lemma bucket_payload_used (b : Bucket P) : dist_and_fingerprint b ≠ 0 → bucket_payload b = [payload b].
Proof. intros. unfold bucket_payload. by rewrite (proj2 (Z.eqb_neq _ _)). Qed.
Lemma bucket_payload_free (b : Bucket P) : dist_and_fingerprint b = 0 → bucket_payload b = [].
Proof. intros. unfold bucket_payload. by rewrite (proj2 (Z.eqb_eq _ _)). Qed.

Lemma probe_at_0 i : 0 <= i < n → probe_at i 0 = i.
Proof. intros. unfold probe_at. by rewrite Z.add_0_r, Z.mod_small. Qed.
Lemma probe_at_succ i j : 0 <= i < n → probe_at (next n i) j = probe_at i (j + 1).
Proof using Hn Hshifts.
  intros. rewrite <-(probe_at_0 i) at 1 by done. rewrite next_probe. unfold probe_at.
  rewrite Zplus_mod_idemp_l. f_equal. lia.
Qed.

(** The entry in hand is put down and the one it replaces taken up, until a free
    bucket is reached, [m] steps away. *)
Lemma place_ok fuel m bs b i : table_ok bs → fits bs b i → dist_and_fingerprint b ≠ 0 →
  (m < fuel)%nat → df_at bs (probe_at i (Z.of_nat m)) = 0 →
  ∃ bs', place_and_shift_up fuel n bs b i = Some bs' ∧ table_ok bs' ∧ payloads bs' ≡ₚ payload b :: payloads bs.
Proof using Hn Hshifts.
  revert fuel bs b i. induction m as [|m IH]; intros [|fuel] bs b i Hok Hf Hne Hm Hz; try lia; simpl;
    pose proof (fits_range _ _ _ Hf) as Hi;
    destruct (lookup_at bs i Hok Hi) as (c&->&Hl&Hat); simpl;
    destruct (payloads_insert bs _ c Hl) as (rest&Hrest&Hins);
    (destruct (Z.eqb_spec 0 (dist_and_fingerprint c)) as [Hc0|Hc0]; simpl;
     [eexists; split; [done|split; [by apply insert_ok|]];
      rewrite Hins, Hrest, bucket_payload_used, bucket_payload_free by done; done|]).
  - rewrite probe_at_0 in Hz by done. lia.
  - destruct (shifted_fits bs b i Hok) with (c := c) as [Hf' Hne']; [|done..|].
    { eexists; split; [apply (probe_at_range i (Z.of_nat (S m)))|done]. }
    destruct (IH fuel _ _ _ (insert_ok _ _ _ Hok Hf) Hf' Hne') as (bs'&->&Hok'&Hp); [lia| |].
    + rewrite probe_at_succ, df_at_insert by (done || apply probe_at_range).
      replace (Z.of_nat m + 1) with (Z.of_nat (S m)) by lia. case_decide as E; [|done].
      rewrite <-E in Hz. lia.
    + exists bs'. split; [done|split; [done|]]. rewrite Hp, Hins, Hrest, !bucket_payload_used by done.
      apply Permutation_swap.
Qed.

(** The way from a place to a free bucket. *)
Lemma free_ahead bs i : has_free bs → 0 <= i < n → ∃ m : nat, Z.of_nat m < n ∧ df_at bs (probe_at i (Z.of_nat m)) = 0.
Proof using Hn Hshifts.
  intros (e&He&Hz) Hi. destruct (steps_to i e He) as [Hs Hr]. exists (Z.to_nat ((e - i) mod n)).
  rewrite Z2Nat.id by lia. rewrite Hs. split; [lia|done].
Qed.

(** ** Searching for a place *)

(** Where a search for the place of [p] stops after [j] steps. *)
Definition reached bs (h j : Z) : Prop :=
  0 < j → 256 * j + fingerprint h <= df_at bs (probe_at (home h) (j - 1)).

Lemma reached_fits bs p h j : hash_of p = h → 0 <= j < n → reached bs h j →
  df_at bs (probe_at (home h) j) <= 256 * (j + 1) + fingerprint h →
  fits bs {| payload := p; dist_and_fingerprint := 256 * (j + 1) + fingerprint h |} (probe_at (home h) j).
Proof using Hn Hshifts.
  intros Hp Hj Hr Hd. pose proof (fingerprint_range h). split; cbn [payload dist_and_fingerprint].
  - apply probe_at_range.
  - by rewrite Hp, df_for_probe.
  - done.
  - intros Hb. replace (probe_at (home h) j) with ((probe_at (home h) (j - 1) + 1) mod n)
      by (rewrite probe_at_next; f_equal; lia).
    rewrite pred_succ by apply probe_at_range. specialize (Hr ltac:(lia)). lia.
Qed.

Lemma less_loop_ok fuel bs p h j m : table_ok bs → hash_of p = h → 0 <= j → j + Z.of_nat m < n → (m < fuel)%nat →
  df_at bs (probe_at (home h) (j + Z.of_nat m)) = 0 → reached bs h j →
  ∃ i, less_loop fuel n bs (256 * (j + 1) + fingerprint h) (probe_at (home h) j) = Some (i, df_for h i) ∧
       fits bs {| payload := p; dist_and_fingerprint := df_for h i |} i.
Proof using Hn Hshifts.
  intros Hok Hp. revert fuel j. induction m as [|m IH]; intros [|fuel] j Hj Hjm Hf Hz Hr; try lia; simpl;
    pose proof (fingerprint_range h) as Hfp; pose proof n_bounds as Hnb; pose proof (probe_at_range (home h) j) as Hpr;
    destruct (lookup_at bs (probe_at (home h) j) Hok Hpr) as (b&->&_&Hat); simpl;
    (destruct (Z.ltb_spec (256 * (j + 1) + fingerprint h) (dist_and_fingerprint b));
     [|exists (probe_at (home h) j); rewrite df_for_probe, u32_id by (unfold is_u32; lia);
       split; [done|apply reached_fits; lia || done]]).
  - rewrite Z.add_0_r in Hz. lia.
  - rewrite inc_df, next_probe by lia. apply IH; [lia..| |].
    + rewrite <-Hz. do 2 f_equal. lia.
    + intros _. replace (j + 1 - 1) with j by lia. lia.
Qed.

Lemma next_while_less_ok bs p h : table_ok bs → has_free bs → is_u64 h → hash_of p = h →
  ∃ i, next_while_less n shifts bs h = Some (i, df_for h i) ∧
       fits bs {| payload := p; dist_and_fingerprint := df_for h i |} i.
Proof using Hn Hshifts.
  intros Hok Hf Hh Hp. pose proof (home_range h Hh) as Hr. destruct (free_ahead bs (home h) Hf Hr) as (m&Hm&Hz).
  pose proof (less_loop_ok (S (length bs)) bs p h 0 m Hok Hp) as Hl.
  unfold next_while_less. rewrite first_df. rewrite probe_at_0, Z.add_0_l in Hl by done.
  pose proof (ok_length bs Hok). apply Hl; try done; lia.
Qed.

(** ** Free buckets *)

Lemma payloads_length bs : (length (payloads bs) <= length bs)%nat ∧
  (length (payloads bs) = length bs → Forall (λ b, dist_and_fingerprint b ≠ 0) bs).
Proof.
  clear Hn Hshifts. induction bs as [|b bs [IH1 IH2]]; [done|]. unfold payloads in *. rewrite bind_cons, length_app.
  destruct (decide (dist_and_fingerprint b = 0)) as [E|E].
  - rewrite bucket_payload_free by done. simpl. split; lia.
  - rewrite bucket_payload_used by done. simpl. split; [lia|]. intros [= El]. constructor; auto.
Qed.

Lemma all_used_length bs : Forall (λ b, dist_and_fingerprint b ≠ 0) bs → length (payloads bs) = length bs.
Proof.
  induction 1 as [|b bs Hb _ IH]; [done|]. unfold payloads in *.
  rewrite bind_cons, bucket_payload_used, length_app, IH by done. done.
Qed.

Lemma size_has_free bs : table_ok bs → Z.of_nat (length (payloads bs)) < n → has_free bs.
Proof using Hn Hshifts.
  intros Hok Hs. destruct (decide (Forall (λ b, dist_and_fingerprint b ≠ 0) bs)) as [Hall|Hex].
  - apply all_used_length in Hall. pose proof (ok_length bs Hok). lia.
  - apply not_Forall_Exists in Hex; [|apply _]. apply Exists_exists in Hex as (b&Hin&Hb).
    apply list_elem_of_lookup in Hin as [e He]. pose proof (lookup_lt_Some _ _ _ He).
    pose proof (ok_length bs Hok). exists (Z.of_nat e). split; [lia|].
    unfold df_at. rewrite Nat2Z.id, He. destruct (decide (dist_and_fingerprint b = 0)); naive_solver.
Qed.

Lemma clear_buckets_ok `{!Inhabited P} : table_ok (clear_buckets n) ∧ payloads (clear_buckets (P:=P) n) = [].
Proof using Hn Hshifts.
  pose proof n_bounds. split; [split|].
  - unfold clear_buckets. rewrite length_replicate. lia.
  - intros i b _ Hb Hne. apply lookup_replicate in Hb as [-> _]. done.
  - intros i _. unfold df_at, clear_buckets. destruct (_ !! Z.to_nat ((i + 1) mod n)) as [b|] eqn:E; [|lia].
    apply lookup_replicate in E as [-> _]. simpl. lia.
  - unfold clear_buckets, payloads. by induction (Z.to_nat n).
Qed.

(** Looking for the place of an entry and putting it there. *)
Lemma place_fits_ok bs b i : table_ok bs → has_free bs → fits bs b i → dist_and_fingerprint b ≠ 0 →
  ∃ bs', place_and_shift_up (S (length bs)) n bs b i = Some bs' ∧ table_ok bs' ∧
         payloads bs' ≡ₚ payload b :: payloads bs.
Proof using Hn Hshifts.
  intros Hok Hf Hfit Hne. destruct (free_ahead bs i Hf (fits_range _ _ _ Hfit)) as (m&Hm&Hz).
  pose proof (ok_length bs Hok). apply (place_ok _ m); try done. lia.
Qed.

Lemma df_for_used h i : df_for h i ≠ 0.
Proof using Hn Hshifts.
  unfold df_for. pose proof (fingerprint_range h). pose proof n_bounds.
  pose proof (Z.mod_pos_bound (i - home h) n). lia.
Qed.

(** ** Searching for a key *)

Section keys.
Context {K : Type} `{!EqDecision K} (key_by : P → option K) (hash : K → Z).
Context (Hhash : ∀ k, is_u64 (hash k)) (Hkeys : ∀ p k, key_by p = Some k → hash_of p = hash k).
Context (bs : list (Bucket P)) (Hok : table_ok bs).

(** The key of the entry at a place. *)
Definition key_at (i : Z) : option K :=
  b ← bs !! Z.to_nat i; if decide (dist_and_fingerprint b = 0) then None else key_by (payload b).

Context (Hreadable : ∀ p, p ∈ payloads bs → is_Some (key_by p)).

Lemma used_payload i b : bs !! i = Some b → dist_and_fingerprint b ≠ 0 → payload b ∈ payloads bs.
Proof using Hn Hshifts.
  intros Hb Hne. unfold payloads. apply list_elem_of_bind. exists b. rewrite bucket_payload_used by done.
  split; [by apply list_elem_of_singleton|by eapply list_elem_of_lookup_2].
Qed.

(** Before the place of the key the search goes on: the entries there are as far
    away as the key would be. *)
Lemma probe_found fuel k i j : 0 <= i < n → key_at i = Some k → (∀ i', 0 <= i' < n → key_at i' = Some k → i' = i) →
  0 <= j <= (i - home (hash k)) mod n → (i - home (hash k)) mod n - j < Z.of_nat fuel →
  probe_loop key_by fuel n bs k (256 * (j + 1) + fingerprint (hash k)) (probe_at (home (hash k)) j) = Some (Found i).
Proof using Hn Hshifts Hkeys Hok Hreadable.
  intros Hi Hk Huniq. destruct (steps_to (home (hash k)) i Hi) as [Hs Hr]. set (d := (i - home (hash k)) mod n) in *.
  assert (df_at bs i = 256 * (d + 1) + fingerprint (hash k)) as Hdi.
  { unfold key_at in Hk. destruct (lookup_at bs i Hok Hi) as (b&_&Hb&->). rewrite Hb in Hk. simpl in Hk.
    case_decide as E; [done|]. rewrite (ok_df bs Hok i b) by (done || lia). by rewrite (Hkeys _ _ Hk). }
  revert j. induction fuel as [|fuel IH]; intros j Hj Hf; [lia|]. simpl.
  set (q := probe_at (home (hash k)) j). pose proof (probe_at_range (home (hash k)) j) as Hq. fold q in Hq.
  destruct (lookup_at bs q Hok Hq) as (b&->&Hb&Hat). simpl.
  assert (256 * (j + 1) + fingerprint (hash k) <= dist_and_fingerprint b) as Hle.
  { rewrite <-Hat, <-(df_for_probe (hash k) j) by lia. apply (chain bs (hash k) d j Hok); [lia..|].
    by rewrite Hs, Hdi, <-Hs, df_for_probe by lia. }
  rewrite (proj2 (Z.leb_le _ _) Hle).
  destruct (Z.eqb_spec (256 * (j + 1) + fingerprint (hash k)) (dist_and_fingerprint b)) as [E|E].
  - assert (dist_and_fingerprint b ≠ 0) as Hne by (pose proof (fingerprint_range (hash k)); lia).
    destruct (Hreadable (payload b)) as [k' Hk']; [by eapply used_payload|].
    rewrite Hk'. simpl. case_bool_decide as Ek.
    + subst k'. do 2 f_equal. apply Huniq; [done|]. unfold key_at. rewrite Hb. simpl. by rewrite decide_False.
    + destruct (decide (j = d)) as [->|].
      { exfalso. unfold key_at in Hk. rewrite <-Hs in Hk. fold q in Hk. rewrite Hb in Hk. simpl in Hk.
        rewrite decide_False in Hk by done. congruence. }
      unfold q; rewrite inc_df, next_probe by lia. apply IH; lia.
  - simpl. destruct (decide (j = d)) as [->|]; [|unfold q; rewrite inc_df, next_probe by lia; apply IH; lia].
    exfalso. apply E. rewrite <-Hat. unfold q. by rewrite Hs.
Qed.

(** A key that is not there: the search ends where an entry with the key would
    fit. *)
Lemma probe_absent fuel k j : (∀ i, 0 <= i < n → key_at i ≠ Some k) → 0 <= j <= n → n - j < Z.of_nat fuel →
  reached bs (hash k) j →
  ∃ j', 0 <= j' <= n ∧ reached bs (hash k) j' ∧
    df_at bs (probe_at (home (hash k)) j') < 256 * (j' + 1) + fingerprint (hash k) ∧
    probe_loop key_by fuel n bs k (256 * (j + 1) + fingerprint (hash k)) (probe_at (home (hash k)) j) =
      Some (Absent (probe_at (home (hash k)) j') (256 * (j' + 1) + fingerprint (hash k))).
Proof using Hn Hshifts Hok Hreadable.
  intros Habs. revert j. induction fuel as [|fuel IH]; intros j Hj Hf Hr; [lia|]. simpl.
  set (q := probe_at (home (hash k)) j). pose proof (probe_at_range (home (hash k)) j) as Hq. fold q in Hq.
  destruct (lookup_at bs q Hok Hq) as (b&->&Hb&Hat). simpl. pose proof (fingerprint_range (hash k)).
  pose proof (df_range bs q Hok Hq) as Hrange.
  destruct (Z.leb_spec (256 * (j + 1) + fingerprint (hash k)) (dist_and_fingerprint b)) as [Hle|Hgt];
    [|exists j; split_and!; try done; unfold q in Hat; lia].
  assert (j < n) as Hjn by lia.
  assert (reached bs (hash k) (j + 1)) as Hr'.
  { intros _. replace (j + 1 - 1) with j by lia. fold q. lia. }
  replace (if _ =? _ then _ else _) with (Some false).
  - simpl. unfold q; rewrite inc_df, next_probe by lia. apply IH; try done; lia.
  - destruct (Z.eqb_spec (256 * (j + 1) + fingerprint (hash k)) (dist_and_fingerprint b)) as [E|E]; [|done].
    assert (dist_and_fingerprint b ≠ 0) as Hne by lia.
    destruct (Hreadable (payload b)) as [k' Hk']; [by eapply used_payload|]. rewrite Hk'. simpl.
    rewrite bool_decide_eq_false_2; [done|]. intros ->. apply (Habs q Hq). unfold key_at. rewrite Hb. simpl.
    by rewrite decide_False.
Qed.
End keys.
End invariant.

(** Without a free bucket an entry is carried round the array for as long as no
    distance overflows. *)
Lemma place_full {P} fuel n (bs : list (Bucket P)) b i B : Z.of_nat (length bs) = n → n < 2 ^ 63 → 0 <= i < n →
  Forall (λ c, 0 < dist_and_fingerprint c <= B) (b :: bs) → B + 256 * Z.of_nat fuel < 2 ^ 32 →
  place_and_shift_up fuel n bs b i = None.
Proof.
  intros Hl Hn. revert bs b i B Hl. induction fuel as [|fuel IH]; intros bs b i B Hl Hi Hall HB; [done|].
  cbn [place_and_shift_up]. unfold bucket_at. rewrite (proj2 (Z.ltb_ge i 0)) by lia.
  destruct (lookup_lt_is_Some_2 bs (Z.to_nat i)) as [c Hc]; [lia|]. rewrite Hc. cbn [mbind option_bind].
  apply Forall_cons in Hall as [Hb Hall]. pose proof (Forall_lookup_1 _ _ _ _ Hall Hc) as Hcd. cbn beta in Hcd.
  rewrite (proj2 (Z.eqb_neq 0 _)) by lia. cbn [negb].
  assert (dist_inc (dist_and_fingerprint c) = dist_and_fingerprint c + 256) as Hinc.
  { unfold dist_inc. change k_dist_inc with 256. apply u32_id. unfold is_u32. lia. }
  apply (IH _ _ _ (B + 256)); [by rewrite length_insert| |rewrite Hinc|lia].
  - unfold next. rewrite u64_id by (unfold is_u64; lia). destruct (Z.eqb_spec (i + 1) n); lia.
  - constructor; [cbn; lia|]. apply Forall_insert; [|lia]. eapply Forall_impl; [exact Hall|]. cbn. lia.
Qed.

(** The first component of the pair [next_while_less] returns has 32 bits: with
    more than [2 ^ 32] buckets it is not the bucket the search ended at. *)
Lemma next_while_less_truncates {P} n shifts (bs : list (Bucket P)) h b :
  bucket_at bs (bucket_idx_from_hash shifts h) = Some b → dist_and_fingerprint b = 0 →
  2 ^ 32 <= bucket_idx_from_hash shifts h →
  ∃ i, next_while_less n shifts bs h = Some (i, dist_and_fingerprint_from_hash h) ∧
       i ≠ bucket_idx_from_hash shifts h.
Proof.
  intros Hb Hz Hbig. unfold next_while_less. cbn [less_loop]. rewrite Hb. cbn [mbind option_bind].
  rewrite (proj2 (Z.ltb_ge _ _)).
  - eexists. split; [done|]. pose proof (u32_range (bucket_idx_from_hash shifts h)) as Hr. unfold is_u32 in Hr. lia.
  - rewrite first_df, Hz. pose proof (fingerprint_range h). lia.
Qed.
