(* ===== verification/RdictData.v ===== *)
(** * RdictData: records of keys and values in a mapped file (rdict.h, mmap_file.cc)

    A dictionary whose keys or values have no fixed size appends records to a
    mapped file and keeps their offsets.  [SerializerOps] is the template
    [Serializer], with the integers and [std::string_view] as instances, and
    [Serializer] what the records rely on.

    Of a mapped file the model has the bytes written so far; the rest of the
    mapping is zero and never read before it is written.  [None] as a result
    says that bytes are read or written that were never written.  What the
    operating system answers is a parameter ([MmapOs]). *)

From S2P Require Import Prelude.

(** The codes of [absl::Status]; the messages are left out. *)
Inductive Status := OkStatus | InvalidArgumentError | PermissionDeniedError | NotFoundError | ErrnoToStatus.
#[export] Instance Status_eq_dec : EqDecision Status.
Proof. solve_decision. Defined.

(** ** Serializers *)

(** [Unpack] and [GetSize] read from the first byte of the list on. *)
Class SerializerOps (T : Type) := {
  Pack : T → list Z;
  Unpack : list Z → option (T * Z);
  GetSize : list Z → option Z;
}.
Class Serializer (T : Type) `{!SerializerOps T} := {
  packable : T → Prop;
  Unpack_Pack v rest : packable v → Unpack (Pack v ++ rest) = Some (v, Z.of_nat (length (Pack v)));
  GetSize_Pack v rest : packable v → GetSize (Pack v ++ rest) = Some (Z.of_nat (length (Pack v)));
}.

(** A copy of [sizeof(T)] bytes of memory. *)
Record pod (n : nat) := { pod_value : Z }.
Arguments pod_value {n}.
Arguments Build_pod {n}.
#[export] Instance pod_eq_dec n : EqDecision (pod n).
Proof. solve_decision. Defined.

#[export] Instance pod_countable n : Countable (pod n).
Proof. apply (inj_countable' pod_value Build_pod). by intros []. Defined.
#[export] Instance pod_inhabited n : Inhabited (pod n) := populate {| pod_value := 0 |}.

#[export] Instance pod_SerializerOps n : SerializerOps (pod n) := {|
  Pack v := le_bytes n (pod_value v);
  Unpack data := if (n <=? length data)%nat
                 then Some ({| pod_value := le_value (take n data) |}, Z.of_nat n) else None;
  GetSize data := Some (Z.of_nat n);
|}.

(** [std::string_view]: the length in four bytes, then the characters. *)
Definition string_view : Type := list Z.
Definition string_len (data : list Z) : option Z :=
  if (4 <=? length data)%nat then Some (le_value (take 4 data)) else None.
#[export] Instance string_SerializerOps : SerializerOps string_view := {|
  Pack v := le_bytes 4 (u32 (Z.of_nat (length v))) ++ v;
  Unpack data :=
    len ← string_len data;
    if (4 + Z.to_nat len <=? length data)%nat
    then Some (take (Z.to_nat len) (drop 4 data), 4 + len) else None;
  GetSize data := len ← string_len data; Some (4 + len);
|}.

#[export, program] Instance pod_Serializer n : Serializer (pod n) := {|
  packable v := 0 <= pod_value v < 256 ^ Z.of_nat n;
|}.
Next Obligation.
  intros n [v] rest Hv. simpl in *. rewrite length_app, le_bytes_length.
  rewrite (proj2 (Nat.leb_le _ _)) by lia. rewrite take_app_length' by by rewrite le_bytes_length.
  by rewrite le_value_bytes, Z.mod_small.
Qed.
Next Obligation. intros n [v] rest Hv. simpl. by rewrite le_bytes_length. Qed.

Lemma Pack_string (v : string_view) : Pack v = le_bytes 4 (u32 (Z.of_nat (length v))) ++ v.
Proof. done. Qed.
Lemma string_len_Pack (v : string_view) rest : Z.of_nat (length v) < 2 ^ 32 → string_len (Pack v ++ rest) = Some (Z.of_nat (length v)).
Proof.
  intros Hl. unfold string_len. rewrite Pack_string, <-app_assoc, length_app, le_bytes_length.
  rewrite (proj2 (Nat.leb_le _ _)) by lia. rewrite take_app_length' by by rewrite le_bytes_length.
  rewrite le_value_bytes, u32_id by (unfold is_u32; lia). change (256 ^ Z.of_nat 4) with (2 ^ 32).
  by rewrite Z.mod_small by lia.
Qed.

#[export, program] Instance string_Serializer : Serializer string_view := {|
  packable v := Z.of_nat (length v) < 2 ^ 32;
|}.
Next Obligation.
  intros v rest Hv. cbn [Unpack string_SerializerOps]. rewrite string_len_Pack by done.
  cbn [mbind option_bind]. rewrite Pack_string, <-app_assoc, !length_app, le_bytes_length.
  rewrite Nat2Z.id, (proj2 (Nat.leb_le _ _)) by lia.
  rewrite drop_app_length' by by rewrite le_bytes_length. rewrite take_app_length. do 2 f_equal. lia.
Qed.
Next Obligation.
  intros v rest Hv. cbn [GetSize string_SerializerOps]. rewrite string_len_Pack by done.
  cbn [mbind option_bind]. rewrite Pack_string, length_app, le_bytes_length. f_equal. lia.
Qed.

(** ** Records *)

Section pair.
Context {K V : Type} `{!SerializerOps K, !SerializerOps V}.

Definition align (len : Z) : Z := Z.land (u64 (len + 7)) (Z.lnot 7).

Definition KeyValPair_Pack (k : K) (v : V) : list Z :=
  let buffer := Pack k ++ Pack v in
  let allign_len := align (Z.of_nat (length buffer) + 1) in
  buffer ++ replicate (Z.to_nat allign_len - length buffer) 0.
Definition UnpackKey (data : list Z) : option K := fst <$> Unpack data.
Definition KeyValPair_Unpack (data : list Z) : option (K * V) :=
  '(k, n1) ← Unpack data; '(v, n2) ← Unpack (drop (Z.to_nat n1) data); Some (k, v).
(** Where the byte with the flags is. *)
Definition flags_offset (data : list Z) : option Z :=
  n1 ← GetSize (T:=K) data; n2 ← GetSize (T:=V) (drop (Z.to_nat n1) data); Some (n1 + n2).
Definition GetKeyValuePackSize (data : list Z) : option Z := n ← flags_offset data; Some (align (n + 1)).
(** The flag [invalid] is the lowest bit; the byte [1] has only this flag. *)
Definition GetFlags (data : list Z) : option Z := n ← flags_offset data; data !! Z.to_nat n.
Definition invalid (flags : Z) : bool := Z.testbit flags 0.
Definition SetFlags (data : list Z) (flags : Z) : option (list Z) :=
  n ← flags_offset data;
  if (Z.to_nat n <? length data)%nat then Some (<[Z.to_nat n := flags]> data) else None.
End pair.

(** ** The mapped file *)

Definition kSegmentSize : Z := 64 * 1024 * 1024.

Record MmapFile := {
  data_ : list Z;
  capacity_ : Z;
  reserved_space_bytes : Z;
  readonly_ : bool;
  (** The length of the file on disk. *)
  file_size : Z;
}.
Definition write_offset_ (f : MmapFile) : Z := Z.of_nat (length (data_ f)).

(** Whether the system calls to extend the file to a length and to map it
    succeed, and those to truncate it. *)
Class MmapOs := { extends : Z → bool; truncates : Z → bool; maps : Z → bool }.

Section mmap.
Context `{!MmapOs}.

Definition ExtendBuffer (f : MmapFile) (len : Z) : Status * MmapFile :=
  let extend_len := u64 (u64 (len + kSegmentSize) / kSegmentSize * kSegmentSize) in
  let new_file_len := u64 (capacity_ f + extend_len) in
  if reserved_space_bytes f <? new_file_len then (InvalidArgumentError, f)
  else if negb (file_size f =? capacity_ f) then (InvalidArgumentError, f)
  else if negb (extends new_file_len) then (ErrnoToStatus, f)
  else (OkStatus, {| data_ := data_ f; capacity_ := new_file_len; reserved_space_bytes := reserved_space_bytes f;
                     readonly_ := readonly_ f; file_size := new_file_len |}).

(** The offset of the data, or an error. *)
Definition Add (f : MmapFile) (data : list Z) : (Status + Z) * MmapFile :=
  let len := Z.of_nat (length data) in
  if readonly_ f then (inl PermissionDeniedError, f)
  else
    let '(status, f) := if capacity_ f <? write_offset_ f + len
                        then ExtendBuffer f (write_offset_ f + len - capacity_ f) else (OkStatus, f) in
    if decide (status = OkStatus) then
      (inr (write_offset_ f), {| data_ := data_ f ++ data; capacity_ := capacity_ f;
                                 reserved_space_bytes := reserved_space_bytes f; readonly_ := readonly_ f;
                                 file_size := file_size f |})
    else (inl status, f).

Definition ShrinkToFit (f : MmapFile) : Status * MmapFile :=
  if truncates (write_offset_ f) then
    (OkStatus, {| data_ := data_ f; capacity_ := capacity_ f; reserved_space_bytes := reserved_space_bytes f;
                  readonly_ := true; file_size := write_offset_ f |})
  else (ErrnoToStatus, {| data_ := data_ f; capacity_ := capacity_ f;
                          reserved_space_bytes := reserved_space_bytes f; readonly_ := true;
                          file_size := file_size f |}).

(** [file] is the contents of the file at the path, [None] when there is none. *)
Definition MmapFile_Init (file : option (list Z)) (reserved : Z) (readonly : bool) : Status + MmapFile :=
  match (if readonly then file else Some (default [] file)) with
  | None => inl InvalidArgumentError
  | Some contents =>
      let len := Z.of_nat (length contents) in
      let size := if readonly then len
                  else if len <? kSegmentSize then kSegmentSize
                  else let rest := len mod kSegmentSize in
                       if 0 <? rest then u64 (len + (kSegmentSize - rest)) else len in
      if negb readonly && negb (extends size) then inl ErrnoToStatus
      else
        let reserved := if readonly then size else if reserved <? size then size else reserved in
        if negb (maps reserved) then inl ErrnoToStatus
        else inr {| data_ := contents; capacity_ := size; reserved_space_bytes := reserved;
                    readonly_ := false; file_size := size |}
  end.
End mmap.
