(* ===== verification/Rdict.v ===== *)
(** * Rdict: a dictionary in a file (rdict.h, [ReadonlyDict])

    The template has two kinds of buckets: small keys and values are kept in the
    bucket, others in records of a mapped file.  [BucketOps] lists what the code
    does in a different way for each ([if constexpr (Bucket::is_flat)]); its two
    instances are at the end.  Everything else is written once, as in the
    source.

    [None] as a result says that the source does not return or that its
    behaviour is undefined: a loop without end, a read outside the array, a null
    pointer, a conversion out of range. *)

From S2P Require Import Prelude Float RdictHash RdictTable RdictData.

(** ** Hashing a key *)

(** A hash function object: its result may have 32 bits, and it may declare
    [is_avalanching]. *)
Class HashFn (K : Type) := { hash_ : K → Z; is_avalanching : bool; is_narrow : bool }.

Definition mixed_hash `{!HashFn K} (key : K) : Z :=
  if is_avalanching then
    if is_narrow then u64 (hash_ key * 0x9ddfea08eb382d69) else hash_ key
  else hash_u64 (hash_ key).

(** The specialisations for integers and for strings. *)
#[export] Instance pod_HashFn n : HashFn (pod n) :=
  {| hash_ k := hash_u64 (u64 (pod_value k)); is_avalanching := true; is_narrow := false |}.
#[export] Instance string_HashFn : HashFn string_view :=
  {| hash_ k := default 0 (hash_bytes k); is_avalanching := true; is_narrow := false |}.

(** ** Capacities *)

Definition initial_shifts : Z := 64 - 2.
Definition max_size : Z := Z.shiftl 1 63.
Definition max_bucket_count : Z := max_size.

(** A shift by the width of the type is undefined. *)
Definition calc_num_buckets (shifts : Z) : option Z :=
  if shifts =? 0 then None else Some (Z.min max_bucket_count (Z.shiftl 1 (64 - shifts))).

(** [static_cast<size_t>(static_cast<float>(num_buckets) * max_load_factor)].
    The number is a power of two, so the product is exact. *)
Definition load_capacity (lf num_buckets : Z) : option Z :=
  let c := Z.quot (f32_scaled lf * num_buckets) (2 ^ 149) in
  if (c <? 0) || (2 ^ 64 <=? c) then None else Some c.

Fixpoint shifts_loop (fuel : nat) (lf s shifts : Z) : option Z :=
  if 0 <? shifts then
    n ← calc_num_buckets shifts; c ← load_capacity lf n;
    if c <? s then match fuel with
                   | O => None
                   | S fuel => shifts_loop fuel lf s (shifts - 1)
                   end
    else Some shifts
  else Some shifts.
Definition calc_shifts_for_size (lf s : Z) : option Z := shifts_loop 62 lf s initial_shifts.

(** Rounding the positive rational [a / b] to 53 bits, ties to even; the result
    is a rational again. *)
Definition round_half_even (a b : Z) : Z :=
  let q := a / b in
  let r := a mod b in
  if 2 * r <? b then q else if b <? 2 * r then q + 1 else if Z.even q then q else q + 1.
Definition double_exp (a b : Z) : Z :=
  let e := Z.log2 a - Z.log2 b in
  (if a * 2 ^ Z.max 0 (- e) <? b * 2 ^ Z.max 0 e then e - 1 else e) - 52.
Definition round53 (a b : Z) : Z * Z :=
  if a =? 0 then (0, 1)
  else let e := double_exp a b in
       if 0 <=? e then (round_half_even a (b * 2 ^ e) * 2 ^ e, 1)
       else (round_half_even (a * 2 ^ (- e)) b, 2 ^ (- e)).

(** [static_cast<size_t>(total_size * 1.0 / max_load_factor_)] *)
Definition estimate_bucket_num (total lf : Z) : option Z :=
  if f32_scaled lf <=? 0 then None
  else
    let '(t, d) := round53 total 1 in
    let '(q, d') := round53 (t * 2 ^ 149) (d * f32_scaled lf) in
    let r := q / d' in
    if 2 ^ 64 <=? r then None else Some r.

(** ** The state *)

Record IndexMeta := {
  im_size : Z;
  num_buckets : Z;
  max_bucket_capacity : Z;
  im_shifts : Z;
}.

Definition k_default_max_load_factor : Z := 0x3F4CCCCD. (* 0.8F *)

Record Options := {
  opt_reserved_space_bytes : Z;
  bucket_count : Z;
  opt_max_load_factor : Z;
  opt_readonly : bool;
}.

(** [P] is what a bucket holds besides the distance and the fingerprint, [D] the
    file with the records. *)
Record ReadonlyDict (P D : Type) := {
  opt_ : Options;
  data_mmap_file_ : D;
  meta_ : option IndexMeta;
  buckets_ : list (Bucket P);
  max_load_factor_ : Z;
}.
Arguments opt_ {P D}.
Arguments data_mmap_file_ {P D}.
Arguments meta_ {P D}.
Arguments buckets_ {P D}.
Arguments max_load_factor_ {P D}.

(** The index file: the bytes of the metadata and of the buckets are written and
    read without any conversion. *)
Inductive index_file (P : Type) :=
| NoIndex
| UnreadableIndex
| Index (m : IndexMeta) (bs : list (Bucket P)).
Arguments NoIndex {P}.
Arguments UnreadableIndex {P}.
Arguments Index {P}.

Class BucketOps (K V P D : Type) := {
  is_flat : bool;
  zero_payload :: Inhabited P;
  (** [NewBucket], [Update]: the payload of the bucket, or an error. *)
  NewBucket : D → K → V → (Status + P) * D;
  Update : D → P → K → V → option ((Status + P) * D);
  GetKeyByBucket : D → P → option K;
  GetValueByBucket : D → P → option V;
  (** The loops of [clear_and_fill_buckets_from_values] and [Merge] over the
      entries of a dictionary, given its buckets and its size. *)
  visit : ∀ {S : Type}, D → list (Bucket P) → Z → (S → K → P → option S) → S → option (Status * S);
  (** [Merge]: the payload of an entry of the other dictionary, and what is
      appended at the end. *)
  merge_payload : D → P → P;
  merge_data : D → D → (Status + unit) * D;
  (** The data file. *)
  no_data : D;
  open_data : option (list Z) → Options → Status + D;
  has_data : D → bool;
  shrink_data : D → Status * D;
}.

Section dict.
Context {K V P D : Type} `{!EqDecision K, !HashFn K, !BucketOps K V P D}.
Implicit Types (t : ReadonlyDict P D) (key : K) (val : V).

Definition set_meta t (m : IndexMeta) : ReadonlyDict P D :=
  {| opt_ := opt_ t; data_mmap_file_ := data_mmap_file_ t; meta_ := Some m; buckets_ := buckets_ t;
     max_load_factor_ := max_load_factor_ t |}.
Definition set_buckets t bs : ReadonlyDict P D :=
  {| opt_ := opt_ t; data_mmap_file_ := data_mmap_file_ t; meta_ := meta_ t; buckets_ := bs;
     max_load_factor_ := max_load_factor_ t |}.
Definition set_data t (d : D) : ReadonlyDict P D :=
  {| opt_ := opt_ t; data_mmap_file_ := d; meta_ := meta_ t; buckets_ := buckets_ t;
     max_load_factor_ := max_load_factor_ t |}.
Definition set_size (m : IndexMeta) (s : Z) : IndexMeta :=
  {| im_size := s; num_buckets := num_buckets m; max_bucket_capacity := max_bucket_capacity m;
     im_shifts := im_shifts m |}.

Definition Size t : option Z := im_size <$> meta_ t.
Definition is_full (m : IndexMeta) : bool := max_bucket_capacity m <? im_size m.

(** Placing an entry in the current array, with the fuel of its length. *)
Definition place t (m : IndexMeta) (p : P) (df idx : Z) : option (ReadonlyDict P D) :=
  bs ← place_and_shift_up (S (length (buckets_ t))) (num_buckets m) (buckets_ t)
         {| payload := p; dist_and_fingerprint := u32 df |} idx;
  Some (set_buckets t bs).

(** ** Allocation *)

(** The buffer keeps what fits and is filled with zeros. *)
Definition allocate_buckets_from_shift t (shifts : Z) : option (ReadonlyDict P D) :=
  let shifts := if shifts =? 0
                then match meta_ t with None => initial_shifts | Some m => im_shifts m end else shifts in
  let orig_size := match meta_ t with None => 0 | Some m => im_size m end in
  n ← calc_num_buckets shifts;
  capacity ← (if n =? max_bucket_count then Some max_bucket_count
              else load_capacity (max_load_factor_ t) n);
  let bs := resize (Z.to_nat n) {| payload := inhabitant; dist_and_fingerprint := 0 |} (buckets_ t) in
  Some (set_buckets (set_meta t {| im_size := orig_size; num_buckets := n; max_bucket_capacity := capacity;
                                   im_shifts := shifts |}) bs).

Definition dict_clear_buckets t : option (ReadonlyDict P D) :=
  m ← meta_ t; Some (set_buckets t (clear_buckets (num_buckets m))).

Definition deallocate_buckets t : ReadonlyDict P D :=
  match meta_ t with
  | None => t
  | Some m => set_meta t {| im_size := im_size m; num_buckets := 0; max_bucket_capacity := 0;
                            im_shifts := im_shifts m |}
  end.

(** One entry of the loop: [next_while_less] and [place_and_shift_up]. *)
Definition fill_entry t key (p : P) : option (ReadonlyDict P D) :=
  m ← meta_ t;
  '(bucket_idx, df) ← next_while_less (num_buckets m) (im_shifts m) (buckets_ t) (mixed_hash key);
  place t m p df bucket_idx.

(** [old] are the buckets before the allocation. *)
Definition clear_and_fill_buckets_from_values t (old : list (Bucket P)) : option (Status * ReadonlyDict P D) :=
  t ← dict_clear_buckets t;
  m ← meta_ t;
  visit (data_mmap_file_ t) old (im_size m) fill_entry t.

Definition increase_size t : option (Status * ReadonlyDict P D) :=
  m ← meta_ t;
  if max_bucket_capacity m =? max_bucket_count then Some (InvalidArgumentError, t)
  else
    let t := set_meta t {| im_size := im_size m; num_buckets := num_buckets m;
                           max_bucket_capacity := max_bucket_capacity m; im_shifts := u8 (im_shifts m - 1) |} in
    let t := deallocate_buckets t in
    let old := buckets_ t in
    t ← allocate_buckets_from_shift t 0;
    clear_and_fill_buckets_from_values t old.

Definition reserve t (capa : Z) : option (Status * ReadonlyDict P D) :=
  let capa := Z.min capa max_size in
  let current_size := match meta_ t with Some m => im_size m | None => 0 end in
  let n := match meta_ t with Some m => num_buckets m | None => 0 end in
  let current_shifts := match meta_ t with Some m => im_shifts m | None => initial_shifts end in
  shifts ← calc_shifts_for_size (max_load_factor_ t) (Z.max capa current_size);
  if (0 =? n) || (shifts <? current_shifts) then
    let t := deallocate_buckets t in
    let old := buckets_ t in
    t ← allocate_buckets_from_shift t shifts;
    clear_and_fill_buckets_from_values t old
  else Some (OkStatus, t).

(** ** Operations *)

Definition search t key : option probe_result :=
  m ← meta_ t;
  probe (GetKeyByBucket (data_mmap_file_ t)) (num_buckets m) (im_shifts m) (buckets_ t) key (mixed_hash key).

Definition Put t key val : option (Status * ReadonlyDict P D) :=
  m ← meta_ t;
  r ← search t key;
  match r with
  | Found idx =>
      b ← bucket_at (buckets_ t) idx;
      '(res, d) ← Update (data_mmap_file_ t) (payload b) key val;
      let t := set_data t d in
      match res with
      | inl status => Some (status, t)
      | inr p => Some (OkStatus, set_buckets t (<[Z.to_nat idx := {| payload := p;
                         dist_and_fingerprint := dist_and_fingerprint b |}]> (buckets_ t)))
      end
  | Absent idx df =>
      let '(res, d) := NewBucket (data_mmap_file_ t) key val in
      let t := set_data t d in
      match res with
      | inl status => Some (status, t)
      | inr p =>
          '(status, t) ← (if is_full m then
                            '(status, t) ← increase_size t;
                            if decide (status = OkStatus) then
                              t ← fill_entry t key p; Some (OkStatus, t)
                            else Some (status, t)
                          else t ← place t m p df idx; Some (OkStatus, t));
          if decide (status = OkStatus) then
            m ← meta_ t; Some (status, set_meta t (set_size m (u64 (im_size m + 1))))
          else Some (status, t)
      end
  end.

(** The loop and the counting of [PutDirect], which nothing calls. *)
Definition PutDirect t key (entry_offset : P) : option (Status * ReadonlyDict P D) :=
  m ← meta_ t;
  r ← search t key;
  match r with
  | Found idx =>
      b ← bucket_at (buckets_ t) idx;
      let t := set_buckets t (<[Z.to_nat idx := {| payload := entry_offset;
                                dist_and_fingerprint := dist_and_fingerprint b |}]> (buckets_ t)) in
      Some (OkStatus, set_meta t (set_size m (u64 (im_size m + 1))))
  | Absent idx df =>
      if is_full m then
        '(status, t) ← increase_size (set_meta t (set_size m (u64 (im_size m + 1))));
        if decide (status = OkStatus) then
          m ← meta_ t; Some (status, set_meta t (set_size m (u64 (im_size m - 1))))
        else Some (status, t)
      else t ← place t m entry_offset df idx; Some (OkStatus, t)
  end.

Definition Exists t key : option bool :=
  r ← search t key;
  match r with Found _ => Some true | Absent _ _ => Some false end.

Definition Get t key : option (Status + V) :=
  r ← search t key;
  match r with
  | Found idx =>
      b ← bucket_at (buckets_ t) idx;
      v ← GetValueByBucket (data_mmap_file_ t) (payload b);
      Some (inr v)
  | Absent _ _ => Some (inl NotFoundError)
  end.

(** The status and the files; [writes] says whether the index can be written. *)
Definition Commit (writes : bool) t : option (Status * index_file P * ReadonlyDict P D) :=
  m ← meta_ t;
  if negb writes then Some (ErrnoToStatus, UnreadableIndex, t)
  else
    let index := Index m (buckets_ t) in
    let '(status, d) := if is_flat then (OkStatus, data_mmap_file_ t) else shrink_data (data_mmap_file_ t) in
    Some (status, index, set_data t d).

(** An entry of the other dictionary, and one more in the size. *)
Definition merge_entry (d : D) t key (p : P) : option (ReadonlyDict P D) :=
  t ← fill_entry t key (merge_payload d p);
  m ← meta_ t; Some (set_meta t (set_size m (u64 (im_size m + 1)))).

Definition Merge t (other : ReadonlyDict P D) : option (Status * ReadonlyDict P D) :=
  if opt_readonly (opt_ t) then Some (PermissionDeniedError, t)
  else
    m ← meta_ t; m' ← meta_ other;
    estimate ← estimate_bucket_num (u64 (im_size m + im_size m')) (max_load_factor_ t);
    '(status, t) ← reserve t estimate;
    if decide (status = OkStatus) then
      '(status, t) ← visit (data_mmap_file_ other) (buckets_ other) (im_size m')
                           (merge_entry (data_mmap_file_ t)) t;
      if decide (status = OkStatus) then
        let '(res, d) := merge_data (data_mmap_file_ t) (data_mmap_file_ other) in
        Some (match res with inl status => status | inr _ => OkStatus end, set_data t d)
      else Some (status, t)
    else Some (status, t).

(** ** Opening *)

Definition LoadIndex t (index : index_file P) (ignore_nonexist : bool) : Status * ReadonlyDict P D :=
  match index with
  | NoIndex => (if ignore_nonexist then OkStatus else InvalidArgumentError, t)
  | UnreadableIndex => (InvalidArgumentError, t)
  | Index m bs => (OkStatus, set_buckets (set_meta t m) bs)
  end.

Definition empty_buckets t : option (Status * ReadonlyDict P D) :=
  if negb (0 =? bucket_count (opt_ t)) then reserve t (bucket_count (opt_ t))
  else t ← allocate_buckets_from_shift t 0; t ← dict_clear_buckets t; Some (OkStatus, t).

Definition Init (opt : Options) (index : index_file P) (data : option (list Z))
    : option (Status * ReadonlyDict P D) :=
  let t := {| opt_ := opt; data_mmap_file_ := no_data; meta_ := None; buckets_ := [];
              max_load_factor_ := k_default_max_load_factor |} in
  if is_flat then
    let '(status, t) := LoadIndex t index true in
    if decide (status = OkStatus) then
      match meta_ t with
      | Some m => if 0 <? im_size m then Some (OkStatus, t) else empty_buckets t
      | None => empty_buckets t
      end
    else Some (status, t)
  else
    match open_data data opt with
    | inl status => Some (status, t)
    | inr d =>
        let t := {| opt_ := opt; data_mmap_file_ := d; meta_ := None; buckets_ := [];
                    max_load_factor_ := opt_max_load_factor opt |} in
        if negb (has_data d) then empty_buckets t else Some (LoadIndex t index false)
    end.

Definition New (opt : Options) (index : index_file P) (data : option (list Z))
    : option (Status + ReadonlyDict P D) :=
  '(status, t) ← Init opt index data;
  Some (if decide (status = OkStatus) then inr t else inl status).
End dict.

(** ** Buckets that hold the key and the value *)

Section flat.
Context {K V : Type} `{!Inhabited K, !Inhabited V}.

Fixpoint flat_loop {S : Type} (old_buckets : list (Bucket (K * V))) (n value_idx : Z)
    (f : S → K → K * V → option S) (s : S) : option (Status * S) :=
  if value_idx <? n then
    match old_buckets with
    | [] => None
    | b :: old_buckets =>
        if dist_and_fingerprint b =? 0 then flat_loop old_buckets n value_idx f s
        else s ← f s (payload b).1 (payload b); flat_loop old_buckets n (value_idx + 1) f s
    end
  else Some (OkStatus, s).

#[export] Instance flat_BucketOps : BucketOps K V (K * V) unit := {|
  is_flat := true;
  NewBucket d k v := (inr (k, v), d);
  Update d p k v := Some (inr (p.1, v), d);
  GetKeyByBucket d p := Some p.1;
  GetValueByBucket d p := Some p.2;
  visit S d old n f s := flat_loop old n 0 f s;
  merge_payload d p := p;
  merge_data d d' := (inr (), d);
  no_data := ();
  open_data data opt := inr ();
  has_data d := false;
  shrink_data d := (OkStatus, d);
|}.
End flat.

(** ** Buckets that hold the offset of a record *)

Section records.
Context {K V : Type} `{!SerializerOps K, !SerializerOps V, !MmapOs}.

Definition GetKeyValData (d : MmapFile) (offset : Z) : list Z := drop (Z.to_nat offset) (data_ d).

(** A record is at least eight bytes long, so the loop ends before the fuel, the
    number of bytes, does. *)
Fixpoint record_loop {S : Type} (fuel : nat) (d : MmapFile) (n value_idx offset : Z)
    (f : S → K → Z → option S) (s : S) : option (Status * S) :=
  if value_idx <? n then
    if write_offset_ d <=? offset then Some (InvalidArgumentError, s)
    else match fuel with
         | O => None
         | S fuel =>
             let data := GetKeyValData d offset in
             flags ← GetFlags (K:=K) (V:=V) data;
             key_val_len ← GetKeyValuePackSize (K:=K) (V:=V) data;
             if invalid flags then record_loop fuel d n value_idx (offset + key_val_len) f s
             else key ← UnpackKey data;
                  s ← f s key offset;
                  record_loop fuel d n (value_idx + 1) (offset + key_val_len) f s
         end
  else Some (OkStatus, s).

Definition record_Update (d : MmapFile) (value_idx : Z) (k : K) (v : V) : option ((Status + Z) * MmapFile) :=
  let '(result, d) := Add d (KeyValPair_Pack k v) in
  match result with
  | inl status => Some (inl status, d)
  | inr offset =>
      rest ← SetFlags (K:=K) (V:=V) (GetKeyValData d value_idx) 1;
      Some (inr offset,
            {| data_ := take (Z.to_nat value_idx) (data_ d) ++ rest; capacity_ := capacity_ d;
               reserved_space_bytes := reserved_space_bytes d; readonly_ := readonly_ d;
               file_size := file_size d |})
  end.

Definition record_value (d : MmapFile) (offset : Z) : option V :=
  '(k, v) ← KeyValPair_Unpack (K:=K) (GetKeyValData d offset); Some v.

(** Before it is opened the file is a null pointer, which nothing uses. *)
Definition null_file : MmapFile :=
  {| data_ := []; capacity_ := 0; reserved_space_bytes := 0; readonly_ := false; file_size := 0 |}.

#[export] Instance record_BucketOps : BucketOps K V Z MmapFile := {|
  is_flat := false;
  zero_payload := populate 0;
  NewBucket d k v := Add d (KeyValPair_Pack k v);
  Update := record_Update;
  GetKeyByBucket d p := UnpackKey (GetKeyValData d p);
  GetValueByBucket d p := record_value d p;
  visit S d old n f s := record_loop (length (data_ d)) d n 0 0 f s;
  merge_payload d p := u64 (write_offset_ d + p);
  merge_data d d' := let '(res, d) := Add d (data_ d') in
                     (match res with inl status => inl status | inr _ => inr () end, d);
  no_data := null_file;
  open_data data opt := MmapFile_Init data (opt_reserved_space_bytes opt) (opt_readonly opt);
  has_data d := negb (write_offset_ d =? 0);
  shrink_data := ShrinkToFit;
|}.

(** Nothing calls [Append]. *)
Definition Append (d : MmapFile) (k : K) (v : V) : (Status + Z) * MmapFile := Add d (KeyValPair_Pack k v).
End records.
