(* ===== verification/RdictSpec.v ===== *)
(** * RdictSpec: what the dictionary relies on and what it keeps

    [Buckets] states what the dictionary needs of the two kinds of buckets: the
    data of a dictionary is an ordered list of live entries.  [inv] is the
    invariant that every operation keeps. *)

From S2P Require Import Prelude Float RdictHash RdictTable RdictData Rdict.

(** ** Capacities *)

(** A maximum load below one, as a fraction of [2 ^ 149]. *)
Definition load_ok (lf : Z) : Prop := 0 < f32_scaled lf < 2 ^ 149.

Definition capacity (lf n : Z) : Z := f32_scaled lf * n / 2 ^ 149.

Lemma capacity_lt lf n : load_ok lf → 0 < n → 0 <= capacity lf n < n.
Proof.
  unfold load_ok, capacity. intros Hl Hn. split; [apply Z.div_pos; lia|].
  apply Z.div_lt_upper_bound; [lia|]. nia.
Qed.

Lemma capacity_mono lf n n' : load_ok lf → 0 <= n <= n' → capacity lf n <= capacity lf n'.
Proof. unfold load_ok, capacity. intros. apply Z.div_le_mono; nia. Qed.

Lemma load_capacity_ok lf n : load_ok lf → 0 < n <= 2 ^ 63 → load_capacity lf n = Some (capacity lf n).
Proof.
  intros Hl Hn. pose proof (capacity_lt lf n Hl ltac:(lia)). unfold load_capacity.
  rewrite Z.quot_div_nonneg by (unfold load_ok in Hl; nia). fold (capacity lf n).
  rewrite (proj2 (Z.ltb_ge _ _)), (proj2 (Z.leb_gt _ _)) by lia. done.
Qed.

Lemma num_buckets_ok sh : 41 <= sh <= 62 → calc_num_buckets sh = Some (2 ^ (64 - sh)) ∧
  2 ^ 2 <= 2 ^ (64 - sh) <= 2 ^ 23.
Proof.
  intros Hs. assert (2 ^ 2 <= 2 ^ (64 - sh) <= 2 ^ 23) as Hp by (split; apply Z.pow_le_mono_r; lia).
  split; [|done]. unfold calc_num_buckets. rewrite (proj2 (Z.eqb_neq _ _)) by lia. rewrite Z.shiftl_1_l.
  unfold max_bucket_count, max_size. rewrite Z.shiftl_1_l. f_equal. lia.
Qed.

(** The entries a dictionary may have: those for which [2 ^ 22] buckets are
    enough. *)
Definition max_entries (lf : Z) : Z := capacity lf (2 ^ 22).

Lemma shifts_loop_ok fuel lf s sh : load_ok lf → s <= max_entries lf → 42 <= sh <= 62 → sh < 42 + Z.of_nat fuel →
  ∃ sh', shifts_loop fuel lf s sh = Some sh' ∧ 42 <= sh' <= sh ∧ s <= capacity lf (2 ^ (64 - sh')).
Proof.
  intros Hl Hs. revert sh. induction fuel as [|fuel IH]; intros sh Hsh Hf; [lia|]. cbn [shifts_loop].
  rewrite (proj2 (Z.ltb_lt 0 sh)) by lia. destruct (num_buckets_ok sh) as [-> Hn]; [lia|]. cbn [mbind option_bind].
  rewrite load_capacity_ok by (done || lia). cbn [mbind option_bind].
  destruct (Z.ltb_spec (capacity lf (2 ^ (64 - sh))) s) as [Hlt|Hge].
  - destruct (decide (sh = 42)) as [->|]; [unfold max_entries in Hs; change (64 - 42) with 22 in Hlt; lia|].
    destruct (IH (sh - 1)) as (sh'&->&?&?); [lia..|]. exists sh'. split_and!; try done; lia.
  - exists sh. split_and!; try done; lia.
Qed.

Lemma calc_shifts_ok lf s : load_ok lf → s <= max_entries lf →
  ∃ sh, calc_shifts_for_size lf s = Some sh ∧ 42 <= sh <= 62 ∧ s <= capacity lf (2 ^ (64 - sh)).
Proof. intros. unfold calc_shifts_for_size, initial_shifts. apply shifts_loop_ok; done || lia. Qed.

(** ** The estimate of [Merge] *)

Lemma round_half_even_ge a b g : 0 < b → g * b <= a → g <= round_half_even a b.
Proof.
  intros Hb Hg. assert (g <= a / b) as Hq by (apply Z.div_le_lower_bound; lia).
  unfold round_half_even. destruct (_ <? b); [done|]. destruct (b <? _); [lia|]. destruct (Z.even _); lia.
Qed.

Lemma double_exp_le a b : 0 < a → 0 < b → 0 <= double_exp a b → b * 2 ^ (double_exp a b + 52) <= a.
Proof.
  intros Ha Hb. unfold double_exp. set (e := Z.log2 a - Z.log2 b).
  pose proof (Z.log2_spec a Ha) as [Ha1 Ha2]. pose proof (Z.log2_spec b Hb) as [Hb1 Hb2].
  pose proof (Z.log2_nonneg b). assert (e = Z.log2 a - Z.log2 b) by done.
  destruct (Z.ltb_spec (a * 2 ^ Z.max 0 (- e)) (b * 2 ^ Z.max 0 e)) as [Hlt|Hge]; intros He.
  - replace (e - 1 - 52 + 52) with (e - 1) by lia.
    assert (2 ^ Z.log2 a = 2 ^ Z.succ (Z.log2 b) * 2 ^ (e - 1)) as Hp by (rewrite <-Z.pow_add_r by lia; f_equal; lia).
    assert (0 < 2 ^ (e - 1)) by (apply Z.pow_pos_nonneg; lia). nia.
  - replace (e - 52 + 52) with e by lia. replace (Z.max 0 (- e)) with 0 in Hge by lia.
    replace (Z.max 0 e) with e in Hge by lia. lia.
Qed.

(** A quotient above a number of 53 bits is not rounded below it. *)
Lemma round53_ge a b g : 0 < a → 0 < b → 0 <= g < 2 ^ 53 → g * b <= a →
  g * snd (round53 a b) <= fst (round53 a b) ∧ 0 < snd (round53 a b).
Proof.
  intros Ha Hb Hg Hle. unfold round53. rewrite (proj2 (Z.eqb_neq a 0)) by lia.
  destruct (Z.leb_spec 0 (double_exp a b)) as [He|He]; simpl.
  - split; [|lia]. rewrite Z.mul_1_r. pose proof (double_exp_le a b Ha Hb He) as Hd.
    set (e := double_exp a b) in *. assert (0 < 2 ^ e) by (apply Z.pow_pos_nonneg; lia).
    destruct (decide (e = 0)) as [E|E].
    + rewrite E. change (2 ^ 0) with 1. rewrite !Z.mul_1_r. by apply round_half_even_ge.
    + assert (2 ^ 52 <= round_half_even a (b * 2 ^ e)).
      { apply round_half_even_ge; [lia|]. rewrite Z.pow_add_r in Hd by lia. lia. }
      assert (2 ^ 1 <= 2 ^ e) by (apply Z.pow_le_mono_r; lia). nia.
  - set (c := 2 ^ (- double_exp a b)). assert (0 < c) by (apply Z.pow_pos_nonneg; lia).
    split; [|done]. apply round_half_even_ge; [done|]. nia.
Qed.

Lemma estimate_ge total lf : load_ok lf → 0 <= total < 2 ^ 53 → ∀ r, estimate_bucket_num total lf = Some r → total <= r.
Proof.
  unfold load_ok, estimate_bucket_num. intros Hl Ht r. rewrite (proj2 (Z.leb_gt _ _)) by lia.
  destruct (decide (total = 0)) as [->|Hne].
  { cbn. intros [= <-]. done. }
  pose proof (round53_ge total 1 total) as [H1 H2]; [lia..|]. destruct (round53 total 1) as [t d]. simpl in H1, H2.
  pose proof (round53_ge (t * 2 ^ 149) (d * f32_scaled lf) total) as [H3 H4]; [nia..|].
  destruct (round53 (t * 2 ^ 149) (d * f32_scaled lf)) as [q d']. simpl in H3, H4.
  case_match; [done|]. intros [= <-]. apply Z.div_le_lower_bound; lia.
Qed.

(** ** What the two kinds of buckets promise *)

(** Running a step for each entry. *)
Fixpoint feed {S K V P : Type} (f : S → K → P → option S) (s : S) (l : list (P * (K * V))) : option S :=
  match l with
  | [] => Some s
  | (p, (k, v)) :: l => s ← f s k p; feed f s l
  end.

Class Buckets (K V P D : Type) `{!BucketOps K V P D} := {
  (** The live entries of the data, in the order of their records; what may be
      stored. *)
  live : D → list (P * (K * V)) → Prop;
  storable : K → V → Prop;
  live_read d l p k v : live d l → (p, (k, v)) ∈ l →
    GetKeyByBucket d p = Some k ∧ GetValueByBucket d p = Some v;
  NewBucket_live d l k v res d' : live d l → storable k v → NewBucket d k v = (res, d') →
    match res with inl st => st ≠ OkStatus ∧ live d' l | inr p => live d' (l ++ [(p, (k, v))]) end;
  Update_live d l1 l2 p k v v0 : live d (l1 ++ (p, (k, v0)) :: l2) → storable k v →
    ∃ res d', Update d p k v = Some (res, d') ∧
      match res with
      | inl st => st ≠ OkStatus ∧ live d' (l1 ++ (p, (k, v0)) :: l2)
      | inr p' => ∃ l', l' ≡ₚ (p', (k, v)) :: l1 ++ l2 ∧ live d' l'
      end;
  (** The loops see every entry once; entries appended after those of the
      buckets are not reached. *)
  visit_live d l1 l2 old : live d (l1 ++ l2) → payloads old ≡ₚ l1.*1 →
    ∃ l', l' ≡ₚ l1 ∧ ∀ S (f : S → K → P → option S) s,
      visit d old (Z.of_nat (length l1)) f s = (λ s, (OkStatus, s)) <$> feed f s l';
  merge_live d1 d2 l1 l2 res d' : live d1 l1 → live d2 l2 → merge_data d1 d2 = (res, d') →
    match res with
    | inl st => st ≠ OkStatus ∧ live d' l1
    | inr _ => live d' (l1 ++ ((λ e, (merge_payload d1 e.1, e.2)) <$> l2))
    end;
}.

(** ** The invariant *)

Section dict.
Context {K V P D : Type} `{!EqDecision K, !HashFn K, !BucketOps K V P D, !Buckets K V P D}.
Context (Hhash : ∀ k : K, is_u64 (mixed_hash k)).
Implicit Types (t : ReadonlyDict P D) (l : list (P * (K * V))) (m : IndexMeta) (d : D).

Definition hash_of d (p : P) : Z := match GetKeyByBucket d p with Some k => mixed_hash k | None => 0 end.

(** The number of buckets and the capacity belong to the shifts. *)
Record shape (lf : Z) m : Prop := {
  sh_load : load_ok lf;
  sh_shifts : 41 <= im_shifts m <= 62;
  sh_buckets : num_buckets m = 2 ^ (64 - im_shifts m);
  sh_capacity : max_bucket_capacity m = capacity lf (num_buckets m);
}.

(** The array of [t] holds the entries [l], whose hashes are given. *)
Record holds (h : P → Z) t m l : Prop := {
  h_meta : meta_ t = Some m;
  h_shape : shape (max_load_factor_ t) m;
  h_payloads : payloads (buckets_ t) ≡ₚ l.*1;
  h_table : table_ok (num_buckets m) (im_shifts m) h (buckets_ t);
}.

Definition keys l : list K := l.*2.*1.

Record inv t m l : Prop := {
  i_holds : holds (hash_of (data_mmap_file_ t)) t m l;
  i_size : im_size m = Z.of_nat (length l);
  i_live : live (data_mmap_file_ t) l;
  i_nodup : NoDup (keys l);
}.

Lemma live_hash d l p k v : live d l → (p, (k, v)) ∈ l → hash_of d p = mixed_hash k.
Proof. intros Hl Hin. unfold hash_of. by destruct (live_read d l p k v Hl Hin) as [-> _]. Qed.

(** The invariant of the array does not depend on what the buckets hold, only on
    the hashes. *)
Lemma table_ok_ext n sh (h h' : P → Z) bs bs' : length bs' = length bs →
  (∀ i c', bs' !! i = Some c' → ∃ c, bs !! i = Some c ∧ dist_and_fingerprint c = dist_and_fingerprint c' ∧
     (dist_and_fingerprint c ≠ 0 → h' (payload c') = h (payload c))) →
  table_ok n sh h bs → table_ok n sh h' bs'.
Proof.
  intros Hlen Hext [Hl Hd Ho].
  assert (∀ i, df_at bs' i = df_at bs i) as Hdf.
  { intros i. unfold df_at. destruct (bs' !! Z.to_nat i) as [c'|] eqn:E.
    - destruct (Hext _ _ E) as (c&->&?&_). done.
    - apply lookup_ge_None in E. rewrite Hlen in E. by rewrite (lookup_ge_None_2 bs). }
  split.
  - by rewrite Hlen.
  - intros i c' Hi Hc' Hne. destruct (Hext _ _ Hc') as (c&Hc&Heq&Hh). rewrite <-Heq in *.
    rewrite Hh by done. by apply Hd.
  - intros i Hi. rewrite !Hdf. by apply Ho.
Qed.

Lemma table_ok_hash n sh (h h' : P → Z) bs : (∀ p, p ∈ payloads bs → h' p = h p) →
  table_ok n sh h bs → table_ok n sh h' bs.
Proof.
  intros Hh. apply table_ok_ext; [done|]. intros i c Hc. exists c. split; [done|split; [done|]]. intros Hne.
  apply Hh. unfold payloads. apply list_elem_of_bind. exists c. rewrite bucket_payload_used by done.
  split; [by apply list_elem_of_singleton|by eapply list_elem_of_lookup_2].
Qed.

Lemma holds_hash h h' t m l : (∀ p kv, (p, kv) ∈ l → h' p = h p) → holds h t m l → holds h' t m l.
Proof.
  intros Hh [? ? Hp Ht]. split; try done. apply (table_ok_hash _ _ h); [|done].
  intros p Hin. rewrite Hp in Hin. apply list_elem_of_fmap in Hin as ([q kv]&->&Hin). by eapply Hh.
Qed.

(** ** Filling an array *)

Lemma holds_free h t m l : holds h t m l → Z.of_nat (length l) < num_buckets m →
  has_free (num_buckets m) (buckets_ t).
Proof.
  intros [_ Hs Hp Ht] Hlt. eapply size_has_free; [apply (sh_buckets _ _ Hs)|apply (sh_shifts _ _ Hs)|done|].
  rewrite Hp, length_fmap. done.
Qed.

Lemma df_for_u32 n sh h i : n = 2 ^ (64 - sh) → 41 <= sh <= 62 → u32 (df_for n sh h i) = df_for n sh h i.
Proof.
  intros Hn Hs. pose proof (n_bounds n sh Hn Hs). apply u32_id. unfold df_for, is_u32.
  pose proof (fingerprint_range h). pose proof (Z.mod_pos_bound (i - home sh h) n ltac:(lia)).
  clear Hn. lia.
Qed.

(** Placing an entry that is not counted in the size yet. *)
Lemma place_holds h t m l p kv idx df : holds h t m l → Z.of_nat (length l) < num_buckets m →
  fits (num_buckets m) (im_shifts m) h (buckets_ t) {| payload := p; dist_and_fingerprint := df |} idx →
  df ≠ 0 → is_u32 df →
  ∃ bs, place t m p df idx = Some (set_buckets t bs) ∧
        table_ok (num_buckets m) (im_shifts m) h bs ∧ payloads bs ≡ₚ ((p, kv) :: l).*1.
Proof.
  intros Hh Hlt Hfit Hne Hu. pose proof (holds_free h t m l Hh Hlt) as Hfree. destruct Hh as [_ Hs Hp Ht].
  unfold place. rewrite u32_id by done.
  edestruct (place_fits_ok _ _ h (sh_buckets _ _ Hs) (sh_shifts _ _ Hs)) as (bs&->&Hok&Hperm);
    [exact Ht|done|exact Hfit|done|].
  cbn [mbind option_bind]. exists bs. split; [done|split; [done|]]. rewrite Hperm, Hp. done.
Qed.

Lemma fill_entry_holds h t m l p k v : holds h t m l → Z.of_nat (length l) < num_buckets m →
  h p = mixed_hash k →
  ∃ bs, fill_entry t k p = Some (set_buckets t bs) ∧
        table_ok (num_buckets m) (im_shifts m) h bs ∧ payloads bs ≡ₚ ((p, (k, v)) :: l).*1.
Proof using Hhash.
  intros Hh Hlt Hk. pose proof (holds_free h t m l Hh Hlt) as Hfree. pose proof Hh as [Hm Hs Hp Ht].
  unfold fill_entry. rewrite Hm. cbn [mbind option_bind].
  destruct (next_while_less_ok _ _ h (sh_buckets _ _ Hs) (sh_shifts _ _ Hs) (buckets_ t) p (mixed_hash k))
    as (i&->&Hfit); [done..|].
  cbn [mbind option_bind]. apply (place_holds h t m l p (k, v)); try done.
  - by apply (df_for_used _ _ (sh_buckets _ _ Hs) (sh_shifts _ _ Hs)).
  - rewrite <-(df_for_u32 _ _ _ _ (sh_buckets _ _ Hs) (sh_shifts _ _ Hs)). apply u32_range.
Qed.

Lemma feed_fill h t m l l' : holds h t m l → Z.of_nat (length l + length l') <= num_buckets m →
  (∀ p k v, (p, (k, v)) ∈ l' → h p = mixed_hash k) →
  ∃ bs, feed fill_entry t l' = Some (set_buckets t bs) ∧ holds h (set_buckets t bs) m (l' ++ l).
Proof using Hhash.
  revert t l. induction l' as [|[p [k v]] l' IH]; intros t l Hh Hlen Hl'; cbn [feed].
  { exists (buckets_ t). split; [by destruct t|]. by destruct t. }
  cbn [length] in Hlen.
  destruct (fill_entry_holds h t m l p k v Hh) as (bs&->&Hok&Hp); [lia|by eapply Hl', list_elem_of_here|].
  cbn [mbind option_bind]. destruct (IH (set_buckets t bs) ((p, (k, v)) :: l)) as (bs'&->&Hh').
  - destruct Hh as [? ? _ _]. by split.
  - cbn [length]. lia.
  - intros q k' v' Hin. by eapply Hl', list_elem_of_further.
  - exists bs'. split; [done|]. destruct Hh' as [? ? Hp' ?]. split; try done.
    rewrite Hp'. rewrite !fmap_app, fmap_cons. cbn [app]. rewrite fmap_cons. symmetry. apply Permutation_middle.
Qed.

(** ** Allocating an array *)

Definition meta_for (lf s sh : Z) : IndexMeta :=
  {| im_size := s; num_buckets := 2 ^ (64 - sh); max_bucket_capacity := capacity lf (2 ^ (64 - sh));
     im_shifts := sh |}.

Lemma meta_for_shape lf s sh : load_ok lf → 41 <= sh <= 62 → shape lf (meta_for lf s sh).
Proof. by split. Qed.

Lemma allocate_ok t sh : load_ok (max_load_factor_ t) → 41 <= sh <= 62 → ∃ bs,
  allocate_buckets_from_shift t sh =
    Some (set_buckets (set_meta t (meta_for (max_load_factor_ t) (default 0 (im_size <$> meta_ t)) sh)) bs).
Proof.
  intros Hl Hs. unfold allocate_buckets_from_shift. rewrite (proj2 (Z.eqb_neq sh 0)) by lia.
  destruct (num_buckets_ok sh Hs) as [-> Hn]. cbn [mbind option_bind].
  assert (max_bucket_count = 2 ^ 63) as -> by done.
  rewrite (proj2 (Z.eqb_neq _ (2 ^ 63))), load_capacity_ok by (done || lia). cbn [mbind option_bind].
  eexists. do 3 f_equal. unfold meta_for. f_equal. by destruct (meta_ t).
Qed.

Lemma allocate_0 t : allocate_buckets_from_shift t 0 =
  allocate_buckets_from_shift t (default initial_shifts (im_shifts <$> meta_ t)).
Proof.
  unfold allocate_buckets_from_shift. cbn [Z.eqb]. destruct (meta_ t) as [m|]; [|done]. cbn [fmap option_fmap option_map default from_option id].
  by destruct (Z.eqb_spec (im_shifts m) 0) as [->|].
Qed.

(** Clearing the array and filling it again. *)
Lemma clear_and_fill_ok t m l1 l2 old : meta_ t = Some m → shape (max_load_factor_ t) m →
  live (data_mmap_file_ t) (l1 ++ l2) → payloads old ≡ₚ l1.*1 →
  im_size m = Z.of_nat (length l1) → im_size m <= num_buckets m →
  ∃ bs, clear_and_fill_buckets_from_values t old = Some (OkStatus, set_buckets t bs) ∧
        holds (hash_of (data_mmap_file_ t)) (set_buckets t bs) m l1.
Proof using Hhash.
  intros Hm Hs Hl Hold Hsz Hle. unfold clear_and_fill_buckets_from_values, dict_clear_buckets.
  rewrite Hm. cbn [mbind option_bind meta_ set_buckets]. rewrite Hm. cbn [mbind option_bind].
  destruct (visit_live (data_mmap_file_ t) l1 l2 old Hl Hold) as (l'&Hperm&Hv).
  rewrite Hsz. cbn [data_mmap_file_ set_buckets]. rewrite Hv.
  destruct (feed_fill (hash_of (data_mmap_file_ t)) (set_buckets t (clear_buckets (num_buckets m))) m [] l')
    as (bs&->&Hh).
  - destruct (clear_buckets_ok (num_buckets m) (im_shifts m) (hash_of (data_mmap_file_ t))
      (sh_buckets _ _ Hs) (sh_shifts _ _ Hs)) as [Hok Hnil].
    split; try done. cbn [buckets_ set_buckets]. by rewrite Hnil.
  - rewrite Hperm. cbn [length]. lia.
  - intros p k v Hin. eapply live_hash; [done|]. apply elem_of_app. left. by rewrite <-Hperm.
  - exists bs. split; [done|]. rewrite app_nil_r in Hh. destruct Hh as [? ? Hp ?].
    split; try done. cbn [buckets_ set_buckets] in *. by rewrite Hp, Hperm.
Qed.

(** Two dictionaries that differ in the array only. *)
Definition same_data t t' : Prop :=
  data_mmap_file_ t' = data_mmap_file_ t ∧ max_load_factor_ t' = max_load_factor_ t ∧ opt_ t' = opt_ t.

Lemma rebuild_ok t t0 m l1 l2 sh : meta_ t = Some m → load_ok (max_load_factor_ t) → 41 <= sh <= 62 →
  live (data_mmap_file_ t) (l1 ++ l2) → payloads (buckets_ t) ≡ₚ l1.*1 →
  im_size m = Z.of_nat (length l1) → im_size m <= 2 ^ (64 - sh) → same_data t0 t →
  ∃ t', (t1 ← allocate_buckets_from_shift t sh; clear_and_fill_buckets_from_values t1 (buckets_ t)) =
          Some (OkStatus, t') ∧
        same_data t0 t' ∧ holds (hash_of (data_mmap_file_ t')) t' (meta_for (max_load_factor_ t) (im_size m) sh) l1.
Proof using Hhash.
  intros Hm Hl Hs Hlive Hp Hsz Hle Hsame. destruct (allocate_ok t sh Hl Hs) as (bs&->). cbn [mbind option_bind].
  rewrite Hm. cbn [fmap option_fmap option_map default from_option id].
  edestruct (clear_and_fill_ok (set_buckets (set_meta t (meta_for (max_load_factor_ t) (im_size m) sh)) bs))
    as (bs'&->&Hh); [done|by apply meta_for_shape|done|exact Hp|done|done|].
  eexists. split; [done|]. split; [done|]. done.
Qed.
End dict.
