(* ===== verification/RdictTheorems.v ===== *)
(** * RdictTheorems: a dictionary is a finite map

    The invariant, the operations and merging. *)

From S2P Require Import Prelude Float RdictHash RdictTable RdictData Rdict RdictSpec.

(** * The operations of a dictionary keep its invariant *)

Section dict.
Context {K V P D : Type} `{!EqDecision K, !HashFn K, !BucketOps K V P D, !Buckets K V P D}.
Context (Hhash : ∀ k : K, is_u64 (mixed_hash k)).
Implicit Types (t : ReadonlyDict P D) (l : list (P * (K * V))) (m : IndexMeta) (d : D).

(** ** Growing *)

Lemma capacity_lt_inv lf n n' : load_ok lf → 0 <= n' → capacity lf n < capacity lf n' → n < n'.
Proof.
  intros Hl Hn Hc. destruct (decide (n < n')) as [|Hge]; [done|].
  pose proof (capacity_mono lf n' n Hl ltac:(lia)). lia.
Qed.

Lemma increase_size_ok t m l l2 : holds (hash_of (data_mmap_file_ t)) t m l →
  live (data_mmap_file_ t) (l ++ l2) → im_size m = Z.of_nat (length l) →
  is_full m = true → im_size m <= max_entries (max_load_factor_ t) →
  ∃ t' m', increase_size t = Some (OkStatus, t') ∧ same_data t t' ∧
    holds (hash_of (data_mmap_file_ t')) t' m' l ∧ im_size m' = im_size m ∧ num_buckets m < num_buckets m'.
Proof using Hhash.
  intros [Hm Hs Hp Ht] Hlive Hsz Hfull Hmax. pose proof (sh_shifts _ _ Hs) as Hsh.
  destruct (num_buckets_ok _ Hsh) as [_ Hnb]. rewrite <-(sh_buckets _ _ Hs) in Hnb.
  unfold is_full in Hfull. apply Z.ltb_lt in Hfull. pose proof (sh_load _ _ Hs) as Hl.
  pose proof (sh_capacity _ _ Hs) as Hc. rewrite Hc in Hfull.
  pose proof (capacity_lt _ (num_buckets m) Hl ltac:(lia)) as Hcn.
  assert (num_buckets m < 2 ^ 22) as Hlt.
  { apply (capacity_lt_inv (max_load_factor_ t)); [done|lia|]. unfold max_entries in Hmax. lia. }
  rewrite (sh_buckets _ _ Hs) in Hlt. apply Z.pow_lt_mono_r_iff in Hlt; [|lia..].
  unfold increase_size. rewrite Hm. cbn [mbind option_bind].
  rewrite (proj2 (Z.eqb_neq _ _)) by (unfold max_bucket_count, max_size; rewrite Z.shiftl_1_l; lia).
  rewrite allocate_0. cbn [deallocate_buckets set_meta meta_ fmap option_fmap option_map default from_option id im_shifts].
  rewrite u8_id by (unfold is_u8; lia).
  assert (2 ^ (64 - im_shifts m) < 2 ^ (64 - (im_shifts m - 1))) as Hgrow by (apply Z.pow_lt_mono_r; lia).
  pose proof (payloads_length (buckets_ t)) as [Hlen _]. rewrite Hp, length_fmap in Hlen.
  pose proof (ok_length _ _ _ _ Ht) as Hbl.
  edestruct (rebuild_ok Hhash (deallocate_buckets (set_meta t {| im_size := im_size m; num_buckets := num_buckets m;
     max_bucket_capacity := max_bucket_capacity m; im_shifts := im_shifts m - 1 |})) t) as (t'&Heq&Hsame&Hh);
    [done|exact Hl| |exact Hlive|exact Hp|done| |done|].
  - instantiate (1 := im_shifts m - 1). lia.
  - cbn [im_size]. rewrite (sh_buckets _ _ Hs) in Hbl. lia.
  - cbn [deallocate_buckets set_meta meta_] in Heq. eexists t', _. split; [exact Heq|].
    split; [done|split; [exact Hh|]]. cbn [meta_for im_size num_buckets]. rewrite (sh_buckets _ _ Hs). lia.
Qed.

Lemma reserve_ok t m l capa : holds (hash_of (data_mmap_file_ t)) t m l →
  live (data_mmap_file_ t) l → im_size m = Z.of_nat (length l) →
  Z.max capa (im_size m) <= max_entries (max_load_factor_ t) →
  ∃ t' m', reserve t capa = Some (OkStatus, t') ∧ same_data t t' ∧
    holds (hash_of (data_mmap_file_ t')) t' m' l ∧ im_size m' = im_size m ∧ capa <= max_bucket_capacity m'.
Proof using Hhash.
  intros Hh Hlive Hsz Hmax. pose proof Hh as [Hm Hs Hp Ht]. pose proof (sh_load _ _ Hs) as Hl.
  pose proof (sh_shifts _ _ Hs) as Hsh. destruct (num_buckets_ok _ Hsh) as [_ Hnb].
  pose proof (capacity_lt _ (2 ^ 22) Hl ltac:(lia)) as Hcl. fold (max_entries (max_load_factor_ t)) in Hcl.
  unfold reserve. rewrite Hm. rewrite (Z.min_l capa) by (unfold max_size; rewrite Z.shiftl_1_l; lia).
  destruct (calc_shifts_ok _ _ Hl Hmax) as (sh&->&Hshr&Hcap). cbn [mbind option_bind].
  rewrite (proj2 (Z.eqb_neq 0 (num_buckets m))) by (rewrite (sh_buckets _ _ Hs); lia). cbn [orb].
  destruct (Z.ltb_spec sh (im_shifts m)).
  - pose proof (capacity_lt _ (2 ^ (64 - sh)) Hl ltac:(lia)) as Hcn.
    edestruct (rebuild_ok Hhash (deallocate_buckets t) t) as (t'&Heq&Hsame&Hh').
    { unfold deallocate_buckets. rewrite Hm. done. }
    { unfold deallocate_buckets. rewrite Hm. exact Hl. }
    { instantiate (1 := sh). lia. }
    { unfold deallocate_buckets. rewrite Hm. rewrite <-(app_nil_r l) in Hlive. exact Hlive. }
    { unfold deallocate_buckets. rewrite Hm. exact Hp. }
    { done. }
    { cbn [im_size]. lia. }
    { unfold deallocate_buckets. by rewrite Hm. }
    unfold deallocate_buckets in Heq, Hh' |- *. rewrite Hm in Heq, Hh' |- *.
    eexists t', _. split; [exact Heq|]. split; [done|split; [exact Hh'|]]. cbn [meta_for im_size max_bucket_capacity set_meta max_load_factor_]. lia.
  - exists t, m. split; [done|split; [done|split; [done|split; [done|]]]].
    rewrite (sh_capacity _ _ Hs), (sh_buckets _ _ Hs).
    pose proof (capacity_mono (max_load_factor_ t) (2 ^ (64 - sh)) (2 ^ (64 - im_shifts m)) Hl) as Hmono.
    assert (2 ^ (64 - sh) <= 2 ^ (64 - im_shifts m)) by (apply Z.pow_le_mono_r; lia). lia.
Qed.

(** ** Searching *)

Lemma used_unique (key_by : P → option K) bs i j b c k : NoDup (key_by <$> payloads bs) →
  bs !! i = Some b → bs !! j = Some c → dist_and_fingerprint b ≠ 0 → dist_and_fingerprint c ≠ 0 →
  key_by (payload b) = Some k → key_by (payload c) = Some k → i = j.
Proof.
  assert (∀ a bs0, key_by (payload a) = Some k → NoDup (key_by <$> payloads (a :: bs0)) →
    dist_and_fingerprint a ≠ 0 → ∀ j c, bs0 !! j = Some c → dist_and_fingerprint c ≠ 0 →
    key_by (payload c) = Some k → False) as Hhead.
  { intros a bs0 Ha Hnd Hne j' c' Hc Hc0 Hk. unfold payloads in Hnd.
    rewrite bind_cons, bucket_payload_used in Hnd by done. cbn in Hnd. apply NoDup_cons in Hnd as [Hnin _].
    apply Hnin. rewrite Ha, <-Hk. apply list_elem_of_fmap_2. apply list_elem_of_bind. exists c'.
    rewrite bucket_payload_used by done. split; [by apply list_elem_of_singleton|by eapply list_elem_of_lookup_2]. }
  revert i j. induction bs as [|a bs IH]; intros [|i] [|j] Hnd Hi Hj Hb Hc Hkb Hkc; simplify_eq/=; try done.
  - exfalso. eapply (Hhead _ _ Hkb Hnd Hb); eauto.
  - exfalso. eapply (Hhead _ _ Hkc Hnd Hc); eauto.
  - f_equal. apply (IH i j); try done.
    change (NoDup (key_by <$> bucket_payload a ++ payloads bs)) in Hnd. rewrite fmap_app in Hnd.
    by apply NoDup_app in Hnd as (_&_&?).
Qed.

Lemma live_keys d l : live d l → GetKeyByBucket d <$> l.*1 = Some <$> keys l.
Proof.
  intros Hl. unfold keys. rewrite <-!list_fmap_compose. apply list_fmap_ext. intros i [p [k v]] Hi. cbn.
  by destruct (live_read d l p k v Hl) as [-> _]; [eapply list_elem_of_lookup_2|].
Qed.

Lemma inv_distinct t m l : inv t m l → NoDup (GetKeyByBucket (data_mmap_file_ t) <$> payloads (buckets_ t)).
Proof.
  intros [Hh _ Hl Hnd]. rewrite (h_payloads _ _ _ _ Hh), (live_keys _ _ Hl). by apply (NoDup_fmap_2 _).
Qed.

Lemma inv_readable t m l : inv t m l → ∀ p, p ∈ payloads (buckets_ t) → is_Some (GetKeyByBucket (data_mmap_file_ t) p).
Proof.
  intros [Hh _ Hl _] p Hp. rewrite (h_payloads _ _ _ _ Hh) in Hp. apply list_elem_of_fmap in Hp as ([q [k v]]&->&Hin).
  destruct (live_read _ l q k v Hl Hin) as [Hk _]. by exists k.
Qed.

Lemma hash_of_key d p k : GetKeyByBucket d p = Some k → hash_of d p = mixed_hash k.
Proof. intros Hk. unfold hash_of. by rewrite Hk. Qed.

Lemma search_found t m l p k v : inv t m l → (p, (k, v)) ∈ l →
  ∃ i b, search t k = Some (Found i) ∧ 0 <= i ∧ buckets_ t !! Z.to_nat i = Some b ∧ bucket_at (buckets_ t) i = Some b ∧
         payload b = p ∧ dist_and_fingerprint b ≠ 0.
Proof using Hhash.
  intros Hinv Hin. pose proof (inv_distinct _ _ _ Hinv) as Hd. pose proof (inv_readable _ _ _ Hinv) as Hr.
  pose proof Hinv as [[Hm Hs Hp Ht] Hsz Hl Hnd]. pose proof (ok_length _ _ _ _ Ht) as Hlen.
  destruct (live_read _ l p k v Hl Hin) as [Hk _].
  assert (p ∈ payloads (buckets_ t)) as Hpin by (rewrite Hp; by apply (list_elem_of_fmap_2 fst l (p, (k, v)))).
  apply list_elem_of_bind in Hpin as (b&Hpb&Hb). apply list_elem_of_lookup in Hb as [i Hi].
  unfold bucket_payload in Hpb. destruct (Z.eqb_spec 0 (dist_and_fingerprint b)) as [|Hne]; [by apply not_elem_of_nil in Hpb|].
  apply list_elem_of_singleton in Hpb as ->. pose proof (lookup_lt_Some _ _ _ Hi) as Hlt.
  exists (Z.of_nat i), b. rewrite Nat2Z.id. unfold bucket_at. rewrite (proj2 (Z.ltb_ge _ _)), Nat2Z.id by lia.
  split; [|split_and!; [lia|done..|lia]].
  unfold search. rewrite Hm. cbn [mbind option_bind]. unfold probe. rewrite first_df.
  assert (key_at (GetKeyByBucket (data_mmap_file_ t)) (buckets_ t) (Z.of_nat i) = Some k) as Hkey.
  { unfold key_at. rewrite Nat2Z.id, Hi. cbn [mbind option_bind]. by rewrite decide_False by lia. }
  pose proof (home_range _ _ (sh_buckets _ _ Hs) (sh_shifts _ _ Hs) _ (Hhash k)) as Hhome.
  pose proof (steps_to _ _ (sh_buckets _ _ Hs) (sh_shifts _ _ Hs) (home (im_shifts m) (mixed_hash k)) (Z.of_nat i) ltac:(lia)) as [_ Hst].
  pose proof (probe_found _ _ _ (sh_buckets _ _ Hs) (sh_shifts _ _ Hs) (GetKeyByBucket (data_mmap_file_ t)) mixed_hash
    (hash_of_key _) _ Ht Hr (S (length (buckets_ t))) k (Z.of_nat i) 0) as Hf.
  rewrite probe_at_0 in Hf by done. apply Hf; try done; [lia| |lia..].
  intros i' Hi' Hk'. unfold key_at in Hk'. destruct (buckets_ t !! Z.to_nat i') as [c|] eqn:Ec; [|done].
  cbn [mbind option_bind] in Hk'. case_decide; [done|].
  assert (Z.to_nat i' = i); [|lia]. eapply used_unique; try done.
Qed.

Lemma search_absent t m l k : inv t m l → k ∉ keys l →
  ∃ i df, search t k = Some (Absent i df) ∧
    (Z.of_nat (length l) < num_buckets m → ∀ h p, h p = mixed_hash k →
     fits (num_buckets m) (im_shifts m) h (buckets_ t) {| payload := p; dist_and_fingerprint := df |} i ∧
     df ≠ 0 ∧ is_u32 df).
Proof using Hhash.
  intros Hinv Hk. pose proof (inv_readable _ _ _ Hinv) as Hr.
  pose proof Hinv as [Hh Hsz Hl Hnd]. pose proof Hh as [Hm Hs Hp Ht]. pose proof (ok_length _ _ _ _ Ht) as Hlen.
  pose proof (home_range _ _ (sh_buckets _ _ Hs) (sh_shifts _ _ Hs) _ (Hhash k)) as Hhome.
  pose proof (n_bounds _ _ (sh_buckets _ _ Hs) (sh_shifts _ _ Hs)) as Hnb.
  destruct (probe_absent _ _ _ (sh_buckets _ _ Hs) (sh_shifts _ _ Hs) (GetKeyByBucket (data_mmap_file_ t)) mixed_hash
    _ Ht Hr (S (length (buckets_ t))) k 0) as (j&Hj&Hreach&Hdf&Hloop); [|lia..| |].
  { intros i Hi Hki. unfold key_at in Hki. destruct (buckets_ t !! Z.to_nat i) as [c|] eqn:Ec; [|done].
    cbn [mbind option_bind] in Hki. case_decide as Hne; [done|]. apply Hk.
    assert (Some k ∈ Some <$> keys l) as Hin; [|by apply list_elem_of_fmap in Hin as (?&[= ->]&?)].
    rewrite <-(live_keys _ _ Hl), <-Hp, <-Hki. apply list_elem_of_fmap_2. unfold payloads.
    apply list_elem_of_bind. exists c. rewrite bucket_payload_used by done.
    split; [by apply list_elem_of_singleton|by eapply list_elem_of_lookup_2]. }
  { intros ?. lia. }
  rewrite probe_at_0 in Hloop by done.
  exists (probe_at (num_buckets m) (home (im_shifts m) (mixed_hash k)) j), (256 * (j + 1) + fingerprint (mixed_hash k)).
  split; [unfold search; rewrite Hm; cbn [mbind option_bind]; unfold probe; rewrite first_df; exact Hloop|].
  intros Hlt h p Hhp. pose proof (holds_free _ _ _ _ Hh Hlt) as Hfree. pose proof (fingerprint_range (mixed_hash k)).
  assert (j < num_buckets m) as Hjn.
  { destruct (decide (j < num_buckets m)) as [|Hge]; [done|]. exfalso. assert (j = num_buckets m) as -> by lia.
    pose proof (steps_of _ _ (sh_buckets _ _ Hs) (sh_shifts _ _ Hs) (home (im_shifts m) (mixed_hash k)) (num_buckets m - 1) ltac:(lia)) as Hst.
    pose proof (no_wrap _ _ _ (sh_buckets _ _ Hs) (sh_shifts _ _ Hs) (buckets_ t) (mixed_hash k)
      (probe_at (num_buckets m) (home (im_shifts m) (mixed_hash k)) (num_buckets m - 1)) Ht Hfree) as Hw.
    rewrite Hst in Hw. unfold df_for in Hw. rewrite Hst in Hw.
    specialize (Hreach ltac:(lia)). pose proof (probe_at_range _ _ (sh_buckets _ _ Hs) (sh_shifts _ _ Hs) (home (im_shifts m) (mixed_hash k)) (num_buckets m - 1)).
    specialize (Hw ltac:(done) ltac:(lia)). lia. }
  split; [|split; [lia|unfold is_u32; lia]].
  apply (reached_fits _ _ _ (sh_buckets _ _ Hs) (sh_shifts _ _ Hs)); try done; lia.
Qed.
End dict.

(** * A dictionary is a map from keys to values

    [represents t M]: the dictionary [t] is in order and its entries are those of
    the map [M].  The operations are compared with those of finite maps. *)

Section dict.
Context {K V P D : Type} `{!EqDecision K, !Countable K, !HashFn K, !BucketOps K V P D, !Buckets K V P D}.
Context (Hhash : ∀ k : K, is_u64 (mixed_hash k)).
Implicit Types (t : ReadonlyDict P D) (l : list (P * (K * V))) (m : IndexMeta) (d : D) (M : gmap K V).

Definition contents l : gmap K V := list_to_map l.*2.
Definition represents t M : Prop := ∃ m l, inv t m l ∧ M = contents l.

Lemma contents_perm l l' : NoDup (keys l) → l ≡ₚ l' → contents l = contents l'.
Proof. intros Hnd Hp. unfold contents. apply list_to_map_proper; [done|]. by rewrite Hp. Qed.

Lemma contents_elem l p k v : NoDup (keys l) → (p, (k, v)) ∈ l → contents l !! k = Some v.
Proof.
  intros Hnd Hin. unfold contents. apply elem_of_list_to_map_1; [done|].
  by apply (list_elem_of_fmap_2 snd l (p, (k, v))).
Qed.

Lemma contents_none l k : contents l !! k = None ↔ k ∉ keys l.
Proof. unfold contents, keys. symmetry. apply not_elem_of_list_to_map. Qed.

Lemma keys_elem l k : k ∈ keys l → ∃ p v, (p, (k, v)) ∈ l.
Proof.
  intros Hin. unfold keys in Hin. apply list_elem_of_fmap in Hin as ([k' v]&->&Hin).
  apply list_elem_of_fmap in Hin as ([p [k2 v2]]&[= -> ->]&Hin). by exists p, v2.
Qed.

(** ** Reading *)

(** C28. A search stops before it has seen every entry, and is still exact: [Get]
    returns the value of the key in the map, and an error exactly for the keys
    that are not in it. *)
Theorem Get_represents t M k : represents t M →
  Get t k = Some (match M !! k with Some v => inr v | None => inl NotFoundError end).
Proof using Hhash.
  intros (m&l&Hinv&->). unfold Get. destruct (decide (k ∈ keys l)) as [Hk|Hk].
  - destruct (keys_elem l k Hk) as (p&v&Hin).
    destruct (search_found Hhash t m l p k v Hinv Hin) as (i&b&->&_&_&Hb&Hp&_). cbn [mbind option_bind].
    rewrite Hb. cbn [mbind option_bind]. destruct (live_read _ l p k v (i_live _ _ _ Hinv) Hin) as [_ Hv].
    rewrite Hp, Hv. cbn [mbind option_bind]. by rewrite (contents_elem l p k v (i_nodup _ _ _ Hinv) Hin).
  - destruct (search_absent Hhash t m l k Hinv Hk) as (i&df&->&_). cbn [mbind option_bind].
    by rewrite (proj2 (contents_none l k) Hk).
Qed.

Lemma Exists_represents t M k : represents t M → Exists t k = Some (bool_decide (is_Some (M !! k))).
Proof using Hhash.
  intros (m&l&Hinv&->). unfold Exists. destruct (decide (k ∈ keys l)) as [Hk|Hk].
  - destruct (keys_elem l k Hk) as (p&v&Hin).
    destruct (search_found Hhash t m l p k v Hinv Hin) as (i&b&->&_). cbn [mbind option_bind].
    rewrite (contents_elem l p k v (i_nodup _ _ _ Hinv) Hin). by rewrite bool_decide_eq_true_2.
  - destruct (search_absent Hhash t m l k Hinv Hk) as (i&df&->&_). cbn [mbind option_bind].
    rewrite (proj2 (contents_none l k) Hk). by rewrite bool_decide_eq_false_2 by by intros [].
Qed.

Lemma Size_represents t M : represents t M → Size t = Some (Z.of_nat (size M)).
Proof.
  intros (m&l&[[Hm _ _ _] Hsz _ Hnd]&->). unfold Size. rewrite Hm. cbn. f_equal. rewrite Hsz. f_equal.
  unfold contents, keys in *. rewrite <-size_dom, dom_list_to_map. rewrite size_list_to_set by done. by rewrite !length_fmap.
Qed.

(** ** Writing *)

Lemma inv_set_data t m l d' : inv t m l → live d' l → inv (set_data t d') m l.
Proof.
  intros [[Hm Hs Hp Ht] Hsz Hl Hnd] Hl'. split; [|done..]. split; [done..|].
  eapply holds_hash; [|by split]. intros p [k v] Hin. cbn [data_mmap_file_ set_data].
  by rewrite (live_hash d' l p k v), (live_hash (data_mmap_file_ t) l p k v).
Qed.

(** Writing a payload with the same key over a bucket. *)
Lemma replace_inv t m l1 l2 p p' k v v0 d' l' i b : inv t m (l1 ++ (p, (k, v0)) :: l2) →
  buckets_ t !! i = Some b → payload b = p → dist_and_fingerprint b ≠ 0 →
  l' ≡ₚ (p', (k, v)) :: l1 ++ l2 → live d' l' →
  inv (set_buckets (set_data t d') (<[i := {| payload := p'; dist_and_fingerprint := dist_and_fingerprint b |}]>
         (buckets_ t))) m l'.
Proof.
  intros Hinv Hb <- Hne Hl' Hlive'. pose proof (inv_distinct _ _ _ Hinv) as Hd.
  pose proof Hinv as [[Hm Hs Hp Ht] Hsz Hl Hnd]. set (d := data_mmap_file_ t) in *.
  set (l := l1 ++ (payload b, (k, v0)) :: l2) in *.
  assert (l ≡ₚ (payload b, (k, v0)) :: l1 ++ l2) as Hperm by (symmetry; apply Permutation_middle).
  split; [split; [done..| |]| |done|].
  - cbn [buckets_ set_buckets]. destruct (payloads_insert _ _ _ Hb) as (rest&Hrest&Hins). rewrite Hins, Hl'.
    rewrite bucket_payload_used in Hrest |- * by done. cbn [app fmap list_fmap payload]. constructor.
    apply (Permutation_cons_inv (a := payload b)). cbn [app] in Hrest. rewrite <-Hrest, Hp, Hperm. done.
  - cbn [buckets_ set_buckets data_mmap_file_ set_data]. eapply table_ok_ext; [apply length_insert| |exact Ht].
    intros j c' Hc'. destruct (decide (i = j)) as [->|Hij].
    + rewrite list_lookup_insert_eq in Hc' by by eapply lookup_lt_Some. injection Hc' as <-.
      exists b. split; [done|split; [done|]]. intros _. cbn [payload].
      rewrite (live_hash d' l' p' k v Hlive') by (rewrite Hl'; apply list_elem_of_here).
      symmetry. apply (live_hash d l (payload b) k v0 Hl). rewrite Hperm. apply list_elem_of_here.
    + rewrite list_lookup_insert_ne in Hc' by done. exists c'. split; [done|split; [done|]]. intros Hc0.
      assert (payload c' ∈ l.*1) as Hin.
      { rewrite <-Hp. unfold payloads. apply list_elem_of_bind. exists c'. rewrite bucket_payload_used by done.
        split; [by apply list_elem_of_singleton|by eapply list_elem_of_lookup_2]. }
      apply list_elem_of_fmap in Hin as ([q [k' v']]&Hq&Hin). cbn in Hq. subst q.
      rewrite (live_hash d l _ k' v' Hl Hin). apply (live_hash d' l' _ k' v' Hlive'). rewrite Hl'.
      rewrite Hperm in Hin. apply elem_of_cons in Hin as [[= Heq -> ->]|Hin]; [|by apply list_elem_of_further].
      exfalso. apply Hij. destruct (live_read d l (payload b) k v0 Hl) as [Hkb _]; [rewrite Hperm; apply list_elem_of_here|].
      eapply used_unique; try done. fold d. by rewrite Heq.
  - rewrite Hsz, Hperm, Hl'. done.
  - unfold keys in *. rewrite Hl'. rewrite Hperm in Hnd. exact Hnd.
Qed.

(** Counting an entry that was placed. *)
Lemma placed_inv t m l p k v bs d' : shape (max_load_factor_ t) m → im_size m = Z.of_nat (length l) →
  table_ok (num_buckets m) (im_shifts m) (hash_of (data_mmap_file_ t)) bs →
  payloads bs ≡ₚ ((p, (k, v)) :: l).*1 → d' = data_mmap_file_ t → live d' (l ++ [(p, (k, v))]) →
  NoDup (keys l) → k ∉ keys l → im_size m <= 2 ^ 23 →
  inv (set_meta (set_buckets t bs) (set_size m (u64 (im_size m + 1)))) (set_size m (im_size m + 1)) (l ++ [(p, (k, v))]).
Proof.
  intros Hs Hsz Ht Hp -> Hl Hnd Hk Hmax. rewrite u64_id by (unfold is_u64; lia).
  split; [split; [done|by destruct Hs|..]| |done|].
  - cbn [buckets_ set_meta set_buckets]. rewrite Hp, fmap_app. cbn. rewrite Permutation_app_comm. done.
  - done.
  - cbn [im_size set_size]. rewrite length_app. cbn. lia.
  - unfold keys in *. rewrite !fmap_app. apply NoDup_app. split_and!; [done| |by apply NoDup_singleton].
    intros x Hx ->%list_elem_of_singleton. done.
Qed.

Lemma contents_snoc l p k v : NoDup (keys l) → k ∉ keys l → contents (l ++ [(p, (k, v))]) = <[k := v]> (contents l).
Proof.
  intros Hnd Hk. rewrite (contents_perm (l ++ _) ((p, (k, v)) :: l)); [done| |by rewrite Permutation_app_comm].
  unfold keys in *. rewrite !fmap_app. apply NoDup_app. split_and!; [done| |by apply NoDup_singleton].
  intros x Hx ->%list_elem_of_singleton. done.
Qed.

Lemma Put_found t m l k v : inv t m l → storable k v → k ∈ keys l →
  ∃ st t' l', Put t k v = Some (st, t') ∧ inv t' m l' ∧ max_load_factor_ t' = max_load_factor_ t ∧
    contents l' = if decide (st = OkStatus) then <[k := v]> (contents l) else contents l.
Proof using Hhash.
  intros Hinv Hst Hk. destruct (keys_elem l k Hk) as (p&v0&Hin). pose proof (i_nodup _ _ _ Hinv) as Hnd.
  destruct (search_found Hhash t m l p k v0 Hinv Hin) as (i&b&Hs&_&Hb&Hb'&Hp&Hne).
  apply list_elem_of_split in Hin as (l1&l2&->). unfold Put.
  rewrite (h_meta _ _ _ _ (i_holds _ _ _ Hinv)), Hs. cbn [mbind option_bind]. rewrite Hb'. cbn [mbind option_bind].
  destruct (Update_live _ l1 l2 p k v v0 (i_live _ _ _ Hinv) Hst) as (res&d'&Hu&Hres). rewrite Hp, Hu.
  cbn [mbind option_bind]. destruct res as [st|p'].
  - destruct Hres as [Hst' Hl]. exists st, (set_data t d'), (l1 ++ (p, (k, v0)) :: l2).
    rewrite decide_False by done. split_and!; try done. by apply inv_set_data.
  - destruct Hres as (l'&Hl'&Hlive). eexists OkStatus, _, l'. split; [done|].
    pose proof (replace_inv t m l1 l2 p p' k v v0 d' l' (Z.to_nat i) b Hinv Hb Hp Hne Hl' Hlive) as Hinv'.
    split; [exact Hinv'|]. split; [done|]. rewrite decide_True by done.
    rewrite (contents_perm l' ((p', (k, v)) :: l1 ++ l2)) by (done || apply (i_nodup _ _ _ Hinv')).
    rewrite (contents_perm (l1 ++ _ :: l2) ((p, (k, v0)) :: l1 ++ l2)) by (done || symmetry; apply Permutation_middle).
    unfold contents. cbn. by rewrite insert_insert_eq.
Qed.

Lemma Put_absent t m l k v : inv t m l → storable k v → k ∉ keys l →
  im_size m <= max_entries (max_load_factor_ t) →
  ∃ st t' m' l', Put t k v = Some (st, t') ∧ inv t' m' l' ∧ max_load_factor_ t' = max_load_factor_ t ∧
    contents l' = if decide (st = OkStatus) then <[k := v]> (contents l) else contents l.
Proof using Hhash.
  intros Hinv Hst Hk Hmax. pose proof Hinv as [[Hm Hs _ _] Hsz Hl Hnd].
  destruct (search_absent Hhash t m l k Hinv Hk) as (i&df&Hsearch&Hfits).
  unfold Put. rewrite Hm, Hsearch. cbn [mbind option_bind].
  destruct (NewBucket (data_mmap_file_ t) k v) as [res d'] eqn:En.
  pose proof (NewBucket_live _ _ _ _ _ _ Hl Hst En) as Hres. destruct res as [st|p].
  { destruct Hres as [Hst' Hl']. exists st, (set_data t d'), m, l. rewrite decide_False by done.
    split_and!; try done. by apply inv_set_data. }
  pose proof (sh_load _ _ Hs) as Hlo. pose proof (n_bounds _ _ (sh_buckets _ _ Hs) (sh_shifts _ _ Hs)) as Hnb.
  pose proof (capacity_lt _ (num_buckets m) Hlo ltac:(lia)) as Hcn. rewrite <-(sh_capacity _ _ Hs) in Hcn.
  pose proof (capacity_lt _ (2 ^ 22) Hlo ltac:(lia)) as Hc22. fold (max_entries (max_load_factor_ t)) in Hc22.
  assert (holds (hash_of d') (set_data t d') m l) as Hh'.
  { destruct Hinv as [Hh _ _ _]. eapply holds_hash; [|split; apply Hh].
    intros q [k' v'] Hin. cbn [data_mmap_file_ set_data]. rewrite (live_hash (data_mmap_file_ t) l q k' v' Hl Hin).
    apply (live_hash d' _ q k' v' Hres). apply elem_of_app. by left. }
  assert (hash_of d' p = mixed_hash k) as Hpk.
  { apply (live_hash d' _ p k v Hres). apply elem_of_app. right. by apply list_elem_of_singleton. }
  destruct (is_full m) eqn:Efull.
  - destruct (increase_size_ok Hhash (set_data t d') m l _ Hh' Hres Hsz Efull Hmax) as (t'&m'&->&Hsame&Hh&Hsz'&Hgrow).
    cbn [mbind option_bind]. destruct Hsame as (Hd&Hlf&Hopt). cbn [data_mmap_file_ set_data max_load_factor_] in Hd, Hlf.
    rewrite decide_True by done. pose proof (h_payloads _ _ _ _ (i_holds _ _ _ Hinv)) as Hpl.
    pose proof (payloads_length (buckets_ t)) as [Hlen _]. rewrite Hpl, length_fmap in Hlen.
    pose proof (ok_length _ _ _ _ (h_table _ _ _ _ (i_holds _ _ _ Hinv))) as Hbl.
    rewrite Hd in Hh. destruct (fill_entry_holds Hhash _ t' m' l p k v Hh) as (bs&->&Hok&Hpay); [lia|done|].
    cbn [mbind option_bind meta_ set_buckets]. rewrite decide_True by done. rewrite (h_meta _ _ _ _ Hh).
    cbn [mbind option_bind]. eexists OkStatus, _, _, _. split; [done|]. split.
    + apply (placed_inv t' m' l p k v bs d'); [apply Hh|lia|by rewrite Hd|exact Hpay|done|exact Hres|done|done|lia].
    + rewrite decide_True by done. split; [exact Hlf|]. by apply contents_snoc.
  - apply Z.ltb_ge in Efull. destruct (Hfits ltac:(lia) _ _ Hpk) as (Hf&Hdf&Hu).
    destruct (place_holds _ _ _ _ p (k, v) i df Hh' ltac:(lia) Hf Hdf Hu) as (bs&->&Hok&Hpay).
    cbn [mbind option_bind]. rewrite decide_True by done. cbn [meta_ set_buckets set_data]. rewrite Hm.
    cbn [mbind option_bind]. eexists OkStatus, _, _, _. split; [done|]. split.
    + apply (placed_inv (set_data t d') m l p k v bs d'); [exact Hs|exact Hsz|exact Hok|exact Hpay|done|exact Hres|done|done|lia].
    + rewrite decide_True by done. split; [done|]. by apply contents_snoc.
Qed.

(** C7. On a dictionary that represents a map, which includes that its load
    factor is below 1, and that has at most [max_entries] entries, [Put] of a
    key and a value that can be stored ends, also when the array has to grow.
    On success the dictionary maps the key to the value and every other key as
    before; when the data file refuses the record the dictionary stays as it
    was. *)
Theorem Put_represents t M k v : represents t M → storable k v →
  Z.of_nat (size M) <= max_entries (max_load_factor_ t) →
  ∃ st t', Put t k v = Some (st, t') ∧ max_load_factor_ t' = max_load_factor_ t ∧
    represents t' (if decide (st = OkStatus) then <[k := v]> M else M).
Proof using Hhash.
  intros Hr Hst Hmax. pose proof (Size_represents t M Hr) as Hsize. destruct Hr as (m&l&Hinv&->).
  unfold Size in Hsize. rewrite (h_meta _ _ _ _ (i_holds _ _ _ Hinv)) in Hsize. injection Hsize as Hsize.
  destruct (decide (k ∈ keys l)) as [Hk|Hk].
  - destruct (Put_found t m l k v Hinv Hst Hk) as (st&t'&l'&->&Hinv'&Hlf&Hc).
    exists st, t'. split; [done|split; [done|]]. exists m, l'. by rewrite Hc.
  - destruct (Put_absent t m l k v Hinv Hst Hk ltac:(lia)) as (st&t'&m'&l'&->&Hinv'&Hlf&Hc).
    exists st, t'. split; [done|split; [done|]]. exists m', l'. by rewrite Hc.
Qed.
End dict.

(** * Opening, merging and sequences of updates of a dictionary *)

Section dict.
Context {K V P D : Type} `{!EqDecision K, !Countable K, !HashFn K, !BucketOps K V P D, !Buckets K V P D}.
Context (Hhash : ∀ k : K, is_u64 (mixed_hash k)).
Implicit Types (t : ReadonlyDict P D) (l : list (P * (K * V))) (m : IndexMeta) (d : D) (M : gmap K V).

(** ** Merging *)

Lemma capacity_room lf m : shape lf m → 0 <= max_bucket_capacity m < num_buckets m.
Proof.
  intros Hs. pose proof (n_bounds _ _ (sh_buckets _ _ Hs) (sh_shifts _ _ Hs)).
  rewrite (sh_capacity _ _ Hs). apply capacity_lt; [apply Hs|lia].
Qed.

Lemma holds_fit h t m l : holds h t m l → Z.of_nat (length l) <= num_buckets m <= 2 ^ 23.
Proof.
  intros [_ Hs Hp Ht]. pose proof (n_bounds _ _ (sh_buckets _ _ Hs) (sh_shifts _ _ Hs)).
  pose proof (payloads_length (buckets_ t)) as [Hlen _]. rewrite Hp, length_fmap in Hlen.
  pose proof (ok_length _ _ _ _ Ht). lia.
Qed.

Definition shifted d (e : P * (K * V)) : P * (K * V) := (merge_payload d e.1, e.2).

Lemma feed_merge h d t m l l' : holds h t m l → im_size m = Z.of_nat (length l) →
  Z.of_nat (length l + length l') <= num_buckets m →
  (∀ p k v, (p, (k, v)) ∈ l' → h (merge_payload d p) = mixed_hash k) →
  ∃ bs, feed (merge_entry d) t l' =
      Some (set_meta (set_buckets t bs) (set_size m (im_size m + Z.of_nat (length l')))) ∧
    holds h (set_buckets t bs) m ((shifted d <$> l') ++ l).
Proof using Hhash.
  revert t m l. induction l' as [|[p [k v]] l' IH]; intros t m l Hh Hsz Hlen Hl'; cbn [feed].
  { exists (buckets_ t). rewrite Z.add_0_r. pose proof (h_meta _ _ _ _ Hh) as Hm.
    destruct t, m. cbn in *. subst. by split. }
  cbn [length] in Hlen. pose proof Hh as [Hm Hs Hp Ht].
  pose proof (n_bounds _ _ (sh_buckets _ _ Hs) (sh_shifts _ _ Hs)) as Hnb.
  unfold merge_entry at 2.
  destruct (fill_entry_holds Hhash h t m l (merge_payload d p) k v Hh) as (bs&->&Hok&Hpay);
    [lia|by eapply Hl', list_elem_of_here|].
  cbn [mbind option_bind meta_ set_buckets]. rewrite Hm. cbn [mbind option_bind].
  rewrite u64_id by (unfold is_u64; lia).
  destruct (IH (set_meta (set_buckets t bs) (set_size m (im_size m + 1))) (set_size m (im_size m + 1))
    ((merge_payload d p, (k, v)) :: l)) as (bs'&->&Hh').
  - split; [done|by destruct Hs|exact Hpay|exact Hok].
  - cbn [im_size set_size length]. lia.
  - cbn [num_buckets set_size length]. lia.
  - intros q k' v' Hin. by eapply Hl', list_elem_of_further.
  - exists bs'. split.
    + f_equal. unfold set_meta, set_size. cbn. do 2 f_equal. f_equal. lia.
    + destruct Hh' as [_ _ Hp' Ht']. cbn in Hp', Ht'. split; [done|done| |done]. cbn [buckets_ set_buckets].
      rewrite Hp', !fmap_app, !fmap_cons. symmetry. apply Permutation_middle.
Qed.

Lemma keys_shifted d l : keys (shifted d <$> l) = keys l.
Proof. unfold keys. by rewrite <-!list_fmap_compose. Qed.

Lemma contents_app l l' : contents (l ++ l') = contents l ∪ contents l'.
Proof. unfold contents. by rewrite fmap_app, list_to_map_app. Qed.

Lemma disjoint_keys l l' : contents l ##ₘ contents l' → ∀ k, k ∈ keys l → k ∉ keys l'.
Proof.
  intros Hd k Hk Hk'. apply map_disjoint_dom in Hd. apply (Hd k).
  - unfold contents. by rewrite dom_list_to_map, elem_of_list_to_set.
  - unfold contents. by rewrite dom_list_to_map, elem_of_list_to_set.
Qed.

(** The array after a merge holds the entries of both, also when a key is in
    both. *)
Lemma Merge_holds t o m mo l lo r d' : inv t m l → inv o mo lo → opt_readonly (opt_ t) = false →
  estimate_bucket_num (im_size m + im_size mo) (max_load_factor_ t) = Some r →
  r <= max_entries (max_load_factor_ t) →
  merge_data (data_mmap_file_ t) (data_mmap_file_ o) = (inr (), d') →
  ∃ t' m', Merge t o = Some (OkStatus, t') ∧ data_mmap_file_ t' = d' ∧
    live d' (l ++ (shifted (data_mmap_file_ t) <$> lo)) ∧
    holds (hash_of d') t' m' (l ++ (shifted (data_mmap_file_ t) <$> lo)) ∧ im_size m' = im_size m + im_size mo.
Proof using Hhash.
  intros [Hh Hsz Hl _] [Hho Hszo Hlo _] Hro Hest Hmax Hdata.
  pose proof (sh_load _ _ (h_shape _ _ _ _ Hh)) as Hlf.
  pose proof (capacity_lt _ (2 ^ 22) Hlf ltac:(lia)) as Hc22. fold (max_entries (max_load_factor_ t)) in Hc22.
  pose proof (holds_fit _ _ _ _ Hh) as Hf1. pose proof (holds_fit _ _ _ _ Hho) as Hf2.
  pose proof (estimate_ge (im_size m + im_size mo) _ Hlf ltac:(lia) r Hest) as Hge.
  unfold Merge. rewrite Hro, (h_meta _ _ _ _ Hh), (h_meta _ _ _ _ Hho). cbn [mbind option_bind].
  rewrite u64_id, Hest by (unfold is_u64; lia). cbn [mbind option_bind].
  destruct (reserve_ok Hhash t m l r Hh Hl Hsz ltac:(lia)) as (t1&m1&->&(Hd1&Hlf1&_)&Hh1&Hsz1&Hcap).
  cbn [mbind option_bind]. rewrite decide_True by done.
  destruct (visit_live (data_mmap_file_ o) lo [] (buckets_ o)) as (l'&Hperm&Hv);
    [by rewrite app_nil_r|apply Hho|]. rewrite Hszo, Hv.
  pose proof (merge_live _ _ _ _ _ _ Hl Hlo Hdata) as Hlive. cbn in Hlive. fold (shifted (data_mmap_file_ t)) in Hlive.
  rewrite Hd1 in Hh1 |- *.
  assert (holds (hash_of d') t1 m1 l) as Hh1'.
  { eapply holds_hash; [|exact Hh1]. intros p [k v] Hin. rewrite (live_hash _ l p k v Hl Hin).
    apply (live_hash _ _ p k v Hlive). apply elem_of_app. by left. }
  pose proof (capacity_room _ _ (h_shape _ _ _ _ Hh1)) as Hcn.
  destruct (feed_merge (hash_of d') (data_mmap_file_ t) t1 m1 l l' Hh1') as (bs&->&Hh2); [lia| | |].
  { rewrite Hperm. lia. }
  { intros p k v Hin. apply (live_hash _ _ _ k v Hlive). apply elem_of_app. right.
    apply (list_elem_of_fmap_2 (shifted (data_mmap_file_ t)) lo (p, (k, v))). by rewrite <-Hperm. }
  cbn [fmap option_fmap option_map mbind option_bind]. rewrite decide_True by done.
  cbn [data_mmap_file_ set_meta set_buckets]. rewrite Hd1, Hdata.
  eexists _, (set_size m1 (im_size m1 + Z.of_nat (length l'))). split; [done|split; [done|split; [exact Hlive|]]].
  destruct Hh2 as [_ Hs2 Hp2 Ht2]. split; [split; [done|by destruct Hs2| |exact Ht2]|].
  - cbn [buckets_ set_data set_meta set_buckets] in *. rewrite Hp2, Hperm, !fmap_app. apply Permutation_app_comm.
  - cbn [im_size set_size]. rewrite Hperm. lia.
Qed.

Lemma represents_size t m l : inv t m l → im_size m = Z.of_nat (size (contents l)).
Proof.
  intros Hinv. assert (represents t (contents l)) as Hr by by exists m, l. apply Size_represents in Hr. unfold Size in Hr.
  rewrite (h_meta _ _ _ _ (i_holds _ _ _ Hinv)) in Hr. by injection Hr.
Qed.

(** Merging a dictionary with other keys gives the union, with the sum of the
    sizes: the array that is reserved first has room for all entries. *)
Theorem Merge_represents t o M M' r d' : represents t M → represents o M' → M ##ₘ M' →
  opt_readonly (opt_ t) = false →
  estimate_bucket_num (Z.of_nat (size M + size M')) (max_load_factor_ t) = Some r →
  r <= max_entries (max_load_factor_ t) →
  merge_data (data_mmap_file_ t) (data_mmap_file_ o) = (inr (), d') →
  ∃ t', Merge t o = Some (OkStatus, t') ∧ represents t' (M ∪ M').
Proof using Hhash.
  intros (m&l&Hinv&->) (mo&lo&Hinvo&->) Hdisj Hro Hest Hmax Hdata.
  rewrite Nat2Z.inj_add, <-(represents_size _ _ _ Hinv), <-(represents_size _ _ _ Hinvo) in Hest.
  destruct (Merge_holds t o m mo l lo r d' Hinv Hinvo Hro Hest Hmax Hdata) as (t'&m'&->&Hd&Hlive&Hh&Hsz).
  exists t'. split; [done|]. exists m', (l ++ (shifted (data_mmap_file_ t) <$> lo)). split.
  - split; [by rewrite Hd| |by rewrite Hd|].
    + rewrite Hsz, length_app, length_fmap, (i_size _ _ _ Hinv), (i_size _ _ _ Hinvo). lia.
    + unfold keys. rewrite !fmap_app. fold (keys l) (keys (shifted (data_mmap_file_ t) <$> lo)). rewrite keys_shifted.
      apply NoDup_app. split_and!; [apply Hinv| |apply Hinvo]. by apply disjoint_keys.
  - rewrite contents_app. f_equal. unfold contents. by rewrite <-list_fmap_compose.
Qed.

(** A key of both dictionaries is stored twice and counted twice: the size
    after a merge is the sum of the sizes, not the number of keys. *)
Theorem Merge_counts_twice t o M M' r d' : represents t M → represents o M' →
  opt_readonly (opt_ t) = false →
  estimate_bucket_num (Z.of_nat (size M + size M')) (max_load_factor_ t) = Some r →
  r <= max_entries (max_load_factor_ t) →
  merge_data (data_mmap_file_ t) (data_mmap_file_ o) = (inr (), d') →
  ∃ t', Merge t o = Some (OkStatus, t') ∧ Size t' = Some (Z.of_nat (size M + size M')) ∧
        (¬ M ##ₘ M' → (size (M ∪ M') < size M + size M')%nat).
Proof using Hhash.
  intros (m&l&Hinv&->) (mo&lo&Hinvo&->) Hro Hest Hmax Hdata.
  pose proof (represents_size _ _ _ Hinv) as Hs1. pose proof (represents_size _ _ _ Hinvo) as Hs2.
  rewrite Nat2Z.inj_add, <-Hs1, <-Hs2 in Hest.
  destruct (Merge_holds t o m mo l lo r d' Hinv Hinvo Hro Hest Hmax Hdata) as (t'&m'&->&_&_&Hh&Hsz).
  exists t'. split; [done|split].
  - unfold Size. rewrite (h_meta _ _ _ _ Hh). cbn. f_equal. lia.
  - intros Hnd. set (A := contents l) in *. set (B := contents lo) in *.
    rewrite <-!size_dom, dom_union. rewrite (union_difference_L (dom A) (dom A ∪ dom B)) by set_solver.
    rewrite size_union by set_solver.
    assert (size ((dom A ∪ dom B) ∖ dom A) < size (dom B))%nat; [|lia].
    apply subset_size. split; [set_solver|]. intros Hsub. apply Hnd. apply map_disjoint_dom. set_solver.
Qed.

(** ** Sequences of updates *)

Fixpoint put_all t (kvs : list (K * V)) : option (list Status * ReadonlyDict P D) :=
  match kvs with
  | [] => Some ([], t)
  | (k, v) :: kvs =>
      '(st, t) ← Put t k v; '(sts, t) ← put_all t kvs; Some (st :: sts, t)
  end.

(** The map after the updates that succeeded. *)
Definition apply_puts M (sts : list Status) (kvs : list (K * V)) : gmap K V :=
  foldl (λ M p, if decide (p.1 = OkStatus) then <[p.2.1 := p.2.2]> M else M) M (zip sts kvs).

Lemma put_all_represents t M kvs : represents t M → Forall (λ p, storable p.1 p.2) kvs →
  Z.of_nat (size M + length kvs) <= max_entries (max_load_factor_ t) →
  ∃ sts t', put_all t kvs = Some (sts, t') ∧ length sts = length kvs ∧ max_load_factor_ t' = max_load_factor_ t ∧
    represents t' (apply_puts M sts kvs).
Proof using Hhash.
  revert t M. induction kvs as [|[k v] kvs IH]; intros t M Hr Hst Hmax; cbn [put_all].
  { by exists [], t. }
  apply Forall_cons in Hst as [Hkv Hst]. cbn [length] in Hmax.
  destruct (Put_represents Hhash t M k v Hr Hkv ltac:(lia)) as (st&t1&->&Hlf&Hr1). cbn [mbind option_bind].
  destruct (IH t1 _ Hr1 Hst) as (sts&t2&->&Hlen&Hlf2&Hr2).
  - rewrite Hlf. case_decide; [|lia]. rewrite map_size_insert. destruct (M !! k); cbn; lia.
  - cbn [mbind option_bind]. exists (st :: sts), t2. split; [done|]. cbn [length].
    split; [lia|]. split; [congruence|]. exact Hr2.
Qed.
End dict.
