(* ===== verification/RdictKinds.v ===== *)
(** * RdictKinds: the two kinds of buckets do what the dictionary needs

    Instances of [Buckets]: for buckets that hold the entry, and for buckets that
    hold the offset of a record, where the data is a sequence of records of which
    the overwritten ones are marked invalid. *)

From S2P Require Import Prelude RdictTable RdictData Rdict RdictSpec.

(** ** Buckets that hold the key and the value *)

Section flat.
Context {K V : Type} `{!Inhabited K, !Inhabited V}.

Lemma flat_loop_ok {S} (old : list (Bucket (K * V))) n i (f : S → K → K * V → option S) s :
  n - i = Z.of_nat (length (payloads old)) →
  flat_loop old n i f s = (λ s, (OkStatus, s)) <$> feed f s ((λ p, (p, p)) <$> payloads old).
Proof.
  revert i s. induction old as [|b old IH]; intros i s Hn.
  { cbn in *. by rewrite (proj2 (Z.ltb_ge i n)) by lia. }
  change (payloads (b :: old)) with (bucket_payload b ++ payloads old) in *.
  destruct (decide (dist_and_fingerprint b = 0)) as [E|E].
  - rewrite bucket_payload_free in * by done. cbn [app] in *. cbn [flat_loop].
    rewrite (proj2 (Z.eqb_eq (dist_and_fingerprint b) 0) E). rewrite IH by done.
    destruct (Z.ltb_spec i n); [done|]. destruct (payloads old); [done|]. cbn in Hn. lia.
  - rewrite bucket_payload_used in * by done. cbn [app length fmap list_fmap] in *. cbn [flat_loop].
    rewrite (proj2 (Z.ltb_lt i n)), (proj2 (Z.eqb_neq (dist_and_fingerprint b) 0)) by (done || lia).
    destruct (payload b) as [k v]. cbn [feed fst]. destruct (f s k (k, v)) as [s'|]; [|done]. cbn [mbind option_bind].
    apply IH. lia.
Qed.

#[export, program] Instance flat_Buckets : Buckets K V (K * V) unit := {|
  live _ l := Forall (λ e, e.1 = e.2) l;
  storable _ _ := True;
|}.
Next Obligation.
  intros d l p k v Hl Hin. eapply Forall_forall in Hl; [|done]. cbn in Hl. by subst p.
Qed.
Next Obligation.
  intros d l k v res d' Hl _ [= <- <-]. apply Forall_app. split; [done|]. by apply Forall_singleton.
Qed.
Next Obligation.
  intros d l1 l2 p k v v0 Hl _. cbn. eexists _, _. split; [done|]. cbn.
  apply Forall_app in Hl as [Hl1 [Hp Hl2]%Forall_cons]. cbn in Hp. subst p.
  exists (((k, v), (k, v)) :: l1 ++ l2). split; [done|]. constructor; [done|]. by apply Forall_app.
Qed.
Next Obligation.
  intros d l1 l2 old [Hl _]%Forall_app Hold. exists ((λ p, (p, p)) <$> payloads old). split.
  - rewrite Hold, <-list_fmap_compose. rewrite <-(list_fmap_id l1) at 2.
    erewrite list_fmap_ext; [done|]. intros i [p q] Hi. cbn. eapply Forall_lookup_1 in Hl; [|done]. cbn in Hl. by subst.
  - intros S f s. cbn. apply flat_loop_ok. rewrite Hold, length_fmap. lia.
Qed.
Next Obligation.
  intros d1 d2 l1 l2 res d' Hl1 Hl2 [= <- <-]. apply Forall_app. split; [done|].
  apply Forall_fmap. eapply Forall_impl; [exact Hl2|]. done.
Qed.
End flat.

(** ** Records *)

Lemma align_spec x : 0 <= x < 2 ^ 63 → x <= align x < x + 8.
Proof.
  intros Hx. unfold align. rewrite u64_id by (unfold is_u64; lia).
  change (Z.lnot 7) with (Z.lnot (Z.ones 3)).
  assert (Z.land (x + 7) (Z.lnot (Z.ones 3)) = Z.ldiff (x + 7) (Z.ones 3)) as -> by (by rewrite Z.ldiff_land).
  rewrite Z.ldiff_ones_r, Z.shiftl_mul_pow2, Z.shiftr_div_pow2 by lia. change (2 ^ 3) with 8.
  pose proof (Z.div_mod (x + 7) 8). pose proof (Z.mod_pos_bound (x + 7) 8). lia.
Qed.

Section records.
Context {K V : Type} `{!SerializerOps K, !SerializerOps V, !Serializer K, !Serializer V, !MmapOs}.

Record record := { r_key : K; r_val : V; r_flags : Z }.

Definition body (k : K) (v : V) : list Z := Pack k ++ Pack v.
Definition record_len (k : K) (v : V) : Z := align (Z.of_nat (length (body k v)) + 1).
Definition encode (r : record) : list Z :=
  body (r_key r) (r_val r) ++ r_flags r ::
  replicate (Z.to_nat (record_len (r_key r) (r_val r)) - length (body (r_key r) (r_val r)) - 1) 0.

Definition record_ok (k : K) (v : V) : Prop :=
  packable k ∧ packable v ∧ Z.of_nat (length (body k v)) < 2 ^ 61.
Definition records_ok (rs : list record) : Prop :=
  Forall (λ r, record_ok (r_key r) (r_val r) ∧ (r_flags r = 0 ∨ r_flags r = 1)) rs.

Lemma record_len_spec k v : record_ok k v →
  Z.of_nat (length (body k v)) + 1 <= record_len k v < Z.of_nat (length (body k v)) + 9.
Proof. intros (_&_&Hl). unfold record_len. pose proof (align_spec (Z.of_nat (length (body k v)) + 1)). lia. Qed.

Lemma Pack_encode k v : record_ok k v → KeyValPair_Pack k v = encode {| r_key := k; r_val := v; r_flags := 0 |}.
Proof.
  intros Hok. pose proof (record_len_spec k v Hok) as Hl. unfold KeyValPair_Pack, encode. cbn [r_key r_val r_flags].
  fold (body k v). fold (record_len k v). f_equal.
  set (n := Z.to_nat (record_len k v)). set (b := length (body k v)).
  destruct (n - b)%nat as [|j] eqn:E; [lia|]. cbn. by rewrite Nat.sub_0_r.
Qed.

Lemma encode_length r : record_ok (r_key r) (r_val r) →
  Z.of_nat (length (encode r)) = record_len (r_key r) (r_val r).
Proof.
  intros Hok. pose proof (record_len_spec _ _ Hok) as Hl. unfold encode. rewrite length_app. cbn [length].
  rewrite length_replicate. lia.
Qed.

(** What the operations read at the start of a record. *)
Lemma read_record r rest : record_ok (r_key r) (r_val r) →
  UnpackKey (encode r ++ rest) = Some (r_key r) ∧
  KeyValPair_Unpack (encode r ++ rest) = Some (r_key r, r_val r) ∧
  flags_offset (K:=K) (V:=V) (encode r ++ rest) = Some (Z.of_nat (length (body (r_key r) (r_val r)))).
Proof.
  intros (Hk&Hv&_). unfold encode, body. set (tail := r_flags r :: _). rewrite <-!(app_assoc (Pack (r_key r))).
  unfold UnpackKey, KeyValPair_Unpack, flags_offset. rewrite !Unpack_Pack, GetSize_Pack by done.
  cbn [fmap option_fmap option_map fst mbind option_bind].
  rewrite Nat2Z.id, drop_app_length, <-app_assoc, Unpack_Pack, GetSize_Pack by done. cbn [mbind option_bind].
  rewrite length_app, Nat2Z.inj_add. done.
Qed.

Lemma GetFlags_record r rest : record_ok (r_key r) (r_val r) →
  GetFlags (K:=K) (V:=V) (encode r ++ rest) = Some (r_flags r).
Proof.
  intros Hok. unfold GetFlags. destruct (read_record r rest Hok) as (_&_&->). cbn [mbind option_bind].
  rewrite Nat2Z.id. unfold encode. rewrite <-app_assoc. cbn [app]. by rewrite list_lookup_middle.
Qed.

Lemma GetKeyValuePackSize_record r rest : record_ok (r_key r) (r_val r) →
  GetKeyValuePackSize (K:=K) (V:=V) (encode r ++ rest) = Some (Z.of_nat (length (encode r))).
Proof.
  intros Hok. unfold GetKeyValuePackSize. destruct (read_record r rest Hok) as (_&_&->). cbn [mbind option_bind].
  by rewrite encode_length.
Qed.

Definition with_flags (r : record) (f : Z) : record := {| r_key := r_key r; r_val := r_val r; r_flags := f |}.

Lemma SetFlags_record r rest f : record_ok (r_key r) (r_val r) →
  SetFlags (K:=K) (V:=V) (encode r ++ rest) f = Some (encode (with_flags r f) ++ rest).
Proof.
  intros Hok. unfold SetFlags. destruct (read_record r rest Hok) as (_&_&->). cbn [mbind option_bind].
  rewrite Nat2Z.id. unfold encode, with_flags. cbn [r_key r_val r_flags]. rewrite <-!app_assoc, !length_app. cbn [length app].
  rewrite (proj2 (Nat.ltb_lt _ _)) by lia. by rewrite insert_app_r_alt, Nat.sub_diag by done.
Qed.

(** ** The live records *)

Fixpoint live_from (off : Z) (rs : list record) : list (Z * (K * V)) :=
  match rs with
  | [] => []
  | r :: rs =>
      let rest := live_from (off + Z.of_nat (length (encode r))) rs in
      if invalid (r_flags r) then rest else (off, (r_key r, r_val r)) :: rest
  end.

Definition bytes (rs : list record) : list Z := rs ≫= encode.

Lemma bytes_app rs rs' : bytes (rs ++ rs') = bytes rs ++ bytes rs'.
Proof. apply bind_app. Qed.

Lemma live_from_app off rs rs' :
  live_from off (rs ++ rs') = live_from off rs ++ live_from (off + Z.of_nat (length (bytes rs))) rs'.
Proof.
  revert off. induction rs as [|r rs IH]; intros off; cbn [app live_from].
  { cbn. by rewrite Z.add_0_r. }
  rewrite IH. change (bytes (r :: rs)) with (encode r ++ bytes rs). rewrite length_app, Nat2Z.inj_add, Z.add_assoc.
  by destruct (invalid (r_flags r)).
Qed.

Lemma live_from_split off rs l1 p k v l2 : live_from off rs = l1 ++ (p, (k, v)) :: l2 →
  ∃ rs1 r rs2, rs = rs1 ++ r :: rs2 ∧ r_key r = k ∧ r_val r = v ∧ invalid (r_flags r) = false ∧
    live_from off rs1 = l1 ∧ p = off + Z.of_nat (length (bytes rs1)) ∧
    live_from (p + Z.of_nat (length (encode r))) rs2 = l2.
Proof.
  revert off l1. induction rs as [|r rs IH]; intros off l1; cbn [live_from]; [by destruct l1|].
  destruct (invalid (r_flags r)) eqn:E.
  - intros Heq. destruct (IH _ _ Heq) as (rs1&r'&rs2&->&?&?&?&?&?&?). exists (r :: rs1), r', rs2.
    split_and!; try done; [cbn [live_from]; by rewrite E|].
    change (bytes (r :: rs1)) with (encode r ++ bytes rs1). rewrite length_app. lia.
  - destruct l1 as [|e l1]; cbn [app]; intros Heq.
    + injection Heq as <- <- <- <-. exists [], r, rs. cbn. by rewrite Z.add_0_r.
    + injection Heq as <- Heq. destruct (IH _ _ Heq) as (rs1&r'&rs2&->&?&?&?&?&?&?). exists (r :: rs1), r', rs2.
      split_and!; try done; [cbn [live_from]; rewrite E; congruence|].
      change (bytes (r :: rs1)) with (encode r ++ bytes rs1). rewrite length_app. lia.
Qed.

(** ** The mapped file *)

Definition file_ok (d : MmapFile) : Prop :=
  write_offset_ d <= capacity_ d <= reserved_space_bytes d ∧ reserved_space_bytes d < 2 ^ 62.

Lemma ExtendBuffer_ok d len st d' : file_ok d → 0 < len < 2 ^ 62 → ExtendBuffer d len = (st, d') →
  data_ d' = data_ d ∧ file_ok d' ∧ (st = OkStatus → capacity_ d + len <= capacity_ d').
Proof.
  unfold file_ok, write_offset_, ExtendBuffer. intros [Hb Hr] Hlen.
  set (e := u64 (u64 (len + kSegmentSize) / kSegmentSize * kSegmentSize)).
  assert (len <= e < len + 2 ^ 27) as He.
  { subst e. rewrite (u64_id (len + _)) by (unfold is_u64, kSegmentSize; lia). unfold kSegmentSize.
    pose proof (Z.div_mod (len + 64 * 1024 * 1024) (64 * 1024 * 1024)) as Hd.
    pose proof (Z.mod_pos_bound (len + 64 * 1024 * 1024) (64 * 1024 * 1024)) as Hm.
    rewrite u64_id by (unfold is_u64; lia). lia. }
  rewrite (u64_id (capacity_ d + e)) by (unfold is_u64; lia).
  destruct (Z.ltb_spec (reserved_space_bytes d) (capacity_ d + e)); [by intros [= <- <-]|].
  destruct (negb (file_size d =? capacity_ d)); [by intros [= <- <-]|].
  destruct (negb (extends (capacity_ d + e))); [by intros [= <- <-]|]. intros [= <- <-]. cbn. split_and!; try done; lia.
Qed.

Lemma Add_ok d data res d' : file_ok d → Z.of_nat (length data) < 2 ^ 62 → Add d data = (res, d') →
  file_ok d' ∧
  match res with
  | inl st => st ≠ OkStatus ∧ data_ d' = data_ d
  | inr off => off = write_offset_ d ∧ data_ d' = data_ d ++ data
  end.
Proof.
  intros Hok Hlen. unfold Add. destruct (readonly_ d); [by intros [= <- <-]|].
  assert (∃ st d1, (if capacity_ d <? write_offset_ d + Z.of_nat (length data)
      then ExtendBuffer d (write_offset_ d + Z.of_nat (length data) - capacity_ d) else (OkStatus, d)) = (st, d1) ∧
    data_ d1 = data_ d ∧ file_ok d1 ∧ (st = OkStatus → write_offset_ d + Z.of_nat (length data) <= capacity_ d1))
    as (st&d1&->&Hd1&Hok1&Hcap).
  { destruct (Z.ltb_spec (capacity_ d) (write_offset_ d + Z.of_nat (length data))).
    - destruct (ExtendBuffer d _) as [st d1] eqn:E. exists st, d1. split; [done|].
      apply ExtendBuffer_ok in E as (?&?&Hc); [|done|unfold file_ok, write_offset_ in *; lia].
      split; [done|]. split; [done|]. intros Hst. specialize (Hc Hst). lia.
    - exists OkStatus, d. split_and!; try done. }
  case_decide as Est; intros [= <- <-].
  - specialize (Hcap Est). unfold file_ok, write_offset_ in *. cbn. rewrite Hd1 in *. rewrite length_app. split; [lia|done].
  - done.
Qed.

(** ** The instance *)

Definition records_live (d : MmapFile) (l : list (Z * (K * V))) : Prop :=
  ∃ rs, data_ d = bytes rs ∧ records_ok rs ∧ live_from 0 rs = l ∧ file_ok d.

(** Where a live record is. *)
Lemma live_data d rs1 r rs2 : data_ d = bytes (rs1 ++ r :: rs2) →
  GetKeyValData d (0 + Z.of_nat (length (bytes rs1))) = encode r ++ bytes rs2.
Proof.
  intros Hd. unfold GetKeyValData. rewrite Hd, bytes_app, Z.add_0_l, Nat2Z.id, drop_app_length. done.
Qed.

Lemma record_loop_ok {S} d (f : S → K → Z → option S) rs done fuel n i s la lb :
  data_ d = bytes (done ++ rs) → records_ok rs → live_from (Z.of_nat (length (bytes done))) rs = la ++ lb →
  n - i = Z.of_nat (length la) → (length rs <= fuel)%nat →
  record_loop fuel d n i (Z.of_nat (length (bytes done))) f s = (λ s, (OkStatus, s)) <$> feed f s la.
Proof.
  revert done fuel i s la. induction rs as [|r rs IH]; intros done fuel i s la Hd Hok Hl Hn Hf.
  { cbn in Hl. destruct la; [|done]. destruct fuel; cbn in *; by rewrite (proj2 (Z.ltb_ge i n)) by lia. }
  destruct la as [|e la]; [destruct fuel; cbn in *; by rewrite (proj2 (Z.ltb_ge i n)) by lia|].
  cbn [length] in Hn, Hf. destruct fuel as [|fuel]; [lia|]. cbn [record_loop].
  rewrite (proj2 (Z.ltb_lt i n)) by lia. apply Forall_cons in Hok as [[Hr Hfl] Hok].
  pose proof (record_len_spec _ _ Hr). pose proof (encode_length r Hr).
  rewrite (proj2 (Z.leb_gt _ _)).
  2:{ unfold write_offset_. rewrite Hd, bytes_app, length_app. change (bytes (r :: rs)) with (encode r ++ bytes rs).
      rewrite length_app. lia. }
  pose proof (live_data d done r rs Hd) as Hread. rewrite Z.add_0_l in Hread. rewrite Hread.
  rewrite GetFlags_record, GetKeyValuePackSize_record by done. cbn [mbind option_bind].
  assert (∀ n' s' la', live_from (Z.of_nat (length (bytes (done ++ [r])))) rs = la' ++ lb → n - n' = Z.of_nat (length la') →
    record_loop fuel d n n' (Z.of_nat (length (bytes done)) + Z.of_nat (length (encode r))) f s' =
    (λ s, (OkStatus, s)) <$> feed f s' la') as Hrec.
  { intros n' s' la' Hl' Hn'. rewrite <-(IH (done ++ [r]) fuel n' s' la'); try done; [|by rewrite <-app_assoc|lia].
    f_equal. rewrite bytes_app, length_app. change (bytes [r]) with (encode r ++ []). rewrite app_nil_r. lia. }
  assert (Z.of_nat (length (bytes (done ++ [r]))) = Z.of_nat (length (bytes done)) + Z.of_nat (length (encode r))) as Hoff.
  { rewrite bytes_app, length_app. change (bytes [r]) with (encode r ++ []). rewrite app_nil_r. lia. }
  rewrite Hoff in Hrec. cbn [live_from] in Hl. destruct (invalid (r_flags r)).
  - apply Hrec; [done|cbn [length]; lia].
  - cbn [app] in Hl. injection Hl as <- Hl. destruct (read_record r (bytes rs) Hr) as (->&_&_). cbn [mbind option_bind feed].
    destruct (f s (r_key r) _) as [s'|]; [|done]. cbn [mbind option_bind]. apply Hrec; [done|lia].
Qed.

Lemma invalid_0 : invalid 0 = false.
Proof. done. Qed.

Lemma records_live_read d l p k v : records_live d l → (p, (k, v)) ∈ l →
  UnpackKey (GetKeyValData d p) = Some k ∧ record_value (K:=K) d p = Some v.
Proof.
  intros (rs&Hd&Hok&Hl&_) Hin. apply list_elem_of_split in Hin as (l1&l2&->).
  apply live_from_split in Hl as (rs1&r&rs2&->&<-&<-&_&_&->&_).
  assert (record_ok (r_key r) (r_val r)) as Hr by (apply Forall_app in Hok as [_ [[? _] _]%Forall_cons]; done).
  unfold record_value. rewrite (live_data d rs1 r rs2 Hd).
  destruct (read_record r (bytes rs2) Hr) as (->&->&_). done.
Qed.

Lemma records_live_snoc d rs d' k v : data_ d = bytes rs → records_ok rs → record_ok k v → file_ok d' →
  data_ d' = data_ d ++ KeyValPair_Pack k v →
  records_live d' (live_from 0 rs ++ [(write_offset_ d, (k, v))]).
Proof.
  intros Hd Hok Hkv Hf Hd'. exists (rs ++ [{| r_key := k; r_val := v; r_flags := 0 |}]). split_and!.
  - rewrite Hd', Hd, bytes_app, Pack_encode by done. change (bytes [?r]) with (encode r ++ []). by rewrite app_nil_r.
  - apply Forall_app. split; [done|]. apply Forall_singleton. cbn. auto.
  - rewrite live_from_app. cbn [live_from r_flags invalid r_key r_val]. unfold write_offset_. rewrite Hd. done.
  - done.
Qed.

Lemma Pack_length k v : record_ok k v → Z.of_nat (length (KeyValPair_Pack k v)) < 2 ^ 62.
Proof.
  intros Hkv. rewrite Pack_encode, encode_length by done. cbn [r_key r_val].
  pose proof (record_len_spec k v Hkv). destruct Hkv as (_&_&?). lia.
Qed.

Lemma records_Update d l1 l2 p k v v0 : records_live d (l1 ++ (p, (k, v0)) :: l2) → record_ok k v →
  ∃ res d', record_Update d p k v = Some (res, d') ∧
    match res with
    | inl st => st ≠ OkStatus ∧ records_live d' (l1 ++ (p, (k, v0)) :: l2)
    | inr p' => ∃ l', l' ≡ₚ (p', (k, v)) :: l1 ++ l2 ∧ records_live d' l'
    end.
Proof.
  intros (rs&Hd&Hok&Hl&Hf) Hkv. unfold record_Update.
  destruct (Add d (KeyValPair_Pack k v)) as [res d1] eqn:E.
  apply Add_ok in E as [Hf1 Hres]; [|done|by apply Pack_length]. destruct res as [st|off].
  { destruct Hres as [Hst Hd1]. eexists _, d1. split; [done|]. split; [done|]. exists rs. by rewrite Hd1. }
  destruct Hres as [-> Hd1].
  pose proof Hl as Hs. apply live_from_split in Hs as (rs1&r&rs2&->&Hrk&Hrv&Hri&Hl1&->&Hl2).
  apply Forall_app in Hok as [Hok1 [[Hr Hfl] Hok2]%Forall_cons].
  rewrite Hd, bytes_app in Hd1. change (bytes (r :: rs2)) with (encode r ++ bytes rs2) in Hd1.
  set (new := KeyValPair_Pack k v) in *.
  assert (GetKeyValData d1 (0 + Z.of_nat (length (bytes rs1))) = encode r ++ bytes rs2 ++ new) as ->.
  { unfold GetKeyValData. rewrite Hd1, Z.add_0_l, Nat2Z.id, <-!app_assoc, drop_app_length. done. }
  rewrite SetFlags_record by done. cbn [mbind option_bind]. eexists _, _. split; [done|]. cbn beta iota.
  assert (length (encode (with_flags r 1)) = length (encode r)) as Hlen.
  { apply Nat2Z.inj. rewrite !encode_length; done. }
  exists (l1 ++ l2 ++ [(write_offset_ d, (k, v))]). split.
  { rewrite app_assoc. symmetry. apply Permutation_cons_append. }
  exists ((rs1 ++ with_flags r 1 :: rs2) ++ [{| r_key := k; r_val := v; r_flags := 0 |}]). split_and!.
  - cbn [data_]. rewrite Hd1, Z.add_0_l, Nat2Z.id, <-(app_assoc (bytes rs1)), take_app_length.
    rewrite !bytes_app, <-(app_assoc (bytes rs1)). f_equal.
    change (bytes (with_flags r 1 :: rs2)) with (encode (with_flags r 1) ++ bytes rs2). rewrite <-app_assoc.
    do 2 f_equal. unfold new. rewrite Pack_encode by done. by rewrite <-(app_nil_r (encode _)).
  - apply Forall_app. split; [|apply Forall_singleton; cbn; auto]. apply Forall_app. split; [done|].
    constructor; [cbn; auto|done].
  - rewrite !live_from_app. rewrite Hl1, <-!app_assoc. f_equal. cbn [live_from with_flags r_flags invalid].
    change (Z.testbit 1 0) with true. cbn iota. rewrite Hlen, Hl2. f_equal.
    cbn. unfold write_offset_. rewrite Hd, !bytes_app, !length_app. do 2 f_equal.
    change (bytes (with_flags r 1 :: rs2)) with (encode (with_flags r 1) ++ bytes rs2).
    change (bytes (r :: rs2)) with (encode r ++ bytes rs2). rewrite !length_app, Hlen. done.
  - unfold file_ok, write_offset_ in *. cbn [data_ capacity_ reserved_space_bytes].
    rewrite Hd1 in Hf1 |- *. rewrite Z.add_0_l, Nat2Z.id, <-!app_assoc, take_app_length.
    rewrite !length_app in *. lia.
Qed.

Lemma live_from_shift a off rs : live_from (a + off) rs = (λ e, (a + e.1, e.2)) <$> live_from off rs.
Proof.
  revert off. induction rs as [|r rs IH]; intros off; cbn [live_from]; [done|].
  rewrite <-Z.add_assoc, IH. by destruct (invalid (r_flags r)).
Qed.

Lemma live_from_bound off rs e : records_ok rs → e ∈ live_from off rs → off <= e.1 < off + Z.of_nat (length (bytes rs)).
Proof.
  intros Hok. revert off. induction Hok as [|r rs [Hr _] _ IH]; intros off; cbn [live_from]; [by intros ?%not_elem_of_nil|].
  change (bytes (r :: rs)) with (encode r ++ bytes rs). rewrite length_app, Nat2Z.inj_add.
  pose proof (record_len_spec _ _ Hr). pose proof (encode_length r Hr).
  destruct (invalid (r_flags r)); [intros Hin%IH; lia|].
  intros [->|Hin%IH]%elem_of_cons; [cbn; lia|lia].
Qed.

#[export, program] Instance record_Buckets : Buckets K V Z MmapFile := {|
  live := records_live;
  storable := record_ok;
|}.
Next Obligation. intros d l p k v. apply records_live_read. Qed.
Next Obligation.
  intros d l k v res d' (rs&Hd&Hok&<-&Hf) Hkv E. cbn in E.
  apply Add_ok in E as [Hf' Hres]; [|done|by apply Pack_length]. destruct res as [st|p].
  - destruct Hres as [? Hd']. split; [done|]. exists rs. by rewrite Hd'.
  - destruct Hres as [-> Hd']. by apply (records_live_snoc d rs d').
Qed.
Next Obligation. intros d l1 l2 p k v v0. apply records_Update. Qed.
Next Obligation.
  intros d l1 l2 old (rs&Hd&Hok&Hl&Hf) _. exists l1. split; [done|]. intros S f s. cbn.
  apply (record_loop_ok d f rs [] _ _ _ _ l1 l2); try done; [lia|]. rewrite Hd. clear -Hok.
  induction Hok as [|r rs [Hr _] _ IH]; [done|]. change (bytes (r :: rs)) with (encode r ++ bytes rs).
  rewrite length_app. cbn [length]. pose proof (record_len_spec _ _ Hr). pose proof (encode_length r Hr). lia.
Qed.
Next Obligation.
  intros d1 d2 l1 l2 res d' (rs1&Hd1&Hok1&<-&Hf1) (rs2&Hd2&Hok2&<-&Hf2) E. cbn in E.
  assert (Z.of_nat (length (data_ d2)) < 2 ^ 62) as Hlen by (unfold file_ok, write_offset_ in Hf2; lia).
  destruct (Add d1 (data_ d2)) as [res' d1'] eqn:Ea. injection E as <- <-.
  apply Add_ok in Ea as [Hf' Hres]; [|done|done]. destruct res' as [st|p].
  - destruct Hres as [? Hd']. split; [done|]. exists rs1. by rewrite Hd'.
  - destruct Hres as [-> Hd']. exists (rs1 ++ rs2). split_and!.
    + by rewrite Hd', Hd1, Hd2, bytes_app.
    + by apply Forall_app.
    + rewrite live_from_app. f_equal. rewrite Z.add_comm, live_from_shift. apply list_fmap_ext. intros i e He. cbn.
      f_equal. unfold write_offset_ in *. rewrite Hd1. symmetry. apply u64_id. apply list_elem_of_lookup_2 in He.
      apply live_from_bound in He; [|done]. rewrite Hd2 in Hlen. unfold file_ok, write_offset_ in Hf1. rewrite Hd1 in Hf1.
      unfold is_u64. lia.
    + done.
Qed.
End records.
