(* ===== verification/RdictOpen.v ===== *)
(** * RdictOpen: a dictionary from its creation to its reopening *)

From S2P Require Import Prelude Float RdictHash RdictTable RdictData Rdict RdictSpec RdictTheorems.
From S2P Require Import RdictKinds.

Section dict.
Context {K V P D : Type} `{!EqDecision K, !Countable K, !HashFn K, !BucketOps K V P D, !Buckets K V P D}.
Context (Hhash : ∀ k : K, is_u64 (mixed_hash k)).
Implicit Types (t : ReadonlyDict P D) (l : list (P * (K * V))) (m : IndexMeta) (d : D) (M : gmap K V).

(** ** An empty array *)

Lemma cleared_ok t m : meta_ t = Some m → shape (max_load_factor_ t) m → im_size m = 0 →
  live (data_mmap_file_ t) [] → inv (set_buckets t (clear_buckets (num_buckets m))) m [].
Proof.
  intros Hm Hs Hsz Hl.
  destruct (clear_buckets_ok (num_buckets m) (im_shifts m) (hash_of (data_mmap_file_ t))
    (sh_buckets _ _ Hs) (sh_shifts _ _ Hs)) as [Hok Hnil].
  split; [split; try done|done|done|by apply NoDup_nil]. cbn [buckets_ set_buckets]. by rewrite Hnil.
Qed.

Lemma represents_empty t m : inv t m [] → represents t ∅.
Proof. intros Hinv. by exists m, []. Qed.

Lemma empty_buckets_new t : meta_ t = None → buckets_ t = [] → load_ok (max_load_factor_ t) →
  live (data_mmap_file_ t) [] → 0 <= bucket_count (opt_ t) <= max_entries (max_load_factor_ t) →
  ∃ t', empty_buckets t = Some (OkStatus, t') ∧ same_data t t' ∧ represents t' ∅.
Proof using Hhash.
  intros Hm Hb Hl Hlive Hcount. unfold empty_buckets. destruct (Z.eqb_spec 0 (bucket_count (opt_ t))); cbn [negb].
  - rewrite allocate_0, Hm. cbn [fmap option_fmap option_map default from_option id].
    destruct (allocate_ok t initial_shifts Hl ltac:(done)) as (bs&->). rewrite Hm.
    cbn [mbind option_bind dict_clear_buckets meta_ set_buckets set_meta fmap option_fmap option_map default from_option id].
    eexists. split; [done|]. split; [done|]. eapply represents_empty.
    by eapply (cleared_ok (set_meta t (meta_for (max_load_factor_ t) 0 initial_shifts))).
  - unfold reserve. rewrite Hm. pose proof (capacity_lt _ (2 ^ 22) Hl ltac:(lia)) as Hc22.
    fold (max_entries (max_load_factor_ t)) in Hc22.
    rewrite Z.min_l by (unfold max_size; rewrite Z.shiftl_1_l; lia). rewrite Z.max_l by lia.
    destruct (calc_shifts_ok (max_load_factor_ t) (bucket_count (opt_ t)) Hl ltac:(lia)) as (sh&->&Hsh&_).
    cbn [mbind option_bind orb Z.eqb]. unfold deallocate_buckets. rewrite Hm.
    destruct (allocate_ok t sh Hl ltac:(lia)) as (bs&->). rewrite Hm. cbn [mbind option_bind fmap option_fmap option_map default from_option id].
    edestruct (clear_and_fill_ok Hhash (set_buckets (set_meta t (meta_for (max_load_factor_ t) 0 sh)) bs))
      as (bs'&->&Hh).
    + done.
    + apply meta_for_shape; [done|lia].
    + instantiate (1 := []). instantiate (1 := []). exact Hlive.
    + rewrite Hb. done.
    + done.
    + cbn [im_size num_buckets meta_for]. apply Z.pow_nonneg. lia.
    + eexists. split; [done|]. split; [done|]. eapply represents_empty. split; [exact Hh|done|exact Hlive|by apply NoDup_nil].
Qed.

(** An index without entries that is opened again. *)
Lemma empty_buckets_again t m : inv t m [] → 0 <= bucket_count (opt_ t) <= max_entries (max_load_factor_ t) →
  ∃ t', empty_buckets t = Some (OkStatus, t') ∧ same_data t t' ∧ represents t' ∅.
Proof using Hhash.
  intros [Hh Hsz Hl _] Hcount. pose proof Hh as [Hm Hs _ _]. unfold empty_buckets.
  destruct (Z.eqb_spec 0 (bucket_count (opt_ t))); cbn [negb].
  - rewrite allocate_0, Hm. cbn [fmap option_fmap option_map default from_option id].
    destruct (allocate_ok t (im_shifts m) (sh_load _ _ Hs) (sh_shifts _ _ Hs)) as (bs&->). rewrite Hm.
    cbn [mbind option_bind dict_clear_buckets meta_ set_buckets set_meta fmap option_fmap option_map default from_option id].
    eexists. split; [done|]. split; [done|]. eapply represents_empty.
    eapply (cleared_ok (set_meta t (meta_for (max_load_factor_ t) (im_size m) (im_shifts m)))); [done| |done|done].
    apply meta_for_shape; [apply (sh_load _ _ Hs)|apply (sh_shifts _ _ Hs)].
  - cbn in Hsz. destruct (reserve_ok Hhash t m [] (bucket_count (opt_ t)) Hh Hl Hsz ltac:(lia)) as (t'&m'&->&Hsame&Hh'&Hsz'&_).
    exists t'. split; [done|split; [done|]]. apply (represents_empty t' m'). split; [done|by rewrite Hsz', Hsz| |by apply NoDup_nil].
    by rewrite (proj1 Hsame).
Qed.

(** ** Reading the index back *)

(** The same index and the same records in another object. *)
Lemma reopened_inv t t' m l : inv t m l → meta_ t' = meta_ t → buckets_ t' = buckets_ t →
  max_load_factor_ t' = max_load_factor_ t → live (data_mmap_file_ t') l → inv t' m l.
Proof.
  intros [Hh Hsz Hl Hnd] Hm Hb Hlf Hl'. split; [|done..].
  eapply holds_hash; [|split; [rewrite Hm|rewrite Hlf|rewrite Hb|rewrite Hb]; apply Hh].
  intros p [k v] Hin. by rewrite (live_hash _ l p k v Hl' Hin), (live_hash _ l p k v Hl Hin).
Qed.
End dict.

(** ** Dictionaries that keep the entries in the buckets *)

Section flat.
Context {K V : Type} `{!EqDecision K, !Countable K, !HashFn K, !Inhabited K, !Inhabited V}.
Context (Hhash : ∀ k : K, is_u64 (mixed_hash k)).
Implicit Types (t : ReadonlyDict (K * V) unit) (opt : Options).

Definition flat_entries : Z := max_entries k_default_max_load_factor.

Lemma default_load_ok : load_ok k_default_max_load_factor.
Proof. by vm_compute. Qed.

Lemma flat_New opt : 0 <= bucket_count opt <= flat_entries →
  ∃ t, New (K:=K) (V:=V) opt NoIndex None = Some (inr t) ∧ represents t ∅ ∧
       max_load_factor_ t = k_default_max_load_factor ∧ opt_ t = opt.
Proof using Hhash.
  intros Hb. unfold New, Init. cbn [is_flat no_data flat_BucketOps LoadIndex]. rewrite decide_True by done. cbn [meta_].
  edestruct (empty_buckets_new (V:=V) (P:=K * V) (D:=unit) Hhash {| opt_ := opt; data_mmap_file_ := (); meta_ := None; buckets_ := [];
    max_load_factor_ := k_default_max_load_factor |}) as (t&->&(_&Hlf&Ho)&Hr);
    [done|done|apply default_load_ok|by apply Forall_nil|done|].
  cbn [mbind option_bind]. rewrite decide_True by done. by exists t.
Qed.

(** Every update succeeds. *)
Lemma flat_Put_ok t k v st t' : Put t k v = Some (st, t') →
  ∀ M, represents t M → Z.of_nat (size M) <= max_entries (max_load_factor_ t) → st = OkStatus.
Proof using Hhash.
  intros HP M (m&l&Hinv&->) Hmax. pose proof (Size_represents t _ (ex_intro _ m (ex_intro _ l (conj Hinv eq_refl)))) as Hsize.
  pose proof (h_meta _ _ _ _ (i_holds _ _ _ Hinv)) as Hm. unfold Size in Hsize. rewrite Hm in Hsize. injection Hsize as Hsize.
  unfold Put in HP. rewrite Hm in HP. cbn [mbind option_bind] in HP.
  destruct (search t k) as [[idx|idx df]|]; [| |done]; cbn [mbind option_bind Update flat_BucketOps NewBucket] in HP.
  - destruct (bucket_at _ _); [|done]. cbn [mbind option_bind] in HP. by injection HP as <- <-.
  - cbn [mbind option_bind] in HP. destruct (is_full m) eqn:E.
    + assert (set_data t (data_mmap_file_ t) = t) as Hsd by by destruct t. rewrite Hsd in HP.
      destruct (increase_size_ok Hhash t m l []) as (t1&m1&He&_); try done.
      * apply (i_holds _ _ _ Hinv).
      * rewrite app_nil_r. apply (i_live _ _ _ Hinv).
      * apply (i_size _ _ _ Hinv).
      * lia.
      * rewrite He in HP. cbn [mbind option_bind] in HP. rewrite decide_True in HP by done.
        destruct (fill_entry t1 k (k, v)); [|done]. cbn [mbind option_bind] in HP. rewrite decide_True in HP by done.
        destruct (meta_ _); [|done]. by injection HP as <- <-.
    + destruct (place _ _ _ _ _); [|done]. cbn [mbind option_bind] in HP. rewrite decide_True in HP by done.
      destruct (meta_ _); [|done]. by injection HP as <- <-.
Qed.

Definition insert_puts (kvs : list (K * V)) (M : gmap K V) : gmap K V := foldl (λ M p, <[p.1 := p.2]> M) M kvs.

Lemma flat_put_all t M kvs : represents t M → Z.of_nat (size M + length kvs) <= max_entries (max_load_factor_ t) →
  ∃ sts t', put_all t kvs = Some (sts, t') ∧ Forall (eq OkStatus) sts ∧ represents t' (insert_puts kvs M) ∧
    max_load_factor_ t' = max_load_factor_ t.
Proof using Hhash.
  revert t M. induction kvs as [|[k v] kvs IH]; intros t M Hr Hmax; cbn [put_all].
  { exists [], t. split_and!; try done. }
  cbn [length] in Hmax.
  destruct (Put_represents Hhash t M k v Hr ltac:(done) ltac:(lia)) as (st&t1&HP&Hlf&Hr1).
  assert (st = OkStatus) as -> by (eapply flat_Put_ok; [done|exact Hr|lia]). rewrite decide_True in Hr1 by done.
  rewrite HP. cbn [mbind option_bind]. destruct (IH t1 _ Hr1) as (sts&t2&->&Hok&Hr2&Hlf2).
  - rewrite Hlf, map_size_insert. destruct (M !! k); cbn; lia.
  - cbn [mbind option_bind]. exists (OkStatus :: sts), t2. split_and!; [done|by constructor|exact Hr2|congruence].
Qed.

(** C6. A dictionary that is created, filled, committed and opened again: every
    update succeeds, whatever the hashes, the keys have the last value put for
    them, before and after, and the reopened dictionary has as many entries as
    there are keys. *)
Theorem flat_dict_history opt opt' kvs :
  0 <= bucket_count opt <= flat_entries → 0 <= bucket_count opt' <= flat_entries →
  Z.of_nat (length kvs) <= flat_entries →
  ∃ t0 sts t1 index t2 t3, New opt NoIndex None = Some (inr t0) ∧
    put_all t0 kvs = Some (sts, t1) ∧ Forall (eq OkStatus) sts ∧
    Commit true t1 = Some (OkStatus, index, t2) ∧ New opt' index None = Some (inr t3) ∧
    Size t3 = Some (Z.of_nat (size (insert_puts kvs ∅))) ∧
    ∀ k, Get t3 k = Some (match insert_puts kvs ∅ !! k with Some v => inr v | None => inl NotFoundError end) ∧
         Get t1 k = Get t3 k.
Proof using Hhash.
  intros Hb Hb' Hlen. destruct (flat_New opt Hb) as (t0&Hnew0&Hr0&Hlf0&_).
  destruct (flat_put_all t0 ∅ kvs Hr0) as (sts&t1&Hput&Hok&Hr1&Hlf1).
  { rewrite map_size_empty, Hlf0. done. }
  pose proof Hr1 as (m&l&Hinv&Hc). pose proof (h_meta _ _ _ _ (i_holds _ _ _ Hinv)) as Hm.
  assert (∃ t3, New (K:=K) (V:=V) opt' (Index m (buckets_ t1)) None = Some (inr t3) ∧ represents t3 (insert_puts kvs ∅))
    as (t3&Hnew&Hr3).
  { unfold New, Init. cbn [is_flat no_data flat_BucketOps LoadIndex]. rewrite decide_True by done.
    set (t := set_buckets _ _).
    assert (inv t m l) as Hinv' by (apply (reopened_inv t1); [done|by rewrite Hm|done|by rewrite Hlf1, Hlf0|apply (i_live _ _ _ Hinv)]).
    cbn [meta_ t set_buckets set_meta]. destruct (Z.ltb_spec 0 (im_size m)) as [Hpos|Hz].
    - cbn [mbind option_bind]. rewrite decide_True by done. exists t. split; [done|]. by exists m, l.
    - pose proof (i_size _ _ _ Hinv) as Hsz. destruct l; [|cbn in Hsz; lia].
      destruct (empty_buckets_again Hhash t m Hinv' Hb') as (t3&->&_&Hr3).
      cbn [mbind option_bind]. rewrite decide_True by done. exists t3. split; [done|]. by rewrite Hc. }
  eexists t0, sts, t1, _, _, t3. split; [done|]. split; [done|]. split; [done|].
  split; [unfold Commit; rewrite Hm; done|]. split; [exact Hnew|]. split; [by apply Size_represents|].
  intros k. rewrite (Get_represents Hhash t3 _ k Hr3), (Get_represents Hhash t1 _ k Hr1). done.
Qed.
End flat.

(** ** Dictionaries with records *)

Section records.
Context {K V : Type} `{!EqDecision K, !Countable K, !HashFn K, !SerializerOps K, !SerializerOps V,
                       !Serializer K, !Serializer V, !MmapOs}.
Context (Hhash : ∀ k : K, is_u64 (mixed_hash k)).
Context (Hos : ∀ n, extends n = true ∧ maps n = true ∧ truncates n = true).

(** The space a dictionary may use, in bytes. *)
Definition space_ok (opt : Options) : Prop := 0 <= opt_reserved_space_bytes opt <= 2 ^ 61.

Lemma MmapFile_Init_ok file opt : space_ok opt → (opt_readonly opt = true → is_Some file) →
  Z.of_nat (length (default [] file)) <= 2 ^ 61 →
  ∃ d, MmapFile_Init file (opt_reserved_space_bytes opt) (opt_readonly opt) = inr d ∧
       data_ d = default [] file ∧ file_ok d.
Proof using Hos.
  unfold space_ok. intros Hs Hro Hlen. unfold MmapFile_Init.
  replace (if opt_readonly opt then file else Some (default [] file)) with (Some (default [] file)).
  2:{ destruct (opt_readonly opt); [|done]. by destruct Hro as [x ->]. }
  set (contents := default [] file) in *. set (len := Z.of_nat (length contents)) in *.
  set (sz := if opt_readonly opt then len else _).
  assert (len <= sz <= 2 ^ 61 + 2 ^ 27) as Hsz.
  { subst sz. unfold kSegmentSize. destruct (opt_readonly opt); [lia|].
    destruct (Z.ltb_spec len (64 * 1024 * 1024)); [lia|].
    pose proof (Z.mod_pos_bound len (64 * 1024 * 1024)) as Hm.
    destruct (Z.ltb_spec 0 (len mod (64 * 1024 * 1024))); [|lia]. rewrite u64_id by (unfold is_u64; lia). lia. }
  rewrite (proj1 (Hos sz)). cbn [negb]. rewrite andb_false_r.
  rewrite (proj1 (proj2 (Hos _))). cbn [negb]. eexists. split; [done|]. split; [done|].
  unfold file_ok, write_offset_. cbn [data_ capacity_ reserved_space_bytes]. fold len.
  destruct (opt_readonly opt); [lia|]. destruct (Z.ltb_spec (opt_reserved_space_bytes opt) sz); lia.
Qed.

Lemma live_nil d (l : list (Z * (K * V))) : records_live d l → data_ d = [] → l = [].
Proof.
  intros (rs&Hb&Hok&<-&_) Hd. rewrite Hd in Hb. destruct rs as [|r rs]; [done|]. exfalso.
  apply Forall_cons in Hok as [[Hr _] _]. pose proof (record_len_spec _ _ Hr). pose proof (encode_length r Hr) as Hl.
  change (bytes (r :: rs)) with (encode r ++ bytes rs) in Hb. destruct (encode r); [cbn in Hl; lia|done].
Qed.

Lemma record_New opt index data : space_ok opt → load_ok (opt_max_load_factor opt) →
  0 <= bucket_count opt <= max_entries (opt_max_load_factor opt) → (opt_readonly opt = true → is_Some data) →
  default [] data = [] →
  ∃ t, New (K:=K) (V:=V) opt index data = Some (inr t) ∧ represents t ∅ ∧
       max_load_factor_ t = opt_max_load_factor opt ∧ reserved_space_bytes (data_mmap_file_ t) < 2 ^ 62.
Proof using Hhash Hos.
  intros Hs Hl Hb Hro Hnil. unfold New, Init. cbn [is_flat open_data record_BucketOps].
  destruct (MmapFile_Init_ok data opt Hs Hro) as (d&->&Hd&Hf); [rewrite Hnil; done|]. rewrite Hnil in Hd.
  cbn [has_data record_BucketOps]. unfold write_offset_ at 1. rewrite Hd.
  change (negb (negb (Z.of_nat (length (A:=Z) []) =? 0))) with true. cbn iota.
  destruct (empty_buckets_new (V:=V) (P:=Z) (D:=MmapFile) Hhash {| opt_ := opt; data_mmap_file_ := d; meta_ := None;
    buckets_ := []; max_load_factor_ := opt_max_load_factor opt |}) as (t&->&(Hdt&Hlf&_)&Hr); try done.
  { cbn. exists []. split_and!; try done. by apply Forall_nil. }
  cbn [mbind option_bind]. rewrite decide_True by done. exists t. split_and!; try done.
  rewrite Hdt. cbn. apply Hf.
Qed.

(** C23. A dictionary with records that is created, filled, committed and opened
    again: updates may be refused when the space is used up, and the keys have
    the last value that was accepted for them. *)
Theorem record_dict_history opt opt' kvs :
  space_ok opt → space_ok opt' → load_ok (opt_max_load_factor opt) →
  opt_max_load_factor opt' = opt_max_load_factor opt → opt_readonly opt = false →
  0 <= bucket_count opt <= max_entries (opt_max_load_factor opt) →
  0 <= bucket_count opt' <= max_entries (opt_max_load_factor opt) →
  Forall (λ p, record_ok p.1 p.2) kvs → Z.of_nat (length kvs) <= max_entries (opt_max_load_factor opt) →
  ∃ t0 sts t1 index t2, New opt NoIndex None = Some (inr t0) ∧ put_all t0 kvs = Some (sts, t1) ∧
    length sts = length kvs ∧ Commit true t1 = Some (OkStatus, index, t2) ∧
    (Z.of_nat (length (data_ (data_mmap_file_ t1))) <= 2 ^ 61 →
     ∃ t3, New opt' index (Some (data_ (data_mmap_file_ t2))) = Some (inr t3) ∧
       ∀ k, Get t3 k = Some (match apply_puts ∅ sts kvs !! k with Some v => inr v | None => inl NotFoundError end)).
Proof using Hhash Hos.
  intros Hs Hs' Hl Hlf' Hro Hb Hb' Hkvs Hlen.
  destruct (record_New opt NoIndex None Hs Hl Hb) as (t0&Hnew&Hr0&Hlf0&_); [by rewrite Hro|done|].
  destruct (put_all_represents Hhash t0 ∅ kvs Hr0 Hkvs) as (sts&t1&Hput&Hsts&Hlf1&Hr1).
  { rewrite map_size_empty, Hlf0. done. }
  pose proof Hr1 as (m&l&Hinv&Hc). pose proof (h_meta _ _ _ _ (i_holds _ _ _ Hinv)) as Hm.
  eexists t0, sts, t1, _, _. split; [done|]. split; [done|]. split; [done|].
  split; [unfold Commit; rewrite Hm; cbn [mbind option_bind negb is_flat shrink_data record_BucketOps];
          unfold ShrinkToFit; rewrite (proj2 (proj2 (Hos _))); done|].
  intros Hdata. cbn [data_mmap_file_ set_data data_].
  destruct (decide (data_ (data_mmap_file_ t1) = [])) as [Hnil|Hne].
  - destruct (record_New opt' (Index m (buckets_ t1)) (Some (data_ (data_mmap_file_ t1))) Hs') as (t3&Hnew3&Hr3&_);
      [by rewrite Hlf'|by rewrite Hlf'|done|done|]. exists t3. split; [done|].
    assert (l = []) as ->.
    { by apply (live_nil (data_mmap_file_ t1)); [apply (i_live _ _ _ Hinv)|]. }
    intros k. rewrite Hc. by apply Get_represents.
  - unfold New, Init. cbn [is_flat open_data record_BucketOps].
    destruct (MmapFile_Init_ok (Some (data_ (data_mmap_file_ t1))) opt' Hs') as (d&->&Hd&Hf); [done|exact Hdata|].
    cbn [has_data record_BucketOps]. cbn [default from_option id] in Hd. unfold write_offset_ at 1. rewrite Hd.
    rewrite (proj2 (Z.eqb_neq _ 0)) by (destruct (data_ (data_mmap_file_ t1)); [done|cbn; lia]). cbn [negb mbind option_bind LoadIndex].
    rewrite decide_True by done. eexists. split; [done|]. intros k. apply (Get_represents Hhash). exists m, l. split; [|done].
    apply (reopened_inv t1); [done|by rewrite Hm|done| |].
    + cbn [max_load_factor_ set_buckets set_meta]. congruence.
    + pose proof (i_live _ _ _ Hinv) as (rs&Hrs&Hok&Hlv&_). exists rs. cbn [data_mmap_file_ set_buckets set_meta].
      by rewrite Hd.
Qed.
End records.
