(* ===== verification/RdictWitness.v ===== *)
(** * RdictWitness: the theorems about dictionaries at concrete ones

    Dictionaries from 64-bit integers to 64-bit integers, which are kept in the
    buckets, and to strings, which are kept in records. *)

From S2P Require Import Prelude Float RdictHash RdictTable RdictData Rdict RdictSpec RdictTheorems.
From S2P Require Import RdictKinds RdictOpen.

Definition num (z : Z) : pod 8 := {| pod_value := z |}.
Definition opts : Options :=
  {| opt_reserved_space_bytes := 2 ^ 30; bucket_count := 0; opt_max_load_factor := k_default_max_load_factor;
     opt_readonly := false |}.
Definition opts_read : Options :=
  {| opt_reserved_space_bytes := 0; bucket_count := 0; opt_max_load_factor := k_default_max_load_factor;
     opt_readonly := true |}.

Lemma pod_hash_u64 n (k : pod n) : is_u64 (mixed_hash k).
Proof. apply hash_u64_range. Qed.
Lemma string_hash_u64 (k : string_view) : is_u64 (mixed_hash k).
Proof.
  cbn. unfold hash_bytes. match goal with |- context [?o ≫= _] => destruct o as [[[a b] s]|] end; [|done].
  apply mix_u64.
Qed.

(** ** Hashing *)

Lemma mum_portable_correct_witness :
  is_u64 secret0 ∧ is_u64 secret1 ∧ mum_portable secret0 secret1 = mum secret0 secret1.
Proof. split; [done|split; [done|]]. by apply mum_portable_correct. Defined.

Lemma hash_bytes_safe_witness :
  Forall is_u8 (str "a key of more than forty-eight bytes, so that both loops run") ∧
  ∃ h, hash_bytes (str "a key of more than forty-eight bytes, so that both loops run") = Some h ∧ is_u64 h.
Proof.
  assert (Forall is_u8 (str "a key of more than forty-eight bytes, so that both loops run")) as H
    by (unfold str; cbn; repeat constructor; by vm_compute).
  split; [exact H|]. by apply hash_bytes_safe.
Defined.

(** ** A dictionary of integers *)

Definition pairs (l : list (Z * Z)) : list (pod 8 * pod 8) := (λ p, (num p.1, num p.2)) <$> l.
Definition int_dict : Type := ReadonlyDict (pod 8 * pod 8) unit.
Definition empty_dict : int_dict :=
  {| opt_ := opts; data_mmap_file_ := (); meta_ := None; buckets_ := []; max_load_factor_ := k_default_max_load_factor |}.
Definition fresh : int_dict := match empty_buckets (K:=pod 8) (V:=pod 8) empty_dict with Some (_, t) => t | None => empty_dict end.
Definition filled (l : list (Z * Z)) : int_dict :=
  match put_all (K:=pod 8) (V:=pod 8) fresh (pairs l) with Some (_, t) => t | None => empty_dict end.

Lemma some_entries n : (n <= 100)%nat → 0 <= Z.of_nat n <= flat_entries.
Proof. assert (flat_entries = 3355443) as -> by (vm_compute; reflexivity). lia. Qed.

Lemma fresh_represents : represents (K:=pod 8) (V:=pod 8) fresh ∅ ∧ max_load_factor_ fresh = k_default_max_load_factor.
Proof.
  destruct (empty_buckets_new (V:=pod 8) (P:=pod 8 * pod 8) (D:=unit) (pod_hash_u64 8) empty_dict)
    as (t&He&(_&Hlf&_)&Hr).
  - reflexivity.
  - reflexivity.
  - apply default_load_ok.
  - apply Forall_nil_2.
  - apply (some_entries 0). lia.
  - unfold fresh. rewrite He. split; [exact Hr|exact Hlf].
Qed.

Lemma filled_represents l : Z.of_nat (length l) <= flat_entries →
  represents (filled l) (insert_puts (pairs l) ∅) ∧ max_load_factor_ (filled l) = k_default_max_load_factor.
Proof.
  intros Hl. destruct fresh_represents as [Hr Hlf].
  destruct (flat_put_all (pod_hash_u64 8) fresh ∅ (pairs l) Hr) as (sts&t&Hp&_&Hr'&Hlf').
  { rewrite map_size_empty, Hlf. unfold pairs. rewrite length_fmap. exact Hl. }
  unfold filled. rewrite Hp. split; [done|congruence].
Qed.

Definition left_pairs : list (Z * Z) := [(1, 10); (2, 20); (3, 30); (4, 40); (5, 50); (1, 11)].
Definition right_pairs : list (Z * Z) := [(6, 60); (7, 70)].

Lemma left_represents : represents (filled left_pairs) (insert_puts (pairs left_pairs) ∅).
Proof. apply filled_represents, (some_entries 6). lia. Qed.
Lemma right_represents : represents (filled right_pairs) (insert_puts (pairs right_pairs) ∅).
Proof. apply filled_represents, (some_entries 2). lia. Qed.
Lemma left_load : max_load_factor_ (filled left_pairs) = k_default_max_load_factor.
Proof. apply filled_represents, (some_entries 6). lia. Qed.

Lemma Get_represents_witness :
  represents (filled left_pairs) (insert_puts (pairs left_pairs) ∅) ∧
  Get (filled left_pairs) (num 1) = Some (inr (num 11)).
Proof.
  split; [exact left_represents|].
  rewrite (Get_represents (pod_hash_u64 8) _ _ (num 1) left_represents). by vm_compute.
Defined.

Lemma Put_represents_witness : ∃ st t',
  Put (filled left_pairs) (num 9) (num 90) = Some (st, t') ∧
  represents t' (if decide (st = OkStatus) then <[num 9 := num 90]> (insert_puts (pairs left_pairs) ∅)
                 else insert_puts (pairs left_pairs) ∅).
Proof.
  destruct (Put_represents (pod_hash_u64 8) _ _ (num 9) (num 90) left_represents) as (st&t'&Hp&_&Hr).
  - exact I.
  - rewrite left_load. by vm_compute.
  - exists st, t'. exact (conj Hp Hr).
Defined.

Lemma left_right_disjoint : (insert_puts (pairs left_pairs) ∅ : gmap (pod 8) (pod 8)) ##ₘ insert_puts (pairs right_pairs) ∅.
Proof. apply map_disjoint_dom. by apply (bool_decide_unpack _). Qed.

Lemma Merge_represents_witness : ∃ t', Merge (filled left_pairs) (filled right_pairs) = Some (OkStatus, t') ∧
  represents t' (insert_puts (pairs left_pairs) ∅ ∪ insert_puts (pairs right_pairs) ∅).
Proof.
  apply (Merge_represents (pod_hash_u64 8) _ _ _ _ 8 () left_represents right_represents left_right_disjoint).
  - by vm_compute.
  - rewrite left_load. by vm_compute.
  - rewrite left_load. by vm_compute.
  - done.
Defined.

Lemma Merge_counts_twice_witness : ∃ t', Merge (filled left_pairs) (filled left_pairs) = Some (OkStatus, t') ∧
  Size t' = Some 10.
Proof.
  destruct (Merge_counts_twice (pod_hash_u64 8) _ _ _ _ 12 () left_represents left_represents) as (t'&Hm&Hs&_).
  - by vm_compute.
  - rewrite left_load. by vm_compute.
  - rewrite left_load. by vm_compute.
  - done.
  - exists t'. split; [exact Hm|]. rewrite Hs. by vm_compute.
Defined.

Lemma flat_dict_history_witness : ∃ t0 sts t1 index t2 t3,
  New (K:=pod 8) (V:=pod 8) opts NoIndex None = Some (inr t0) ∧ put_all t0 (pairs left_pairs) = Some (sts, t1) ∧
  Commit true t1 = Some (OkStatus, index, t2) ∧ New opts_read index None = Some (inr t3) ∧
  Get t3 (num 1) = Some (inr (num 11)).
Proof.
  destruct (flat_dict_history (pod_hash_u64 8) opts opts_read (pairs left_pairs)) as (t0&sts&t1&index&t2&t3&H0&H1&_&H2&H3&_&Hg);
    [done|done|by vm_compute|].
  exists t0, sts, t1, index, t2, t3. refine (conj H0 (conj H1 (conj H2 (conj H3 _)))).
  rewrite (proj1 (Hg (num 1))). vm_compute. reflexivity.
Defined.

(** ** A dictionary of strings *)

#[local] Instance willing_os : MmapOs := {| extends := λ _, true; truncates := λ _, true; maps := λ _, true |}.

Lemma willing n : extends n = true ∧ maps n = true ∧ truncates n = true.
Proof. done. Qed.

Definition texts : list (pod 8 * string_view) := [(num 1, str "one"); (num 2, str "two"); (num 1, str "uno")].

Lemma texts_ok : Forall (λ p, record_ok p.1 p.2) texts.
Proof. unfold texts. repeat constructor; by vm_compute. Qed.

Lemma record_dict_history_witness : ∃ t0 sts t1 index t2,
  New (K:=pod 8) (V:=string_view) (P:=Z) (D:=MmapFile) opts NoIndex None = Some (inr t0) ∧ put_all t0 texts = Some (sts, t1) ∧
  length sts = 3%nat ∧ Commit true t1 = Some (OkStatus, index, t2).
Proof.
  destruct (record_dict_history (pod_hash_u64 8) willing opts opts_read texts)
    as (t0&sts&t1&index&t2&H0&H1&H2&H3&_).
  - unfold space_ok. cbn. lia.
  - unfold space_ok. cbn. lia.
  - apply default_load_ok.
  - reflexivity.
  - reflexivity.
  - apply (some_entries 0). lia.
  - apply (some_entries 0). lia.
  - exact texts_ok.
  - apply (some_entries 3). lia.
  - exists t0, sts, t1, index, t2. exact (conj H0 (conj H1 (conj H2 H3))).
Defined.

(** ** What the code does with keys that are in both dictionaries *)

Definition merged (l l' : list (Z * Z)) : int_dict :=
  match Merge (K:=pod 8) (V:=pod 8) (filled l) (filled l') with Some (_, t) => t | None => empty_dict end.
Definition then_put (t : int_dict) (l : list (Z * Z)) : int_dict :=
  match put_all (K:=pod 8) (V:=pod 8) t (pairs l) with Some (_, t) => t | None => empty_dict end.

(** After a merge a key of both dictionaries has the value of the other one;
    two more updates make the array grow, which turns the order of equal keys
    around, and the key has its old value again. *)
Theorem Merge_then_growth_reverts :
  Get (merged [(1, 10); (2, 20)] [(1, 11)]) (num 1) = Some (inr (num 11)) ∧
  Get (then_put (merged [(1, 10); (2, 20)] [(1, 11)]) [(100, 0); (101, 0)]) (num 1) = Some (inr (num 10)).
Proof. split; vm_compute; reflexivity. Qed.

(** With a maximum load of one the array is filled before it grows, and the next
    update does not find a free bucket. *)
Example load_one_never_returns :
  let lf1 := {| opt_ := opts; data_mmap_file_ := (); meta_ := None; buckets_ := []; max_load_factor_ := 0x3F800000 |} in
  ('(_, t) ← empty_buckets (K:=pod 8) (V:=pod 8) lf1; '(_, t) ← put_all t (pairs [(1, 1); (2, 2); (3, 3); (4, 4)]);
   Some (Size t, Put t (num 5) (num 5))) = Some (Some 4, None).
Proof. vm_compute. reflexivity. Qed.

(** Merging into a dictionary that was committed is refused by the data file
    only after the entries were placed: the size counts them, and looking one up
    reads behind the data. *)
Example merge_after_commit :
  ('(_, a) ← Init (K:=pod 8) (V:=string_view) (P:=Z) (D:=MmapFile) opts NoIndex None; '(_, a) ← put_all a [(num 1, str "one")];
   '(_, _, a) ← Commit (K:=pod 8) (V:=string_view) true a;
   '(_, b) ← Init (K:=pod 8) (V:=string_view) (P:=Z) (D:=MmapFile) opts NoIndex None; '(_, b) ← put_all b [(num 2, str "two")];
   '(st, t) ← Merge (K:=pod 8) (V:=string_view) a b; Some (st, Size t, Get (V:=string_view) t (num 2))) =
  Some (PermissionDeniedError, Some 2, None).
Proof. vm_compute. reflexivity. Qed.

(** An update of a dictionary that keeps its entries in the buckets is not
    refused when it was opened for reading only. *)
Example put_readonly :
  ('(_, t) ← Init (K:=pod 8) (V:=pod 8) opts_read NoIndex None; '(st, t) ← Put t (num 1) (num 2);
   Some (st, Get t (num 1))) = Some (OkStatus, Some (inr (num 2))).
Proof. vm_compute. reflexivity. Qed.
