(* ===== verification/Ssexpr.v ===== *)
(** * Ssexpr: expressions over structs (src/ssexpr)

    An expression is parsed by a Boost.Spirit grammar, which is a parameter, into
    a tree; the names in the tree are resolved once ([Initializer]) and the tree is
    evaluated as often as wanted ([Interpreter]).  Members of structs are reached
    through tables of accessors (expr_struct.h), which the macros of the header
    fill: an accessor is a function of the address of an object, and the tables
    and the functions of the application are arguments.  Addresses are numbers, 0
    is null.  [None] as a value says that the behaviour is undefined: an integer
    operation overflows or divides by zero. *)

From Corelib Require Import SpecFloat.
From S2P Require Import Prelude Float.

(** ** Values *)

Definition ERR_INVALID_OPERATOR : Z := 10001.
Definition ERR_INVALID_OPERAND_TYPE : Z := 10002.
Definition ERR_INVALID_FUNCTION : Z := 10003.
Definition ERR_INVALID_STRUCT_MEMBER : Z := 10004.
Definition ERR_EMPTY_STRUCT_VISITOR : Z := 10005.
Definition ERR_NIL_INTERPRETER : Z := 10006.
Definition ERR_EMPTY_DYNAMIC_VAR_VISITOR : Z := 10007.

Inductive Value :=
  | VError (code : Z)
  | VBool (b : bool)
  | VInt (z : Z)
  | VDouble (d : double)
  | VString (s : string)
  | VPtr (p : Z).

(** The value of a variable that is declared without one. *)
Definition empty_value : Value := VError (-1).

(** A float is given as the double it is converted to. *)
Inductive FieldValue :=
  | FBool (b : bool)
  | FChar (z : Z)
  | FU8 (z : Z)
  | FI16 (z : Z)
  | FU16 (z : Z)
  | FI32 (z : Z)
  | FU32 (z : Z)
  | FI64 (z : Z)
  | FU64 (z : Z)
  | FFloat (d : double)
  | FDouble (d : double)
  | FString (s : string)
  | FPtr (p : Z).

(** ** Access to members (expr_struct.h) *)

Definition FieldAccessor : Type := Z → FieldValue.

Inductive FieldAccessorTable := Table (fields : list (string * FieldEntry))
with FieldEntry := Leaf (a : FieldAccessor) | Sub (a : FieldAccessor) (t : FieldAccessorTable).

Fixpoint find_field {A} (l : list (string * A)) (name : string) : option A :=
  match l with
  | [] => None
  | (n, a) :: l => if bool_decide (n = name) then Some a else find_field l name
  end.
Definition table_find (t : FieldAccessorTable) (name : string) : option FieldEntry :=
  match t with Table fields => find_field fields name end.

(** The code and the accessors, which keep what was found before a failure. *)
Fixpoint GetFieldAccessors (names : list string) (t : FieldAccessorTable) : Z * list FieldAccessor :=
  match names with
  | [] => (0, [])
  | n :: rest =>
      match rest with
      | [] => match table_find t n with Some (Leaf a) => (0, [a]) | _ => (-1, []) end
      | _ :: _ =>
          match table_find t n with
          | Some (Sub a t) => let '(rc, l) := GetFieldAccessors rest t in (rc, a :: l)
          | _ => (-1, [])
          end
      end
  end.

(** The empty [FieldValue] is the first alternative, [false]. *)
Definition empty_field : FieldValue := FBool false.
Fixpoint GetFieldValue (obj : Z) (accessors : list FieldAccessor) : FieldValue :=
  match accessors with
  | [] => empty_field
  | a :: rest =>
      match rest with
      | [] => a obj
      | _ :: _ =>
          match a obj with
          | FPtr data => if data =? 0 then empty_field else GetFieldValue data rest
          | _ => empty_field
          end
      end
  end.

(** ** The options and the context *)

Definition ExprFunction : Type := list Value → Value.

(** An empty [std::function] is [None]. *)
Record ExprOptions := mkExprOptions {
  functions : gmap string ExprFunction;
  get_member_access : option (list string → list FieldAccessor);
  dynamic_var_access : option (Z → list string → Value)
}.

(** [ExprOptions::Init] for a type with the table [t]: the code of
    [GetFieldAccessors] is not used. *)
Definition ExprOptions_Init (o : ExprOptions) (t : FieldAccessorTable) : ExprOptions :=
  mkExprOptions (functions o) (Some (λ names, (GetFieldAccessors names t).2)) (dynamic_var_access o).

Record EvalContext := mkContext {
  struct_vistitor : option (list FieldAccessor → Value);
  ctx_dynamic_var_access : option (Z → list string → Value);
  dynamic_root : Z
}.

(** ** The tree *)

Inductive Optoken :=
  | op_plus | op_minus | op_times | op_divide | op_positive | op_negative | op_not | op_equal | op_not_equal
  | op_less | op_less_equal | op_greater | op_greater_equal | op_and | op_or.

Inductive Operand :=
  | Nil
  | OInt (n : Z)
  | ODouble (d : double)
  | OBool (b : bool)
  | OString (s : string)
  | OVariable (v : list string) (accessor_ : list FieldAccessor)
  | ODynamicVariable (v : list string)
  | OFuncCall (func : string) (args : list Operand) (functor_ : option ExprFunction)
  | OUnary (op : Optoken) (x : Operand)
  | OCondExpr (lhs rhs_true rhs_false : Operand)
  | OExpression (first : Operand) (rest : list (Optoken * Operand)).

(** What the grammar makes of a primary expression without an operator around it:
    every level, from multiplication up to the logical operators, adds an
    [Expression] that has only the operand. *)
Definition no_operator (x : Operand) : Operand :=
  OExpression (OExpression (OExpression (OExpression (OExpression x []) []) []) []) [].

(** ** Operators *)

(** The result of an operation on [int64_t]. *)
Definition int64 (z : Z) : option Z := if bool_decide (is_i64 z) then Some z else None.

Definition int_calc (op : Optoken) (a b : Z) : option Z :=
  match op with
  | op_plus => int64 (a + b)
  | op_minus => int64 (a - b)
  | op_times => int64 (a * b)
  | _ => if b =? 0 then None else int64 (Z.quot a b)
  end.
Definition double_calc (op : Optoken) (a b : double) : double :=
  match op with
  | op_plus => SFadd 53 1024 a b
  | op_minus => SFsub 53 1024 a b
  | op_times => SFmul 53 1024 a b
  | _ => SFdiv 53 1024 a b
  end.

Definition calc_numbers (op : Optoken) (left right : Value) : option Value :=
  match left, right with
  | VInt a, VInt b => z ← int_calc op a b; Some (VInt z)
  | VInt a, VDouble b => Some (VDouble (double_calc op (int_to_double a) b))
  | VDouble a, VInt b => Some (VDouble (double_calc op a (int_to_double b)))
  | VDouble a, VDouble b => Some (VDouble (double_calc op a b))
  | _, _ => Some empty_value
  end.

Definition calc_equal (left right : Value) : option bool :=
  match left, right with
  | VInt a, VInt b => Some (a =? b)
  | VInt a, VDouble b => Some (SFeqb (int_to_double a) b)
  | VDouble a, VInt b => Some (SFeqb a (int_to_double b))
  | VDouble a, VDouble b => Some (SFeqb a b)
  | VString a, VString b => Some (bool_decide (a = b))
  | VBool a, VBool b => Some (Bool.eqb a b)
  | _, _ => None
  end.

(** [left < right] and [left <= right]; the others are these turned around, also
    for NaN. *)
Definition calc_less (left right : Value) : option bool :=
  match left, right with
  | VInt a, VInt b => Some (a <? b)
  | VInt a, VDouble b => Some (SFltb (int_to_double a) b)
  | VDouble a, VInt b => Some (SFltb a (int_to_double b))
  | VDouble a, VDouble b => Some (SFltb a b)
  | VString a, VString b => Some (String.ltb a b)
  | _, _ => None
  end.
Definition calc_less_equal (left right : Value) : option bool :=
  match left, right with
  | VInt a, VInt b => Some (a <=? b)
  | VInt a, VDouble b => Some (SFleb (int_to_double a) b)
  | VDouble a, VInt b => Some (SFleb a (int_to_double b))
  | VDouble a, VDouble b => Some (SFleb a b)
  | VString a, VString b => Some (String.leb a b)
  | _, _ => None
  end.

(** Operands of other types leave the result as it was declared. *)
Definition to_value (b : option bool) : Value := match b with Some b => VBool b | None => empty_value end.

(** The tests for an operand that is an error compare [decltype(left)], a
    reference, with [Error] and are never true. *)
Definition CalcVisitor (op : Optoken) (left right : Value) : option Value :=
  match op with
  | op_plus | op_minus | op_times | op_divide => calc_numbers op left right
  | op_equal => Some (to_value (calc_equal left right))
  | op_not_equal => Some (to_value (negb <$> calc_equal left right))
  | op_less => Some (to_value (calc_less left right))
  | op_less_equal => Some (to_value (calc_less_equal left right))
  | op_greater => Some (to_value (calc_less right left))
  | op_greater_equal => Some (to_value (calc_less_equal right left))
  | op_and => Some (match left, right with VBool a, VBool b => VBool (a && b) | _, _ => empty_value end)
  | op_or => Some (match left, right with VBool a, VBool b => VBool (a || b) | _, _ => empty_value end)
  | _ => Some (VError ERR_INVALID_OPERATOR)
  end.

Definition calc_unary (op : Optoken) (v : Value) : option Value :=
  match op with
  | op_not => Some (match v with VBool b => VBool (negb b) | _ => VError ERR_INVALID_OPERAND_TYPE end)
  | op_positive => Some (match v with VInt _ | VDouble _ => v | _ => VError ERR_INVALID_OPERAND_TYPE end)
  | op_negative =>
      match v with
      | VInt z => z ← int64 (0 - z); Some (VInt z)
      | VDouble d => Some (VDouble (SFsub 53 1024 (S754_zero false) d))
      | _ => Some (VError ERR_INVALID_OPERAND_TYPE)
      end
  | _ => Some (VError ERR_INVALID_OPERATOR)
  end.

(** ** Resolving names *)

Section init.
Context (opt : ExprOptions).

Definition init_variable (v : list string) (accessor_ : list FieldAccessor) : Z * Operand :=
  match get_member_access opt with
  | None => (ERR_INVALID_STRUCT_MEMBER, OVariable v accessor_)
  | Some get =>
      let accessor_ := get v in
      (match accessor_ with [] => ERR_INVALID_STRUCT_MEMBER | _ => 0 end, OVariable v accessor_)
  end.

(** The code and the tree with what was resolved until a failure; the codes of the
    arguments of a function are not used. *)
Fixpoint Initializer (n : Operand) : Z * Operand :=
  match n with
  | Nil | OInt _ | ODouble _ | OBool _ | OString _ => (0, n)
  | OCondExpr lhs rhs_true rhs_false =>
      let '(rc, lhs) := Initializer lhs in
      if negb (rc =? 0) then (rc, OCondExpr lhs rhs_true rhs_false)
      else
        let '(rc, rhs_true) := Initializer rhs_true in
        if negb (rc =? 0) then (rc, OCondExpr lhs rhs_true rhs_false)
        else let '(rc, rhs_false) := Initializer rhs_false in (rc, OCondExpr lhs rhs_true rhs_false)
  | OVariable v accessor_ => init_variable v accessor_
  | ODynamicVariable _ =>
      (match dynamic_var_access opt with None => ERR_EMPTY_DYNAMIC_VAR_VISITOR | Some _ => 0 end, n)
  | OFuncCall func args functor_ =>
      match functions opt !! func with
      | None => (ERR_INVALID_FUNCTION, n)
      | Some f => (0, OFuncCall func (map (λ x, (Initializer x).2) args) (Some f))
      end
  | OUnary op x => let '(rc, x) := Initializer x in (rc, OUnary op x)
  | OExpression first rest =>
      let '(rc, first) := Initializer first in
      if negb (rc =? 0) then (rc, OExpression first rest)
      else
        let '(rc, rest) :=
          (fix go (rest : list (Optoken * Operand)) : Z * list (Optoken * Operand) :=
             match rest with
             | [] => (0, [])
             | (op, x) :: rest =>
                 let '(rc, x) := Initializer x in
                 if negb (rc =? 0) then (rc, (op, x) :: rest)
                 else let '(rc, rest) := go rest in (rc, (op, x) :: rest)
             end) rest in
        (rc, OExpression first rest)
  end.
End init.

(** ** Evaluating *)

Section eval.
Context (ctx : EvalContext).

(** Whether the left operand decides; the right one is not evaluated then. *)
Definition short_circuit (op : Optoken) (lhs : Value) : option Value :=
  match op, lhs with
  | op_and, VBool false => Some (VBool false)
  | op_or, VBool true => Some (VBool true)
  | _, _ => None
  end.

Fixpoint Interpreter (n : Operand) : option Value :=
  match n with
  | Nil => Some empty_value
  | OInt n => Some (VInt n)
  | ODouble d => Some (VDouble d)
  | OBool b => Some (VBool b)
  | OString s => Some (VString s)
  | OCondExpr lhs rhs_true rhs_false =>
      test ← Interpreter lhs;
      match test with
      | VBool true => Interpreter rhs_true
      | VBool false => Interpreter rhs_false
      | _ => Some test
      end
  | OVariable _ accessor_ =>
      match struct_vistitor ctx with
      | None => Some (VError ERR_EMPTY_STRUCT_VISITOR)
      | Some visit => Some (visit accessor_)
      end
  | ODynamicVariable v =>
      match ctx_dynamic_var_access ctx with
      | None => Some (VError ERR_EMPTY_STRUCT_VISITOR)
      | Some access => Some (access (dynamic_root ctx) v)
      end
  | OFuncCall _ args functor_ =>
      match functor_ with
      | None => Some (VError ERR_INVALID_FUNCTION)
      | Some f =>
          arg_vals ← (fix go (args : list Operand) : option (list Value) :=
             match args with
             | [] => Some []
             | x :: args => v ← Interpreter x; vs ← go args; Some (v :: vs)
             end) args;
          Some (f arg_vals)
      end
  | OUnary op x => v ← Interpreter x; calc_unary op v
  | OExpression first rest =>
      state ← Interpreter first;
      (fix go (state : Value) (rest : list (Optoken * Operand)) {struct rest} : option Value :=
         match rest with
         | [] => Some state
         | (op, x) :: rest =>
             match short_circuit op state with
             | Some v => go v rest
             | None => rhs ← Interpreter x; state ← CalcVisitor op state rhs; go state rest
             end
         end) state rest
  end.
End eval.

(** ** The class SpiritExpression *)

Record SpiritExpression := mkSpirit { options_ : ExprOptions; expr_ : option Operand }.

(** What is left of the text behind the expression is not looked at; after a
    failure the expression from before is kept. *)
Definition SpiritExpression_Init (parse : string → option Operand) (e : SpiritExpression) (expr : string) (options : ExprOptions)
    : Z * SpiritExpression :=
  match parse expr with
  | None => (-1, mkSpirit options (expr_ e))
  | Some first =>
      let '(rc, ast) := Initializer options (OExpression first []) in
      if negb (rc =? 0) then (rc, mkSpirit options (expr_ e)) else (0, mkSpirit options (Some ast))
  end.

Definition DoEval (e : SpiritExpression) (ctx : EvalContext) : option Value :=
  match expr_ e with
  | None => Some (VError ERR_NIL_INTERPRETER)
  | Some ast => Interpreter ctx ast
  end.

Definition Eval_plain (e : SpiritExpression) : option Value :=
  DoEval e (mkContext None (dynamic_var_access (options_ e)) 0).
Definition EvalDynamic (e : SpiritExpression) (root_dynamic_obj : Z) : option Value :=
  DoEval e (mkContext None (dynamic_var_access (options_ e)) root_dynamic_obj).

Definition field_to_value (f : FieldValue) : Value :=
  match f with
  | FBool b => VBool b
  | FChar z | FU8 z | FI16 z | FU16 z | FI32 z | FU32 z | FI64 z => VInt z
  | FU64 z => VInt (i64 z)
  | FFloat d | FDouble d => VDouble d
  | FString s => VString s
  | FPtr p => VPtr p
  end.
Definition Eval_root (e : SpiritExpression) (root_obj : Z) : option Value :=
  DoEval e (mkContext (Some (λ accessors, field_to_value (GetFieldValue root_obj accessors)))
                      (dynamic_var_access (options_ e)) 0).
