(* ===== verification/SsexprSpec.v ===== *)
(** * SsexprSpec: what an expression evaluates to

    Types for expressions; a typed expression is accepted and evaluates to a value
    of its type; and the mistakes in an expression that are not reported. *)

From Corelib Require Import SpecFloat.
From S2P Require Import Prelude Float Ssexpr.

(** ** Induction over the tree *)

Section ind.
Context (P : Operand → Prop) (Hnil : P Nil) (Hint : ∀ n, P (OInt n)) (Hdouble : ∀ d, P (ODouble d)) (Hbool : ∀ b, P (OBool b))
  (Hstring : ∀ s, P (OString s)) (Hvar : ∀ v a, P (OVariable v a)) (Hdyn : ∀ v, P (ODynamicVariable v))
  (Hcall : ∀ f args fn, Forall P args → P (OFuncCall f args fn)) (Hun : ∀ op x, P x → P (OUnary op x))
  (Hcond : ∀ a b c, P a → P b → P c → P (OCondExpr a b c))
  (Hexpr : ∀ x rest, P x → Forall (λ r, P r.2) rest → P (OExpression x rest)).

Fixpoint Operand_induction (n : Operand) : P n :=
  match n with
  | Nil => Hnil
  | OInt n => Hint n
  | ODouble d => Hdouble d
  | OBool b => Hbool b
  | OString s => Hstring s
  | OVariable v a => Hvar v a
  | ODynamicVariable v => Hdyn v
  | OFuncCall f args fn =>
      Hcall f args fn ((fix go l : Forall P l := match l with [] => Forall_nil_2 P | x :: l => Forall_cons_2 P x l (Operand_induction x) (go l) end) args)
  | OUnary op x => Hun op x (Operand_induction x)
  | OCondExpr a b c => Hcond a b c (Operand_induction a) (Operand_induction b) (Operand_induction c)
  | OExpression x rest =>
      Hexpr x rest (Operand_induction x)
        ((fix go l : Forall (λ r, P r.2) l :=
            match l with [] => Forall_nil_2 _ | r :: l => Forall_cons_2 _ r l (Operand_induction r.2) (go l) end) rest)
  end.
End ind.

(** ** Types *)

Inductive ty := TBool | TInt | TDouble | TString | TPtr.
#[global] Instance ty_eq : EqDecision ty.
Proof. solve_decision. Defined.

Definition has_type (v : Value) (t : ty) : Prop :=
  match v, t with
  | VBool _, TBool | VDouble _, TDouble | VString _, TString | VPtr _, TPtr => True
  | VInt z, TInt => is_i64 z
  | _, _ => False
  end.

Definition is_number (t : ty) : bool := match t with TInt | TDouble => true | _ => false end.

(** [strict]: no arithmetic on integers. *)
Definition binary_type (strict : bool) (op : Optoken) (a b : ty) : option ty :=
  match op with
  | op_plus | op_minus | op_times | op_divide =>
      match a, b with
      | TInt, TInt => if strict then None else Some TInt
      | _, _ => if is_number a && is_number b then Some TDouble else None
      end
  | op_equal | op_not_equal =>
      if is_number a && is_number b || bool_decide (a = TString ∧ b = TString) || bool_decide (a = TBool ∧ b = TBool)
      then Some TBool else None
  | op_less | op_less_equal | op_greater | op_greater_equal =>
      if is_number a && is_number b || bool_decide (a = TString ∧ b = TString) then Some TBool else None
  | op_and | op_or => if bool_decide (a = TBool ∧ b = TBool) then Some TBool else None
  | _ => None
  end.

Definition unary_type (strict : bool) (op : Optoken) (a : ty) : option ty :=
  match op with
  | op_not => if bool_decide (a = TBool) then Some TBool else None
  | op_positive => if is_number a then Some a else None
  | op_negative => match a with TInt => if strict then None else Some TInt | TDouble => Some TDouble | _ => None end
  | _ => None
  end.

(** The types of members, of dynamic variables and of functions. *)
Record Env := mkEnv {
  member_type : list string → option ty;
  dynamic_type : list string → option ty;
  function_type : string → option (list ty * ty)
}.

Section typing.
Context (E : Env) (strict : bool).

Fixpoint type_of (n : Operand) : option ty :=
  match n with
  | Nil => None
  | OInt z => if bool_decide (is_i64 z) then Some TInt else None
  | ODouble _ => Some TDouble
  | OBool _ => Some TBool
  | OString _ => Some TString
  | OVariable v _ => member_type E v
  | ODynamicVariable v => dynamic_type E v
  | OFuncCall f args _ =>
      '(ts, t) ← function_type E f;
      ts' ← (fix go (args : list Operand) : option (list ty) :=
               match args with [] => Some [] | x :: args => t ← type_of x; ts ← go args; Some (t :: ts) end) args;
      if bool_decide (ts' = ts) then Some t else None
  | OUnary op x => t ← type_of x; unary_type strict op t
  | OCondExpr c a b =>
      tc ← type_of c; ta ← type_of a; tb ← type_of b;
      if bool_decide (tc = TBool ∧ ta = tb) then Some ta else None
  | OExpression x rest =>
      t ← type_of x;
      (fix go (t : ty) (rest : list (Optoken * Operand)) {struct rest} : option ty :=
         match rest with
         | [] => Some t
         | (op, x) :: rest => t' ← type_of x; t ← binary_type strict op t t'; go t rest
         end) t rest
  end.
End typing.

(** The options have what the types promise, for the object at [root]. *)
Record env_ok (E : Env) (o : ExprOptions) (root : Z) : Prop := {
  eo_member v t : member_type E v = Some t →
    ∃ get, get_member_access o = Some get ∧ get v ≠ [] ∧ has_type (field_to_value (GetFieldValue root (get v))) t;
  eo_dynamic v t : dynamic_type E v = Some t → ∃ d, dynamic_var_access o = Some d ∧ has_type (d 0 v) t;
  eo_function f ts t : function_type E f = Some (ts, t) →
    ∃ fn : ExprFunction, functions o !! f = Some fn ∧ ∀ args, Forall2 has_type args ts → has_type (fn args) t
}.

(** ** Operators *)

(** The result of an operation: of the type, or undefined if arithmetic on
    integers is allowed. *)
Definition gives (strict : bool) (r : option Value) (t : ty) : Prop :=
  match r with Some v => has_type v t | None => strict = false end.

Lemma int64_gives z (f : Z → Value) t : (is_i64 z → has_type (f z) t) → gives false (z ← int64 z; Some (f z)) t.
Proof. intros Hf. unfold int64. case_bool_decide; cbn; auto. Qed.

Lemma CalcVisitor_gives strict op a b v w t :
  binary_type strict op a b = Some t → has_type v a → has_type w b → gives strict (CalcVisitor op v w) t.
Proof.
  intros Ht Hv Hw. destruct op, a, b, v, w; cbn in Hv, Hw; try done; cbn in Ht; try done;
    try (destruct strict; [done|]); injection Ht as <-; cbn; try done;
    unfold int_calc; try (by apply (int64_gives _ VInt)); case_match; [done|by apply (int64_gives _ VInt)].
Qed.

Lemma calc_unary_gives strict op a v t : unary_type strict op a = Some t → has_type v a → gives strict (calc_unary op v) t.
Proof.
  intros Ht Hv. destruct op, a, v; cbn in Hv; try done; cbn in Ht; try done; try (destruct strict; [done|]);
    injection Ht as <-; cbn [calc_unary]; try done. by apply (int64_gives _ VInt).
Qed.

Lemma short_circuit_gives strict op v a b t w :
  short_circuit op v = Some w → binary_type strict op a b = Some t → has_type v a → has_type w t.
Proof.
  destruct op; try done; destruct v as [|[]| | | |]; try done; intros [= <-]; cbn; (case_bool_decide as Hb; [|done]); by intros [= <-].
Qed.

(** ** A typed expression *)

Section sound.
Context (E : Env) (strict : bool) (o : ExprOptions) (root : Z) (Hok : env_ok E o root).

Definition root_context : EvalContext :=
  mkContext (Some (λ accessors, field_to_value (GetFieldValue root accessors))) (dynamic_var_access o) 0.

(** What the resolved tree evaluates to. *)
Definition runs (n : Operand) : Prop :=
  ∀ t, type_of E strict n = Some t →
  (Initializer o n).1 = 0 ∧ gives strict (Interpreter root_context (Initializer o n).2) t.

Lemma runs_args f args fn : Forall runs args → runs (OFuncCall f args fn).
Proof.
  intros Hr t. cbn [type_of]. destruct (function_type E f) as [[ts t']|] eqn:Ef; [|done]. cbn [mbind option_bind].
  destruct (eo_function _ _ _ Hok _ _ _ Ef) as (g & Hg & Hgt). cbn [Initializer].
  rewrite Hg. cbn [fst snd Interpreter].
  match goal with |- context [(?F args ≫= _)] => set (types := F) end. destruct (types args) as [ts'|] eqn:Et; [|done].
  cbn [mbind option_bind]. case_bool_decide as Hts; [|done]. subst ts'. intros [= <-]. split; [done|].
  match goal with |- context [(?F (map _ args) ≫= _)] => set (vals := F) end.
  assert (match vals (map (λ x, (Initializer o x).2) args) with Some vs => Forall2 has_type vs ts | None => strict = false end) as Hv.
  { clear Hgt Ef. revert ts Et. induction Hr as [|x args Hx Hr IH]; intros ts; cbn [types vals map].
    { intros [= <-]. constructor. }
    destruct (type_of E strict x) as [tx|] eqn:Ex; [|done]. cbn [mbind option_bind]. fold types.
    destruct (types args) as [ts'|]; [|done]. intros [= <-]. destruct (Hx _ Ex) as [_ Hgive]. specialize (IH _ eq_refl).
    destruct (Interpreter root_context _) as [v|]; [|done]. cbn [mbind option_bind]. fold vals.
    destruct (vals _) as [vs|]; [|done]. by constructor. }
  destruct (vals _) as [vs|]; cbn; [by apply Hgt|done].
Qed.

Lemma runs_rest x rest : runs x → Forall (λ r, runs r.2) rest → runs (OExpression x rest).
Proof.
  intros Hx Hr t. cbn [type_of Initializer]. destruct (type_of E strict x) as [tx|] eqn:Ex; [|done]. cbn [mbind option_bind].
  destruct (Hx _ Ex) as [Hrc Hg]. destruct (Initializer o x) as [rc x'] eqn:Ei. cbn [fst snd] in *. subst rc. cbn [negb Z.eqb].
  match goal with |- ?F tx rest = _ → _ => set (types := F) end.
  match goal with |- context [let '(rc, r) := ?F rest in _] => set (inits := F) end. intros Et.
  destruct (inits rest) as [rc rest'] eqn:Er. cbn [fst snd Interpreter].
  match goal with |- context [(Interpreter root_context x' ≫= λ s, ?F s rest')] => set (vals := F) end.
  assert (rc = 0 ∧ ∀ v, has_type v tx → gives strict (vals v rest') t) as [-> Hv].
  { clear Hx Ex Ei Hg. revert tx rest' rc Et Er. induction Hr as [|[op y] rest Hy Hr IH]; intros tx rest' rc; cbn [types inits].
    { intros [= <-] [= <- <-]. split; [done|]. by intros v Hv. }
    fold types inits. cbn [snd] in Hy. destruct (type_of E strict y) as [ty'|] eqn:Ey; [|done]. cbn [mbind option_bind].
    destruct (binary_type strict op tx ty') as [tz|] eqn:Eb; [|done]. cbn [mbind option_bind]. intros Et.
    destruct (Hy _ Ey) as [Hrc Hg]. destruct (Initializer o y) as [rc0 y']. cbn [fst snd] in *. subst rc0. cbn [negb Z.eqb].
    destruct (inits rest) as [rc1 rest1]. intros [= <- <-]. destruct (IH _ _ _ Et eq_refl) as [-> IHv]. split; [done|].
    intros v Hv. cbn [vals]. fold vals. destruct (short_circuit op v) as [w|] eqn:Es.
    - apply IHv. by eapply short_circuit_gives.
    - destruct (Interpreter root_context y') as [w|]; [|done]. cbn [mbind option_bind].
      pose proof (CalcVisitor_gives _ _ _ _ _ _ _ Eb Hv Hg) as Hc.
      destruct (CalcVisitor op v w) as [u|]; [|done]. cbn [mbind option_bind]. by apply IHv. }
  split; [done|]. destruct (Interpreter root_context x') as [v|]; [|done]. cbn [mbind option_bind]. by apply Hv.
Qed.

Lemma typed_runs n : runs n.
Proof.
  induction n as [| | | | |v a|v|f args fn IH|op x IH|a b c IHa IHb IHc|x rest IHx IHr] using Operand_induction.
  - done.
  - intros t. cbn. case_bool_decide; [|done]. by intros [= <-].
  - by intros t [= <-].
  - by intros t [= <-].
  - by intros t [= <-].
  - intros t Ht. destruct (eo_member _ _ _ Hok _ _ Ht) as (get & Hget & Hne & Hty). cbn. unfold init_variable. rewrite Hget. cbn.
    destruct (get v) eqn:Eg; [done|]. split; [done|]. by rewrite <-Eg in *.
  - intros t Ht. destruct (eo_dynamic _ _ _ Hok _ _ Ht) as (d & Hd & Hty). cbn. by rewrite Hd.
  - by apply runs_args.
  - intros t. cbn [type_of Initializer]. destruct (type_of E strict x) as [tx|] eqn:Ex; [|done]. cbn [mbind option_bind]. intros Ht.
    destruct (IH _ Ex) as [Hrc Hg]. destruct (Initializer o x) as [rc x']. cbn [fst snd Interpreter] in *. split; [done|].
    destruct (Interpreter root_context x') as [v|]; [|done]. cbn [mbind option_bind]. by eapply calc_unary_gives.
  - intros t. cbn [type_of Initializer]. destruct (type_of E strict a) as [ta|] eqn:Ea; [|done]. cbn [mbind option_bind].
    destruct (type_of E strict b) as [tb|] eqn:Eb; [|done]. cbn [mbind option_bind].
    destruct (type_of E strict c) as [tc|] eqn:Ec; [|done]. cbn [mbind option_bind].
    case_bool_decide as Hb; [|done]. destruct Hb as [-> ->]. intros [= <-].
    destruct (IHa _ Ea) as [Ha Hga], (IHb _ Eb) as [Hb Hgb], (IHc _ Ec) as [Hc Hgc].
    destruct (Initializer o a) as [ra a'], (Initializer o b) as [rb b'], (Initializer o c) as [rc c']. cbn [fst snd] in *. subst.
    cbn [negb Z.eqb fst snd Interpreter]. split; [done|].
    destruct (Interpreter root_context a') as [v|]; [|done]. cbn [mbind option_bind]. cbn in Hga. destruct v as [|[]| | | |]; done.
  - by apply runs_rest.
Qed.
End sound.

(** C17. A typed expression runs: when the tree of a text has a type, for types of
    members, dynamic variables and functions that the options and the object
    keep to, [Init] returns 0 and evaluating with the object gives a value of that
    type, never an error; an undefined result is possible only if the type allows
    arithmetic on integers, which may overflow or divide by zero. *)
Theorem typed_expression_runs parse E strict o root e text n t :
  env_ok E o root → parse text = Some n → type_of E strict n = Some t →
  ∃ e', SpiritExpression_Init parse e text o = (0, e') ∧
    match Eval_root e' root with Some v => has_type v t | None => strict = false end.
Proof.
  intros Hok Hp Ht. assert (type_of E strict (OExpression n []) = Some t) as Ht' by (cbn; by rewrite Ht).
  destruct (typed_runs E strict o root Hok _ _ Ht') as [Hrc Hg]. unfold SpiritExpression_Init. rewrite Hp.
  destruct (Initializer o (OExpression n [])) as [rc n']. cbn [fst snd] in *. subst rc. cbn [negb Z.eqb]. eexists. split; [done|exact Hg].
Qed.

(** ** Mistakes that are not reported *)

(** C40. Not every mistake in a name is reported: a member that does not exist in a
    struct within the struct is accepted, and the expression evaluates to the
    inner struct; and in the argument of a function any unknown name is accepted,
    the argument being [false] for a member and an error for a function.  The trees
    are those that the grammar gives for [a.b], [f(b)] and [f(b())]. *)
Theorem Init_misses_names parse e o t root text1 text2 text3 a b acc t' f (fn : ExprFunction) :
  table_find t a = Some (Sub acc t') → table_find t' b = None → functions o !! f = Some fn →
  table_find t b = None → functions o !! b = None →
  parse text1 = Some (no_operator (OVariable [a; b] [])) →
  parse text2 = Some (no_operator (OFuncCall f [no_operator (OVariable [b] [])] None)) →
  parse text3 = Some (no_operator (OFuncCall f [no_operator (OFuncCall b [] None)] None)) →
  let o := ExprOptions_Init o t in
  (∃ e1, SpiritExpression_Init parse e text1 o = (0, e1) ∧ Eval_root e1 root = Some (field_to_value (acc root))) ∧
  (∃ e2, SpiritExpression_Init parse e text2 o = (0, e2) ∧ Eval_root e2 root = Some (fn [VBool false])) ∧
  (∃ e3, SpiritExpression_Init parse e text3 o = (0, e3) ∧ Eval_root e3 root = Some (fn [VError ERR_INVALID_FUNCTION])).
Proof.
  intros Ha Hb Hf Hnb Hnf H1 H2 H3 o'. unfold SpiritExpression_Init. rewrite H1, H2, H3.
  split_and!; eexists.
  - split; [cbn; unfold init_variable; cbn; rewrite Ha, Hb; reflexivity|reflexivity].
  - split; [cbn; rewrite Hf; unfold init_variable; cbn; rewrite Hnb; reflexivity|reflexivity].
  - split; [cbn; rewrite Hf, Hnf; reflexivity|reflexivity].
Qed.

(** ** Access to members *)

(** The member that a list of names leads to from an object. *)
Inductive path : FieldAccessorTable → Z → list string → FieldValue → Prop :=
  | path_leaf t obj n a : table_find t n = Some (Leaf a) → path t obj [n] (a obj)
  | path_sub t obj n a t' p ns v :
      table_find t n = Some (Sub a t') → a obj = FPtr p → p ≠ 0 → path t' p ns v → path t obj (n :: ns) v.

(** Names that lead to a member give the accessors that read it. *)
Lemma path_read t obj names v :
  path t obj names v → ∃ l, GetFieldAccessors names t = (0, l) ∧ l ≠ [] ∧ GetFieldValue obj l = v.
Proof.
  induction 1 as [t obj n a Ht|t obj n a t' p ns v Ht Ha Hp Hpath (l & HG & Hne & HV)].
  - exists [a]. cbn. by rewrite Ht.
  - exists (a :: l). split_and!; [|done|].
    + destruct ns as [|m ns]; [inversion Hpath|]. cbn [GetFieldAccessors] in *. by rewrite Ht, HG.
    + destruct l as [|b l]; [done|]. cbn [GetFieldValue] in *. rewrite Ha. by rewrite (proj2 (Z.eqb_neq _ _)).
Qed.

(** ** An example *)

Definition inner_table : FieldAccessorTable := Table [("id"%string, Leaf (λ _, FString "uid"))].
Definition outer_table : FieldAccessorTable :=
  Table [("score"%string, Leaf (λ p, FDouble (int_to_double p))); ("user"%string, Sub (λ p, FPtr (p + 1)) inner_table)].
Definition twice : ExprFunction := λ args, match args with [VDouble d] => VDouble (SFadd 53 1024 d d) | _ => empty_value end.
Definition example_options : ExprOptions := ExprOptions_Init (mkExprOptions {[ "twice"%string := twice ]} None None) outer_table.
Definition example_env : Env :=
  mkEnv (λ v, if bool_decide (v = ["score"%string]) then Some TDouble
              else if bool_decide (v = ["user"%string; "id"%string]) then Some TString else None)
        (λ _, None) (λ f, if bool_decide (f = "twice"%string) then Some ([TDouble], TDouble) else None).

Lemma example_env_ok : env_ok example_env example_options 7.
Proof.
  constructor.
  - intros v t Ht. eexists. split; [reflexivity|]. cbn [member_type example_env] in Ht. case_bool_decide as Hv.
    + injection Ht as <-. subst v.
      destruct (path_read outer_table 7 ["score"%string] (FDouble (int_to_double 7))) as (l & HG & Hne & HV); [by apply (path_leaf _ _ _ (λ p, FDouble (int_to_double p)))|].
      rewrite HG. cbn [snd]. by rewrite HV.
    + case_bool_decide as Hv2; [|done]. injection Ht as <-. subst v.
      destruct (path_read outer_table 7 ["user"%string; "id"%string] (FString "uid")) as (l & HG & Hne & HV).
      { by apply (path_sub _ _ _ (λ p, FPtr (p + 1)) inner_table 8); [| | |apply (path_leaf _ _ _ (λ _, FString "uid"))]. }
      rewrite HG. cbn [snd]. by rewrite HV.
  - done.
  - intros f ts t Ht. cbn [function_type example_env] in Ht. case_bool_decide as Hf; [|done]. injection Ht as <- <-. subst f.
    exists twice. split; [reflexivity|]. intros args Ha. inversion Ha as [|v ? vs ? Hv Hvs]; subst. inversion Hvs; subst.
    by destruct v.
Qed.

(** [user.id == "uid" && score > 1 ? twice(score) : -0.5] *)
Definition example_tree : Operand :=
  OCondExpr
    (OExpression (OExpression (OVariable ["user"%string; "id"%string] []) [(op_equal, OString "uid")])
       [(op_and, OExpression (OVariable ["score"%string] []) [(op_greater, OInt 1)])])
    (OFuncCall "twice" [OVariable ["score"%string] []] None)
    (OUnary op_negative (ODouble (int_to_double 1))).

Lemma typed_expression_runs_witness :
  ∃ e', SpiritExpression_Init (λ _, Some example_tree) (mkSpirit example_options None) "" example_options = (0, e') ∧
    match Eval_root e' 7 with Some v => has_type v TDouble | None => true = false end ∧ Eval_root e' 7 = Some (VDouble (int_to_double 14)).
Proof.
  destruct (typed_expression_runs (λ _, Some example_tree) example_env true example_options 7 (mkSpirit example_options None) "" example_tree TDouble)
    as (e' & HI & HE); [exact example_env_ok|reflexivity|vm_compute; reflexivity|].
  exists e'. split; [exact HI|]. split; [exact HE|]. injection HI as <-. vm_compute. reflexivity.
Defined.

Definition by_text (text : string) : option Operand :=
  if bool_decide (text = "user.name"%string) then Some (no_operator (OVariable ["user"%string; "name"%string] []))
  else if bool_decide (text = "twice(name)"%string)
  then Some (no_operator (OFuncCall "twice" [no_operator (OVariable ["name"%string] [])] None))
  else Some (no_operator (OFuncCall "twice" [no_operator (OFuncCall "name" [] None)] None)).

Lemma Init_misses_names_witness :
  ∃ e1, SpiritExpression_Init by_text (mkSpirit example_options None) "user.name" example_options = (0, e1) ∧ Eval_root e1 7 = Some (VPtr 8).
Proof.
  destruct (Init_misses_names by_text (mkSpirit example_options None) example_options outer_table 7 "user.name" "twice(name)" "twice(name())" "user" "name"
    (λ p, FPtr (p + 1)) inner_table "twice" twice) as [(e1 & H1 & H2) _]; [reflexivity..|].
  exists e1. split; [exact H1|exact H2].
Defined.
