(* ===== verification/MraftIobuf.v ===== *)
(** * MraftIobuf: the streams between protobuf and files (iobuf.cpp)

    The model of both streams and what they do to a message. *)

From S2P Require Import Prelude.

(** * Streams of protobuf on chains of buffers (iobuf.cpp)

    [IOBufAsZeroCopyOutputStream] gives a serializer blocks to fill, and
    [IOBufAsZeroCopyInputStream] gives a parser the blocks of a chain.

    A chain of folly is circular.  It is kept here as the list that starts at the
    current buffer of the stream: [next()] turns the list by one, [prev()] is its
    last element, and [appendToChain] on a buffer, which adds to the end of the
    chain that starts there, adds at the end of the list.  A buffer has an
    identity, so that the head of the chain is known when the list was turned. *)

(** [create_capacity n] is the capacity of [IOBuf::create(n)], which folly may
    round up. *)
Class IOBufs := {
  create_capacity : nat → nat;
  create_capacity_ge n : (n <= create_capacity n)%nat
}.

(** The bytes of the buffer are the [len] bytes of the storage after the
    headroom. *)
Record IOBuf := mkIOBuf { buf_id : nat; storage : list Z; headroom : nat; len : nat }.

Definition data (b : IOBuf) : list Z := take (len b) (drop (headroom b) (storage b)).
Definition tailroom (b : IOBuf) : nat := length (storage b) - headroom b - len b.
Definition set_len (b : IOBuf) (n : nat) : IOBuf := mkIOBuf (buf_id b) (storage b) (headroom b) n.

(** The chain from its head on. *)
Fixpoint from_head (n : nat) (head : nat) (c : list IOBuf) : list IOBuf :=
  match n, c with
  | S n, b :: r => if Nat.eqb (buf_id b) head then c else from_head n head (r ++ [b])
  | _, _ => c
  end.
Definition chain_bytes (head : nat) (c : list IOBuf) : list Z := from_head (length c) head c ≫= data.

Section iobuf.
Context `{IOBufs}.

(** ** Output *)

(** The circle from the current buffer on, the identity of the next buffer, and
    the fields of the class; the head is the buffer 0. *)
Record OutStream := mkOut { circle : list IOBuf; next_id : nat; block_size_ : nat; byte_count_ : Z }.

Definition IOBuf_create (id n : nat) : IOBuf := mkIOBuf id (replicate (create_capacity n) 0) 0 0.

Definition OutStream_new (block_size : nat) : OutStream := mkOut [IOBuf_create 0 block_size] 1 block_size 0.

(** The block is the end of the current buffer, of the returned size. *)
Definition OutStream_Next (s : OutStream) : option (nat * OutStream) :=
  match circle s with
  | [] => None
  | b :: r =>
      let '(c, id) :=
        if Nat.eqb (tailroom b) 0 then (r ++ [IOBuf_create (next_id s) (block_size_ s); b], S (next_id s))
        else (b :: r, next_id s) in
      match c with
      | [] => None
      | b :: r =>
          let n := tailroom b in
          Some (n, mkOut (set_len b (len b + n) :: r) id (block_size_ s) (byte_count_ s + Z.of_nat n))
      end
  end.

(** The loop of [BackUp]; [None] if the head of the chain is freed. *)
Fixpoint back_up (fuel count : nat) (c : list IOBuf) : option (list IOBuf) :=
  match fuel, c with
  | S fuel, b :: r =>
      if Nat.eqb count 0 then Some c
      else if (count <=? len b)%nat then
        let b := set_len b (len b - count) in
        if negb (Nat.eqb (length r) 0) && Nat.eqb (len b) 0 then
          if Nat.eqb (buf_id b) 0 then None
          else match last r with Some p => Some (p :: removelast r) | None => None end
        else Some (b :: r)
      else if Nat.eqb (buf_id b) 0 then None
      else match last r with Some p => back_up fuel (count - len b) (p :: removelast r) | None => None end
  | _, _ => None
  end.
Definition OutStream_BackUp (s : OutStream) (count : nat) : option OutStream :=
  c ← back_up (S (length (circle s))) count (circle s);
  Some (mkOut c (next_id s) (block_size_ s) (byte_count_ s - Z.of_nat count)).

(** What a serializer does: it asks for blocks until one is not empty, fills it,
    and gives back what it does not need of the last one. *)
Fixpoint next_block (fuel : nat) (s : OutStream) : option (nat * OutStream) :=
  match fuel with
  | O => None
  | S fuel => '(n, s) ← OutStream_Next s; if Nat.eqb n 0 then next_block fuel s else Some (n, s)
  end.
Definition fill (s : OutStream) (n : nat) (d : list Z) : OutStream :=
  match circle s with
  | [] => s
  | b :: r =>
      let at_ := (headroom b + (len b - n))%nat in
      mkOut (mkIOBuf (buf_id b) (take at_ (storage b) ++ d ++ drop (at_ + length d) (storage b)) (headroom b) (len b) :: r)
            (next_id s) (block_size_ s) (byte_count_ s)
  end.
Fixpoint write_all (fuel : nat) (s : OutStream) (d : list Z) : option OutStream :=
  match fuel, d with
  | _, [] => Some s
  | S fuel, _ =>
      '(n, s) ← next_block (S (length (circle s))) s;
      let s := fill s n (take n d) in
      if (length d <? n)%nat then OutStream_BackUp s (n - length d) else write_all fuel s (drop n d)
  | O, _ => None
  end.

Definition kBlockSize : nat := 4096.

(** The bytes of the chain after a message of the bytes [d] was serialized to a
    new stream; the serializer always ends ([write_all_total]). *)
Definition stream_bytes (d : list Z) : list Z :=
  match write_all (length d) (OutStream_new kBlockSize) d with
  | Some s => chain_bytes 0 (circle s)
  | None => []
  end.

(** ** Input *)

Record InStream := mkIn { in_circle : list IOBuf; in_count : Z }.

Definition InStream_new (c : list IOBuf) : InStream := mkIn c 0.

(** The loop over empty buffers: [Some None] if there is no data; the pointer
    [next()] of a chain is never null. *)
Fixpoint skip_empty (fuel : nat) (c : list IOBuf) : option (option (list IOBuf)) :=
  match fuel with
  | O => None
  | S fuel =>
      match c with
      | [] => None
      | b :: r =>
          if negb (Nat.eqb (len b) 0) then Some (Some c)
          else if negb (Nat.eqb (length r) 0) then skip_empty fuel (r ++ [b])
          else Some None
      end
  end.
(** The data of the block, if there is one. *)
Definition InStream_Next (fuel : nat) (s : InStream) : option (option (list Z) * InStream) :=
  r ← skip_empty fuel (in_circle s);
  match r with
  | None => Some (None, s)
  | Some [] => None
  | Some (b :: r) => Some (Some (data b), mkIn (set_len b 0 :: r) (in_count s + Z.of_nat (len b)))
  end.

Fixpoint in_back_up (fuel count : nat) (c : list IOBuf) : option (list IOBuf) :=
  match fuel, c with
  | S fuel, b :: r =>
      if Nat.eqb count 0 then Some c
      else if (count <=? tailroom b)%nat then Some (set_len b (len b + count) :: r)
      else
        let b' := set_len b (len b + tailroom b) in
        match last (b' :: r) with
        | Some p => in_back_up fuel (count - tailroom b) (p :: removelast (b' :: r))
        | None => None
        end
  | _, _ => None
  end.
Definition InStream_BackUp (fuel : nat) (s : InStream) (count : nat) : option InStream :=
  c ← in_back_up fuel count (in_circle s); Some (mkIn c (in_count s)).

Definition trim_start (b : IOBuf) (n : nat) : IOBuf := mkIOBuf (buf_id b) (storage b) (headroom b + n) (len b - n).
Fixpoint in_skip (fuel count : nat) (c : list IOBuf) : option (list IOBuf) :=
  match fuel, c with
  | S fuel, b :: r =>
      if Nat.eqb count 0 then Some c
      else if (count <=? len b)%nat then Some (trim_start b count :: r)
      else in_skip fuel (count - len b) (r ++ [trim_start b (len b)])
  | _, _ => None
  end.
Definition InStream_Skip (fuel : nat) (s : InStream) (count : nat) : option (bool * InStream) :=
  c ← in_skip fuel count (in_circle s); Some (true, mkIn c (in_count s)).
End iobuf.

(** * What the streams do with a message

    A serializer always gets a block and ends; a message of at most two blocks is
    in the chain as it was written, and one of three blocks is not. *)

Section spec.
Context `{IOBufs}.

Abbreviation cap := (create_capacity kBlockSize).

(** ** A serializer ends *)

Definition roomy (s : OutStream) : Prop := circle s ≠ [] ∧ (0 < create_capacity (block_size_ s))%nat.

Lemma set_len_0 b : set_len b (len b + 0) = b.
Proof. destruct b. unfold set_len. cbn. by rewrite Nat.add_0_r. Qed.

Lemma tailroom_create id n : tailroom (IOBuf_create id n) = create_capacity n.
Proof. unfold tailroom, IOBuf_create. cbn. rewrite length_replicate. lia. Qed.

(** [Next] on a full buffer is [Next] on the circle that is turned. *)
Lemma Next_full b r id bs n :
  tailroom b = 0%nat →
  OutStream_Next (mkOut (b :: r) id bs n) =
    match r ++ [IOBuf_create id bs; b] with
    | [] => None
    | y :: r' => Some (tailroom y, mkOut (set_len y (len y + tailroom y) :: r') (S id) bs (n + Z.of_nat (tailroom y)))
    end.
Proof. intros E. unfold OutStream_Next. cbn [circle next_id block_size_ byte_count_]. by rewrite E. Qed.

Lemma Next_room b r id bs n :
  tailroom b ≠ 0%nat →
  OutStream_Next (mkOut (b :: r) id bs n)
  = Some (tailroom b, mkOut (set_len b (len b + tailroom b) :: r) id bs (n + Z.of_nat (tailroom b))).
Proof. intros E. unfold OutStream_Next. cbn [circle next_id block_size_ byte_count_]. by rewrite (proj2 (Nat.eqb_neq _ _)). Qed.

(** The front buffer is the block that was given. *)
Definition given (n : nat) (s : OutStream) : Prop := ∃ b r, circle s = b :: r ∧ (0 < n <= len b)%nat.

Lemma next_block_found fulls b rest id bs n :
  Forall (λ x, tailroom x = 0%nat) fulls → tailroom b ≠ 0%nat →
  ∃ m s, next_block (S (length fulls)) (mkOut (fulls ++ b :: rest) id bs n) = Some (m, s) ∧ given m s ∧ block_size_ s = bs.
Proof.
  revert rest id n. induction fulls as [|x fulls IH]; intros rest id n Hf Hb.
  { cbn [app length next_block]. rewrite Next_room by done. cbn [mbind option_bind]. rewrite (proj2 (Nat.eqb_neq _ _)) by done.
    do 2 eexists. split_and!; [done| |done]. do 2 eexists. split; [done|]. cbn. lia. }
  inversion Hf as [|? ? Hx Hf']; subst. cbn [app length next_block]. rewrite Next_full by done. cbn [app].
  rewrite <-app_assoc. destruct fulls as [|y fulls]; cbn [app].
  - cbn [mbind option_bind]. rewrite (proj2 (Nat.eqb_neq _ _)) by done.
    do 2 eexists. split_and!; [done| |done]. do 2 eexists. split; [done|]. cbn. lia.
  - inversion Hf' as [|? ? Hy Hf'']; subst. rewrite Hy, set_len_0. cbn [mbind option_bind Nat.eqb].
    apply (IH (rest ++ [IOBuf_create id bs; x])); done.
Qed.

Lemma split_full c : Forall (λ x, tailroom x = 0%nat) c ∨
  ∃ fulls b rest, c = fulls ++ b :: rest ∧ Forall (λ x, tailroom x = 0%nat) fulls ∧ tailroom b ≠ 0%nat.
Proof.
  induction c as [|b c [IH|(fulls & b' & rest & -> & IH & Hb)]]; [by left|..]; destruct (decide (tailroom b = 0%nat)).
  - left. by constructor.
  - right. by exists [], b, c.
  - right. exists (b :: fulls), b', rest. by repeat constructor.
  - right. by exists [], b, (fulls ++ b' :: rest).
Qed.

Lemma next_block_mono k k' s r : next_block k s = Some r → (k <= k')%nat → next_block k' s = Some r.
Proof.
  revert k' s. induction k as [|k IH]; intros k' s E Hk; [done|]. destruct k' as [|k']; [lia|]. cbn in *.
  destruct (OutStream_Next s) as [[n s']|]; [|done]. cbn in *. destruct (Nat.eqb n 0); [|done]. apply IH; [done|lia].
Qed.

Lemma next_block_total s :
  roomy s → ∃ m s', next_block (S (length (circle s))) s = Some (m, s') ∧ given m s' ∧ block_size_ s' = block_size_ s.
Proof.
  intros [Hne Hroom]. destruct s as [c id bs n]. cbn [circle block_size_] in *.
  destruct (split_full c) as [Hf|(fulls & b & rest & -> & Hf & Hb)].
  - destruct c as [|x c]; [done|]. inversion Hf as [|? ? Hx Hf']; subst. cbn [length next_block]. rewrite Next_full by done.
    destruct c as [|y c]; cbn [app].
    + rewrite tailroom_create. cbn [mbind option_bind]. rewrite (proj2 (Nat.eqb_neq _ _)) by lia.
      do 2 eexists. split_and!; [done| |done]. do 2 eexists. split; [done|]. cbn. lia.
    + inversion Hf' as [|? ? Hy Hf'']; subst. rewrite Hy, set_len_0. cbn [mbind option_bind Nat.eqb].
      destruct (next_block_found (y :: c) (IOBuf_create id bs) [x] (S id) bs (n + Z.of_nat 0)) as (m & s' & HN & Hg & Hbs); [done|rewrite tailroom_create; lia|].
      exists m, s'. split; [exact HN|done].
  - destruct (next_block_found fulls b rest id bs n Hf Hb) as (m & s' & HN & Hg & Hbs). exists m, s'. split; [|done].
    eapply next_block_mono; [exact HN|]. rewrite length_app. lia.
Qed.

Lemma write_all_total fuel s d : roomy s → (length d <= fuel)%nat → is_Some (write_all fuel s d).
Proof.
  revert s d. induction fuel as [|fuel IH]; intros s d Hr Hl; destruct d as [|x d]; try done; [cbn in Hl; lia|].
  cbn [write_all]. destruct (next_block_total s Hr) as (m & s' & -> & (b & r & Hc & Hm) & Hbs). cbn [mbind option_bind].
  destruct (Nat.ltb_spec (length (x :: d)) m).
  - unfold OutStream_BackUp, fill. rewrite Hc. cbn [circle back_up]. rewrite (proj2 (Nat.eqb_neq _ _)) by lia. cbn [len].
    rewrite (proj2 (Nat.leb_le _ _)) by lia. cbn [len set_len].
    rewrite (proj2 (Nat.eqb_neq (len b - _) 0)) by (cbn [length] in *; lia). rewrite andb_false_r. cbn [mbind option_bind]. eauto.
  - apply IH; [|rewrite length_drop; cbn [length] in *; lia]. unfold fill. rewrite Hc. split; [done|]. cbn [block_size_]. rewrite Hbs. apply Hr.
Qed.

(** ** The blocks of a message *)

(** A buffer that has been filled. *)
Definition filled (id : nat) (d : list Z) : IOBuf := mkIOBuf id (d ++ replicate (cap - length d) 0) 0 (length d).

Lemma data_filled id d : data (filled id d) = d.
Proof. unfold data, filled. cbn [len headroom storage]. by rewrite drop_0, take_app_length. Qed.
Lemma tailroom_filled id d : length d = cap → tailroom (filled id d) = 0%nat.
Proof. intros E. unfold tailroom, filled. cbn. rewrite length_app, length_replicate. lia. Qed.

Lemma cap_pos : (0 < cap)%nat.
Proof. pose proof (create_capacity_ge kBlockSize). unfold kBlockSize in *. lia. Qed.

(** The block of a fresh buffer is filled. *)
Lemma fill_fresh id r nid bs n d :
  (length d <= cap)%nat →
  fill (mkOut (set_len (IOBuf_create id kBlockSize) cap :: r) nid bs n) cap d
  = mkOut (mkIOBuf id (d ++ replicate (cap - length d) 0) 0 cap :: r) nid bs n.
Proof.
  intros Hd. unfold fill, set_len, IOBuf_create. cbn [circle headroom len buf_id storage next_id block_size_ byte_count_].
  rewrite Nat.sub_diag. cbn [Nat.add take app]. rewrite drop_replicate. done.
Qed.

(** A round of the serializer whose block is a fresh buffer. *)
Lemma write_round fuel s id r nid n d :
  next_block (S (length (circle s))) s
  = Some (cap, mkOut (set_len (IOBuf_create id kBlockSize) cap :: r) nid kBlockSize n) → d ≠ [] →
  write_all (S fuel) s d =
    if (length d <? cap)%nat then Some (mkOut (filled id d :: r) nid kBlockSize (n - Z.of_nat (cap - length d)))
    else write_all fuel (mkOut (filled id (take cap d) :: r) nid kBlockSize n) (drop cap d).
Proof.
  intros HN Hd. destruct d as [|x d]; [done|]. cbn [write_all]. rewrite HN. cbn [mbind option_bind]. set (e := x :: d).
  assert (0 < length e)%nat by (cbn; lia). rewrite fill_fresh by (rewrite length_take; lia).
  destruct (Nat.ltb_spec (length e) cap).
  - rewrite take_ge by lia. unfold OutStream_BackUp. cbn [circle back_up len]. rewrite (proj2 (Nat.eqb_neq _ _)) by lia.
    rewrite (proj2 (Nat.leb_le _ _)) by lia. unfold set_len. cbn [len headroom storage buf_id].
    rewrite (proj2 (Nat.eqb_neq (cap - (cap - length e)) 0)) by lia. rewrite andb_false_r. cbn [mbind option_bind].
    unfold filled. do 3 f_equal. f_equal. lia.
  - do 2 f_equal. unfold filled. f_equal. f_equal. rewrite length_take. lia.
Qed.

(** The rounds of the first three blocks: the fresh buffer, the buffer behind the
    only one, and the one that is put before the second. *)
Lemma round_first : next_block 2 (OutStream_new kBlockSize)
  = Some (cap, mkOut [set_len (IOBuf_create 0 kBlockSize) cap] 1 kBlockSize (0 + Z.of_nat cap)).
Proof.
  pose proof cap_pos. unfold OutStream_new. cbn [next_block]. rewrite Next_room by (rewrite tailroom_create; lia).
  rewrite tailroom_create. cbn [mbind option_bind]. by rewrite (proj2 (Nat.eqb_neq _ _)) by lia.
Qed.
Lemma round_second a n : length a = cap →
  next_block 2 (mkOut [filled 0 a] 1 kBlockSize n)
  = Some (cap, mkOut [set_len (IOBuf_create 1 kBlockSize) cap; filled 0 a] 2 kBlockSize (n + Z.of_nat cap)).
Proof.
  intros Ha. pose proof cap_pos. cbn [next_block]. rewrite Next_full by (by apply tailroom_filled). cbn [app].
  rewrite tailroom_create. cbn [mbind option_bind]. by rewrite (proj2 (Nat.eqb_neq _ _)) by lia.
Qed.
Lemma round_third a b n : length a = cap → length b = cap →
  next_block 3 (mkOut [filled 1 b; filled 0 a] 2 kBlockSize n)
  = Some (cap, mkOut [set_len (IOBuf_create 2 kBlockSize) cap; filled 1 b; IOBuf_create 3 kBlockSize; filled 0 a] 4 kBlockSize
                     (n + Z.of_nat 0 + Z.of_nat cap)).
Proof.
  intros Ha Hb. pose proof cap_pos. cbn [next_block]. rewrite Next_full by (by apply tailroom_filled). cbn [app].
  rewrite (tailroom_filled 0 a), set_len_0 by done. cbn [mbind option_bind Nat.eqb].
  rewrite Next_full by (by apply tailroom_filled). cbn [app]. rewrite tailroom_create. cbn [mbind option_bind].
  by rewrite (proj2 (Nat.eqb_neq _ _)) by lia.
Qed.

(** The bytes of a chain whose head is the last of the list. *)
Lemma chain_last c x : Forall (λ y, buf_id y ≠ 0%nat) c → buf_id x = 0%nat → chain_bytes 0 (c ++ [x]) = data x ++ (c ≫= data).
Proof.
  intros Hc Hx. unfold chain_bytes.
  assert (∀ c d n, Forall (λ y, buf_id y ≠ 0%nat) c → (length c < n)%nat → from_head n 0 (c ++ x :: d) = x :: d ++ c) as Hrun.
  { clear c Hc. induction c as [|y c IH]; intros d [|n] Hc Hn; cbn in *; try lia.
    - by rewrite Hx, app_nil_r.
    - inversion Hc as [|? ? Hy Hc']; subst. rewrite (proj2 (Nat.eqb_neq _ _)) by done. rewrite <-app_assoc. cbn [app].
      rewrite (IH (d ++ [y])) by (done || lia). by rewrite <-app_assoc. }
  rewrite Hrun by (done || (rewrite length_app; cbn; lia)). done.
Qed.

Lemma chain_one a : chain_bytes 0 [filled 0 a] = a.
Proof. etrans; [by apply (chain_last [])|]. cbn [mbind list_bind]. by rewrite data_filled, app_nil_r. Qed.
Lemma chain_two a b : chain_bytes 0 [filled 1 b; filled 0 a] = a ++ b.
Proof.
  etrans; [apply (chain_last [filled 1 b]); [by repeat constructor|done]|].
  cbn [mbind list_bind]. by rewrite !data_filled, app_nil_r.
Qed.

Lemma stream_bytes_small d : (length d <= 2 * cap)%nat → stream_bytes d = d.
Proof.
  intros Hl. pose proof cap_pos as Hcap. unfold stream_bytes. destruct d as [|x d]; [done|]. set (e := x :: d) in *.
  assert (length e = S (length d)) as El by done. rewrite El at 1.
  rewrite (write_round _ _ _ _ _ _ _ round_first) by done. destruct (Nat.ltb_spec (length e) cap).
  { apply chain_one. }
  assert (length (take cap e) = cap) as Ha by (rewrite length_take; lia).
  destruct (drop cap e) as [|y rest] eqn:Ed.
  { assert (∀ fuel s, write_all fuel s [] = Some s) as -> by (by intros []). cbn [circle]. rewrite chain_one. rewrite <-(take_drop cap e) at 2. by rewrite Ed, app_nil_r. }
  assert (length (y :: rest) = (length e - cap)%nat) as Er by (by rewrite <-Ed, length_drop).
  destruct (length d) as [|fuel] eqn:Ef; [cbn in *; lia|].
  rewrite (write_round _ _ _ _ _ _ _ (round_second _ _ Ha)) by done.
  destruct (Nat.ltb_spec (length (y :: rest)) cap).
  - cbn [circle]. rewrite chain_two. rewrite <-(take_drop cap e) at 2. by rewrite Ed.
  - rewrite (take_ge (y :: rest)), (drop_ge (y :: rest)) by lia.
    assert (∀ fuel s, write_all fuel s [] = Some s) as -> by (by intros []). cbn [circle].
    rewrite chain_two. rewrite <-(take_drop cap e) at 2. by rewrite Ed.
Qed.

Lemma stream_bytes_three d : (2 * cap < length d < 3 * cap)%nat →
  stream_bytes d = take cap d ++ drop (2 * cap) d ++ take cap (drop cap d).
Proof.
  intros Hl. pose proof cap_pos as Hcap. unfold stream_bytes.
  assert (∃ fuel, length d = S (S (S fuel))) as [fuel Ef] by (exists (length d - 3)%nat; lia). rewrite Ef.
  assert (length (take cap d) = cap) as Ha by (rewrite length_take; lia).
  assert (length (take cap (drop cap d)) = cap) as Hb by (rewrite length_take, length_drop; lia).
  rewrite (write_round _ _ _ _ _ _ _ round_first) by (destruct d; cbn in *; [lia|done]).
  rewrite (proj2 (Nat.ltb_ge _ _)) by lia.
  rewrite (write_round _ _ _ _ _ _ _ (round_second _ _ Ha)) by (intros E%(f_equal length); rewrite length_drop in E; cbn in E; lia).
  rewrite (proj2 (Nat.ltb_ge _ _)) by (rewrite length_drop; lia).
  rewrite (write_round _ _ _ _ _ _ _ (round_third _ _ _ Ha Hb)) by (intros E%(f_equal length); rewrite !length_drop in E; cbn in E; lia).
  rewrite (proj2 (Nat.ltb_lt _ _)) by (rewrite !length_drop; lia).
  rewrite drop_drop. replace (cap + cap)%nat with (2 * cap)%nat by lia.
  cbn [circle]. etrans; [apply (chain_last [filled 2 _; filled 1 _; IOBuf_create 3 kBlockSize]); [by repeat constructor|done]|].
  cbn [mbind list_bind]. rewrite !data_filled. unfold data, IOBuf_create. cbn [len take headroom storage app]. by rewrite app_nil_r.
Qed.

(** A message is written in order only if it takes two blocks: the serializer
    always gets its blocks and ends, and the bytes of the chain are those of the
    message if they fit in two blocks.  With a third block, [appendToChain] on the
    second buffer of the circular chain puts the new one before it, so that the
    third part of the message comes before the second. *)
Theorem stream_order d :
  is_Some (write_all (length d) (OutStream_new kBlockSize) d) ∧
  ((length d <= 2 * cap)%nat → stream_bytes d = d) ∧
  ((2 * cap < length d < 3 * cap)%nat → stream_bytes d = take cap d ++ drop (2 * cap) d ++ take cap (drop cap d)).
Proof.
  split_and!; [|apply stream_bytes_small|apply stream_bytes_three].
  apply write_all_total; [|done]. split; [done|]. apply cap_pos.
Qed.

(** ** Input *)

(** What is given back is not read again: after [Next] has returned the data
    of a buffer, [BackUp] of its last bytes makes [Next] return its first bytes,
    for the buffer is extended at its end; the number of bytes read is not taken
    back either. *)
Theorem input_BackUp_first b r count k fuel :
  (0 < count <= len b)%nat → (headroom b + len b <= length (storage b))%nat → (0 < fuel)%nat →
  ∃ s1 s2 s3, InStream_Next fuel (mkIn (b :: r) k) = Some (Some (data b), s1) ∧
    InStream_BackUp fuel s1 count = Some s2 ∧ in_count s2 = k + Z.of_nat (len b) ∧
    InStream_Next fuel s2 = Some (Some (take count (data b)), s3).
Proof.
  intros Hc Hs Hf. destruct fuel as [|fuel]; [lia|]. unfold InStream_Next. cbn [in_circle skip_empty].
  rewrite (proj2 (Nat.eqb_neq (len b) 0)) by lia. cbn [negb mbind option_bind in_count].
  do 3 eexists. split; [done|]. unfold InStream_BackUp. cbn [in_circle in_back_up].
  rewrite (proj2 (Nat.eqb_neq count 0)) by lia. rewrite (proj2 (Nat.leb_le _ _)) by (unfold tailroom; cbn; lia).
  cbn [mbind option_bind]. split; [done|]. split; [done|]. cbn [in_circle skip_empty len set_len Nat.add].
  rewrite (proj2 (Nat.eqb_neq count 0)) by lia. cbn [negb mbind option_bind]. unfold data, set_len. cbn [len headroom storage].
  do 3 f_equal. rewrite take_take. f_equal. lia.
Qed.

(** At the end of a chain of several buffers [Next] goes round for ever. *)
Lemma input_end_diverges fuel b b' r k :
  Forall (λ b, len b = 0%nat) (b :: b' :: r) → InStream_Next fuel (mkIn (b :: b' :: r) k) = None.
Proof.
  intros Hz. unfold InStream_Next. cbn [in_circle]. assert (skip_empty fuel (b :: b' :: r) = None) as ->; [|done].
  remember (b :: b' :: r) as c eqn:Ec. assert (1 < length c)%nat as Hl by (subst; cbn; lia). clear b b' r Ec.
  revert c Hz Hl. induction fuel as [|fuel IH]; intros c Hz Hl; [done|]. destruct c as [|b [|b' r]]; [cbn in Hl; lia..|].
  inversion Hz as [|? ? Hb Hz']; subst. cbn [skip_empty]. rewrite Hb. cbn [negb Nat.eqb length].
  apply IH; [apply Forall_app; split; [done|by apply Forall_singleton]|rewrite length_app; cbn; lia].
Qed.
End spec.
