(* ===== verification/MraftOs.v ===== *)
(** * MraftOs: what the raft log asks of its surroundings

    The log of mraft keeps its entries in files.  Here are the calls it makes:
    the system calls, as operations on a [World], and the code of other projects
    (folly, protobuf, the raft library), as the operations of the class
    [Outside], whose documented behaviour is the class [OutsideLaws].

    A [World] has names, files under the names and the answers the system will
    give: every call takes the next answer, [Done] once the list is empty, so
    that a theorem can say which of the calls fail.  A name leads to a file and
    an open file keeps its file under any later name, so that a renamed or an
    unlinked file can still be read and written through its descriptor. *)

From Stdlib Require Import Ascii.
From stdpp Require Import pretty.
From S2P Require Import Prelude MraftIobuf.

(** A descriptor is the open file and the position in it. *)
Record Fd := mkFd { fd_ino : nat; fd_pos : Z }.

(** [Failed e n]: the call fails with the error [e]; a write has then written
    the first [n] of its bytes. *)
Inductive answer := Done | Failed (err : Z) (part : nat).

Record World := mkWorld {
  names : gmap string nat;
  inodes : gmap nat (list Z);
  next_ino : nat;
  answers : list answer;
  errno : Z
}.

Definition set_names (w : World) (m : gmap string nat) : World :=
  mkWorld m (inodes w) (next_ino w) (answers w) (errno w).
Definition set_inode (w : World) (i : nat) (b : list Z) : World :=
  mkWorld (names w) (<[i := b]> (inodes w)) (next_ino w) (answers w) (errno w).
Definition set_errno (w : World) (e : Z) : World :=
  mkWorld (names w) (inodes w) (next_ino w) (answers w) e.
Definition file_bytes (w : World) (i : nat) : list Z := default [] (inodes w !! i).

(** The next answer of the system. *)
Definition ask (w : World) : answer * World :=
  match answers w with
  | [] => (Done, w)
  | a :: r => (a, mkWorld (names w) (inodes w) (next_ino w) r (errno w))
  end.

Definition ENOENT : Z := 2.
Definition EIO : Z := 5.
Definition EBADF : Z := 9.
Definition EINVAL : Z := 22.
Definition ERANGE : Z := 34.

(** [open(path, O_CREAT | O_TRUNC)]. *)
Definition sys_create (w : World) (path : string) : option Fd * World :=
  match ask w with
  | (Failed e _, w) => (None, set_errno w e)
  | (Done, w) =>
      match names w !! path with
      | Some i => (Some (mkFd i 0), set_inode w i [])
      | None =>
          (Some (mkFd (next_ino w) 0),
           mkWorld (<[path := next_ino w]> (names w)) (<[next_ino w := []]> (inodes w))
                   (S (next_ino w)) (answers w) (errno w))
      end
  end.

(** [open(path)] of a file that must be there. *)
Definition sys_open (w : World) (path : string) : option Fd * World :=
  match ask w with
  | (Failed e _, w) => (None, set_errno w e)
  | (Done, w) =>
      match names w !! path with
      | Some i => (Some (mkFd i 0), w)
      | None => (None, set_errno w ENOENT)
      end
  end.

Definition sys_fstat (w : World) (fd : Fd) : option Z * World :=
  match ask w with
  | (Failed e _, w) => (None, set_errno w e)
  | (Done, w) => (Some (Z.of_nat (length (file_bytes w (fd_ino fd)))), w)
  end.

(** [preadFull]: the bytes from [off] on, [n] of them or fewer at the end of the
    file; [None] is the result -1. *)
Definition preadFull (w : World) (fd : Fd) (n off : Z) : option (list Z) * World :=
  match ask w with
  | (Failed e _, w) => (None, set_errno w e)
  | (Done, w) => (Some (take (Z.to_nat n) (drop (Z.to_nat off) (file_bytes w (fd_ino fd)))), w)
  end.

(** [read] and [readFull] at the position of the descriptor. *)
Definition sys_read (w : World) (fd : Fd) (n : Z) : option (list Z) * Fd * World :=
  match preadFull w fd n (fd_pos fd) with
  | (None, w) => (None, fd, w)
  | (Some l, w) => (Some l, mkFd (fd_ino fd) (fd_pos fd + Z.of_nat (length l)), w)
  end.

(** The file after [new] has been written at [pos]; a gap before [pos] reads as
    zeros. *)
Definition overwrite (old : list Z) (pos : nat) (new : list Z) : list Z :=
  take pos (old ++ replicate (pos - length old) 0%Z) ++ new ++ drop (pos + length new) old.

(** [writevFull]: the number of bytes written, or -1. *)
Definition writevFull (w : World) (fd : Fd) (b : list Z) : Z * Fd * World :=
  let put w b := set_inode w (fd_ino fd) (overwrite (file_bytes w (fd_ino fd)) (Z.to_nat (fd_pos fd)) b) in
  match ask w with
  | (Failed e n, w) =>
      let part := take n b in
      (-1, mkFd (fd_ino fd) (fd_pos fd + Z.of_nat (length part)), set_errno (put w part) e)
  | (Done, w) =>
      (Z.of_nat (length b), mkFd (fd_ino fd) (fd_pos fd + Z.of_nat (length b)), put w b)
  end.

Definition sys_rename (w : World) (old new : string) : Z * World :=
  match ask w with
  | (Failed e _, w) => (-1, set_errno w e)
  | (Done, w) =>
      match names w !! old with
      | Some i => (0, set_names w (<[new := i]> (delete old (names w))))
      | None => (-1, set_errno w ENOENT)
      end
  end.

Definition sys_unlink (w : World) (path : string) : Z * World :=
  match ask w with
  | (Failed e _, w) => (-1, set_errno w e)
  | (Done, w) =>
      match names w !! path with
      | Some _ => (0, set_names w (delete path (names w)))
      | None => (-1, set_errno w ENOENT)
      end
  end.

Definition ftruncate (w : World) (fd : Fd) (size : Z) : Z * World :=
  match ask w with
  | (Failed e _, w) => (-1, set_errno w e)
  | (Done, w) =>
      let b := file_bytes w (fd_ino fd) in
      (0, set_inode w (fd_ino fd)
            (take (Z.to_nat size) (b ++ replicate (Z.to_nat size - length b) 0%Z)))
  end.

Definition sys_lseek (w : World) (fd : Fd) (off : Z) : Z * Fd * World :=
  match ask w with
  | (Failed e _, w) => (-1, fd, set_errno w e)
  | (Done, w) => (off, mkFd (fd_ino fd) off, w)
  end.

(** [opendir]. *)
Definition sys_opendir (w : World) : bool * World :=
  match ask w with
  | (Failed e _, w) => (false, set_errno w e)
  | (Done, w) => (true, w)
  end.

(** No call fails from here on. *)
Definition calm (w : World) : Prop := answers w = [].

Lemma ask_calm w : calm w → ask w = (Done, w).
Proof. unfold calm, ask. by intros ->. Qed.

Lemma overwrite_end old new : overwrite old (length old) new = old ++ new.
Proof.
  unfold overwrite. rewrite Nat.sub_diag, app_nil_r, firstn_all, drop_ge by lia. by rewrite app_nil_r.
Qed.

(** The name of a file in a directory. *)
Definition in_dir (dir name : string) : string := (dir +:+ "/" +:+ name)%string.

(** [remove_all] of a directory. *)
Definition remove_all (w : World) (dir : string) : World :=
  set_names w (filter (λ f, String.prefix (in_dir dir "") f.1 = false) (names w)).

(** [std::to_string] of an integer. *)
Definition to_string (z : Z) : string := pretty z.

(** ** Code of other projects

    [crc32] is folly's checksum; [to_int64] and [split] are [folly::to] (with
    [None] for the exception) and [folly::split] at ['_']; [pb_serialize] and
    [pb_parse] are protobuf's coding of [LogPBMeta], whose one field is
    [first_log_index]; [readdir] gives the names in a directory in the system's
    order; [uninitialised e] is what the three reserved bytes hold in the buffer
    that [IOBuf::create] returns for the header of [e].  [iterators_stay] says
    whether an iterator of the ordered map of segments stays valid when another
    element is erased: it does in [std::map], and [absl::btree_map], which the
    code uses, documents that it may not.  A [LogPBMeta] takes at most the tag and
    ten bytes of a number. *)
Class Outside := {
  crc32 : list Z → Z;
  to_int64 : string → option Z;
  split : string → list string;
  pb_serialize : Z → option (list Z);
  pb_parse : list Z → option Z;
  readdir : World → string → list string;
  uninitialised : Z → list Z;
  iterators_stay : bool;
  outside_iobufs :: IOBufs
}.

(** The character [c] is not in [s]. *)
Definition lacks (c : Ascii.ascii) (s : string) : Prop := c ∉ String.list_ascii_of_string s.

Class OutsideLaws `{Outside} : Prop := {
  crc32_u32 b : is_u32 (crc32 b);
  to_int64_to_string z : is_i64 z → to_int64 (to_string z) = Some z;
  split_two a b : lacks "_"%char a → lacks "_"%char b → split (a +:+ "_" +:+ b)%string = [a; b];
  pb_round_trip z : is_i64 z → ∃ b, pb_serialize z = Some b ∧ (length b <= 11)%nat ∧ pb_parse b = Some z;
  readdir_NoDup w d : NoDup (readdir w d);
  readdir_elem w d n :
    n ∈ readdir w d ↔ lacks "/"%char n ∧ (n = "."%string ∨ n = ".."%string ∨ is_Some (names w !! in_dir d n));
  uninitialised_bytes i : length (uninitialised i) = 3%nat ∧ Forall is_u8 (uninitialised i)
}.
