(* ===== verification/MraftEntry.v ===== *)
(** * MraftEntry: the entries of the log and their bytes

    [LogEntry] (log_entry.cpp) is the value of a raft entry: the reference count
    behind [Clone], [Wrap] and [TakeRawEntry] belongs to the raft library and is
    not modelled, so that [Clone] is the identity.  An entry is stored as a
    header of 24 bytes in network order and the data.  The theorems say that the
    bytes of an entry are read back to it, and which entries that holds for. *)

From S2P Require Import Prelude MraftOs.

(** A prefix of known length, taken and dropped. *)
Lemma take_app_at {A} n (a b : list A) : length a = n → take n (a ++ b) = a.
Proof. intros <-. by rewrite take_app_length. Qed.
Lemma drop_app_at {A} n (a b : list A) : length a = n → drop n (a ++ b) = b.
Proof. intros <-. by rewrite drop_app_length. Qed.

(** ** Integers in network order (utils.h, for a little-endian target) *)

Module LocalInt.
(** [Write] and [Read] for an unsigned type of [n] bytes; a signed value is
    written as its two's complement. *)
Definition Write (n : nat) (v : Z) : list Z := rev (le_bytes n v).
Definition Read (n : nat) (b : list Z) : Z := le_value (rev (take n b)).

Lemma Write_length n v : length (Write n v) = n.
Proof. unfold Write. by rewrite length_rev, le_bytes_length. Qed.
Lemma Write_bytes n v : Forall is_u8 (Write n v).
Proof. unfold Write. apply Forall_rev, le_bytes_byte. Qed.

Lemma Read_Write n v r : Read n (Write n v ++ r) = v mod 256 ^ Z.of_nat n.
Proof.
  unfold Read. rewrite take_app_at by apply Write_length.
  unfold Write. by rewrite rev_involutive, le_value_bytes.
Qed.
End LocalInt.

(** ** The header *)

Record EntryHeader := mkHeader {
  term : Z; type : Z; data_len : Z; data_checksum : Z; header_checksum : Z
}.

Definition kEntryHeaderLength : Z := 24.

(** ** The entries *)

Record LogEntry := mkEntry { Index : Z; Term : Z; Type_ : Z; Data : list Z }.

Definition DataLength (e : LogEntry) : Z := Z.of_nat (length (Data e)).
(** [Type()] returns the type of the raft entry as a [uint8_t]. *)
Definition Type8 (e : LogEntry) : Z := u8 (Type_ e).
(** [Create] and the data that is then written to [WritableData()]. *)
Definition Create_entry (index term type : Z) (data : list Z) : LogEntry :=
  mkEntry index term type data.
(** [Wrap] of a string. *)
Definition Wrap (index term type : Z) (s : list Z) : LogEntry := Create_entry index term type s.

Section env.
Context `{Outside}.

Definition verify_checksum (data : list Z) (value : Z) : bool := crc32 data =? value.
Definition get_checksum (data : list Z) : Z := crc32 data.

Definition Decode (data : list Z) : EntryHeader :=
  mkHeader (i64 (LocalInt.Read 8 data))
           (u8 (LocalInt.Read 1 (drop 8 data)))
           (u32 (LocalInt.Read 4 (drop 12 data)))
           (u32 (LocalInt.Read 4 (drop 16 data)))
           (u32 (LocalInt.Read 4 (drop 20 data))).

(** [reserved] are the three bytes after the type, which are not written. *)
Definition Encode (h : EntryHeader) (reserved : list Z) : list Z :=
  let buf := LocalInt.Write 8 (term h) ++ LocalInt.Write 1 (type h) ++ reserved ++
             LocalInt.Write 4 (data_len h) ++ LocalInt.Write 4 (data_checksum h) in
  buf ++ LocalInt.Write 4 (get_checksum buf).

(** The header that [Append] makes for an entry. *)
Definition header_of (e : LogEntry) : EntryHeader :=
  if 0 <? DataLength e
  then mkHeader (Term e) (Type8 e) (u32 (DataLength e)) (get_checksum (Data e)) 0
  else mkHeader (Term e) (Type8 e) 0 0 0.

(** The bytes that [Append] writes. *)
Definition entry_bytes (e : LogEntry) : list Z :=
  Encode (header_of e) (uninitialised (Index e)) ++ Data e.

(** What an entry must be for its bytes to determine it. *)
Definition entry_ok (e : LogEntry) : Prop :=
  is_i64 (Term e) ∧ is_u8 (Type_ e) ∧ DataLength e < 2 ^ 32.

Section laws.
Context `{!OutsideLaws}.

Lemma reserved_length i : length (uninitialised i) = 3%nat.
Proof. apply uninitialised_bytes. Qed.

Lemma Encode_length h i : length (Encode h (uninitialised i)) = 24%nat.
Proof.
  unfold Encode. rewrite !length_app, !LocalInt.Write_length, reserved_length. done.
Qed.

Lemma entry_bytes_length e : Z.of_nat (length (entry_bytes e)) = 24 + DataLength e.
Proof. unfold entry_bytes, DataLength. rewrite length_app, Encode_length. lia. Qed.

(** The header that is stored for a header is the header with its checksum. *)
Lemma Decode_Encode h i r :
  is_i64 (term h) → is_u8 (type h) → is_u32 (data_len h) → is_u32 (data_checksum h) →
  Decode (Encode h (uninitialised i) ++ r)
  = mkHeader (term h) (type h) (data_len h) (data_checksum h)
             (crc32 (take 20 (Encode h (uninitialised i)))).
Proof.
  intros Ht Hy Hl Hc. unfold Decode, Encode. set (buf := _ ++ _ ++ uninitialised i ++ _ ++ _).
  assert (length buf = 20%nat) as Hb.
  { unfold buf. rewrite !length_app, !LocalInt.Write_length, reserved_length. done. }
  rewrite take_app_at by done. f_equal.
  - unfold buf. rewrite <-!app_assoc, LocalInt.Read_Write.
    change (256 ^ Z.of_nat 8) with (2 ^ 64). rewrite <-(i64_id (term h)) at 2 by done. apply i64_u64.
  - unfold buf. rewrite <-!app_assoc, drop_app_at by apply LocalInt.Write_length.
    rewrite LocalInt.Read_Write. unfold u8. rewrite Z.mod_mod by done. by apply Z.mod_small.
  - unfold buf. change (drop 12) with (@drop Z (8 + 4)).
    rewrite <-!app_assoc, <-drop_drop, drop_app_at by apply LocalInt.Write_length.
    rewrite app_assoc, drop_app_at.
    2: by rewrite length_app, LocalInt.Write_length, reserved_length.
    rewrite LocalInt.Read_Write. unfold u32. rewrite Z.mod_mod by done. by apply Z.mod_small.
  - unfold buf. change (drop 16) with (@drop Z (8 + 8)).
    rewrite <-!app_assoc, <-drop_drop, drop_app_at by apply LocalInt.Write_length.
    rewrite app_assoc, (app_assoc _ (LocalInt.Write 4 (data_len h))), drop_app_at.
    2: by rewrite !length_app, !LocalInt.Write_length, reserved_length.
    rewrite LocalInt.Read_Write. unfold u32. rewrite Z.mod_mod by done. by apply Z.mod_small.
  - rewrite <-app_assoc, drop_app_at by done. rewrite LocalInt.Read_Write.
    unfold u32. rewrite Z.mod_mod by done. apply Z.mod_small, crc32_u32.
Qed.
End laws.
End env.
