(* ===== verification/MraftPb.v ===== *)
(** * MraftPb: messages in files

    Writing and reading a message, and the files of a world by their names. *)

From S2P Require Import Prelude MraftIobuf MraftOs MraftEntry.

(** * Messages in files (utils.cpp)

    A message of protobuf is kept in a file behind its length.  The coding of a
    message is code that protoc generates: the class [Message] has it for a type
    of messages.  The bytes go through the output stream of iobuf.cpp. *)

(** [None] is the result [false]. *)
Class Message (A : Type) := {
  SerializeToZeroCopyStream : A → option (list Z);
  ParseFromZeroCopyStream : list Z → option A
}.

Section pb.
Context `{IOBufs} `{Message A}.
Implicit Types (w : World) (msg : A).

Definition pb_write_fd w (fd : Fd) msg : Z * World :=
  match SerializeToZeroCopyStream msg with
  | None => (-1, w)
  | Some bytes =>
      let data := stream_bytes bytes in
      let len := u32 (Z.of_nat (length data)) in
      let to_write := len + 4 in
      let '(n, _, w) := writevFull w fd (LocalInt.Write 4 len ++ data) in
      if negb (n =? to_write) then (-1, w) else (0, w)
  end.
Definition pb_write_file w (file : string) msg : Z * World :=
  match sys_create w file with
  | (None, w) => (-1, w)
  | (Some fd, w) => pb_write_fd w fd msg
  end.
(** [None] is the result -1. *)
Definition pb_read_fd w (fd : Fd) : option A * World :=
  match sys_fstat w fd with
  | (None, w) => (None, w)
  | (Some _, w) =>
      match sys_read w fd 4 with
      | (None, _, w) => (None, w)
      | (Some head, fd, w) =>
          if negb (Z.of_nat (length head) =? 4) then (None, w)
          else
            let pb_len := LocalInt.Read 4 head in
            match sys_read w fd pb_len with
            | (None, _, w) => (None, w)
            | (Some body, _, w) =>
                if negb (Z.of_nat (length body) =? pb_len) then (None, w)
                else (ParseFromZeroCopyStream body, w)
            end
      end
  end.
Definition pb_read_file w (file : string) : option A * World :=
  match sys_open w file with
  | (None, w) => (None, w)
  | (Some fd, w) => pb_read_fd w fd
  end.

(** The bytes of a file with a message. *)
Definition framed (m : list Z) : list Z := LocalInt.Write 4 (Z.of_nat (length m)) ++ m.

Lemma pb_write_fd_empty w i msg m :
  calm w → inodes w !! i = Some [] → SerializeToZeroCopyStream msg = Some m → (length m <= 2 * kBlockSize)%nat →
  pb_write_fd w (mkFd i 0) msg = (0, set_inode w i (framed m)).
Proof.
  intros Hc Hi Hm Hl. pose proof (create_capacity_ge kBlockSize) as Hcap.
  unfold pb_write_fd. rewrite Hm, stream_bytes_small by lia. unfold kBlockSize in Hl. unfold writevFull. rewrite ask_calm by done. cbn [fd_ino fd_pos].
  rewrite u32_id by (unfold is_u32; lia). rewrite length_app, LocalInt.Write_length.
  rewrite (proj2 (Z.eqb_eq _ (Z.of_nat (length m) + 4))) by lia. cbn [negb].
  unfold file_bytes. rewrite Hi. do 2 f_equal. apply (overwrite_end []).
Qed.

Lemma pb_read_file_framed w file i m :
  calm w → names w !! file = Some i → inodes w !! i = Some (framed m) → Z.of_nat (length m) < 2 ^ 32 →
  pb_read_file w file = (ParseFromZeroCopyStream m, w).
Proof.
  intros Hc Hn Hi Hl. unfold pb_read_file, sys_open. rewrite ask_calm, Hn by done.
  unfold pb_read_fd, sys_fstat. rewrite ask_calm by done.
  unfold sys_read, preadFull. rewrite ask_calm by done. cbn [fd_ino fd_pos].
  assert (file_bytes w i = framed m) as Hfb by (unfold file_bytes; by rewrite Hi).
  rewrite Hfb. unfold framed.
  change (Z.to_nat 0) with 0%nat. change (Z.to_nat 4) with 4%nat. rewrite drop_0, take_app_at by apply LocalInt.Write_length.
  rewrite LocalInt.Write_length. change (negb (Z.of_nat 4 =? 4)) with false. cbv iota.
  assert (LocalInt.Read 4 (LocalInt.Write 4 (Z.of_nat (length m))) = Z.of_nat (length m)) as ->.
  { rewrite <-(app_nil_r (LocalInt.Write 4 _)), LocalInt.Read_Write.
    change (256 ^ Z.of_nat 4) with (2 ^ 32). apply Z.mod_small. lia. }
  rewrite ask_calm by done.
  cbn [fd_ino fd_pos]. change (Z.to_nat (0 + Z.of_nat 4)) with 4%nat.
  rewrite Hfb. unfold framed. rewrite drop_app_at by apply LocalInt.Write_length.
  rewrite Nat2Z.id, take_ge by done. rewrite Z.eqb_refl. done.
Qed.
End pb.

(** * The files of a world by their names

    [view w path] is the content of the file under a name, so that an operation
    is described by the views it changes. *)

(** ** Files under names *)

(** Every name has a file of its own. *)
Record wf (w : World) : Prop := {
  wf_inj a b i : names w !! a = Some i → names w !! b = Some i → a = b;
  wf_valid a i : names w !! a = Some i → is_Some (inodes w !! i);
  wf_fresh i : is_Some (inodes w !! i) → (i < next_ino w)%nat
}.

Definition view (w : World) (path : string) : option (list Z) := i ← names w !! path; inodes w !! i.

Lemma view_Some w path b : view w path = Some b ↔ ∃ i, names w !! path = Some i ∧ inodes w !! i = Some b.
Proof. unfold view. destruct (names w !! path); naive_solver. Qed.

Lemma view_None w path : wf w → view w path = None → names w !! path = None.
Proof.
  intros W. unfold view. destruct (names w !! path) as [i|] eqn:E; [|done]. cbn.
  destruct (wf_valid _ W _ _ E) as [b ->]. done.
Qed.

(** [w'] is [w] with the content [b] under [path]. *)
Record puts (w : World) (path : string) (b : list Z) (w' : World) : Prop := {
  pt_calm : calm w';
  pt_wf : wf w';
  pt_here : view w' path = Some b;
  pt_else q : q ≠ path → view w' q = view w q;
  pt_names q : q ≠ path → names w' !! q = names w !! q
}.

Lemma put_here w path i b : wf w → calm w → names w !! path = Some i → puts w path b (set_inode w i b).
Proof.
  intros W Hc Hn. constructor; [done| | | |].
  - constructor; cbn; [apply W| |].
    + intros a j Ha. destruct (decide (j = i)) as [->|]; [rewrite lookup_insert_eq; eauto|].
      rewrite lookup_insert_ne by done. by eapply W.
    + intros j Hj. apply W. destruct (decide (j = i)) as [->|]; [by eapply W|]. by rewrite lookup_insert_ne in Hj.
  - unfold view. cbn. rewrite Hn. cbn. by rewrite lookup_insert_eq.
  - intros q Hq. unfold view. cbn. destruct (names w !! q) as [j|] eqn:E; [|done]. cbn.
    apply lookup_insert_ne. intros ->. apply Hq. by eapply wf_inj.
  - done.
Qed.

Lemma puts_trans w path b w' b' w'' : puts w path b w' → puts w' path b' w'' → puts w path b' w''.
Proof. intros [] []. constructor; try done; intros q Hq; [by rewrite pt_else1, pt_else0|by rewrite pt_names1, pt_names0]. Qed.

Lemma sys_create_puts w path :
  calm w → wf w → ∃ i w', sys_create w path = (Some (mkFd i 0), w') ∧ puts w path [] w' ∧ names w' !! path = Some i.
Proof.
  intros Hc W. unfold sys_create. rewrite ask_calm by done. destruct (names w !! path) as [i|] eqn:E.
  - exists i. eexists. split_and!; [done|by apply put_here|done].
  - exists (next_ino w). eexists. split_and!; [done| |cbn; by rewrite lookup_insert_eq].
    assert (∀ a j, names w !! a = Some j → j ≠ next_ino w) as Hold.
    { intros a j Ha ->. pose proof (wf_fresh _ W (next_ino w) (wf_valid _ W _ _ Ha)). lia. }
    constructor; [done| | | |].
    + constructor; cbn.
      * intros a b j. rewrite !lookup_insert_Some. intros [(<- & <-)|(Ha & Ej)] [(<- & Hb)|(Hb & Ej')]; subst; try done.
        -- by apply Hold in Ej'.
        -- by apply Hold in Ej.
        -- by eapply wf_inj.
      * intros a j. rewrite lookup_insert_Some, lookup_insert_is_Some. intros [(<- & <-)|(Ha & Ej)]; [by left|].
        right. split; [by eapply not_eq_sym, Hold|by eapply W].
      * intros j. rewrite lookup_insert_is_Some. intros [<-|(_ & Hj)]; [lia|]. apply W in Hj. lia.
    + unfold view. cbn. rewrite lookup_insert_eq. cbn. by rewrite lookup_insert_eq.
    + intros q Hq. unfold view. cbn. rewrite lookup_insert_ne by done.
      destruct (names w !! q) as [j|] eqn:Ej; [|done]. cbn. apply lookup_insert_ne. by eapply not_eq_sym, Hold.
    + intros q Hq. cbn. by apply lookup_insert_ne.
Qed.

(** ** Messages in files *)

Section messages.
Context `{IOBufs} `{Message A}.

(** The message can be written and read: its bytes fit in two blocks. *)
Definition codes (m : A) : Prop :=
  ∃ b, SerializeToZeroCopyStream m = Some b ∧ (length b <= 2 * kBlockSize)%nat ∧ ParseFromZeroCopyStream b = Some m.

(** The file has the message. *)
Definition stored (w : World) (path : string) (m : A) : Prop :=
  ∃ b, SerializeToZeroCopyStream m = Some b ∧ (length b <= 2 * kBlockSize)%nat ∧ ParseFromZeroCopyStream b = Some m ∧
    view w path = Some (framed b).

Lemma pb_write_file_puts w path m :
  calm w → wf w → codes m → ∃ b w', pb_write_file w path m = (0, w') ∧ puts w path b w' ∧ stored w' path m.
Proof.
  intros Hc W (b & Hb1 & Hb2 & Hb3). destruct (sys_create_puts w path Hc W) as (i & w1 & HC & HP & Hn).
  unfold pb_write_file. rewrite HC. pose proof (pt_here _ _ _ _ HP) as (j & Hj & Hi)%view_Some.
  assert (j = i) as -> by congruence. rewrite (pb_write_fd_empty _ _ _ b) by (done || apply HP).
  assert (puts w1 path (framed b) (set_inode w1 i (framed b))) as HP' by (by apply put_here; try apply HP).
  exists (framed b). eexists. split_and!; [done|by eapply puts_trans|]. exists b. split_and!; try done. apply HP'.
Qed.

Lemma pb_read_file_stored w path m : calm w → stored w path m → pb_read_file w path = (Some m, w).
Proof.
  intros Hc (b & _ & Hb2 & Hb3 & (i & Hn & Hi)%view_Some).
  rewrite (pb_read_file_framed _ _ i b), Hb3 by (done || (unfold kBlockSize in *; lia)). done.
Qed.
End messages.
