(* ===== verification/MraftSegment.v ===== *)
(** * MraftSegment: one file of the log (class [Segment] of segment_log_storage.cpp)

    A segment is the file it keeps open and, in memory, the offset and the term
    of every entry of the file.  Each method is a function of the segment and the
    [World].  [None] as a result says that the source has no behaviour: it reads
    [offset_and_term_] outside its bounds.  The mutex of the segment is not
    modelled: one thread runs.  The numbers of the source that are [int64_t] or
    [off_t] stay below 2^63 as long as files and logs are shorter than that. *)

From S2P Require Import Prelude MraftOs MraftEntry.

Record Segment := mkSegment {
  path_ : string;
  bytes_ : Z;
  fd_ : option Fd;
  is_open_ : bool;
  first_index_ : Z;
  last_index_ : Z;
  offset_and_term_ : list (Z * Z)
}.

(** The two constructors. *)
Definition open_segment (path : string) (first_index : Z) : Segment :=
  mkSegment path 0 None true first_index (first_index - 1) [].
Definition closed_segment (path : string) (first_index last_index : Z) : Segment :=
  mkSegment path 0 None false first_index last_index [].

Definition set_fd (s : Segment) (fd : option Fd) : Segment :=
  mkSegment (path_ s) (bytes_ s) fd (is_open_ s) (first_index_ s) (last_index_ s) (offset_and_term_ s).
Definition set_is_open (s : Segment) (b : bool) : Segment :=
  mkSegment (path_ s) (bytes_ s) (fd_ s) b (first_index_ s) (last_index_ s) (offset_and_term_ s).
(** What is in memory about the entries. *)
Definition set_index (s : Segment) (bytes last : Z) (offs : list (Z * Z)) : Segment :=
  mkSegment (path_ s) bytes (fd_ s) (is_open_ s) (first_index_ s) last offs.

Definition kSegmentOpenPrefix : string := "log_inprogress_".
Definition kSegmentClosePrefix : string := "log_".
Definition kSegmentLogMeta : string := "log_meta".

(** The file names, without the directory. *)
Definition open_name (first : Z) : string := (kSegmentOpenPrefix +:+ to_string first)%string.
Definition closed_name (first last : Z) : string :=
  (kSegmentClosePrefix +:+ to_string first +:+ "_" +:+ to_string last)%string.

Definition GetPath (s : Segment) (is_open : bool) : string :=
  in_dir (path_ s) (if is_open then open_name (first_index_ s)
                    else closed_name (first_index_ s) (last_index_ s)).

(** Calls on a descriptor that may be -1. *)
Definition pread (w : World) (fd : option Fd) (n off : Z) : option (list Z) * World :=
  match fd with
  | None => (None, set_errno w EBADF)
  | Some fd => preadFull w fd n off
  end.
Definition writev (w : World) (fd : option Fd) (b : list Z) : Z * option Fd * World :=
  match fd with
  | None => (-1, None, set_errno w EBADF)
  | Some fd => let '(n, fd, w) := writevFull w fd b in (n, Some fd, w)
  end.
Definition truncate_fd (w : World) (fd : option Fd) (size : Z) : Z * World :=
  match fd with
  | None => (-1, set_errno w EBADF)
  | Some fd => ftruncate w fd size
  end.
Definition lseek (w : World) (fd : option Fd) (off : Z) : Z * option Fd * World :=
  match fd with
  | None => (-1, None, set_errno w EBADF)
  | Some fd => let '(r, fd, w) := sys_lseek w fd off in (r, Some fd, w)
  end.

Record LogMeta := mkMeta { meta_offset : Z; meta_length : Z; meta_term : Z }.

(** What [LoadEntry] returns: a code other than 0, or 0 with the header and, if
    asked for, the entry. *)
Inductive loaded := Code (rc : Z) | Loaded (head : EntryHeader) (data : option LogEntry).

Section env.
Context `{Outside}.

Definition LoadEntry (s : Segment) (w : World) (index offset : Z) (data : bool) : loaded * World :=
  match pread w (fd_ s) kEntryHeaderLength offset with
  | (None, w) => (Code (-1), w)
  | (Some buf, w) =>
      if negb (Z.of_nat (length buf) =? kEntryHeaderLength) then (Code 1, w)
      else
        let head := Decode buf in
        if negb (verify_checksum (take 20 buf) (header_checksum head)) then (Code (-1), w)
        else if negb data then (Loaded head None, w)
        else if 0 <? data_len head then
          match pread w (fd_ s) (data_len head) (offset + kEntryHeaderLength) with
          | (None, w) => (Code (-1), w)
          | (Some d, w) =>
              if negb (Z.of_nat (length d) =? data_len head) then (Code 1, w)
              else if negb (verify_checksum d (data_checksum head)) then (Code (-1), w)
              else (Loaded head (Some (Create_entry index (term head) (type head) d)), w)
          end
        else (Loaded head (Some (Create_entry index (term head) (type head) [])), w)
  end.

(** [offset_and_term_[k]]. *)
Definition offset_and_term_at (s : Segment) (k : Z) : option (Z * Z) :=
  if k <? 0 then None else offset_and_term_ s !! Z.to_nat k.

(** [Some None] is the result -1. *)
Definition GetMeta (s : Segment) (index : Z) : option (option LogMeta) :=
  if (last_index_ s <? index) || (index <? first_index_ s) then Some None
  else if last_index_ s =? first_index_ s - 1 then Some None
  else
    let meta_index := index - first_index_ s in
    e ← offset_and_term_at s meta_index;
    next_cursor ← (if index <? last_index_ s then fst <$> offset_and_term_at s (meta_index + 1)
                   else Some (bytes_ s));
    Some (Some (mkMeta (fst e) (next_cursor - fst e) (snd e))).

Definition GetTerm (s : Segment) (index : Z) : option Z :=
  m ← GetMeta s index;
  Some (match m with None => 0 | Some meta => meta_term meta end).

(** [Some (None, _)] is the null pointer. *)
Definition Get (s : Segment) (w : World) (index : Z) : option (option LogEntry * World) :=
  m ← GetMeta s index;
  match m with
  | None => Some (None, w)
  | Some meta =>
      match LoadEntry s w index (meta_offset meta) true with
      | (Loaded _ entry, w) => Some (entry, w)
      | (Code _, w) => Some (None, w)
      end
  end.

Definition Create (s : Segment) (w : World) : Z * Segment * World :=
  if negb (is_open_ s) then (-1, s, w)
  else match sys_create w (GetPath s (is_open_ s)) with
       | (Some fd, w) => (0, set_fd s (Some fd), w)
       | (None, w) => (-1, s, w)
       end.

(** [Sync] ignores the result of [fdatasync]. *)
Definition Sync (will_sync : bool) : Z := 0.

Definition Append (s : Segment) (w : World) (entry : LogEntry) : Z * Segment * World :=
  if negb (is_open_ s) then (EINVAL, s, w)
  else if negb (Index entry =? last_index_ s + 1) then (ERANGE, s, w)
  else
    let header := header_of entry in
    let to_write := kEntryHeaderLength + data_len header in
    let '(n, fd, w) := writev w (fd_ s) (entry_bytes entry) in
    let s := set_fd s fd in
    if negb (n =? to_write) then (errno w, s, w)
    else (0, set_index s (bytes_ s + to_write) (last_index_ s + 1)
                       (offset_and_term_ s ++ [(bytes_ s, Term entry)]), w).

Definition Close (s : Segment) (w : World) (will_sync : bool) : Z * Segment * World :=
  if negb (is_open_ s) then (0, s, w)
  else
    let old_path := GetPath s true in
    let new_path := GetPath s false in
    let ret := if first_index_ s <? last_index_ s then (if will_sync then Sync will_sync else 0) else 0 in
    if ret =? 0 then
      let s := set_is_open s false in
      let '(rc, w) := sys_rename w old_path new_path in
      (rc, s, w)
    else (ret, s, w).

Definition Unlink (s : Segment) (w : World) : Z * World :=
  let old_path := GetPath s (is_open_ s) in
  let tmp_path := (old_path +:+ ".tmp")%string in
  let '(ret, w) := sys_rename w old_path tmp_path in
  if negb (ret =? 0) then (ret, w)
  else let '(_, w) := sys_unlink w tmp_path in (ret, w).

Definition Truncate (s : Segment) (w : World) (last_index_kept : Z) : option (Z * Segment * World) :=
  if last_index_ s <=? last_index_kept then Some (0, s, w)
  else
    let first_truncate_in_offset := last_index_kept + 1 - first_index_ s in
    truncate_size ← fst <$> offset_and_term_at s first_truncate_in_offset;
    let '(ret, s, w) :=
      if negb (is_open_ s) then
        let '(ret, w) := sys_rename w (GetPath s false) (GetPath s true) in
        (ret, (if ret =? 0 then set_is_open s true else s), w)
      else (0, s, w) in
    if negb (ret =? 0) then Some (ret, s, w)
    else
      let '(ret, w) := truncate_fd w (fd_ s) truncate_size in
      if ret <? 0 then Some (ret, s, w)
      else
        let '(ret_off, fd, w) := lseek w (fd_ s) truncate_size in
        let s := set_fd s fd in
        if ret_off <? 0 then Some (-1, s, w)
        else Some (ret, set_index s truncate_size last_index_kept
                          (take (Z.to_nat first_truncate_in_offset) (offset_and_term_ s)), w).

(** The loop of [Load]: the code, the offset reached and the last index found.
    Every round adds at least the length of a header to the offset, so that the
    fuel [S file_size] is enough ([load_loop_total]). *)
Fixpoint load_loop (fuel : nat) (s : Segment) (w : World) (i entry_off file_size actual_last_index : Z)
    : option (Z * Z * Z * Segment * World) :=
  match fuel with
  | O => None
  | S fuel =>
      if file_size <=? entry_off then Some (0, entry_off, actual_last_index, s, w)
      else match LoadEntry s w i entry_off false with
           | (Code rc, w) =>
               if 0 <? rc then Some (0, entry_off, actual_last_index, s, w)
               else Some (rc, entry_off, actual_last_index, s, w)
           | (Loaded header _, w) =>
               let skip_len := kEntryHeaderLength + data_len header in
               if file_size <? entry_off + skip_len then Some (0, entry_off, actual_last_index, s, w)
               else load_loop fuel
                      (set_index s (bytes_ s) (last_index_ s) (offset_and_term_ s ++ [(entry_off, term header)]))
                      w (i + 1) (entry_off + skip_len) file_size (actual_last_index + 1)
           end
  end.

Definition Load (s : Segment) (w : World) : option (Z * Segment * World) :=
  match sys_open w (GetPath s (is_open_ s)) with
  | (None, w) => Some (-1, s, w)
  | (Some fd, w) =>
      match sys_fstat w fd with
      | (None, w) => Some (-1, set_fd s None, w)
      | (Some file_size, w) =>
          let s := set_fd s (Some fd) in
          '(ret, entry_off, actual_last_index, s, w) ←
            load_loop (S (Z.to_nat file_size)) s w (first_index_ s) 0 file_size (first_index_ s - 1);
          if negb (ret =? 0) then Some (ret, s, w)
          else
            let s := if is_open_ s then set_index s (bytes_ s) actual_last_index (offset_and_term_ s) else s in
            let '(ret, w) := if negb (entry_off =? file_size) then truncate_fd w (fd_ s) entry_off else (ret, w) in
            let '(_, fd, w) := lseek w (fd_ s) entry_off in
            let s := set_fd s fd in
            Some (ret, set_index s entry_off (last_index_ s) (offset_and_term_ s), w)
      end
  end.
End env.
