(* ===== verification/MraftSegmentSpec.v ===== *)
(** * MraftSegmentSpec: a segment is a list of entries

    The relation between a segment, its file and its entries, and the operations. *)

From S2P Require Import Prelude MraftOs MraftEntry MraftSegment.

(** * A segment holds a list of entries

    [seg_rel w s fd es]: the segment [s] has the file of [fd] open, the file has
    the bytes of the entries [es] and nothing else, and the index in memory
    agrees with it.  The lemmas give the result of every method on such a
    segment: [Get] reads the list, [Append] extends it, [Truncate] shortens it,
    [Load] builds the index from the file. *)

(** Computes the fields of a segment that is written out. *)
Ltac seg_simpl :=
  unfold set_fd, set_index, set_is_open;
  cbn [path_ bytes_ fd_ is_open_ first_index_ last_index_ offset_and_term_].
Tactic Notation "seg_simpl" "in" "*" :=
  unfold set_fd, set_index, set_is_open in *;
  cbn [path_ bytes_ fd_ is_open_ first_index_ last_index_ offset_and_term_] in *.

Lemma pread_calm w fd n off :
  calm w → pread w (Some fd) n off = (Some (take (Z.to_nat n) (drop (Z.to_nat off) (file_bytes w (fd_ino fd)))), w).
Proof. intros Hc. unfold pread, preadFull. by rewrite ask_calm. Qed.

Section spec.
Context `{OutsideLaws}.
Implicit Types (w : World) (s : Segment) (e : LogEntry) (es : list LogEntry).

(** The bytes of a list of entries and what the index keeps of it. *)
Definition log_bytes es : list Z := es ≫= entry_bytes.
Fixpoint offsets (off : Z) es : list (Z * Z) :=
  match es with
  | [] => []
  | e :: es => (off, Term e) :: offsets (off + kEntryHeaderLength + DataLength e) es
  end.
Definition log_size es : Z := Z.of_nat (length (log_bytes es)).

(** The entries have the indices [first], [first + 1], ... *)
Definition indexed (first : Z) es : Prop :=
  ∀ k e, es !! k = Some e → Index e = first + Z.of_nat k.

Record seg_rel w s fd es : Prop := {
  sr_fd : fd_ s = Some fd;
  sr_file : inodes w !! fd_ino fd = Some (log_bytes es);
  sr_pos : is_open_ s = true → fd_pos fd = log_size es;
  sr_bytes : bytes_ s = log_size es;
  sr_last : last_index_ s = first_index_ s + Z.of_nat (length es) - 1;
  sr_offsets : offset_and_term_ s = offsets 0 es;
  sr_ok : Forall entry_ok es;
  sr_indexed : indexed (first_index_ s) es
}.

(** ** Lists of entries *)

Lemma log_bytes_app es1 es2 : log_bytes (es1 ++ es2) = log_bytes es1 ++ log_bytes es2.
Proof. apply bind_app. Qed.
Lemma log_bytes_snoc es e : log_bytes (es ++ [e]) = log_bytes es ++ entry_bytes e.
Proof. rewrite log_bytes_app. cbn. by rewrite app_nil_r. Qed.

Lemma log_size_cons e es : log_size (e :: es) = kEntryHeaderLength + DataLength e + log_size es.
Proof.
  unfold log_size, log_bytes. cbn [mbind list_bind]. rewrite length_app, Nat2Z.inj_add, entry_bytes_length. done.
Qed.
Lemma log_size_snoc es e : log_size (es ++ [e]) = log_size es + kEntryHeaderLength + DataLength e.
Proof.
  unfold log_size. rewrite log_bytes_snoc, length_app, Nat2Z.inj_add, entry_bytes_length.
  unfold kEntryHeaderLength. lia.
Qed.
Lemma log_size_nonneg es : 0 <= log_size es.
Proof. unfold log_size. lia. Qed.

Lemma offsets_app off es1 es2 : offsets off (es1 ++ es2) = offsets off es1 ++ offsets (off + log_size es1) es2.
Proof.
  revert off. induction es1 as [|e es1 IH]; intros off; cbn [offsets app].
  - unfold log_size. cbn. by rewrite Z.add_0_r.
  - rewrite IH, log_size_cons. do 3 f_equal. lia.
Qed.
Lemma offsets_length off es : length (offsets off es) = length es.
Proof. revert off. induction es; intros; cbn; auto. Qed.

Lemma offsets_lookup es k e :
  es !! k = Some e → offsets 0 es !! k = Some (log_size (take k es), Term e).
Proof.
  intros Hk. rewrite <-(take_drop_middle es k e Hk) at 1. rewrite offsets_app.
  assert (k < length es)%nat by (by eapply lookup_lt_Some).
  rewrite lookup_app_r; rewrite offsets_length, length_take_le by lia; [|done].
  by rewrite Nat.sub_diag.
Qed.

Lemma offsets_take es k : take k (offsets 0 es) = offsets 0 (take k es).
Proof.
  rewrite <-(take_drop k es) at 1. rewrite offsets_app, take_app.
  rewrite offsets_length, length_take.
  destruct (decide (k <= length es)%nat).
  - rewrite Nat.min_l, Nat.sub_diag by lia. cbn. rewrite app_nil_r, take_ge; [done|].
    rewrite offsets_length, length_take. lia.
  - rewrite Nat.min_r by lia. rewrite (drop_ge es) by lia. cbn. rewrite take_nil, app_nil_r, take_ge; [done|].
    rewrite offsets_length, length_take. lia.
Qed.

Lemma log_bytes_split es k e :
  es !! k = Some e →
  log_bytes es = log_bytes (take k es) ++ entry_bytes e ++ log_bytes (drop (S k) es).
Proof.
  intros Hk. rewrite <-(take_drop_middle es k e Hk) at 1. rewrite log_bytes_app. done.
Qed.

Lemma indexed_snoc first es e :
  indexed first es → Index e = first + Z.of_nat (length es) → indexed first (es ++ [e]).
Proof.
  intros Hi He k e' [Hk|[Hk ?]]%lookup_app_Some; [by apply Hi|].
  destruct (k - length es)%nat eqn:E; [|done]. assert (k = length es) as -> by lia. by simplify_eq/=.
Qed.
Lemma indexed_take first es k : indexed first es → indexed first (take k es).
Proof. intros Hi j e [Hj _]%lookup_take_Some. by apply Hi. Qed.

(** ** Reading one entry *)

Lemma header_of_ok e :
  entry_ok e →
  term (header_of e) = Term e ∧ type (header_of e) = Type_ e ∧ data_len (header_of e) = DataLength e ∧
  is_u32 (data_checksum (header_of e)).
Proof.
  intros (Ht & Hy & Hl). assert (0 <= DataLength e) by (unfold DataLength; lia).
  unfold header_of. destruct (Z.ltb_spec 0 (DataLength e)); cbn; unfold Type8.
  - rewrite u8_id by done. rewrite u32_id by (unfold is_u32; lia). repeat split; apply crc32_u32.
  - rewrite u8_id by done. repeat split; lia.
Qed.

(** The header that is read back from the bytes of an entry. *)
Definition stored_header e : EntryHeader :=
  let h := header_of e in
  mkHeader (Term e) (Type_ e) (DataLength e) (data_checksum h)
           (crc32 (take 20 (Encode h (uninitialised (Index e))))).

Lemma Decode_entry e r :
  entry_ok e → Decode (Encode (header_of e) (uninitialised (Index e)) ++ r) = stored_header e.
Proof.
  intros Hok. destruct (header_of_ok e Hok) as (E1 & E2 & E3 & Hu). destruct Hok as (? & ? & ?).
  rewrite Decode_Encode; [by rewrite E1, E2, E3| by rewrite E1 |by rewrite E2| |done].
  rewrite E3. unfold is_u32, DataLength in *. lia.
Qed.

Section at_entry.
Context (w : World) (s : Segment) (fd : Fd) (e : LogEntry) (pre post : list Z).
Context (Hcalm : calm w) (Hfd : fd_ s = Some fd) (Hok : entry_ok e).
Context (Hfile : file_bytes w (fd_ino fd) = pre ++ Encode (header_of e) (uninitialised (Index e)) ++ post).

Lemma pread_header :
  pread w (fd_ s) kEntryHeaderLength (Z.of_nat (length pre))
  = (Some (Encode (header_of e) (uninitialised (Index e))), w).
Proof using All.
  rewrite Hfd, pread_calm, Hfile, Nat2Z.id, drop_app_length by done.
  rewrite take_app_at; [done|apply Encode_length].
Qed.

Lemma header_verified :
  let buf := Encode (header_of e) (uninitialised (Index e)) in
  Decode buf = stored_header e ∧ verify_checksum (take 20 buf) (header_checksum (stored_header e)) = true.
Proof using Hok H0.
  intros buf. split; [|apply Z.eqb_refl]. unfold buf.
  rewrite <-(app_nil_r (Encode _ _)). by apply Decode_entry.
Qed.

Lemma LoadEntry_header index :
  LoadEntry s w index (Z.of_nat (length pre)) false = (Loaded (stored_header e) None, w).
Proof using All.
  unfold LoadEntry. rewrite pread_header, Encode_length.
  destruct header_verified as [-> ->]. done.
Qed.

Lemma LoadEntry_data index post2 :
  post = Data e ++ post2 →
  LoadEntry s w index (Z.of_nat (length pre)) true
  = (Loaded (stored_header e) (Some (mkEntry index (Term e) (Type_ e) (Data e))), w).
Proof using All.
  intros Hpost. unfold LoadEntry. rewrite pread_header, Encode_length.
  destruct header_verified as [-> ->].
  change (Z.of_nat 24 =? kEntryHeaderLength) with true. cbn [negb data_len stored_header term type data_checksum].
  destruct (Z.ltb_spec 0 (DataLength e)) as [Hd|Hd].
  - rewrite Hfd, pread_calm, Hfile, Hpost by done.
    replace (Z.to_nat (Z.of_nat (length pre) + kEntryHeaderLength)) with (length pre + 24)%nat
      by (unfold kEntryHeaderLength; lia).
    rewrite <-drop_drop, drop_app_length.
    rewrite drop_app_at, take_app_at by (apply Encode_length || by unfold DataLength; rewrite Nat2Z.id).
    change (Z.of_nat (length (Data e))) with (DataLength e). rewrite Z.eqb_refl. cbn [negb].
    unfold header_of, verify_checksum, get_checksum. rewrite (proj2 (Z.ltb_lt _ _) Hd).
    cbn [data_checksum]. rewrite Z.eqb_refl. done.
  - unfold DataLength in Hd. destruct (Data e) eqn:E; [|cbn in Hd; lia].
    done.
Qed.
End at_entry.

(** A whole entry in the file. *)
Lemma LoadEntry_entry w s fd e pre post index data :
  calm w → fd_ s = Some fd → entry_ok e →
  file_bytes w (fd_ino fd) = pre ++ entry_bytes e ++ post →
  LoadEntry s w index (Z.of_nat (length pre)) data
  = (Loaded (stored_header e)
            (if data then Some (mkEntry index (Term e) (Type_ e) (Data e)) else None), w).
Proof.
  intros Hc Hfd Hok Hfile. unfold entry_bytes in Hfile. rewrite <-app_assoc in Hfile.
  destruct data; [by eapply LoadEntry_data|by eapply LoadEntry_header].
Qed.
End spec.

(** * The methods of a segment that holds a list of entries

    For a segment with [seg_rel], what each method returns and the list the
    segment holds afterwards; and what a failed write does to it. *)

Section ops.
Context `{OutsideLaws}.
Implicit Types (w : World) (s : Segment) (fd : Fd) (e : LogEntry) (es : list LogEntry).

Lemma seg_file_bytes w s fd es : seg_rel w s fd es → file_bytes w (fd_ino fd) = log_bytes es.
Proof. intros R. unfold file_bytes. by rewrite (sr_file _ _ _ _ R). Qed.

Lemma seg_open_last w s fd es : seg_rel w s fd es → last_index_ s + 1 = first_index_ s + Z.of_nat (length es).
Proof. intros R. rewrite (sr_last _ _ _ _ R). lia. Qed.

(** ** Reading *)

(** The entry with the index [i] of a list that starts with the index [first]. *)
Definition entry_at (first : Z) es (i : Z) : option LogEntry :=
  if i <? first then None else es !! Z.to_nat (i - first).

Lemma entry_at_Some first es i e :
  entry_at first es i = Some e ↔ first <= i ∧ es !! Z.to_nat (i - first) = Some e.
Proof. unfold entry_at. destruct (Z.ltb_spec i first); split; intros; destruct_and?; (done || lia). Qed.

Lemma seg_meta_in w s fd es i e :
  seg_rel w s fd es → entry_at (first_index_ s) es i = Some e →
  ∃ m, GetMeta s i = Some (Some m) ∧
       meta_offset m = log_size (take (Z.to_nat (i - first_index_ s)) es) ∧
       meta_length m = kEntryHeaderLength + DataLength e ∧ meta_term m = Term e.
Proof.
  intros R [Hi Hk]%entry_at_Some. pose proof (lookup_lt_Some _ _ _ Hk) as Hlt.
  pose proof (sr_last _ _ _ _ R) as Hlast. unfold GetMeta.
  destruct (Z.ltb_spec (last_index_ s) i); [lia|].
  destruct (Z.ltb_spec i (first_index_ s)); [lia|].
  destruct (Z.eqb_spec (last_index_ s) (first_index_ s - 1)); [lia|]. cbn [orb].
  set (k := Z.to_nat (i - first_index_ s)) in *.
  assert (offset_and_term_at s (i - first_index_ s) = Some (log_size (take k es), Term e)) as ->.
  { unfold offset_and_term_at. destruct (Z.ltb_spec (i - first_index_ s) 0); [lia|].
    rewrite (sr_offsets _ _ _ _ R). by apply offsets_lookup. }
  cbn [mbind option_bind fst snd].
  assert (log_size (take (S k) es) = log_size (take k es) + kEntryHeaderLength + DataLength e) as Hnext.
  { rewrite (take_S_r _ _ _ Hk). apply log_size_snoc. }
  destruct (Z.ltb_spec i (last_index_ s)) as [Hl|Hl].
  - destruct (lookup_lt_is_Some_2 es (S k)) as [e' He']; [lia|].
    unfold offset_and_term_at. destruct (Z.ltb_spec (i - first_index_ s + 1) 0); [lia|].
    replace (Z.to_nat (i - first_index_ s + 1)) with (S k) by lia.
    rewrite (sr_offsets _ _ _ _ R), (offsets_lookup _ _ _ He').
    cbn. eexists; split_and!; [done|done| |done]. cbn. lia.
  - eexists; split_and!; [done|done| |done]. cbn. rewrite (sr_bytes _ _ _ _ R).
    rewrite <-(take_ge es (S k)) at 1 by lia. lia.
Qed.

Lemma seg_meta_out w s fd es i :
  seg_rel w s fd es → entry_at (first_index_ s) es i = None → GetMeta s i = Some None.
Proof.
  intros R Hn. pose proof (sr_last _ _ _ _ R) as Hlast. unfold GetMeta.
  destruct (Z.ltb_spec (last_index_ s) i); [done|]. unfold entry_at in Hn.
  destruct (Z.ltb_spec i (first_index_ s)); [done|].
  apply lookup_ge_None in Hn. lia.
Qed.

Lemma GetTerm_exact w s fd es i :
  seg_rel w s fd es → GetTerm s i = Some (from_option Term 0 (entry_at (first_index_ s) es i)).
Proof.
  intros R. unfold GetTerm. destruct (entry_at (first_index_ s) es i) as [e|] eqn:E.
  - destruct (seg_meta_in _ _ _ _ _ _ R E) as (m & -> & _ & _ & Ht). cbn. by rewrite Ht.
  - by rewrite (seg_meta_out _ _ _ _ _ R E).
Qed.

Lemma Get_exact w s fd es i :
  calm w → seg_rel w s fd es → Get s w i = Some (entry_at (first_index_ s) es i, w).
Proof.
  intros Hc R. unfold Get. destruct (entry_at (first_index_ s) es i) as [e|] eqn:E.
  2: by rewrite (seg_meta_out _ _ _ _ _ R E).
  destruct (seg_meta_in _ _ _ _ _ _ R E) as (m & -> & Ho & _ & _). cbn [mbind option_bind].
  apply entry_at_Some in E as [Hi Hk]. rewrite Ho. unfold log_size.
  erewrite LoadEntry_entry; [|done|apply R|eapply Forall_lookup_1; [apply R|done]|].
  2: { rewrite (seg_file_bytes _ _ _ _ R). by apply log_bytes_split. }
  do 2 f_equal. pose proof (sr_indexed _ _ _ _ R _ _ Hk). destruct e; cbn in *. f_equal. f_equal. lia.
Qed.

(** ** Writing *)

Definition appended s fd e : Segment :=
  set_index (set_fd s (Some (mkFd (fd_ino fd) (fd_pos fd + kEntryHeaderLength + DataLength e))))
            (bytes_ s + kEntryHeaderLength + DataLength e) (last_index_ s + 1)
            (offset_and_term_ s ++ [(bytes_ s, Term e)]).

Lemma Append_result w s fd es e :
  calm w → seg_rel w s fd es → is_open_ s = true → entry_ok e → Index e = last_index_ s + 1 →
  Append s w e = (0, appended s fd e, set_inode w (fd_ino fd) (log_bytes (es ++ [e]))).
Proof.
  intros Hc R Ho Hok Hi. destruct (header_of_ok e Hok) as (_ & _ & Hdl & _).
  unfold Append. rewrite Ho, Hi, Z.eqb_refl. cbn [negb].
  rewrite (sr_fd _ _ _ _ R), Hdl. unfold writev, writevFull. rewrite ask_calm by done.
  rewrite (sr_pos _ _ _ _ R Ho), (seg_file_bytes _ _ _ _ R), entry_bytes_length.
  change 24 with kEntryHeaderLength. rewrite Z.eqb_refl. cbn [negb].
  unfold log_size. rewrite Nat2Z.id, overwrite_end, <-log_bytes_snoc. unfold appended.
  rewrite (sr_pos _ _ _ _ R Ho), !Z.add_assoc. done.
Qed.

Lemma Append_rel w s fd es e :
  seg_rel w s fd es → is_open_ s = true → entry_ok e → Index e = last_index_ s + 1 →
  seg_rel (set_inode w (fd_ino fd) (log_bytes (es ++ [e]))) (appended s fd e)
          (mkFd (fd_ino fd) (fd_pos fd + kEntryHeaderLength + DataLength e)) (es ++ [e]).
Proof.
  intros R Ho Hok Hi. pose proof (sr_last _ _ _ _ R). constructor; cbn.
  - done.
  - by rewrite lookup_insert_eq.
  - intros _. by rewrite (sr_pos _ _ _ _ R Ho), log_size_snoc.
  - by rewrite (sr_bytes _ _ _ _ R), log_size_snoc.
  - rewrite length_app. cbn. lia.
  - rewrite (sr_offsets _ _ _ _ R), offsets_app, (sr_bytes _ _ _ _ R). done.
  - apply Forall_app; split; [apply R|by apply Forall_singleton].
  - apply indexed_snoc; [apply R|]. lia.
Qed.

(** An entry that does not follow, or a closed segment: nothing happens. *)
Lemma Append_refused w s e :
  is_open_ s = false ∨ Index e ≠ last_index_ s + 1 →
  Append s w e = (if is_open_ s then ERANGE else EINVAL, s, w).
Proof.
  intros Hr. unfold Append. destruct (is_open_ s); cbn; [|done].
  destruct Hr as [?|Hr]; [done|]. by rewrite (proj2 (Z.eqb_neq _ _) Hr).
Qed.

(** ** Frame: the segment of another file, and other names. *)

Lemma seg_rel_frame w w' s fd es :
  seg_rel w s fd es → inodes w' !! fd_ino fd = inodes w !! fd_ino fd → seg_rel w' s fd es.
Proof. intros R E. destruct R. constructor; [done|congruence|done..]. Qed.

(** ** Closing and reopening *)

Lemma Close_result w s i :
  calm w → is_open_ s = true → names w !! GetPath s true = Some i → ∀ sync,
  Close s w sync
  = (0, set_is_open s false, set_names w (<[GetPath s false := i]> (delete (GetPath s true) (names w)))).
Proof.
  intros Hc Ho Hn sync. unfold Close, Sync. rewrite Ho. cbn [negb].
  assert ((if first_index_ s <? last_index_ s then if sync then 0 else 0 else 0) = 0) as ->
    by (destruct (_ <? _), sync; done).
  cbn. unfold sys_rename. by rewrite ask_calm, Hn.
Qed.

Lemma closed_rel w s fd es : seg_rel w s fd es → seg_rel w (set_is_open s false) fd es.
Proof. intros []. by constructor. Qed.

(** ** Truncating *)

Definition truncated s fd es (kept : Z) : Segment :=
  let n := Z.to_nat (kept + 1 - first_index_ s) in
  set_index (set_fd (set_is_open s true) (Some (mkFd (fd_ino fd) (log_size (take n es)))))
            (log_size (take n es)) kept (offsets 0 (take n es)).

(** The names after the truncation: a closed segment is open again. *)
Definition truncated_names w s : gmap string nat :=
  if is_open_ s then names w
  else match names w !! GetPath s false with
       | Some i => <[GetPath s true := i]> (delete (GetPath s false) (names w))
       | None => names w
       end.

Lemma take_log_bytes es k : take (length (log_bytes (take k es))) (log_bytes es) = log_bytes (take k es).
Proof.
  rewrite <-(take_drop k es) at 2. by rewrite log_bytes_app, take_app_length.
Qed.

Lemma Truncate_result w s fd es kept :
  calm w → seg_rel w s fd es → is_Some (names w !! GetPath s (is_open_ s)) →
  first_index_ s - 1 <= kept < last_index_ s →
  Truncate s w kept
  = Some (0, truncated s fd es kept,
          set_inode (set_names w (truncated_names w s)) (fd_ino fd)
            (log_bytes (take (Z.to_nat (kept + 1 - first_index_ s)) es))).
Proof.
  intros Hc R [i Hn] Hk. unfold Truncate. pose proof (sr_last _ _ _ _ R) as Hl.
  destruct (Z.leb_spec (last_index_ s) kept); [lia|].
  set (n := Z.to_nat (kept + 1 - first_index_ s)).
  destruct (lookup_lt_is_Some_2 es n) as [e He]; [lia|].
  assert (offset_and_term_at s (kept + 1 - first_index_ s) = Some (log_size (take n es), Term e)) as ->.
  { unfold offset_and_term_at. destruct (Z.ltb_spec (kept + 1 - first_index_ s) 0); [lia|].
    rewrite (sr_offsets _ _ _ _ R). by apply offsets_lookup. }
  cbn [fmap option_fmap option_map fst mbind option_bind].
  assert (∃ s1 w1, (if negb (is_open_ s) then
        let '(ret, w) := sys_rename w (GetPath s false) (GetPath s true) in
        (ret, (if ret =? 0 then set_is_open s true else s), w)
      else (0, s, w)) = (0, s1, w1) ∧ s1 = set_is_open s true ∧ w1 = set_names w (truncated_names w s))
    as (s1 & w1 & -> & -> & ->).
  { unfold truncated_names. destruct (is_open_ s) eqn:Ho; cbn [negb].
    - do 2 eexists; split_and!; [done| |by destruct w]. by destruct s; cbn in *; subst.
    - unfold sys_rename. rewrite ask_calm, Hn by done. cbn. by do 2 eexists. }
  cbn [negb Z.eqb set_is_open fd_]. rewrite (sr_fd _ _ _ _ R). cbn [truncate_fd].
  unfold ftruncate. rewrite ask_calm by done. cbn [Z.ltb Z.compare].
  unfold lseek, sys_lseek. rewrite ask_calm by done. cbn [set_fd].
  destruct (Z.ltb_spec (log_size (take n es)) 0) as [Hneg|_].
  { pose proof (log_size_nonneg (take n es)). lia. }
  f_equal. f_equal; [f_equal|].
  - unfold truncated, set_index, set_fd, set_is_open. cbn. by rewrite (sr_offsets _ _ _ _ R), offsets_take.
  - f_equal. change (file_bytes (set_names w (truncated_names w s)) (fd_ino fd)) with (file_bytes w (fd_ino fd)).
    rewrite (seg_file_bytes _ _ _ _ R). unfold log_size. rewrite Nat2Z.id.
    rewrite take_app_le, take_log_bytes; [done|].
    rewrite <-(take_drop n es) at 2. rewrite log_bytes_app, length_app. lia.
Qed.

Lemma Truncate_rel w s fd es kept :
  seg_rel w s fd es → first_index_ s - 1 <= kept < last_index_ s →
  let n := Z.to_nat (kept + 1 - first_index_ s) in
  seg_rel (set_inode (set_names w (truncated_names w s)) (fd_ino fd) (log_bytes (take n es)))
          (truncated s fd es kept) (mkFd (fd_ino fd) (log_size (take n es))) (take n es).
Proof.
  intros R Hk n. pose proof (sr_last _ _ _ _ R) as Hl. constructor; cbn; try done.
  - by rewrite lookup_insert_eq.
  - rewrite length_take_le by lia. lia.
  - apply Forall_take, R.
  - apply indexed_take, R.
Qed.
End ops.
