(* ===== verification/MraftRecovery.v ===== *)
(** * MraftRecovery: loading a segment from its file

    [Load] ends on every file.  On a file that has the bytes of entries and then
    a part of one more, as a process leaves it that dies in a write, it builds
    the index of the entries and cuts the part off; on a file with a header whose
    checksum is wrong it returns -1. *)

From S2P Require Import Prelude MraftOs MraftEntry MraftSegment MraftSegmentSpec.

Section load.
Context `{Outside}.
Implicit Types (w : World) (s : Segment) (fd : Fd) (e : LogEntry) (es : list LogEntry).

Lemma LoadEntry_data_len s w i off d h x w' :
  LoadEntry s w i off d = (Loaded h x, w') → 0 <= data_len h.
Proof.
  unfold LoadEntry. intros E. repeat case_match; simplify_eq; apply u32_range.
Qed.

Lemma load_loop_total fuel s w i off size last :
  (Z.to_nat (size - off) < fuel)%nat → is_Some (load_loop fuel s w i off size last).
Proof.
  revert s w i off last. induction fuel as [|fuel IH]; intros s w i off last Hf; [lia|].
  cbn [load_loop]. destruct (Z.leb_spec size off); [done|].
  destruct (LoadEntry s w i off false) as [[rc|h x] w'] eqn:E; [by destruct (0 <? rc)|].
  apply LoadEntry_data_len in E. destruct (_ <? _); [done|]. apply IH.
  unfold kEntryHeaderLength. lia.
Qed.

(** [Segment::Load] ends and has a defined result on every file, whatever
    the file holds and whichever calls fail: its loop advances by a header at
    least. *)
Theorem Load_total s w : is_Some (Load s w).
Proof.
  unfold Load. destruct (sys_open _ _) as [[fd|] w1]; [|done].
  destruct (sys_fstat w1 fd) as [[size|] w2]; [|done].
  edestruct load_loop_total as [[[[[ret off] last] s'] w3] ->].
  2: { cbn [mbind option_bind]. destruct (negb (ret =? 0)); [done|].
       destruct (if negb (off =? size) then _ else _) as [ret' w4].
       by destruct (lseek _ _ _) as [[? ?] ?]. }
  lia.
Qed.

(** The part of an entry that a failed write leaves. *)
Definition torn (t : list Z) : Prop :=
  ∃ e u, entry_ok e ∧ u ≠ [] ∧ entry_bytes e = t ++ u.

Section laws.
Context `{!OutsideLaws}.

Lemma torn_nil : torn [].
Proof.
  set (e := mkEntry 0 0 0 []). exists e, (entry_bytes e). split_and!; [by vm_compute| |done].
  intros E. pose proof (entry_bytes_length e) as Hl. by rewrite E in Hl.
Qed.

(** The loop stops at a torn entry without an error. *)
Lemma load_torn w s fd pre t fuel i last :
  calm w → fd_ s = Some fd → torn t → file_bytes w (fd_ino fd) = pre ++ t →
  load_loop (S fuel) s w i (Z.of_nat (length pre)) (Z.of_nat (length (pre ++ t))) last
  = Some (0, Z.of_nat (length pre), last, s, w).
Proof.
  intros Hc Hfd (e & u & Hok & Hu & Ht) Hfile. cbn [load_loop].
  destruct (Z.leb_spec (Z.of_nat (length (pre ++ t))) (Z.of_nat (length pre))) as [|Hlt]; [done|].
  rewrite length_app in *.
  destruct (decide (length t < 24)%nat) as [Hs|Hs].
  - unfold LoadEntry. rewrite Hfd, pread_calm, Hfile, Nat2Z.id, drop_app_length by done.
    rewrite take_ge by (unfold kEntryHeaderLength; lia). unfold kEntryHeaderLength.
    by rewrite (proj2 (Z.eqb_neq (Z.of_nat (length t)) 24)) by lia.
  - assert (∃ d, t = Encode (header_of e) (uninitialised (Index e)) ++ d) as [d ->].
    { exists (drop 24 t). unfold entry_bytes in Ht.
      rewrite <-(take_drop 24 t) at 1. f_equal.
      rewrite <-(take_app_at 24 (Encode (header_of e) (uninitialised (Index e))) (Data e)) by apply Encode_length.
      by rewrite Ht, take_app_le by lia. }
    erewrite LoadEntry_header by done. cbn [data_len stored_header].
    pose proof (entry_bytes_length e) as Hlen. rewrite Ht, length_app in Hlen.
    assert (length u ≠ 0%nat) by (by destruct u).
    destruct (Z.ltb_spec (Z.of_nat (length pre + length (Encode (header_of e) (uninitialised (Index e)) ++ d)))
                (Z.of_nat (length pre) + (kEntryHeaderLength + DataLength e))); [done|].
    unfold kEntryHeaderLength in *. lia.
Qed.

Lemma load_entries w fd es pre t fuel s i last :
  calm w → fd_ s = Some fd → torn t → Forall entry_ok es → (length es < fuel)%nat →
  file_bytes w (fd_ino fd) = pre ++ log_bytes es ++ t →
  load_loop fuel s w i (Z.of_nat (length pre)) (Z.of_nat (length (pre ++ log_bytes es ++ t))) last
  = Some (0, Z.of_nat (length pre) + log_size es, last + Z.of_nat (length es),
          set_index s (bytes_ s) (last_index_ s) (offset_and_term_ s ++ offsets (Z.of_nat (length pre)) es), w).
Proof.
  intros Hc. revert pre fuel s i last.
  induction es as [|e es IH]; intros pre fuel s i last Hfd Ht Hok Hf Hfile.
  - destruct fuel as [|fuel]; [lia|]. cbn [log_bytes mbind list_bind app] in Hfile |- *.
    erewrite load_torn by done. unfold log_size. cbn. rewrite !Z.add_0_r, app_nil_r. by destruct s.
  - destruct fuel as [|fuel]; [cbn in Hf; lia|]. apply Forall_cons in Hok as [He Hok].
    unfold log_bytes in Hfile |- *. cbn [mbind list_bind] in Hfile |- *. rewrite <-app_assoc in Hfile |- *.
    fold (log_bytes es) in Hfile |- *. cbn [load_loop].
    pose proof (entry_bytes_length e) as Hlen.
    destruct (Z.leb_spec (Z.of_nat (length (pre ++ entry_bytes e ++ log_bytes es ++ t)))
                (Z.of_nat (length pre))) as [Hle|_].
    { rewrite !length_app in Hle. unfold DataLength in *. lia. }
    erewrite LoadEntry_entry by done. cbn [data_len stored_header term].
    destruct (Z.ltb_spec (Z.of_nat (length (pre ++ entry_bytes e ++ log_bytes es ++ t)))
                (Z.of_nat (length pre) + (kEntryHeaderLength + DataLength e))) as [Hlt|_].
    { rewrite !length_app in Hlt. unfold kEntryHeaderLength in *. lia. }
    replace (Z.of_nat (length pre) + (kEntryHeaderLength + DataLength e))
      with (Z.of_nat (length (pre ++ entry_bytes e)))
      by (rewrite length_app; unfold kEntryHeaderLength; lia).
    rewrite app_assoc in Hfile |- *.
    rewrite IH; [|done|done|done|cbn in Hf; lia|done].
    rewrite log_size_cons. cbn [offsets length set_index path_ bytes_ fd_ is_open_ first_index_ last_index_ offset_and_term_].
    rewrite <-app_assoc. cbn [app]. rewrite length_app, Nat2Z.inj_add, Hlen.
    unfold kEntryHeaderLength. rewrite (Z.add_assoc (Z.of_nat (length pre)) 24).
    f_equal. repeat match goal with |- (_, _) = (_, _) => f_equal end; lia.
Qed.

Definition loaded_segment s fd es : Segment :=
  mkSegment (path_ s) (log_size es) (Some (mkFd (fd_ino fd) (log_size es))) (is_open_ s) (first_index_ s)
    (if is_open_ s then first_index_ s + Z.of_nat (length es) - 1 else last_index_ s) (offsets 0 es).

Lemma entries_fuel es t : (length es < S (length (log_bytes es ++ t)))%nat.
Proof.
  assert (length es <= length (log_bytes es))%nat as Hl; [|rewrite length_app; lia].
  induction es as [|e es IH]; [cbn; lia|]. pose proof (log_size_cons e es) as Hs.
  unfold log_size, DataLength, kEntryHeaderLength in Hs. cbn [length]. lia.
Qed.

Lemma Load_result w s i es t :
  calm w → names w !! GetPath s (is_open_ s) = Some i → offset_and_term_ s = [] →
  Forall entry_ok es → torn t → inodes w !! i = Some (log_bytes es ++ t) →
  ∃ w', Load s w = Some (0, loaded_segment s (mkFd i 0) es, w') ∧
        w' = (if bool_decide (t = []) then w else set_inode w i (log_bytes es)).
Proof.
  intros Hc Hn Hoff Hok Ht Hi. unfold Load, sys_open. rewrite ask_calm, Hn by done.
  unfold sys_fstat. rewrite ask_calm by done.
  assert (file_bytes w i = log_bytes es ++ t) as Hfile by (unfold file_bytes; by rewrite Hi).
  cbn [fd_ino]. rewrite Hfile, Nat2Z.id.
  pose proof (load_entries w (mkFd i 0) es [] t (S (length (log_bytes es ++ t))) (set_fd s (Some (mkFd i 0)))
    (first_index_ s) (first_index_ s - 1) Hc eq_refl Ht Hok (entries_fuel _ _) Hfile) as HL.
  cbn [app length Z.of_nat] in HL. change (Z.of_nat 0) with 0 in HL.
  change (first_index_ (set_fd s (Some (mkFd i 0)))) with (first_index_ s). rewrite HL. clear HL.
  destruct s as [p b f o first last offs]. seg_simpl in *. subst offs.
  cbn [mbind option_bind negb Z.eqb app]. rewrite Z.add_0_l.
  assert (log_size es = Z.of_nat (length (log_bytes es))) as Hsize by done.
  replace (first - 1 + Z.of_nat (length es)) with (first + Z.of_nat (length es) - 1) by lia.
  exists (if bool_decide (t = []) then w else set_inode w i (log_bytes es)); split; [|done].
  assert ((if negb (log_size es =? Z.of_nat (length (log_bytes es ++ t)))
           then truncate_fd w (Some (mkFd i 0)) (log_size es) else (0, w))
          = (0, if bool_decide (t = []) then w else set_inode w i (log_bytes es))) as Htr.
  { case_bool_decide as Hnil.
    - subst t. by rewrite app_nil_r, <-Hsize, Z.eqb_refl.
    - assert (length t ≠ 0%nat) by (by destruct t).
      rewrite (proj2 (Z.eqb_neq _ _)) by (rewrite Hsize, length_app; lia).
      unfold truncate_fd, ftruncate. rewrite ask_calm by done. cbn [fd_ino negb]. do 2 f_equal.
      rewrite Hfile, Hsize, Nat2Z.id, <-app_assoc. by rewrite take_app_length. }
  assert (calm (if bool_decide (t = []) then w else set_inode w i (log_bytes es))) by (by case_bool_decide).
  unfold loaded_segment. destruct o; seg_simpl; rewrite Htr; unfold lseek, sys_lseek;
    rewrite ask_calm by done; by seg_simpl.
Qed.

Lemma loaded_rel w s i es :
  Forall entry_ok es → indexed (first_index_ s) es → inodes w !! i = Some (log_bytes es) →
  (is_open_ s = false → last_index_ s = first_index_ s + Z.of_nat (length es) - 1) →
  seg_rel w (loaded_segment s (mkFd i 0) es) (mkFd i (log_size es)) es.
Proof.
  intros Hok Hix Hi Hl. constructor; cbn; try done.
  destruct (is_open_ s); [done|by apply Hl].
Qed.
End laws.
End load.
