(* ===== verification/MraftLog.v ===== *)
(** * MraftLog: the log of entries in segments (class [SegmentLogStorage], log_storage.cpp)

    The storage keeps the closed segments in a map from their first index, the
    segment it appends to, and the entries it was last given.  Segments are
    shared: the map, [open_segment_] and the local pointers of the methods lead to
    the same object, so the objects are in a [heap] and the storage has pointers.
    A method is a function of the state, [M]; [None] says that the source has no
    behaviour there, because a container is read outside its bounds or because a
    loop does not end, for the two loops that have a [fuel]
    ([TruncatePrefix] and [TruncateSuffix]).  The lock is not modelled: one
    thread runs. *)

From S2P Require Import Prelude MraftOs MraftEntry MraftPb MraftSegment.

(** ** utils.cpp *)

Definition has_prefix (str prefix : string) : bool :=
  if (String.length prefix =? 0)%nat then true
  else if (String.length str <? String.length prefix)%nat then false
  else bool_decide (String.index 0 prefix str = Some 0%nat).
Definition has_suffix (fullString ending : string) : bool :=
  if (String.length ending <=? String.length fullString)%nat
  then bool_decide (String.substring (String.length fullString - String.length ending)
                      (String.length ending) fullString = ending)
  else false.
(** [substr(n)]. *)
Definition substr (n : nat) (s : string) : string := String.substring n (String.length s - n) s.

(** ** An ordered map, [btree_map] *)

Fixpoint map_put {A} (k : Z) (v : A) (l : list (Z * A)) : list (Z * A) :=
  match l with
  | [] => [(k, v)]
  | (k', v') :: r =>
      if k <? k' then (k, v) :: l
      else if k =? k' then (k, v) :: r
      else (k', v') :: map_put k v r
  end.
Definition map_erase {A} (k : Z) (l : list (Z * A)) : list (Z * A) :=
  filter (λ p, p.1 ≠ k) l.
(** The entry before [upper_bound(k)]; there is none if every key is greater. *)
Definition map_floor {A} (k : Z) (l : list (Z * A)) : option A :=
  snd <$> last (filter (λ p, p.1 <= k) l).

Record Storage := mkStorage {
  log_path_ : string;
  segments_ : list (Z * nat);
  open_segment_ : option nat;
  last_log_index_ : Z;
  first_log_index_ : Z;
  latest_entries_cache_ : list LogEntry;
  latest_entry_ : option LogEntry;
  heap : gmap nat Segment;
  next_ptr : nat;
  world : World
}.

(** The constructor, in a world. *)
Definition new_storage (path : string) (w : World) : Storage :=
  mkStorage path [] None 1 0 [] None ∅ 0 w.

(** ** State passing *)

Definition M (A : Type) : Type := Storage → option (A * Storage).
Global Instance M_ret : MRet M := λ _ a st, Some (a, st).
Global Instance M_bind : MBind M := λ _ _ f m st,
  match m st with Some (a, st) => f a st | None => None end.

Definition get : M Storage := λ st, Some (st, st).
Definition undefined {A} : M A := λ _, None.
Definition modify (f : Storage → Storage) : M unit := λ st, Some (tt, f st).

Definition set_segments (l : list (Z * nat)) : M unit := modify (λ st,
  mkStorage (log_path_ st) l (open_segment_ st) (last_log_index_ st) (first_log_index_ st)
    (latest_entries_cache_ st) (latest_entry_ st) (heap st) (next_ptr st) (world st)).
Definition set_open (p : option nat) : M unit := modify (λ st,
  mkStorage (log_path_ st) (segments_ st) p (last_log_index_ st) (first_log_index_ st)
    (latest_entries_cache_ st) (latest_entry_ st) (heap st) (next_ptr st) (world st)).
Definition set_last (z : Z) : M unit := modify (λ st,
  mkStorage (log_path_ st) (segments_ st) (open_segment_ st) z (first_log_index_ st)
    (latest_entries_cache_ st) (latest_entry_ st) (heap st) (next_ptr st) (world st)).
Definition set_first (z : Z) : M unit := modify (λ st,
  mkStorage (log_path_ st) (segments_ st) (open_segment_ st) (last_log_index_ st) z
    (latest_entries_cache_ st) (latest_entry_ st) (heap st) (next_ptr st) (world st)).
Definition set_cache (c : list LogEntry) : M unit := modify (λ st,
  mkStorage (log_path_ st) (segments_ st) (open_segment_ st) (last_log_index_ st) (first_log_index_ st)
    c (latest_entry_ st) (heap st) (next_ptr st) (world st)).
Definition set_latest (e : option LogEntry) : M unit := modify (λ st,
  mkStorage (log_path_ st) (segments_ st) (open_segment_ st) (last_log_index_ st) (first_log_index_ st)
    (latest_entries_cache_ st) e (heap st) (next_ptr st) (world st)).
Definition set_object (p : nat) (s : Segment) : M unit := modify (λ st,
  mkStorage (log_path_ st) (segments_ st) (open_segment_ st) (last_log_index_ st) (first_log_index_ st)
    (latest_entries_cache_ st) (latest_entry_ st) (<[p := s]> (heap st)) (next_ptr st) (world st)).
Definition set_world (w : World) : M unit := modify (λ st,
  mkStorage (log_path_ st) (segments_ st) (open_segment_ st) (last_log_index_ st) (first_log_index_ st)
    (latest_entries_cache_ st) (latest_entry_ st) (heap st) (next_ptr st) w).

(** [make_shared]. *)
Definition make_shared (s : Segment) : M nat := λ st,
  Some (next_ptr st,
    mkStorage (log_path_ st) (segments_ st) (open_segment_ st) (last_log_index_ st) (first_log_index_ st)
      (latest_entries_cache_ st) (latest_entry_ st) (<[next_ptr st := s]> (heap st)) (S (next_ptr st)) (world st)).
Definition deref (p : nat) : M Segment := λ st, s ← heap st !! p; Some (s, st).

(** A system call, and a method of a segment that changes it. *)
Definition syscall {A} (f : World → A * World) : M A :=
  st ← get; let '(a, w) := f (world st) in set_world w;; mret a.
Definition seg_method {A} (p : nat) (f : Segment → World → option (A * Segment * World)) : M A :=
  s ← deref p; st ← get;
  match f s (world st) with
  | None => undefined
  | Some (a, s, w) => set_object p s;; set_world w;; mret a
  end.

(** The message [LogPBMeta] is its one field. *)
#[global] Instance LogPBMeta `{Outside} : Message Z := {|
  SerializeToZeroCopyStream := pb_serialize;
  ParseFromZeroCopyStream := pb_parse
|}.

Section env.
Context `{Outside} (FLAGS_raft_max_segment_size : Z).

(** ** Loading *)

Definition meta_file (st : Storage) : string := in_dir (log_path_ st) kSegmentLogMeta.

Definition SaveMeta (log_index : Z) : M Z :=
  st ← get;
  rc ← syscall (λ w, pb_write_file w (meta_file st) log_index);
  if negb (0 =? rc) then mret rc else mret 0.

(** The code and [is_empty]. *)
Definition LoadMeta : M (Z * bool) :=
  st ← get;
  match names (world st) !! meta_file st with
  | None => mret (0, true)
  | Some _ =>
      meta ← syscall (λ w, pb_read_file w (meta_file st));
      match meta with
      | Some first => set_first first;; mret (0, false)
      | None => mret (-1, false)
      end
  end.

(** The loop over the directory. *)
Fixpoint list_loop (is_empty : bool) (files : list string) : M Z :=
  match files with
  | [] => mret 0
  | file_name :: files =>
      if bool_decide (file_name = kSegmentLogMeta ∨ file_name = "."%string ∨ file_name = ".."%string)
      then list_loop is_empty files
      else if (is_empty && has_prefix file_name "log_") || has_suffix file_name ".tmp" then
        st ← get;
        syscall (λ w, sys_unlink w (in_dir (log_path_ st) file_name));;
        list_loop is_empty files
      else if has_prefix file_name kSegmentOpenPrefix then
        match to_int64 (substr (String.length kSegmentOpenPrefix) file_name) with
        | None => list_loop is_empty files
        | Some first_index =>
            st ← get;
            match open_segment_ st with
            | Some _ => mret (-1)
            | None =>
                p ← make_shared (open_segment (log_path_ st) first_index);
                set_open (Some p);;
                list_loop is_empty files
            end
        end
      else if has_prefix file_name kSegmentClosePrefix then
        match split (substr (String.length kSegmentClosePrefix) file_name) with
        | [a; b] =>
            match to_int64 a, to_int64 b with
            | Some first_index, Some last_index =>
                st ← get;
                p ← make_shared (closed_segment (log_path_ st) first_index last_index);
                set_segments (map_put first_index p (segments_ st));;
                list_loop is_empty files
            | _, _ => list_loop is_empty files
            end
        | _ => list_loop is_empty files
        end
      else list_loop is_empty files
  end.

Definition ListSegments (is_empty : bool) : M Z :=
  ok ← syscall sys_opendir;
  if negb ok then mret (-1)
  else st ← get; list_loop is_empty (readdir (world st) (log_path_ st)).

Fixpoint load_closed (l : list (Z * nat)) : M Z :=
  match l with
  | [] => mret 0
  | (_, p) :: l =>
      rc ← seg_method p Load;
      if negb (rc =? 0) then mret rc
      else s ← deref p; set_last (last_index_ s);; load_closed l
  end.

Definition LoadSegments : M Z :=
  st ← get;
  rc ← load_closed (segments_ st);
  if negb (rc =? 0) then mret rc
  else
    rc ← match open_segment_ st with
         | None => mret 0
         | Some p =>
             rc ← seg_method p Load;
             if negb (rc =? 0) then mret rc
             else
               s ← deref p; st ← get;
               if last_index_ s <? first_log_index_ st then
                 syscall (Unlink s);;
                 set_open None;; mret 0
               else set_last (last_index_ s);; mret 0
         end;
    if negb (rc =? 0) then mret rc
    else
      st ← get;
      (if last_log_index_ st =? 0 then set_last (first_log_index_ st - 1) else mret tt);;
      mret 0.

Definition Init : M Z :=
  if FLAGS_raft_max_segment_size <? 0 then mret (-1)
  else
    '(rc, is_empty) ← LoadMeta;
    if negb (0 =? rc) then mret (-1)
    else
      rc ← ListSegments is_empty;
      if negb (0 =? rc) then mret (-1)
      else if (is_empty : bool) then set_first 1;; set_last 0;; SaveMeta 1
      else
        rc ← LoadSegments;
        if negb (0 =? rc) then mret (-1) else mret 0.

(** ** Reading *)

(** [Some None] of [GetSegment] is the null pointer. *)
Definition GetSegment (index : Z) : M (option nat) :=
  st ← get;
  let first_index := first_log_index_ st in
  let last_index := last_log_index_ st in
  if first_index =? last_index + 1 then mret None
  else if (index <? first_index) || (last_index + 1 <? index) then mret None
  else if index =? last_index + 1 then mret None
  else
    o ← match open_segment_ st with
        | Some p => s ← deref p; mret (if first_index_ s <=? index then Some p else None)
        | None => mret None
        end;
    match o with
    | Some p => mret (Some p)
    | None =>
        match segments_ st with
        | [] => mret None
        | l => match map_floor index l with
               | Some p => mret (Some p)
               | None => undefined
               end
        end
    end.

(** The entry of the cache; [Some None] if the index is not in its range. *)
Definition cached (st : Storage) (index : Z) : option (option LogEntry) :=
  match latest_entries_cache_ st, last (latest_entries_cache_ st) with
  | e :: _, Some e' =>
      if (Index e <=? index) && (index <=? Index e')
      then c ← latest_entries_cache_ st !! Z.to_nat (index - Index e); Some (Some c)
      else Some None
  | _, _ => Some None
  end.

Definition GetEntry (index : Z) : M (option LogEntry) :=
  st ← get;
  match latest_entry_ st ≫= λ e, if Index e =? index then Some e else None with
  | Some e => mret (Some e)
  | None =>
      match cached st index with
      | None => undefined
      | Some (Some c) => mret (Some c)
      | Some None =>
          p ← GetSegment index;
          match p with
          | None => mret None
          | Some p => seg_method p (λ s w, '(r, w) ← Get s w index; Some (r, s, w))
          end
      end
  end.

(** The loop stops at the first null pointer. *)
Fixpoint GetBatchEntries (index : Z) (n : nat) : M (list LogEntry) :=
  match n with
  | O => mret []
  | S n =>
      entry ← GetEntry index;
      match entry with
      | None => mret []
      | Some e => vals ← GetBatchEntries (index + 1) n; mret (e :: vals)
      end
  end.

(** [LogStorage::GetTerm]. *)
Definition GetTermAt (index : Z) : M Z :=
  p ← GetSegment index;
  match p with
  | None => mret 0
  | Some p =>
      s ← deref p;
      match GetTerm s index with Some t => mret t | None => undefined end
  end.

(** ** Appending *)

(** The null pointer is [None]. *)
Definition GetOpenSegment : M (option nat) :=
  st ← get;
  prev_open_segment ←
    match open_segment_ st with
    | Some p =>
        s ← deref p;
        if FLAGS_raft_max_segment_size <? bytes_ s then
          set_segments (map_put (first_index_ s) p (segments_ st));;
          set_open None;; mret (Some p)
        else mret None
    | None => mret None
    end;
  st ← get;
  match open_segment_ st with
  | Some _ => mret tt
  | None =>
      p ← make_shared (open_segment (log_path_ st) (last_log_index_ st + 1));
      rc ← seg_method p (λ s w, Some (Create s w));
      if negb (rc =? 0) then set_open None else set_open (Some p)
  end;;
  match prev_open_segment with
  | None => st ← get; mret (open_segment_ st)
  | Some p =>
      rc ← seg_method p (λ s w, Some (Close s w true));
      if negb (0 =? rc) then
        s ← deref p; st ← get;
        set_segments (map_erase (first_index_ s) (segments_ st));;
        set_open (Some p);;
        mret None
      else st ← get; mret (open_segment_ st)
  end.

Definition AppendEntry (entry : LogEntry) : M Z :=
  segment ← GetOpenSegment;
  match segment with
  | None => mret EIO
  | Some p =>
      ret ← seg_method p (λ s w, Some (Append s w entry));
      if negb (ret =? 0) then mret ret
      else
        st ← get;
        set_cache (latest_entries_cache_ st ++ [entry]);;
        set_latest (Some entry);;
        set_last (last_log_index_ st + 1);;
        mret (Sync true)
  end.

(** ** Truncating *)

(** The loop over the closed segments of [PopSegments]: the segments that go,
    and whether it has returned.  The loop goes on with the iterator that
    [erase(it++)] has moved past the erased element, which is undefined unless
    iterators stay valid. *)
Fixpoint pop_closed (first_index_kept : Z) (l : list (Z * nat)) : M (list nat * bool) :=
  match l with
  | [] => mret ([], false)
  | (k, p) :: l =>
      s ← deref p;
      if last_index_ s <? first_index_kept then
        set_segments l;;
        if iterators_stay then
          '(popped, stop) ← pop_closed first_index_kept l;
          mret (p :: popped, stop)
        else undefined
      else mret ([], true)
  end.

Definition PopSegments (first_index_kept : Z) : M (list nat) :=
  set_first first_index_kept;;
  st ← get;
  '(popped, stop) ← pop_closed first_index_kept (segments_ st);
  if (stop : bool) then mret popped
  else
    st ← get;
    match open_segment_ st with
    | Some p =>
        s ← deref p;
        if last_index_ s <? first_index_kept then
          set_open None;; set_last (first_index_kept - 1);; mret (popped ++ [p])
        else mret popped
    | None => set_last (first_index_kept - 1);; mret popped
    end.

(** [Unlink] of each segment; the results are not used. *)
Fixpoint unlink_all (l : list nat) : M unit :=
  match l with
  | [] => mret tt
  | p :: l => s ← deref p; syscall (Unlink s);; unlink_all l
  end.

(** [while (!cache.empty()) if (cache[0].Index() < kept) cache.pop_front()]. *)
Fixpoint pop_front_loop (fuel : nat) (kept : Z) (cache : list LogEntry) : option (list LogEntry) :=
  match fuel with
  | O => None
  | S fuel =>
      match cache with
      | [] => Some []
      | e :: r => pop_front_loop fuel kept (if Index e <? kept then r else cache)
      end
  end.
(** The same at the back, for the entries above [kept]. *)
Fixpoint pop_back_loop (fuel : nat) (kept : Z) (cache : list LogEntry) : option (list LogEntry) :=
  match fuel with
  | O => None
  | S fuel =>
      match last cache with
      | None => Some []
      | Some e => pop_back_loop fuel kept (if kept <? Index e then removelast cache else cache)
      end
  end.
Definition clear_cache (loop : list LogEntry → option (list LogEntry)) : M unit :=
  st ← get;
  match loop (latest_entries_cache_ st) with
  | Some c => set_cache c
  | None => undefined
  end.

Definition TruncatePrefix (fuel : nat) (first_index_kept : Z) : M Z :=
  st ← get;
  if first_index_kept <=? first_log_index_ st then mret 0
  else
    rc ← SaveMeta first_index_kept;
    if negb (rc =? 0) then mret (-1)
    else
      popped ← PopSegments first_index_kept;
      unlink_all popped;;
      clear_cache (pop_front_loop fuel first_index_kept);;
      mret 0.

(** The loop over the closed segments of [PopSegmentsFromBack], from the last
    to the first. *)
Fixpoint pop_closed_back (last_index_kept : Z) (l : list (Z * nat)) : M (list nat) :=
  match l with
  | [] => mret []
  | (_, p) :: l =>
      s ← deref p;
      if first_index_ s <=? last_index_kept then mret []
      else popped ← pop_closed_back last_index_kept l; mret (p :: popped)
  end.
Fixpoint erase_all (l : list nat) : M unit :=
  match l with
  | [] => mret tt
  | p :: l =>
      s ← deref p; st ← get;
      set_segments (map_erase (first_index_ s) (segments_ st));; erase_all l
  end.

(** The segments that go and the last segment that stays. *)
Definition PopSegmentsFromBack (last_index_kept : Z) : M (list nat * option nat) :=
  set_last last_index_kept;;
  st ← get;
  front ← match open_segment_ st with
          | Some p =>
              s ← deref p;
              if first_index_ s <=? last_index_kept then mret (Some p)
              else set_open None;; mret None
          | None => mret None
          end;
  match front with
  | Some p => mret ([], Some p)
  | None =>
      closed ← pop_closed_back last_index_kept (rev (segments_ st));
      let popped := option_list (open_segment_ st) ++ closed in
      erase_all popped;;
      st ← get;
      match last (segments_ st) with
      | Some (_, p) => mret (popped, Some p)
      | None => set_first (last_index_kept + 1);; mret (popped, None)
      end
  end.

(** [Unlink] of each segment until one fails. *)
Fixpoint unlink_until (ret : Z) (l : list nat) : M (Z * bool) :=
  match l with
  | [] => mret (ret, true)
  | p :: l =>
      s ← deref p;
      ret ← syscall (Unlink s);
      if negb (ret =? 0) then mret (ret, false) else unlink_until ret l
  end.

(** The last segment is cut; if it was closed it is open now. *)
Definition truncate_last (last_index_kept : Z) (p : nat) : M Z :=
  s ← deref p;
  let closed := negb (is_open_ s) in
  ret ← seg_method p (λ s w, Truncate s w last_index_kept);
  s ← deref p; st ← get;
  (if (ret =? 0) && closed && is_open_ s then
     set_segments (map_erase (first_index_ s) (segments_ st));; set_open (Some p)
   else mret tt);;
  mret ret.

Definition TruncateSuffix (fuel : nat) (last_index_kept : Z) : M Z :=
  '(popped, last_segment) ← PopSegmentsFromBack last_index_kept;
  '(popped, truncate_last_segment) ←
    match last_segment with
    | None => mret (popped, None)
    | Some p =>
        st ← get;
        if first_log_index_ st <=? last_log_index_ st then mret (popped, Some p)
        else
          s ← deref p;
          set_segments (map_erase (first_index_ s) (segments_ st));;
          set_open None;;
          mret (popped ++ [p], None)
    end;
  '(ret, go_on) ← unlink_until (-1) popped;
  if negb (go_on : bool) then mret ret
  else
    ret ← match truncate_last_segment : option nat with
          | None => mret ret
          | Some p => truncate_last last_index_kept p
          end;
    clear_cache (pop_back_loop fuel last_index_kept);;
    mret ret.

Definition ClearCacheEntry (index : Z) : M Z :=
  st ← get;
  match latest_entries_cache_ st with
  | [] => mret (-1)
  | e :: r => if negb (Index e =? index) then mret (-1) else set_cache r;; mret 0
  end.

(** ** The functions that the raft library calls (log_storage.cpp) *)

(** [raftLogAppend] sets the index of the entry. *)
Definition raftLogAppend (entry : LogEntry) : M Z :=
  st ← get;
  AppendEntry (mkEntry (last_log_index_ st + 1) (Term entry) (Type_ entry) (Data entry)).
Definition raftLogPoll (fuel : nat) (first_idx : Z) : M Z := TruncatePrefix fuel first_idx.
Definition raftLogPop (fuel : nat) (from_idx : Z) : M Z := TruncateSuffix fuel (from_idx - 1).
Definition raftLogGet (idx : Z) : M (option LogEntry) := GetEntry idx.
(** [entries_n] is an [int] that is converted to a [uint32_t]. *)
Definition raftLogGetBatch (idx entries_n : Z) : M (list LogEntry) :=
  GetBatchEntries idx (Z.to_nat (u32 entries_n)).
Definition raftLogFirstIdx : M Z := st ← get; mret (first_log_index_ st).
Definition raftLogCurrentIdx : M Z := st ← get; mret (last_log_index_ st).
Definition raftLogCount : M Z := st ← get; mret (last_log_index_ st - first_log_index_ st + 1).
End env.
