(* ===== verification/MraftNames.v ===== *)
(** * MraftNames: the names of the files of a log

    What [ListSegments] reads from a file name is what [GetPath] wrote in it, and
    the names of different segments, of the meta file and of files that are being
    removed are different. *)

From Stdlib Require Import Ascii.
From stdpp Require Import pretty.
From S2P Require Import Prelude MraftOs MraftEntry MraftPb MraftSegment MraftLog.

Abbreviation chars := String.list_ascii_of_string.

Lemma chars_app a b : chars (a +:+ b) = chars a ++ chars b.
Proof. induction a as [|c a IH]; [done|]. by apply (f_equal (cons c)) in IH. Qed.
Lemma chars_inj a b : chars a = chars b → a = b.
Proof.
  intros E. apply (f_equal String.string_of_list_ascii) in E.
  by rewrite !String.string_of_list_ascii_of_string in E.
Qed.
Lemma chars_length s : String.length s = length (chars s).
Proof. induction s as [|c s IH]; [done|]. cbn. by rewrite IH. Qed.

Lemma app_string_inj p a b : (p +:+ a = p +:+ b)%string → a = b.
Proof.
  intros E. apply chars_inj, (inj (app (chars p))). by rewrite <-!chars_app, E.
Qed.
Lemma app_string_assoc a b c : ((a +:+ b) +:+ c = a +:+ b +:+ c)%string.
Proof. apply chars_inj. by rewrite !chars_app, <-app_assoc. Qed.

Lemma in_dir_inj d a b : in_dir d a = in_dir d b → a = b.
Proof. unfold in_dir. intros E%app_string_inj. by apply app_string_inj in E. Qed.
Lemma in_dir_tmp d n : (in_dir d n +:+ ".tmp" = in_dir d (n +:+ ".tmp"))%string.
Proof. unfold in_dir. by rewrite !app_string_assoc. Qed.

(** ** Numbers *)

Definition number_char (c : ascii) : Prop :=
  c = "-"%char ∨ ∃ x, (x < 10)%N ∧ c = pretty_N_char x.

Lemma pretty_go_chars x s :
  Forall number_char (chars s) → Forall number_char (chars (pretty_N_go x s)).
Proof.
  revert s. induction (N.lt_wf_0 x) as [x _ IH]; intros s Hs.
  destruct (decide (x = 0%N)) as [->|Hx]; [done|].
  rewrite pretty_N_go_step by lia. apply IH; [apply N.div_lt; lia|].
  cbn. constructor; [|done]. right. eexists; split; [|done]. apply N.mod_lt. lia.
Qed.

Lemma pretty_N_chars (x : N) : Forall number_char (chars (pretty x)).
Proof.
  unfold pretty, pretty_N. case_decide.
  - constructor; [|constructor]. right. by exists 0%N.
  - by apply pretty_go_chars.
Qed.

Lemma to_string_chars z : Forall number_char (chars (to_string z)).
Proof.
  destruct z as [|p|p].
  - apply (pretty_N_chars 0).
  - apply (pretty_N_chars (N.pos p)).
  - change (to_string (Z.neg p)) with ("-" +:+ pretty (N.pos p))%string.
    rewrite chars_app. apply Forall_app; split; [|apply pretty_N_chars].
    constructor; [by left|constructor].
Qed.

Lemma to_string_inj a b : to_string a = to_string b → a = b.
Proof. apply pretty_Z_inj. Qed.

Lemma number_char_not c : number_char c → c ∉ ["_"; "/"; "i"; "m"; "p"; "."]%char.
Proof.
  intros [->|(x & Hx & ->)]; [by vm_compute; intros ?; set_solver|].
  assert (x = 0 ∨ x = 1 ∨ x = 2 ∨ x = 3 ∨ x = 4 ∨ x = 5 ∨ x = 6 ∨ x = 7 ∨ x = 8 ∨ x = 9)%N
    as Hc by lia. repeat destruct Hc as [->|Hc]; [..|subst]; cbn; set_solver.
Qed.

Lemma to_string_lacks c z : c ∈ ["_"; "/"; "i"; "m"; "p"; "."]%char → lacks c (to_string z).
Proof.
  intros Hc Hin. pose proof (to_string_chars z) as Hf. rewrite Forall_forall in Hf.
  by apply (number_char_not c); [apply Hf|].
Qed.

Lemma to_string_nonempty z : chars (to_string z) ≠ [].
Proof.
  intros E. assert (to_string z = "")%string as Ez by (by apply chars_inj).
  assert (∀ x, pretty_N_go x "" = "" → x = 0%N)%string as Hgo.
  { assert (∀ x s, s ≠ ""%string → pretty_N_go x s ≠ ""%string) as Hne.
    { intros x. induction (N.lt_wf_0 x) as [x _ IH]; intros s Hs.
      destruct (decide (x = 0%N)) as [->|Hx]; [done|].
      rewrite pretty_N_go_step by lia. apply IH; [apply N.div_lt; lia|done]. }
    intros x Hx. destruct (decide (x = 0%N)) as [|Hx0]; [done|].
    rewrite pretty_N_go_step in Hx by lia. by apply Hne in Hx. }
  destruct z as [|p|p]; [done|..].
  - change (pretty (N.pos p) = ""%string) in Ez. unfold pretty, pretty_N in Ez.
    rewrite decide_False in Ez by done. by apply Hgo in Ez.
  - done.
Qed.

(** ** Prefixes and suffixes *)

Lemma index_prefix p s : p ≠ ""%string → String.index 0 p s = Some 0%nat ↔ ∃ r, s = (p +:+ r)%string.
Proof.
  intros Hp. assert (∀ p s, String.prefix p s = true ↔ ∃ r, s = (p +:+ r)%string) as Hpre.
  { clear. intros p. induction p as [|c p IH]; intros s; [split; [by exists s|by destruct s]|].
    destruct s as [|c' s]; [split; [done|by intros [r ?]]|].
    cbn. destruct (Ascii.ascii_dec c c') as [->|Hc].
    - rewrite IH. split; intros [r E]; exists r; [by rewrite E|].
      by injection E.
    - split; [done|]. intros [r E]. by injection E as ->. }
  destruct s as [|c s].
  - destruct p; [done|]. split; [done|by intros [r ?]].
  - unfold String.index; fold String.index. specialize (Hpre p (String c s)).
    destruct (String.prefix p (String c s)); [naive_solver|].
    split; [by destruct (String.index 0 p s)|]. intros Hr. by apply Hpre in Hr.
Qed.

Lemma has_prefix_spec s p : has_prefix s p = true ↔ ∃ r, s = (p +:+ r)%string.
Proof.
  unfold has_prefix. destruct p as [|c p]; [split; [by exists s|done]|].
  cbn [String.length Nat.eqb]. destruct (Nat.ltb_spec (String.length s) (S (String.length p))) as [Hl|Hl].
  - split; [done|]. intros [r ->]. rewrite !chars_length, chars_app, length_app in Hl. cbn in Hl. lia.
  - rewrite bool_decide_eq_true. by apply index_prefix.
Qed.

Lemma substring_drop s n m : (String.length s <= n + m)%nat → chars (String.substring n m s) = drop n (chars s).
Proof.
  revert n m. induction s as [|c s IH]; intros [|n] [|m] Hl; cbn in *; try done; try lia.
  - f_equal. apply (IH 0%nat). lia.
  - apply IH. lia.
  - apply IH. lia.
Qed.

Lemma has_suffix_spec s e : has_suffix s e = true ↔ ∃ r, s = (r +:+ e)%string.
Proof.
  unfold has_suffix. destruct (Nat.leb_spec (String.length e) (String.length s)) as [Hl|Hl].
  - rewrite bool_decide_eq_true. split.
    + intros E. exists (String.string_of_list_ascii (take (String.length s - String.length e) (chars s))).
      apply chars_inj. rewrite chars_app, String.list_ascii_of_string_of_list_ascii. rewrite <-E at 2.
      rewrite substring_drop by lia. by rewrite take_drop.
    + intros [r ->]. apply chars_inj. rewrite substring_drop by lia.
      rewrite !chars_length, chars_app, length_app. apply drop_app_at. lia.
  - split; [done|]. intros [r ->]. rewrite !chars_length, chars_app, length_app in Hl. lia.
Qed.

Lemma substr_app p r : substr (String.length p) (p +:+ r) = r.
Proof.
  apply chars_inj. unfold substr. rewrite substring_drop by lia.
  rewrite chars_app. apply drop_app_at. by rewrite chars_length.
Qed.

(** ** The names of segments *)

Definition is_tmp (n : string) : bool := has_suffix n ".tmp".

Lemma ends_in_number p z : is_tmp (p +:+ to_string z) = false.
Proof.
  destruct (is_tmp _) eqn:E; [|done]. exfalso. apply has_suffix_spec in E as [r E].
  apply (f_equal chars) in E. rewrite !chars_app in E.
  apply (f_equal last) in E. rewrite !last_app in E. change (chars ".tmp") with ["."; "t"; "m"; "p"]%char in E.
  destruct (last (chars (to_string z))) as [c|] eqn:El.
  - injection E as ->. apply last_Some in El as [l El].
    apply (to_string_lacks "p"%char z); [set_solver|]. rewrite El. set_solver.
  - apply last_None in El. by apply to_string_nonempty in El.
Qed.

Lemma open_not_tmp z : is_tmp (open_name z) = false.
Proof. apply ends_in_number. Qed.
Lemma closed_not_tmp a b : is_tmp (closed_name a b) = false.
Proof.
  unfold closed_name. replace (kSegmentClosePrefix +:+ to_string a +:+ "_" +:+ to_string b)%string
    with ((kSegmentClosePrefix +:+ to_string a +:+ "_") +:+ to_string b)%string
    by (rewrite !app_string_assoc; done).
  apply ends_in_number.
Qed.
Lemma meta_not_tmp : is_tmp kSegmentLogMeta = false.
Proof. by vm_compute. Qed.

Lemma open_name_inj a b : open_name a = open_name b → a = b.
Proof. intros E%app_string_inj. by apply to_string_inj. Qed.

Lemma closed_not_open_prefix a b : has_prefix (closed_name a b) kSegmentOpenPrefix = false.
Proof.
  destruct (has_prefix _ _) eqn:E; [|done]. exfalso. apply has_prefix_spec in E as [r E].
  apply (f_equal chars) in E. unfold closed_name in E. rewrite !chars_app in E.
  change (chars kSegmentOpenPrefix) with (chars kSegmentClosePrefix ++ chars "inprogress_") in E.
  rewrite <-app_assoc in E. apply (inj (app (chars kSegmentClosePrefix))) in E.
  pose proof (to_string_chars a) as Hc. destruct (chars (to_string a)) as [|c l] eqn:El.
  { by apply to_string_nonempty in El. }
  apply Forall_cons in Hc as [Hc _]. apply number_char_not in Hc. injection E as ->. set_solver.
Qed.

Lemma open_has_prefix z : has_prefix (open_name z) kSegmentOpenPrefix = true.
Proof. apply has_prefix_spec. by eexists. Qed.
Lemma closed_has_prefix a b : has_prefix (closed_name a b) kSegmentClosePrefix = true.
Proof. apply has_prefix_spec. by eexists. Qed.

Lemma open_not_closed z a b : open_name z ≠ closed_name a b.
Proof. intros E. pose proof (closed_not_open_prefix a b) as Hp. by rewrite <-E, open_has_prefix in Hp. Qed.

Lemma meta_not_open z : open_name z ≠ kSegmentLogMeta.
Proof. unfold open_name. intros E. by apply (f_equal (λ s, substr 4 s)) in E. Qed.

Lemma meta_not_closed a b : closed_name a b ≠ kSegmentLogMeta.
Proof.
  unfold closed_name. change kSegmentLogMeta with (kSegmentClosePrefix +:+ "meta")%string.
  intros E%app_string_inj. apply (f_equal chars) in E. rewrite !chars_app in E.
  assert ("_"%char ∈ chars "meta") as Hin by (rewrite <-E; set_solver). cbn in Hin. set_solver.
Qed.

Section laws.
Context `{OutsideLaws}.

Lemma closed_split a b : split (substr (String.length kSegmentClosePrefix) (closed_name a b)) = [to_string a; to_string b].
Proof.
  unfold closed_name. rewrite substr_app. apply split_two; apply to_string_lacks; set_solver.
Qed.

Lemma closed_name_inj a b a' b' : closed_name a b = closed_name a' b' → a = a' ∧ b = b'.
Proof.
  intros E. pose proof (closed_split a b) as E1. rewrite E, closed_split in E1.
  injection E1 as Ea Eb. split; by apply to_string_inj.
Qed.

Lemma open_index z : substr (String.length kSegmentOpenPrefix) (open_name z) = to_string z.
Proof. apply substr_app. Qed.
End laws.

(** No name of the log has a slash in it. *)
Lemma lacks_app c a b : lacks c a → lacks c b → lacks c (a +:+ b).
Proof. unfold lacks. rewrite chars_app. set_solver. Qed.
Lemma open_lacks z : lacks "/"%char (open_name z).
Proof. apply lacks_app; [by vm_compute; set_solver|apply to_string_lacks; set_solver]. Qed.
Lemma closed_lacks a b : lacks "/"%char (closed_name a b).
Proof.
  repeat apply lacks_app; try (apply to_string_lacks; set_solver); by vm_compute; set_solver.
Qed.
