(* ===== verification/MraftStore.v ===== *)
(** * MraftStore: what the state of the log stands for

    [disk w path cl op b first t]: the directory [path] holds the log whose
    closed segments are [cl] and whose open segment is [op], in the order of their
    indices from [b] on; entries before [first] have been given up; [t] is the
    part of an entry at the end of the open file.  [store st cl op b first]: the
    state [st] of the storage agrees with such a directory.  [represents st first
    es]: the log is the list [es] of entries, from the index [first] on. *)

From S2P Require Import Prelude MraftOs MraftEntry MraftPb MraftSegment MraftSegmentSpec MraftLog MraftNames.

(** Runs the steps of a method of the storage that are written out. *)
Ltac mrun :=
  unfold syscall, seg_method, deref, make_shared, set_segments, set_open, set_last, set_first,
    set_cache, set_latest, set_object, set_world, modify, get, undefined, mbind, M_bind, mret, M_ret;
  cbn [log_path_ segments_ open_segment_ last_log_index_ first_log_index_ latest_entries_cache_
       latest_entry_ heap next_ptr world option_bind].

(** A segment: the object, the first index, the file, the position in the file
    and the entries. *)
Record chunk := mkChunk { c_ptr : nat; c_first : Z; c_ino : nat; c_pos : Z; c_es : list LogEntry }.

Definition c_last (c : chunk) : Z := c_first c + Z.of_nat (length (c_es c)) - 1.
Definition c_name (open : bool) (c : chunk) : string :=
  if open then open_name (c_first c) else closed_name (c_first c) (c_last c).

(** The segments of a log with the state each is in. *)
Definition flagged (cl : list chunk) (op : option chunk) : list (bool * chunk) :=
  (pair false <$> cl) ++ (pair true <$> option_list op).
Definition all_of (cl : list chunk) (op : option chunk) : list chunk := cl ++ option_list op.
Definition entries (l : list chunk) : list LogEntry := l ≫= c_es.
Definition total (l : list chunk) : Z := Z.of_nat (length (entries l)).

(** The indices of the segments follow each other. *)
Fixpoint chain (b : Z) (l : list chunk) : Prop :=
  match l with
  | [] => True
  | c :: l => c_first c = b ∧ chain (b + Z.of_nat (length (c_es c))) l
  end.

Lemma elem_of_flagged cl op o c :
  (o, c) ∈ flagged cl op ↔ (o = false ∧ c ∈ cl) ∨ (o = true ∧ op = Some c).
Proof.
  unfold flagged. rewrite elem_of_app, !list_elem_of_fmap. destruct op as [x|]; cbn.
  - setoid_rewrite list_elem_of_singleton. naive_solver.
  - setoid_rewrite elem_of_nil. naive_solver.
Qed.

Lemma flagged_all cl op o c : (o, c) ∈ flagged cl op → c ∈ all_of cl op.
Proof.
  rewrite elem_of_flagged. unfold all_of. intros [[_ ?]|[_ ->]]; apply elem_of_app; [by left|right; by left].
Qed.

Lemma entries_app l1 l2 : entries (l1 ++ l2) = entries l1 ++ entries l2.
Proof. apply bind_app. Qed.
Lemma entries_snoc l c : entries (l ++ [c]) = entries l ++ c_es c.
Proof. rewrite entries_app. cbn. by rewrite app_nil_r. Qed.
Lemma entries_elem l c e : c ∈ l → e ∈ c_es c → e ∈ entries l.
Proof. intros. apply list_elem_of_bind. eauto. Qed.

Lemma total_cons c l : total (c :: l) = Z.of_nat (length (c_es c)) + total l.
Proof. unfold total, entries. cbn [mbind list_bind]. rewrite length_app. lia. Qed.
Lemma total_app l1 l2 : total (l1 ++ l2) = total l1 + total l2.
Proof. unfold total. rewrite entries_app, length_app. lia. Qed.
Lemma total_nonneg l : 0 <= total l.
Proof. unfold total. lia. Qed.

Lemma total_snoc l c : total (l ++ [c]) = total l + Z.of_nat (length (c_es c)).
Proof. rewrite total_app, total_cons. unfold total at 2. cbn. lia. Qed.
Lemma chain_app b l1 l2 : chain b (l1 ++ l2) ↔ chain b l1 ∧ chain (b + total l1) l2.
Proof.
  revert b. induction l1 as [|c l1 IH]; intros b; cbn [chain app].
  - unfold total. cbn. rewrite Z.add_0_r. naive_solver.
  - rewrite IH, total_cons, Z.add_assoc. naive_solver.
Qed.
Lemma chain_snoc b l c : chain b (l ++ [c]) ↔ chain b l ∧ c_first c = b + total l.
Proof. rewrite chain_app. cbn. naive_solver. Qed.

(** Where a segment of a chain starts and ends. *)
Lemma chain_bounds b l c :
  chain b l → c ∈ l → b <= c_first c ∧ c_last c < b + total l.
Proof.
  revert b. induction l as [|c' l IH]; intros b Hc Hin; [by apply elem_of_nil in Hin|].
  destruct Hc as [Hf Hc]. rewrite total_cons. pose proof (total_nonneg l).
  apply elem_of_cons in Hin as [->|Hin].
  - unfold c_last. lia.
  - destruct (IH _ Hc Hin). lia.
Qed.

(** The entries of a segment within the entries of the log. *)
Lemma chain_entry b l c i :
  chain b l → c ∈ l → c_first c <= i <= c_last c →
  entry_at b (entries l) i = entry_at (c_first c) (c_es c) i.
Proof.
  intros Hc Hin Hi. destruct (list_elem_of_split _ _ Hin) as (l1 & l2 & ->).
  apply chain_app in Hc as [_ [Hf _]]. unfold entry_at, c_last in *.
  pose proof (total_nonneg l1). unfold total in *.
  destruct (Z.ltb_spec i b); [lia|]. destruct (Z.ltb_spec i (c_first c)); [lia|].
  rewrite entries_app. cbn [entries mbind list_bind]. rewrite lookup_app_r by lia.
  rewrite lookup_app_l by lia. f_equal. lia.
Qed.

Section rel.
Context `{Outside}.

Definition seg_of (path : string) (open : bool) (c : chunk) : Segment :=
  mkSegment path (log_size (c_es c)) (Some (mkFd (c_ino c) (c_pos c))) open
    (c_first c) (c_last c) (offsets 0 (c_es c)).

Lemma GetPath_seg_of path o o' c : GetPath (seg_of path o c) o' = in_dir path (c_name o' c).
Proof. by destruct o'. Qed.

(** The file [log_meta] has the message with [first]. *)
Definition meta_at (w : World) (path : string) (first : Z) (i : nat) : Prop :=
  names w !! in_dir path kSegmentLogMeta = Some i ∧
  ∃ m, pb_serialize first = Some m ∧ pb_parse m = Some first ∧ Z.of_nat (length m) < 2 ^ 32 ∧
       inodes w !! i = Some (LocalInt.Write 4 (Z.of_nat (length m)) ++ m).

Record disk (w : World) (path : string) (cl : list chunk) (op : option chunk) (b first : Z) (t : list Z) : Prop := {
  dk_name o c : (o, c) ∈ flagged cl op → names w !! in_dir path (c_name o c) = Some (c_ino c);
  dk_closed c : c ∈ cl → inodes w !! c_ino c = Some (log_bytes (c_es c)) ∧ c_es c ≠ [];
  dk_open c : op = Some c → inodes w !! c_ino c = Some (log_bytes (c_es c) ++ t);
  dk_chain : chain b (all_of cl op);
  dk_ok : Forall entry_ok (entries (all_of cl op));
  dk_indexed : indexed b (entries (all_of cl op));
  dk_inos : NoDup (c_ino <$> all_of cl op);
  dk_fresh i : is_Some (inodes w !! i) → (i < next_ino w)%nat;
  dk_meta : ∃ i, meta_at w path first i ∧ i ∉ c_ino <$> all_of cl op;
  dk_dir n i : names w !! in_dir path n = Some i →
    n = kSegmentLogMeta ∨ is_tmp n = true ∨ ∃ o c, (o, c) ∈ flagged cl op ∧ n = c_name o c;
  dk_bounds : 0 < b ∧ b + total (all_of cl op) < 2 ^ 63;
  dk_first : b <= first <= b + total (all_of cl op)
}.

Record store (st : Storage) (cl : list chunk) (op : option chunk) (b first : Z) : Prop := {
  st_disk : disk (world st) (log_path_ st) cl op b first [];
  st_segments : segments_ st = (λ c, (c_first c, c_ptr c)) <$> cl;
  st_open : open_segment_ st = c_ptr <$> op;
  st_heap o c : (o, c) ∈ flagged cl op → heap st !! c_ptr c = Some (seg_of (log_path_ st) o c);
  st_pos c : op = Some c → c_pos c = log_size (c_es c);
  st_ptrs : NoDup (c_ptr <$> all_of cl op);
  st_fresh p : is_Some (heap st !! p) → (p < next_ptr st)%nat;
  st_first : first_log_index_ st = first;
  st_last : last_log_index_ st = b + total (all_of cl op) - 1
}.

(** The entries from [first] on. *)
Definition visible (cl : list chunk) (op : option chunk) (b first : Z) : list LogEntry :=
  drop (Z.to_nat (first - b)) (entries (all_of cl op)).

Definition represents (st : Storage) (first : Z) (es : list LogEntry) : Prop :=
  ∃ cl op b, store st cl op b first ∧ es = visible cl op b first.

(** The directory [path] holds the log [es] from [first] on, with the part [t] of
    one more entry. *)
Definition on_disk (w : World) (path : string) (first : Z) (es : list LogEntry) (t : list Z) : Prop :=
  ∃ cl op b, disk w path cl op b first t ∧ es = visible cl op b first.

Lemma represents_on_disk st first es : represents st first es → on_disk (world st) (log_path_ st) first es [].
Proof. intros (cl & op & b & S & ->). exists cl, op, b. split; [apply S|done]. Qed.

(** What the storage keeps in memory besides the segments agrees with the log:
    the cache has the last entries. *)
Definition coherent (st : Storage) (first : Z) (es : list LogEntry) : Prop :=
  (∀ e, latest_entry_ st = Some e → entry_at first es (Index e) = Some e) ∧
  (∃ i, indexed i (latest_entries_cache_ st) ∧
        (latest_entries_cache_ st ≠ [] →
         i + Z.of_nat (length (latest_entries_cache_ st)) = first + Z.of_nat (length es))) ∧
  (∀ e, e ∈ latest_entries_cache_ st → entry_at first es (Index e) = Some e).

Context `{!OutsideLaws}.

Lemma visible_at cl op b first i :
  b <= first → entry_at first (visible cl op b first) i
             = if i <? first then None else entry_at b (entries (all_of cl op)) i.
Proof.
  intros Hb. unfold entry_at, visible. destruct (Z.ltb_spec i first); [done|].
  destruct (Z.ltb_spec i b); [lia|]. rewrite lookup_drop. f_equal. lia.
Qed.

Lemma chunk_indexed b l c : chain b l → indexed b (entries l) → c ∈ l → indexed (c_first c) (c_es c).
Proof.
  intros Hc Hi Hin k e Hk. pose proof (chain_entry b l c (c_first c + Z.of_nat k) Hc Hin) as He.
  pose proof (lookup_lt_Some _ _ _ Hk). unfold c_last, entry_at in He.
  destruct (chain_bounds _ _ _ Hc Hin) as [Hb _].
  destruct (Z.ltb_spec (c_first c + Z.of_nat k) b); [lia|].
  destruct (Z.ltb_spec (c_first c + Z.of_nat k) (c_first c)); [lia|].
  replace (Z.to_nat (c_first c + Z.of_nat k - c_first c)) with k in He by lia.
  rewrite Hk in He. rewrite (Hi _ _ (He ltac:(lia))). lia.
Qed.

Lemma chunk_ok l c : Forall entry_ok (entries l) → c ∈ l → Forall entry_ok (c_es c).
Proof.
  rewrite !Forall_forall. intros Hf Hin e He. apply Hf. by eapply entries_elem.
Qed.

Lemma store_seg st cl op b first o c :
  store st cl op b first → (o, c) ∈ flagged cl op →
  seg_rel (world st) (seg_of (log_path_ st) o c) (mkFd (c_ino c) (c_pos c)) (c_es c).
Proof.
  intros S Hin. pose proof (st_disk _ _ _ _ _ S) as D. pose proof (flagged_all _ _ _ _ Hin) as Hall.
  constructor; cbn; try done.
  - apply elem_of_flagged in Hin as [[-> Hin]|[-> Hop]].
    + by apply (dk_closed _ _ _ _ _ _ _ D).
    + rewrite (dk_open _ _ _ _ _ _ _ D c Hop). by rewrite app_nil_r.
  - intros ->. apply elem_of_flagged in Hin as [[? _]|[_ Hop]]; [done|]. by apply (st_pos _ _ _ _ _ S).
  - eapply chunk_ok; [apply D|done].
  - eapply chunk_indexed; [apply D|apply D|done].
Qed.

(** A segment of the log is determined by its file, and by its object. *)
Lemma NoDup_map_inj {A B} (f : A → B) l x y : NoDup (f <$> l) → x ∈ l → y ∈ l → f x = f y → x = y.
Proof.
  induction l as [|a l IH]; [by intros _ ?%elem_of_nil|].
  rewrite fmap_cons, NoDup_cons, !elem_of_cons. intros [Hn Hd] Hx Hy E.
  assert (∀ z, z ∈ l → f z ≠ f a) as Hne.
  { intros z Hz Ez. apply Hn. rewrite <-Ez. apply list_elem_of_fmap. eauto. }
  destruct Hx as [->|Hx], Hy as [->|Hy]; [done|..].
  - by edestruct Hne.
  - by edestruct Hne.
  - by apply IH.
Qed.

(** The closed segments start before the open one. *)
Lemma closed_before b cl c c' :
  chain b (cl ++ [c']) → c ∈ cl → c_last c < c_first c'.
Proof.
  intros Hc Hin. apply chain_snoc in Hc as [Hc Hf]. destruct (chain_bounds _ _ _ Hc Hin). lia.
Qed.

(** ** The name of the next segment is free *)

Lemma next_name_free w path cl op b first t :
  disk w path cl op b first t → (∀ c, op = Some c → c_es c ≠ []) →
  names w !! in_dir path (open_name (b + total (all_of cl op))) = None.
Proof.
  intros D Hne. destruct (names w !! _) as [i|] eqn:E; [exfalso|done].
  apply (dk_dir _ _ _ _ _ _ _ D) in E as [E|[E|(o & c & Hin & E)]].
  - by apply meta_not_open in E.
  - by rewrite open_not_tmp in E.
  - pose proof (flagged_all _ _ _ _ Hin) as Hall.
    destruct (chain_bounds _ _ _ (dk_chain _ _ _ _ _ _ _ D) Hall) as [_ Hl].
    apply elem_of_flagged in Hin as [[-> Hin]|[-> Hop]].
    + by apply open_not_closed in E.
    + apply open_name_inj in E. specialize (Hne _ Hop). unfold c_last in Hl.
      destruct (c_es c); [done|]. cbn in *. lia.
Qed.

(** ** A new open segment *)

Definition created_world (w : World) (path : string) (first : Z) : World :=
  mkWorld (<[in_dir path (open_name first) := next_ino w]> (names w)) (<[next_ino w := []]> (inodes w))
          (S (next_ino w)) (answers w) (errno w).

Lemma disk_create w path cl b first p :
  disk w path cl None b first [] →
  let n := b + total cl in
  disk (created_world w path n) path cl (Some (mkChunk p n (next_ino w) 0 [])) b first [].
Proof.
  intros D n. pose proof (next_name_free _ _ _ _ _ _ _ D ltac:(done)) as Hfree.
  unfold all_of in Hfree. cbn in Hfree. rewrite app_nil_r in Hfree. fold n in Hfree.
  set (c0 := mkChunk p n (next_ino w) 0 []).
  assert (entries (all_of cl (Some c0)) = entries (all_of cl None)) as Hent.
  { unfold all_of. cbn. by rewrite entries_snoc, !app_nil_r. }
  assert (total (all_of cl (Some c0)) = total (all_of cl None)) as Htot by (unfold total; by rewrite Hent).
  assert (∀ c, c ∈ all_of cl None → c_ino c ≠ next_ino w) as Hino.
  { intros c Hc. unfold all_of in Hc. cbn in Hc. rewrite app_nil_r in Hc.
    destruct (dk_closed _ _ _ _ _ _ _ D c Hc) as [Hi _].
    pose proof (dk_fresh _ _ _ _ _ _ _ D (c_ino c) ltac:(eauto)). lia. }
  constructor; cbn [names inodes next_ino created_world].
  - intros o c Hin. apply elem_of_flagged in Hin as [[-> Hin]|[-> [= <-]]].
    + rewrite lookup_insert_ne.
      * apply (dk_name _ _ _ _ _ _ _ D). apply elem_of_flagged. by left.
      * intros E%in_dir_inj. by apply open_not_closed in E.
    + cbn. by rewrite lookup_insert_eq.
  - intros c Hin. rewrite lookup_insert_ne; [by apply (dk_closed _ _ _ _ _ _ _ D)|].
    apply not_eq_sym, Hino. unfold all_of. cbn. by rewrite app_nil_r.
  - intros c [= <-]. cbn. by rewrite lookup_insert_eq.
  - unfold all_of. cbn. apply chain_snoc. split; [|done].
    pose proof (dk_chain _ _ _ _ _ _ _ D) as Hc. unfold all_of in Hc. cbn in Hc. by rewrite app_nil_r in Hc.
  - rewrite Hent. apply D.
  - rewrite Hent. apply D.
  - unfold all_of. cbn. rewrite fmap_app, NoDup_app. pose proof (dk_inos _ _ _ _ _ _ _ D) as Hn.
    unfold all_of in Hn, Hino. cbn in Hn, Hino. rewrite app_nil_r in Hn, Hino. split_and!; [done| |apply NoDup_singleton].
    intros i Hi Hi'. cbn in Hi'. apply list_elem_of_singleton in Hi'. apply list_elem_of_fmap in Hi as (c & -> & Hc).
    by apply Hino in Hc.
  - intros i. destruct (decide (i = next_ino w)) as [->|Hi]; [lia|].
    rewrite lookup_insert_ne by done. intros Hs. pose proof (dk_fresh _ _ _ _ _ _ _ D i Hs). lia.
  - destruct (dk_meta _ _ _ _ _ _ _ D) as (i & (Hn & m & Hm1 & Hm2 & Hm3 & Hm4) & Hi). exists i.
    assert (i ≠ next_ino w) as Hne.
    { pose proof (dk_fresh _ _ _ _ _ _ _ D i ltac:(eauto)). lia. }
    split.
    + split; cbn; [rewrite lookup_insert_ne; [done|]; intros E%in_dir_inj; by apply meta_not_open in E|].
      exists m. by rewrite lookup_insert_ne.
    + unfold all_of in *. cbn in *. rewrite app_nil_r in Hi. rewrite fmap_app, not_elem_of_app. split; [done|].
      cbn. by rewrite list_elem_of_singleton.
  - intros k i. destruct (decide (k = open_name n)) as [->|Hk].
    + intros _. right. right. exists true, c0. split; [apply elem_of_flagged; by right|done].
    + rewrite lookup_insert_ne by (intros E%in_dir_inj; done).
      intros Hl. destruct (dk_dir _ _ _ _ _ _ _ D _ _ Hl) as [?|[?|(o & c & Hin & E)]]; [by left|by right; left|].
      right. right. exists o, c. split; [|done]. apply elem_of_flagged.
      apply elem_of_flagged in Hin as [Hin|[_ ?]]; [by left|done].
  - rewrite Htot. apply D.
  - rewrite Htot. apply D.
Qed.
End rel.
