(* ===== verification/MraftAppend.v ===== *)
(** * MraftAppend: appending to the log and reading it *)

From S2P Require Import Prelude MraftOs MraftEntry MraftPb MraftSegment MraftSegmentSpec MraftLog MraftNames MraftStore.

(** * Appending to the log

    [AppendEntry] extends the list that the log represents, in each of the three
    situations of [GetOpenSegment]: an open segment with room, no open segment,
    and an open segment that is full, which is closed and followed by a new one. *)

Lemma all_of_None cl : all_of cl None = cl.
Proof. unfold all_of. cbn. by rewrite app_nil_r. Qed.
Lemma all_of_Some cl c : all_of cl (Some c) = cl ++ [c].
Proof. done. Qed.

Section append.
Context `{OutsideLaws} (max : Z).
Implicit Types (w : World) (st : Storage).

(** ** The full segment is closed *)

Definition closed_world w (path : string) (c : chunk) : World :=
  set_names w (<[in_dir path (c_name false c) := c_ino c]> (delete (in_dir path (c_name true c)) (names w))).

Lemma disk_close w path cl c b first :
  disk w path cl (Some c) b first [] → c_es c ≠ [] →
  disk (closed_world w path c) path (cl ++ [c]) None b first [].
Proof.
  intros D Hne. pose proof (dk_chain _ _ _ _ _ _ _ D) as Hch. rewrite all_of_Some in Hch.
  assert (∀ n, n ≠ c_name true c → n ≠ c_name false c →
    names (closed_world w path c) !! in_dir path n = names w !! in_dir path n) as Hother.
  { intros n H1 H2. cbn. rewrite lookup_insert_ne by (intros E%in_dir_inj; done).
    by rewrite lookup_delete_ne by (intros E%in_dir_inj; done). }
  assert (all_of (cl ++ [c]) None = all_of cl (Some c)) as Hall by (by rewrite all_of_None).
  constructor; rewrite ?Hall; cbn [inodes next_ino closed_world set_names]; try apply D.
  - intros o x Hin. apply elem_of_flagged in Hin as [[-> Hin]|[_ ?]]; [|done].
    apply elem_of_app in Hin as [Hin|Hin%list_elem_of_singleton].
    + rewrite Hother.
      * apply (dk_name _ _ _ _ _ _ _ D), elem_of_flagged. by left.
      * intros E. symmetry in E. by apply open_not_closed in E.
      * intros [E _]%closed_name_inj. pose proof (closed_before _ _ _ _ Hch Hin).
        destruct (dk_closed _ _ _ _ _ _ _ D x Hin) as [_ Hx]. unfold c_last in *.
        destruct (c_es x); cbn in *; [done|lia].
    + subst x. cbn. by rewrite lookup_insert_eq.
  - intros x [Hin|Hin%list_elem_of_singleton]%elem_of_app; [by apply (dk_closed _ _ _ _ _ _ _ D)|].
    subst x. split; [|done]. by rewrite (dk_open _ _ _ _ _ _ _ D c eq_refl), app_nil_r.
  - done.
  - destruct (dk_meta _ _ _ _ _ _ _ D) as (i & (Hn & Hm) & Hi). exists i. split; [|done]. split; [|done].
    rewrite Hother; [done|intros E; symmetry in E; by apply meta_not_open in E
                         |intros E; symmetry in E; by apply meta_not_closed in E].
  - intros n i Hn. destruct (decide (n = c_name false c)) as [->|H2].
    { right. right. exists false, c. split; [|done]. apply elem_of_flagged. left. set_solver. }
    destruct (decide (n = c_name true c)) as [->|H1].
    { exfalso. cbn in Hn. rewrite lookup_insert_ne in Hn by (intros E%in_dir_inj; symmetry in E; by apply open_not_closed in E).
      by rewrite lookup_delete_eq in Hn. }
    rewrite Hother in Hn by done.
    destruct (dk_dir _ _ _ _ _ _ _ D _ _ Hn) as [?|[?|(o & x & Hin & E)]]; [by left|by right; left|].
    right. right. exists o, x. split; [|done]. apply elem_of_flagged in Hin as [[-> Hin]|[-> [= ->]]]; [|done].
    apply elem_of_flagged. left. set_solver.
Qed.

(** ** An entry is written to the open segment *)

Definition with_entry (c : chunk) (e : LogEntry) : chunk :=
  mkChunk (c_ptr c) (c_first c) (c_ino c) (c_pos c + kEntryHeaderLength + DataLength e) (c_es c ++ [e]).

Lemma entries_with_entry cl c e :
  entries (all_of cl (Some (with_entry c e))) = entries (all_of cl (Some c)) ++ [e].
Proof. rewrite !all_of_Some, !entries_snoc. cbn. by rewrite app_assoc. Qed.
Lemma total_with_entry cl c e :
  total (all_of cl (Some (with_entry c e))) = total (all_of cl (Some c)) + 1.
Proof. unfold total. rewrite entries_with_entry, length_app. cbn. lia. Qed.

Lemma disk_append w path cl c b first e :
  disk w path cl (Some c) b first [] → entry_ok e → Index e = b + total (all_of cl (Some c)) →
  Index e + 1 < 2 ^ 63 →
  disk (set_inode w (c_ino c) (log_bytes (c_es c ++ [e]))) path cl (Some (with_entry c e)) b first [].
Proof.
  intros D Hok Hix Hmax.
  assert (c_ino <$> all_of cl (Some (with_entry c e)) = c_ino <$> all_of cl (Some c)) as Hinos
    by (rewrite !all_of_Some, !fmap_app; done).
  pose proof (dk_inos _ _ _ _ _ _ _ D) as Hnd.
  assert (∀ x, x ∈ cl → c_ino x ≠ c_ino c) as Hcl.
  { intros x Hx E. rewrite all_of_Some, fmap_app, NoDup_app in Hnd. destruct Hnd as (_ & Hd & _).
    apply (Hd (c_ino x)); [apply list_elem_of_fmap; eauto|]. cbn. rewrite E. by left. }
  constructor; rewrite ?entries_with_entry, ?total_with_entry, ?Hinos; cbn [names inodes next_ino set_inode].
  - intros o x Hin. apply elem_of_flagged in Hin as [[-> Hin]|[-> [= <-]]].
    + apply (dk_name _ _ _ _ _ _ _ D), elem_of_flagged. by left.
    + apply (dk_name _ _ _ _ _ _ _ D true c), elem_of_flagged. by right.
  - intros x Hin. rewrite lookup_insert_ne by (by apply not_eq_sym, Hcl).
    by apply (dk_closed _ _ _ _ _ _ _ D).
  - intros x [= <-]. cbn. by rewrite lookup_insert_eq, app_nil_r.
  - pose proof (dk_chain _ _ _ _ _ _ _ D) as Hc. rewrite all_of_Some, chain_snoc in *. done.
  - apply Forall_app. split; [apply D|by apply Forall_singleton].
  - apply indexed_snoc; [apply D|]. rewrite Hix. done.
  - done.
  - intros i. destruct (decide (i = c_ino c)) as [->|Hi].
    + intros _. apply (dk_fresh _ _ _ _ _ _ _ D). rewrite (dk_open _ _ _ _ _ _ _ D c eq_refl). eauto.
    + rewrite lookup_insert_ne by done. apply D.
  - destruct (dk_meta _ _ _ _ _ _ _ D) as (i & (Hn & m & Hm) & Hi). exists i. split; [|done].
    split; [done|]. exists m. cbn. rewrite lookup_insert_ne; [done|].
    intros <-. apply Hi. rewrite all_of_Some, fmap_app. apply elem_of_app. right. by left.
  - intros n i Hn. destruct (dk_dir _ _ _ _ _ _ _ D _ _ Hn) as [?|[?|(o & x & Hin & E)]]; [by left|by right; left|].
    right. right. apply elem_of_flagged in Hin as [[-> Hin]|[-> [= <-]]].
    + exists false, x. split; [apply elem_of_flagged; by left|done].
    + exists true, (with_entry c e). split; [apply elem_of_flagged; by right|done].
  - pose proof (dk_bounds _ _ _ _ _ _ _ D). lia.
  - pose proof (dk_first _ _ _ _ _ _ _ D). lia.
Qed.

(** ** The state *)

Lemma store_create st cl b first :
  store st cl None b first →
  let n := b + total cl in
  let c0 := mkChunk (next_ptr st) n (next_ino (world st)) 0 [] in
  store (mkStorage (log_path_ st) (segments_ st) (Some (next_ptr st)) (last_log_index_ st) (first_log_index_ st)
           (latest_entries_cache_ st) (latest_entry_ st)
           (<[next_ptr st := seg_of (log_path_ st) true c0]> (heap st)) (S (next_ptr st))
           (created_world (world st) (log_path_ st) n)) cl (Some c0) b first.
Proof.
  intros S n c0.
  assert (∀ c, c ∈ cl → (c_ptr c < next_ptr st)%nat) as Hptr.
  { intros c Hc. apply (st_fresh _ _ _ _ _ S). erewrite (st_heap _ _ _ _ _ S false); [eauto|].
    apply elem_of_flagged. by left. }
  constructor; cbn.
  - apply disk_create, S.
  - apply S.
  - done.
  - intros o c Hin. apply elem_of_flagged in Hin as [[-> Hin]|[-> [= <-]]].
    + specialize (Hptr _ Hin). rewrite lookup_insert_ne by lia. apply (st_heap _ _ _ _ _ S), elem_of_flagged. by left.
    + cbn. by rewrite lookup_insert_eq.
  - intros c [= <-]. done.
  - rewrite all_of_Some, fmap_app. pose proof (st_ptrs _ _ _ _ _ S) as Hn. rewrite all_of_None in Hn.
    apply NoDup_app. split_and!; [done| |apply NoDup_singleton].
    intros p (c & -> & Hc)%list_elem_of_fmap Hp%list_elem_of_singleton. specialize (Hptr _ Hc). cbn in Hp. lia.
  - intros p. destruct (decide (p = next_ptr st)) as [->|Hp]; [lia|].
    rewrite lookup_insert_ne by done. intros Hs%(st_fresh _ _ _ _ _ S). lia.
  - apply S.
  - rewrite (st_last _ _ _ _ _ S), all_of_Some, all_of_None, total_app. unfold total. cbn. lia.
Qed.

Lemma store_close st cl c b first :
  store st cl (Some c) b first → c_es c ≠ [] →
  store (mkStorage (log_path_ st) (segments_ st ++ [(c_first c, c_ptr c)]) None (last_log_index_ st)
           (first_log_index_ st) (latest_entries_cache_ st) (latest_entry_ st)
           (<[c_ptr c := seg_of (log_path_ st) false c]> (heap st)) (next_ptr st)
           (closed_world (world st) (log_path_ st) c)) (cl ++ [c]) None b first.
Proof.
  intros S Hne.
  assert (all_of (cl ++ [c]) None = all_of cl (Some c)) as Hall by (by rewrite all_of_None).
  constructor; rewrite ?Hall; cbn [world log_path_ segments_ open_segment_ heap next_ptr first_log_index_ last_log_index_];
    try apply S.
  - apply disk_close; [apply S|done].
  - by rewrite (st_segments _ _ _ _ _ S), fmap_app.
  - done.
  - intros o x Hin. apply elem_of_flagged in Hin as [[-> Hin]|[_ ?]]; [|done].
    apply elem_of_app in Hin as [Hin|Hin%list_elem_of_singleton].
    + rewrite lookup_insert_ne; [apply (st_heap _ _ _ _ _ S), elem_of_flagged; by left|].
      intros E. pose proof (st_ptrs _ _ _ _ _ S) as Hn. rewrite all_of_Some, fmap_app, NoDup_app in Hn.
      destruct Hn as (_ & Hd & _). apply (Hd (c_ptr x)); [apply list_elem_of_fmap; eauto|]. rewrite <-E. by left.
    + subst x. by rewrite lookup_insert_eq.
  - done.
  - intros p. destruct (decide (p = c_ptr c)) as [->|Hp].
    + intros _. apply (st_fresh _ _ _ _ _ S). erewrite (st_heap _ _ _ _ _ S true); [eauto|].
      apply elem_of_flagged. by right.
    + rewrite lookup_insert_ne by done. apply S.
Qed.

Lemma store_append st cl c b first e cache latest :
  store st cl (Some c) b first → entry_ok e → Index e = b + total (all_of cl (Some c)) → Index e + 1 < 2 ^ 63 →
  store (mkStorage (log_path_ st) (segments_ st) (open_segment_ st) (last_log_index_ st + 1)
           (first_log_index_ st) cache latest
           (<[c_ptr c := seg_of (log_path_ st) true (with_entry c e)]> (heap st)) (next_ptr st)
           (set_inode (world st) (c_ino c) (log_bytes (c_es c ++ [e])))) cl (Some (with_entry c e)) b first.
Proof.
  intros S Hok Hix Hmax.
  assert (c_ptr <$> all_of cl (Some (with_entry c e)) = c_ptr <$> all_of cl (Some c)) as Hptrs
    by (rewrite !all_of_Some, !fmap_app; done).
  constructor; rewrite ?Hptrs;
    cbn [world log_path_ segments_ open_segment_ heap next_ptr first_log_index_ last_log_index_]; try apply S.
  - apply disk_append; [apply S|done..].
  - intros o x Hin. apply elem_of_flagged in Hin as [[-> Hin]|[-> [= <-]]].
    + rewrite lookup_insert_ne; [apply (st_heap _ _ _ _ _ S), elem_of_flagged; by left|].
      intros E. pose proof (st_ptrs _ _ _ _ _ S) as Hn. rewrite all_of_Some, fmap_app, NoDup_app in Hn.
      destruct Hn as (_ & Hd & _). apply (Hd (c_ptr x)); [apply list_elem_of_fmap; eauto|]. rewrite <-E. by left.
    + by rewrite lookup_insert_eq.
  - intros x [= <-]. cbn [c_pos c_es with_entry]. by rewrite (st_pos _ _ _ _ _ S c eq_refl), log_size_snoc.
  - intros p. destruct (decide (p = c_ptr c)) as [->|Hp].
    + intros _. apply (st_fresh _ _ _ _ _ S). erewrite (st_heap _ _ _ _ _ S true); [eauto|].
      apply elem_of_flagged. by right.
    + rewrite lookup_insert_ne by done. apply S.
  - rewrite (st_last _ _ _ _ _ S), total_with_entry. lia.
Qed.

(** ** The methods *)

Lemma map_put_snoc {A} k (v : A) l : Forall (λ p, p.1 < k) l → map_put k v l = l ++ [(k, v)].
Proof.
  induction 1 as [|[k' v'] l Hk _ IH]; [done|]. cbn in *.
  destruct (Z.ltb_spec k k'); [lia|]. destruct (Z.eqb_spec k k'); [lia|]. by rewrite IH.
Qed.

Lemma GetOpenSegment_keep st p s :
  open_segment_ st = Some p → heap st !! p = Some s → bytes_ s <= max →
  GetOpenSegment max st = Some (Some p, st).
Proof.
  intros Ho Hh Hb. unfold GetOpenSegment. mrun. rewrite Ho, Hh. mrun.
  rewrite (proj2 (Z.ltb_ge _ _) Hb). cbn. by rewrite Ho, Ho.
Qed.

Lemma Create_fresh w path first :
  calm w → names w !! in_dir path (open_name first) = None →
  Create (open_segment path first) w
  = (0, set_fd (open_segment path first) (Some (mkFd (next_ino w) 0)), created_world w path first).
Proof.
  intros Hc Hn. unfold Create. cbn [is_open_ open_segment negb].
  change (GetPath (open_segment path first) true) with (in_dir path (open_name first)).
  unfold sys_create. by rewrite ask_calm, Hn.
Qed.

Lemma GetOpenSegment_create st cl b first :
  calm (world st) → store st cl None b first →
  ∃ st', GetOpenSegment max st = Some (Some (next_ptr st), st') ∧ calm (world st') ∧
    store st' cl (Some (mkChunk (next_ptr st) (b + total cl) (next_ino (world st)) 0 [])) b first ∧
    latest_entries_cache_ st' = latest_entries_cache_ st ∧ latest_entry_ st' = latest_entry_ st ∧
    log_path_ st' = log_path_ st.
Proof.
  intros Hc S. pose proof (next_name_free _ _ _ _ _ _ _ (st_disk _ _ _ _ _ S) ltac:(done)) as Hfree.
  rewrite all_of_None in Hfree. pose proof (st_last _ _ _ _ _ S) as Hl. rewrite all_of_None in Hl.
  eexists. split; [|split; [|split; [by apply store_create|done]]]; [|done].
  unfold GetOpenSegment. mrun. rewrite (st_open _ _ _ _ _ S). cbn [fmap option_fmap option_map]. mrun.
  rewrite (st_open _ _ _ _ _ S). cbn [fmap option_fmap option_map]. mrun.
  replace (last_log_index_ st + 1) with (b + total cl) by lia.
  rewrite lookup_insert_eq. mrun. rewrite Create_fresh by done. mrun. cbn [negb Z.eqb].
  rewrite insert_insert_eq. do 3 f_equal. f_equal.
  unfold seg_of, c_last. cbn. unfold set_fd, open_segment, log_size. cbn. do 2 f_equal. lia.
Qed.

(** Creating the next segment and closing the full one commute: the source
    creates first. *)
Lemma create_close_comm w path c first :
  names w !! in_dir path (open_name first) = None → open_name (c_first c) ≠ open_name first →
  closed_world (created_world w path first) path c = created_world (closed_world w path c) path first.
Proof.
  intros Hn Hne. unfold closed_world, created_world, set_names. cbn [names inodes next_ino answers errno].
  f_equal. change (c_name true c) with (open_name (c_first c)).
  rewrite delete_insert_ne by (intros E%in_dir_inj; congruence).
  rewrite insert_insert_ne; [done|]. intros E%in_dir_inj. symmetry in E. by apply open_not_closed in E.
Qed.

Lemma GetOpenSegment_roll st cl c b first :
  calm (world st) → 0 <= max → store st cl (Some c) b first → max < log_size (c_es c) →
  ∃ st', GetOpenSegment max st = Some (Some (next_ptr st), st') ∧ calm (world st') ∧
    store st' (cl ++ [c]) (Some (mkChunk (next_ptr st) (b + total (cl ++ [c])) (next_ino (world st)) 0 [])) b first ∧
    latest_entries_cache_ st' = latest_entries_cache_ st ∧ latest_entry_ st' = latest_entry_ st ∧
    log_path_ st' = log_path_ st.
Proof.
  intros Hc Hmax S Hbig.
  assert (c_es c ≠ []) as Hne by (intros E; rewrite E in Hbig; unfold log_size in Hbig; cbn in Hbig; lia).
  pose proof (st_disk _ _ _ _ _ S) as D.
  pose proof (next_name_free _ _ _ _ _ _ _ D ltac:(by intros x [= <-])) as Hfree. rewrite all_of_Some in Hfree.
  pose proof (st_last _ _ _ _ _ S) as Hl. rewrite all_of_Some in Hl.
  assert ((true, c) ∈ flagged cl (Some c)) as Hin by (apply elem_of_flagged; by right).
  pose proof (st_heap _ _ _ _ _ S _ _ Hin) as Hh. pose proof (dk_name _ _ _ _ _ _ _ D _ _ Hin) as Hname.
  assert (c_ptr c ≠ next_ptr st) as Hp.
  { pose proof (st_fresh _ _ _ _ _ S (c_ptr c) ltac:(eauto)). lia. }
  assert (open_name (c_first c) ≠ open_name (b + total (cl ++ [c]))) as Hnames.
  { intros E. change (c_name true c) with (open_name (c_first c)) in Hname. rewrite E in Hname. by rewrite Hfree in Hname. }
  pose proof (store_create _ _ _ _ (store_close _ _ _ _ _ S Hne)) as S'.
  eexists. split; [|split; [|split; [apply S'|done]]]; [|done].
  unfold GetOpenSegment. mrun. rewrite (st_open _ _ _ _ _ S). cbn [fmap option_fmap option_map]. rewrite Hh. mrun.
  cbn [seg_of bytes_ first_index_]. rewrite (proj2 (Z.ltb_lt _ _) Hbig). mrun.
  rewrite lookup_insert_eq. mrun. replace (last_log_index_ st + 1) with (b + total (cl ++ [c])) by lia.
  rewrite Create_fresh by done. mrun. cbn [negb Z.eqb]. mrun.
  rewrite insert_insert_eq, lookup_insert_ne by done. rewrite Hh. mrun.
  erewrite Close_result; [|done|done|].
  2: { rewrite GetPath_seg_of. cbn [names created_world]. rewrite lookup_insert_ne; [done|].
       intros E%in_dir_inj. by apply Hnames. }
  mrun. cbn [negb Z.eqb]. mrun. do 2 f_equal. f_equal.
  - rewrite (st_segments _ _ _ _ _ S). rewrite map_put_snoc; [done|].
    apply Forall_fmap, Forall_forall. intros x Hx. cbn.
    pose proof (closed_before _ _ _ _ (dk_chain _ _ _ _ _ _ _ D) Hx).
    destruct (dk_closed _ _ _ _ _ _ _ D x Hx) as [_ Hxe]. unfold c_last in *.
    destruct (c_es x); cbn in *; [done|lia].
  - rewrite insert_insert_ne by done. f_equal. cbn. unfold set_fd, open_segment, seg_of, log_size, c_last. cbn.
    do 2 f_equal. lia.
  - rewrite !GetPath_seg_of. apply create_close_comm; done.
Qed.

Lemma visible_length cl op b first :
  b <= first <= b + total (all_of cl op) →
  first + Z.of_nat (length (visible cl op b first)) = b + total (all_of cl op).
Proof. intros Hb. unfold visible. rewrite length_drop. unfold total in *. lia. Qed.

Lemma visible_append cl c b first e :
  b <= first <= b + total (all_of cl (Some c)) →
  visible cl (Some (with_entry c e)) b first = visible cl (Some c) b first ++ [e].
Proof.
  intros Hb. unfold visible. rewrite entries_with_entry, drop_app_le; [done|]. unfold total in Hb. lia.
Qed.

(** The entry is written to the segment that [GetOpenSegment] gives. *)
Lemma AppendEntry_open st st1 cl c b first e :
  store st1 cl (Some c) b first → GetOpenSegment max st = Some (Some (c_ptr c), st1) → calm (world st1) →
  entry_ok e → Index e = b + total (all_of cl (Some c)) → Index e + 1 < 2 ^ 63 →
  ∃ st', AppendEntry max e st = Some (0, st') ∧ calm (world st') ∧ store st' cl (Some (with_entry c e)) b first ∧
    latest_entries_cache_ st' = latest_entries_cache_ st1 ++ [e] ∧ latest_entry_ st' = Some e ∧
    log_path_ st' = log_path_ st1.
Proof.
  intros S HG Hc Hok Hix Hmax.
  assert ((true, c) ∈ flagged cl (Some c)) as Hin by (apply elem_of_flagged; by right).
  eexists. split; [|split; [|split; [by apply store_append|done]]]; [|done].
  unfold AppendEntry. mrun. rewrite HG. mrun. rewrite (st_heap _ _ _ _ _ S _ _ Hin). mrun.
  erewrite Append_result; [|done|by eapply store_seg|done|done|].
  2: { rewrite Hix. pose proof (dk_chain _ _ _ _ _ _ _ (st_disk _ _ _ _ _ S)) as Hch.
       rewrite all_of_Some, chain_snoc in Hch. destruct Hch as [_ Hf].
       rewrite all_of_Some, total_app. unfold total at 2. cbn. rewrite app_nil_r. unfold c_last. lia. }
  mrun. cbn [negb Z.eqb]. mrun. unfold Sync. do 2 f_equal. f_equal. f_equal.
  unfold appended, seg_of, c_last, set_index, set_fd. cbn [c_ptr c_first c_ino c_pos c_es with_entry
    path_ bytes_ fd_ is_open_ first_index_ last_index_ offset_and_term_ fd_ino fd_pos].
  rewrite log_size_snoc, offsets_app, length_app. f_equal. cbn. lia.
Qed.

Lemma AppendEntry_store st cl op b first e :
  calm (world st) → 0 <= max → store st cl op b first →
  entry_ok e → Index e = b + total (all_of cl op) → Index e + 1 < 2 ^ 63 →
  ∃ st' cl' op', AppendEntry max e st = Some (0, st') ∧ calm (world st') ∧ store st' cl' op' b first ∧
    visible cl' op' b first = visible cl op b first ++ [e] ∧
    latest_entries_cache_ st' = latest_entries_cache_ st ++ [e] ∧ latest_entry_ st' = Some e ∧
    log_path_ st' = log_path_ st.
Proof.
  intros Hc Hmax S Hok Hix Hi. pose proof (dk_first _ _ _ _ _ _ _ (st_disk _ _ _ _ _ S)) as Hf.
  destruct op as [c|]; [destruct (Z.lt_ge_cases max (log_size (c_es c))) as [Hbig|Hsmall]|].
  - destruct (GetOpenSegment_roll _ _ _ _ _ Hc Hmax S Hbig) as (st1 & HG & Hc1 & S1 & HC & HL & HPth).
    destruct (AppendEntry_open _ _ _ _ _ _ e S1 HG Hc1 Hok) as (st' & HA & Hc' & S' & HC' & HL' & HPth').
    { rewrite Hix, !all_of_Some, (total_app _ [mkChunk _ _ _ _ _]). unfold total at 3. cbn. lia. }
    { done. }
    do 3 eexists. split_and!; [done|done|done| |by rewrite HC', HC|done|by rewrite HPth', HPth].
    rewrite visible_append; [|apply S1]. f_equal. unfold visible. f_equal.
    rewrite !all_of_Some, entries_snoc. cbn. by rewrite app_nil_r.
  - destruct (AppendEntry_open st st cl c b first e S) as (st' & HA & Hc' & S' & HC' & HL' & HPth'); [|done..|].
    { eapply GetOpenSegment_keep; [apply S|apply (st_heap _ _ _ _ _ S true), elem_of_flagged; by right|done]. }
    do 3 eexists. split_and!; [done|done|done| |done|done|done]. by apply visible_append.
  - rewrite all_of_None in Hix. destruct (GetOpenSegment_create _ _ _ _ Hc S) as (st1 & HG & Hc1 & S1 & HC & HL & HPth).
    destruct (AppendEntry_open _ _ _ _ _ _ e S1 HG Hc1 Hok) as (st' & HA & Hc' & S' & HC' & HL' & HPth').
    { rewrite Hix, !all_of_Some, (total_app _ [mkChunk _ _ _ _ _]). unfold total at 3. cbn. lia. }
    { done. }
    do 3 eexists. split_and!; [done|done|done| |by rewrite HC', HC|done|by rewrite HPth', HPth].
    rewrite visible_append; [|apply S1]. f_equal. unfold visible. f_equal.
    rewrite !all_of_Some, all_of_None, entries_snoc. cbn. by rewrite app_nil_r.
Qed.

Lemma entry_at_snoc first es e :
  entry_at first (es ++ [e]) (first + Z.of_nat (length es)) = Some e.
Proof.
  apply entry_at_Some. split; [lia|]. replace (Z.to_nat _) with (length es) by lia. by apply list_lookup_middle.
Qed.
Lemma entry_at_app first es es' i e : entry_at first es i = Some e → entry_at first (es ++ es') i = Some e.
Proof. rewrite !entry_at_Some. intros [? ?]. split; [done|]. by apply lookup_app_l_Some. Qed.

Lemma coherent_append st st' first es e :
  coherent st first es → Index e = first + Z.of_nat (length es) →
  latest_entries_cache_ st' = latest_entries_cache_ st ++ [e] → latest_entry_ st' = Some e →
  coherent st' first (es ++ [e]).
Proof.
  intros (Hl & (i & Hi & Hend) & Hc) Hix HC HL. split_and!.
  - rewrite HL. intros ? [= <-]. rewrite Hix. apply entry_at_snoc.
  - rewrite HC. destruct (latest_entries_cache_ st) as [|x l] eqn:E.
    + exists (Index e). split; [|cbn; rewrite length_app; cbn; lia].
      intros [|k] x; cbn; [|done]. intros [= <-]. lia.
    + specialize (Hend ltac:(done)). exists i. split.
      * apply indexed_snoc; [done|]. lia.
      * intros _. rewrite !length_app. cbn [length] in *. lia.
  - rewrite HC. intros x [Hx|Hx%list_elem_of_singleton]%elem_of_app.
    + by apply entry_at_app, Hc.
    + subst x. rewrite Hix. apply entry_at_snoc.
Qed.
End append.

(** * Reading the log

    [GetEntry], [GetBatchEntries] and [GetTerm] give the entries of the list that
    the log represents, wherever they are: in [latest_entry_], in the cache or in
    a segment. *)

(** The segment of an index. *)
Lemma chain_find b l i : chain b l → b <= i < b + total l → ∃ c, c ∈ l ∧ c_first c <= i <= c_last c.
Proof.
  revert b. induction l as [|c l IH]; intros b Hc Hi; [unfold total in Hi; cbn in Hi; lia|].
  destruct Hc as [Hf Hc]. rewrite total_cons in Hi.
  destruct (decide (i < b + Z.of_nat (length (c_es c)))).
  - exists c. split; [left|]. unfold c_last. lia.
  - destruct (IH _ Hc) as (c' & Hin & Hi'); [lia|]. exists c'. split; [by right|done].
Qed.

Lemma filter_none {A} (P : A → Prop) `{∀ x, Decision (P x)} l : (∀ x, x ∈ l → ¬ P x) → filter P l = [].
Proof.
  induction l as [|x l IH]; intros Hn; [done|]. rewrite filter_cons_False by (apply Hn; left).
  apply IH. intros y Hy. apply Hn. by right.
Qed.

Lemma filter_every {A} (P : A → Prop) `{∀ x, Decision (P x)} (l : list A) : (∀ x, x ∈ l → P x) → filter P l = l.
Proof.
  induction l as [|x l IH]; intros Hn; [done|]. rewrite filter_cons_True by (apply Hn; left).
  f_equal. apply IH. intros y Hy. apply Hn. by right.
Qed.

Lemma elem_of_rev {A} (x : A) l : x ∈ rev l ↔ x ∈ l.
Proof. by rewrite <-Permutation_rev. Qed.
Lemma fmap_rev {A B} (f : A → B) l : f <$> rev l = rev (f <$> l).
Proof. induction l as [|x l IH]; [done|]. cbn. by rewrite fmap_app, IH. Qed.

Lemma map_floor_chain b cl c i :
  chain b cl → c ∈ cl → c_first c <= i <= c_last c →
  map_floor i ((λ c, (c_first c, c_ptr c)) <$> cl) = Some (c_ptr c).
Proof.
  intros Hc Hin Hi. destruct (list_elem_of_split _ _ Hin) as (l1 & l2 & ->).
  apply chain_app in Hc as [_ [Hf Hc2]]. unfold map_floor.
  rewrite fmap_app, filter_app. cbn [fmap list_fmap]. rewrite filter_cons_True by (cbn; lia).
  rewrite (filter_none _ (_ <$> l2)); [by rewrite last_snoc|].
  intros p (c' & -> & Hin')%list_elem_of_fmap. cbn.
  destruct (chain_bounds _ _ _ Hc2 Hin') as [Hb _]. unfold c_last in Hi. lia.
Qed.

Section read.
Context `{OutsideLaws}.
Implicit Types (st : Storage).

(** ** The segment that has an index *)

Lemma GetSegment_none st first es i :
  represents st first es → entry_at first es i = None → GetSegment i st = Some (None, st).
Proof.
  intros (cl & op & b & S & ->) Hn. pose proof (dk_first _ _ _ _ _ _ _ (st_disk _ _ _ _ _ S)) as Hf.
  pose proof (visible_length _ _ _ _ Hf) as Hl. unfold GetSegment. mrun.
  rewrite (st_first _ _ _ _ _ S), (st_last _ _ _ _ _ S). unfold entry_at in Hn.
  destruct (Z.eqb_spec first (b + total (all_of cl op) - 1 + 1)); [done|].
  destruct (Z.ltb_spec i first); [done|]. apply lookup_ge_None in Hn. cbn [orb].
  destruct (Z.ltb_spec (b + total (all_of cl op) - 1 + 1) i); [done|].
  by rewrite (proj2 (Z.eqb_eq i _)) by lia.
Qed.

Lemma GetSegment_some st cl op b first i e :
  store st cl op b first → entry_at first (visible cl op b first) i = Some e →
  ∃ o c, (o, c) ∈ flagged cl op ∧ c_first c <= i <= c_last c ∧ GetSegment i st = Some (Some (c_ptr c), st).
Proof.
  intros S He. pose proof (st_disk _ _ _ _ _ S) as D. pose proof (dk_first _ _ _ _ _ _ _ D) as Hf.
  pose proof (visible_length _ _ _ _ Hf) as Hl. apply entry_at_Some in He as [Hi Hk].
  apply lookup_lt_Some in Hk. pose proof (dk_chain _ _ _ _ _ _ _ D) as Hch.
  destruct (chain_find _ _ i Hch) as (c & Hc & Hci); [lia|].
  assert (GetSegment i st = match op with
    | Some x => if c_first x <=? i then Some (Some (c_ptr x), st) else
        match map_floor i (segments_ st) with Some p => Some (Some p, st) | None => None end
    | None => match map_floor i (segments_ st) with Some p => Some (Some p, st) | None => None end
    end) as ->.
  { unfold GetSegment. mrun. rewrite (st_first _ _ _ _ _ S), (st_last _ _ _ _ _ S).
    destruct (Z.eqb_spec first (b + total (all_of cl op) - 1 + 1)); [lia|].
    destruct (Z.ltb_spec i first); [lia|]. destruct (Z.ltb_spec (b + total (all_of cl op) - 1 + 1) i); [lia|].
    destruct (Z.eqb_spec i (b + total (all_of cl op) - 1 + 1)); [lia|]. cbn [orb]. rewrite (st_open _ _ _ _ _ S).
    assert (c ∈ cl → segments_ st ≠ []) as Hm.
    { intros Hx E. rewrite (st_segments _ _ _ _ _ S) in E. apply fmap_nil_inv in E. subst. by apply elem_of_nil in Hx. }
    destruct op as [x|]; cbn [fmap option_fmap option_map].
    - rewrite (st_heap _ _ _ _ _ S true x) by (apply elem_of_flagged; by right). mrun. cbn [seg_of first_index_].
      destruct (Z.leb_spec (c_first x) i); [done|].
      rewrite all_of_Some in Hc. apply elem_of_app in Hc as [Hc|Hc%list_elem_of_singleton]; [|subst; lia].
      destruct (segments_ st); [by destruct Hm|by destruct (map_floor _ _)].
    - rewrite all_of_None in Hc. destruct (segments_ st); [by destruct Hm|by destruct (map_floor _ _)]. }
  rewrite (st_segments _ _ _ _ _ S). destruct op as [x|].
  - rewrite all_of_Some in Hc, Hch. apply elem_of_app in Hc as [Hc|Hc%list_elem_of_singleton].
    + pose proof (closed_before _ _ _ _ Hch Hc). destruct (Z.leb_spec (c_first x) i); [lia|].
      apply chain_snoc in Hch as [Hch _]. rewrite (map_floor_chain _ _ _ _ Hch Hc Hci).
      exists false, c. split; [apply elem_of_flagged; by left|done].
    + subst c. destruct (Z.leb_spec (c_first x) i); [|lia]. exists true, x. split; [apply elem_of_flagged; by right|done].
  - rewrite all_of_None in Hc, Hch. rewrite (map_floor_chain _ _ _ _ Hch Hc Hci).
    exists false, c. split; [apply elem_of_flagged; by left|done].
Qed.

Lemma visible_chunk st cl op b first o c i e :
  store st cl op b first → (o, c) ∈ flagged cl op → c_first c <= i <= c_last c →
  entry_at first (visible cl op b first) i = Some e → entry_at (c_first c) (c_es c) i = Some e.
Proof.
  intros S Hin Hci He. pose proof (st_disk _ _ _ _ _ S) as D.
  rewrite visible_at in He by apply D. destruct (i <? first); [done|].
  by rewrite (chain_entry _ _ _ _ (dk_chain _ _ _ _ _ _ _ D) (flagged_all _ _ _ _ Hin) Hci) in He.
Qed.

(** ** The methods *)

Lemma cached_exact st first es i :
  coherent st first es →
  cached st i = Some None ∨ ∃ e, cached st i = Some (Some e) ∧ entry_at first es i = Some e.
Proof.
  intros (_ & (i0 & Hix & _) & Hc). unfold cached.
  destruct (latest_entries_cache_ st) as [|e0 l] eqn:E; [by left|]. rewrite <-E in *.
  destruct (last (latest_entries_cache_ st)) as [e1|] eqn:El; [|by left].
  destruct (Z.leb_spec (Index e0) i); [|by left]. destruct (Z.leb_spec i (Index e1)); [|by left]. cbn [andb].
  assert (Index e0 = i0) as H0i by (rewrite (Hix 0%nat e0); [lia|by rewrite E]).
  rewrite last_lookup in El. pose proof (Hix _ _ El) as Hlast. pose proof (lookup_lt_Some _ _ _ El).
  destruct (lookup_lt_is_Some_2 (latest_entries_cache_ st) (Z.to_nat (i - Index e0))) as [e He]; [lia|].
  rewrite He. cbn. right. exists e. split; [done|].
  rewrite <-(Hc e) by (by eapply list_elem_of_lookup_2). f_equal. rewrite (Hix _ _ He). lia.
Qed.

Lemma storage_eta st p s :
  heap st !! p = Some s →
  mkStorage (log_path_ st) (segments_ st) (open_segment_ st) (last_log_index_ st) (first_log_index_ st)
    (latest_entries_cache_ st) (latest_entry_ st) (<[p := s]> (heap st)) (next_ptr st) (world st) = st.
Proof. intros Hp. rewrite insert_id by done. by destruct st. Qed.

Lemma GetEntry_represents st first es i :
  calm (world st) → represents st first es → coherent st first es →
  GetEntry i st = Some (entry_at first es i, st).
Proof.
  intros Hc R Hco. unfold GetEntry. mrun.
  destruct (option_bind _ _ _ (latest_entry_ st)) as [e|] eqn:El.
  { apply bind_Some in El as (e' & He' & El). destruct (Z.eqb_spec (Index e') i); [|done]. simplify_eq.
    destruct Hco as [Hl _]. by rewrite (Hl e). }
  destruct (cached_exact _ _ _ i Hco) as [->|(e & -> & ->)]; [|done].
  destruct (entry_at first es i) as [e|] eqn:E.
  2: by rewrite (GetSegment_none _ _ _ _ R E).
  destruct R as (cl & op & b & S & ->). destruct (GetSegment_some _ _ _ _ _ _ _ S E) as (o & c & Hin & Hci & ->).
  rewrite (st_heap _ _ _ _ _ S _ _ Hin). mrun. rewrite (Get_exact _ _ _ _ i Hc (store_seg _ _ _ _ _ _ _ S Hin)).
  cbn [first_index_ seg_of]. rewrite (visible_chunk _ _ _ _ _ _ _ _ _ S Hin Hci E). mrun.
  by rewrite storage_eta by (by apply S).
Qed.

Lemma GetTermAt_represents st first es i :
  represents st first es → GetTermAt i st = Some (from_option Term 0 (entry_at first es i), st).
Proof.
  intros R. unfold GetTermAt. mrun. destruct (entry_at first es i) as [e|] eqn:E.
  2: by rewrite (GetSegment_none _ _ _ _ R E).
  destruct R as (cl & op & b & S & ->). destruct (GetSegment_some _ _ _ _ _ _ _ S E) as (o & c & Hin & Hci & ->).
  rewrite (st_heap _ _ _ _ _ S _ _ Hin). mrun. rewrite (GetTerm_exact _ _ _ _ i (store_seg _ _ _ _ _ _ _ S Hin)).
  cbn [first_index_ seg_of]. by rewrite (visible_chunk _ _ _ _ _ _ _ _ _ S Hin Hci E).
Qed.

Lemma GetBatch_represents st first es i n :
  calm (world st) → represents st first es → coherent st first es → first <= i →
  GetBatchEntries i n st = Some (take n (drop (Z.to_nat (i - first)) es), st).
Proof.
  intros Hc R Hco. revert i. induction n as [|n IH]; intros i Hi; [by rewrite take_0|].
  cbn [GetBatchEntries]. mrun. rewrite (GetEntry_represents _ _ _ _ Hc R Hco). unfold entry_at.
  destruct (Z.ltb_spec i first); [lia|]. destruct (es !! Z.to_nat (i - first)) as [e|] eqn:E.
  - rewrite (drop_S _ _ _ E). cbn [take]. rewrite IH by lia. do 3 f_equal. f_equal. f_equal. lia.
  - apply lookup_ge_None in E. by rewrite drop_ge, take_nil by done.
Qed.
End read.
