(* ===== verification/MraftInit.v ===== *)
(** * MraftInit: loading a log from its directory *)

From S2P Require Import Prelude MraftOs MraftEntry MraftPb MraftSegment MraftSegmentSpec MraftRecovery MraftLog MraftNames MraftStore MraftAppend.

(** * Finding the segments of a directory

    [ListSegments] on the directory of a log finds the closed segments and the
    open one, in whatever order the system lists the files, and removes the files
    that were being deleted.  [LoadMeta] reads what [SaveMeta] wrote. *)

(** ** Putting a new key in an ordered map *)

Lemma map_put_perm {A} k (v : A) l : k ∉ fst <$> l → map_put k v l ≡ₚ (k, v) :: l.
Proof.
  induction l as [|[k' v'] l IH]; [done|]. rewrite fmap_cons, not_elem_of_cons. cbn. intros [Hk Hl].
  destruct (k <? k'); [done|]. destruct (Z.eqb_spec k k'); [done|]. rewrite IH by done. apply Permutation_swap.
Qed.

Lemma map_put_ascending {A} k (v : A) l :
  k ∉ fst <$> l → ascending (fst <$> l) → ascending (fst <$> map_put k v l).
Proof.
  unfold ascending. induction l as [|[k' v'] l IH]; [intros; repeat constructor|].
  rewrite fmap_cons, not_elem_of_cons. cbn. intros [Hk Hl] Hs. inversion Hs as [|? ? Hs' Hf]; subst.
  destruct (Z.ltb_spec k k'); [|destruct (Z.eqb_spec k k'); [done|]].
  - cbn. constructor; [done|]. constructor; [done|]. eapply Forall_impl; [done|]. cbn. lia.
  - cbn. constructor; [by apply IH|]. rewrite (map_put_perm k v l) by done. cbn. constructor; [lia|done].
Qed.

Section scan.
Context `{OutsideLaws}.
Implicit Types (st : Storage) (w : World).

(** ** The meta file *)

Lemma LoadMeta_found st first i :
  calm (world st) → meta_at (world st) (log_path_ st) first i →
  LoadMeta st = Some ((0, false),
    mkStorage (log_path_ st) (segments_ st) (open_segment_ st) (last_log_index_ st) first
      (latest_entries_cache_ st) (latest_entry_ st) (heap st) (next_ptr st) (world st)).
Proof.
  intros Hc (Hn & m & Hm1 & Hm2 & Hm3 & Hm4). unfold LoadMeta. mrun. unfold meta_file. rewrite Hn. mrun.
  assert (pb_read_file (world st) (in_dir (log_path_ st) kSegmentLogMeta) = (Some first, world st)) as ->; [|done].
  rewrite (pb_read_file_framed _ _ i m) by done. cbn. by rewrite Hm2.
Qed.

(** ** The directory *)

Record scanned w0 (path : string) (cl : list chunk) (op : option chunk) (dn : list string) (st0 st : Storage) : Prop := {
  sc_path : log_path_ st = path;
  sc_const : first_log_index_ st = first_log_index_ st0 ∧ last_log_index_ st = last_log_index_ st0 ∧
             latest_entries_cache_ st = latest_entries_cache_ st0 ∧ latest_entry_ st = latest_entry_ st0;
  sc_inodes : inodes (world st) = inodes w0 ∧ next_ino (world st) = next_ino w0 ∧ calm (world st);
  sc_names n : is_tmp n = false → names (world st) !! in_dir path n = names w0 !! in_dir path n;
  sc_less n : is_Some (names (world st) !! in_dir path n) → is_Some (names w0 !! in_dir path n);
  sc_keys : ascending (fst <$> segments_ st);
  sc_closed k p : (k, p) ∈ segments_ st →
    ∃ c, c ∈ cl ∧ k = c_first c ∧ heap st !! p = Some (closed_segment path k (c_last c));
  sc_all c : c ∈ cl → (c_name false c ∈ dn ↔ c_first c ∈ fst <$> segments_ st);
  sc_open : match open_segment_ st with
            | Some p => ∃ c, op = Some c ∧ c_name true c ∈ dn ∧ heap st !! p = Some (open_segment path (c_first c))
            | None => ∀ c, op = Some c → c_name true c ∉ dn
            end;
  sc_ptrs : NoDup ((snd <$> segments_ st) ++ option_list (open_segment_ st));
  sc_fresh p : is_Some (heap st !! p) → (p < next_ptr st)%nat
}.

Lemma closed_first_inj b cl c c' :
  chain b cl → (∀ x, x ∈ cl → c_es x ≠ []) → c ∈ cl → c' ∈ cl → c_first c = c_first c' → c = c'.
Proof.
  revert b. induction cl as [|x cl IH]; intros b Hch Hne Hc Hc' E; [by apply elem_of_nil in Hc|].
  destruct Hch as [Hx Hch].
  assert (∀ y, y ∈ cl → c_first x ≠ c_first y) as Hlt.
  { intros y Hy. destruct (chain_bounds _ _ _ Hch Hy) as [Hb _].
    assert (c_es x ≠ []) as Hn by (apply Hne; left). destruct (c_es x); cbn in *; [done|lia]. }
  apply elem_of_cons in Hc as [->|Hc], Hc' as [->|Hc']; [done|..].
  - by destruct (Hlt c' Hc').
  - by destruct (Hlt c Hc).
  - eapply IH; [done| |done..]. intros y Hy. apply Hne. by right.
Qed.

(** A name that is passed over. *)
Lemma scanned_skip w0 path cl op dn st0 st n :
  (∀ o c, (o, c) ∈ flagged cl op → n ≠ c_name o c) →
  scanned w0 path cl op dn st0 st → scanned w0 path cl op (dn ++ [n]) st0 st.
Proof.
  intros Hn []. constructor; try done.
  - intros c Hc. rewrite <-sc_all0, elem_of_app, list_elem_of_singleton by done.
    split; [|by left]. intros [?|E]; [done|]. symmetry in E. by apply (Hn false c) in E; [|apply elem_of_flagged; left].
  - destruct (open_segment_ st) as [p|].
    + destruct sc_open0 as (c & ? & ? & ?). exists c. set_solver.
    + intros c Hc. rewrite elem_of_app, list_elem_of_singleton. intros [?|E]; [by eapply sc_open0|].
      symmetry in E. by apply (Hn true c) in E; [|apply elem_of_flagged; right].
Qed.

(** A file that was being removed. *)
Lemma scanned_unlink w0 path cl op dn st0 st n w' :
  is_tmp n = true → scanned w0 path cl op dn st0 st →
  (∀ o c, (o, c) ∈ flagged cl op → n ≠ c_name o c) →
  inodes w' = inodes (world st) → next_ino w' = next_ino (world st) → calm w' →
  names w' = delete (in_dir path n) (names (world st)) ∨ names w' = names (world st) →
  scanned w0 path cl op (dn ++ [n]) st0
    (mkStorage (log_path_ st) (segments_ st) (open_segment_ st) (last_log_index_ st) (first_log_index_ st)
       (latest_entries_cache_ st) (latest_entry_ st) (heap st) (next_ptr st) w').
Proof.
  intros Ht Sc Hn Hi Hni Hc' Hnames. apply scanned_skip; [done|]. destruct Sc. constructor; cbn; try done.
  - destruct sc_inodes0 as (? & ? & ?). split_and!; congruence.
  - intros k Hk. destruct Hnames as [-> | ->]; [|by apply sc_names0].
    rewrite lookup_delete_ne; [by apply sc_names0|]. intros <-%in_dir_inj. congruence.
  - intros k. destruct Hnames as [-> | ->]; [|by apply sc_less0].
    rewrite lookup_delete_is_Some. intros [_ ?]. by apply sc_less0.
Qed.

(** The open segment. *)
Lemma scanned_open w0 path cl c dn st0 st :
  scanned w0 path cl (Some c) dn st0 st → c_name true c ∉ dn →
  scanned w0 path cl (Some c) (dn ++ [c_name true c]) st0
    (mkStorage (log_path_ st) (segments_ st) (Some (next_ptr st)) (last_log_index_ st) (first_log_index_ st)
       (latest_entries_cache_ st) (latest_entry_ st)
       (<[next_ptr st := open_segment path (c_first c)]> (heap st)) (S (next_ptr st)) (world st)).
Proof.
  intros [] Hdn.
  assert (∀ k p, (k, p) ∈ segments_ st → (p < next_ptr st)%nat) as Hp.
  { intros k p Hin. destruct (sc_closed0 _ _ Hin) as (x & _ & _ & Hx). by apply sc_fresh0. }
  constructor; cbn; try done.
  - intros k p Hin. destruct (sc_closed0 _ _ Hin) as (x & ? & ? & ?). exists x. split_and!; [done..|].
    rewrite lookup_insert_ne; [done|]. specialize (Hp _ _ Hin). lia.
  - intros x Hx. rewrite <-sc_all0, elem_of_app, list_elem_of_singleton by done.
    split; [|by left]. intros [?|E]; [done|]. symmetry in E. by apply open_not_closed in E.
  - exists c. rewrite lookup_insert_eq. set_solver.
  - apply NoDup_app. apply NoDup_app in sc_ptrs0 as (Hd & _). split_and!; [done| |apply NoDup_singleton].
    intros p ([k p'] & -> & Hin)%list_elem_of_fmap Hn%list_elem_of_singleton. specialize (Hp _ _ Hin). cbn in Hn. lia.
  - intros p. destruct (decide (p = next_ptr st)) as [->|Hne]; [lia|].
    rewrite lookup_insert_ne by done. intros Hs%sc_fresh0. lia.
Qed.

(** A closed segment. *)
Lemma scanned_closed w0 path b cl op dn st0 st c :
  chain b cl → (∀ x, x ∈ cl → c_es x ≠ []) → c ∈ cl →
  scanned w0 path cl op dn st0 st → c_name false c ∉ dn →
  scanned w0 path cl op (dn ++ [c_name false c]) st0
    (mkStorage (log_path_ st) (map_put (c_first c) (next_ptr st) (segments_ st)) (open_segment_ st)
       (last_log_index_ st) (first_log_index_ st) (latest_entries_cache_ st) (latest_entry_ st)
       (<[next_ptr st := closed_segment path (c_first c) (c_last c)]> (heap st)) (S (next_ptr st)) (world st)).
Proof.
  intros Hch Hne Hc [] Hdn.
  assert (c_first c ∉ fst <$> segments_ st) as Hk by (by rewrite <-sc_all0).
  pose proof (map_put_perm (c_first c) (next_ptr st) _ Hk) as Hperm.
  assert (∀ k p, (k, p) ∈ segments_ st → (p < next_ptr st)%nat) as Hp.
  { intros k p Hin. destruct (sc_closed0 _ _ Hin) as (x & _ & _ & Hx). by apply sc_fresh0. }
  assert (∀ p, open_segment_ st = Some p → (p < next_ptr st)%nat) as Hpo.
  { intros p Ep. rewrite Ep in sc_open0. destruct sc_open0 as (x & _ & _ & Hx). by apply sc_fresh0. }
  constructor; cbn; try done.
  - by apply map_put_ascending.
  - intros k p Hin. rewrite Hperm in Hin. apply elem_of_cons in Hin as [[= -> ->]|Hin].
    + exists c. by rewrite lookup_insert_eq.
    + destruct (sc_closed0 _ _ Hin) as (x & ? & ? & ?). exists x. split_and!; [done..|].
      rewrite lookup_insert_ne; [done|]. specialize (Hp _ _ Hin). lia.
  - intros x Hx. rewrite Hperm. cbn. rewrite elem_of_app, list_elem_of_singleton, elem_of_cons, <-sc_all0 by done.
    split; [intros [?|E]; [by right|]|intros [E|?]; [|by left]].
    + left. by apply closed_name_inj in E as [-> _].
    + right. by rewrite (closed_first_inj _ _ _ _ Hch Hne Hx Hc E).
  - destruct (open_segment_ st) as [p|].
    + destruct sc_open0 as (x & ? & ? & ?). exists x. split_and!; [done|set_solver|].
      rewrite lookup_insert_ne; [done|]. specialize (Hpo _ eq_refl). lia.
    + intros x Hx. rewrite elem_of_app, list_elem_of_singleton. intros [?|E]; [by eapply sc_open0|].
      by apply open_not_closed in E.
  - rewrite Hperm. cbn. constructor; [|done]. rewrite elem_of_app.
    intros [([k p] & E & Hin)%list_elem_of_fmap|Hin].
    + specialize (Hp _ _ Hin). cbn in E. lia.
    + destruct (open_segment_ st) as [p|]; [|by apply elem_of_nil in Hin].
      apply list_elem_of_singleton in Hin. specialize (Hpo _ eq_refl). lia.
  - intros p. destruct (decide (p = next_ptr st)) as [->|Hne']; [lia|].
    rewrite lookup_insert_ne by done. intros Hs%sc_fresh0. lia.
Qed.

Lemma c_name_special o c :
  bool_decide (c_name o c = kSegmentLogMeta ∨ c_name o c = "."%string ∨ c_name o c = ".."%string) = false.
Proof.
  apply bool_decide_eq_false_2. intros [E|[E|E]]; destruct o; cbn in E; try done.
  by apply meta_not_closed in E.
Qed.

Lemma c_name_not_tmp o c : has_suffix (c_name o c) ".tmp" = false.
Proof. destruct o; [apply open_not_tmp|apply closed_not_tmp]. Qed.

Lemma sys_unlink_calm w path :
  calm w → ∃ rc w', sys_unlink w path = (rc, w') ∧ inodes w' = inodes w ∧ next_ino w' = next_ino w ∧ calm w' ∧
    (names w' = delete path (names w) ∨ names w' = names w).
Proof.
  intros Hc. unfold sys_unlink. rewrite ask_calm by done.
  destruct (names w !! path); do 2 eexists; split_and!; try done; [by left|by right].
Qed.

Section listing.
Context (w0 : World) (path : string) (cl : list chunk) (op : option chunk) (b first : Z) (t : list Z).
Context (D : disk w0 path cl op b first t).

(** The indices in the names fit in 64 bits. *)
Lemma chunk_i64 c : c ∈ all_of cl op → is_i64 (c_first c) ∧ is_i64 (c_last c).
Proof using D.
  intros Hc. destruct (chain_bounds _ _ _ (dk_chain _ _ _ _ _ _ _ D) Hc) as [Hb Hl].
  pose proof (dk_bounds _ _ _ _ _ _ _ D) as [Hb0 Hb1]. unfold c_last, is_i64 in *. lia.
Qed.

Lemma disk_nonempty x : x ∈ cl → c_es x ≠ [].
Proof using D. intros Hx. by apply (dk_closed _ _ _ _ _ _ _ D). Qed.
Lemma closed_chain : chain b cl.
Proof using D. pose proof (dk_chain _ _ _ _ _ _ _ D) as Hc. unfold all_of in Hc. by apply chain_app in Hc as [? _]. Qed.

Lemma list_loop_segment fs dn st0 st o c :
  scanned w0 path cl op dn st0 st → (o, c) ∈ flagged cl op → c_name o c ∉ dn →
  ∃ st', list_loop false (c_name o c :: fs) st = list_loop false fs st' ∧
    scanned w0 path cl op (dn ++ [c_name o c]) st0 st'.
Proof using D H0.
  intros Sc Hin Hdn. destruct (chunk_i64 c (flagged_all _ _ _ _ Hin)) as [H1 H2].
  cbn [list_loop]. rewrite c_name_special, c_name_not_tmp. cbn [andb orb].
  apply elem_of_flagged in Hin as [[-> Hin]|[-> Hop]].
  - change (c_name false c) with (closed_name (c_first c) (c_last c)) in *.
    rewrite closed_not_open_prefix, closed_has_prefix, closed_split.
    rewrite !to_int64_to_string by done.
    eexists. split; [|eapply scanned_closed; [apply closed_chain|apply disk_nonempty|done..]].
    mrun. by rewrite (sc_path _ _ _ _ _ _ _ Sc).
  - change (c_name true c) with (open_name (c_first c)) in *.
    rewrite open_has_prefix, open_index, to_int64_to_string by done. mrun.
    pose proof (sc_open _ _ _ _ _ _ _ Sc) as Ho. destruct (open_segment_ st) as [p|] eqn:E.
    { destruct Ho as (x & Hx & Hxd & _). exfalso. by simplify_eq. }
    subst op. eexists. split; [|by apply scanned_open]. by rewrite (sc_path _ _ _ _ _ _ _ Sc).
Qed.

Lemma list_loop_scans fs dn st0 st :
  scanned w0 path cl op dn st0 st → NoDup (dn ++ fs) →
  (∀ n, n ∈ fs → n = "."%string ∨ n = ".."%string ∨ is_Some (names w0 !! in_dir path n)) →
  ∃ st', list_loop false fs st = Some (0, st') ∧ scanned w0 path cl op (dn ++ fs) st0 st'.
Proof using D H0.
  revert dn st. induction fs as [|n fs IH]; intros dn st Sc Hnd Hfs.
  { exists st. by rewrite app_nil_r. }
  assert (n ∉ dn) as Hn by (apply NoDup_app in Hnd; set_solver).
  rewrite cons_middle, app_assoc in Hnd |- *.
  assert (∀ st', scanned w0 path cl op (dn ++ [n]) st0 st' →
    ∃ st'', list_loop false fs st' = Some (0, st'') ∧ scanned w0 path cl op ((dn ++ [n]) ++ fs) st0 st'') as Hrest.
  { intros st' Sc'. apply IH; [done..|]. intros k Hk. apply Hfs. by right. }
  assert ((∃ o c, (o, c) ∈ flagged cl op ∧ n = c_name o c) ∨
          (∀ o c, (o, c) ∈ flagged cl op → n ≠ c_name o c) ∧
          (bool_decide (n = kSegmentLogMeta ∨ n = "."%string ∨ n = ".."%string) = true ∨ is_tmp n = true)) as Hcase.
  { assert (∀ o c, (o, c) ∈ flagged cl op → is_tmp n = true ∨
      bool_decide (n = kSegmentLogMeta ∨ n = "."%string ∨ n = ".."%string) = true → n ≠ c_name o c) as Hne.
    { intros o c _ [E|E] ->; [unfold is_tmp in E; by rewrite c_name_not_tmp in E|by rewrite c_name_special in E]. }
    destruct (Hfs n ltac:(left)) as [Hd|[Hd|[i Hi]]]; [| |destruct (dk_dir _ _ _ _ _ _ _ D _ _ Hi) as [Hd|[Hd|Hd]]].
    1-3: right; assert (bool_decide (n = kSegmentLogMeta ∨ n = "."%string ∨ n = ".."%string) = true) as Hb
      by (apply bool_decide_eq_true_2; auto); split; [eauto|by left].
    - right. split; [eauto|by right].
    - by left. }
  destruct Hcase as [(o & c & Hin & ->)|(Hne & Hcase)].
  { destruct (list_loop_segment fs dn st0 st o c Sc Hin Hn) as (st' & -> & Sc'). by apply Hrest. }
  cbn [list_loop]. destruct (bool_decide _) eqn:Eb; [apply Hrest; by apply scanned_skip|].
  destruct Hcase as [?|Ht]; [done|]. unfold is_tmp in Ht. rewrite Ht. cbn [andb orb]. mrun.
  destruct (sc_inodes _ _ _ _ _ _ _ Sc) as (_ & _ & Hcalm).
  destruct (sys_unlink_calm (world st) (in_dir (log_path_ st) n) Hcalm) as (rc & w' & -> & ? & ? & ? & Hnames).
  rewrite (sc_path _ _ _ _ _ _ _ Sc) in Hnames. apply Hrest. by apply scanned_unlink.
Qed.

(** The directory after all of it. *)
Lemma ListSegments_scans st0 :
  world st0 = w0 → log_path_ st0 = path → calm w0 → segments_ st0 = [] → open_segment_ st0 = None →
  (∀ p, is_Some (heap st0 !! p) → (p < next_ptr st0)%nat) →
  ∃ st', ListSegments false st0 = Some (0, st') ∧ scanned w0 path cl op (readdir w0 path) st0 st'.
Proof using D H0.
  intros Hw Hp Hc Hs Ho Hf.
  assert (scanned w0 path cl op [] st0 st0) as Sc.
  { constructor; rewrite ?Hs, ?Ho, ?Hw; try done.
    - constructor.
    - intros k p Hin. by apply elem_of_nil in Hin.
    - intros c _. cbn. by rewrite !elem_of_nil.
    - intros c _ Hx. by apply elem_of_nil in Hx.
    - constructor. }
  destruct (list_loop_scans (readdir w0 path) [] st0 st0 Sc) as (st' & HL & Sc').
  - apply readdir_NoDup.
  - intros n Hn. by apply readdir_elem in Hn as [_ ?].
  - exists st'. split; [|done]. unfold ListSegments. mrun. unfold sys_opendir. rewrite Hw, ask_calm by done. mrun.
    rewrite <-HL, <-Hw, <-Hp. by destruct st0.
Qed.
End listing.
End scan.

(** * Starting on the directory of a log

    [Init] on a directory that holds a log with at least one entry ends with the
    code 0 and a storage that represents that log, also if the last write to the
    open segment was cut off. *)

Section init.
Context `{OutsideLaws}.
Implicit Types (st : Storage) (w : World).

(** The same segment with another object, its file at the end. *)
Definition alike (c c' : chunk) : Prop :=
  c_first c' = c_first c ∧ c_ino c' = c_ino c ∧ c_es c' = c_es c ∧ c_pos c' = log_size (c_es c).

Lemma alike_last c c' : alike c c' → c_last c' = c_last c.
Proof. intros (E1 & _ & E2 & _). unfold c_last. by rewrite E1, E2. Qed.
Lemma alike_name c c' o : alike c c' → c_name o c' = c_name o c.
Proof. intros Ha. unfold c_name. rewrite (alike_last _ _ Ha). destruct Ha as (-> & _). done. Qed.

Lemma assign_objects cl (l : list (Z * nat)) :
  fst <$> l = c_first <$> cl →
  ∃ cl', Forall2 alike cl cl' ∧ l = (λ c, (c_first c, c_ptr c)) <$> cl'.
Proof.
  revert l. induction cl as [|c cl IH]; intros [|[k p] l] E; try done; [by exists []|].
  cbn in E. injection E as -> E. destruct (IH _ E) as (cl' & Ha & ->).
  exists (mkChunk p (c_first c) (c_ino c) (log_size (c_es c)) (c_es c) :: cl'). split; [by constructor|done].
Qed.

Section alike.
Context (cl cl' : list chunk) (op op' : option chunk).
Context (Hcl : Forall2 alike cl cl') (Hop : option_Forall2 alike op op').

Lemma alike_all : Forall2 alike (all_of cl op) (all_of cl' op').
Proof using All. unfold all_of. apply Forall2_app; [done|]. destruct Hop as [x y Ha|]; [constructor; [exact Ha|constructor]|constructor]. Qed.

Lemma alike_entries l l' : Forall2 alike l l' → entries l' = entries l.
Proof.
  induction 1 as [|c c' l l' (_ & _ & E & _) _ IH]; [done|]. unfold entries in *. cbn. by rewrite E, IH.
Qed.
Lemma alike_chain l l' b : Forall2 alike l l' → chain b l → chain b l'.
Proof.
  intros Ha. revert b. induction Ha as [|c c' l l' (E1 & _ & E & _) _ IH]; intros b; [done|].
  cbn. rewrite E1, E. intros [? ?]. split; [done|by apply IH].
Qed.
Lemma alike_inos l l' : Forall2 alike l l' → c_ino <$> l' = c_ino <$> l.
Proof. induction 1 as [|c c' l l' (_ & E & _) _ IH]; [done|]. cbn. by rewrite E, IH. Qed.

Lemma alike_flagged o c' : (o, c') ∈ flagged cl' op' → ∃ c, (o, c) ∈ flagged cl op ∧ alike c c'.
Proof using All.
  intros [[-> Hin]|[-> ->]]%elem_of_flagged.
  - apply list_elem_of_lookup in Hin as [i Hi]. destruct (Forall2_lookup_r _ _ _ _ _ Hcl Hi) as (c & Hc & Ha).
    exists c. split; [|done]. apply elem_of_flagged. left. split; [done|]. by eapply list_elem_of_lookup_2.
  - inversion Hop as [c x Ha|]; subst. exists c. split; [|done]. apply elem_of_flagged. by right.
Qed.
Lemma alike_flagged_back o c : (o, c) ∈ flagged cl op → ∃ c', (o, c') ∈ flagged cl' op' ∧ alike c c'.
Proof using All.
  intros [[-> Hin]|[-> ->]]%elem_of_flagged.
  - apply list_elem_of_lookup in Hin as [i Hi]. destruct (Forall2_lookup_l _ _ _ _ _ Hcl Hi) as (c' & Hc & Ha).
    exists c'. split; [|done]. apply elem_of_flagged. left. split; [done|]. by eapply list_elem_of_lookup_2.
  - inversion Hop as [x c' Ha|]; subst. exists c'. split; [|done]. apply elem_of_flagged. by right.
Qed.

(** The directory after the scan and the loading of the open segment. *)
Lemma disk_reload w0 w path b first t :
  disk w0 path cl op b first t →
  (∀ n, is_tmp n = false → names w !! in_dir path n = names w0 !! in_dir path n) →
  (∀ n, is_Some (names w !! in_dir path n) → is_Some (names w0 !! in_dir path n)) →
  next_ino w = next_ino w0 →
  (∀ c, op = Some c → inodes w !! c_ino c = Some (log_bytes (c_es c))) →
  (∀ i, (∀ c, op = Some c → i ≠ c_ino c) → inodes w !! i = inodes w0 !! i) →
  disk w path cl' op' b first [].
Proof using All.
  intros D Hnames Hless Hnext Hopen Hino. pose proof alike_all as Hall.
  constructor; rewrite ?(alike_entries _ _ Hall), ?(alike_inos _ _ Hall); unfold total;
    rewrite ?(alike_entries _ _ Hall); try apply D.
  - intros o c' Hin. destruct (alike_flagged _ _ Hin) as (c & Hc & Ha). rewrite (alike_name _ _ _ Ha).
    destruct Ha as (_ & -> & _). rewrite Hnames; [by apply D|apply c_name_not_tmp].
  - intros c' Hin. destruct (alike_flagged false c') as (c & Hc & Ha); [apply elem_of_flagged; by left|].
    apply elem_of_flagged in Hc as [[_ Hc]|[? _]]; [|done]. destruct Ha as (_ & -> & -> & _).
    destruct (dk_closed _ _ _ _ _ _ _ D c Hc) as [Hi Hne]. split; [|done]. rewrite Hino; [done|].
    intros x Hx E. pose proof (dk_inos _ _ _ _ _ _ _ D) as Hn. subst op. rewrite all_of_Some, fmap_app, NoDup_app in Hn.
    destruct Hn as (_ & Hd & _). apply (Hd (c_ino c)); [apply list_elem_of_fmap; eauto|]. rewrite E. by left.
  - intros c' ->. inversion Hop as [c x (_ & E2 & E3 & _)|]; subst. rewrite E2, E3, app_nil_r. by apply Hopen.
  - eapply alike_chain; [done|apply D].
  - intros i Hi. rewrite Hnext. apply (dk_fresh _ _ _ _ _ _ _ D).
    destruct op as [c|].
    + destruct (decide (i = c_ino c)) as [->|Hne].
      * rewrite (dk_open _ _ _ _ _ _ _ D c eq_refl). eauto.
      * rewrite <-Hino; [done|]. by intros x [= <-].
    + by rewrite <-Hino.
  - destruct (dk_meta _ _ _ _ _ _ _ D) as (i & (Hn & m & Hm) & Hi). exists i. split; [|done]. split.
    + by rewrite Hnames.
    + exists m. rewrite Hino; [done|]. intros c Hc ->. apply Hi. subst op. rewrite all_of_Some, fmap_app.
      apply elem_of_app. right. by left.
  - intros n i Hn. destruct (Hless n ltac:(eauto)) as [i' Hi'].
    destruct (dk_dir _ _ _ _ _ _ _ D _ _ Hi') as [?|[?|(o & c & Hin & ->)]]; [by left|by right; left|].
    right. right. destruct (alike_flagged_back _ _ Hin) as (c' & Hc' & Ha). exists o, c'.
    split; [done|]. symmetry. by apply alike_name.
Qed.
End alike.

(** ** Loading *)

Lemma Load_closed_chunk w path c :
  calm w → names w !! in_dir path (c_name false c) = Some (c_ino c) →
  inodes w !! c_ino c = Some (log_bytes (c_es c)) → Forall entry_ok (c_es c) → c_pos c = log_size (c_es c) →
  Load (closed_segment path (c_first c) (c_last c)) w = Some (0, seg_of path false c, w).
Proof.
  intros Hc Hn Hi Hok Hpos.
  destruct (Load_result w (closed_segment path (c_first c) (c_last c)) (c_ino c) (c_es c) [] Hc Hn eq_refl Hok)
    as (w' & HL & ->); [apply torn_nil|by rewrite app_nil_r|].
  rewrite HL. rewrite bool_decide_eq_true_2 by done. unfold loaded_segment, seg_of. cbn. by rewrite Hpos.
Qed.

Lemma Load_open_chunk w path c t :
  calm w → names w !! in_dir path (c_name true c) = Some (c_ino c) →
  inodes w !! c_ino c = Some (log_bytes (c_es c) ++ t) → torn t → Forall entry_ok (c_es c) →
  c_pos c = log_size (c_es c) →
  ∃ w', Load (open_segment path (c_first c)) w = Some (0, seg_of path true c, w') ∧
    calm w' ∧ names w' = names w ∧ next_ino w' = next_ino w ∧
    inodes w' !! c_ino c = Some (log_bytes (c_es c)) ∧
    (∀ i, i ≠ c_ino c → inodes w' !! i = inodes w !! i).
Proof.
  intros Hc Hn Hi Ht Hok Hpos.
  destruct (Load_result w (open_segment path (c_first c)) (c_ino c) (c_es c) t Hc Hn eq_refl Hok Ht Hi)
    as (w' & HL & Hw'). exists w'. rewrite HL. split.
  { unfold loaded_segment, seg_of. cbn. by rewrite Hpos. }
  subst w'. case_bool_decide as E; [subst t; rewrite app_nil_r in Hi; by split_and!|].
  split_and!; try done; cbn; [by rewrite lookup_insert_eq|]. intros i Hne. by rewrite lookup_insert_ne.
Qed.

(** What [load_closed] needs of the segments it loads. *)
Definition loadable (w : World) (path : string) (h : gmap nat Segment) (c : chunk) : Prop :=
  h !! c_ptr c = Some (closed_segment path (c_first c) (c_last c)) ∧
  names w !! in_dir path (c_name false c) = Some (c_ino c) ∧
  inodes w !! c_ino c = Some (log_bytes (c_es c)) ∧ Forall entry_ok (c_es c) ∧ c_pos c = log_size (c_es c).

Lemma load_closed_all l st :
  calm (world st) → NoDup (c_ptr <$> l) → (∀ c, c ∈ l → loadable (world st) (log_path_ st) (heap st) c) →
  ∃ h, load_closed ((λ c, (c_first c, c_ptr c)) <$> l) st
       = Some (0, mkStorage (log_path_ st) (segments_ st) (open_segment_ st)
                    (default (last_log_index_ st) (c_last <$> last l)) (first_log_index_ st)
                    (latest_entries_cache_ st) (latest_entry_ st) h (next_ptr st) (world st)) ∧
       (∀ c, c ∈ l → h !! c_ptr c = Some (seg_of (log_path_ st) false c)) ∧
       (∀ p, p ∉ c_ptr <$> l → h !! p = heap st !! p) ∧
       (∀ p, is_Some (h !! p) → is_Some (heap st !! p)).
Proof.
  intros Hc. revert st Hc. induction l as [|c l IH]; intros st Hc Hnd Hl.
  { exists (heap st). split; [by destruct st|]. split_and!; [|done|done]. by intros c ?%elem_of_nil. }
  rewrite fmap_cons in Hnd. rewrite fmap_cons. apply NoDup_cons in Hnd as [Hnp Hnd].
  destruct (Hl c ltac:(left)) as (Hh & Hn & Hi & Hok & Hpos).
  cbn [load_closed]. mrun. rewrite Hh. mrun. rewrite Load_closed_chunk by done. mrun. cbn [negb Z.eqb]. mrun.
  rewrite lookup_insert_eq. mrun. cbn [last_index_ seg_of].
  assert (∀ x, x ∈ l → c_ptr c ≠ c_ptr x) as Hne.
  { intros x Hx E. apply Hnp. rewrite E. apply list_elem_of_fmap. eauto. }
  edestruct (IH (mkStorage (log_path_ st) (segments_ st) (open_segment_ st) (c_last c) (first_log_index_ st)
    (latest_entries_cache_ st) (latest_entry_ st) (<[c_ptr c := seg_of (log_path_ st) false c]> (heap st))
    (next_ptr st) (world st))) as (h & HL & H1 & H2 & H3); [done|done| |].
  { intros x Hx. destruct (Hl x ltac:(by right)) as (Hhx & Hrest). split; [|done]. cbn.
    rewrite lookup_insert_ne by (by apply Hne). done. }
  cbn in HL. rewrite HL. exists h. split_and!.
  - do 2 f_equal. f_equal. rewrite last_cons. by destruct (last l).
  - intros x [->|Hx]%elem_of_cons; [|by apply H1]. rewrite H2 by done. cbn. by rewrite lookup_insert_eq.
  - intros p [Hp1 Hp2]%not_elem_of_cons. rewrite H2 by done. cbn. by rewrite lookup_insert_ne.
  - intros p Hp. apply H3 in Hp. cbn in Hp. destruct (decide (p = c_ptr c)) as [->|Hpn]; [eauto|].
    by rewrite lookup_insert_ne in Hp.
Qed.

(** The segments of a chain in the order of their first indices. *)
Lemma chain_ascending b cl : chain b cl → (∀ x, x ∈ cl → c_es x ≠ []) → ascending (c_first <$> cl).
Proof.
  revert b. induction cl as [|c cl IH]; intros b Hc Hne; [constructor|]. destruct Hc as [Hf Hc].
  cbn. constructor; [eapply IH; [done|intros; apply Hne; by right]|].
  apply Forall_fmap, Forall_forall. intros x Hx. cbn. destruct (chain_bounds _ _ _ Hc Hx) as [Hb _].
  assert (c_es c ≠ []) as Hn by (apply Hne; left). destruct (c_es c); cbn in *; [done|lia].
Qed.

(** The end of the log. *)
Lemma last_closed b cl c : chain b cl → last cl = Some c → c_last c = b + total cl - 1.
Proof.
  intros Hc [l ->]%last_Some. apply chain_snoc in Hc as [_ Hf]. rewrite total_app, total_cons.
  unfold c_last, total at 2. cbn. lia.
Qed.

Section start.
Context (w0 : World) (path : string) (cl : list chunk) (op : option chunk) (b first : Z) (t : list Z).
Context (D : disk w0 path cl op b first t).

Lemma name_listed o c : (o, c) ∈ flagged cl op → c_name o c ∈ readdir w0 path.
Proof using D H0.
  intros Hin. apply readdir_elem. split; [destruct o; [apply open_lacks|apply closed_lacks]|].
  right. right. rewrite (dk_name _ _ _ _ _ _ _ D _ _ Hin). eauto.
Qed.

(** What the scan has found. *)
Lemma scanned_objects st0 st :
  scanned w0 path cl op (readdir w0 path) st0 st →
  ∃ cl' op', Forall2 alike cl cl' ∧ option_Forall2 alike op op' ∧
    segments_ st = (λ c, (c_first c, c_ptr c)) <$> cl' ∧ open_segment_ st = c_ptr <$> op' ∧
    NoDup (c_ptr <$> all_of cl' op') ∧
    (∀ c, c ∈ cl' → heap st !! c_ptr c = Some (closed_segment path (c_first c) (c_last c))) ∧
    (∀ c, op' = Some c → heap st !! c_ptr c = Some (open_segment path (c_first c))).
Proof using D H0.
  intros Sc.
  assert (fst <$> segments_ st = c_first <$> cl) as Hkeys.
  { apply ascending_ext; [apply Sc|eapply chain_ascending; [by eapply closed_chain|by eapply disk_nonempty]|].
    intros k. rewrite !list_elem_of_fmap. split.
    - intros ([k' p] & -> & Hin). destruct (sc_closed _ _ _ _ _ _ _ Sc _ _ Hin) as (c & Hc & Hk & _). cbn. eauto.
    - intros (c & -> & Hc). apply list_elem_of_fmap. apply (sc_all _ _ _ _ _ _ _ Sc c Hc).
      apply name_listed, elem_of_flagged. by left. }
  destruct (assign_objects _ _ Hkeys) as (cl' & Hcl & Hseg).
  assert (∃ op', option_Forall2 alike op op' ∧ open_segment_ st = c_ptr <$> op' ∧
    ∀ c, op' = Some c → heap st !! c_ptr c = Some (open_segment path (c_first c))) as (op' & Hop & Hopen & Hhop).
  { pose proof (sc_open _ _ _ _ _ _ _ Sc) as Ho. destruct (open_segment_ st) as [p|] eqn:Ep.
    - destruct Ho as (c & Hc & _ & Hh). exists (Some (mkChunk p (c_first c) (c_ino c) (log_size (c_es c)) (c_es c))).
      rewrite Hc. split_and!; [by constructor|done|]. by intros x [= <-].
    - exists None. split_and!; [|done|done].
      assert (∀ c, op ≠ Some c) as Hn.
      { intros c Eo. apply (Ho c Eo), name_listed, elem_of_flagged. by right. }
      revert Hn. case op; [intros c Hn; by destruct (Hn c)|constructor]. }
  exists cl', op'. split_and!; try done.
  - pose proof (sc_ptrs _ _ _ _ _ _ _ Sc) as Hp. rewrite Hseg, Hopen, <-list_fmap_compose in Hp.
    unfold all_of. rewrite fmap_app. destruct op'; done.
  - intros c' Hc'. destruct (alike_flagged cl cl' op op' Hcl Hop false c') as (c & Hc & Ha).
    { apply elem_of_flagged. by left. }
    apply elem_of_flagged in Hc as [[_ Hc]|[? _]]; [|done].
    destruct (sc_closed _ _ _ _ _ _ _ Sc (c_first c') (c_ptr c')) as (x & Hx & E & Hh).
    { rewrite Hseg. apply list_elem_of_fmap. eauto. }
    rewrite (alike_last _ _ Ha). destruct Ha as (Ef & _). rewrite Ef in E.
    by rewrite (closed_first_inj _ _ _ _ (closed_chain _ _ _ _ _ _ _ D) (disk_nonempty _ _ _ _ _ _ _ D) Hc Hx E).
Qed.

(** Loading what the scan has found. *)
Section found.
Context (st0 st : Storage) (cl' : list chunk) (op' : option chunk).
Context (Sc : scanned w0 path cl op (readdir w0 path) st0 st).
Context (Hcl : Forall2 alike cl cl') (Hop : option_Forall2 alike op op').
Context (Hseg : segments_ st = (λ c, (c_first c, c_ptr c)) <$> cl') (Hopen : open_segment_ st = c_ptr <$> op').
Context (Hptrs : NoDup (c_ptr <$> all_of cl' op')).
Context (Hhcl : ∀ c, c ∈ cl' → heap st !! c_ptr c = Some (closed_segment path (c_first c) (c_last c))).
Context (Hhop : ∀ c, op' = Some c → heap st !! c_ptr c = Some (open_segment path (c_first c))).
Context (Hfirst : first_log_index_ st = first) (Hnon : first < b + total (all_of cl op)).

Lemma found_flagged o c' :
  (o, c') ∈ flagged cl' op' →
  names (world st) !! in_dir path (c_name o c') = Some (c_ino c') ∧
  Forall entry_ok (c_es c') ∧ c_pos c' = log_size (c_es c').
Proof using D H0 Sc Hcl Hop.
  intros Hin. destruct (alike_flagged _ _ _ _ Hcl Hop _ _ Hin) as (c & Hc & Ha).
  rewrite (alike_name _ _ _ Ha), (sc_names _ _ _ _ _ _ _ Sc) by apply c_name_not_tmp.
  destruct Ha as (_ & -> & -> & ->). split_and!; [by apply D| |done].
  eapply chunk_ok; [apply D|by eapply flagged_all].
Qed.

Lemma found_loadable c' : c' ∈ cl' → loadable (world st) (log_path_ st) (heap st) c'.
Proof using D H0 Sc Hcl Hop Hhcl.
  intros Hc'. destruct (found_flagged false c') as (Hn & Hok & Hpos); [apply elem_of_flagged; by left|].
  rewrite (sc_path _ _ _ _ _ _ _ Sc). split_and!; [by apply Hhcl|done| |done|done].
  destruct (alike_flagged _ _ _ _ Hcl Hop false c') as (c & Hc & Ha); [apply elem_of_flagged; by left|].
  apply elem_of_flagged in Hc as [[_ Hc]|[? _]]; [|done]. destruct Ha as (_ & -> & -> & _).
  destruct (sc_inodes _ _ _ _ _ _ _ Sc) as (-> & _). by apply D.
Qed.

Lemma found_total : total (all_of cl' op') = total (all_of cl op).
Proof using H0 Hcl Hop. unfold total. by rewrite (alike_entries _ _ (alike_all _ _ _ _ Hcl Hop)). Qed.
Lemma found_visible : visible cl' op' b first = visible cl op b first.
Proof using H0 Hcl Hop. unfold visible. by rewrite (alike_entries _ _ (alike_all _ _ _ _ Hcl Hop)). Qed.
Lemma found_chain : chain b (all_of cl' op').
Proof using D H0 Hcl Hop. eapply alike_chain; [by apply alike_all|apply D]. Qed.

(** The state once the objects are loaded. *)
Lemma found_store h w last cache latest :
  disk w path cl' op' b first [] →
  (∀ o c, (o, c) ∈ flagged cl' op' → h !! c_ptr c = Some (seg_of path o c)) →
  (∀ p, is_Some (h !! p) → is_Some (heap st !! p)) → last = b + total (all_of cl op) - 1 →
  store (mkStorage path (segments_ st) (open_segment_ st) last first cache latest h (next_ptr st) w) cl' op' b first.
Proof using D H0 Sc Hcl Hop Hseg Hopen Hptrs.
  intros HD Hh Hf ->. constructor; cbn; try done.
  - intros c Hc. apply (found_flagged true c), elem_of_flagged. by right.
  - intros p Hp. by apply (sc_fresh _ _ _ _ _ _ _ Sc), Hf.
  - by rewrite found_total.
Qed.

Lemma closed_ptrs : NoDup (c_ptr <$> cl').
Proof using H0 Hptrs. unfold all_of in Hptrs. rewrite fmap_app in Hptrs. by apply NoDup_app in Hptrs as [? _]. Qed.

Lemma LoadSegments_closed :
  op' = None →
  ∃ st', LoadSegments st = Some (0, st') ∧ calm (world st') ∧ store st' cl' op' b first ∧
    latest_entries_cache_ st' = latest_entries_cache_ st ∧ latest_entry_ st' = latest_entry_ st.
Proof using All.
  intros Hnone. destruct (sc_inodes _ _ _ _ _ _ _ Sc) as (Hino & Hnext & Hcalm).
  pose proof (sc_path _ _ _ _ _ _ _ Sc) as Hpath.
  assert (op = None) as Hnone' by (by inversion Hop; subst).
  destruct (load_closed_all cl' st Hcalm closed_ptrs found_loadable) as (h & HL & Hh1 & Hh2 & Hh3).
  assert (c_last <$> last cl' = Some (b + total (all_of cl op) - 1)) as Hlast.
  { pose proof found_chain as Hch. pose proof found_total as Htot. rewrite Hnone, all_of_None in Hch, Htot.
    pose proof (dk_first _ _ _ _ _ _ _ D). destruct (last cl') as [c|] eqn:E.
    - cbn. f_equal. rewrite (last_closed _ _ _ Hch E). lia.
    - apply last_None in E. rewrite E in Htot. unfold total in Htot at 1. cbn in Htot. lia. }
  pose proof (dk_bounds _ _ _ _ _ _ _ D) as [Hb0 _]. pose proof (dk_first _ _ _ _ _ _ _ D).
  eexists. split; [|split; [|split; [eapply (found_store h (world st)); [| | |reflexivity]|done]]]; [|done|..].
  - unfold LoadSegments. mrun. rewrite Hseg, HL. cbn [negb Z.eqb]. mrun. rewrite Hopen, Hnone. cbn [fmap option_fmap option_map negb Z.eqb].
    mrun. rewrite Hlast. cbn [default]. change (from_option id (last_log_index_ st) (Some ?x)) with x.
    rewrite (proj2 (Z.eqb_neq _ 0)) by (cbn; lia). rewrite Hpath, Hfirst, Hseg. done.
  - eapply (disk_reload cl cl' op op' Hcl Hop w0); [apply D|apply Sc|apply Sc|done| |].
    + rewrite Hnone'. done.
    + intros i _. by rewrite Hino.
  - intros o c Hin. rewrite Hnone in Hin. apply elem_of_flagged in Hin as [[-> Hin]|[_ ?]]; [|done].
    rewrite <-Hpath. by apply Hh1.
  - done.
Qed.

Lemma open_ptr_other c : op' = Some c → c_ptr c ∉ c_ptr <$> cl'.
Proof using Hptrs.
  intros Hc Hin. rewrite Hc, all_of_Some, fmap_app, NoDup_app in Hptrs. destruct Hptrs as (_ & Hd & _).
  apply (Hd _ Hin). by left.
Qed.

Lemma LoadSegments_with_open c :
  op' = Some c → torn t →
  ∃ st', LoadSegments st = Some (0, st') ∧ calm (world st') ∧ store st' cl' op' b first ∧
    latest_entries_cache_ st' = latest_entries_cache_ st ∧ latest_entry_ st' = latest_entry_ st.
Proof using All.
  intros Hsome Ht. destruct (sc_inodes _ _ _ _ _ _ _ Sc) as (Hino & Hnext & Hcalm).
  pose proof (sc_path _ _ _ _ _ _ _ Sc) as Hpath.
  destruct (load_closed_all cl' st Hcalm closed_ptrs found_loadable) as (h & HL & Hh1 & Hh2 & Hh3).
  assert (∃ c0, op = Some c0 ∧ alike c0 c) as (c0 & Hop0 & Ha).
  { rewrite Hsome in Hop. inversion Hop; subst. eauto. }
  destruct (found_flagged true c) as (Hn & Hok & Hpos); [apply elem_of_flagged; by right|].
  assert (inodes (world st) !! c_ino c = Some (log_bytes (c_es c) ++ t)) as Hi.
  { rewrite Hino. destruct Ha as (_ & -> & -> & _). by apply D. }
  destruct (Load_open_chunk (world st) path c t Hcalm Hn Hi Ht Hok Hpos)
    as (w' & HO & Hcalm' & Hnames' & Hnext' & Hi' & Hother).
  assert (c_last c = b + total (all_of cl op) - 1) as Hlast.
  { pose proof found_chain as Hch. rewrite <-found_total. rewrite Hsome, all_of_Some in Hch |- *.
    apply (last_closed _ _ _ Hch). by rewrite last_snoc. }
  pose proof (dk_bounds _ _ _ _ _ _ _ D) as [Hb0 _]. pose proof (dk_first _ _ _ _ _ _ _ D).
  pose proof (open_ptr_other c Hsome) as Hptr.
  eexists. split; [|split; [|split; [eapply (found_store (<[c_ptr c := seg_of path true c]> h) w'); [| | |reflexivity]|done]]];
    [|done|..].
  - unfold LoadSegments. mrun. rewrite Hseg, HL. cbn [negb Z.eqb]. mrun. rewrite Hopen, Hsome.
    cbn [fmap option_fmap option_map]. mrun. rewrite (Hh2 _ Hptr), (Hhop c Hsome). mrun. rewrite HO. mrun. cbn [negb Z.eqb].
    mrun. rewrite lookup_insert_eq. mrun. cbn [last_index_ seg_of]. rewrite Hfirst, Hlast.
    destruct (Z.ltb_spec (b + total (all_of cl op) - 1) first); [lia|]. mrun. cbn [negb Z.eqb]. mrun.
    rewrite (proj2 (Z.eqb_neq _ 0)) by lia. rewrite Hpath, Hseg. done.
  - eapply (disk_reload cl cl' op op' Hcl Hop w0); [apply D| | |by rewrite Hnext'| |].
    + rewrite Hnames'. apply Sc.
    + rewrite Hnames'. apply Sc.
    + intros x Hx. assert (x = c0) as -> by congruence. by destruct Ha as (_ & <- & <- & _).
    + intros i Hne. rewrite Hother, Hino; [done|]. destruct Ha as (_ & -> & _). by apply Hne.
  - intros o x Hin. apply elem_of_flagged in Hin as [[-> Hin]|[-> Hx]].
    + rewrite lookup_insert_ne; [rewrite <-Hpath; by apply Hh1|]. intros E. apply Hptr. rewrite E.
      apply list_elem_of_fmap. eauto.
    + assert (x = c) as -> by congruence. by rewrite lookup_insert_eq.
  - intros p. destruct (decide (p = c_ptr c)) as [->|Hp]; [rewrite (Hhop c Hsome); eauto|].
    rewrite lookup_insert_ne by done. apply Hh3.
Qed.
End found.

Lemma LoadSegments_store st0 st :
  scanned w0 path cl op (readdir w0 path) st0 st → torn t → first_log_index_ st = first →
  first < b + total (all_of cl op) →
  ∃ st' cl' op', LoadSegments st = Some (0, st') ∧ calm (world st') ∧ store st' cl' op' b first ∧
    visible cl' op' b first = visible cl op b first ∧
    latest_entries_cache_ st' = latest_entries_cache_ st0 ∧ latest_entry_ st' = latest_entry_ st0.
Proof using D H0.
  intros Sc Ht Hfirst Hnon.
  destruct (sc_const _ _ _ _ _ _ _ Sc) as (_ & _ & <- & <-).
  destruct (scanned_objects _ _ Sc) as (cl' & op' & Hcl & Hop & Hseg & Hopen & Hptrs & Hhcl & Hhop).
  assert (∃ st', LoadSegments st = Some (0, st') ∧ calm (world st') ∧ store st' cl' op' b first ∧
    latest_entries_cache_ st' = latest_entries_cache_ st ∧ latest_entry_ st' = latest_entry_ st)
    as (st' & HL & Hc & Hs & Hca & Hla).
  { destruct op' as [c|] eqn:E.
    - by eapply (LoadSegments_with_open st0 st cl' (Some c)).
    - by eapply (LoadSegments_closed st0 st cl' None). }
  exists st', cl', op'. split_and!; try done. by apply found_visible.
Qed.

Lemma Init_disk max :
  calm w0 → 0 <= max → torn t → first < b + total (all_of cl op) →
  ∃ st' cl' op', Init max (new_storage path w0) = Some (0, st') ∧ calm (world st') ∧ store st' cl' op' b first ∧
    visible cl' op' b first = visible cl op b first ∧ latest_entries_cache_ st' = [] ∧ latest_entry_ st' = None.
Proof using D H0.
  intros Hc Hmax Ht Hnon. destruct (dk_meta _ _ _ _ _ _ _ D) as (i & Hmeta & _).
  set (st0 := mkStorage path [] None 1 first [] None ∅ 0 w0).
  destruct (ListSegments_scans _ _ _ _ _ _ _ D st0 eq_refl eq_refl Hc eq_refl eq_refl) as (st1 & HL & Sc).
  { intros p [s Hs]. cbn in Hs. by rewrite lookup_empty in Hs. }
  destruct (LoadSegments_store _ _ Sc Ht) as (st' & cl' & op' & HS & Hrest).
  { by destruct (sc_const _ _ _ _ _ _ _ Sc) as (-> & _). }
  { done. }
  exists st', cl', op'. split; [|done]. unfold Init. rewrite (proj2 (Z.ltb_ge max 0)) by done. mrun.
  rewrite (LoadMeta_found (new_storage path w0) first i Hc Hmeta). cbn [negb Z.eqb]. mrun.
  cbn [new_storage log_path_ segments_ open_segment_ last_log_index_ latest_entries_cache_ latest_entry_ heap next_ptr world].
  fold st0. rewrite HL. cbn [negb Z.eqb]. mrun. by rewrite HS.
Qed.
End start.
End init.
