(* ===== verification/MraftTruncate.v ===== *)
(** * MraftTruncate: dropping the first entries of the log *)

From S2P Require Import Prelude MraftIobuf MraftOs MraftEntry MraftPb MraftSegment MraftSegmentSpec MraftLog MraftNames MraftStore MraftAppend MraftInit.

(** * Segments that go

    The files of segments are removed, and what is left is the directory of a
    shorter log.  Shared by the two truncations, with the writing of the meta file
    and the start on an empty directory. *)

Section shrink.
Context `{OutsideLaws}.
Implicit Types (st : Storage) (w : World).

(** ** Removing files *)

(** [w'] is [w] without the files [ns], and maybe without files that were already
    being removed. *)
Record removed (path : string) (ns : list string) w w' : Prop := {
  rm_inodes : inodes w' = inodes w;
  rm_next : next_ino w' = next_ino w;
  rm_calm : calm w';
  rm_keep n : n ∉ ns → is_tmp n = false → names w' !! in_dir path n = names w !! in_dir path n;
  rm_gone n : n ∈ ns → names w' !! in_dir path n = None;
  rm_less n : is_Some (names w' !! in_dir path n) → is_Some (names w !! in_dir path n)
}.

Lemma removed_nil path w : calm w → removed path [] w w.
Proof. intros Hc. constructor; try done. by intros n ?%elem_of_nil. Qed.

Lemma removed_cons path n ns w1 w2 w3 :
  removed path [n] w1 w2 → removed path ns w2 w3 → removed path (n :: ns) w1 w3.
Proof.
  intros [] []. constructor; try congruence.
  - intros k [Hk Hks]%not_elem_of_cons Ht. rewrite rm_keep1, rm_keep0 by (done || by rewrite list_elem_of_singleton). done.
  - intros k Hk. destruct (decide (k ∈ ns)) as [?|Hns]; [by apply rm_gone1|].
    apply elem_of_cons in Hk as [->|?]; [|done].
    apply eq_None_not_Some. intros Hs%rm_less1. rewrite rm_gone0 in Hs; [by destruct Hs|]. by left.
  - intros k Hs. by apply rm_less0, rm_less1.
Qed.

Lemma Unlink_removed w path o c i :
  calm w → names w !! in_dir path (c_name o c) = Some i →
  ∃ w', Unlink (seg_of path o c) w = (0, w') ∧ removed path [c_name o c] w w'.
Proof.
  intros Hc Hn. unfold Unlink. rewrite GetPath_seg_of. change (is_open_ (seg_of path o c)) with o.
  unfold sys_rename. rewrite ask_calm, Hn by done. cbn [negb Z.eqb].
  unfold sys_unlink. rewrite ask_calm by done. cbn [names set_names]. rewrite lookup_insert_eq.
  eexists. split; [done|]. rewrite in_dir_tmp.
  assert (is_tmp (c_name o c +:+ ".tmp") = true) as Htmp by (apply has_suffix_spec; eauto).
  constructor; cbn [inodes next_ino set_names names]; try done; rewrite delete_insert_eq.
  - intros n Hnn Ht. rewrite list_elem_of_singleton in Hnn.
    rewrite lookup_delete_ne by (intros <-%in_dir_inj; congruence).
    by rewrite lookup_delete_ne by (intros <-%in_dir_inj; congruence).
  - intros n ->%list_elem_of_singleton. apply lookup_delete_None. right. by rewrite lookup_delete_eq.
  - intros n. rewrite !lookup_delete_is_Some. tauto.
Qed.

Definition with_world st w : Storage :=
  mkStorage (log_path_ st) (segments_ st) (open_segment_ st) (last_log_index_ st) (first_log_index_ st)
    (latest_entries_cache_ st) (latest_entry_ st) (heap st) (next_ptr st) w.

(** Computes the fields of such a state. *)
Tactic Notation "st_simpl" "in" hyp(H) :=
  unfold with_world in H |- *;
  cbn [log_path_ segments_ open_segment_ last_log_index_ first_log_index_ latest_entries_cache_
       latest_entry_ heap next_ptr world] in H |- *.

(** The segments [l], each with its object and its file. *)
Definition removable st (l : list (bool * chunk)) : Prop :=
  NoDup (l.*2) ∧
  ∀ o c, (o, c) ∈ l → heap st !! c_ptr c = Some (seg_of (log_path_ st) o c) ∧
    is_Some (names (world st) !! in_dir (log_path_ st) (c_name o c)) ∧
    (∀ o' c', (o', c') ∈ l → c ≠ c' → c_name o c ≠ c_name o' c').

Lemma removable_tail st o c l w' :
  removable st ((o, c) :: l) → removed (log_path_ st) [c_name o c] (world st) w' → removable (with_world st w') l.
Proof.
  intros [Hnd Hl] Hr. cbn in Hnd. apply NoDup_cons in Hnd as [Hni Hnd]. split; [done|].
  intros o' c' Hin. destruct (Hl o' c') as (Hh & Hn & Hne); [by right|]. split_and!; [done| |].
  - cbn. assert (c ≠ c') as Hcc.
    { intros ->. apply Hni. apply list_elem_of_fmap. by exists (o', c'). }
    rewrite (rm_keep _ _ _ _ Hr); [done| |apply c_name_not_tmp].
    rewrite list_elem_of_singleton. intros E. destruct (Hl o c) as (_ & _ & Hne'); [left|].
    by apply (Hne' o' c'); [right|..].
  - intros o2 c2 Hin2. apply Hne. by right.
Qed.

Lemma unlink_all_removed st l :
  calm (world st) → removable st l →
  ∃ w', unlink_all (c_ptr <$> l.*2) st = Some (tt, with_world st w') ∧
        removed (log_path_ st) ((λ x, c_name x.1 x.2) <$> l) (world st) w'.
Proof.
  revert st. induction l as [|[o c] l IH]; intros st Hc Hr.
  { exists (world st). split; [by destruct st|by apply removed_nil]. }
  pose proof Hr as [_ Hl]. destruct (Hl o c) as (Hh & [i Hn] & _); [left|].
  destruct (Unlink_removed _ _ _ _ _ Hc Hn) as (w1 & HU & Hr1).
  destruct (IH (with_world st w1)) as (w' & HL & Hr'); [apply Hr1|by eapply removable_tail|].
  exists w'. split; [|by eapply removed_cons].
  cbn [fmap list_fmap unlink_all snd]. mrun. rewrite Hh. mrun. rewrite HU. mrun. st_simpl in HL. by rewrite HL.
Qed.

Lemma unlink_until_removed st l ret :
  calm (world st) → removable st l →
  ∃ w', unlink_until ret (c_ptr <$> l.*2) st = Some ((if bool_decide (l = []) then ret else 0, true), with_world st w') ∧
        removed (log_path_ st) ((λ x, c_name x.1 x.2) <$> l) (world st) w'.
Proof.
  revert st ret. induction l as [|[o c] l IH]; intros st ret Hc Hr.
  { exists (world st). split; [by destruct st|by apply removed_nil]. }
  pose proof Hr as [_ Hl]. destruct (Hl o c) as (Hh & [i Hn] & _); [left|].
  destruct (Unlink_removed _ _ _ _ _ Hc Hn) as (w1 & HU & Hr1).
  destruct (IH (with_world st w1) 0) as (w' & HL & Hr'); [apply Hr1|by eapply removable_tail|].
  exists w'. split; [|by eapply removed_cons].
  cbn [fmap list_fmap unlink_until snd]. mrun. rewrite Hh. mrun. rewrite HU. mrun. cbn [negb Z.eqb].
  mrun. st_simpl in HL. rewrite HL. by case_bool_decide.
Qed.

(** The segments of a log can be removed. *)
Lemma store_removable st cl op b first l :
  store st cl op b first → l ⊆+ flagged cl op → removable st l.
Proof.
  intros S Hsub.
  assert (NoDup ((flagged cl op).*2)) as Hnd.
  { pose proof (st_ptrs _ _ _ _ _ S) as Hp. unfold flagged. rewrite fmap_app, <-!list_fmap_compose.
    change (snd ∘ pair false) with (@id chunk). change (snd ∘ pair true) with (@id chunk).
    rewrite !list_fmap_id. eapply NoDup_fmap_1. exact Hp. }
  assert (∀ x, x ∈ l → x ∈ flagged cl op) as Hin by (intros x Hx; by eapply elem_of_submseteq).
  split.
  - assert (l.*2 ⊆+ (flagged cl op).*2) as Hs by (by apply fmap_submseteq).
    apply submseteq_Permutation in Hs as [k Hk]. rewrite Hk in Hnd. by apply NoDup_app in Hnd as [? _].
  - intros o c Hc. pose proof (dk_name _ _ _ _ _ _ _ (st_disk _ _ _ _ _ S)) as Hn. split_and!.
    + by apply S, Hin.
    + rewrite (Hn _ _ (Hin _ Hc)). eauto.
    + intros o' c' Hc' Hne E. pose proof (Hn _ _ (Hin _ Hc)) as E1. pose proof (Hn _ _ (Hin _ Hc')) as E2.
      rewrite E in E1. apply Hne. eapply NoDup_map_inj; [apply (st_disk _ _ _ _ _ S)|by eapply flagged_all, Hin..|].
      congruence.
Qed.

(** ** Writing the meta file *)

Record saved (path : string) (z : Z) (i : nat) w w' : Prop := {
  sv_meta : meta_at w' path z i;
  sv_calm : calm w';
  sv_names n : n ≠ kSegmentLogMeta → names w' !! in_dir path n = names w !! in_dir path n;
  sv_inodes j : j ≠ i → inodes w' !! j = inodes w !! j;
  sv_fresh : (∀ j, is_Some (inodes w !! j) → (j < next_ino w)%nat) →
             ∀ j, is_Some (inodes w' !! j) → (j < next_ino w')%nat;
  sv_which : names w !! in_dir path kSegmentLogMeta = Some i ∨
             names w !! in_dir path kSegmentLogMeta = None ∧ i = next_ino w
}.

Lemma saved_refl path z i w : calm w → meta_at w path z i → saved path z i w w.
Proof. intros Hc Hm. constructor; try done. left. apply Hm. Qed.

Lemma SaveMeta_saved st z :
  calm (world st) → is_i64 z →
  (∀ i, names (world st) !! meta_file st = Some i → is_Some (inodes (world st) !! i)) →
  ∃ i w', SaveMeta z st = Some (0, with_world st w') ∧ saved (log_path_ st) z i (world st) w'.
Proof.
  intros Hc Hz Hex. destruct (pb_round_trip z Hz) as (m & Hm1 & Hm11 & Hm3).
  assert (Z.of_nat (length m) < 2 ^ 32) as Hm2 by lia.
  assert (∃ i w1, sys_create (world st) (meta_file st) = (Some (mkFd i 0), w1) ∧ calm w1 ∧ inodes w1 !! i = Some [] ∧
    names w1 !! meta_file st = Some i ∧
    saved (log_path_ st) z i (world st) (set_inode w1 i (LocalInt.Write 4 (Z.of_nat (length m)) ++ m)))
    as (i & w1 & HC & Hc1 & Hi1 & Hn1 & Hsv).
  { unfold sys_create. rewrite ask_calm by done. unfold meta_file in *.
    destruct (names (world st) !! in_dir (log_path_ st) kSegmentLogMeta) as [i|] eqn:E.
    - exists i. eexists. split_and!; [done|done|cbn; by rewrite lookup_insert_eq|done|]. constructor; try done.
      + split; [done|]. exists m. split_and!; try done. cbn. by rewrite lookup_insert_eq.
      + intros j Hj. cbn. by rewrite !lookup_insert_ne.
      + intros Hf j. cbn. destruct (decide (j = i)) as [->|Hj]; [intros _; by apply Hf, Hex|].
        rewrite !lookup_insert_ne by done. apply Hf.
      + by left.
    - exists (next_ino (world st)). eexists. split_and!; [done|done|cbn; by rewrite lookup_insert_eq..|].
      constructor; cbn; try done.
      + split; [cbn; by rewrite lookup_insert_eq|]. exists m. split_and!; try done. cbn. by rewrite lookup_insert_eq.
      + intros n Hn. rewrite lookup_insert_ne; [done|]. intros E'%in_dir_inj. congruence.
      + intros j Hj. by rewrite !lookup_insert_ne.
      + intros Hf j. destruct (decide (j = next_ino (world st))) as [->|Hj]; [lia|].
        rewrite !lookup_insert_ne by done. intros Hs%Hf. lia.
      + by right. }
  exists i. eexists. split; [|exact Hsv]. unfold SaveMeta. mrun.
  unfold pb_write_file. rewrite HC. rewrite (pb_write_fd_empty _ _ _ m) by (try done; unfold kBlockSize; lia). done.
Qed.

(** ** The directory that is left *)

Lemma disk_shrink w w1 w' path cl op b first t cl2 op2 b2 first2 ns i :
  disk w path cl op b first t → saved path first2 i w w1 → removed path ns w1 w' →
  (∀ x, x ∈ flagged cl2 op2 → x ∈ flagged cl op) → all_of cl2 op2 ⊆+ all_of cl op →
  (∀ o c, (o, c) ∈ flagged cl op → c_name o c ∈ ns ∨ (o, c) ∈ flagged cl2 op2) →
  (∀ o c, (o, c) ∈ flagged cl2 op2 → c_name o c ∉ ns) → kSegmentLogMeta ∉ ns →
  chain b2 (all_of cl2 op2) → indexed b2 (entries (all_of cl2 op2)) →
  0 < b2 ∧ b2 + total (all_of cl2 op2) < 2 ^ 63 → b2 <= first2 <= b2 + total (all_of cl2 op2) →
  disk w' path cl2 op2 b2 first2 t.
Proof.
  intros D Sv Rm Hsub Hall Hgone Hkept Hmeta Hch Hix Hb Hf.
  assert (∀ c, c ∈ all_of cl2 op2 → c ∈ all_of cl op) as Hin by (intros c Hc; by eapply elem_of_submseteq).
  assert ((i ∉ c_ino <$> all_of cl op) ∧ (i < next_ino w1)%nat) as [Hi Hi1].
  { destruct (dk_meta _ _ _ _ _ _ _ D) as (j & (Hn & _) & Hj). split.
    - destruct (sv_which _ _ _ _ _ Sv) as [E|[E _]]; congruence.
    - apply (sv_fresh _ _ _ _ _ Sv (dk_fresh _ _ _ _ _ _ _ D)). destruct (sv_meta _ _ _ _ _ Sv) as (_ & m & _ & _ & _ & ->). eauto. }
  assert (∀ c, c ∈ all_of cl op → inodes w' !! c_ino c = inodes w !! c_ino c) as Hino.
  { intros c Hc. rewrite (rm_inodes _ _ _ _ Rm), (sv_inodes _ _ _ _ _ Sv); [done|].
    intros E. apply Hi. rewrite <-E. apply list_elem_of_fmap. eauto. }
  constructor; try done.
  - intros o c Hc. rewrite (rm_keep _ _ _ _ Rm) by (by apply Hkept || apply c_name_not_tmp).
    rewrite (sv_names _ _ _ _ _ Sv); [by apply D, Hsub|]. pose proof (c_name_special o c) as E.
    apply bool_decide_eq_false in E. tauto.
  - intros c Hc. rewrite Hino; [apply (dk_closed _ _ _ _ _ _ _ D)|apply Hin; unfold all_of; set_solver].
    specialize (Hsub (false, c)). rewrite !elem_of_flagged in Hsub. naive_solver.
  - intros c Hc. rewrite Hino; [apply (dk_open _ _ _ _ _ _ _ D)|apply Hin; subst op2; rewrite all_of_Some; set_solver].
    specialize (Hsub (true, c)). rewrite !elem_of_flagged in Hsub. naive_solver.
  - pose proof (dk_ok _ _ _ _ _ _ _ D) as Hok. rewrite Forall_forall in Hok |- *. intros e He.
    apply list_elem_of_bind in He as (c & Hec & Hc). apply Hok. eapply entries_elem; [by apply Hin|done].
  - assert ((c_ino <$> all_of cl2 op2) ⊆+ (c_ino <$> all_of cl op)) as Hs by (by apply fmap_submseteq).
    apply submseteq_Permutation in Hs as [k Hk]. pose proof (dk_inos _ _ _ _ _ _ _ D) as Hnd. rewrite Hk in Hnd.
    by apply NoDup_app in Hnd as [? _].
  - intros j. rewrite (rm_inodes _ _ _ _ Rm), (rm_next _ _ _ _ Rm).
    apply (sv_fresh _ _ _ _ _ Sv (dk_fresh _ _ _ _ _ _ _ D)).
  - exists i. split.
    + destruct (sv_meta _ _ _ _ _ Sv) as (Hn & Hm). split; [by rewrite (rm_keep _ _ _ _ Rm)|].
      by rewrite (rm_inodes _ _ _ _ Rm).
    + intros (c & -> & Hc)%list_elem_of_fmap. apply Hi. apply list_elem_of_fmap. eauto.
  - intros n j Hn. destruct (decide (n = kSegmentLogMeta)) as [->|Hnm]; [by left|].
    destruct (rm_less _ _ _ _ Rm n ltac:(eauto)) as [j' Hj']. rewrite (sv_names _ _ _ _ _ Sv) in Hj' by done.
    destruct (dk_dir _ _ _ _ _ _ _ D _ _ Hj') as [?|[?|(o & c & Hc & ->)]]; [by left|by right; left|].
    destruct (Hgone _ _ Hc) as [Hg|?]; [by rewrite (rm_gone _ _ _ _ Rm _ Hg) in Hn|]. right. right. eauto.
Qed.

(** ** The first start *)

Lemma list_loop_dots e fs st :
  (∀ n, n ∈ fs → n = "."%string ∨ n = ".."%string) → list_loop e fs st = Some (0, st).
Proof.
  induction fs as [|n fs IH]; intros Hf; [done|]. cbn [list_loop].
  rewrite bool_decide_eq_true_2 by (right; apply Hf; left). apply IH. intros k Hk. apply Hf. by right.
Qed.

Lemma Init_fresh max w path :
  calm w → 0 <= max → (∀ n, names w !! in_dir path n = None) →
  (∀ i, is_Some (inodes w !! i) → (i < next_ino w)%nat) →
  ∃ st', Init max (new_storage path w) = Some (0, st') ∧ calm (world st') ∧ store st' [] None 1 1 ∧
    latest_entries_cache_ st' = [] ∧ latest_entry_ st' = None ∧ log_path_ st' = path.
Proof.
  intros Hc Hmax Hn Hfresh. set (st0 := mkStorage path [] None 0 1 [] None ∅ 0 w).
  destruct (SaveMeta_saved st0 1) as (i & w' & HS & Sv); [done|unfold is_i64; lia| |].
  { intros j. unfold meta_file. cbn [st0 log_path_ world]. by rewrite Hn. }
  exists (with_world st0 w'). split_and!; [|apply Sv| |done|done|done].
  - unfold Init. rewrite (proj2 (Z.ltb_ge max 0)) by done. mrun. unfold LoadMeta. mrun.
    unfold meta_file. cbn [new_storage log_path_ world]. rewrite Hn. mrun. cbn [negb Z.eqb].
    unfold ListSegments. mrun. unfold sys_opendir. cbn [new_storage log_path_ world]. rewrite ask_calm by done. mrun.
    cbn [negb]. rewrite list_loop_dots.
    + cbn [negb Z.eqb]. mrun. done.
    + intros n Hnin. apply readdir_elem in Hnin as [_ [?|[?|Hs]]]; [by left|by right|].
      cbn in Hs. rewrite Hn in Hs. by destruct Hs.
  - constructor; cbn; try done; try by (intros; lia).
    + constructor; try done; try (by constructor); try by (intros c ?%elem_of_nil).
      * intros o c Hin. by apply elem_of_nil in Hin.
      * by apply Sv.
      * exists i. split; [apply Sv|]. by intros ?%elem_of_nil.
      * intros n j Hj. destruct (decide (n = kSegmentLogMeta)) as [->|Hnm]; [by left|].
        rewrite (sv_names _ _ _ _ _ Sv) in Hj by done. cbn in Hj. by rewrite Hn in Hj.
    + intros o c Hin. by apply elem_of_nil in Hin.
    + constructor.
    + intros p [s Hs]. by rewrite lookup_empty in Hs.
Qed.
End shrink.

(** * Dropping entries

    [TruncatePrefix] drops the entries before an index, [TruncateSuffix] those
    after one; both remove whole segments, and the second cuts the last one.  Both
    end with a loop over the cache that only ends if it empties the cache. *)

(** ** The loops over the cache *)

Lemma pop_front_ends kept cache fuel :
  Forall (λ e, Index e < kept) cache → (length cache < fuel)%nat → pop_front_loop fuel kept cache = Some [].
Proof.
  intros Hf. revert fuel. induction Hf as [|e cache He _ IH]; intros [|fuel] Hl; cbn in *; try lia; [done|].
  rewrite (proj2 (Z.ltb_lt _ _) He). apply IH. lia.
Qed.

Lemma pop_front_stuck kept cache fuel :
  Exists (λ e, kept <= Index e) cache → pop_front_loop fuel kept cache = None.
Proof.
  revert cache. induction fuel as [|fuel IH]; intros cache Hx; [done|]. cbn.
  destruct cache as [|e cache]; [by apply Exists_nil in Hx|]. destruct (Z.ltb_spec (Index e) kept); apply IH; [|done].
  apply Exists_cons in Hx as [?|?]; [lia|done].
Qed.

Lemma pop_back_ends kept cache fuel :
  Forall (λ e, kept < Index e) cache → (length cache < fuel)%nat → pop_back_loop fuel kept cache = Some [].
Proof.
  revert fuel. induction cache as [|e cache IH] using rev_ind; intros [|fuel] Hf Hl; [cbn in Hl; lia|done|lia|].
  cbn [pop_back_loop]. rewrite last_snoc. apply Forall_app in Hf as [Hf He]. apply Forall_cons in He as [He _].
  rewrite (proj2 (Z.ltb_lt _ _) He), removelast_last. apply IH; [done|]. rewrite length_app in Hl. cbn in Hl. lia.
Qed.

Lemma pop_back_stuck kept cache fuel :
  Exists (λ e, Index e <= kept) cache → pop_back_loop fuel kept cache = None.
Proof.
  revert cache. induction fuel as [|fuel IH]; intros cache Hx; [done|]. cbn.
  destruct cache as [|e cache _] using rev_ind; [by apply Exists_nil in Hx|]. rewrite last_snoc.
  destruct (Z.ltb_spec kept (Index e)); apply IH; [|done]. rewrite removelast_last.
  apply Exists_app in Hx as [?|[?|[]%Exists_nil]%Exists_cons]; [done|lia].
Qed.

Lemma flagged_snd cl op : (flagged cl op).*2 = all_of cl op.
Proof.
  unfold flagged, all_of. rewrite fmap_app, <-!list_fmap_compose.
  change (snd ∘ pair false) with (@id chunk). change (snd ∘ pair true) with (@id chunk). by rewrite !list_fmap_id.
Qed.

Section truncate.
Context `{OutsideLaws}.
Implicit Types (st : Storage) (w : World).

Abbreviation with_segments st l := (mkStorage (log_path_ st) l (open_segment_ st) (last_log_index_ st)
  (first_log_index_ st) (latest_entries_cache_ st) (latest_entry_ st) (heap st) (next_ptr st) (world st)).
Abbreviation seg_entry := (λ c, (c_first c, c_ptr c)).

(** ** Popping at the front *)

(** [PopSegments] is defined: iterators stay valid, or no closed segment goes. *)
Definition front_safe (kept : Z) (cl : list chunk) : Prop :=
  iterators_stay = true ∨ ∀ c, head cl = Some c → kept <= c_last c.

Lemma front_safe_dec kept cl :
  front_safe kept cl ∨ iterators_stay = false ∧ ∃ c rest, cl = c :: rest ∧ c_last c < kept.
Proof.
  unfold front_safe. destruct iterators_stay; [by left; left|]. destruct cl as [|c rest]; [by left; right|].
  destruct (Z.ltb_spec (c_last c) kept); [right; eauto|left; right; by intros ? [= <-]].
Qed.

Lemma pop_closed_split kept cl st :
  front_safe kept cl →
  (∀ c, c ∈ cl → heap st !! c_ptr c = Some (seg_of (log_path_ st) false c)) → segments_ st = seg_entry <$> cl →
  ∃ pre cl2, cl = pre ++ cl2 ∧ (∀ c, c ∈ pre → c_last c < kept) ∧ (∀ c, head cl2 = Some c → kept <= c_last c) ∧
    pop_closed kept (seg_entry <$> cl) st
    = Some ((c_ptr <$> pre, bool_decide (cl2 ≠ [])), with_segments st (seg_entry <$> cl2)).
Proof.
  revert st. induction cl as [|c cl IH]; intros st Hsafe Hh Hs.
  { exists [], []. split_and!; [done|by intros ? ?%elem_of_nil|done|]. rewrite bool_decide_eq_false_2 by tauto.
    destruct st. cbn in *. by subst. }
  cbn [fmap list_fmap pop_closed]. mrun. rewrite (Hh c) by left. mrun. cbn [last_index_ seg_of].
  destruct (Z.ltb_spec (c_last c) kept) as [Hl|Hl].
  - destruct Hsafe as [Hstay|Hstay]; [|specialize (Hstay c eq_refl); lia].
    destruct (IH (with_segments st (seg_entry <$> cl))) as (pre & cl2 & -> & Hpre & Hhd & HP); [by left| |done|].
    { intros x Hx. apply Hh. by right. }
    exists (c :: pre), cl2. split_and!; [done| |done|].
    + intros x [->|Hx]%elem_of_cons; [done|by apply Hpre].
    + mrun. rewrite Hstay. mrun. cbn [log_path_ open_segment_ last_log_index_ first_log_index_ latest_entries_cache_ latest_entry_ heap next_ptr world] in HP.
      by rewrite HP.
  - exists [], (c :: cl). split_and!; [done|by intros ? ?%elem_of_nil|by intros x [= <-]|].
    mrun. rewrite bool_decide_eq_true_2 by done. rewrite <-Hs. by destruct st.
Qed.

(** The state after [PopSegments], when [cl] and [op] are left. *)
Definition popped_front st (kept : Z) (cl : list chunk) (op : option chunk) : Storage :=
  mkStorage (log_path_ st) (seg_entry <$> cl) (c_ptr <$> op)
    (if bool_decide (flagged cl op = []) then kept - 1 else last_log_index_ st) kept
    (latest_entries_cache_ st) (latest_entry_ st) (heap st) (next_ptr st) (world st).

Lemma PopSegments_run st kept popped stop st2 :
  pop_closed kept (segments_ st)
    (mkStorage (log_path_ st) (segments_ st) (open_segment_ st) (last_log_index_ st) kept
       (latest_entries_cache_ st) (latest_entry_ st) (heap st) (next_ptr st) (world st))
  = Some ((popped, stop), st2) →
  PopSegments kept st =
    if stop then Some (popped, st2)
    else match open_segment_ st2 with
         | Some p =>
             (s ← deref p;
              if last_index_ s <? kept then set_open None;; set_last (kept - 1);; mret (popped ++ [p])
              else mret popped) st2
         | None => (set_last (kept - 1);; mret popped) st2
         end.
Proof.
  intros E. unfold PopSegments. mrun. rewrite E. destruct stop; [done|].
  mrun. destruct (open_segment_ st2) eqn:Eo; [done|]. by rewrite Eo.
Qed.

Lemma PopSegments_split st cl op kept :
  front_safe kept cl → segments_ st = seg_entry <$> cl → open_segment_ st = c_ptr <$> op →
  (∀ o c, (o, c) ∈ flagged cl op → heap st !! c_ptr c = Some (seg_of (log_path_ st) o c)) →
  ∃ pre cl2 op2, flagged cl op = pre ++ flagged cl2 op2 ∧ (∀ o c, (o, c) ∈ pre → c_last c < kept) ∧
    (∀ o c, head (flagged cl2 op2) = Some (o, c) → kept <= c_last c) ∧
    PopSegments kept st = Some (c_ptr <$> pre.*2, popped_front st kept cl2 op2).
Proof.
  intros Hsafe Hseg Hopen Hheap. set (st1 := mkStorage (log_path_ st) (segments_ st) (open_segment_ st) (last_log_index_ st) kept
    (latest_entries_cache_ st) (latest_entry_ st) (heap st) (next_ptr st) (world st)).
  destruct (pop_closed_split kept cl st1) as (pre & cl2 & Hcl & Hpre & Hhd & HP); [done| |done|].
  { intros c Hc. apply Hheap, elem_of_flagged. by left. }
  rewrite <-Hseg in HP. rewrite (PopSegments_run _ _ _ _ _ HP).
  assert (∀ o c, (o, c) ∈ pair false <$> pre → c_last c < kept) as Hpre'.
  { intros o c (x & [= -> ->] & Hc)%list_elem_of_fmap. by apply Hpre. }
  assert ((pair false <$> pre).*2 = pre) as Hsnd by (by rewrite <-list_fmap_compose, list_fmap_id).
  destruct cl2 as [|c2 cl2].
  2: { rewrite bool_decide_eq_true_2 by done. exists (pair false <$> pre), (c2 :: cl2), op. split_and!.
       - unfold flagged. by rewrite Hcl, fmap_app, <-app_assoc.
       - done.
       - intros o c [= <- <-]. by apply Hhd.
       - rewrite Hsnd. unfold popped_front. rewrite bool_decide_eq_false_2 by done. by rewrite <-Hopen. }
  rewrite bool_decide_eq_false_2 by tauto. rewrite app_nil_r in Hcl. subst pre.
  unfold st1. mrun. rewrite Hopen. destruct op as [c|]; cbn [fmap option_fmap option_map].
  - mrun. rewrite (Hheap true c) by (apply elem_of_flagged; by right). mrun.
    cbn [last_index_ seg_of]. destruct (Z.ltb_spec (c_last c) kept) as [Hl|Hl].
    + exists (flagged cl (Some c)), [], None. split_and!; [by rewrite app_nil_r| |done|].
      * intros o x [[-> Hx]|[-> [= <-]]]%elem_of_flagged; [by apply Hpre|done].
      * rewrite flagged_snd, all_of_Some, fmap_app. done.
    + exists (pair false <$> cl), [], (Some c). split_and!; [done|done|by intros o x [= <- <-]|].
      rewrite Hsnd. unfold popped_front. rewrite bool_decide_eq_false_2 by done. done.
  - exists (pair false <$> cl), [], None. split_and!; [done|done|done|]. rewrite Hsnd. done.
Qed.

(** What is left of a chain of segments. *)
Section left_over.
Context (w : World) (path : string) (cl : list chunk) (op : option chunk) (b first : Z) (t : list Z).
Context (D : disk w path cl op b first t).
Context (pre : list (bool * chunk)) (cl2 : list chunk) (op2 : option chunk).
Context (Hfl : flagged cl op = pre ++ flagged cl2 op2).

Lemma left_all : all_of cl op = pre.*2 ++ all_of cl2 op2.
Proof using Hfl. rewrite <-!flagged_snd, Hfl. apply fmap_app. Qed.

Lemma left_chain : chain b pre.*2 ∧ chain (b + total pre.*2) (all_of cl2 op2).
Proof using All. apply chain_app. rewrite <-left_all. apply D. Qed.

Lemma left_kept o c : (o, c) ∈ flagged cl2 op2 → c_name o c ∉ (λ x, c_name x.1 x.2) <$> pre.
Proof using All.
  intros Hin ([o' c'] & E & Hin')%list_elem_of_fmap. cbn in E.
  assert (c = c') as <-.
  { assert ((o, c) ∈ flagged cl op ∧ (o', c') ∈ flagged cl op) as [H1 H2] by (rewrite Hfl; set_solver).
    eapply NoDup_map_inj; [apply D|by eapply flagged_all..|].
    pose proof (dk_name _ _ _ _ _ _ _ D _ _ H1) as E1. pose proof (dk_name _ _ _ _ _ _ _ D _ _ H2) as E2.
    rewrite E in E1. congruence. }
  pose proof (dk_inos _ _ _ _ _ _ _ D) as Hn. apply NoDup_fmap_1 in Hn. rewrite left_all in Hn.
  apply NoDup_app in Hn as (_ & Hn & _). apply (Hn c); [apply list_elem_of_fmap; by exists (o', c)|].
  by eapply flagged_all.
Qed.

Lemma left_meta : kSegmentLogMeta ∉ (λ x, c_name x.1 x.2) <$> pre.
Proof.
  intros ([o c] & E & _)%list_elem_of_fmap. pose proof (c_name_special o c) as Hs.
  apply bool_decide_eq_false in Hs. cbn in E. by destruct Hs; left.
Qed.

(** The segments that go end before [kept]. *)
Lemma left_low kept :
  first <= kept → (∀ o c, (o, c) ∈ pre → c_last c < kept) → b + total pre.*2 <= kept.
Proof using All.
  intros Hk Hpre. destruct left_chain as [Hc1 _]. pose proof (dk_first _ _ _ _ _ _ _ D).
  destruct (last pre.*2) as [x|] eqn:E.
  - pose proof (last_closed _ _ _ Hc1 E) as Hl. apply last_Some in E as [l E].
    assert (x ∈ pre.*2) as ([o' x'] & -> & Hx)%list_elem_of_fmap by (rewrite E; set_solver).
    specialize (Hpre _ _ Hx). cbn in *. lia.
  - apply last_None in E. rewrite E. unfold total. cbn. lia.
Qed.

(** The first segment that is left has the index [kept]. *)
Lemma left_high kept o c :
  head (flagged cl2 op2) = Some (o, c) → kept <= c_last c →
  kept <= b + total pre.*2 + total (all_of cl2 op2).
Proof using All.
  intros Hhd Hc. destruct left_chain as [_ Hc2].
  assert (c ∈ all_of cl2 op2) as Hin.
  { eapply flagged_all. destruct (flagged cl2 op2); [done|]. injection Hhd as ->. by left. }
  destruct (chain_bounds _ _ _ Hc2 Hin). lia.
Qed.

Lemma left_visible kept :
  first <= kept → b + total pre.*2 <= kept →
  visible cl2 op2 (b + total pre.*2) kept = drop (Z.to_nat (kept - first)) (visible cl op b first).
Proof using All.
  intros Hk1 Hk2. pose proof (dk_first _ _ _ _ _ _ _ D). unfold visible. rewrite left_all, entries_app, drop_drop.
  rewrite drop_app_ge by (unfold total in *; lia). f_equal. unfold total in *. lia.
Qed.
End left_over.

Lemma indexed_app_r b es1 es2 : indexed b (es1 ++ es2) → indexed (b + Z.of_nat (length es1)) es2.
Proof.
  intros Hi k e Hk. rewrite (Hi (length es1 + k)%nat e); [lia|]. rewrite lookup_app_r by lia.
  by replace (length es1 + k - length es1)%nat with k by lia.
Qed.

Lemma removable_world st st' l :
  removable st l → heap st' = heap st → log_path_ st' = log_path_ st →
  (∀ n, n ≠ kSegmentLogMeta → names (world st') !! in_dir (log_path_ st) n = names (world st) !! in_dir (log_path_ st) n) →
  removable st' l.
Proof.
  intros [Hnd Hl] Hh Hp Hn. split; [done|]. intros o c Hc. destruct (Hl o c Hc) as (H1 & H2 & H3).
  rewrite Hh, Hp. split_and!; [done| |done]. rewrite Hn; [done|].
  pose proof (c_name_special o c) as Hs. apply bool_decide_eq_false in Hs. tauto.
Qed.

(** The state when [cl2] and [op2] are left at the end of the log. *)
Lemma store_left st cl op b first pre cl2 op2 b2 kept w1 w' i cache latest :
  store st cl op b first → flagged cl op = pre ++ flagged cl2 op2 →
  saved (log_path_ st) kept i (world st) w1 →
  removed (log_path_ st) ((λ x, c_name x.1 x.2) <$> pre) w1 w' →
  (flagged cl2 op2 = [] ∧ b2 = kept ∨ flagged cl2 op2 ≠ [] ∧ b2 = b + total pre.*2) →
  b2 <= kept <= b2 + total (all_of cl2 op2) → 0 < kept < 2 ^ 63 →
  store (mkStorage (log_path_ st) (seg_entry <$> cl2) (c_ptr <$> op2)
           (if bool_decide (flagged cl2 op2 = []) then kept - 1 else last_log_index_ st) kept
           cache latest (heap st) (next_ptr st) w') cl2 op2 b2 kept.
Proof.
  intros S Hfl Sv Rm Hb2 Hr Hk. pose proof (st_disk _ _ _ _ _ S) as D.
  pose proof (left_all _ _ _ _ _ Hfl) as Hall. destruct (left_chain _ _ _ _ _ _ _ D _ _ _ Hfl) as [_ Hch].
  pose proof (dk_bounds _ _ _ _ _ _ _ D) as [Hb0 Hb1]. rewrite Hall, total_app in Hb1.
  assert (flagged cl2 op2 = [] → all_of cl2 op2 = []) as Hnil by (intros E; by rewrite <-flagged_snd, E).
  assert (∀ x, x ∈ flagged cl2 op2 → x ∈ flagged cl op) as Hsub by (intros x Hx; rewrite Hfl; set_solver).
  constructor; cbn; try done.
  - eapply (disk_shrink (world st) w1 w' (log_path_ st) cl op b first [] cl2 op2 b2 kept); try done.
    + rewrite Hall. by apply submseteq_inserts_l.
    + intros o c Hin. rewrite Hfl in Hin. apply elem_of_app in Hin as [Hin|?]; [|by right].
      left. apply list_elem_of_fmap. by exists (o, c).
    + intros o c Hin. by eapply left_kept.
    + apply left_meta.
    + destruct Hb2 as [[E ->]|[_ ->]]; [by rewrite Hnil|done].
    + destruct Hb2 as [[E ->]|[_ ->]]; [by rewrite Hnil|].
      pose proof (dk_indexed _ _ _ _ _ _ _ D) as Hix. rewrite Hall, entries_app in Hix. by apply indexed_app_r.
    + pose proof (total_nonneg pre.*2). destruct Hb2 as [[E ->]|[_ ->]]; [|lia]. rewrite Hnil by done. unfold total. cbn. lia.
  - intros o c Hin. by apply S, Hsub.
  - intros c Hc. apply (st_pos _ _ _ _ _ S). specialize (Hsub (true, c)). rewrite !elem_of_flagged in Hsub. naive_solver.
  - pose proof (st_ptrs _ _ _ _ _ S) as Hn. rewrite Hall, fmap_app in Hn. by apply NoDup_app in Hn as (_ & _ & ?).
  - apply S.
  - case_bool_decide as E; destruct Hb2 as [[E' ->]|[E' ->]]; try done.
    + rewrite Hnil by done. unfold total. cbn. lia.
    + rewrite (st_last _ _ _ _ _ S), Hall, total_app. lia.
Qed.

Lemma SaveMeta_store st cl op b first kept :
  calm (world st) → store st cl op b first → first < kept < 2 ^ 63 →
  ∃ i w', SaveMeta kept st = Some (0, with_world st w') ∧ saved (log_path_ st) kept i (world st) w'.
Proof.
  intros Hc S Hk. pose proof (st_disk _ _ _ _ _ S) as D. pose proof (dk_bounds _ _ _ _ _ _ _ D) as [Hb0 Hb1].
  pose proof (dk_first _ _ _ _ _ _ _ D) as Hfb.
  apply SaveMeta_saved; [done|unfold is_i64; lia|].
  intros i. destruct (dk_meta _ _ _ _ _ _ _ D) as (j & (Hn & m & _ & _ & _ & Hm) & _). unfold meta_file. rewrite Hn.
  intros [= <-]. eauto.
Qed.

(** A closed segment that goes takes the loop to an iterator that is not valid. *)
Lemma PopSegments_invalid st c cl kept :
  iterators_stay = false → segments_ st = seg_entry <$> c :: cl →
  heap st !! c_ptr c = Some (seg_of (log_path_ st) false c) → c_last c < kept → PopSegments kept st = None.
Proof.
  intros Hstay Hs Hh Hl. unfold PopSegments. mrun. rewrite Hs. cbn [fmap list_fmap pop_closed]. mrun. rewrite Hh. mrun.
  cbn [last_index_ seg_of]. destruct (Z.ltb_spec (c_last c) kept); [|lia]. mrun. by rewrite Hstay.
Qed.

Lemma TruncatePrefix_invalid st c cl op b first kept fuel :
  calm (world st) → store st (c :: cl) op b first → first < kept < 2 ^ 63 →
  iterators_stay = false → c_last c < kept → TruncatePrefix fuel kept st = None.
Proof.
  intros Hc S Hk Hstay Hl. destruct (SaveMeta_store st (c :: cl) op b first kept) as (i & w1 & HS & _); [done..|].
  unfold TruncatePrefix. mrun. rewrite (st_first _ _ _ _ _ S). destruct (Z.leb_spec kept first); [lia|].
  rewrite HS. cbn [negb Z.eqb]. mrun. rewrite (PopSegments_invalid (with_world st w1) c cl); [done..|apply S| |done].
  apply (st_heap _ _ _ _ _ S), elem_of_flagged. left. split; [done|by left].
Qed.

(** The loop over the cache is the last step. *)
Lemma TruncatePrefix_run st cl op b first kept :
  calm (world st) → store st cl op b first → first < kept < 2 ^ 63 → front_safe kept cl →
  ∃ st1 cl2 op2 b2,
    (∀ fuel, TruncatePrefix fuel kept st = (clear_cache (pop_front_loop fuel kept);; mret 0) st1) ∧
    calm (world st1) ∧ store st1 cl2 op2 b2 kept ∧
    visible cl2 op2 b2 kept = drop (Z.to_nat (kept - first)) (visible cl op b first) ∧
    latest_entries_cache_ st1 = latest_entries_cache_ st ∧ latest_entry_ st1 = latest_entry_ st.
Proof.
  intros Hc S Hk Hsafe. pose proof (st_disk _ _ _ _ _ S) as D.
  pose proof (dk_bounds _ _ _ _ _ _ _ D) as [Hb0 Hb1]. pose proof (dk_first _ _ _ _ _ _ _ D) as Hfb.
  destruct (SaveMeta_store st cl op b first kept) as (i & w1 & HS & Sv); [done..|].
  destruct (PopSegments_split (with_world st w1) cl op kept) as (pre & cl2 & op2 & Hfl & Hpre & Hhd & HP); [done|apply S..|].
  destruct (unlink_all_removed (popped_front (with_world st w1) kept cl2 op2) pre) as (w' & HU & Rm); [apply Sv| |].
  { eapply (removable_world st); [|done|done|by apply Sv]. eapply store_removable; [done|].
    rewrite Hfl. by apply submseteq_inserts_r. }
  destruct (left_chain _ _ _ _ _ _ _ D _ _ _ Hfl) as [Hc1 Hc2].
  set (b2 := if bool_decide (flagged cl2 op2 = []) then kept else b + total pre.*2).
  assert ((flagged cl2 op2 = [] ∧ b2 = kept ∨ flagged cl2 op2 ≠ [] ∧ b2 = b + total pre.*2) ∧
    b2 <= kept <= b2 + total (all_of cl2 op2) ∧
    visible cl2 op2 b2 kept = drop (Z.to_nat (kept - first)) (visible cl op b first)) as (Hb2 & Hr & Hvis).
  { pose proof (left_low _ _ _ _ _ _ _ D _ _ _ Hfl kept ltac:(lia) Hpre) as Hlow.
    rewrite <-(left_visible _ _ _ _ _ _ _ D _ _ _ Hfl kept) by lia. unfold b2. case_bool_decide as E.
    - assert (all_of cl2 op2 = []) as Hn by (by rewrite <-flagged_snd, E). unfold visible. rewrite Hn.
      split_and!; [by left|lia|unfold total; cbn; lia|cbn; by rewrite !drop_nil].
    - destruct (flagged cl2 op2) as [|[o c] rest] eqn:E2; [done|]. rewrite <-E2 in Hfl.
      pose proof (left_high _ _ _ _ _ _ _ D _ _ _ Hfl kept o c) as Hhigh. rewrite E2 in Hhigh.
      specialize (Hhigh eq_refl (Hhd _ _ eq_refl)). split_and!; [by right|lia|lia|done]. }
  pose proof (rm_calm _ _ _ _ Rm) as Hc'.
  eexists _, cl2, op2, b2. split.
  { intros fuel. unfold TruncatePrefix. mrun. rewrite (st_first _ _ _ _ _ S). destruct (Z.leb_spec kept first); [lia|].
    rewrite HS. cbn [negb Z.eqb]. mrun. rewrite HP. mrun. rewrite HU. reflexivity. }
  split_and!; [done|eapply (store_left st cl op); try done; lia|done|done|done].
Qed.

Definition with_cache st (cache : list LogEntry) : Storage :=
  mkStorage (log_path_ st) (segments_ st) (open_segment_ st) (last_log_index_ st) (first_log_index_ st)
    cache (latest_entry_ st) (heap st) (next_ptr st) (world st).

Lemma store_with_cache st cl op b first cache : store st cl op b first → store (with_cache st cache) cl op b first.
Proof. intros []. by constructor. Qed.

Lemma with_cache_world st cache : world (with_cache st cache) = world st.
Proof. done. Qed.
Lemma with_cache_last st cache : last_log_index_ (with_cache st cache) = last_log_index_ st.
Proof. done. Qed.
Lemma with_cache_latest st cache : latest_entry_ (with_cache st cache) = latest_entry_ st.
Proof. done. Qed.
Lemma with_cache_cache st cache : latest_entries_cache_ (with_cache st cache) = cache.
Proof. done. Qed.

Lemma clear_cache_ends (loop : list LogEntry → option (list LogEntry)) (ret : Z) st :
  loop (latest_entries_cache_ st) = Some [] → (clear_cache loop;; mret ret) st = Some (ret, with_cache st []).
Proof. intros E. unfold clear_cache. mrun. by rewrite E. Qed.
Lemma clear_cache_stuck (loop : list LogEntry → option (list LogEntry)) (ret : Z) st :
  loop (latest_entries_cache_ st) = None → (clear_cache loop;; mret ret) st = None.
Proof. intros E. unfold clear_cache. mrun. by rewrite E. Qed.
End truncate.
