(* ===== verification/MraftSuffix.v ===== *)
(** * MraftSuffix: dropping the entries at the end of the log

    [TruncateSuffix] removes the segments after an index and cuts the segment that
    has it; a closed segment that is cut becomes the open one. *)

From S2P Require Import Prelude MraftOs MraftEntry MraftPb MraftSegment MraftSegmentSpec MraftLog MraftNames MraftStore MraftAppend MraftInit MraftTruncate.

Section suffix.
Context `{OutsideLaws}.
Implicit Types (st : Storage) (w : World).

(** ** Cutting the last segment *)

Definition cut_chunk (c : chunk) (n : nat) : chunk :=
  mkChunk (c_ptr c) (c_first c) (c_ino c) (log_size (take n (c_es c))) (take n (c_es c)).

Definition cut_world w (path : string) (o : bool) (c : chunk) (n : nat) : World :=
  set_inode (set_names w (truncated_names w (seg_of path o c))) (c_ino c) (log_bytes (take n (c_es c))).

Lemma truncated_seg_of path o c kept :
  let n := Z.to_nat (kept + 1 - c_first c) in
  c_first c - 1 <= kept < c_last c →
  truncated (seg_of path o c) (mkFd (c_ino c) (c_pos c)) (c_es c) kept = seg_of path true (cut_chunk c n).
Proof.
  intros n Hk. unfold truncated, seg_of, cut_chunk, c_last in *. seg_simpl. cbn [c_first c_ino c_pos c_es fd_ino].
  fold n. f_equal. rewrite length_take_le by lia. lia.
Qed.

Section cut.
Context (w : World) (path : string) (cl cl0 : list chunk) (op : option chunk) (o : bool) (c : chunk) (b first : Z).
Context (D : disk w path cl op b first []) (Hfl : flagged cl op = (pair false <$> cl0) ++ [(o, c)]).
Context (n : nat) (Hn : (0 < n <= length (c_es c))%nat) (Hfirst : first <= b + total cl0 + Z.of_nat n).

Lemma cut_all : all_of cl op = cl0 ++ [c].
Proof using Hfl.
  rewrite <-flagged_snd, Hfl, fmap_app, <-list_fmap_compose. f_equal.
  change (snd ∘ pair false) with (@id chunk). by rewrite list_fmap_id.
Qed.

Lemma cut_entries : entries (all_of cl op) = entries cl0 ++ c_es c.
Proof using Hfl. rewrite cut_all. apply entries_snoc. Qed.
Lemma cut_entries' : entries (all_of cl0 (Some (cut_chunk c n))) = entries cl0 ++ take n (c_es c).
Proof. rewrite all_of_Some. apply entries_snoc. Qed.
Lemma cut_total : total (all_of cl0 (Some (cut_chunk c n))) = total cl0 + Z.of_nat n.
Proof using Hn. unfold total. rewrite cut_entries', length_app, length_take_le by lia. lia. Qed.

Lemma cut_closed x : x ∈ cl0 → (false, x) ∈ flagged cl op ∧ x ∈ cl.
Proof using Hfl.
  intros Hx. assert ((false, x) ∈ flagged cl op) as Hin.
  { rewrite Hfl. apply elem_of_app. left. apply list_elem_of_fmap. eauto. }
  split; [done|]. apply elem_of_flagged in Hin as [[_ ?]|[? _]]; done.
Qed.
Lemma cut_last : (o, c) ∈ flagged cl op.
Proof using Hfl. rewrite Hfl. apply elem_of_app. right. by left. Qed.
Lemma cut_file : inodes w !! c_ino c = Some (log_bytes (c_es c)).
Proof using D Hfl.
  pose proof cut_last as [[_ Hc]|[_ Hc]]%elem_of_flagged; [by apply D|].
  rewrite (dk_open _ _ _ _ _ _ _ D c Hc). by rewrite app_nil_r.
Qed.
Lemma cut_chain : chain b cl0 ∧ c_first c = b + total cl0.
Proof using D Hfl. apply chain_snoc. rewrite <-cut_all. apply D. Qed.

(** The names after the cut. *)
Lemma cut_names k :
  names (cut_world w path o c n) !! in_dir path k
  = if bool_decide (k = c_name true c) then Some (c_ino c)
    else if negb o && bool_decide (k = c_name false c) then None else names w !! in_dir path k.
Proof using D Hfl.
  pose proof (dk_name _ _ _ _ _ _ _ D _ _ cut_last) as Hname.
  cbn [cut_world set_inode set_names names]. unfold truncated_names. cbn [is_open_ seg_of]. destruct o; cbn [negb andb].
  - case_bool_decide as E; [by rewrite E|done].
  - rewrite !GetPath_seg_of, Hname. case_bool_decide as E; [subst; by rewrite lookup_insert_eq|].
    rewrite lookup_insert_ne by (intros E'%in_dir_inj; congruence). case_bool_decide as E2.
    + subst. by rewrite lookup_delete_eq.
    + by rewrite lookup_delete_ne by (intros E'%in_dir_inj; congruence).
Qed.

Lemma cut_names_other k : k ≠ c_name true c → k ≠ c_name false c →
  names (cut_world w path o c n) !! in_dir path k = names w !! in_dir path k.
Proof using D Hfl.
  intros H1 H2. rewrite cut_names, !bool_decide_eq_false_2 by done. by rewrite andb_false_r.
Qed.

Lemma disk_cut : disk (cut_world w path o c n) path cl0 (Some (cut_chunk c n)) b first [].
Proof using All.
  destruct cut_chain as [Hch Hcf].
  assert (c_ino <$> all_of cl0 (Some (cut_chunk c n)) = c_ino <$> all_of cl op) as Hinos
    by (rewrite cut_all, all_of_Some, !fmap_app; done).
  assert (∀ x, x ∈ cl0 → c_ino x ≠ c_ino c ∧ c_last x < c_first c) as Hcl0.
  { intros x Hx. split; [|destruct (chain_bounds _ _ _ Hch Hx); lia].
    intros E. pose proof (dk_inos _ _ _ _ _ _ _ D) as Hnd. rewrite cut_all, fmap_app, NoDup_app in Hnd.
    destruct Hnd as (_ & Hd & _). apply (Hd (c_ino x)); [apply list_elem_of_fmap; eauto|]. rewrite E. by left. }
  constructor; rewrite ?cut_total, ?cut_entries', ?Hinos; try apply D.
  - intros o' x [[-> Hx]|[-> [= <-]]]%elem_of_flagged.
    + rewrite cut_names_other; [by apply D, cut_closed|intros E; symmetry in E; by apply open_not_closed in E|].
      intros [E _]%closed_name_inj. destruct (Hcl0 x Hx) as [_ Hlt].
      destruct (dk_closed _ _ _ _ _ _ _ D x (proj2 (cut_closed x Hx))) as [_ Hne]. unfold c_last in Hlt.
      destruct (c_es x); cbn in *; [done|lia].
    + rewrite cut_names, bool_decide_eq_true_2; done.
  - intros x Hx. cbn. rewrite lookup_insert_ne by (apply not_eq_sym, Hcl0; done). by apply D, cut_closed.
  - intros x [= <-]. cbn. by rewrite lookup_insert_eq, app_nil_r.
  - rewrite all_of_Some. by apply chain_snoc.
  - pose proof (dk_ok _ _ _ _ _ _ _ D) as Hok. rewrite cut_entries in Hok. apply Forall_app in Hok as [H1 H2].
    apply Forall_app. split; [done|by apply Forall_take].
  - pose proof (dk_indexed _ _ _ _ _ _ _ D) as Hix. rewrite cut_entries in Hix. intros k e Hk. apply Hix.
    apply lookup_app_Some in Hk as [Hk|[Hk Hk']]; [by apply lookup_app_l_Some|]. rewrite lookup_app_r by done.
    by apply lookup_take_Some in Hk' as [? _].
  - intros i. cbn. destruct (decide (i = c_ino c)) as [->|Hi].
    + intros _. apply (dk_fresh _ _ _ _ _ _ _ D). rewrite cut_file. eauto.
    + rewrite lookup_insert_ne by done. apply D.
  - destruct (dk_meta _ _ _ _ _ _ _ D) as (i & (Hname & m & Hm) & Hi). exists i. split; [|done].
    split.
    + rewrite cut_names_other; [done|intros E; symmetry in E; by apply meta_not_open in E
                                    |intros E; symmetry in E; by apply meta_not_closed in E].
    + exists m. cbn. rewrite lookup_insert_ne; [done|].
      intros <-. apply Hi. rewrite cut_all, fmap_app. apply elem_of_app. right. by left.
  - intros k i Hk. destruct (decide (k = c_name true c)) as [->|H1].
    { right. right. exists true, (cut_chunk c n). split; [apply elem_of_flagged; by right|done]. }
    rewrite cut_names, (bool_decide_eq_false_2 (k = c_name true c)) in Hk by done.
    destruct (negb o && bool_decide (k = c_name false c)) eqn:E; [done|].
    destruct (dk_dir _ _ _ _ _ _ _ D _ _ Hk) as [?|[?|(o' & x & Hin & ->)]]; [by left|by right; left|].
    right. right. rewrite Hfl in Hin. apply elem_of_app in Hin as [(y & [= -> ->] & Hy)%list_elem_of_fmap|Hin].
    + exists false, y. split; [apply elem_of_flagged; by left|done].
    + apply list_elem_of_singleton in Hin as [= -> ->]. destruct o; [done|].
      by rewrite bool_decide_eq_true_2 in E.
  - pose proof (dk_bounds _ _ _ _ _ _ _ D) as [Hb0 Hb1]. rewrite cut_all, total_app, total_cons in Hb1.
    unfold total in Hb1 at 2. cbn in Hb1. lia.
  - pose proof (dk_first _ _ _ _ _ _ _ D). lia.
Qed.

Lemma cut_visible kept :
  Z.of_nat n = kept + 1 - c_first c → first <= kept →
  visible cl0 (Some (cut_chunk c n)) b first = take (Z.to_nat (kept + 1 - first)) (visible cl op b first).
Proof using D Hfl Hn H0.
  intros Hk Hf. destruct cut_chain as [_ Hcf]. pose proof (dk_first _ _ _ _ _ _ _ D).
  unfold visible. rewrite take_drop_commute, cut_entries, cut_entries'. f_equal. unfold total in *.
  rewrite take_app_ge by lia. f_equal. f_equal. lia.
Qed.
End cut.

(** ** Popping at the back *)

Abbreviation with_segments st l := (mkStorage (log_path_ st) l (open_segment_ st) (last_log_index_ st)
  (first_log_index_ st) (latest_entries_cache_ st) (latest_entry_ st) (heap st) (next_ptr st) (world st)).
Abbreviation seg_entry := (λ c, (c_first c, c_ptr c)).

Lemma pop_closed_back_split kept l c rest st :
  (∀ x, x ∈ l ++ [c] → heap st !! c_ptr x = Some (seg_of (log_path_ st) false x)) →
  (∀ x, x ∈ l → kept < c_first x) → c_first c <= kept →
  pop_closed_back kept ((seg_entry <$> l) ++ seg_entry c :: rest) st = Some (c_ptr <$> l, st).
Proof.
  intros Hh Hl Hc. induction l as [|x l IH]; cbn [fmap list_fmap app pop_closed_back]; mrun.
  - rewrite Hh by (by left). mrun. cbn [first_index_ seg_of]. by rewrite (proj2 (Z.leb_le _ _) Hc).
  - rewrite Hh by (by left). mrun. cbn [first_index_ seg_of]. rewrite (proj2 (Z.leb_gt _ _)) by (apply Hl; by left).
    rewrite IH; [done| |]; intros y Hy; [apply Hh; by right|apply Hl; by right].
Qed.

Lemma erase_all_filter l st :
  (∀ c, c ∈ l → ∃ o, heap st !! c_ptr c = Some (seg_of (log_path_ st) o c)) →
  erase_all (c_ptr <$> l) st
  = Some (tt, with_segments st (filter (λ p : Z * nat, p.1 ∉ c_first <$> l) (segments_ st))).
Proof.
  revert st. induction l as [|c l IH]; intros st Hh; cbn [fmap list_fmap erase_all].
  { mrun. do 2 f_equal. rewrite filter_every; [by destruct st|]. intros x _. apply not_elem_of_nil. }
  mrun. destruct (Hh c ltac:(left)) as [o ->]. mrun. rewrite IH; [|intros x Hx; apply Hh; by right].
  cbn [first_index_ seg_of segments_ log_path_ open_segment_ last_log_index_ first_log_index_
       latest_entries_cache_ latest_entry_ heap next_ptr world].
  unfold map_erase. rewrite list_filter_filter. do 3 f_equal. apply list_filter_iff.
  intros p. rewrite not_elem_of_cons. tauto.
Qed.

(** The segment with the index [kept] and those after it. *)
Inductive last_kept (kept : Z) (cl : list chunk) (op : option chunk) : list chunk → bool → chunk → list (bool * chunk) → Prop :=
| kept_open c : op = Some c → c_first c <= kept <= c_last c → last_kept kept cl op cl true c []
| kept_closed cl0 c l2 : cl = cl0 ++ c :: l2 → c_first c <= kept <= c_last c →
    last_kept kept cl op cl0 false c ((pair true <$> option_list op) ++ rev (pair false <$> l2)).

Lemma find_last_kept kept cl op b :
  chain b (all_of cl op) → b <= kept < b + total (all_of cl op) → ∃ cl0 o c post, last_kept kept cl op cl0 o c post.
Proof.
  intros Hch Hk. destruct (chain_find _ _ _ Hch Hk) as (c & Hin & Hc).
  unfold all_of in Hin. apply elem_of_app in Hin as [(l1 & l2 & ->)%list_elem_of_split|Hin].
  - do 4 eexists. by eapply kept_closed.
  - destruct op as [x|]; [|by apply elem_of_nil in Hin]. apply list_elem_of_singleton in Hin as ->.
    do 4 eexists. by eapply kept_open.
Qed.

(** What is left before the cut. *)
Definition left_cl (cl0 : list chunk) (o : bool) (c : chunk) : list chunk := if o then cl0 else cl0 ++ [c].
Definition left_op (o : bool) (c : chunk) : option chunk := if o then Some c else None.

Lemma left_flagged cl0 o c : flagged (left_cl cl0 o c) (left_op o c) = (pair false <$> cl0) ++ [(o, c)].
Proof. destruct o; [done|]. unfold flagged. cbn. by rewrite fmap_app, app_nil_r. Qed.
Lemma left_cl_all cl0 o c : all_of (left_cl cl0 o c) (left_op o c) = cl0 ++ [c].
Proof. destruct o; [done|]. unfold all_of. cbn. by rewrite app_nil_r. Qed.

Lemma last_kept_flagged kept cl op cl0 o c post :
  last_kept kept cl op cl0 o c post → flagged cl op ≡ₚ flagged (left_cl cl0 o c) (left_op o c) ++ post.
Proof.
  rewrite left_flagged. intros [c' -> Hc|cl0' c' l2 -> Hc]; [by rewrite app_nil_r|].
  unfold flagged. rewrite fmap_app. cbn. rewrite <-!app_assoc. apply Permutation_app_head.
  cbn. apply Permutation_skip. rewrite <-Permutation_rev. apply Permutation_app_comm.
Qed.

Lemma last_kept_all kept cl op cl0 o c post :
  last_kept kept cl op cl0 o c post → ∃ l2, all_of cl op = (cl0 ++ [c]) ++ l2.
Proof.
  intros [c' -> Hc|cl0' c' l2 -> Hc]; [exists []; by rewrite app_nil_r|].
  exists (l2 ++ option_list op). unfold all_of. by rewrite <-!app_assoc.
Qed.

Lemma last_kept_range kept cl op cl0 o c post :
  last_kept kept cl op cl0 o c post → c_first c <= kept <= c_last c.
Proof. by intros []. Qed.

(** The segment [c] is closed and has the index [kept]. *)
Section closed_kept.
Context (st : Storage) (cl0 : list chunk) (c : chunk) (l2 : list chunk) (op : option chunk) (b first kept : Z).
Context (S : store st (cl0 ++ c :: l2) op b first) (Hc : c_first c <= kept <= c_last c).

Lemma kept_after x : x ∈ option_list op ++ rev l2 → kept < c_first x.
Proof using All.
  pose proof (dk_chain _ _ _ _ _ _ _ (st_disk _ _ _ _ _ S)) as Hch.
  unfold all_of in Hch. rewrite <-app_assoc in Hch. cbn in Hch. apply chain_app in Hch as (_ & Hf & Hch2).
  rewrite elem_of_app, elem_of_rev. intros Hx.
  destruct (chain_bounds _ _ x Hch2) as [Hb _]; [set_solver|]. unfold c_last in Hc. lia.
Qed.

Lemma kept_before x : x ∈ cl0 ++ [c] → c_first x <= kept.
Proof using All.
  pose proof (dk_chain _ _ _ _ _ _ _ (st_disk _ _ _ _ _ S)) as Hch.
  unfold all_of in Hch. rewrite (cons_middle c), <-!app_assoc, app_assoc in Hch.
  apply chain_app in Hch as [Hch _]. apply chain_snoc in Hch as [Hch Hf].
  intros [Hx|Hx%list_elem_of_singleton]%elem_of_app; [|subst; lia].
  destruct (chain_bounds _ _ _ Hch Hx) as [_ Hl]. unfold c_last in Hl. lia.
Qed.

Lemma kept_heap x : x ∈ option_list op ++ rev l2 → ∃ o, heap st !! c_ptr x = Some (seg_of (log_path_ st) o x).
Proof using All.
  rewrite elem_of_app, elem_of_rev. intros [Hx|Hx].
  - exists true. apply (st_heap _ _ _ _ _ S), elem_of_flagged. right. destruct op; set_solver.
  - exists false. apply (st_heap _ _ _ _ _ S), elem_of_flagged. left. set_solver.
Qed.

Lemma kept_pop st1 :
  heap st1 = heap st → log_path_ st1 = log_path_ st →
  pop_closed_back kept (rev (seg_entry <$> cl0 ++ c :: l2)) st1 = Some (c_ptr <$> rev l2, st1).
Proof using All.
  intros Hh Hp. rewrite <-fmap_rev, rev_app_distr. cbn [rev]. rewrite <-!app_assoc, fmap_app. cbn [app].
  rewrite fmap_cons. apply pop_closed_back_split; [| |lia]; rewrite ?Hh, ?Hp.
  - intros x Hx. apply (st_heap _ _ _ _ _ S), elem_of_flagged. left. split; [done|].
    apply elem_of_app in Hx as [Hx|Hx]; [rewrite elem_of_rev in Hx|]; set_solver.
  - intros x Hx. apply kept_after. set_solver.
Qed.

Lemma kept_erase st1 :
  heap st1 = heap st → log_path_ st1 = log_path_ st → segments_ st1 = seg_entry <$> cl0 ++ c :: l2 →
  erase_all (option_list (c_ptr <$> op) ++ (c_ptr <$> rev l2)) st1
  = Some (tt, with_segments st1 (seg_entry <$> cl0 ++ [c])).
Proof using All.
  intros Hh Hp Hs.
  assert (option_list (c_ptr <$> op) ++ (c_ptr <$> rev l2) = c_ptr <$> option_list op ++ rev l2) as ->
    by (rewrite fmap_app; by destruct op).
  rewrite erase_all_filter; [|rewrite Hh, Hp; apply kept_heap]. do 3 f_equal. rewrite Hs.
  rewrite (cons_middle c), app_assoc, (fmap_app seg_entry), filter_app, filter_every, filter_none, app_nil_r; [done| |].
  - intros p (x & -> & Hx)%list_elem_of_fmap. cbn. intros Hn. apply Hn. apply list_elem_of_fmap.
    exists x. split; [done|]. apply elem_of_app. right. by rewrite elem_of_rev.
  - intros p (x & -> & Hx)%list_elem_of_fmap. cbn. intros (y & E & Hy)%list_elem_of_fmap.
    apply kept_after in Hy. apply kept_before in Hx. lia.
Qed.
End closed_kept.

Lemma popped_ptrs (op : option chunk) (l2 : list chunk) :
  c_ptr <$> ((pair true <$> option_list op) ++ rev (pair false <$> l2)).*2
  = option_list (c_ptr <$> op) ++ (c_ptr <$> rev l2).
Proof.
  rewrite fmap_app, fmap_app, fmap_rev, <-!list_fmap_compose. change (snd ∘ pair false) with (@id chunk).
  change (snd ∘ pair true) with (@id chunk). rewrite !list_fmap_id. by destruct op.
Qed.

Lemma PopSegmentsFromBack_split st cl op b first kept cl0 o c post :
  store st cl op b first → last_kept kept cl op cl0 o c post →
  PopSegmentsFromBack kept st
  = Some ((c_ptr <$> post.*2, Some (c_ptr c)),
          mkStorage (log_path_ st) (seg_entry <$> left_cl cl0 o c) (c_ptr <$> left_op o c) kept (first_log_index_ st)
            (latest_entries_cache_ st) (latest_entry_ st) (heap st) (next_ptr st) (world st)).
Proof.
  intros S Hlk. unfold PopSegmentsFromBack. mrun. rewrite (st_open _ _ _ _ _ S), (st_segments _ _ _ _ _ S).
  destruct Hlk as [c -> Hc|cl0 c l2 -> Hc].
  - cbn [fmap option_fmap option_map]. mrun.
    rewrite (st_heap _ _ _ _ _ S true c) by (apply elem_of_flagged; by right). mrun.
    cbn [first_index_ seg_of]. by rewrite (proj2 (Z.leb_le _ _)) by lia.
  - set (st1 := mkStorage (log_path_ st) (seg_entry <$> cl0 ++ c :: l2) None kept (first_log_index_ st)
      (latest_entries_cache_ st) (latest_entry_ st) (heap st) (next_ptr st) (world st)).
    assert (last (seg_entry <$> cl0 ++ [c]) = Some (seg_entry c)) as Hlast by (rewrite (fmap_app seg_entry); apply last_snoc).
    pose proof (kept_pop _ _ _ _ _ _ _ _ S Hc st1 eq_refl eq_refl) as HP.
    pose proof (kept_erase _ _ _ _ _ _ _ _ S Hc st1 eq_refl eq_refl eq_refl) as HE.
    rewrite popped_ptrs. destruct op as [x|]; cbn [fmap option_fmap option_map] in HE |- *.
    + mrun. rewrite (st_heap _ _ _ _ _ S true x) by (apply elem_of_flagged; by right). mrun.
      cbn [first_index_ seg_of]. rewrite (proj2 (Z.leb_gt _ _)) by (apply (kept_after _ _ _ _ _ _ _ _ S Hc); by left).
      mrun. fold st1. rewrite HP. mrun. rewrite HE. mrun. by rewrite Hlast.
    + mrun. fold st1. rewrite HP. mrun. rewrite HE. mrun. by rewrite Hlast.
Qed.

(** ** The directory and the state after the segments at the back are gone *)

Section after_pop.
Context (st : Storage) (cl : list chunk) (op : option chunk) (b first kept : Z) (cl0 : list chunk) (o : bool)
  (c : chunk) (post : list (bool * chunk)).
Context (S : store st cl op b first) (Hlk : last_kept kept cl op cl0 o c post) (Hk : first <= kept).
Context (w' : World) (Rm : removed (log_path_ st) ((λ x, c_name x.1 x.2) <$> post) (world st) w').

Lemma pop_chain : chain b cl0 ∧ c_first c = b + total cl0.
Proof using S Hlk.
  apply chain_snoc. destruct (last_kept_all _ _ _ _ _ _ _ Hlk) as [l2 E].
  pose proof (dk_chain _ _ _ _ _ _ _ (st_disk _ _ _ _ _ S)) as Hch. rewrite E in Hch. by apply chain_app in Hch as [? _].
Qed.

Lemma pop_disk : calm (world st) → disk w' (log_path_ st) (left_cl cl0 o c) (left_op o c) b first [].
Proof using All.
  intros Hcalm. pose proof (st_disk _ _ _ _ _ S) as D. pose proof (last_kept_flagged _ _ _ _ _ _ _ Hlk) as Hperm.
  destruct (last_kept_all _ _ _ _ _ _ _ Hlk) as [l2 Hall]. destruct pop_chain as [Hch Hcf].
  pose proof (last_kept_range _ _ _ _ _ _ _ Hlk) as Hc.
  destruct (dk_meta _ _ _ _ _ _ _ D) as (i & Hmeta & _).
  pose proof (saved_refl _ _ _ _ Hcalm Hmeta) as Sv.
  pose proof (dk_bounds _ _ _ _ _ _ _ D) as [Hb0 Hb1]. pose proof (dk_first _ _ _ _ _ _ _ D) as Hfb.
  rewrite Hall, total_app in Hb1. pose proof (total_nonneg l2).
  assert (∀ x, x ∈ flagged (left_cl cl0 o c) (left_op o c) → x ∈ flagged cl op) as Hsub
    by (intros x Hx; rewrite Hperm; set_solver).
  eapply (disk_shrink _ _ _ _ cl op b first [] _ _ b first); try done; rewrite ?left_cl_all.
  - rewrite Hall. by apply submseteq_inserts_r.
  - intros o' x Hx. rewrite Hperm in Hx. apply elem_of_app in Hx as [?|Hx]; [by right|].
    left. apply list_elem_of_fmap. by exists (o', x).
  - intros o' x Hx ([o2 y] & E & Hy)%list_elem_of_fmap. cbn in E.
    assert ((o2, y) ∈ flagged cl op) as Hy' by (rewrite Hperm; set_solver).
    assert (x = y) as <-.
    { eapply NoDup_map_inj; [apply D|eapply flagged_all; by apply Hsub|by eapply flagged_all|].
      pose proof (dk_name _ _ _ _ _ _ _ D _ _ (Hsub _ Hx)) as E1. pose proof (dk_name _ _ _ _ _ _ _ D _ _ Hy') as E2.
      rewrite E in E1. congruence. }
    pose proof (dk_inos _ _ _ _ _ _ _ D) as Hn. apply NoDup_fmap_1 in Hn. rewrite <-flagged_snd in Hn.
    rewrite Hperm, fmap_app in Hn. apply NoDup_app in Hn as (_ & Hn & _).
    apply (Hn x); apply list_elem_of_fmap; [by exists (o', x)|by exists (o2, x)].
  - apply left_meta.
  - by apply chain_snoc.
  - pose proof (dk_indexed _ _ _ _ _ _ _ D) as Hix. rewrite Hall, entries_app in Hix.
    intros k e He. apply Hix. by apply lookup_app_l_Some.
  - lia.
  - rewrite total_snoc. unfold c_last in Hc. lia.
Qed.

(** The state that agrees with it, before and after the cut. *)
Lemma pop_heap o' x : (o', x) ∈ flagged (left_cl cl0 o c) (left_op o c) →
  heap st !! c_ptr x = Some (seg_of (log_path_ st) o' x).
Proof using S Hlk.
  intros Hx. apply (st_heap _ _ _ _ _ S). rewrite (last_kept_flagged _ _ _ _ _ _ _ Hlk).
  apply elem_of_app. by left.
Qed.
Lemma pop_ptrs : NoDup (c_ptr <$> cl0 ++ [c]).
Proof using S Hlk.
  destruct (last_kept_all _ _ _ _ _ _ _ Hlk) as [l2 E]. pose proof (st_ptrs _ _ _ _ _ S) as Hn.
  rewrite E, fmap_app in Hn. by apply NoDup_app in Hn as [? _].
Qed.

Lemma store_whole cache latest :
  calm (world st) → kept = c_last c →
  store (mkStorage (log_path_ st) (seg_entry <$> left_cl cl0 o c) (c_ptr <$> left_op o c) kept (first_log_index_ st)
           cache latest (heap st) (next_ptr st) w') (left_cl cl0 o c) (left_op o c) b first.
Proof using All.
  intros Hcalm Hkc. destruct pop_chain as [_ Hcf]. constructor; cbn; try done.
  - by apply pop_disk.
  - apply pop_heap.
  - intros x Hx. destruct o; [|done]. injection Hx as <-. inversion Hlk; subst. by apply (st_pos _ _ _ _ _ S).
  - rewrite left_cl_all. apply pop_ptrs.
  - apply S.
  - apply S.
  - rewrite left_cl_all, total_snoc. unfold c_last in Hkc. lia.
Qed.

Lemma store_cut cache latest :
  calm (world st) → kept < c_last c →
  let n := Z.to_nat (kept + 1 - c_first c) in
  store (mkStorage (log_path_ st) (seg_entry <$> cl0) (Some (c_ptr c)) kept (first_log_index_ st) cache latest
           (<[c_ptr c := seg_of (log_path_ st) true (cut_chunk c n)]> (heap st)) (next_ptr st)
           (cut_world w' (log_path_ st) o c n)) cl0 (Some (cut_chunk c n)) b first.
Proof using All.
  intros Hcalm Hkc n. pose proof (last_kept_range _ _ _ _ _ _ _ Hlk) as Hc. destruct pop_chain as [_ Hcf].
  assert ((0 < n <= length (c_es c))%nat) as Hn by (unfold c_last in Hkc; lia).
  constructor; cbn; try done.
  - eapply disk_cut; [by apply pop_disk|apply left_flagged|done|lia].
  - intros o' x [[-> Hx]|[-> [= <-]]]%elem_of_flagged; [|by rewrite lookup_insert_eq].
    rewrite lookup_insert_ne; [apply pop_heap; rewrite left_flagged; set_solver|].
    intros E. pose proof pop_ptrs as Hp. rewrite fmap_app, NoDup_app in Hp. destruct Hp as (_ & Hp & _).
    apply (Hp (c_ptr x)); [apply list_elem_of_fmap; eauto|]. rewrite <-E. by left.
  - intros x [= <-]. done.
  - rewrite all_of_Some, fmap_app. pose proof pop_ptrs as Hp. by rewrite fmap_app in Hp.
  - intros p. destruct (decide (p = c_ptr c)) as [->|Hp].
    + intros _. apply (st_fresh _ _ _ _ _ S). rewrite (pop_heap o c); [eauto|]. rewrite left_flagged. set_solver.
    + rewrite lookup_insert_ne by done. apply S.
  - apply S.
  - rewrite cut_total by done. lia.
Qed.
End after_pop.

(** The entries up to [kept] are those of the segments that are left. *)
Lemma pop_visible kept cl op cl0 o c post b first :
  last_kept kept cl op cl0 o c post → c_first c = b + total cl0 → b <= first <= kept →
  take (Z.to_nat (kept + 1 - first)) (visible (left_cl cl0 o c) (left_op o c) b first)
  = take (Z.to_nat (kept + 1 - first)) (visible cl op b first).
Proof.
  intros Hlk Hcf Hk. destruct (last_kept_all _ _ _ _ _ _ _ Hlk) as [l2 E].
  pose proof (last_kept_range _ _ _ _ _ _ _ Hlk) as Hc. unfold visible. rewrite left_cl_all, E, (entries_app _ l2).
  rewrite !take_drop_commute. f_equal. rewrite take_app_le; [done|].
  pose proof (total_snoc cl0 c) as Ht. unfold total, c_last in *. lia.
Qed.

Lemma map_erase_last cl0 c b :
  chain b (cl0 ++ [c]) → (∀ x, x ∈ cl0 → c_es x ≠ []) →
  map_erase (c_first c) (seg_entry <$> cl0 ++ [c]) = seg_entry <$> cl0.
Proof.
  intros Hch Hne. unfold map_erase. rewrite (fmap_app seg_entry), filter_app, filter_every, filter_none, app_nil_r; [done| |].
  - intros p (x & -> & ->%list_elem_of_singleton)%list_elem_of_fmap. cbn. tauto.
  - intros p (x & -> & Hx)%list_elem_of_fmap. cbn. pose proof (closed_before _ _ _ _ Hch Hx) as Hl.
    specialize (Hne x Hx). unfold c_last in Hl. destruct (c_es x); cbn in *; [done|lia].
Qed.

Lemma Truncate_chunk w path o c kept :
  calm w → seg_rel w (seg_of path o c) (mkFd (c_ino c) (c_pos c)) (c_es c) →
  is_Some (names w !! in_dir path (c_name o c)) → c_first c <= kept <= c_last c →
  let n := Z.to_nat (kept + 1 - c_first c) in
  Truncate (seg_of path o c) w kept
  = Some (if kept <? c_last c then (0, seg_of path true (cut_chunk c n), cut_world w path o c n)
          else (0, seg_of path o c, w)).
Proof.
  intros Hc R Hn Hk n. destruct (Z.ltb_spec kept (c_last c)) as [Hl|Hl].
  - rewrite (Truncate_result _ _ _ _ _ Hc R); [|by rewrite GetPath_seg_of|cbn; lia].
    rewrite truncated_seg_of by lia. done.
  - unfold Truncate. cbn [last_index_ seg_of]. by rewrite (proj2 (Z.leb_le _ _) Hl).
Qed.

(** The state between the removal of the segments and the cut. *)
Definition popped_back st (kept : Z) (cl0 : list chunk) (o : bool) (c : chunk) w : Storage :=
  mkStorage (log_path_ st) (seg_entry <$> left_cl cl0 o c) (c_ptr <$> left_op o c) kept (first_log_index_ st)
    (latest_entries_cache_ st) (latest_entry_ st) (heap st) (next_ptr st) w.

Lemma truncate_last_result st kept cl0 o c w b (n := Z.to_nat (kept + 1 - c_first c)) :
  heap st !! c_ptr c = Some (seg_of (log_path_ st) o c) →
  calm w → seg_rel w (seg_of (log_path_ st) o c) (mkFd (c_ino c) (c_pos c)) (c_es c) →
  is_Some (names w !! in_dir (log_path_ st) (c_name o c)) → c_first c <= kept <= c_last c →
  chain b (cl0 ++ [c]) → (∀ x, x ∈ cl0 → c_es x ≠ []) →
  truncate_last kept (c_ptr c) (popped_back st kept cl0 o c w)
  = Some (0, if kept <? c_last c then
      mkStorage (log_path_ st) (seg_entry <$> cl0) (Some (c_ptr c)) kept (first_log_index_ st)
        (latest_entries_cache_ st) (latest_entry_ st)
        (<[c_ptr c := seg_of (log_path_ st) true (cut_chunk c n)]> (heap st)) (next_ptr st)
        (cut_world w (log_path_ st) o c n)
    else popped_back st kept cl0 o c w).
Proof.
  intros Hh Hc R Hn Hk Hch Hne. pose proof (Truncate_chunk w _ o c kept Hc R Hn Hk) as HT.
  unfold truncate_last, popped_back. mrun. rewrite Hh. mrun. rewrite ?Hh. mrun. rewrite HT.
  destruct (kept <? c_last c); mrun; rewrite lookup_insert_eq; mrun; cbn [is_open_ seg_of].
  - rewrite Z.eqb_refl, andb_true_r. cbn [andb]. destruct o; cbn [negb]; mrun; [done|].
    cbn [first_index_ seg_of cut_chunk c_first left_cl]. by rewrite (map_erase_last cl0 c b).
  - assert ((0 =? 0) && negb o && o = false) as -> by (by destruct o). mrun. by rewrite insert_id.
Qed.

Lemma TruncateSuffix_popped st cl op b first kept cl0 o c post :
  calm (world st) → store st cl op b first → first <= kept → last_kept kept cl op cl0 o c post →
  ∃ w', removed (log_path_ st) ((λ x, c_name x.1 x.2) <$> post) (world st) w' ∧
    ∀ fuel, TruncateSuffix fuel kept st
      = (ret ← truncate_last kept (c_ptr c); clear_cache (pop_back_loop fuel kept);; mret ret)
          (popped_back st kept cl0 o c w').
Proof.
  intros Hc S Hk Hlk. pose proof (PopSegmentsFromBack_split _ _ _ _ _ _ _ _ _ _ S Hlk) as HP.
  destruct (unlink_until_removed (popped_back st kept cl0 o c (world st)) post (-1)) as (w' & HU & Rm); [done| |].
  { eapply (removable_world st); [|done|done|done]. eapply store_removable; [done|].
    rewrite (last_kept_flagged _ _ _ _ _ _ _ Hlk). by apply submseteq_inserts_l. }
  exists w'. split; [done|]. intros fuel. unfold TruncateSuffix, popped_back in *. mrun. rewrite HP. mrun.
  rewrite (st_first _ _ _ _ _ S) in HU |- *. rewrite (proj2 (Z.leb_le _ _)) by lia. mrun. rewrite HU. done.
Qed.

(** The loop over the cache is the last step. *)
Lemma TruncateSuffix_run st cl op b first kept :
  calm (world st) → store st cl op b first → first <= kept < last_log_index_ st →
  ∃ st1 cl2 op2,
    (∀ fuel, TruncateSuffix fuel kept st = (clear_cache (pop_back_loop fuel kept);; mret 0) st1) ∧
    calm (world st1) ∧ store st1 cl2 op2 b first ∧
    visible cl2 op2 b first = take (Z.to_nat (kept + 1 - first)) (visible cl op b first) ∧
    latest_entries_cache_ st1 = latest_entries_cache_ st ∧ latest_entry_ st1 = latest_entry_ st.
Proof.
  intros Hc S Hk. pose proof (st_disk _ _ _ _ _ S) as D. rewrite (st_last _ _ _ _ _ S) in Hk.
  pose proof (dk_first _ _ _ _ _ _ _ D) as Hfb.
  destruct (find_last_kept kept cl op b) as (cl0 & o & c & post & Hlk); [apply D|lia|].
  pose proof (last_kept_range _ _ _ _ _ _ _ Hlk) as Hkc. destruct (pop_chain _ _ _ _ _ _ _ _ _ _ S Hlk) as [Hch Hcf].
  assert (first <= kept) as Hfk by lia.
  destruct (TruncateSuffix_popped _ _ _ _ _ _ _ _ _ _ Hc S Hfk Hlk) as (w' & Rm & Hrun).
  pose proof (pop_disk _ _ _ _ _ _ _ _ _ _ S Hlk Hfk _ Rm Hc) as D'.
  assert ((o, c) ∈ flagged (left_cl cl0 o c) (left_op o c)) as Hin by (rewrite left_flagged; set_solver).
  assert ((o, c) ∈ flagged cl op) as Hin' by (rewrite (last_kept_flagged _ _ _ _ _ _ _ Hlk); set_solver).
  eassert (truncate_last kept (c_ptr c) (popped_back st kept cl0 o c w') = _) as HT.
  { eapply (truncate_last_result st kept cl0 o c w' b); try done.
    - by apply S.
    - apply Rm.
    - eapply seg_rel_frame; [by eapply store_seg|]. by rewrite (rm_inodes _ _ _ _ Rm).
    - rewrite (dk_name _ _ _ _ _ _ _ D' _ _ Hin). eauto.
    - by apply chain_snoc.
    - intros x Hx. apply (dk_closed _ _ _ _ _ _ _ D'). destruct o; cbn; set_solver. }
  pose proof (pop_visible _ _ _ _ _ _ _ b first Hlk Hcf) as Hvis. pose proof (rm_calm _ _ _ _ Rm) as Hc'.
  destruct (Z.ltb_spec kept (c_last c)) as [Hlt|Hge].
  - eexists _, cl0, (Some (cut_chunk c (Z.to_nat (kept + 1 - c_first c)))).
    split; [intros fuel; rewrite Hrun; mrun; rewrite HT; reflexivity|].
    split_and!; [done|by eapply (store_cut _ _ _ _ _ _ _ _ _ _ S Hlk); try done; lia| |done|done].
    rewrite <-Hvis by lia.
    eapply (cut_visible w' (log_path_ st) _ cl0 _ o); [done|apply left_flagged|unfold c_last in *; lia|lia|lia].
  - eexists _, (left_cl cl0 o c), (left_op o c).
    split; [intros fuel; rewrite Hrun; mrun; rewrite HT; reflexivity|].
    split_and!; [done|by eapply (store_whole _ _ _ _ _ _ _ _ _ _ S Hlk); try done; lia| |done|done].
    rewrite <-Hvis by lia. rewrite take_ge; [done|].
    unfold visible. rewrite length_drop, left_cl_all. pose proof (total_snoc cl0 c) as Ht. unfold total, c_last in *. lia.
Qed.
End suffix.
