(* ===== verification/MraftFrame.v ===== *)
(** * MraftFrame: the log stays in its directory

    Whatever calls fail and whatever is in the files, the operations of the
    storage change only files in the directory of the log: every other name keeps
    its content.  The property of an operation is that of its steps, so that it is
    proved along the text of the operation. *)

From S2P Require Import Prelude MraftIobuf MraftOs MraftEntry MraftPb MraftSegment MraftLog MraftNames MraftStore.

Create HintDb stays.

Section frame.
Context `{Outside} (path : string).
Implicit Types (w : World) (s : Segment) (st : Storage).

Definition inside (q : string) : Prop := ∃ n, q = in_dir path n.

(** A file that has no name outside of the directory. *)
Definition mine w (i : nat) : Prop := (i < next_ino w)%nat ∧ ∀ q, names w !! q = Some i → inside q.

Record frame w w' : Prop := {
  fr_wf : wf w';
  fr_mine i : mine w i → mine w' i;
  fr_else q : ¬ inside q → view w' q = view w q
}.

Lemma frame_refl w : wf w → frame w w.
Proof. by constructor. Qed.
Lemma frame_trans w w1 w2 : frame w w1 → frame w1 w2 → frame w w2.
Proof. intros [] []. constructor; [done|auto|]. intros q Hq. rewrite fr_else1, fr_else0; done. Qed.

Lemma inside_in_dir n : inside (in_dir path n).
Proof. by exists n. Qed.
Lemma inside_tmp q : inside q → inside (q +:+ ".tmp")%string.
Proof. intros [n ->]. rewrite in_dir_tmp. apply inside_in_dir. Qed.

Lemma mine_name w q i : wf w → inside q → names w !! q = Some i → mine w i.
Proof.
  intros W Hq Hn. split; [by eapply W, W|]. intros q' Hq'. by rewrite (wf_inj _ W _ _ _ Hq' Hn).
Qed.

(** ** System calls *)

Lemma frame_same w w' : wf w → names w' = names w → inodes w' = inodes w → next_ino w' = next_ino w → frame w w'.
Proof.
  intros W Hn Hi Hx. constructor.
  - constructor; rewrite ?Hn, ?Hi, ?Hx; apply W.
  - unfold mine. by rewrite Hn, Hx.
  - intros q _. unfold view. by rewrite Hn, Hi.
Qed.

Lemma frame_put w i b : wf w → mine w i → frame w (set_inode w i b).
Proof.
  intros W [Hlt Hi]. constructor; [|done|].
  - constructor; cbn; [apply W| |].
    + intros a j Ha. apply lookup_insert_is_Some'. right. by eapply W.
    + intros j [->|[_ Hj]]%lookup_insert_is_Some; [done|by apply W].
  - intros q Hq. unfold view. cbn. destruct (names w !! q) as [j|] eqn:E; [|done]. cbn.
    apply lookup_insert_ne. intros ->. by apply Hq, Hi.
Qed.

Lemma frame_names w m :
  wf w → (∀ q i, m !! q = Some i → ∃ q', names w !! q' = Some i ∧ (q = q' ∨ inside q)) →
  (∀ q q' i, m !! q = Some i → m !! q' = Some i → q = q') → (∀ q, ¬ inside q → m !! q = names w !! q) →
  frame w (set_names w m).
Proof.
  intros W Hm Hinj He. constructor.
  - constructor; cbn; [done| |apply W]. intros a i Ha. destruct (Hm _ _ Ha) as (q & Hq & _). by eapply W.
  - intros i [Hlt Hi]. split; [done|]. cbn. intros q Hq. destruct (Hm _ _ Hq) as (q' & Hq' & [->|?]); auto.
  - intros q Hq. unfold view. cbn. by rewrite He.
Qed.

Lemma frame_delete w q : wf w → inside q → frame w (set_names w (delete q (names w))).
Proof.
  intros W Hq. apply frame_names; [done| | |].
  - intros a i Ha. apply lookup_delete_Some in Ha as [_ Ha]. eauto.
  - intros a b i Ha Hb. apply lookup_delete_Some in Ha as [_ Ha], Hb as [_ Hb]. by eapply wf_inj.
  - intros a Ha. apply lookup_delete_ne. by intros ->.
Qed.

Lemma frame_move w old new i :
  wf w → inside old → inside new → names w !! old = Some i → frame w (set_names w (<[new := i]> (delete old (names w)))).
Proof.
  intros W Ho Hn Hi. apply frame_names; [done| | |].
  - intros a j [[<- <-]|[_ [_ Ha]%lookup_delete_Some]]%lookup_insert_Some; eauto.
  - intros a b j [[<- <-]|[Ha [Ha' Ea]%lookup_delete_Some]]%lookup_insert_Some
      [[<- Eb]|[Hb [Hb' Eb]%lookup_delete_Some]]%lookup_insert_Some; [done| | |by eapply wf_inj].
    + by destruct Hb'; eapply wf_inj.
    + subst. by destruct Ha'; eapply wf_inj.
  - intros a Ha. rewrite lookup_insert_ne by (by intros ->). apply lookup_delete_ne. by intros ->.
Qed.

Lemma ask_frame w a w' : wf w → ask w = (a, w') → frame w w' ∧ wf w'.
Proof.
  intros W. unfold ask. destruct (answers w); intros [= <- <-]; [by split; [apply frame_refl|]|].
  assert (frame w (mkWorld (names w) (inodes w) (next_ino w) l (errno w))) as F by (by apply frame_same).
  split; [done|apply F].
Qed.

Lemma errno_frame w e : wf w → frame w (set_errno w e).
Proof. intros W. by apply frame_same. Qed.

(** Steps over the answer of the system to a call. *)
Ltac ask_step W :=
  let a := fresh "a" in let w1 := fresh "w" in let E := fresh "E" in let F := fresh "F" in
  destruct (ask _) as [a w1] eqn:E; apply ask_frame in E as [F W']; [|exact W]; clear W; rename W' into W; destruct a.

Lemma sys_create_frame w q r w' :
  wf w → inside q → sys_create w q = (r, w') → frame w w' ∧ ∀ fd, r = Some fd → mine w' (fd_ino fd).
Proof.
  intros W Hq. unfold sys_create. ask_step W.
  - destruct (names w0 !! q) as [i|] eqn:En; intros [= <- <-].
    + pose proof (mine_name _ _ _ W Hq En) as Hi. pose proof (frame_put w0 i [] W Hi) as F'.
      split; [by eapply frame_trans|]. intros fd [= <-]. by apply F'.
    + assert (∀ a, names w0 !! a ≠ Some (next_ino w0)) as Hold.
      { intros a Ha. pose proof (wf_fresh _ W _ (wf_valid _ W _ _ Ha)). lia. }
      assert (mine (mkWorld (<[q := next_ino w0]> (names w0)) (<[next_ino w0 := []]> (inodes w0)) (S (next_ino w0)) (answers w0) (errno w0))
                (next_ino w0)) as Hmine.
      { split; cbn; [lia|]. intros a [[<- _]|[_ Ha]]%lookup_insert_Some; [done|by apply Hold in Ha]. }
      split; [|intros fd [= <-]; exact Hmine]. eapply frame_trans; [exact F|]. constructor.
      * constructor; cbn.
        -- intros a b j [[<- <-]|[_ Ea]]%lookup_insert_Some [[<- Eb]|[_ Eb]]%lookup_insert_Some; [done| | |by eapply wf_inj].
           ++ by apply Hold in Eb.
           ++ subst. by apply Hold in Ea.
        -- intros a j [[<- <-]|[_ Ea]]%lookup_insert_Some; apply lookup_insert_is_Some'; [by left|right; by eapply W].
        -- intros j [<-|[_ Hj]]%lookup_insert_is_Some; [lia|]. apply W in Hj. lia.
      * intros i [Hlt Hi]. split; cbn; [lia|]. intros a [[<- _]|[_ Ha]]%lookup_insert_Some; [done|by apply Hi].
      * intros a Ha. unfold view. cbn. rewrite lookup_insert_ne by (by intros ->).
        destruct (names w0 !! a) as [j|] eqn:Ej; [|done]. cbn. apply lookup_insert_ne. intros <-. by apply Hold in Ej.
  - intros [= <- <-]. split; [|done]. eapply frame_trans; [exact F|by apply errno_frame].
Qed.

Lemma sys_open_frame w q r w' :
  wf w → inside q → sys_open w q = (r, w') → frame w w' ∧ ∀ fd, r = Some fd → mine w' (fd_ino fd).
Proof.
  intros W Hq. unfold sys_open. ask_step W.
  - destruct (names w0 !! q) as [i|] eqn:En; intros [= <- <-].
    + split; [done|]. intros fd [= <-]. by eapply mine_name.
    + split; [|done]. eapply frame_trans; [exact F|by apply errno_frame].
  - intros [= <- <-]. split; [|done]. eapply frame_trans; [exact F|by apply errno_frame].
Qed.

Lemma sys_fstat_frame w fd r w' : wf w → sys_fstat w fd = (r, w') → frame w w'.
Proof.
  intros W. unfold sys_fstat. ask_step W; intros [= <- <-]; [done|]. eapply frame_trans; [exact F|by apply errno_frame].
Qed.

Lemma preadFull_frame w fd n off r w' : wf w → preadFull w fd n off = (r, w') → frame w w'.
Proof.
  intros W. unfold preadFull. ask_step W; intros [= <- <-]; [done|]. eapply frame_trans; [exact F|by apply errno_frame].
Qed.

Lemma sys_read_frame w fd n r fd' w' : wf w → sys_read w fd n = (r, fd', w') → frame w w'.
Proof.
  intros W. unfold sys_read. destruct (preadFull _ _ _ _) as [[l|] w1] eqn:E; intros [= <- <- <-]; by eapply preadFull_frame.
Qed.

Lemma writevFull_frame w fd b n fd' w' :
  wf w → mine w (fd_ino fd) → writevFull w fd b = (n, fd', w') → frame w w' ∧ fd_ino fd' = fd_ino fd.
Proof.
  intros W Hm. unfold writevFull. ask_step W; intros [= <- <- <-]; (split; [|done]); (eapply frame_trans; [exact F|]).
  - apply frame_put; [done|by apply F].
  - eapply frame_trans; [apply frame_put; [done|by apply F]|]. apply errno_frame, frame_put; [done|by apply F].
Qed.

Lemma sys_rename_frame w old new r w' : wf w → inside old → inside new → sys_rename w old new = (r, w') → frame w w'.
Proof.
  intros W Ho Hn. unfold sys_rename. ask_step W.
  - destruct (names w0 !! old) as [i|] eqn:E; intros [= <- <-]; (eapply frame_trans; [exact F|]);
      [by apply frame_move|by apply errno_frame].
  - intros [= <- <-]. eapply frame_trans; [exact F|by apply errno_frame].
Qed.

Lemma sys_unlink_frame w q r w' : wf w → inside q → sys_unlink w q = (r, w') → frame w w'.
Proof.
  intros W Hq. unfold sys_unlink. ask_step W.
  - destruct (names w0 !! q) as [i|] eqn:E; intros [= <- <-]; (eapply frame_trans; [exact F|]);
      [by apply frame_delete|by apply errno_frame].
  - intros [= <- <-]. eapply frame_trans; [exact F|by apply errno_frame].
Qed.

Lemma ftruncate_frame w fd n r w' : wf w → mine w (fd_ino fd) → ftruncate w fd n = (r, w') → frame w w'.
Proof.
  intros W Hm. unfold ftruncate. ask_step W; intros [= <- <-]; (eapply frame_trans; [exact F|]).
  - apply frame_put; [done|by apply F].
  - by apply errno_frame.
Qed.

Lemma sys_lseek_frame w fd n r fd' w' : wf w → sys_lseek w fd n = (r, fd', w') → frame w w' ∧ fd_ino fd' = fd_ino fd.
Proof.
  intros W. unfold sys_lseek. ask_step W; intros [= <- <- <-]; (split; [|done]); [done|].
  eapply frame_trans; [exact F|by apply errno_frame].
Qed.

Lemma sys_opendir_frame w r w' : wf w → sys_opendir w = (r, w') → frame w w'.
Proof.
  intros W. unfold sys_opendir. ask_step W; intros [= <- <-]; [done|]. eapply frame_trans; [exact F|by apply errno_frame].
Qed.

(** ** Messages *)

Lemma pb_write_file_frame {A} `{!Message A} w q (m : A) r w' : wf w → inside q → pb_write_file w q m = (r, w') → frame w w'.
Proof.
  intros W Hq. unfold pb_write_file. destruct (sys_create w q) as [[fd|] w1] eqn:E;
    apply sys_create_frame in E as [F Hm]; try done; [|by intros [= <- <-]].
  unfold pb_write_fd. destruct (SerializeToZeroCopyStream m); [|by intros [= <- <-]].
  destruct (writevFull _ _ _) as [[n fd'] w2] eqn:E2. apply writevFull_frame in E2 as [F2 _]; [|apply F|by apply Hm].
  case_match; intros [= <- <-]; by eapply frame_trans.
Qed.

Lemma pb_read_file_frame {A} `{!Message A} w q (r : option A) w' : wf w → inside q → pb_read_file w q = (r, w') → frame w w'.
Proof.
  intros W Hq. unfold pb_read_file. destruct (sys_open w q) as [[fd|] w1] eqn:E;
    apply sys_open_frame in E as [F _]; try done; [|by intros [= <- <-]].
  unfold pb_read_fd. destruct (sys_fstat w1 fd) as [[z|] w2] eqn:E2; apply sys_fstat_frame in E2; try apply F;
    [|intros [= <- <-]; by eapply frame_trans].
  assert (frame w w2) as F2 by (by eapply frame_trans).
  destruct (sys_read w2 fd 4) as [[[l|] fd'] w3] eqn:E3; apply sys_read_frame in E3; try apply F2;
    [|intros [= <- <-]; by eapply frame_trans].
  assert (frame w w3) as F3 by (by eapply frame_trans).
  case_match; [by intros [= <- <-]|].
  destruct (sys_read w3 _ _) as [[[l'|] fd''] w4] eqn:E4; apply sys_read_frame in E4; try apply F3;
    [|intros [= <- <-]; by eapply frame_trans].
  case_match; intros [= <- <-]; by eapply frame_trans.
Qed.

(** ** Segments *)

Definition fd_mine w (fd : option Fd) : Prop := ∀ f, fd = Some f → mine w (fd_ino f).
Definition seg_ok w s : Prop := path_ s = path ∧ fd_mine w (fd_ s).

Lemma fd_mine_frame w w' fd : frame w w' → fd_mine w fd → fd_mine w' fd.
Proof. intros F Hf f Hs. by apply F, Hf. Qed.
Lemma seg_ok_frame w w' s : frame w w' → seg_ok w s → seg_ok w' s.
Proof. intros F [Hp Hf]. split; [done|by eapply fd_mine_frame]. Qed.

Lemma GetPath_inside s o : path_ s = path → inside (GetPath s o).
Proof. intros Hp. unfold GetPath. rewrite Hp. apply inside_in_dir. Qed.

Lemma pread_frame w fd n off r w' : wf w → pread w fd n off = (r, w') → frame w w'.
Proof. intros W. destruct fd; cbn; [by apply preadFull_frame|]. intros [= <- <-]. by apply errno_frame. Qed.

Lemma writev_frame w fd b n fd' w' :
  wf w → fd_mine w fd → writev w fd b = (n, fd', w') → frame w w' ∧ fd_mine w' fd'.
Proof.
  intros W Hm. unfold writev. destruct fd as [f|]; [|intros [= <- <- <-]; split; [by apply errno_frame|done]].
  destruct (writevFull w f b) as [[n1 f1] w1] eqn:E. intros [= <- <- <-].
  apply writevFull_frame in E as [F E]; [|done|by apply Hm]. split; [done|]. intros g [= <-]. rewrite E. by apply F, Hm.
Qed.

Lemma truncate_fd_frame w fd n r w' : wf w → fd_mine w fd → truncate_fd w fd n = (r, w') → frame w w'.
Proof.
  intros W Hm. destruct fd; cbn; [by apply ftruncate_frame; [|apply Hm]|]. intros [= <- <-]. by apply errno_frame.
Qed.

Lemma lseek_frame w fd n r fd' w' :
  wf w → fd_mine w fd → lseek w fd n = (r, fd', w') → frame w w' ∧ fd_mine w' fd'.
Proof.
  intros W Hm. unfold lseek. destruct fd as [f|]; [|intros [= <- <- <-]; split; [by apply errno_frame|done]].
  destruct (sys_lseek w f n) as [[n1 f1] w1] eqn:E. intros [= <- <- <-].
  apply sys_lseek_frame in E as [F E]; [|done]. split; [done|]. intros g [= <-]. rewrite E. by apply F, Hm.
Qed.

Lemma LoadEntry_frame s w i off d r w' : wf w → LoadEntry s w i off d = (r, w') → frame w w'.
Proof.
  intros W. unfold LoadEntry. destruct (pread _ _ _ _) as [[b|] w1] eqn:E; apply pread_frame in E; try done; [|by intros [= <- <-]].
  case_match; [by intros [= <- <-]|]. case_match; [by intros [= <- <-]|]. case_match; [by intros [= <- <-]|].
  case_match; [|by intros [= <- <-]].
  destruct (pread w1 _ _ _) as [[b'|] w2] eqn:E2; apply pread_frame in E2; try apply E;
    repeat case_match; intros [= <- <-]; by eapply frame_trans.
Qed.

Lemma load_loop_frame fuel s w i off size l rc off' l' s' w' :
  wf w → load_loop fuel s w i off size l = Some (rc, off', l', s', w') →
  frame w w' ∧ path_ s' = path_ s ∧ fd_ s' = fd_ s.
Proof.
  revert s w i off l. induction fuel as [|fuel IH]; intros s w i off l W; cbn [load_loop]; [done|].
  case_match; [intros [= <- <- <- <- <-]; split_and!; [by apply frame_refl|done..]|].
  destruct (LoadEntry _ _ _ _ _) as [[c|h d] w1] eqn:E; apply LoadEntry_frame in E; try done.
  - case_match; by intros [= <- <- <- <- <-].
  - case_match; [by intros [= <- <- <- <- <-]|]. intros HL. apply IH in HL as (F & Hp & Hf); [|apply E].
    split_and!; [by eapply frame_trans|done|done].
Qed.

(** What an operation of a segment keeps. *)
Definition seg_frame w s w' s' : Prop := frame w w' ∧ seg_ok w' s'.

Lemma Load_frame s w r s' w' : wf w → seg_ok w s → Load s w = Some (r, s', w') → seg_frame w s w' s'.
Proof.
  intros W Hs. unfold Load, seg_frame.
  destruct (sys_open w _) as [[fd|] w1] eqn:E; apply sys_open_frame in E as [F Hm]; try done; try by apply GetPath_inside, Hs.
  2: intros [= <- <- <-]; split; [done|by eapply seg_ok_frame].
  destruct (sys_fstat w1 fd) as [[size|] w2] eqn:E2; apply sys_fstat_frame in E2; try apply F.
  2: intros [= <- <- <-]; split; [by eapply frame_trans|split; [apply Hs|done]].
  assert (frame w w2) as F2 by (by eapply frame_trans).
  destruct (load_loop _ _ _ _ _ _ _) as [[[[[rc off] l] s1] w3]|] eqn:E3; [|done]. cbn [mbind option_bind].
  apply load_loop_frame in E3 as (F3 & Hp & Hf); [|apply F2]. cbn in Hp, Hf.
  assert (frame w w3) as F3' by (by eapply frame_trans).
  assert (fd_mine w3 (fd_ s1)) as Hm3 by (rewrite Hf; intros f [= <-]; by apply F3, E2, Hm).
  case_match; [intros [= <- <- <-]; split; [done|split; [rewrite Hp; apply Hs|done]]|].
  set (s2 := if is_open_ s1 then _ else s1).
  assert (path_ s2 = path ∧ fd_ s2 = fd_ s1) as [Hp2 Hf2] by (unfold s2; destruct (is_open_ s1); cbn; rewrite Hp; split; (done || apply Hs)).
  destruct (if negb (off =? size) then _ else _) as [rc2 w4] eqn:E4.
  assert (frame w w4 ∧ fd_mine w4 (fd_ s2)) as [F4 Hm4].
  { rewrite Hf2. destruct (negb (off =? size)); [|by injection E4 as <- <-].
    apply truncate_fd_frame in E4; [|apply F3'|by rewrite Hf2]. split; [by eapply frame_trans|by eapply fd_mine_frame]. }
  destruct (lseek w4 (fd_ s2) off) as [[z fd'] w5] eqn:E5. apply lseek_frame in E5 as [F5 Hm5]; [|apply F4|done].
  intros [= <- <- <-]. split; [by eapply frame_trans|by split].
Qed.

Lemma Create_frame s w r s' w' : wf w → seg_ok w s → Create s w = (r, s', w') → seg_frame w s w' s'.
Proof.
  intros W Hs. unfold Create, seg_frame. case_match; [intros [= <- <- <-]; split; [by apply frame_refl|done]|].
  destruct (sys_create w _) as [[fd|] w1] eqn:E; apply sys_create_frame in E as [F Hm]; try done; try (by apply GetPath_inside, Hs);
    intros [= <- <- <-]; (split; [done|]); [split; [apply Hs|done]|by eapply seg_ok_frame].
Qed.

Lemma Append_frame s w e r s' w' : wf w → seg_ok w s → Append s w e = (r, s', w') → seg_frame w s w' s'.
Proof.
  intros W Hs. unfold Append, seg_frame.
  case_match; [intros [= <- <- <-]; split; [by apply frame_refl|done]|].
  case_match; [intros [= <- <- <-]; split; [by apply frame_refl|done]|].
  destruct (writev _ _ _) as [[n fd] w1] eqn:E. apply writev_frame in E as [F Hm]; [|done|apply Hs].
  case_match; intros [= <- <- <-]; (split; [done|]); (split; [apply Hs|exact Hm]).
Qed.

Lemma Close_frame s w b r s' w' : wf w → seg_ok w s → Close s w b = (r, s', w') → seg_frame w s w' s'.
Proof.
  intros W Hs. unfold Close, seg_frame. case_match; [intros [= <- <- <-]; split; [by apply frame_refl|done]|].
  case_match; [|intros [= <- <- <-]; split; [by apply frame_refl|done]].
  destruct (sys_rename _ _ _) as [rc w1] eqn:E. apply sys_rename_frame in E; [|done|by apply GetPath_inside, Hs..].
  intros [= <- <- <-]. split; [done|]. by apply (seg_ok_frame w w1).
Qed.

Lemma Unlink_frame s w r w' : wf w → path_ s = path → Unlink s w = (r, w') → frame w w'.
Proof.
  intros W Hs. unfold Unlink. pose proof (GetPath_inside _ (is_open_ s) Hs) as Hi. pose proof (inside_tmp _ Hi) as Ht.
  destruct (sys_rename _ _ _) as [rc w1] eqn:E. apply sys_rename_frame in E; [|done..].
  case_match; [by intros [= <- <-]|]. destruct (sys_unlink _ _) as [rc2 w2] eqn:E2.
  apply sys_unlink_frame in E2; [|apply E|done]. intros [= <- <-]. by eapply frame_trans.
Qed.

Lemma Truncate_frame s w k r s' w' : wf w → seg_ok w s → Truncate s w k = Some (r, s', w') → seg_frame w s w' s'.
Proof.
  intros W Hs. unfold Truncate, seg_frame. case_match; [intros [= <- <- <-]; split; [by apply frame_refl|done]|].
  destruct (fst <$> _) as [size|]; [|done]. cbn [mbind option_bind].
  destruct (if negb (is_open_ s) then _ else _) as [[rc s1] w1] eqn:E.
  assert (frame w w1 ∧ seg_ok w1 s1) as [F1 Hs1].
  { destruct (negb (is_open_ s)).
    - destruct (sys_rename _ _ _) as [rc1 w2] eqn:E2. apply sys_rename_frame in E2; [|done|by apply GetPath_inside, Hs..].
      injection E as <- <- <-. split; [done|]. case_match; by apply (seg_ok_frame w w2).
    - injection E as <- <- <-. split; [by apply frame_refl|done]. }
  destruct (negb (rc =? 0)); [by intros [= <- <- <-]|].
  destruct (truncate_fd _ _ _) as [rc2 w2] eqn:E2. apply truncate_fd_frame in E2; [|apply F1|apply Hs1].
  assert (frame w w2) as F2 by (by eapply frame_trans). assert (seg_ok w2 s1) as Hs2 by (by eapply (seg_ok_frame w1)).
  destruct (rc2 <? 0); [by intros [= <- <- <-]|].
  destruct (lseek _ _ _) as [[z fd] w3] eqn:E3. apply lseek_frame in E3 as [F3 Hm3]; [|apply F2|apply Hs2].
  destruct (z <? 0); intros [= <- <- <-]; (split; [by eapply frame_trans|]); (split; [apply Hs2|exact Hm3]).
Qed.

(** ** The storage *)

Record in_order st : Prop := {
  io_path : log_path_ st = path;
  io_wf : wf (world st);
  io_heap p s : heap st !! p = Some s → seg_ok (world st) s
}.

(** A method that keeps the storage in order and changes only the directory. *)
Definition stays {A} (m : M A) : Prop :=
  ∀ st a st', in_order st → m st = Some (a, st') → in_order st' ∧ frame (world st) (world st').

Lemma stays_ret {A} (a : A) : stays (mret a).
Proof. intros st x st' Ho [= <- <-]. split; [done|apply frame_refl, Ho]. Qed.

Lemma stays_undefined {A} : stays (@undefined A).
Proof. by intros st x st' Ho. Qed.

Lemma stays_bind {A B} (m : M A) (f : A → M B) : stays m → (∀ a, stays (f a)) → stays (m ≫= f).
Proof.
  intros Hm Hf st b st' Ho. unfold mbind, M_bind. destruct (m st) as [[a st1]|] eqn:E; [|done]. intros E2.
  destruct (Hm _ _ _ Ho E) as [Ho1 F1], (Hf a _ _ _ Ho1 E2) as [Ho2 F2]. split; [done|by eapply frame_trans].
Qed.

Lemma stays_get {A} (f : Storage → M A) : (∀ st0, log_path_ st0 = path → stays (f st0)) → stays (get ≫= f).
Proof. intros Hf st a st' Ho. unfold mbind, M_bind, get. by apply Hf; [apply Ho|]. Qed.

Lemma stays_deref {A} p (f : Segment → M A) : (∀ s, path_ s = path → stays (f s)) → stays (deref p ≫= f).
Proof.
  intros Hf st a st' Ho. unfold mbind, M_bind, deref. destruct (heap st !! p) as [s|] eqn:E; [|done]. cbn [mbind option_bind].
  apply Hf; [|done]. by apply (io_heap _ Ho _ _ E).
Qed.

Lemma stays_modify g :
  (∀ st, log_path_ (g st) = log_path_ st ∧ heap (g st) = heap st ∧ world (g st) = world st) → stays (modify g).
Proof.
  intros Hg st a st' [Hp W Hh] [= <- <-]. destruct (Hg st) as (E1 & E2 & E3). rewrite E3. split; [|by apply frame_refl].
  constructor; rewrite ?E1, ?E2, ?E3; done.
Qed.

Lemma stays_syscall {A} (f : World → A * World) :
  (∀ w a w', wf w → f w = (a, w') → frame w w') → stays (syscall f).
Proof.
  intros Hf st a st' [Hp W Hh]. mrun. destruct (f (world st)) as [b w'] eqn:E. apply Hf in E; [|done].
  intros [= <- <-]. cbn [world]. split; [|done]. constructor; cbn; [done|apply E|].
  intros p s Hs. eapply seg_ok_frame; [done|by eapply Hh].
Qed.

Lemma stays_make_shared s : path_ s = path → fd_ s = None → stays (make_shared s).
Proof.
  intros Hp Hf st a st' Ho [= <- <-]. cbn [world]. split; [|apply frame_refl, Ho]. constructor; cbn; [apply Ho|apply Ho|].
  intros p s' [[<- <-]|[_ Hs]]%lookup_insert_Some; [|by eapply Ho]. split; [done|]. by rewrite Hf.
Qed.

Lemma stays_seg_method {A} p (f : Segment → World → option (A * Segment * World)) :
  (∀ s w a s' w', wf w → seg_ok w s → f s w = Some (a, s', w') → seg_frame w s w' s') → stays (seg_method p f).
Proof.
  intros Hf st a st' [Hp W Hh]. mrun. destruct (heap st !! p) as [s|] eqn:E; [|done]. mrun.
  destruct (f s (world st)) as [[[b s'] w']|] eqn:E2; [|done]. intros [= <- <-]. cbn [world].
  apply Hf in E2 as [F Hs']; [|done|by eapply Hh]. split; [|done]. constructor; cbn; [done|apply F|].
  intros q x [[<- <-]|[_ Hx]]%lookup_insert_Some; [done|]. eapply seg_ok_frame; [done|by eapply Hh].
Qed.

(** Goes through the text of a method. *)
Ltac stay :=
  lazymatch goal with
  | |- stays (mret _) => apply stays_ret
  | |- stays undefined => apply stays_undefined
  | |- stays (get ≫= _) => let E := fresh "Hpath" in apply stays_get; intros ? E; stay
  | |- stays (deref _ ≫= _) => let E := fresh "Hseg" in apply stays_deref; intros ? E; stay
  | |- stays (_ ≫= _) => apply stays_bind; [stay|intros ?; stay]
  | |- stays (match ?x with _ => _ end) => destruct x; stay
  | |- stays (set_segments _) => by apply stays_modify
  | |- stays (set_open _) => by apply stays_modify
  | |- stays (set_last _) => by apply stays_modify
  | |- stays (set_first _) => by apply stays_modify
  | |- stays (set_cache _) => by apply stays_modify
  | |- stays (set_latest _) => by apply stays_modify
  | |- stays (make_shared _) => apply stays_make_shared; done
  | |- stays (syscall (Unlink _)) => apply stays_syscall; intros ????; by apply Unlink_frame
  | |- stays (seg_method _ Load) => apply stays_seg_method; apply Load_frame
  | |- _ => try assumption; try done; auto with stays
  end.

Lemma SaveMeta_stays i : stays (SaveMeta i).
Proof.
  unfold SaveMeta. stay. apply stays_syscall. intros w a w' W. apply pb_write_file_frame; [done|].
  unfold meta_file. rewrite Hpath. apply inside_in_dir.
Qed.
#[local] Hint Resolve SaveMeta_stays : stays.

Lemma LoadMeta_stays : stays LoadMeta.
Proof.
  unfold LoadMeta. stay. apply stays_syscall. intros ??? W. apply pb_read_file_frame; [done|].
  unfold meta_file. rewrite Hpath. apply inside_in_dir.
Qed.

Lemma list_loop_stays b fs : stays (list_loop b fs).
Proof.
  induction fs as [|f fs IH]; cbn [list_loop]; stay. apply stays_syscall. intros ??? W. apply sys_unlink_frame; [done|].
  rewrite Hpath. apply inside_in_dir.
Qed.
#[local] Hint Resolve LoadMeta_stays list_loop_stays : stays.

Lemma load_closed_stays l : stays (load_closed l).
Proof. induction l as [|[k p] l IH]; cbn [load_closed]; stay. Qed.
#[local] Hint Resolve load_closed_stays : stays.

Lemma Init_stays max : stays (Init max).
Proof.
  unfold Init, ListSegments, LoadSegments. stay. apply stays_syscall. intros ??? W. by apply sys_opendir_frame.
Qed.

Lemma GetOpenSegment_stays max : stays (GetOpenSegment max).
Proof.
  unfold GetOpenSegment. stay; apply stays_seg_method; intros ????? W Hs [= E].
  - by eapply Create_frame.
  - by eapply Close_frame.
Qed.
#[local] Hint Resolve GetOpenSegment_stays : stays.

Lemma AppendEntry_stays max e : stays (AppendEntry max e).
Proof.
  unfold AppendEntry. stay. apply stays_seg_method. intros ????? W Hs [= E]. by eapply Append_frame.
Qed.

Lemma pop_closed_stays k l : stays (pop_closed k l).
Proof. induction l as [|[i p] l IH]; cbn [pop_closed]; stay. Qed.
Lemma unlink_all_stays l : stays (unlink_all l).
Proof. induction l as [|p l IH]; cbn [unlink_all]; stay. Qed.
#[local] Hint Resolve pop_closed_stays unlink_all_stays : stays.

Lemma TruncatePrefix_stays fuel k : stays (TruncatePrefix fuel k).
Proof. unfold TruncatePrefix, PopSegments, clear_cache. stay. Qed.

Lemma pop_closed_back_stays k l : stays (pop_closed_back k l).
Proof. induction l as [|[i p] l IH]; cbn [pop_closed_back]; stay. Qed.
Lemma erase_all_stays l : stays (erase_all l).
Proof. induction l as [|p l IH]; cbn [erase_all]; stay. Qed.
Lemma unlink_until_stays r l : stays (unlink_until r l).
Proof. revert r. induction l as [|p l IH]; intros r; cbn [unlink_until]; stay. Qed.
#[local] Hint Resolve pop_closed_back_stays erase_all_stays unlink_until_stays : stays.

Lemma TruncateSuffix_stays fuel k : stays (TruncateSuffix fuel k).
Proof.
  unfold TruncateSuffix, PopSegmentsFromBack, truncate_last, clear_cache. stay.
  apply stays_seg_method. intros ????? W Hs E. by eapply Truncate_frame.
Qed.

Lemma Get_frame s w i r w' : wf w → Get s w i = Some (r, w') → frame w w'.
Proof.
  intros W. unfold Get. destruct (GetMeta s i) as [[m|]|]; cbn [mbind option_bind]; [|intros [= <- <-]; by apply frame_refl|done].
  destruct (LoadEntry _ _ _ _ _) as [[c|h d] w1] eqn:E; apply LoadEntry_frame in E; try done; by intros [= <- <-].
Qed.

Lemma GetEntry_stays i : stays (GetEntry i).
Proof.
  unfold GetEntry, GetSegment. stay. apply stays_seg_method. intros s w r s' w' W Hs E.
  destruct (Get s w i) as [[r1 w1]|] eqn:E2; [|done]. injection E as <- <- <-. apply Get_frame in E2; [|done].
  split; [done|by eapply seg_ok_frame].
Qed.

Lemma ClearCacheEntry_stays i : stays (ClearCacheEntry i).
Proof. unfold ClearCacheEntry. stay. Qed.
#[local] Hint Resolve Init_stays AppendEntry_stays TruncatePrefix_stays TruncateSuffix_stays GetEntry_stays ClearCacheEntry_stays : stays.

Lemma new_storage_in_order w : wf w → in_order (new_storage path w).
Proof. intros W. constructor; [done|done|]. intros p s Hs. cbn in Hs. by rewrite lookup_empty in Hs. Qed.

(** ** A history *)

Inductive log_op :=
  | OpAppend (e : LogEntry)
  | OpGet (i : Z)
  | OpPoll (fuel : nat) (i : Z)
  | OpPop (fuel : nat) (i : Z)
  | OpClear (i : Z).

Definition run_op (max : Z) (o : log_op) : M unit :=
  match o with
  | OpAppend e => raftLogAppend max e;; mret tt
  | OpGet i => raftLogGet i;; mret tt
  | OpPoll fuel i => raftLogPoll fuel i;; mret tt
  | OpPop fuel i => raftLogPop fuel i;; mret tt
  | OpClear i => ClearCacheEntry i;; mret tt
  end.
Fixpoint run_ops (max : Z) (l : list log_op) : M unit :=
  match l with [] => mret tt | o :: l => run_op max o;; run_ops max l end.

Lemma run_ops_stays max l : stays (run_ops max l).
Proof.
  induction l as [|[] l IH]; cbn [run_ops run_op]; unfold raftLogAppend, raftLogGet, raftLogPoll, raftLogPop; stay.
Qed.

(** C22. The log stays in its directory: whatever is in the files, whichever
    operations run after [Init] and whichever calls of the system fail or are
    partial, every file whose name is not in the directory of the log keeps its
    content, and no two names come to share a file. *)
Theorem log_frame max w l st :
  wf w → (Init max;; run_ops max l) (new_storage path w) = Some (tt, st) →
  wf (world st) ∧ ∀ q, ¬ inside q → view (world st) q = view w q.
Proof.
  intros W HR. destruct (stays_bind _ _ (Init_stays max) (λ _, run_ops_stays max l) _ _ _ (new_storage_in_order w W) HR) as [Ho F].
  split; apply F.
Qed.

(** ** Writing elsewhere *)

(** A file outside of the directory can be written without changing the log. *)
Lemma disk_puts w q bytes w' cl op b first t :
  disk w path cl op b first t → puts w q bytes w' → ¬ inside q → disk w' path cl op b first t.
Proof.
  intros D P Hq.
  assert (∀ n, names w' !! in_dir path n = names w !! in_dir path n) as Hn.
  { intros n. apply P. intros <-. apply Hq, inside_in_dir. }
  assert (∀ n i, names w !! in_dir path n = Some i → inodes w' !! i = inodes w !! i) as Hi.
  { intros n i E. pose proof (pt_else _ _ _ _ P (in_dir path n)) as Hv. unfold view in Hv. rewrite Hn, E in Hv.
    apply Hv. intros <-. apply Hq, inside_in_dir. }
  assert (∀ o c, (o, c) ∈ flagged cl op → inodes w' !! c_ino c = inodes w !! c_ino c) as Hc.
  { intros o c Hin. eapply Hi, D, Hin. }
  constructor; try apply D.
  - intros o c Hin. rewrite Hn. by apply D.
  - intros c Hin. rewrite (Hc false) by (apply elem_of_flagged; by left). by apply D.
  - intros c Hin. rewrite (Hc true) by (apply elem_of_flagged; by right). by apply D.
  - intros i. apply (pt_wf _ _ _ _ P).
  - destruct (dk_meta _ _ _ _ _ _ _ D) as (i & (Hname & m & Hm) & Hno). exists i. split; [|done].
    split; [by rewrite Hn|]. exists m. by rewrite (Hi _ _ Hname).
  - intros n i. rewrite Hn. apply D.
Qed.
End frame.
