(* ===== verification/MraftTheorems.v ===== *)
(** * MraftTheorems: the log is a list of entries, before and after a restart *)

From S2P Require Import Prelude MraftOs MraftEntry MraftPb MraftSegment MraftSegmentSpec MraftRecovery MraftLog MraftNames MraftStore MraftAppend MraftInit MraftTruncate MraftSuffix.

(** * The log as a list of entries

    The operations of the storage on the list that it represents, what is found
    after a restart, and what goes wrong: the truncations that do not end, the
    entry that is read after it was dropped, the empty log after a restart. *)

Section theorems.
Context `{OutsideLaws}.
Implicit Types (st : Storage) (w : World).

(** The next index, and that the storage has it. *)
Lemma represents_next st first es :
  represents st first es → last_log_index_ st + 1 = first + Z.of_nat (length es).
Proof.
  intros (cl & op & b & S & ->). rewrite visible_length by apply (st_disk _ _ _ _ _ S).
  rewrite (st_last _ _ _ _ _ S). lia.
Qed.

(** ** One operation *)

Lemma AppendEntry_step max st first es e :
  calm (world st) → 0 <= max → represents st first es → coherent st first es →
  entry_ok e → Index e = first + Z.of_nat (length es) → Index e + 1 < 2 ^ 63 →
  ∃ st', AppendEntry max e st = Some (0, st') ∧ calm (world st') ∧ represents st' first (es ++ [e]) ∧
    coherent st' first (es ++ [e]) ∧ log_path_ st' = log_path_ st.
Proof.
  intros Hc Hmax R Hco Hok Hix Hm. pose proof (represents_next _ _ _ R) as Hn. destruct R as (cl & op & b & S & ->).
  destruct (AppendEntry_store max st cl op b first e Hc Hmax S Hok) as (st' & cl' & op' & HA & Hc' & S' & HV & HC & HL & HP).
  { rewrite (st_last _ _ _ _ _ S) in Hn. lia. }
  { done. }
  exists st'. split_and!; [done|done| |by eapply coherent_append|done]. exists cl', op', b. by rewrite HV.
Qed.

(** C9. Appending refines adding to a list: on a storage that represents the
    entries [es] from the index [first] on, [AppendEntry] of a well-formed entry
    with the next index returns 0 and gives a storage that represents [es] and
    the entry, whether the entry goes to the open segment, to a new one, or to a
    new one after the full one was closed. *)
Theorem AppendEntry_extends max st first es e :
  calm (world st) → 0 <= max → represents st first es → coherent st first es →
  entry_ok e → Index e = last_log_index_ st + 1 → Index e + 1 < 2 ^ 63 →
  ∃ st', AppendEntry max e st = Some (0, st') ∧ calm (world st') ∧ represents st' first (es ++ [e]) ∧
    coherent st' first (es ++ [e]).
Proof.
  intros Hc Hmax R Hco Hok Hix Hm. rewrite (represents_next _ _ _ R) in Hix.
  destruct (AppendEntry_step max st first es e) as (st' & ? & ? & ? & ? & _); try done. by exists st'.
Qed.

(** C25. Reading is exact as long as the entries in the cache are those of the
    log ([coherent]: so after [Init] and [AppendEntry], but not after
    [TruncateSuffix], see [TruncateSuffix_stale_entry]): [GetEntry] of any index
    returns the entry of the list that the storage represents, or the null
    pointer for an index outside of it, and [GetTerm] its term or 0; neither
    changes the storage. *)
Theorem GetEntry_exact st first es i :
  calm (world st) → represents st first es → coherent st first es →
  GetEntry i st = Some (entry_at first es i, st) ∧
  GetTermAt i st = Some (from_option Term 0 (entry_at first es i), st).
Proof.
  intros Hc R Hco. split; [by apply GetEntry_represents|by apply GetTermAt_represents].
Qed.

(** A batch is the part of the list from an index on: [raftLogGetBatch] gives
    the first [n] entries from [i], fewer at the end of the log. *)
Theorem raftLogGetBatch_exact st first es i n :
  calm (world st) → represents st first es → coherent st first es → first <= i → is_u32 n →
  raftLogGetBatch i n st = Some (take (Z.to_nat n) (drop (Z.to_nat (i - first)) es), st).
Proof.
  intros Hc R Hco Hi Hn. unfold raftLogGetBatch. rewrite u32_id by done. by apply GetBatch_represents.
Qed.

(** No closed segment has all its entries before the index. *)
Definition front_stays st (kept : Z) : Prop :=
  ∀ k p l s, segments_ st = (k, p) :: l → heap st !! p = Some s → kept <= last_index_ s.

Lemma front_stays_safe st cl op b first kept :
  store st cl op b first → iterators_stay = true ∨ front_stays st kept → front_safe kept cl.
Proof.
  intros S [Hs|Hs]; [by left|right]. intros c Hc. destruct cl as [|c' cl]; [done|]. injection Hc as ->.
  apply (Hs (c_first c) (c_ptr c) ((λ c, (c_first c, c_ptr c)) <$> cl) (seg_of (log_path_ st) false c)).
  - by rewrite (st_segments _ _ _ _ _ S).
  - apply (st_heap _ _ _ _ _ S), elem_of_flagged. left. split; [done|by left].
Qed.

(** [TruncatePrefix] drops the entries before an index, when the entries in
    the cache are all before it: it returns 0 and the storage represents the rest
    of the list, also when the open segment goes, when the index is beyond the
    end and when nothing is left.  Closed segments may only go if the container
    of the segments keeps iterators valid. *)
Theorem TruncatePrefix_drops st first es kept :
  calm (world st) → represents st first es → first < kept < 2 ^ 63 →
  iterators_stay = true ∨ front_stays st kept →
  Forall (λ e, Index e < kept) (latest_entries_cache_ st) →
  ∃ st', TruncatePrefix (S (length (latest_entries_cache_ st))) kept st = Some (0, st') ∧ calm (world st') ∧
    represents st' kept (drop (Z.to_nat (kept - first)) es).
Proof.
  intros Hc (cl & op & b & S & ->) Hk Hs Hcache. apply (front_stays_safe _ _ _ _ _ _ S) in Hs.
  destruct (TruncatePrefix_run st cl op b first kept Hc S Hk Hs) as (st1 & cl2 & op2 & b2 & HT & Hc1 & S1 & HV & HC & _).
  exists (with_cache st1 []). split; [|split; [done|]].
  - rewrite HT. apply clear_cache_ends. rewrite HC. apply pop_front_ends; [done|lia].
  - exists cl2, op2, b2. split; [by apply store_with_cache|done].
Qed.

(** Dropping a closed segment is undefined: when all entries of the first
    closed segment are before the index, [PopSegments] goes on with an iterator
    that [erase(it++)] may have invalidated, for the segments are in an
    [absl::btree_map]. *)
Theorem TruncatePrefix_invalid_iterator st first es kept k p l s fuel :
  iterators_stay = false → calm (world st) → represents st first es → first < kept < 2 ^ 63 →
  segments_ st = (k, p) :: l → heap st !! p = Some s → last_index_ s < kept →
  TruncatePrefix fuel kept st = None.
Proof.
  intros Hstay Hc (cl & op & b & S & _) Hk Hseg Hp Hl. pose proof (st_segments _ _ _ _ _ S) as Hs.
  rewrite Hseg in Hs. destruct cl as [|c cl]; [done|]. injection Hs as -> -> ->.
  rewrite (st_heap _ _ _ _ _ S false c) in Hp by (apply elem_of_flagged; left; split; [done|by left]).
  injection Hp as <-. by eapply TruncatePrefix_invalid.
Qed.

(** C29. [TruncateSuffix] drops the entries after an index of the log, when the
    entries in the cache are all after it: it returns 0 and the storage
    represents the list up to the index, with the segment that has the index cut
    and open for the next entry, or left whole if it ends there. *)
Theorem TruncateSuffix_takes st first es kept :
  calm (world st) → represents st first es → first <= kept < last_log_index_ st →
  Forall (λ e, kept < Index e) (latest_entries_cache_ st) →
  ∃ st', TruncateSuffix (S (length (latest_entries_cache_ st))) kept st = Some (0, st') ∧ calm (world st') ∧
    represents st' first (take (Z.to_nat (kept + 1 - first)) es).
Proof.
  intros Hc (cl & op & b & S & ->) Hk Hcache.
  destruct (TruncateSuffix_run st cl op b first kept Hc S Hk) as (st1 & cl2 & op2 & HT & Hc1 & S1 & HV & HC & _).
  exists (with_cache st1 []). split; [|split; [done|]].
  - rewrite HT. apply clear_cache_ends. rewrite HC. apply pop_back_ends; [done|lia].
  - exists cl2, op2, b. split; [by apply store_with_cache|done].
Qed.

(** C37. The truncations do not end when the cache keeps an entry: the loops at
    their end only ever remove entries that are dropped and run until the cache
    is empty, so that with an entry that stays no number of rounds is enough. *)
Theorem truncations_never_end st first es kept fuel :
  calm (world st) → represents st first es →
  (first < kept < 2 ^ 63 → Exists (λ e, kept <= Index e) (latest_entries_cache_ st) →
   TruncatePrefix fuel kept st = None) ∧
  (first <= kept < last_log_index_ st → Exists (λ e, Index e <= kept) (latest_entries_cache_ st) →
   TruncateSuffix fuel kept st = None).
Proof.
  intros Hc (cl & op & b & S & _). split; intros Hk Hx.
  - destruct (front_safe_dec kept cl) as [Hs|(Hs & c & rest & -> & Hl)]; [|by eapply TruncatePrefix_invalid].
    destruct (TruncatePrefix_run st cl op b first kept Hc S Hk Hs) as (st1 & ? & ? & ? & -> & _ & _ & _ & HC & _).
    apply clear_cache_stuck. rewrite HC. by apply pop_front_stuck.
  - destruct (TruncateSuffix_run st cl op b first kept Hc S Hk) as (st1 & ? & ? & -> & _ & _ & _ & HC & _).
    apply clear_cache_stuck. rewrite HC. by apply pop_back_stuck.
Qed.

(** The last entry is still read after it was dropped: [TruncateSuffix] does
    not reset [latest_entry_], so that [GetEntry] returns the dropped entry for
    its index although the log ends before it. *)
Theorem TruncateSuffix_stale_entry st first es kept e :
  calm (world st) → represents st first es → first <= kept < last_log_index_ st →
  Forall (λ e, kept < Index e) (latest_entries_cache_ st) → latest_entry_ st = Some e → kept < Index e →
  ∃ st', TruncateSuffix (S (length (latest_entries_cache_ st))) kept st = Some (0, st') ∧
    last_log_index_ st' = kept ∧ GetEntry (Index e) st' = Some (Some e, st').
Proof.
  intros Hc R Hk Hcache Hl He. pose proof (represents_next _ _ _ R) as Hnext. destruct R as (cl & op & b & S & ->).
  destruct (TruncateSuffix_run st cl op b first kept Hc S Hk) as (st1 & cl2 & op2 & HT & Hc1 & S1 & HV & HC & HL).
  exists (with_cache st1 []). split_and!.
  - rewrite HT. apply clear_cache_ends. rewrite HC. apply pop_back_ends; [done|lia].
  - assert (represents st1 first (visible cl2 op2 b first)) as R1 by (by exists cl2, op2, b).
    apply represents_next in R1. rewrite HV, length_take_le in R1; [cbn; lia|lia].
  - unfold GetEntry. mrun. cbn [with_cache latest_entry_]. rewrite HL, Hl. cbn. by rewrite Z.eqb_refl.
Qed.
End theorems.

(** * The log after a restart

    A storage that is made anew on the directory of a log finds the log again,
    with the exception of the empty log; a write that fails on the way loses
    nothing of what was there before. *)

Section restart.
Context `{OutsideLaws}.
Implicit Types (st : Storage) (w : World).

Lemma coherent_empty st first es :
  latest_entries_cache_ st = [] → latest_entry_ st = None → coherent st first es.
Proof.
  intros HC HL. unfold coherent. rewrite HC, HL. split_and!; [done| |by intros e ?%elem_of_nil].
  exists 0. split; [|done]. intros k e Hk. by rewrite lookup_nil in Hk.
Qed.

(** Reading through a storage that represents [es]. *)
Definition reads st (first : Z) (es : list LogEntry) : Prop :=
  ∀ i, GetEntry i st = Some (entry_at first es i, st).

Lemma Init_step max w path first es t :
  calm w → 0 <= max → on_disk w path first es t → torn t → es ≠ [] →
  ∃ st', Init max (new_storage path w) = Some (0, st') ∧ calm (world st') ∧ represents st' first es ∧
    coherent st' first es.
Proof.
  intros Hc Hmax (cl & op & b & D & ->) Ht Hne. pose proof (visible_length _ _ _ _ (dk_first _ _ _ _ _ _ _ D)) as Hl.
  destruct (Init_disk w path cl op b first t D max Hc Hmax Ht) as (st' & cl' & op' & HI & Hc' & S' & HV & HC & HL).
  { destruct (visible cl op b first); cbn in *; [done|lia]. }
  exists st'. split_and!; [done|done|exists cl', op', b; by rewrite HV|by apply coherent_empty].
Qed.

(** C12. A restart finds the log: on a directory that holds the log [es], not
    empty, with or without a part of one more entry at the end, in whatever order
    the system lists the files, [Init] of a new storage returns 0 and gives a
    storage that represents [es]. *)
Theorem Init_recovers max w path first es t :
  calm w → 0 <= max → on_disk w path first es t → torn t → es ≠ [] →
  ∃ st', Init max (new_storage path w) = Some (0, st') ∧ calm (world st') ∧ represents st' first es ∧
    coherent st' first es.
Proof. apply Init_step. Qed.

(** ** A write that fails *)

Lemma disk_torn w w' path cl c b first t :
  disk w path cl (Some c) b first [] → names w' = names w → next_ino w' = next_ino w →
  inodes w' = <[c_ino c := log_bytes (c_es c) ++ t]> (inodes w) →
  disk w' path cl (Some c) b first t.
Proof.
  intros D Hn Hni Hi. pose proof (dk_inos _ _ _ _ _ _ _ D) as Hnd. rewrite all_of_Some, fmap_app, NoDup_app in Hnd.
  destruct Hnd as (_ & Hd & _).
  constructor; rewrite ?Hn, ?Hni, ?Hi; try apply D.
  - intros x Hx. rewrite lookup_insert_ne; [by apply D|]. intros E.
    apply (Hd (c_ino x)); [apply list_elem_of_fmap; eauto|]. rewrite <-E. by left.
  - intros x [= <-]. by rewrite lookup_insert_eq.
  - intros i. destruct (decide (i = c_ino c)) as [->|Hne].
    + intros _. apply (dk_fresh _ _ _ _ _ _ _ D). rewrite (dk_open _ _ _ _ _ _ _ D c eq_refl). eauto.
    + rewrite lookup_insert_ne by done. apply D.
  - destruct (dk_meta _ _ _ _ _ _ _ D) as (i & (Hname & m & Hm) & Hni'). exists i. split; [|done].
    split; [by rewrite Hn|]. exists m. rewrite Hi, lookup_insert_ne; [done|].
    intros <-. apply Hni'. rewrite all_of_Some, fmap_app. apply elem_of_app. right. by left.
Qed.

(** The system fails the next call, a write, after [n] bytes. *)
Lemma Append_torn w s fd es e err n :
  answers w = [Failed err n] → seg_rel w s fd es → is_open_ s = true → Index e = last_index_ s + 1 →
  ∃ s' w', Append s w e = (err, s', w') ∧ calm w' ∧ names w' = names w ∧ next_ino w' = next_ino w ∧
    inodes w' = <[fd_ino fd := log_bytes es ++ take n (entry_bytes e)]> (inodes w).
Proof.
  intros Ha R Ho Hi. unfold Append. rewrite Ho, Hi, Z.eqb_refl. cbn [negb].
  rewrite (sr_fd _ _ _ _ R). unfold writev, writevFull, ask. rewrite Ha.
  rewrite (proj2 (Z.eqb_neq _ _)).
  2: { pose proof (u32_range (DataLength e)) as Hu. unfold is_u32 in Hu. unfold header_of, kEntryHeaderLength.
       destruct (0 <? DataLength e); cbn [data_len]; lia. }
  cbn [negb]. do 2 eexists. split_and!; [done|done|done|done|].
  cbn [inodes set_errno set_inode]. unfold file_bytes. cbn [inodes]. rewrite (sr_file _ _ _ _ R).
  rewrite (sr_pos _ _ _ _ R Ho). unfold log_size. rewrite Nat2Z.id. cbn [default from_option id].
  change (default [] (Some (log_bytes es))) with (log_bytes es). by rewrite overwrite_end.
Qed.

(** The open segment has room: [AppendEntry] writes without another call. *)
Definition has_room max st : Prop :=
  ∃ p s, open_segment_ st = Some p ∧ heap st !! p = Some s ∧ bytes_ s <= max.

(** C19. A failed write loses nothing: on a log with at least one entry, whose open
    segment has room for the next one, so that no new segment is made, when the
    system fails the write of an entry after some of its bytes, [AppendEntry]
    returns the error, and a restart on the directory as it is then finds the log
    from before the call. *)
Theorem torn_append_recovers max st first es e err n :
  answers (world st) = [Failed err n] → err ≠ 0 → 0 <= max → represents st first es → es ≠ [] → has_room max st →
  entry_ok e → Index e = last_log_index_ st + 1 → (n < length (entry_bytes e))%nat →
  ∃ st1 st2, AppendEntry max e st = Some (err, st1) ∧
    Init max (new_storage (log_path_ st) (world st1)) = Some (0, st2) ∧ represents st2 first es ∧ reads st2 first es.
Proof.
  intros Ha Herr Hmax R Hne (p & s & Hop & Hh & Hb) Hok Hix Hn. pose proof (represents_next _ _ _ R) as Hnext.
  destruct R as (cl & op & b & S & ->). destruct op as [c|]; [|by rewrite (st_open _ _ _ _ _ S) in Hop].
  assert ((true, c) ∈ flagged cl (Some c)) as Hin by (apply elem_of_flagged; by right).
  pose proof (store_seg _ _ _ _ _ _ _ S Hin) as Rc. pose proof (st_disk _ _ _ _ _ S) as D.
  rewrite (st_open _ _ _ _ _ S) in Hop. injection Hop as <-.
  destruct (Append_torn (world st) _ _ _ e err n Ha Rc eq_refl) as (s' & w' & HA & Hc' & Hn' & Hni' & Hi').
  { rewrite Hix. cbn. rewrite (st_last _ _ _ _ _ S), all_of_Some, total_snoc. unfold c_last.
    pose proof (dk_chain _ _ _ _ _ _ _ D) as Hch. rewrite all_of_Some, chain_snoc in Hch.
    destruct Hch as [_ Hf]. lia. }
  pose proof (disk_torn _ w' _ _ _ _ _ (take n (entry_bytes e)) D Hn' Hni' Hi') as D'.
  destruct (Init_step max w' (log_path_ st) first (visible cl (Some c) b first) (take n (entry_bytes e)))
    as (st2 & HI & Hc2 & R2 & Hco2); [done|done|by exists cl, (Some c), b| |done|].
  { exists e, (drop n (entry_bytes e)). split_and!; [done| |by rewrite take_drop].
    intros E. apply (f_equal length) in E. rewrite length_drop in E. change (length []) with 0%nat in E. lia. }
  eexists _, st2. split.
  { unfold AppendEntry. mrun. rewrite (GetOpenSegment_keep max _ _ _ (st_open _ _ _ _ _ S) Hh Hb). mrun.
    rewrite (st_heap _ _ _ _ _ S _ _ Hin). mrun. rewrite HA. mrun.
    rewrite (proj2 (Z.eqb_neq _ _) Herr). cbn [negb]. reflexivity. }
  split; [exact HI|split; [done|by intros i; apply GetEntry_represents]].
Qed.

(** ** The empty log *)

(** A restart loses an empty log: on a directory that has the meta file and no
    segment, with the first index [first], [Init] returns 0 and leaves the last
    index 1 of the constructor, for [LoadSegments] sets it only if it is 0.  The
    log then counts [2 - first] entries instead of none, and the next entry gets
    the index 2 instead of [first]. *)
Theorem Init_empty_log max w path first i :
  calm w → 0 <= max → meta_at w path first i → (∀ n, is_Some (names w !! in_dir path n) → n = kSegmentLogMeta) →
  ∃ st', Init max (new_storage path w) = Some (0, st') ∧ segments_ st' = [] ∧ open_segment_ st' = None ∧
    first_log_index_ st' = first ∧ last_log_index_ st' = 1 ∧ raftLogCount st' = Some (2 - first, st').
Proof.
  intros Hc Hmax Hmeta Hdir.
  set (st' := mkStorage path [] None 1 first [] None ∅ 0 w). exists st'. split_and!; try done.
  - unfold Init. rewrite (proj2 (Z.ltb_ge max 0)) by done. mrun.
    rewrite (LoadMeta_found (new_storage path w) first i Hc Hmeta). cbn [negb Z.eqb]. mrun.
    cbn [new_storage log_path_ segments_ open_segment_ last_log_index_ latest_entries_cache_ latest_entry_ heap next_ptr world].
    fold st'. assert (ListSegments false st' = Some (0, st')) as ->; [|done].
    unfold ListSegments. mrun. unfold sys_opendir. cbn [st' world log_path_]. rewrite ask_calm by done. mrun. cbn [negb].
    assert (∀ fs, (∀ n, n ∈ fs → n = kSegmentLogMeta ∨ n = "."%string ∨ n = ".."%string) →
      list_loop false fs st' = Some (0, st')) as Hskip.
    { induction fs as [|n fs IH]; intros Hf; [done|]. cbn [list_loop].
      rewrite bool_decide_eq_true_2 by (apply Hf; left). apply IH. intros k Hk. apply Hf. by right. }
    apply Hskip. intros n [_ [?|[?|Hs]]]%readdir_elem; [by right; left|by right; right|left; by apply Hdir].
  - unfold raftLogCount. mrun. cbn [st' last_log_index_ first_log_index_]. do 2 f_equal. lia.
Qed.

(** ** A history *)

Fixpoint append_all (max : Z) (es : list LogEntry) : M Z :=
  match es with
  | [] => mret 0
  | e :: es => rc ← raftLogAppend max e; if negb (rc =? 0) then mret rc else append_all max es
  end.

(** The entries with the indices they get. *)
Fixpoint numbered (i : Z) (es : list LogEntry) : list LogEntry :=
  match es with
  | [] => []
  | e :: es => mkEntry i (Term e) (Type_ e) (Data e) :: numbered (i + 1) es
  end.

Lemma append_all_represents max es st first es0 :
  calm (world st) → 0 <= max → represents st first es0 → coherent st first es0 → Forall entry_ok es →
  first + Z.of_nat (length es0) + Z.of_nat (length es) < 2 ^ 63 →
  ∃ st', append_all max es st = Some (0, st') ∧ calm (world st') ∧
    represents st' first (es0 ++ numbered (first + Z.of_nat (length es0)) es) ∧
    coherent st' first (es0 ++ numbered (first + Z.of_nat (length es0)) es) ∧ log_path_ st' = log_path_ st.
Proof.
  intros Hc Hmax. revert st es0 Hc. induction es as [|e es IH]; intros st es0 Hc R Hco Hok Hm.
  { exists st. cbn [numbered]. by rewrite app_nil_r. }
  apply Forall_cons in Hok as [He Hok]. cbn [append_all numbered length] in *. mrun. unfold raftLogAppend. mrun.
  rewrite (represents_next _ _ _ R). set (e' := mkEntry _ (Term e) (Type_ e) (Data e)).
  destruct (AppendEntry_step max st first es0 e') as (st1 & -> & Hc1 & R1 & Hco1 & HP1); try done; [cbn; lia|].
  cbn [negb Z.eqb]. destruct (IH st1 (es0 ++ [e'])) as (st' & HA & Hc' & R' & Hco' & HP'); try done.
  { rewrite length_app. cbn. lia. }
  exists st'. rewrite length_app in R', Hco'. cbn [length] in R', Hco'.
  rewrite Nat2Z.inj_add, Z.add_assoc, <-app_assoc in R', Hco'. cbn [app] in R', Hco'. split_and!; try done. congruence.
Qed.

(** C4. A history from the first start: on an empty directory, [Init] and then
    [raftLogAppend] of the entries [es] all return 0; the entries get the indices
    from 1 on, [GetEntry] returns them, and after a restart on the same directory
    a new storage returns the same. *)
Theorem log_history max w path es :
  calm w → 0 <= max → (∀ n, names w !! in_dir path n = None) →
  (∀ i, is_Some (inodes w !! i) → (i < next_ino w)%nat) →
  Forall entry_ok es → es ≠ [] → 1 + Z.of_nat (length es) < 2 ^ 63 →
  ∃ st1 st2 st3, Init max (new_storage path w) = Some (0, st1) ∧ append_all max es st1 = Some (0, st2) ∧
    reads st2 1 (numbered 1 es) ∧
    Init max (new_storage path (world st2)) = Some (0, st3) ∧ reads st3 1 (numbered 1 es).
Proof.
  intros Hc Hmax Hdir Hfresh Hok Hne Hm.
  destruct (Init_fresh max w path Hc Hmax Hdir Hfresh) as (st1 & HI & Hc1 & S1 & HC & HL & HP0).
  assert (represents st1 1 []) as R1 by (by exists [], None, 1).
  destruct (append_all_represents max es st1 1 []) as (st2 & HA & Hc2 & R2 & Hco2 & HP); try done.
  { by apply coherent_empty. }
  cbn [app length] in R2, Hco2. change (1 + Z.of_nat 0) with 1 in R2, Hco2.
  assert (numbered 1 es ≠ []) as Hne' by (by destruct es).
  rewrite HP0 in HP. pose proof (represents_on_disk _ _ _ R2) as Hdisk. rewrite HP in Hdisk.
  destruct (Init_step max (world st2) path 1 _ [] Hc2 Hmax Hdisk torn_nil Hne') as (st3 & HI3 & Hc3 & R3 & Hco3).
  exists st1, st2, st3. split_and!; try done; intros i; by apply GetEntry_represents.
Qed.
End restart.
