(* ===== verification/MraftWitness.v ===== *)
(** * MraftWitness: a log at work

    Concrete surroundings, and the theorems on the log applied to small logs. *)

From Stdlib Require Import Ascii.
From stdpp Require Import pretty.
From S2P Require Import Prelude MraftIobuf MraftOs MraftEntry MraftPb MraftSegment MraftSegmentSpec MraftRecovery MraftLog MraftNames MraftStore MraftAppend MraftInit MraftTruncate MraftSuffix MraftTheorems.

(** * Surroundings for examples

    An instance of [Outside] with its laws, so that the log runs on concrete
    input: a simple checksum, decimal numbers, a message that is the eight bytes
    of its field, a directory listing in the order of the map of names. *)

Definition digit (c : ascii) : option Z :=
  let n := Z.of_N (Ascii.N_of_ascii c) - 48 in
  if (0 <=? n) && (n <=? 9) then Some n else None.
Fixpoint number (acc : Z) (l : list ascii) : option Z :=
  match l with
  | [] => Some acc
  | c :: l => d ← digit c; number (10 * acc + d) l
  end.
Definition decimal (s : string) : option Z :=
  match String.list_ascii_of_string s with
  | [] => None
  | c :: l => if bool_decide (c = "-"%char) then Z.opp <$> number 0 l else number 0 (c :: l)
  end.

Lemma digit_char x : (x < 10)%N → digit (pretty_N_char x) = Some (Z.of_N x).
Proof.
  intros Hx. assert (x = 0 ∨ x = 1 ∨ x = 2 ∨ x = 3 ∨ x = 4 ∨ x = 5 ∨ x = 6 ∨ x = 7 ∨ x = 8 ∨ x = 9)%N
    as Hc by lia. by repeat destruct Hc as [->|Hc]; [..|subst].
Qed.

Lemma number_pretty_go x s :
  number 0 (String.list_ascii_of_string (pretty_N_go x s)) = number (Z.of_N x) (String.list_ascii_of_string s).
Proof.
  revert s. induction (N.lt_wf_0 x) as [x _ IH]; intros s.
  destruct (decide (x = 0%N)) as [->|Hx]; [by rewrite pretty_N_go_0|].
  rewrite pretty_N_go_step, IH by (try apply N.div_lt; lia). cbn.
  rewrite digit_char by (apply N.mod_lt; lia). cbn [mbind option_bind]. f_equal.
  pose proof (N.div_mod x 10). lia.
Qed.

Lemma decimal_nat x : number 0 (String.list_ascii_of_string (pretty (N.pos x))) = Some (Z.pos x).
Proof. unfold pretty, pretty_N. rewrite decide_False by done. by rewrite number_pretty_go. Qed.

Lemma decimal_to_string z : decimal (to_string z) = Some z.
Proof.
  unfold decimal. destruct z as [|p|p]; [done| |].
  - change (to_string (Z.pos p)) with (pretty (N.pos p)). pose proof (decimal_nat p) as Hn.
    destruct (String.list_ascii_of_string (pretty (N.pos p))) as [|c l]; [done|].
    rewrite bool_decide_eq_false_2; [done|]. by intros ->.
  - change (String.list_ascii_of_string (to_string (Z.neg p)))
      with ("-"%char :: String.list_ascii_of_string (pretty (N.pos p))).
    cbv iota beta. rewrite bool_decide_eq_true_2 by done. by rewrite decimal_nat.
Qed.

(** Splitting at ['_']. *)
Fixpoint split_at (s : string) : string * list string :=
  match s with
  | EmptyString => (EmptyString, [])
  | String c s =>
      let '(a, l) := split_at s in
      if bool_decide (c = "_"%char) then (EmptyString, a :: l) else (String c a, l)
  end.
Definition split_toy (s : string) : list string := let '(a, l) := split_at s in a :: l.

Lemma split_at_none b : lacks "_"%char b → split_at b = (b, []).
Proof.
  induction b as [|c b IH]; [done|]. unfold lacks. cbn. rewrite not_elem_of_cons. intros [Hc Hb].
  rewrite IH by done. rewrite bool_decide_eq_false_2; [done|]. by intros ->.
Qed.
Lemma split_at_two a b : lacks "_"%char a → lacks "_"%char b → split_at (a +:+ "_" +:+ b) = (a, [b]).
Proof.
  intros Ha Hb. induction a as [|c a IH].
  - change (split_at ("" +:+ "_" +:+ b))
      with (let '(a, l) := split_at b in
            if bool_decide ("_"%char = "_"%char) then (EmptyString, a :: l) else (String "_"%char a, l)).
    rewrite (split_at_none b Hb). by rewrite bool_decide_eq_true_2.
  - unfold lacks in Ha. cbn in Ha. apply not_elem_of_cons in Ha as [Hc Ha].
    change (split_at (String c a +:+ "_" +:+ b))
      with (let '(a', l) := split_at (a +:+ "_" +:+ b) in
            if bool_decide (c = "_"%char) then (EmptyString, a' :: l) else (String c a', l)).
    rewrite IH by done. rewrite bool_decide_eq_false_2; [done|]. by intros ->.
Qed.

(** The rest of [s] after the prefix [p]. *)
Fixpoint strip (p s : string) : option string :=
  match p, s with
  | EmptyString, _ => Some s
  | String c p, String c' s => if bool_decide (c = c') then strip p s else None
  | _, EmptyString => None
  end.
Lemma strip_spec p s r : strip p s = Some r ↔ s = (p +:+ r)%string.
Proof.
  revert s. induction p as [|c p IH]; intros s; cbn; [naive_solver|].
  destruct s as [|c' s]; [done|]. case_bool_decide as Hc.
  - subst. rewrite IH. split; [by intros ->|by intros [= ->]].
  - split; [done|]. by intros [= ? ?].
Qed.

Definition lacksb (c : ascii) (s : string) : bool := bool_decide (c ∉ String.list_ascii_of_string s).
Definition listing (w : World) (d : string) : list string :=
  filter (λ n, lacksb "/"%char n)
    ("."%string :: ".."%string ::
     filter (λ n, n ≠ "."%string ∧ n ≠ ".."%string)
       (omap (λ p, strip (d +:+ "/") p.1) (map_to_list (names w)))).

Lemma append_assoc a b c : ((a +:+ b) +:+ c = a +:+ b +:+ c)%string.
Proof. induction a as [|x a IH]; [done|]. by apply (f_equal (String x)) in IH. Qed.

Lemma in_dir_strip d p n : strip (d +:+ "/") p = Some n ↔ p = in_dir d n.
Proof. rewrite strip_spec. unfold in_dir. by rewrite append_assoc. Qed.

Lemma listing_names w d n :
  n ∈ omap (λ p, strip (d +:+ "/") p.1) (map_to_list (names w)) ↔ is_Some (names w !! in_dir d n).
Proof.
  rewrite list_elem_of_omap. split.
  - intros ([p i] & Hp & Hs). apply in_dir_strip in Hs. cbn in Hs. subst. exists i. by apply elem_of_map_to_list.
  - intros [i Hi]. exists (in_dir d n, i). split; [by apply elem_of_map_to_list|]. by apply in_dir_strip.
Qed.

Lemma listing_elem w d n :
  n ∈ listing w d ↔ lacks "/"%char n ∧ (n = "."%string ∨ n = ".."%string ∨ is_Some (names w !! in_dir d n)).
Proof.
  unfold listing, lacksb, lacks. rewrite list_elem_of_filter, bool_decide_spec, !elem_of_cons, list_elem_of_filter, listing_names.
  destruct (decide (n = "."%string)), (decide (n = ".."%string)); naive_solver.
Qed.

Lemma NoDup_listing_names w d : NoDup (omap (λ p, strip (d +:+ "/") p.1) (map_to_list (names w))).
Proof.
  pose proof (NoDup_fst_map_to_list (names w)) as Hn. induction (map_to_list (names w)) as [|[p i] l IH]; [constructor|].
  cbn [fmap list_fmap fst] in Hn. apply NoDup_cons in Hn as [Hp Hn]. cbn [omap list_omap fst].
  destruct (strip (d +:+ "/") p) as [n|] eqn:E; [|by apply IH]. constructor; [|by apply IH].
  rewrite list_elem_of_omap. intros ([p' i'] & Hin & E'). cbn in E'.
  apply in_dir_strip in E, E'. apply Hp. rewrite E, <-E'. apply list_elem_of_fmap; by exists (p', i').
Qed.

Lemma NoDup_listing w d : NoDup (listing w d).
Proof.
  unfold listing. apply NoDup_filter.
  repeat (apply NoDup_cons; split); [..|by apply NoDup_filter, NoDup_listing_names].
  - rewrite elem_of_cons, list_elem_of_filter. naive_solver.
  - rewrite list_elem_of_filter. naive_solver.
Qed.

Definition checksum (b : list Z) : Z := foldl (λ a x, u32 (31 * a + x + 7)) 0 b.

#[global] Instance toy : Outside := {|
  crc32 := checksum;
  to_int64 := decimal;
  split := split_toy;
  pb_serialize z := Some (le_bytes 8 z);
  pb_parse b := Some (i64 (le_value b));
  readdir := listing;
  uninitialised i := [u8 i; 205; 205];
  iterators_stay := false;
  outside_iobufs := {| create_capacity n := n; create_capacity_ge n := le_n n |}
|}.

Lemma checksum_u32 b : is_u32 (checksum b).
Proof.
  unfold checksum. induction b as [|x b _] using rev_ind; [by vm_compute|].
  rewrite foldl_app. apply u32_range.
Qed.

#[global] Instance toy_laws : OutsideLaws.
Proof.
  constructor.
  - apply checksum_u32.
  - intros z _. apply decimal_to_string.
  - intros a b Ha Hb. cbn. unfold split_toy. by rewrite split_at_two.
  - intros z Hz. exists (le_bytes 8 z). split_and!; [done|rewrite le_bytes_length; lia|].
    unfold pb_parse, toy. f_equal. rewrite le_value_bytes.
    change (256 ^ Z.of_nat 8) with (2 ^ 64). rewrite <-(i64_id z) at 2 by done. apply i64_u64.
  - apply NoDup_listing.
  - apply listing_elem.
  - intros i. split; [done|]. repeat constructor; try done; apply u8_range.
Qed.

(** An empty world. *)
Definition empty_world : World := mkWorld ∅ ∅ 0 [] 0.

(** * The log at work

    A log of three entries in the directory [d], with segments of at most 30
    bytes, in the surroundings of MraftToy: the theorems applied to it, and two
    runs in which a call fails and the log cannot be loaded afterwards. *)

Definition some_entry (i t : Z) : LogEntry := Wrap i t 1 [i; t; 7].
Definition three : list LogEntry := [some_entry 1 1; some_entry 2 1; some_entry 3 2].

Definition state_of {A} (r : option (A * Storage)) : Storage :=
  match r with Some (_, st) => st | None => new_storage "" empty_world end.

(** After the first start, after the three entries, and after a restart. *)
Definition st_first0 : Storage := state_of (Init 30 (new_storage "d" empty_world)).
Definition st_full : Storage := state_of (append_all 30 three st_first0).
Definition st_again : Storage := state_of (Init 30 (new_storage "d" (world st_full))).

Lemma three_ok : Forall entry_ok three.
Proof. repeat (apply Forall_cons; split; [by vm_compute|]). by apply Forall_nil. Qed.

Lemma fourth_ok : entry_ok (some_entry 4 2).
Proof. by vm_compute. Qed.

Lemma st_first_represents : calm (world st_first0) ∧ represents st_first0 1 [] ∧ coherent st_first0 1 [] ∧ log_path_ st_first0 = "d"%string.
Proof.
  destruct (Init_fresh 30 empty_world "d") as (st & HI & Hc & S & HC & HL & HP); [done|lia|done| |].
  { intros i [b Hb]. cbn in Hb. by rewrite lookup_empty in Hb. }
  unfold st_first0. rewrite HI. cbn [state_of]. split_and!; [done|by exists [], None, 1|by apply coherent_empty|done].
Qed.

Lemma st_full_represents : calm (world st_full) ∧ represents st_full 1 three ∧ coherent st_full 1 three ∧ log_path_ st_full = "d"%string.
Proof.
  destruct st_first_represents as (Hc & R & Hco & HP).
  destruct (append_all_represents 30 three st_first0 1 [] Hc) as (st & HA & Hc' & R' & Hco' & HP'); [lia|done|done|apply three_ok|by vm_compute|].
  unfold st_full. rewrite HA. cbn [state_of]. split_and!; [exact Hc'|exact R'|exact Hco'|congruence].
Qed.

Lemma st_again_represents : calm (world st_again) ∧ represents st_again 1 three ∧ coherent st_again 1 three.
Proof.
  destruct st_full_represents as (Hc & R & _ & HP). pose proof (represents_on_disk _ _ _ R) as Hd. rewrite HP in Hd.
  destruct (Init_step 30 (world st_full) "d" 1 three [] Hc) as (st & HI & Hc' & R' & Hco'); [lia|exact Hd|apply torn_nil|done|].
  unfold st_again. rewrite HI. exact (conj Hc' (conj R' Hco')).
Qed.

Lemma st_full_last : last_log_index_ st_full = 3.
Proof. vm_compute. reflexivity. Qed.
Lemma st_full_cache : latest_entries_cache_ st_full = three.
Proof. vm_compute. reflexivity. Qed.

Lemma AppendEntry_extends_witness :
  ∃ st', AppendEntry 30 (some_entry 4 2) st_full = Some (0, st') ∧ represents st' 1 (three ++ [some_entry 4 2]).
Proof.
  destruct st_full_represents as (Hc & R & Hco & _).
  destruct (AppendEntry_extends 30 st_full 1 three (some_entry 4 2)) as (st' & HA & _ & R' & _);
    [exact Hc|lia|exact R|exact Hco|exact fourth_ok|rewrite st_full_last; reflexivity|vm_compute; reflexivity|].
  exact (ex_intro _ st' (conj HA R')).
Defined.

Lemma GetEntry_exact_witness :
  GetEntry 2 st_again = Some (Some (some_entry 2 1), st_again) ∧ GetEntry 4 st_again = Some (None, st_again).
Proof.
  destruct st_again_represents as (Hc & R & Hco).
  split; [exact (proj1 (GetEntry_exact st_again 1 three 2 Hc R Hco))|exact (proj1 (GetEntry_exact st_again 1 three 4 Hc R Hco))].
Defined.

Lemma raftLogGetBatch_exact_witness :
  raftLogGetBatch 2 5 st_again = Some ([some_entry 2 1; some_entry 3 2], st_again).
Proof.
  destruct st_again_represents as (Hc & R & Hco).
  pose proof (raftLogGetBatch_exact st_again 1 three 2 5 Hc R Hco) as HB.
  assert (take (Z.to_nat 5) (drop (Z.to_nat (2 - 1)) three) = [some_entry 2 1; some_entry 3 2]) as E by reflexivity.
  rewrite E in HB. apply HB; [discriminate|split; [discriminate|reflexivity]].
Defined.

Lemma st_again_cache : latest_entries_cache_ st_again = [].
Proof. vm_compute. reflexivity. Qed.

Lemma st_again_segments : segments_ st_again = [(1, 1%nat)].
Proof. vm_compute. reflexivity. Qed.
Lemma st_again_closed :
  heap st_again !! 1%nat = Some (mkSegment "d" 54 (Some (mkFd 1 54)) false 1 2 [(0, 1); (27, 1)]).
Proof. vm_compute. reflexivity. Qed.

Lemma TruncatePrefix_drops_witness :
  ∃ st', TruncatePrefix (S (length (latest_entries_cache_ st_again))) 2 st_again = Some (0, st') ∧
    represents st' 2 [some_entry 2 1; some_entry 3 2].
Proof.
  destruct st_again_represents as (Hc & R & _).
  destruct (TruncatePrefix_drops st_again 1 three 2 Hc R ltac:(lia)) as (st' & HT & _ & R').
  { right. intros k p l s Hs Hp. rewrite st_again_segments in Hs. injection Hs as <- <- <-.
    rewrite st_again_closed in Hp. injection Hp as <-. discriminate. }
  { rewrite st_again_cache. apply Forall_nil. exact I. }
  exact (ex_intro _ st' (conj HT R')).
Defined.

Lemma TruncatePrefix_invalid_iterator_witness : TruncatePrefix 1000 3 st_again = None.
Proof.
  destruct st_again_represents as (Hc & R & _).
  exact (TruncatePrefix_invalid_iterator st_again 1 three 3 1 _ _ _ 1000 eq_refl Hc R (conj eq_refl eq_refl)
           st_again_segments st_again_closed eq_refl).
Defined.

Lemma TruncateSuffix_takes_witness :
  ∃ st', TruncateSuffix (S (length (latest_entries_cache_ st_again))) 1 st_again = Some (0, st') ∧
    represents st' 1 [some_entry 1 1].
Proof.
  destruct st_again_represents as (Hc & R & _).
  destruct (TruncateSuffix_takes st_again 1 three 1 Hc R) as (st' & HT & _ & R').
  { rewrite <-(Z.add_simpl_r (last_log_index_ st_again) 1), (represents_next _ _ _ R). split; [vm_compute; discriminate|vm_compute; reflexivity]. }
  { rewrite st_again_cache. apply Forall_nil. exact I. }
  exact (ex_intro _ st' (conj HT R')).
Defined.

Lemma truncations_never_end_witness :
  TruncatePrefix 1000 2 st_full = None ∧ TruncateSuffix 1000 2 st_full = None.
Proof.
  destruct st_full_represents as (Hc & R & _).
  destruct (truncations_never_end st_full 1 three 2 1000 Hc R) as [H1 H2]. split.
  - apply H1; [lia|]. rewrite st_full_cache. apply Exists_cons. right. apply Exists_cons. left. vm_compute; discriminate.
  - apply H2; [rewrite st_full_last; lia|]. rewrite st_full_cache. apply Exists_cons. left. vm_compute; discriminate.
Defined.

(** The cache without the first entry. *)
Definition st_cleared : Storage := state_of (ClearCacheEntry 1 st_full).

Lemma st_cleared_eq : st_cleared = with_cache st_full [some_entry 2 1; some_entry 3 2].
Proof. unfold st_cleared, ClearCacheEntry. mrun. rewrite st_full_cache. reflexivity. Qed.

Lemma st_cleared_represents : calm (world st_cleared) ∧ represents st_cleared 1 three.
Proof.
  rewrite st_cleared_eq, with_cache_world. destruct st_full_represents as (Hc & (cl & op & b & S & E) & _).
  split; [exact Hc|]. exists cl, op, b. split; [apply store_with_cache; exact S|exact E].
Qed.

Lemma st_full_latest : latest_entry_ st_full = Some (some_entry 3 2).
Proof. vm_compute. reflexivity. Qed.

Lemma TruncateSuffix_stale_entry_witness :
  ∃ st', TruncateSuffix 3 1 st_cleared = Some (0, st') ∧ last_log_index_ st' = 1 ∧
    GetEntry 3 st' = Some (Some (some_entry 3 2), st').
Proof.
  destruct st_cleared_represents as (Hc & R).
  destruct (TruncateSuffix_stale_entry st_cleared 1 three 1 (some_entry 3 2) Hc R) as (st' & HT & HL & HG).
  - rewrite st_cleared_eq, with_cache_last, st_full_last. lia.
  - rewrite st_cleared_eq, with_cache_cache. repeat (apply Forall_cons; split; [vm_compute; reflexivity|]).
    apply Forall_nil. exact I.
  - rewrite st_cleared_eq, with_cache_latest. exact st_full_latest.
  - vm_compute. reflexivity.
  - assert (S (length (latest_entries_cache_ st_cleared)) = 3%nat) as E by (rewrite st_cleared_eq, with_cache_cache; reflexivity).
    rewrite E in HT. exact (ex_intro _ st' (conj HT (conj HL HG))).
Defined.

Lemma Init_recovers_witness :
  ∃ st', Init 30 (new_storage "d" (world st_full)) = Some (0, st') ∧ represents st' 1 three.
Proof.
  destruct st_full_represents as (Hc & R & _ & HP). pose proof (represents_on_disk _ _ _ R) as Hd. rewrite HP in Hd.
  destruct (Init_recovers 30 (world st_full) "d" 1 three []) as (st & HI & _ & R' & _);
    [exact Hc|discriminate|exact Hd|exact torn_nil|discriminate|].
  exact (ex_intro _ st (conj HI R')).
Defined.

Lemma log_history_witness :
  ∃ st1 st2 st3, Init 30 (new_storage "d" empty_world) = Some (0, st1) ∧ append_all 30 three st1 = Some (0, st2) ∧
    reads st2 1 (numbered 1 three) ∧
    Init 30 (new_storage "d" (world st2)) = Some (0, st3) ∧ reads st3 1 (numbered 1 three).
Proof.
  apply (log_history 30 empty_world "d" three); try done; [intros i [x Hx]; cbn in Hx; by rewrite lookup_empty in Hx|exact three_ok].
Defined.

(** The next call fails. *)
Definition with_answers st (l : list answer) : Storage :=
  with_world st (mkWorld (names (world st)) (inodes (world st)) (next_ino (world st)) l (errno (world st))).

Lemma represents_with_answers st first es l : represents st first es → represents (with_answers st l) first es.
Proof.
  intros (cl & op & b & [[] ? ? ? ? ? ? ? ?] & E). exists cl, op, b. split; [|done].
  by constructor.
Qed.
Lemma with_answers_answers st l : answers (world (with_answers st l)) = l.
Proof. done. Qed.
Lemma with_answers_last st l : last_log_index_ (with_answers st l) = last_log_index_ st.
Proof. done. Qed.

Lemma torn_append_recovers_witness :
  let st := with_answers st_full [Failed 28 20] in
  ∃ st1 st2, AppendEntry 100 (some_entry 4 2) st = Some (28, st1) ∧
    Init 100 (new_storage (log_path_ st) (world st1)) = Some (0, st2) ∧ represents st2 1 three ∧ reads st2 1 three.
Proof.
  destruct st_full_represents as (_ & R & _).
  apply (torn_append_recovers 100 (with_answers st_full [Failed 28 20]) 1 three (some_entry 4 2) 28 20).
  - apply with_answers_answers.
  - discriminate.
  - discriminate.
  - apply represents_with_answers. exact R.
  - discriminate.
  - eexists _, _. split; [vm_compute; reflexivity|split; [vm_compute; reflexivity|vm_compute; discriminate]].
  - exact fourth_ok.
  - rewrite with_answers_last, st_full_last. reflexivity.
  - vm_compute. lia.
Defined.

Lemma st_first_meta : meta_at (world st_first0) "d" 1 0.
Proof.
  split; [vm_compute; reflexivity|]. exists (le_bytes 8 1). split_and!; vm_compute; reflexivity.
Qed.
Lemma st_first_names : names (world st_first0) = {[ in_dir "d" kSegmentLogMeta := 0%nat ]}.
Proof. vm_compute. reflexivity. Qed.
Lemma st_first_dir n : is_Some (names (world st_first0) !! in_dir "d" n) → n = kSegmentLogMeta.
Proof.
  rewrite st_first_names. intros [i [E _]%lookup_singleton_Some]. symmetry. by apply (in_dir_inj "d").
Qed.

Lemma Init_empty_log_witness :
  ∃ st', Init 30 (new_storage "d" (world st_first0)) = Some (0, st') ∧ first_log_index_ st' = 1 ∧
    last_log_index_ st' = 1 ∧ raftLogCount st' = Some (1, st').
Proof.
  destruct st_first_represents as (Hc & _).
  destruct (Init_empty_log 30 (world st_first0) "d" 1 0) as (st' & HI & _ & _ & HF & HL & HR);
    [exact Hc|discriminate|exact st_first_meta|exact st_first_dir|].
  exact (ex_intro _ st' (conj HI (conj HF (conj HL HR)))).
Defined.

(** ** Calls that fail *)

(** A failed write and a retry leave a log that cannot be loaded: the write of
    the second entry fails after ten bytes and [AppendEntry] returns the error;
    the same call then returns 0, but [Append] wrote behind the ten bytes, which
    [bytes_] and the offsets do not count, and [Init] of the next start fails. *)
Theorem failed_append_blocks_restart :
  let w := mkWorld ∅ ∅ 0 [Done; Done; Done; Done; Done; Failed 28 10] 0 in
  match (a ← Init 100; b ← AppendEntry 100 (some_entry 1 1); c ← AppendEntry 100 (some_entry 2 1);
         d ← AppendEntry 100 (some_entry 2 1); mret [a; b; c; d]) (new_storage "d" w) with
  | Some (codes, st) =>
      codes = [0; 0; 28; 0] ∧ fst <$> Init 100 (new_storage "d" (world st)) = Some (-1)
  | None => False
  end.
Proof. vm_compute. split; reflexivity. Qed.

(** A segment that cannot be renamed blocks the log: when the rename of a full
    segment fails, [AppendEntry] returns [EIO]; [Close] has already marked the
    segment as closed, so that the next call returns [EINVAL], and the directory
    has two open segments, for which [Init] of the next start fails. *)
Theorem failed_close_blocks_restart :
  let w := mkWorld ∅ ∅ 0 [Done; Done; Done; Done; Done; Done; Failed 13 0] 0 in
  match (a ← Init 40; b ← AppendEntry 40 (Wrap 1 1 1 (replicate 40 65)); c ← AppendEntry 40 (some_entry 2 1);
         mret [a; b; c]) (new_storage "d" w) with
  | Some (codes, st) =>
      codes = [0; 0; EIO] ∧ fst <$> AppendEntry 100 (some_entry 2 1) st = Some EINVAL ∧
      fst <$> Init 40 (new_storage "d" (world st)) = Some (-1)
  | None => False
  end.
Proof. vm_compute. split_and!; reflexivity. Qed.
