(* ===== verification/MraftServer.v ===== *)
(** * MraftServer: the members and the meta data of a server (mraft.cpp)

    The class Raft stands between the raft library and the application.  Modelled
    is what it keeps itself: the table of the peers, which changes when entries of
    the log are applied and when a node joins, and the meta data that a server
    saves, with the vote and the term.  What it asks of the library and of the
    application is the list of events an operation returns; what the library does
    then reaches the class by further calls. *)

From S2P Require Import Prelude MraftIobuf MraftOs MraftEntry MraftPb MraftSegment MraftLog.

(** ** The data *)

Inductive RaftState := RAFT_UNINITIALIZED | RAFT_UP | RAFT_LOADING | RAFT_JOINING | RAFT_SHUTDOWN.

(** The types of the entries; the numbers are the library's. *)
Inductive LogType := NORMAL | ADD_NONVOTING_NODE | ADD_NODE | REMOVE_NODE | NO_OP | OTHER_TYPE.
Class LogTypes := {
  log_type : Z → LogType;
  log_type_number : LogType → Z;
  log_type_of_number t : t ≠ OTHER_TYPE → log_type (log_type_number t) = t;
  log_type_number_u8 t : is_u8 (log_type_number t)
}.

(** A peer; [operator==] compares the address. *)
Record RaftNodePeer := mkPeer { host : list Z; port : Z; peer_id : Z }.
Definition same_address (x y : RaftNodePeer) : bool :=
  bool_decide (host x = host y) && (port x =? port y).

Record RaftMeta := mkRaftMeta {
  node_peers : gmap Z RaftNodePeer;
  self_peer : RaftNodePeer;
  last_applied_idx : Z;
  last_applied_term : Z;
  snapshot_last_idx : Z;
  snapshot_last_term : Z;
  voted_for : Z
}.
Definition set_peers (m : RaftMeta) (ps : gmap Z RaftNodePeer) : RaftMeta :=
  mkRaftMeta ps (self_peer m) (last_applied_idx m) (last_applied_term m) (snapshot_last_idx m) (snapshot_last_term m) (voted_for m).
Definition set_applied (m : RaftMeta) (idx term : Z) : RaftMeta :=
  mkRaftMeta (node_peers m) (self_peer m) idx term (snapshot_last_idx m) (snapshot_last_term m) (voted_for m).
Definition set_vote (m : RaftMeta) (v : Z) : RaftMeta :=
  mkRaftMeta (node_peers m) (self_peer m) (last_applied_idx m) (last_applied_term m) (snapshot_last_idx m) (snapshot_last_term m) v.

(** [raft_log_store_] has the file system. *)
Record Server := mkServer { home : string; state_ : RaftState; raft_meta_ : RaftMeta; raft_log_store_ : Storage }.
Definition set_raft_meta (r : Server) (m : RaftMeta) : Server := mkServer (home r) (state_ r) m (raft_log_store_ r).
Definition set_log_store (r : Server) (st : Storage) : Server := mkServer (home r) (state_ r) (raft_meta_ r) st.

Inductive Event :=
  | RecvEntryEvent (type : LogType) (bytes : list Z)
  | HandleAppendCfgChange (idx : Z)
  | ClearUserData (node_id : Z)
  | Applied (entry : LogEntry)
  | RunClosure (rc : Z).

Definition kRaftMeta : string := "mraft_meta".
Definition kMaxHostLen : nat := 32.
Definition RAFT_ERR_OK : Z := 0.
Definition RAFT_ERR_NOT_LEADER : Z := -2.
Definition RAFT_ERR_INVALID_NODEID : Z := -8.
Definition RAFT_ERR_INVALID_STATE : Z := -109.

Definition CheckRaftState (r : Server) : bool :=
  match state_ r with RAFT_UP => true | _ => false end.

(** ** Changes of the configuration as entries *)

(** [RaftCfgChange]: the node, the port as 16 bits and the host in 32 bytes, in 40
    bytes with the padding.  [fresh] are the bytes of the entry the library
    returned.  A host that does not fit is written past the array. *)
Definition cfg_change_bytes (fresh : list Z) (peer : RaftNodePeer) : option (list Z) :=
  if (length (host peer) <? kMaxHostLen)%nat then
    Some (le_bytes 4 (peer_id peer) ++ le_bytes 2 (port peer) ++ host peer ++ [0] ++
          drop (7 + length (host peer)) fresh)
  else None.

(** A string of C, up to the zero. *)
Fixpoint c_string (b : list Z) : option (list Z) :=
  match b with
  | [] => None
  | c :: b => if c =? 0 then Some [] else s ← c_string b; Some (c :: s)
  end.

Definition req_node_id (b : list Z) : Z := i32 (le_value (take 4 b)).
Definition req_peer (b : list Z) : option RaftNodePeer :=
  h ← c_string (drop 6 b); Some (mkPeer h (le_value (take 2 (drop 4 b))) (req_node_id b)).

Section server.
Context `{Outside} `{LogTypes}.

Definition AppendConfigChange (fresh : list Z) (change_type : LogType) (peer : RaftNodePeer) : option (list Event) :=
  b ← cfg_change_bytes fresh peer; Some [RecvEntryEvent change_type b].

(** With [only_log] the entry goes to the log at once. *)
Definition AppendConfigChange_only_log (FLAGS : Z) (fresh : list Z) (change_type : LogType) (peer : RaftNodePeer) (r : Server)
    : option (Z * Server) :=
  b ← cfg_change_bytes fresh peer;
  '(rc, st) ← raftLogAppend FLAGS (Create_entry 0 0 (log_type_number change_type) b) (raft_log_store_ r);
  Some (rc, set_log_store r st).

(** ** The members *)

(** The keys are [uint32_t]. *)
Definition GetNodePeerById (r : Server) (id : Z) : option RaftNodePeer := node_peers (raft_meta_ r) !! u32 id.

Definition DoRemoveNode (r : Server) (node_id : Z) : Server :=
  set_raft_meta r (set_peers (raft_meta_ r) (delete (u32 node_id) (node_peers (raft_meta_ r)))).

(** [insert] of a map of protobuf keeps an entry that is there. *)
Definition peers_insert (ps : gmap Z RaftNodePeer) (k : Z) (p : RaftNodePeer) : gmap Z RaftNodePeer :=
  match ps !! k with Some _ => ps | None => <[k := p]> ps end.

(** The table [node_states_] and the pointers to it that the library keeps are
    left out. *)
Definition DoAddNode (r : Server) (peer : RaftNodePeer) : Server :=
  set_raft_meta r (set_peers (raft_meta_ r) (peers_insert (node_peers (raft_meta_ r)) (u32 (peer_id peer)) peer)).

(** [added] says whether the library has added the node. *)
Definition AddNode (r : Server) (peer : RaftNodePeer) (added : bool) : Z * Server :=
  let is_self := same_address peer (self_peer (raft_meta_ r)) in
  if peer_id peer <=? 0 then (RAFT_ERR_INVALID_NODEID, r)
  else if negb added then (RAFT_ERR_INVALID_STATE, r)
  else
    let r := DoAddNode r peer in
    let m := raft_meta_ r in
    (0, if is_self
        then set_raft_meta r (mkRaftMeta (node_peers m) peer (last_applied_idx m) (last_applied_term m)
                                (snapshot_last_idx m) (snapshot_last_term m) (voted_for m))
        else r).

(** The greatest key, as an [int32_t]; the comparison is unsigned.  [None] is the
    overflow of the sum. *)
Definition NextNodeID (ps : gmap Z RaftNodePeer) : option Z :=
  let max_node_id := foldl (λ m k, if u32 m <? k then i32 k else m) 0 (map_to_list ps).*1 in
  if max_node_id <? 2 ^ 31 - 1 then Some (max_node_id + 1) else None.

(** The part of [RecvNodeJoin] that runs in the event loop: the code, the peer
    that has joined, and the request to the library. *)
Definition RecvNodeJoin (fresh : list Z) (is_leader : bool) (r : Server) (peer : RaftNodePeer)
    : option (Z * option RaftNodePeer * Server * list Event) :=
  if negb is_leader then Some (RAFT_ERR_NOT_LEADER, None, r, [])
  else
    next_id ← NextNodeID (node_peers (raft_meta_ r));
    let add_peer := mkPeer (host peer) (port peer) next_id in
    let r := set_raft_meta r (set_peers (raft_meta_ r) (peers_insert (node_peers (raft_meta_ r)) (u32 next_id) add_peer)) in
    events ← AppendConfigChange fresh ADD_NONVOTING_NODE add_peer;
    Some (RAFT_ERR_OK, Some add_peer, r, events).

(** [registered] is the result of [GetNodeIdByPeer]. *)
Definition RemoveNode (fresh : list Z) (is_leader : bool) (registered : Z) (r : Server) (peer : RaftNodePeer)
    : option (Z * list Event) :=
  if negb (CheckRaftState r) then Some (RAFT_ERR_INVALID_STATE, [])
  else if negb is_leader then Some (RAFT_ERR_NOT_LEADER, [])
  else
    let node_id := if peer_id peer <=? 0 then registered else peer_id peer in
    if node_id <=? 0 then Some (RAFT_ERR_INVALID_NODEID, [])
    else events ← AppendConfigChange fresh REMOVE_NODE (mkPeer (host peer) (port peer) node_id); Some (0, events).

(** The callback for a node that has caught up with the log: it becomes a voting
    member.  The code of the library for the entry is left out, as in
    [RemoveNode]. *)
Definition AddNodeHasSufficientLogs (fresh : list Z) (r : Server) (peer : RaftNodePeer) : option (Z * list Event) :=
  match state_ r with
  | RAFT_LOADING => Some (0, [])
  | _ => events ← AppendConfigChange fresh ADD_NODE peer; Some (0, events)
  end.
Definition RaftNodeHasSufficientLogs (fresh : list Z) (r : Server) (node_id : Z) : option (Z * list Event) :=
  match GetNodePeerById r node_id with
  | None => Some (-1, [])
  | Some peer => AddNodeHasSufficientLogs fresh r peer
  end.

(** ** Applying the log *)

(** The switch over the types.  [closure] says whether the entry has one;
    [OnApplyLog] is the application.  The library ignores [ClearUserData] for a
    node it does not have. *)
Definition apply_entry (OnApplyLog : LogEntry → Z) (r : Server) (entry : LogEntry) (closure : bool) (entry_idx : Z)
    : option (Z * Server * list Event) :=
  let loading := match state_ r with RAFT_LOADING => true | _ => false end in
  let cfg := if loading then [HandleAppendCfgChange entry_idx] else [] in
  match log_type (Type_ entry) with
  | REMOVE_NODE =>
      let id := req_node_id (Data entry) in Some (0, DoRemoveNode r id, ClearUserData id :: cfg)
  | ADD_NONVOTING_NODE | ADD_NODE =>
      let ps := node_peers (raft_meta_ r) in
      let id := req_node_id (Data entry) in
      match ps !! u32 id with
      | Some _ => Some (0, r, cfg)
      | None =>
          peer ← req_peer (Data entry);
          Some (0, set_raft_meta r (set_peers (raft_meta_ r) (peers_insert ps (u32 id) peer)), cfg)
      end
  | NORMAL =>
      let rc := OnApplyLog entry in
      if closure then Some (0, r, [Applied entry; RunClosure rc]) else Some (rc, r, [Applied entry])
  | NO_OP | OTHER_TYPE => Some (0, r, [])
  end.

Definition RaftApplyLog (OnApplyLog : LogEntry → Z) (r : Server) (entry : LogEntry) (closure : bool) (entry_idx : Z)
    : option (Z * Server * list Event) :=
  '(rc, r, events) ← apply_entry OnApplyLog r entry closure entry_idx;
  '(_, st) ← ClearCacheEntry entry_idx (raft_log_store_ r);
  let r := set_log_store r st in
  let r := match state_ r with
           | RAFT_UP => set_raft_meta r (set_applied (raft_meta_ r) entry_idx (Term entry))
           | _ => r
           end in
  Some (rc, r, events).

(** ** The meta data *)

Context `{!Message RaftMeta}.

Definition raft_meta_file (r : Server) : string := in_dir (home r) kRaftMeta.

Definition Raft_SaveMeta (r : Server) : Z * Server :=
  let st := raft_log_store_ r in
  let '(rc, w) := pb_write_file (world st) (raft_meta_file r) (raft_meta_ r) in
  (rc, set_log_store r (mkStorage (log_path_ st) (segments_ st) (open_segment_ st) (last_log_index_ st)
                          (first_log_index_ st) (latest_entries_cache_ st) (latest_entry_ st) (heap st) (next_ptr st) w)).

(** The code, whether there is no meta data, and the server; after a failure the
    server is not used. *)
Definition Raft_LoadMeta (r : Server) : Z * bool * Server :=
  let st := raft_log_store_ r in
  match names (world st) !! raft_meta_file r with
  | None => (0, true, r)
  | Some _ =>
      let '(m, w) := pb_read_file (world st) (raft_meta_file r) in
      let r := set_log_store r (mkStorage (log_path_ st) (segments_ st) (open_segment_ st) (last_log_index_ st)
                 (first_log_index_ st) (latest_entries_cache_ st) (latest_entry_ st) (heap st) (next_ptr st) w) in
      match m with
      | Some m => (0, false, set_raft_meta r m)
      | None => (-1, false, r)
      end
  end.

Definition PersistVote (r : Server) (node_id : Z) : Z * Server :=
  Raft_SaveMeta (set_raft_meta r (set_vote (raft_meta_ r) (i32 node_id))).

Definition PersistTerm (r : Server) (term node_id : Z) : Z * Server :=
  match state_ r with
  | RAFT_LOADING => (0, r)
  | _ =>
      let m := set_vote (raft_meta_ r) node_id in
      Raft_SaveMeta (set_raft_meta r (set_applied m (last_applied_idx m) term))
  end.

(** What [LoadCommitLog] gives the library after a restart: the term and, if there
    is one, the vote. *)
Definition LoadCommitLog_term (r : Server) : Z * option Z :=
  let m := raft_meta_ r in
  (last_applied_term m, if 0 <? voted_for m then Some (voted_for m) else None).
End server.
