(* ===== verification/MraftCluster.v ===== *)
(** * MraftCluster: the tables of the members

    The members as the log gives them, and the tables of a leader and its followers. *)

From S2P Require Import Prelude MraftIobuf MraftOs MraftEntry MraftPb MraftSegment MraftLog MraftStore MraftServer.

(** * The members of a cluster

    The table of the peers that applying the log makes, and the table of a leader
    that lets nodes join: they agree when a node joins only while no removal is
    under way. *)

(** ** A change of the configuration as bytes *)

Lemma c_string_app h r : Forall (λ c, c ≠ 0) h → c_string (h ++ 0 :: r) = Some h.
Proof.
  induction h as [|c h IH]; intros Hh; [done|]. inversion Hh as [|? ? Hc Hh']; subst. cbn.
  rewrite (proj2 (Z.eqb_neq _ _)) by done. by rewrite IH.
Qed.

Definition peer_ok (p : RaftNodePeer) : Prop :=
  Forall (λ c, c ≠ 0) (host p) ∧ (length (host p) < kMaxHostLen)%nat ∧ 0 <= port p < 2 ^ 16 ∧ 0 < peer_id p < 2 ^ 31.

Lemma req_node_id_bytes fresh p b :
  cfg_change_bytes fresh p = Some b → - 2 ^ 31 <= peer_id p < 2 ^ 31 → req_node_id b = peer_id p.
Proof.
  unfold cfg_change_bytes. case_match; [|done]. intros <-%(inj Some) Hi. unfold req_node_id.
  rewrite take_app_at by apply le_bytes_length. rewrite le_value_bytes. change (256 ^ Z.of_nat 4) with (2 ^ 32).
  rewrite <-(i32_id (peer_id p)) at 2 by done. unfold i32. f_equal. apply Zplus_mod_idemp_l.
Qed.

Lemma req_peer_bytes fresh p b :
  cfg_change_bytes fresh p = Some b → Forall (λ c, c ≠ 0) (host p) → - 2 ^ 31 <= peer_id p < 2 ^ 31 →
  req_peer b = Some (mkPeer (host p) (port p mod 2 ^ 16) (peer_id p)).
Proof.
  intros Hb Hh Hi. pose proof (req_node_id_bytes _ _ _ Hb Hi) as Hid. revert Hb. unfold cfg_change_bytes.
  case_match; [|done]. intros <-%(inj Some). unfold req_peer. rewrite Hid. rewrite drop_app_at by apply le_bytes_length.
  assert (∀ x, drop 6 (le_bytes 4 (peer_id p) ++ le_bytes 2 (port p) ++ x) = x) as ->.
  { intros x. rewrite app_assoc. apply drop_app_at. by rewrite length_app, !le_bytes_length. }
  cbn [app]. rewrite c_string_app by done. cbn [mbind option_bind]. do 2 f_equal.
  rewrite take_app_at by apply le_bytes_length. by rewrite le_value_bytes.
Qed.

(** ** The next identifier *)

Definition max_id (l : list Z) (m : Z) : Z := foldl (λ m k, if u32 m <? k then i32 k else m) m l.

Lemma max_id_cons k l m : max_id (k :: l) m = max_id l (if u32 m <? k then i32 k else m).
Proof. done. Qed.

Lemma max_id_bound l m :
  0 <= m < 2 ^ 31 → Forall (λ k, 0 <= k < 2 ^ 31) l → 0 <= max_id l m < 2 ^ 31 ∧ m <= max_id l m ∧ ∀ k, k ∈ l → k <= max_id l m.
Proof.
  revert m. induction l as [|k l IH]; intros m Hm Hl; [cbn; split_and!; [lia..|by intros ? ?%elem_of_nil]|].
  inversion Hl as [|? ? Hk Hl']; subst. rewrite max_id_cons, u32_id by (unfold is_u32; lia).
  destruct (Z.ltb_spec m k).
  - rewrite i32_id by lia. destruct (IH k Hk Hl') as (H1 & H2 & H3). split_and!; [lia|lia|lia|].
    intros x [->|Hx]%elem_of_cons; [lia|by apply H3].
  - destruct (IH m Hm Hl') as (H1 & H2 & H3). split_and!; [lia|lia|lia|].
    intros x [->|Hx]%elem_of_cons; [lia|by apply H3].
Qed.

(** The keys are positive [int32_t]. *)
Definition keys_ok (ps : gmap Z RaftNodePeer) : Prop := ∀ k, is_Some (ps !! k) → 0 < k < 2 ^ 31.

Lemma NextNodeID_fresh ps id :
  keys_ok ps → NextNodeID ps = Some id → 0 < id < 2 ^ 31 ∧ ps !! id = None.
Proof.
  intros Hk. unfold NextNodeID. fold (max_id (map_to_list ps).*1 0). case_match eqn:E; [|done]. intros [= <-].
  destruct (max_id_bound (map_to_list ps).*1 0) as (H1 & _ & H3); [lia| |].
  { apply Forall_forall. intros k ([k' p] & -> & Hp)%list_elem_of_fmap. apply elem_of_map_to_list in Hp. cbn.
    destruct (Hk k'); [eauto|lia]. }
  apply Z.ltb_lt in E. split; [lia|]. destruct (ps !! _) as [p|] eqn:Ep; [|done]. exfalso.
  specialize (H3 (max_id (map_to_list ps).*1 0 + 1)). enough (max_id (map_to_list ps).*1 0 + 1 ∈ (map_to_list ps).*1) by (specialize (H3 ltac:(done)); lia).
  apply list_elem_of_fmap. exists (max_id (map_to_list ps).*1 0 + 1, p). split; [done|]. by apply elem_of_map_to_list.
Qed.

(** ** Applying an entry to the table *)

Section members.
Context `{Outside} `{LogTypes}.

(** [None] where the entry has no string in it. *)
Definition member_step (ps : gmap Z RaftNodePeer) (e : LogEntry) : option (gmap Z RaftNodePeer) :=
  match log_type (Type_ e) with
  | REMOVE_NODE => Some (delete (u32 (req_node_id (Data e))) ps)
  | ADD_NODE | ADD_NONVOTING_NODE =>
      match ps !! u32 (req_node_id (Data e)) with
      | Some _ => Some ps
      | None => p ← req_peer (Data e); Some (<[u32 (req_node_id (Data e)) := p]> ps)
      end
  | _ => Some ps
  end.
Fixpoint members (ps : gmap Z RaftNodePeer) (es : list LogEntry) : option (gmap Z RaftNodePeer) :=
  match es with
  | [] => Some ps
  | e :: es => ps ← member_step ps e; members ps es
  end.

Lemma members_app ps es es' : members ps (es ++ es') = (ps ← members ps es; members ps es').
Proof.
  revert ps. induction es as [|e es IH]; intros ps; cbn; [done|]. destruct (member_step ps e); cbn; [apply IH|done].
Qed.

Lemma ClearCacheEntry_total i st : ∃ rc cache, ClearCacheEntry i st =
  Some (rc, mkStorage (log_path_ st) (segments_ st) (open_segment_ st) (last_log_index_ st) (first_log_index_ st)
              cache (latest_entry_ st) (heap st) (next_ptr st) (world st)) ∧
  (cache = latest_entries_cache_ st ∨ ∃ e, latest_entries_cache_ st = e :: cache ∧ Index e = i ∧ rc = 0).
Proof.
  unfold ClearCacheEntry. mrun. destruct (latest_entries_cache_ st) as [|e c] eqn:E; mrun.
  - do 2 eexists. split; [by destruct st; cbn in *; subst|by left].
  - destruct (Z.eqb_spec (Index e) i); cbn [negb]; mrun.
    + do 2 eexists. split; [done|right]. eauto.
    + do 2 eexists. split; [by destruct st; cbn in *; subst|by left].
Qed.

Lemma apply_entry_members on_apply r e c i ps' :
  member_step (node_peers (raft_meta_ r)) e = Some ps' →
  ∃ rc r' ev, apply_entry on_apply r e c i = Some (rc, r', ev) ∧ node_peers (raft_meta_ r') = ps' ∧
    state_ r' = state_ r ∧ home r' = home r ∧ raft_log_store_ r' = raft_log_store_ r.
Proof.
  unfold member_step, apply_entry, peers_insert. cbv zeta. intros Hs.
  destruct (log_type (Type_ e)); try (injection Hs as <-; try destruct c; by do 3 eexists).
  all: destruct (node_peers (raft_meta_ r) !! u32 (req_node_id (Data e))); [injection Hs as <-; by do 3 eexists|].
  all: destruct (req_peer (Data e)) as [p|]; [|done]; injection Hs as <-; by do 3 eexists.
Qed.

Lemma RaftApplyLog_members on_apply r e c i ps' :
  member_step (node_peers (raft_meta_ r)) e = Some ps' →
  ∃ rc r' ev, RaftApplyLog on_apply r e c i = Some (rc, r', ev) ∧ node_peers (raft_meta_ r') = ps' ∧
    state_ r' = state_ r ∧ home r' = home r.
Proof.
  intros Hs. destruct (apply_entry_members on_apply r e c i ps' Hs) as (rc & r1 & ev & HA & Hp & Hst & Hh & _).
  unfold RaftApplyLog. rewrite HA. cbn [mbind option_bind].
  destruct (ClearCacheEntry_total i (raft_log_store_ r1)) as (rc' & cache & -> & _). cbn [mbind option_bind].
  do 3 eexists. split; [done|]. cbn [set_log_store state_ raft_meta_].
  destruct (state_ r1) eqn:E; cbn; rewrite ?E; done.
Qed.
End members.

(** ** Applying a log again *)

Section replay.
Context `{Outside} `{LogTypes}.

Definition is_add (e : LogEntry) : Prop := log_type (Type_ e) = ADD_NODE ∨ log_type (Type_ e) = ADD_NONVOTING_NODE.
Definition is_remove (e : LogEntry) : Prop := log_type (Type_ e) = REMOVE_NODE.

(** What an entry does to the peer under one key. *)
Definition on_key (k : Z) (v : option RaftNodePeer) (e : LogEntry) : option RaftNodePeer :=
  match log_type (Type_ e) with
  | REMOVE_NODE => if u32 (req_node_id (Data e)) =? k then None else v
  | ADD_NODE | ADD_NONVOTING_NODE =>
      if u32 (req_node_id (Data e)) =? k then match v with Some _ => v | None => req_peer (Data e) end else v
  | _ => v
  end.

Lemma member_step_key ps e ps' k : member_step ps e = Some ps' → ps' !! k = on_key k (ps !! k) e.
Proof.
  unfold member_step, on_key. destruct (log_type (Type_ e)); try (by intros [= <-]).
  1, 2: destruct (Z.eqb_spec (u32 (req_node_id (Data e))) k) as [<-|Hne].
  1, 3: destruct (ps !! _) as [p|] eqn:E; [intros [= <-]; by rewrite E|];
        destruct (req_peer (Data e)) as [p|]; [|done]; intros [= <-]; by rewrite lookup_insert_eq.
  1, 2: destruct (ps !! u32 _); [by intros [= <-]|];
        destruct (req_peer (Data e)) as [p|]; [|done]; intros [= <-]; by rewrite lookup_insert_ne.
  intros [= <-]. destruct (Z.eqb_spec (u32 (req_node_id (Data e))) k) as [<-|Hne].
  - apply lookup_delete_eq.
  - by apply lookup_delete_ne.
Qed.

Lemma members_key ps es ps' k : members ps es = Some ps' → ps' !! k = foldl (on_key k) (ps !! k) es.
Proof.
  revert ps. induction es as [|e es IH]; intros ps; cbn [members foldl]; [by intros [= <-]|].
  destruct (member_step ps e) as [ps1|] eqn:E; [|done]. cbn [mbind option_bind]. intros Hm.
  rewrite (IH _ Hm). f_equal. by apply member_step_key.
Qed.

(** A list of entries sets the peer under a key, or fills it in if there is none. *)
Lemma on_key_kind k es :
  (∃ c, ∀ v, foldl (on_key k) v es = c) ∨
  (∃ d, ∀ v, foldl (on_key k) v es = match v with Some _ => v | None => d end).
Proof.
  induction es as [|e es IH] using rev_ind; [right; exists None; by intros []|]. setoid_rewrite foldl_app. cbn [foldl].
  assert ((∃ c, ∀ v, on_key k v e = c) ∨ (∃ d, ∀ v, on_key k v e = match v with Some _ => v | None => d end)) as He.
  { unfold on_key. destruct (log_type (Type_ e)); try (right; exists None; by intros []);
      (destruct (_ =? k); [|right; exists None; by intros []]); [right; by eexists..|left; by eexists]. }
  destruct IH as [[c Hc]|[d Hd]].
  - left. exists (on_key k c e). intros v. by rewrite Hc.
  - destruct He as [[c Hc]|[d' Hd']]; [left; exists c; intros v; apply Hc|]. right.
    exists (match d with Some _ => d | None => d' end). intros v. rewrite Hd, Hd'. by destruct v, d.
Qed.

Lemma on_key_again k v es : foldl (on_key k) (foldl (on_key k) v es) es = foldl (on_key k) v es.
Proof.
  destruct (on_key_kind k es) as [[c Hc]|[d Hd]]; [by rewrite !Hc|]. rewrite !Hd. destruct v; [done|]. by destruct d.
Qed.

(** The entry has a peer if it adds one. *)
Definition decodes (e : LogEntry) : Prop := is_add e → is_Some (req_peer (Data e)).

Lemma members_total ps es : Forall decodes es → is_Some (members ps es).
Proof.
  intros Hd. revert ps. induction Hd as [|e es He Hd IH]; intros ps; cbn [members]; [eauto|].
  assert (is_Some (member_step ps e)) as [ps' ->]; [|apply IH]. unfold decodes, is_add in He. unfold member_step.
  destruct (log_type (Type_ e)); eauto; destruct (ps !! _); eauto; destruct He as [p ->]; cbn; eauto.
Qed.

(** A log that is applied again, to the table that its first entries have led to,
    leads to the same table. *)
Lemma members_again ps0 es1 es2 ps ps' :
  Forall decodes (es1 ++ es2) → members ps0 es1 = Some ps → members ps0 (es1 ++ es2) = Some ps' →
  members ps (es1 ++ es2) = Some ps'.
Proof.
  intros Hd H1 H2. destruct (members_total ps _ Hd) as [q Hq]. rewrite Hq. f_equal. apply map_eq. intros k.
  rewrite (members_key _ _ _ k Hq), (members_key _ _ _ k H2), !foldl_app, (members_key _ _ _ k H1). by rewrite on_key_again.
Qed.
(** A table that has only members that the log leads to does not change the end. *)
Lemma members_part ps0 es ps :
  Forall decodes es → members ∅ es = Some ps → ps0 ⊆ ps → members ps0 es = Some ps.
Proof.
  intros Hd Hm Hsub. destruct (members_total ps0 _ Hd) as [q Hq]. rewrite Hq. f_equal. apply map_eq. intros k.
  pose proof (members_key _ _ _ k Hm) as Hk. rewrite lookup_empty in Hk. rewrite (members_key _ _ _ k Hq), Hk.
  destruct (on_key_kind k es) as [[c Hc]|[d Hd']]; [by rewrite !Hc|]. rewrite !Hd' in *.
  destruct (ps0 !! k) as [p|] eqn:E; [|done]. by rewrite (lookup_weaken _ _ _ _ E Hsub) in Hk.
Qed.
End replay.

(** * The tables of a leader and its followers

    A leader enters a node in its table when the node asks to join, and every
    server, the leader too, when the entry of the log is applied.  The history of
    a leader begins with the first start of a cluster and is a relation on steps:
    nodes join, become voting members and are removed, other entries are added,
    and entries are applied in order. *)

Section cluster.
Context `{Outside} `{LogTypes} (on_apply : LogEntry → Z).

(** The entries from the index [i] on, one after the other. *)
Fixpoint apply_all (r : Server) (i : Z) (es : list LogEntry) : option Server :=
  match es with
  | [] => Some r
  | e :: es => '(_, r, _) ← RaftApplyLog on_apply r e false i; apply_all r (i + 1) es
  end.

Lemma apply_all_members r i es ps :
  members (node_peers (raft_meta_ r)) es = Some ps → ∃ r', apply_all r i es = Some r' ∧ node_peers (raft_meta_ r') = ps.
Proof.
  revert r i. induction es as [|e es IH]; intros r i; cbn [members apply_all]; [intros [= <-]; eauto|].
  destruct (member_step _ e) as [ps1|] eqn:E; [|done]. cbn [mbind option_bind]. intros Hm.
  destruct (RaftApplyLog_members on_apply r e false i ps1 E) as (rc & r1 & ev & -> & Hp & _). cbn [mbind option_bind].
  apply IH. by rewrite Hp.
Qed.

(** ** The history of a leader *)

Record Lead := mkLead { leader : Server; log_entries : list LogEntry; n_applied : nat }.
Definition pending (s : Lead) : list LogEntry := drop (n_applied s) (log_entries s).

Definition new_entry (s : Lead) (term : Z) (t : LogType) (b : list Z) : LogEntry :=
  Create_entry (Z.of_nat (length (log_entries s)) + 1) term (log_type_number t) b.

Definition address_ok (p : RaftNodePeer) : Prop := Forall (λ c, c ≠ 0) (host p) ∧ 0 <= port p < 2 ^ 16.

(** The first node of a cluster, after [Raft::Init]: it is the only member, and the
    log ends with the entry that adds it; the library may have put others, which
    are no changes of the configuration, before it. *)
Definition first_self (self : RaftNodePeer) : RaftNodePeer := mkPeer (host self) (port self) 1.
Definition founded (self : RaftNodePeer) (s : Lead) : Prop :=
  address_ok self ∧ n_applied s = 0%nat ∧ node_peers (raft_meta_ (leader s)) = {[ 1 := first_self self ]} ∧
  ∃ es e fresh, log_entries s = es ++ [e] ∧ Forall (λ e, ¬ is_add e ∧ ¬ is_remove e) es ∧
    log_type (Type_ e) = ADD_NODE ∧ cfg_change_bytes fresh (first_self self) = Some (Data e).

(** [careful]: a node joins or becomes a voting member only while no removal is
    pending. *)
Inductive lead_step (careful : bool) : Lead → Lead → Prop :=
  | step_join s fresh peer rc p r' t b term :
      RecvNodeJoin fresh true (leader s) peer = Some (rc, p, r', [RecvEntryEvent t b]) → address_ok peer →
      (careful = true → Forall (λ e, ¬ is_remove e) (pending s)) →
      lead_step careful s (mkLead r' (log_entries s ++ [new_entry s term t b]) (n_applied s))
  | step_promote s fresh id rc t b term :
      RaftNodeHasSufficientLogs fresh (leader s) id = Some (rc, [RecvEntryEvent t b]) →
      (careful = true → Forall (λ e, ¬ is_remove e) (pending s)) →
      lead_step careful s (mkLead (leader s) (log_entries s ++ [new_entry s term t b]) (n_applied s))
  | step_remove s fresh registered peer rc t b term :
      RemoveNode fresh true registered (leader s) peer = Some (rc, [RecvEntryEvent t b]) →
      lead_step careful s (mkLead (leader s) (log_entries s ++ [new_entry s term t b]) (n_applied s))
  | step_entry s e :
      ¬ is_add e → ¬ is_remove e → lead_step careful s (mkLead (leader s) (log_entries s ++ [e]) (n_applied s))
  | step_apply s e c rc r' ev :
      log_entries s !! n_applied s = Some e →
      RaftApplyLog on_apply (leader s) e c (Z.of_nat (n_applied s) + 1) = Some (rc, r', ev) →
      lead_step careful s (mkLead r' (log_entries s) (S (n_applied s))).

(** ** What holds in every state *)

Definition table (s : Lead) : gmap Z RaftNodePeer := node_peers (raft_meta_ (leader s)).

(** The entry adds a node of the table [ps], and is no removal. *)
Definition known_entry (ps : gmap Z RaftNodePeer) (e : LogEntry) : Prop :=
  ¬ is_remove e ∧ (is_add e → is_Some (ps !! u32 (req_node_id (Data e)))).

Definition peers_ok (ps : gmap Z RaftNodePeer) : Prop :=
  ∀ k p, ps !! k = Some p → 0 < k < 2 ^ 31 ∧ peer_id p = k ∧ address_ok p.

Lemma peers_ok_keys ps : peers_ok ps → keys_ok ps.
Proof. intros Hk k [p Hp]. by apply Hk in Hp as [? _]. Qed.

(** The entries that add a node come before those that remove one, and their nodes
    are in the table. *)
Record lead_inv (s : Lead) : Prop := {
  li_pending : ∃ adds rest, pending s = adds ++ rest ∧ Forall (known_entry (table s)) adds ∧ Forall (λ e, ¬ is_add e) rest;
  li_table : ∃ ps, members ∅ (log_entries s) = Some ps ∧ members (table s) (pending s) = Some ps;
  li_decodes : Forall decodes (log_entries s);
  li_peers : peers_ok (table s);
  li_applied : (n_applied s <= length (log_entries s))%nat
}.

Lemma member_step_other ps e : ¬ is_add e → ¬ is_remove e → member_step ps e = Some ps.
Proof. unfold is_add, is_remove, member_step. destruct (log_type (Type_ e)); tauto. Qed.
Lemma member_step_known ps e : is_add e → is_Some (ps !! u32 (req_node_id (Data e))) → member_step ps e = Some ps.
Proof. unfold member_step. intros [-> | ->] [p ->]; done. Qed.
Lemma member_step_remove ps e : is_remove e → member_step ps e = Some (delete (u32 (req_node_id (Data e))) ps).
Proof. unfold is_remove, member_step. by intros ->. Qed.

Lemma is_add_dec e : is_add e ∨ ¬ is_add e.
Proof. unfold is_add. destruct (log_type (Type_ e)); auto; right; intros [?|?]; done. Qed.
Lemma is_remove_dec e : is_remove e ∨ ¬ is_remove e.
Proof. unfold is_remove. destruct (log_type (Type_ e)); auto; by right. Qed.

(** Entries that add nodes of the table do not change it. *)
Lemma members_known ps es : Forall (known_entry ps) es → members ps es = Some ps.
Proof.
  induction es as [|e es IH]; intros Hs; [done|]. apply Forall_cons in Hs as [[Hr Ha] Hs]. cbn [members].
  destruct (is_add_dec e) as [Hadd|Hadd].
  - rewrite member_step_known by auto. by apply IH.
  - rewrite member_step_other by done. by apply IH.
Qed.

Lemma pending_snoc s r e :
  (n_applied s <= length (log_entries s))%nat → pending (mkLead r (log_entries s ++ [e]) (n_applied s)) = pending s ++ [e].
Proof. intros Hl. unfold pending. cbn. by rewrite drop_app_le. Qed.

(** An entry that does not add a node goes to the end. *)
Lemma inv_snoc s e :
  lead_inv s → ¬ is_add e → lead_inv (mkLead (leader s) (log_entries s ++ [e]) (n_applied s)).
Proof.
  intros [(adds & rest & Hp & Ha & Hr) (ps & Hps & Htab) Hd Hk Hl] He. constructor.
  - exists adds, (rest ++ [e]). rewrite pending_snoc, Hp, <-app_assoc by done. split_and!; [done|done|].
    apply Forall_app. split; [done|by apply Forall_singleton].
  - assert (∃ ps', member_step ps e = Some ps') as [ps' Hs].
    { destruct (is_remove_dec e); [rewrite member_step_remove by done; eauto|rewrite member_step_other by done; eauto]. }
    exists ps'. unfold table. cbn [leader log_entries]. rewrite pending_snoc by done. unfold table in Htab.
    rewrite !members_app, Hps, Htab. cbn. by rewrite Hs.
  - apply Forall_app. split; [done|]. apply Forall_singleton. by intros ?.
  - done.
  - cbn. rewrite length_app. lia.
Qed.

(** While no removal is pending, the pending entries add nodes of the table. *)
Lemma pending_known s :
  lead_inv s → Forall (λ e, ¬ is_remove e) (pending s) →
  Forall (known_entry (table s)) (pending s) ∧ members ∅ (log_entries s) = Some (table s).
Proof.
  intros [(adds & rest & Hp & Ha & Hr) (ps & Hps & Htab) _ _ _] Hnr.
  assert (Forall (known_entry (table s)) (pending s)) as Hknown.
  { rewrite Hp in Hnr |- *. apply Forall_app in Hnr as [_ Hnr]. apply Forall_app. split; [done|].
    apply Forall_forall. intros x Hx. rewrite Forall_forall in Hnr, Hr. split; [by apply Hnr|]. intros ?. by destruct (Hr x Hx). }
  split; [done|]. rewrite (members_known _ _ Hknown) in Htab. congruence.
Qed.

Lemma is_add_not_remove e : is_add e → ¬ is_remove e.
Proof. unfold is_add, is_remove. intros [-> | ->]; done. Qed.

Lemma known_mono ps ps' e : ps ⊆ ps' → known_entry ps e → known_entry ps' e.
Proof. intros Hs [? Hx]. split; [done|]. intros [p Hp]%Hx. exists p. by eapply lookup_weaken. Qed.

(** An entry for the peer [q], which is in the table [leader r'] has then. *)
Lemma inv_add s r' e q :
  lead_inv s → Forall (λ e, ¬ is_remove e) (pending s) → is_add e → req_node_id (Data e) = peer_id q → req_peer (Data e) = Some q →
  table s ⊆ node_peers (raft_meta_ r') → peers_ok (node_peers (raft_meta_ r')) → node_peers (raft_meta_ r') !! peer_id q = Some q →
  member_step (table s) e = Some (node_peers (raft_meta_ r')) →
  lead_inv (mkLead r' (log_entries s ++ [e]) (n_applied s)).
Proof.
  intros Hi Hnr Hadd Hid Hq Hsub Hk Hin Hstep. destruct (pending_known s Hi Hnr) as [Hknown Hmem]. destruct Hi as [_ _ Hd _ Hl].
  set (s' := mkLead _ _ _). change (node_peers (raft_meta_ r')) with (table s') in *.
  assert (pending s' = pending s ++ [e]) as Hp' by (by apply pending_snoc).
  assert (Forall (known_entry (table s')) (pending s')) as Hknown'.
  { rewrite Hp'. apply Forall_app. split; [eapply Forall_impl; [exact Hknown|]; intros x; by apply known_mono|].
    apply Forall_singleton. split; [by apply is_add_not_remove|]. intros _. destruct (Hk _ _ Hin) as (Hr & _ & _).
    rewrite Hid, u32_id by (unfold is_u32; lia). by rewrite Hin. }
  constructor.
  - exists (pending s'), []. rewrite app_nil_r. split_and!; [done|done|constructor].
  - exists (table s'). rewrite (members_known _ _ Hknown'). split; [|done]. cbn [s' log_entries].
    rewrite members_app, Hmem. cbn [mbind option_bind members]. by rewrite Hstep.
  - apply Forall_app. split; [done|]. apply Forall_singleton. intros _. by rewrite Hq.
  - done.
  - cbn. rewrite length_app. lia.
Qed.

Lemma inv_join s fresh peer rc p r' t b term :
  lead_inv s → RecvNodeJoin fresh true (leader s) peer = Some (rc, p, r', [RecvEntryEvent t b]) → address_ok peer →
  Forall (λ e, ¬ is_remove e) (pending s) →
  lead_inv (mkLead r' (log_entries s ++ [new_entry s term t b]) (n_applied s)).
Proof.
  intros Hi HJ [Hh Hpt] Hnr. pose proof (li_peers s Hi) as Hk. unfold RecvNodeJoin in HJ. cbn [negb] in HJ.
  destruct (NextNodeID _) as [id|] eqn:Eid; [|done]. cbn [mbind option_bind] in HJ. fold (table s) in HJ, Eid.
  destruct (NextNodeID_fresh _ _ (peers_ok_keys _ Hk) Eid) as [Hid Hfresh]. rewrite (u32_id id) in HJ by (unfold is_u32; lia).
  set (q := mkPeer (host peer) (port peer) id) in *. unfold AppendConfigChange in HJ.
  destruct (cfg_change_bytes fresh q) as [b'|] eqn:Eb; [|done]. cbn [mbind option_bind] in HJ.
  injection HJ as <- <- <- <- <-. set (e := new_entry s term ADD_NONVOTING_NODE b').
  assert (is_add e) as Hadd by (right; cbn; by apply log_type_of_number).
  assert (req_node_id (Data e) = id) as Hid' by (eapply (req_node_id_bytes _ q); [done|cbn; lia]).
  assert (req_peer (Data e) = Some q) as Hq.
  { cbn [Data e new_entry Create_entry]. rewrite (req_peer_bytes fresh q) by (done || (cbn; lia)). cbn. rewrite Z.mod_small by lia. done. }
  assert (peers_insert (table s) id q = <[id := q]> (table s)) as Hins by (unfold peers_insert; by rewrite Hfresh).
  apply (inv_add s _ e q); [done..| | | |]; cbn [raft_meta_ set_raft_meta node_peers set_peers]; rewrite Hins.
  - by apply insert_subseteq.
  - intros k x [[<- <-]|[_ Hx]]%lookup_insert_Some; [split_and!; try done; lia|by apply Hk].
  - apply lookup_insert_eq.
  - unfold member_step. destruct Hadd as [-> | ->]; rewrite Hid', u32_id by (unfold is_u32; lia); by rewrite Hfresh, Hq.
Qed.

Lemma inv_promote s fresh id rc t b term :
  lead_inv s → RaftNodeHasSufficientLogs fresh (leader s) id = Some (rc, [RecvEntryEvent t b]) →
  Forall (λ e, ¬ is_remove e) (pending s) →
  lead_inv (mkLead (leader s) (log_entries s ++ [new_entry s term t b]) (n_applied s)).
Proof.
  intros Hi HP Hnr. unfold RaftNodeHasSufficientLogs, GetNodePeerById in HP. fold (table s) in HP.
  destruct (table s !! u32 id) as [q|] eqn:Eq; [|done]. destruct (li_peers s Hi _ _ Eq) as (Hk & Hid & Hh & Hpt).
  assert (∃ b', cfg_change_bytes fresh q = Some b' ∧ t = ADD_NODE ∧ b = b') as (b' & Eb & -> & <-).
  { unfold AddNodeHasSufficientLogs, AppendConfigChange in HP. destruct (cfg_change_bytes fresh q) as [b'|]; [|by destruct (state_ _)].
    exists b'. destruct (state_ (leader s)); cbn in HP; (done || by injection HP). }
  set (e := new_entry s term ADD_NODE b).
  assert (is_add e) as Hadd by (left; cbn; by apply log_type_of_number).
  assert (req_node_id (Data e) = peer_id q) as Hid' by (eapply (req_node_id_bytes _ q); [done|lia]).
  assert (req_peer (Data e) = Some q) as Hq.
  { cbn [Data e new_entry Create_entry]. rewrite (req_peer_bytes fresh q) by (done || lia). rewrite Z.mod_small by lia. by destruct q. }
  apply (inv_add s (leader s) e q); [done..|apply Hi|by rewrite Hid|].
  apply member_step_known; [done|]. rewrite Hid', Hid, (u32_id (u32 id)) by (unfold is_u32; lia). by exists q.
Qed.

Lemma inv_apply s e c i rc r' ev :
  lead_inv s → log_entries s !! n_applied s = Some e → RaftApplyLog on_apply (leader s) e c i = Some (rc, r', ev) →
  lead_inv (mkLead r' (log_entries s) (S (n_applied s))).
Proof.
  intros [(adds & rest & Hp & Ha & Hr) (ps & Hps & Htab) Hdec Hk Hl] He HA.
  assert (pending s = e :: drop (S (n_applied s)) (log_entries s)) as Hpe by (unfold pending; by apply drop_S).
  destruct (member_step (table s) e) as [ps1|] eqn:Es; [|rewrite Hpe in Htab; cbn in Htab; by rewrite Es in Htab].
  destruct (RaftApplyLog_members on_apply (leader s) e c i ps1 Es) as (rc' & r'' & ev' & HA' & Hp' & _).
  rewrite HA in HA'. injection HA' as <- <- <-.
  assert (n_applied s < length (log_entries s))%nat as Hlt by (by eapply lookup_lt_Some).
  assert (members (table s) (e :: drop (S (n_applied s)) (log_entries s)) = Some ps) as Htab' by (by rewrite <-Hpe).
  cbn [members] in Htab'. rewrite Es in Htab'. cbn [mbind option_bind] in Htab'.
  assert (peers_ok ps1 ∧ ∃ adds' rest', drop (S (n_applied s)) (log_entries s) = adds' ++ rest' ∧
    Forall (known_entry ps1) adds' ∧ Forall (λ x, ¬ is_add x) rest') as [Hk1 (adds' & rest' & Hd & Ha' & Hr')].
  { rewrite Hpe in Hp. destruct adds as [|x adds]; cbn [app] in Hp.
    - destruct rest as [|x rest]; [done|]. injection Hp as <- Hd. apply Forall_cons in Hr as [Hna Hr].
      split; [|exists [], rest; by split_and!]. destruct (is_remove_dec e).
      + rewrite member_step_remove in Es by done. injection Es as <-. intros k x Hx. apply lookup_delete_Some in Hx as [_ Hx]. by apply Hk.
      + rewrite member_step_other in Es by done. by injection Es as <-.
    - injection Hp as <- Hd. apply Forall_cons in Ha as [[Hnr Hadd] Ha].
      assert (ps1 = table s) as ->.
      { destruct (is_add_dec e); [rewrite member_step_known in Es by auto|rewrite member_step_other in Es by done]; congruence. }
      split; [done|]. exists adds, rest. by split_and!. }
  constructor; unfold table, pending; cbn [leader log_entries n_applied]; rewrite ?Hp'; [by exists adds', rest'|by exists ps|done|done|lia].
Qed.

Lemma RemoveNode_type fresh registered r peer rc t b :
  RemoveNode fresh true registered r peer = Some (rc, [RecvEntryEvent t b]) → t = REMOVE_NODE.
Proof.
  unfold RemoveNode, AppendConfigChange. cbn [negb]. destruct (CheckRaftState r); [|done]. cbn [negb]. case_match; [done|].
  destruct (cfg_change_bytes _ _); [|done]. cbn. by intros [= _ <- _].
Qed.

Lemma inv_reachable s s' : lead_inv s → rtc (lead_step true) s s' → lead_inv s'.
Proof.
  intros Hi Hr. induction Hr as [|s s1 s' Hstep _ IH]; [done|]. apply IH. inversion Hstep; subst.
  - eapply inv_join; eauto.
  - eapply inv_promote; eauto.
  - apply inv_snoc; [done|]. erewrite (RemoveNode_type _ _ _ _ _ t) by done.
    unfold is_add, new_entry. cbn. rewrite log_type_of_number by done. by intros [?|?].
  - by apply inv_snoc.
  - by eapply inv_apply.
Qed.

Lemma members_others ps es : Forall (λ e, ¬ is_add e ∧ ¬ is_remove e) es → members ps es = Some ps.
Proof. intros He. apply members_known. eapply Forall_impl; [exact He|]. intros e [? ?]. by split. Qed.

Lemma founded_inv self s : founded self s → lead_inv s.
Proof.
  intros ([Hh Hp] & Hn & Ht & es & e & fresh & Hlog & Hes & Hty & Hb). fold (table s) in Ht.
  assert (req_node_id (Data e) = 1) as Hid by (by eapply (req_node_id_bytes _ (first_self self))).
  assert (req_peer (Data e) = Some (first_self self)) as Hq.
  { rewrite (req_peer_bytes fresh (first_self self)) by (done || (cbn; lia)). cbn. by rewrite Z.mod_small by lia. }
  assert (is_add e) as Hadd by by left. assert (pending s = log_entries s) as Hpe by (unfold pending; by rewrite Hn).
  assert (Forall (known_entry (table s)) (log_entries s)) as Hknown.
  { rewrite Hlog. apply Forall_app. split; [eapply Forall_impl; [exact Hes|]; intros x [? ?]; by split|].
    apply Forall_singleton. split; [by apply is_add_not_remove|]. intros _.
    rewrite Ht, Hid, u32_id, lookup_singleton_eq by (unfold is_u32; lia). done. }
  constructor.
  - exists (log_entries s), []. rewrite app_nil_r. split_and!; [done|done|constructor].
  - exists (table s). rewrite Hpe, (members_known _ _ Hknown). split; [|done]. rewrite Hlog, members_app, (members_others _ _ Hes).
    cbn [mbind option_bind members]. unfold member_step. rewrite Hty, Hid, u32_id, lookup_empty, Hq, Ht by (unfold is_u32; lia). done.
  - rewrite Hlog. apply Forall_app. split; [eapply Forall_impl; [exact Hes|]; intros x [? _] ?; done|].
    apply Forall_singleton. intros _. by rewrite Hq.
  - rewrite Ht. intros k p [<- <-]%lookup_singleton_Some. split_and!; done || lia.
  - rewrite Hn. lia.
Qed.

End cluster.
