(* ===== verification/MraftServerTheorems.v ===== *)
(** * MraftServerTheorems: what a server keeps

    The vote and the term after a restart, the codes that the library gets from
    the application, and applied entries that can be cut off. *)

From S2P Require Import Prelude MraftIobuf MraftOs MraftEntry MraftPb MraftSegment MraftSegmentSpec MraftLog MraftStore MraftTheorems MraftTruncate MraftSuffix MraftServer MraftCluster.

(** C31. A configuration change survives the log: the bytes of the entry for a peer
    are decoded to its identifier, its host and the lower 16 bits of its port; a
    host of 32 bytes or more is written past the array. *)
Theorem cfg_change_round_trip fresh p :
  Forall (λ c, c ≠ 0) (host p) → - 2 ^ 31 <= peer_id p < 2 ^ 31 →
  (cfg_change_bytes fresh p ≫= req_peer) =
    if (length (host p) <? kMaxHostLen)%nat then Some (mkPeer (host p) (port p mod 2 ^ 16) (peer_id p)) else None.
Proof.
  intros Hh Hi. destruct (cfg_change_bytes fresh p) as [b|] eqn:E; cbn [mbind option_bind].
  - rewrite (req_peer_bytes fresh p b) by done. revert E. unfold cfg_change_bytes. by case_match.
  - revert E. unfold cfg_change_bytes. by case_match.
Qed.

Section theorems.
Context `{OutsideLaws} `{LogTypes} `{!Message RaftMeta} (on_apply : LogEntry → Z).

(** ** The meta data *)

Definition server_world (r : Server) : World := world (raft_log_store_ r).

Lemma Raft_SaveMeta_stored r :
  calm (server_world r) → wf (server_world r) → codes (raft_meta_ r) →
  ∃ r', Raft_SaveMeta r = (0, r') ∧ raft_meta_ r' = raft_meta_ r ∧ home r' = home r ∧ state_ r' = state_ r ∧
    calm (server_world r') ∧ wf (server_world r') ∧ stored (server_world r') (raft_meta_file r) (raft_meta_ r).
Proof.
  intros Hc W Hm. destruct (pb_write_file_puts (server_world r) (raft_meta_file r) (raft_meta_ r) Hc W Hm) as (b & w' & HS & P & Hst).
  unfold Raft_SaveMeta. fold (server_world r). rewrite HS. eexists. split_and!; [done..|apply P|apply P|exact Hst].
Qed.

(** A server that starts on the files of [r] reads the meta data. *)
Lemma Raft_LoadMeta_stored r r2 m :
  calm (server_world r) → stored (server_world r) (raft_meta_file r) m → home r2 = home r → server_world r2 = server_world r →
  ∃ r3, Raft_LoadMeta r2 = (0, false, r3) ∧ raft_meta_ r3 = m.
Proof.
  intros Hc Hst Hh Hw. unfold Raft_LoadMeta. fold (server_world r2). unfold raft_meta_file in *. rewrite Hh, Hw.
  pose proof Hst as (b & _ & _ & _ & (i & Hn & _)%view_Some). rewrite Hn. rewrite (pb_read_file_stored _ _ m) by done. eauto.
Qed.

(** C21. A vote survives a restart: of a server that is not loading its log,
    [PersistVote] and [PersistTerm] with a node, for meta data that the streams
    keep in order, return 0, and a server that starts on the same directory reads
    the vote, the term and all other meta data that they saved. *)
Theorem vote_persists r v t r2 r3 :
  calm (server_world r) → wf (server_world r) → 0 < v < 2 ^ 31 → state_ r ≠ RAFT_LOADING →
  let mv := set_vote (raft_meta_ r) v in let mt := set_applied mv (last_applied_idx mv) t in
  codes mv → codes mt → home r2 = home r → home r3 = home r →
  ∃ rv rt, PersistVote r v = (0, rv) ∧ PersistTerm r t v = (0, rt) ∧
    (server_world r2 = server_world rv → ∃ r2', Raft_LoadMeta r2 = (0, false, r2') ∧ raft_meta_ r2' = mv ∧
       LoadCommitLog_term r2' = (last_applied_term (raft_meta_ r), Some v)) ∧
    (server_world r3 = server_world rt → ∃ r3', Raft_LoadMeta r3 = (0, false, r3') ∧ raft_meta_ r3' = mt ∧
       LoadCommitLog_term r3' = (t, Some v)).
Proof.
  intros Hc W Hv Hst mv mt Hmv Hmt Hh2 Hh3.
  destruct (Raft_SaveMeta_stored (set_raft_meta r mv) Hc W Hmv) as (rv & HSv & Hrv & Hhv & _ & Hcv & _ & Hstv).
  destruct (Raft_SaveMeta_stored (set_raft_meta r mt) Hc W Hmt) as (rt & HSt & Hrt & Hht & _ & Hct & _ & Hstt).
  assert ((0 <? v) = true) as Hpos by (apply Z.ltb_lt; lia).
  exists rv, rt. split_and!.
  - unfold PersistVote. rewrite i32_id by lia. exact HSv.
  - unfold PersistTerm. destruct (state_ r); try done.
  - intros Hw. destruct (Raft_LoadMeta_stored rv r2 mv) as (r2' & HL & Hm); [done| |by rewrite Hh2|done|].
    { unfold raft_meta_file in *. by rewrite Hhv. }
    exists r2'. split_and!; [done|done|]. unfold LoadCommitLog_term. rewrite Hm. cbn. by rewrite Hpos.
  - intros Hw. destruct (Raft_LoadMeta_stored rt r3 mt) as (r3' & HL & Hm); [done| |by rewrite Hh3|done|].
    { unfold raft_meta_file in *. by rewrite Hht. }
    exists r3'. split_and!; [done|done|]. unfold LoadCommitLog_term. rewrite Hm. cbn. by rewrite Hpos.
Qed.

(** C38. The term of a server can go back: the field that [PersistTerm] saves the
    current term in is overwritten with the term of every entry that is applied,
    so that a vote saved after that brings the older term to the files; the server
    that starts on them begins in the older term, in which it may vote again. *)
Theorem term_goes_back r t v v' e c i r2 :
  calm (server_world r) → wf (server_world r) → state_ r = RAFT_UP → 0 < v' < 2 ^ 31 → log_type (Type_ e) = NO_OP → Term e < t →
  let m1 := set_applied (set_vote (raft_meta_ r) v) (last_applied_idx (raft_meta_ r)) t in
  let m2 := set_vote (set_applied m1 i (Term e)) v' in codes m1 → codes m2 → home r2 = home r →
  ∃ ra rb rc rd ev, PersistTerm r t v = (0, ra) ∧ RaftApplyLog on_apply ra e c i = Some (rb, rc, ev) ∧ PersistVote rc v' = (0, rd) ∧
    (server_world r2 = server_world rd →
     ∃ r3, Raft_LoadMeta r2 = (0, false, r3) ∧ LoadCommitLog_term r3 = (Term e, Some v') ∧ Term e < t).
Proof.
  intros Hc W Hup Hv He Ht m1 m2 Hm1 Hm2 Hh2.
  destruct (Raft_SaveMeta_stored (set_raft_meta r m1) Hc W Hm1) as (ra & HSa & Hra & Hha & Hsa & Hca & Wa & _).
  destruct (ClearCacheEntry_total i (raft_log_store_ ra)) as (x & cache & HCC & _).
  assert (∃ rb rc ev, RaftApplyLog on_apply ra e c i = Some (rb, rc, ev) ∧ raft_meta_ rc = set_applied m1 i (Term e) ∧
    home rc = home ra ∧ server_world rc = server_world ra) as (rb & rc & ev & HA & Hmc & Hhc & Hwc).
  { unfold RaftApplyLog, apply_entry. rewrite He. cbn [mbind option_bind]. rewrite HCC. cbn [mbind option_bind].
    cbn [set_log_store state_]. rewrite Hsa. cbn [set_raft_meta state_]. rewrite Hup. do 3 eexists. split; [done|]. cbn. by rewrite Hra. }
  destruct (Raft_SaveMeta_stored (set_raft_meta rc m2)) as (rd & HSd & Hrd & Hhd & _ & Hcd & _ & Hstd).
  { unfold server_world in *. cbn. by rewrite Hwc. }
  { unfold server_world in *. cbn. by rewrite Hwc. }
  { done. }
  exists ra, rb, rc, rd, ev. split_and!; [|done| |].
  - unfold PersistTerm. rewrite Hup. exact HSa.
  - unfold PersistVote. rewrite i32_id, Hmc by lia. exact HSd.
  - intros Hw. destruct (Raft_LoadMeta_stored rd r2 m2) as (r3 & HL & Hm); [done| | |done|].
    { unfold raft_meta_file in *. rewrite Hhd. exact Hstd. }
    { rewrite Hh2, Hhd. cbn. by rewrite Hhc, Hha. }
    exists r3. split_and!; [done| |done]. unfold LoadCommitLog_term. rewrite Hm. cbn.
    by rewrite (proj2 (Z.ltb_lt 0 v')) by lia.
Qed.

(** ** Applying and truncating *)

(** The cache has the entries from [a] on. *)
Definition cached_from (st : Storage) (a : Z) : Prop := indexed a (latest_entries_cache_ st).

Lemma ClearCacheEntry_from st a :
  cached_from st a → ∃ rc cache, ClearCacheEntry a st = Some (rc, with_cache st cache) ∧ indexed (a + 1) cache.
Proof.
  intros Hx. destruct (ClearCacheEntry_total a st) as (rc & cache & HC & Hd). exists rc, cache. split; [exact HC|].
  unfold cached_from in Hx. destruct Hd as [->|(e & Hd & _)].
  - destruct (latest_entries_cache_ st) as [|e l] eqn:E; [by intros k e|]. exfalso.
    pose proof (Hx 0%nat e eq_refl) as Hi. revert HC. unfold ClearCacheEntry. mrun. rewrite E. mrun.
    rewrite (proj2 (Z.eqb_eq _ _)) by lia. cbn [negb]. mrun. intros [= _ E']. apply (f_equal length) in E'. cbn in E'. lia.
  - intros k x Hk. rewrite Hd in Hx. specialize (Hx (S k) x Hk). lia.
Qed.

Lemma RaftApplyLog_from r e a ps :
  member_step (node_peers (raft_meta_ r)) e = Some ps → cached_from (raft_log_store_ r) a →
  ∃ rc r' ev cache, RaftApplyLog on_apply r e false a = Some (rc, r', ev) ∧ node_peers (raft_meta_ r') = ps ∧
    raft_log_store_ r' = with_cache (raft_log_store_ r) cache ∧ indexed (a + 1) cache.
Proof.
  intros Hm Hx. destruct (apply_entry_members on_apply r e false a ps Hm) as (rc & r1 & ev & HA & Hp & Hst & _ & Hl).
  unfold RaftApplyLog. rewrite HA. cbn [mbind option_bind]. rewrite Hl.
  destruct (ClearCacheEntry_from _ _ Hx) as (rc' & cache & -> & Hi). cbn [mbind option_bind].
  do 4 eexists. split; [done|]. cbn [set_log_store state_]. split_and!; [| |exact Hi]; destruct (state_ r1); done.
Qed.

Lemma apply_all_from r a es ps :
  members (node_peers (raft_meta_ r)) es = Some ps → cached_from (raft_log_store_ r) a →
  ∃ r' cache, apply_all on_apply r a es = Some r' ∧ raft_log_store_ r' = with_cache (raft_log_store_ r) cache ∧
    indexed (a + Z.of_nat (length es)) cache.
Proof.
  revert r a. induction es as [|e es IH]; intros r a; cbn [members apply_all length].
  { intros _ Hx. exists r, (latest_entries_cache_ (raft_log_store_ r)). rewrite Z.add_0_r. split_and!; [done|by destruct (raft_log_store_ r)|done]. }
  destruct (member_step _ e) as [ps1|] eqn:E; [|done]. cbn [mbind option_bind]. intros Hm Hx.
  destruct (RaftApplyLog_from r e a ps1 E Hx) as (rc & r1 & ev & cache & -> & Hp & Hl & Hi). cbn [mbind option_bind].
  destruct (IH r1 (a + 1)) as (r' & cache' & HA & Hl' & Hi'); [by rewrite Hp|by unfold cached_from; rewrite Hl|].
  exists r', cache'. split_and!; [done|by rewrite Hl', Hl|]. by replace (a + Z.of_nat (S (length es))) with (a + 1 + Z.of_nat (length es)) by lia.
Qed.

(** Entries that were not applied can be cut off: when a server has applied the
    entries up to an index, so that the cache has only later ones, [raftLogPop]
    behind that index ends with 0 and leaves the log up to it; without applying
    them first it would not end. *)
Theorem apply_then_pop r first es a kept ps :
  let st := raft_log_store_ r in
  calm (world st) → represents st first es → cached_from st a → first <= a <= kept + 1 → first <= kept < last_log_index_ st →
  members (node_peers (raft_meta_ r)) (take (Z.to_nat (kept + 1 - a)) (drop (Z.to_nat (a - first)) es)) = Some ps →
  ∃ r', apply_all on_apply r a (take (Z.to_nat (kept + 1 - a)) (drop (Z.to_nat (a - first)) es)) = Some r' ∧
  ∃ st', raftLogPop (S (length (latest_entries_cache_ (raft_log_store_ r')))) (kept + 1) (raft_log_store_ r') = Some (0, st') ∧
    represents st' first (take (Z.to_nat (kept + 1 - first)) es).
Proof.
  intros st Hc R Hx Ha Hk Hm. destruct (apply_all_from r a _ ps Hm Hx) as (r' & cache & HA & Hl & Hi).
  exists r'. split; [done|]. rewrite Hl. pose proof (represents_next _ _ _ R) as Hn.
  rewrite length_take, length_drop in Hi. replace (a + Z.of_nat _) with (kept + 1) in Hi by lia.
  unfold raftLogPop. rewrite Z.add_simpl_r.
  destruct R as (cl & op & b & S & ->).
  destruct (TruncateSuffix_run (with_cache st cache) cl op b first kept) as (st1 & cl2 & op2 & HT & Hc1 & S1 & HV & HC & _);
    [done|by apply store_with_cache|done|].
  exists (with_cache st1 []). split.
  - rewrite HT. apply clear_cache_ends. rewrite HC. cbn [with_cache latest_entries_cache_].
    apply pop_back_ends; [|lia]. apply Forall_forall. intros e He. apply list_elem_of_lookup in He as [k He]. rewrite (Hi _ _ He). lia.
  - exists cl2, op2, b. split; [by apply store_with_cache|done].
Qed.
End theorems.
