(* ===== verification/MraftStart.v ===== *)
(** * MraftStart: starting a server (Raft::Init of mraft.cpp)

    A server starts as the first node of a new cluster, by joining a cluster, or
    on what it has saved.  The raft library and the application are parameters:
    the class [Library] says what the calls in [Init] do.  The registry of the
    servers of a process, the timers and the thread of the event loop are left
    out. *)

From S2P Require Import Prelude MraftIobuf MraftOs MraftEntry MraftPb MraftSegment MraftLog MraftServer MraftCluster.

Record RaftOptions := mkOptions {
  opt_home : string;
  opt_self_peer : RaftNodePeer;
  opt_raft_peers : list RaftNodePeer;
  create_cluster : Z
}.

Record NodeJoinResponse := mkJoin { success : bool; joined_peer : RaftNodePeer }.

(** - [raft_add_node id voting is_self] of a new server: whether the result is
      not null, for [raft_add_node] and [raft_add_non_voting_node];
    - [raft_become_leader st]: the log after the call, to which the library may
      append;
    - [raft_apply_all st]: the entries that the library gives to [RaftApplyLog]
      when the commit index is the last index of the log;
    - [raft_set_current_term] and [raft_vote_for_nodeid] hand the term and the vote
      to the callbacks [persist_term] and [persist_vote] that [Init] registers, the
      term with the vote [term_vote];
    - [OnSendNodeJoin peer]: the response of the peer; [None] if nothing could be
      sent. *)
Class Library := {
  raft_add_node : Z → bool → bool → bool;
  raft_become_leader : Storage → option Storage;
  raft_apply_all : Storage → list LogEntry;
  term_vote : Z;
  OnSendNodeJoin : RaftNodePeer → option NodeJoinResponse;
  OnApplyLog : LogEntry → Z
}.

(** ** The peers in order *)

(** [operator<] of two strings: the bytes as unsigned numbers. *)
Fixpoint string_lt (a b : list Z) : bool :=
  match a, b with
  | _, [] => false
  | [], _ :: _ => true
  | x :: a, y :: b => if x <? y then true else if y <? x then false else string_lt a b
  end.

(** The function that [std::sort] is given. *)
Definition peer_lt (l r : RaftNodePeer) : bool :=
  if string_lt (host l) (host r) then true
  else if string_lt (host r) (host l) then false
  else port l <? port r.

Fixpoint insert_peer (p : RaftNodePeer) (l : list RaftNodePeer) : list RaftNodePeer :=
  match l with
  | [] => [p]
  | q :: l => if peer_lt q p then q :: insert_peer p l else p :: q :: l
  end.
Definition sort_peers (l : list RaftNodePeer) : list RaftNodePeer := foldr insert_peer [] l.

Definition empty_raft_meta : RaftMeta := mkRaftMeta ∅ (mkPeer [] 0 0) 0 0 0 0 0.
Definition set_state (r : Server) (s : RaftState) : Server := mkServer (home r) s (raft_meta_ r) (raft_log_store_ r).
Definition set_self (m : RaftMeta) (p : RaftNodePeer) : RaftMeta :=
  mkRaftMeta (node_peers m) p (last_applied_idx m) (last_applied_term m) (snapshot_last_idx m) (snapshot_last_term m) (voted_for m).

Section start.
Context `{Outside} `{LogTypes} `{!Message RaftMeta} `{Library} (FLAGS_raft_max_segment_size : Z).

(** [AddNode] with the answer of the library. *)
Definition AddNode_call (r : Server) (peer : RaftNodePeer) (vote : bool) : Z * Server :=
  AddNode r peer (raft_add_node (peer_id peer) vote (same_address peer (self_peer (raft_meta_ r)))).

(** ** Joining *)

(** The peers one after the other until one accepts. *)
Fixpoint join_loop (self : RaftNodePeer) (peers : list RaftNodePeer) : option RaftNodePeer :=
  match peers with
  | [] => None
  | peer :: peers =>
      if same_address peer self then join_loop self peers
      else match OnSendNodeJoin peer with
           | Some res => if success res then Some (joined_peer res) else join_loop self peers
           | None => join_loop self peers
           end
  end.

(** The result of [AddNode] is not used. *)
Definition TryJoinExistingCluster (self : RaftNodePeer) (peers : list RaftNodePeer) (r : Server) : Z * Server :=
  match join_loop self peers with
  | None => (-1, r)
  | Some joined =>
      if same_address joined self
      then (0, (AddNode_call (set_raft_meta r (set_self (raft_meta_ r) joined)) joined false).2)
      else (-1, r)
  end.

(** ** Loading *)

(** Without a return statement when there is a snapshot. *)
Definition LoadLastSnapshot (r : Server) : option Z :=
  if snapshot_last_idx (raft_meta_ r) <=? 0 then Some 0 else None.

(** The code, the server, and the term and the vote that the library is given.
    [PersistTerm] does nothing while the server loads, but [PersistVote] saves the
    meta data. *)
Definition LoadCommitLog (r : Server) : option (Z * Server * (Z * option Z)) :=
  r ← apply_all OnApplyLog r (snapshot_last_idx (raft_meta_ r) + 1) (raft_apply_all (raft_log_store_ r));
  let '(_, r) := PersistTerm r (last_applied_term (raft_meta_ r)) term_vote in
  let r := if 0 <? voted_for (raft_meta_ r) then (PersistVote r (voted_for (raft_meta_ r))).2 else r in
  Some (0, r, LoadCommitLog_term r).

(** ** Starting *)

Definition options_ok (o : RaftOptions) : bool :=
  negb (bool_decide (opt_home o = ""%string)) && ((create_cluster o =? 0) || (create_cluster o =? 1)) &&
  negb (bool_decide (host (opt_self_peer o) = [])) && negb (port (opt_self_peer o) =? 0) &&
  negb (bool_decide (opt_raft_peers o = [])).

(** The first node of a cluster: the code and the server. *)
Definition start_first (fresh : list Z) (self : RaftNodePeer) (r : Server) : option (Z * Server) :=
  let self := mkPeer (host self) (port self) 1 in
  let r := set_raft_meta r (set_self (raft_meta_ r) self) in
  let r := (AddNode_call r self true).2 in
  st ← raft_become_leader (raft_log_store_ r);
  AppendConfigChange_only_log FLAGS_raft_max_segment_size fresh ADD_NODE self (set_log_store r st).

(** A start without meta data. *)
Definition start_empty (fresh : list Z) (o : RaftOptions) (r : Server) : option (Z * Server) :=
  let r := set_state r RAFT_UP in
  let peers := sort_peers (opt_raft_peers o) in
  let first := match peers with p :: _ => same_address (opt_self_peer o) p | [] => false end in
  '(rc, r) ← (if (create_cluster o =? 1) && first then start_first fresh (opt_self_peer o) r
              else Some (TryJoinExistingCluster (opt_self_peer o) peers r));
  if negb (rc =? 0) then Some (rc, r) else Some (Raft_SaveMeta r).

(** A start on meta data. *)
Definition start_saved (r : Server) : option (Z * Server * option (Z * option Z)) :=
  let r := set_state r RAFT_LOADING in
  rc ← LoadLastSnapshot r;
  if negb (rc =? 0) then Some (rc, r, None)
  else
    let '(rc, r) := AddNode_call r (self_peer (raft_meta_ r)) false in
    if negb (rc =? 0) then Some (rc, r, None)
    else
      '(rc, r, tv) ← LoadCommitLog r;
      if negb (rc =? 0) then Some (rc, r, None) else Some (0, set_state r RAFT_UP, Some tv).

(** [fresh] are the bytes of the entry that [raft_entry_new] returns.  The server
    before [Init] has the state [RAFT_UP] of its class. *)
Definition Raft_Init (fresh : list Z) (o : RaftOptions) (w : World) : option (Z * Server * option (Z * option Z)) :=
  let log_home := in_dir (opt_home o) "log" in
  if negb (options_ok o) then Some (-1, mkServer "" RAFT_UP empty_raft_meta (new_storage log_home w), None)
  else
    let w := if create_cluster o =? 1 then remove_all w log_home else w in
    '(rc, st) ← Init FLAGS_raft_max_segment_size (new_storage log_home w);
    if negb (rc =? 0) then Some (-1, mkServer "" RAFT_UP empty_raft_meta st, None)
    else
      let r := mkServer (opt_home o) RAFT_UNINITIALIZED empty_raft_meta st in
      let '(rc, start_from_empty, r) := if create_cluster o =? 1 then (0, true, r) else Raft_LoadMeta r in
      if negb (rc =? 0) then Some (-1, r, None)
      else if (start_from_empty : bool) then
        '(rc, r) ← start_empty fresh o r; Some (rc, r, None)
      else start_saved r.
End start.
