(* ===== verification/MraftStartSpec.v ===== *)
(** * MraftStartSpec: what a server has after it has started

    Applying a log again to the table it has led to changes nothing; a server that
    starts on its files has the members of its whole log; and the first server of
    a cluster can be stopped and started again. *)

From S2P Require Import Prelude MraftIobuf MraftOs MraftEntry MraftPb MraftSegment MraftSegmentSpec MraftRecovery MraftLog MraftNames MraftStore MraftTruncate MraftFrame MraftTheorems MraftServer MraftCluster MraftServerTheorems MraftStart.

(** ** A start on saved files *)

(** What the documentation of the library says of the calls: a node can be added
    to a server that does not have it; all entries up to the commit index are
    applied, from the first on if there is no snapshot; a new leader appends at
    most a no-op entry. *)
Class LibraryLaws `{Outside} `{LogTypes} `{Library} (max : Z) : Prop := {
  add_node_new id vote self : raft_add_node id vote self = true;
  apply_all_entries st es : calm (world st) → represents st 1 es → coherent st 1 es → raft_apply_all st = es;
  become_leader_appends st : ∃ es, Forall entry_ok es ∧ Forall (λ e, log_type (Type_ e) = NO_OP) es ∧ (length es <= 1)%nat ∧
    raft_become_leader st = snd <$> append_all max es st
}.

Section restart.
Context `{OutsideLaws} `{LogTypes} `{!Message RaftMeta} `{Library} (max : Z) `{!LibraryLaws max}.

Lemma set_peers_same m ps : node_peers m = ps → set_peers m ps = m.
Proof. intros <-. by destruct m. Qed.

(** While the server loads, an entry changes only the table. *)
Lemma RaftApplyLog_loading r e i ps :
  state_ r = RAFT_LOADING → member_step (node_peers (raft_meta_ r)) e = Some ps →
  ∃ rc ev cache, RaftApplyLog OnApplyLog r e false i =
    Some (rc, mkServer (home r) RAFT_LOADING (set_peers (raft_meta_ r) ps) (with_cache (raft_log_store_ r) cache), ev).
Proof.
  intros Hst Hm. assert (∃ rc ev, apply_entry OnApplyLog r e false i =
    Some (rc, mkServer (home r) RAFT_LOADING (set_peers (raft_meta_ r) ps) (raft_log_store_ r), ev)) as (rc & ev & HA).
  { assert (∀ ps, node_peers (raft_meta_ r) = ps → r = mkServer (home r) RAFT_LOADING (set_peers (raft_meta_ r) ps) (raft_log_store_ r)) as Hr.
    { intros q Hq. rewrite set_peers_same by done. destruct r. cbn in *. by subst. }
    revert Hm. unfold member_step, apply_entry, peers_insert, DoRemoveNode, set_raft_meta. rewrite Hst. cbv zeta.
    destruct (log_type (Type_ e)); try (intros [= <-]; do 2 eexists; by rewrite <-(Hr _ eq_refl)).
    3: intros [= <-]; by do 2 eexists.
    all: destruct (node_peers (raft_meta_ r) !! _); [intros [= <-]; do 2 eexists; by rewrite <-(Hr _ eq_refl)|].
    all: destruct (req_peer (Data e)) as [p|]; [|done]; intros [= <-]; by do 2 eexists. }
  unfold RaftApplyLog. rewrite HA. cbn [mbind option_bind raft_log_store_].
  destruct (ClearCacheEntry_total i (raft_log_store_ r)) as (rc' & cache & -> & _). by do 3 eexists.
Qed.

Lemma apply_all_loading r i es ps :
  state_ r = RAFT_LOADING → members (node_peers (raft_meta_ r)) es = Some ps →
  ∃ cache, apply_all OnApplyLog r i es =
    Some (mkServer (home r) RAFT_LOADING (set_peers (raft_meta_ r) ps) (with_cache (raft_log_store_ r) cache)).
Proof.
  revert r i. induction es as [|e es IH]; intros r i Hst; cbn [members apply_all].
  { intros [= <-]. exists (latest_entries_cache_ (raft_log_store_ r)). rewrite set_peers_same by done.
    destruct r as [h s m st]. cbn in *. subst. by destruct st. }
  destruct (member_step _ e) as [ps1|] eqn:E; [|done]. cbn [mbind option_bind]. intros Hm.
  destruct (RaftApplyLog_loading r e i ps1 Hst E) as (rc & ev & cache & ->). cbn [mbind option_bind].
  destruct (IH (mkServer (home r) RAFT_LOADING (set_peers (raft_meta_ r) ps1) (with_cache (raft_log_store_ r) cache)) (i + 1)
    eq_refl Hm) as (cache' & ->). by exists cache'.
Qed.

Lemma represents_with_cache st first es cache : represents st first es → represents (with_cache st cache) first es.
Proof. intros (cl & op & b & S & ->). exists cl, op, b. split; [by apply store_with_cache|done]. Qed.

Lemma Raft_LoadMeta_eq r m :
  calm (server_world r) → stored (server_world r) (raft_meta_file r) m →
  Raft_LoadMeta r = (0, false, mkServer (home r) (state_ r) m (raft_log_store_ r)).
Proof.
  intros Hc Hst. unfold Raft_LoadMeta. fold (server_world r).
  pose proof Hst as (b & _ & _ & _ & (i & Hn & _)%view_Some). rewrite Hn. rewrite (pb_read_file_stored _ _ m) by done.
  unfold set_raft_meta, set_log_store, server_world. cbn. by destruct (raft_log_store_ r).
Qed.

Lemma meta_outside h : ¬ inside (in_dir h "log") (in_dir h kRaftMeta).
Proof.
  intros [n E]. assert (in_dir (in_dir h "log") n = in_dir h ("log/" +:+ n)%string) as E' by (unfold in_dir; by rewrite !app_string_assoc).
  rewrite E' in E. apply in_dir_inj in E. by cbn in E.
Qed.

(** Saving the meta data next to a log. *)
Lemma save_beside h s m st es :
  calm (world st) → wf (world st) → log_path_ st = in_dir h "log" → represents st 1 es → codes m →
  ∃ r', Raft_SaveMeta (mkServer h s m st) = (0, r') ∧ raft_meta_ r' = m ∧ state_ r' = s ∧ home r' = h ∧
    calm (server_world r') ∧ wf (server_world r') ∧ represents (raft_log_store_ r') 1 es ∧
    log_path_ (raft_log_store_ r') = in_dir h "log" ∧ stored (server_world r') (in_dir h kRaftMeta) m ∧
    ∀ q, q ≠ in_dir h kRaftMeta → view (server_world r') q = view (world st) q.
Proof.
  intros Hc W Hp (cl & op & b & S & Ev) Hm.
  destruct (pb_write_file_puts (world st) (in_dir h kRaftMeta) m Hc W Hm) as (bytes & w' & HS & P & Hst).
  unfold Raft_SaveMeta, raft_meta_file. cbn [raft_log_store_ home raft_meta_]. rewrite HS. eexists.
  split_and!; [done..|apply P|apply P| |done|done|apply P]. exists cl, op, b. split; [|done].
  destruct S. constructor; try done. cbn. eapply disk_puts; [done|done|]. rewrite Hp. apply meta_outside.
Qed.

(** The vote that was saved can be saved again. *)
Definition vote_ok (m : RaftMeta) (ps : gmap Z RaftNodePeer) : Prop :=
  0 < voted_for m → voted_for m < 2 ^ 31 ∧ codes (set_peers m ps).
(** The meta data on disk after the start. *)
Definition saved_again (m : RaftMeta) (ps : gmap Z RaftNodePeer) : RaftMeta :=
  if 0 <? voted_for m then set_peers m ps else m.

(** The library is given the term and the vote. *)
Lemma give_vote h m ps st es :
  calm (world st) → wf (world st) → log_path_ st = in_dir h "log" → represents st 1 es →
  stored (world st) (in_dir h kRaftMeta) m → vote_ok m ps →
  let r := mkServer h RAFT_LOADING (set_peers m ps) st in
  ∃ st', (if 0 <? voted_for m then (PersistVote r (voted_for m)).2 else r) = mkServer h RAFT_LOADING (set_peers m ps) st' ∧
    represents st' 1 es ∧ stored (world st') (in_dir h kRaftMeta) (saved_again m ps) ∧
    ∀ q, q ≠ in_dir h kRaftMeta → view (world st') q = view (world st) q.
Proof.
  intros Hc W Hp R Hst Hv r. unfold saved_again. destruct (Z.ltb_spec 0 (voted_for m)) as [Hpos|]; [|by exists st].
  destruct (Hv Hpos) as [Hlt Hcode]. unfold PersistVote. rewrite i32_id by lia.
  assert (set_vote (set_peers m ps) (voted_for m) = set_peers m ps) as Hsame by done.
  unfold set_raft_meta. cbn [r raft_meta_ home state_ raft_log_store_]. rewrite Hsame.
  destruct (save_beside h RAFT_LOADING (set_peers m ps) st es Hc W Hp R Hcode)
    as ([h' s' m' st'] & -> & Hm & Hs & Hh & _ & _ & R' & _ & Hst' & He). cbn in Hm, Hs, Hh. subst.
  exists st'. by split_and!.
Qed.

(** The start on meta data [m], with a log [es]. *)
Lemma start_saved_loads r es n ps0 ps :
  let m := raft_meta_ r in
  calm (server_world r) → wf (server_world r) → log_path_ (raft_log_store_ r) = in_dir (home r) "log" →
  represents (raft_log_store_ r) 1 es → coherent (raft_log_store_ r) 1 es →
  stored (server_world r) (in_dir (home r) kRaftMeta) m → vote_ok m ps →
  snapshot_last_idx m = 0 → 0 < peer_id (self_peer m) < 2 ^ 31 → is_Some (node_peers m !! peer_id (self_peer m)) → Forall decodes es →
  members ps0 (take n es) = Some (node_peers m) → members ps0 es = Some ps →
  ∃ st', start_saved r = Some (0, mkServer (home r) RAFT_UP (set_peers m ps) st', Some (LoadCommitLog_term r)) ∧
    represents st' 1 es ∧ stored (world st') (in_dir (home r) kRaftMeta) (saved_again m ps) ∧
    ∀ q, q ≠ in_dir (home r) kRaftMeta → view (world st') q = view (server_world r) q.
Proof.
  intros m Hc W Hpath R Hco Hst Hv Hs Hid [p Hp] Hd Hm Hps. unfold start_saved, LoadLastSnapshot. cbn [set_state raft_meta_]. fold m.
  rewrite Hs. cbn [Z.leb Z.compare negb Z.eqb mbind option_bind]. unfold AddNode_call, AddNode. cbn [set_state raft_meta_]. fold m.
  rewrite add_node_new. assert (same_address (self_peer m) (self_peer m) = true) as ->.
  { unfold same_address. by rewrite bool_decide_eq_true_2, Z.eqb_refl. }
  rewrite (proj2 (Z.leb_gt (peer_id (self_peer m)) 0)) by lia. cbn [negb Z.eqb].
  unfold DoAddNode, peers_insert. cbn [set_state raft_meta_ set_raft_meta]. fold m. rewrite u32_id, Hp by (unfold is_u32; lia).
  rewrite set_peers_same by done. set (r1 := set_raft_meta _ _).
  assert (r1 = mkServer (home r) RAFT_LOADING m (raft_log_store_ r)) as ->.
  { unfold r1, set_raft_meta, set_state. cbn. f_equal. unfold m. by destruct (raft_meta_ r). }
  unfold LoadCommitLog. cbn [raft_meta_ raft_log_store_]. rewrite (apply_all_entries _ es Hc R Hco).
  destruct (apply_all_loading (mkServer (home r) RAFT_LOADING m (raft_log_store_ r)) (snapshot_last_idx m + 1) es ps eq_refl) as (cache & ->).
  { cbn. pose proof (take_drop n es) as E. rewrite <-E in Hd, Hps |- *. by eapply members_again. }
  cbn [mbind option_bind home raft_meta_ raft_log_store_]. unfold PersistTerm. cbn [state_ raft_meta_].
  destruct (give_vote (home r) m ps (with_cache (raft_log_store_ r) cache) es) as (st' & E & R' & Hst' & He);
    [done|done|done|by apply represents_with_cache|done|done|].
  exists st'. change (voted_for (set_peers m ps)) with (voted_for m). rewrite E. by split_and!.
Qed.

(** [Init] of the log finds it and leaves the meta data. *)
Lemma Init_log_meta w h es t m :
  calm w → wf w → 0 <= max → on_disk w (in_dir h "log") 1 es t → torn t → es ≠ [] → stored w (in_dir h kRaftMeta) m →
  ∃ st, Init max (new_storage (in_dir h "log") w) = Some (0, st) ∧ calm (world st) ∧ wf (world st) ∧ represents st 1 es ∧ coherent st 1 es ∧
    stored (world st) (in_dir h kRaftMeta) m ∧ log_path_ st = in_dir h "log" ∧
    (∀ q, ¬ inside (in_dir h "log") q → view (world st) q = view w q).
Proof.
  intros Hc W Hmax Hd Ht Hne (b & Hb1 & Hb2 & Hb3 & Hb4).
  destruct (Init_step max w _ 1 es t Hc Hmax Hd Ht Hne) as (st & HI & Hc' & R & Hco).
  destruct (Init_stays _ max _ _ _ (new_storage_in_order _ w W) HI) as [Ho F]. exists st.
  split_and!; [done|done|apply Ho|done|done| |apply Ho|apply F]. exists b. split_and!; [done..|]. rewrite (fr_else _ _ _ F) by apply meta_outside. done.
Qed.

Lemma restart_step fresh o w m t es n ps0 ps :
  calm w → wf w → 0 <= max → options_ok o = true → create_cluster o = 0 →
  on_disk w (in_dir (opt_home o) "log") 1 es t → torn t → es ≠ [] → stored w (in_dir (opt_home o) kRaftMeta) m →
  snapshot_last_idx m = 0 → 0 < peer_id (self_peer m) < 2 ^ 31 → is_Some (node_peers m !! peer_id (self_peer m)) →
  Forall decodes es → members ps0 (take n es) = Some (node_peers m) → members ps0 es = Some ps → vote_ok m ps →
  ∃ r, Raft_Init max fresh o w
       = Some (0, r, Some (last_applied_term m, if 0 <? voted_for m then Some (voted_for m) else None)) ∧
    state_ r = RAFT_UP ∧ raft_meta_ r = set_peers m ps ∧ represents (raft_log_store_ r) 1 es ∧
    stored (server_world r) (in_dir (opt_home o) kRaftMeta) (saved_again m ps) ∧
    (∀ q, ¬ inside (in_dir (opt_home o) "log") q → q ≠ in_dir (opt_home o) kRaftMeta → view (server_world r) q = view w q).
Proof.
  intros Hc W Hmax Hok Hcr Hd Ht Hne Hst Hs Hid Hself Hdec Hm Hps Hv.
  destruct (Init_log_meta w (opt_home o) es t m Hc W Hmax Hd Ht Hne Hst) as (st & HI & Hc1 & W1 & R & Hco & Hst1 & Hp & He).
  unfold Raft_Init. rewrite Hok, Hcr. cbn [negb Z.eqb]. rewrite HI. cbn [mbind option_bind negb Z.eqb].
  set (r0 := mkServer _ _ _ st). rewrite (Raft_LoadMeta_eq r0 m Hc1 Hst1).
  unfold r0. cbn [negb Z.eqb home state_ raft_log_store_].
  destruct (start_saved_loads (mkServer (opt_home o) RAFT_UNINITIALIZED m st) es n ps0 ps) as (st' & -> & R' & Hst' & He'); try done.
  eexists. split; [done|]. split_and!; [done|done|done|done|]. intros q Hq Hq'. cbn in He'. unfold server_world. cbn.
  rewrite He' by done. by apply He.
Qed.


(** ** The first server of a cluster *)

Lemma prefix_app a b : String.prefix a (a +:+ b)%string = true.
Proof. induction a as [|c a IH]; [by destruct b|]. change (String.prefix (String c a) (String c (a +:+ b)) = true). cbn. destruct (Ascii.ascii_dec c c); [exact IH|done]. Qed.

Lemma remove_all_empty w d n : names (remove_all w d) !! in_dir d n = None.
Proof.
  cbn. apply map_lookup_filter_None. right. intros i _. cbn.
  replace (in_dir d n) with (in_dir d "" +:+ n)%string by (unfold in_dir; by rewrite !app_string_assoc). by rewrite prefix_app.
Qed.
Lemma remove_all_wf w d : wf w → wf (remove_all w d).
Proof.
  intros W. constructor; cbn; [| |apply W].
  - intros a b i [Ha _]%map_lookup_filter_Some [Hb _]%map_lookup_filter_Some. by eapply wf_inj.
  - intros a i [Ha _]%map_lookup_filter_Some. by eapply W.
Qed.

(** The order of the peers. *)
Lemma string_lt_irrefl a : string_lt a a = false.
Proof. induction a as [|x a IH]; cbn; [done|]. by rewrite Z.ltb_irrefl. Qed.
Lemma string_lt_total a b : string_lt a b = false → string_lt b a = false → a = b.
Proof.
  revert b. induction a as [|x a IH]; intros [|y b]; cbn; try done.
  destruct (Z.ltb_spec x y), (Z.ltb_spec y x); try done. intros. f_equal; [lia|by apply IH].
Qed.
Lemma string_lt_trans a b c : string_lt a b = true → string_lt b c = true → string_lt a c = true.
Proof.
  revert b c. induction a as [|x a IH]; intros [|y b] [|z c]; cbn; try done.
  destruct (Z.ltb_spec x y), (Z.ltb_spec y x), (Z.ltb_spec y z), (Z.ltb_spec z y), (Z.ltb_spec x z), (Z.ltb_spec z x);
    try done; try lia. by apply IH.
Qed.

Lemma peer_lt_total p q : peer_lt p q = false → peer_lt q p = false → same_address p q = true.
Proof.
  unfold peer_lt, same_address. destruct (string_lt (host p) (host q)) eqn:E1; [done|].
  destruct (string_lt (host q) (host p)) eqn:E2; [done|]. rewrite (string_lt_total _ _ E1 E2).
  rewrite bool_decide_eq_true_2 by done. intros. apply Z.eqb_eq. lia.
Qed.
Lemma peer_lt_trans p q r : peer_lt p q = true → peer_lt q r = true → peer_lt p r = true.
Proof.
  unfold peer_lt. destruct (string_lt (host p) (host q)) eqn:E1.
  - intros _. destruct (string_lt (host q) (host r)) eqn:E2; [by rewrite (string_lt_trans _ _ _ E1 E2)|].
    destruct (string_lt (host r) (host q)) eqn:E3; [done|]. by rewrite <-(string_lt_total _ _ E2 E3), E1.
  - destruct (string_lt (host q) (host p)) eqn:E2; [done|]. rewrite <-(string_lt_total _ _ E1 E2).
    destruct (string_lt (host p) (host r)); [done|]. destruct (string_lt (host r) (host p)); [done|]. intros. lia.
Qed.
Lemma peer_lt_asym p q : peer_lt p q = true → peer_lt q p = false.
Proof.
  intros Hpq. destruct (peer_lt q p) eqn:E; [|done]. pose proof (peer_lt_trans _ _ _ Hpq E) as E'. revert E'.
  unfold peer_lt. by rewrite string_lt_irrefl, Z.ltb_irrefl.
Qed.

(** What is not below [q] is not below what is not above [q]. *)
Lemma peer_lt_min p q r : peer_lt q p = false → peer_lt r q = false → peer_lt r p = false.
Proof.
  intros H1' H2'. destruct (peer_lt r p) eqn:E; [|done]. destruct (peer_lt p q) eqn:E'.
  - by rewrite (peer_lt_trans _ _ _ E E') in H2'.
  - pose proof (peer_lt_total _ _ E' H1') as Ha. unfold same_address in Ha. apply andb_true_iff in Ha as [Ha%bool_decide_eq_true Hb%Z.eqb_eq].
    revert E H2'. unfold peer_lt. rewrite Ha, Hb. by intros ->.
Qed.

Lemma insert_peer_elem p l q : q ∈ insert_peer p l ↔ q = p ∨ q ∈ l.
Proof.
  induction l as [|x l IH]; cbn; [rewrite !elem_of_cons; tauto|]. destruct (peer_lt x p); rewrite !elem_of_cons, ?IH; tauto.
Qed.
Lemma sort_peers_elem l q : q ∈ sort_peers l ↔ q ∈ l.
Proof. induction l as [|x l IH]; cbn; [done|]. by rewrite insert_peer_elem, IH, elem_of_cons. Qed.

(** The first of the sorted peers is not above any other. *)
Lemma sort_peers_head l p r : sort_peers l = p :: r → ∀ q, q ∈ l → peer_lt q p = false.
Proof.
  revert p r. induction l as [|x l IH]; intros p r; cbn [sort_peers foldr]; [done|]. fold (sort_peers l).
  assert (peer_lt x x = false) as Hx by (unfold peer_lt; by rewrite string_lt_irrefl, Z.ltb_irrefl).
  destruct (sort_peers l) as [|y l'] eqn:E; cbn [insert_peer].
  - intros [= <- <-] q [->|Hq]%elem_of_cons; [done|]. apply sort_peers_elem in Hq. rewrite E in Hq. by apply elem_of_nil in Hq.
  - destruct (peer_lt y x) eqn:Eyx; intros [= <- <-] q [->|Hq]%elem_of_cons.
    + by apply peer_lt_asym.
    + by eapply IH.
    + done.
    + eapply peer_lt_min; [exact Eyx|]. by eapply IH.
Qed.

(** The node with the least address is the first one. *)
Lemma least_is_first l self :
  self ∈ l → (∀ q, q ∈ l → peer_lt q self = false) →
  match sort_peers l with p :: _ => same_address self p | [] => false end = true.
Proof.
  intros Hs Hmin. destruct (sort_peers l) as [|p r] eqn:E.
  - apply sort_peers_elem in Hs. rewrite E in Hs. by apply elem_of_nil in Hs.
  - apply peer_lt_total; [by eapply sort_peers_head|]. apply Hmin, sort_peers_elem. rewrite E. by left.
Qed.

(** ** Its log *)

Lemma append_all_stays path es : stays path (append_all max es).
Proof.
  induction es as [|e es IH]; cbn [append_all]; [apply stays_ret|]. apply stays_bind.
  - unfold raftLogAppend. apply stays_get. intros st0 _. apply AppendEntry_stays.
  - intros rc. destruct (negb (rc =? 0)); [apply stays_ret|apply IH].
Qed.

(** A storage with a log in a directory, in good order. *)
Record holds (path : string) (st : Storage) (es : list LogEntry) : Prop := {
  hd_calm : calm (world st);
  hd_order : in_order path st;
  hd_log : represents st 1 es;
  hd_cache : coherent st 1 es
}.

Lemma holds_append path st es0 es :
  holds path st es0 → 0 <= max → Forall entry_ok es → 1 + Z.of_nat (length es0) + Z.of_nat (length es) < 2 ^ 63 →
  ∃ st', append_all max es st = Some (0, st') ∧ holds path st' (es0 ++ numbered (1 + Z.of_nat (length es0)) es).
Proof.
  intros [Hc Ho R Hco] Hmax Hok Hl. destruct (append_all_represents max es st 1 es0) as (st' & HA & Hc' & R' & Hco' & _); [done..|].
  exists st'. split; [done|]. constructor; [done| |done|done]. by apply (append_all_stays path es st 0 st' Ho HA).
Qed.

Lemma holds_append_one path st es0 e :
  holds path st es0 → 0 <= max → entry_ok e → 2 + Z.of_nat (length es0) < 2 ^ 63 →
  ∃ st', raftLogAppend max e st = Some (0, st') ∧
    holds path st' (es0 ++ [mkEntry (1 + Z.of_nat (length es0)) (Term e) (Type_ e) (Data e)]).
Proof.
  intros Hh Hmax Hok Hl. destruct (holds_append path st es0 [e] Hh Hmax) as (st' & HA & Hh'); [by apply Forall_singleton|cbn; lia|].
  exists st'. split; [|done]. revert HA. cbn [append_all]. unfold mbind at 1, M_bind at 1.
  destruct (raftLogAppend max e st) as [[rc st1]|]; [|done]. destruct (Z.eqb_spec rc 0) as [->|Hn]; cbn [negb]; [by intros [= ->]|by intros [= -> _]].
Qed.

Lemma holds_fresh w path :
  calm w → wf w → 0 <= max → ∃ st, Init max (new_storage path (remove_all w path)) = Some (0, st) ∧ holds path st [].
Proof.
  intros Hc W Hmax. pose proof (remove_all_wf w path W) as W'.
  destruct (Init_fresh max (remove_all w path) path) as (st & HI & Hc' & S & HC & HL & _);
    [done|done|apply remove_all_empty|intros i; apply W'|].
  exists st. split; [done|]. constructor; [done| |by exists [], None, 1|by apply coherent_empty].
  by apply (Init_stays path max _ _ _ (new_storage_in_order path _ W') HI).
Qed.

Lemma holds_save h st es m s :
  holds (in_dir h "log") st es → codes m →
  ∃ r', Raft_SaveMeta (mkServer h s m st) = (0, r') ∧ raft_meta_ r' = m ∧ state_ r' = s ∧ home r' = h ∧
    calm (server_world r') ∧ wf (server_world r') ∧ represents (raft_log_store_ r') 1 es ∧
    log_path_ (raft_log_store_ r') = in_dir h "log" ∧ stored (server_world r') (in_dir h kRaftMeta) m.
Proof.
  intros [Hc [Hp W _] R _] Hm. destruct (save_beside h s m st es Hc W Hp R Hm) as (r' & ? & ? & ? & ? & ? & ? & ? & ? & ? & _).
  exists r'. by split_and!.
Qed.

(** ** Its start *)

Definition first_meta (self : RaftNodePeer) : RaftMeta := mkRaftMeta {[ 1 := first_self self ]} (first_self self) 0 0 0 0 0.

Lemma numbered_length i es : length (numbered i es) = length es.
Proof. revert i. induction es as [|e es IH]; intros i; cbn; [done|]. by rewrite IH. Qed.

Lemma no_op_others es i : Forall (λ e, log_type (Type_ e) = NO_OP) es → Forall (λ e, ¬ is_add e ∧ ¬ is_remove e) (numbered i es).
Proof.
  intros He. revert i. induction He as [|e es He Hes IH]; intros i; cbn [numbered]; constructor; [|apply IH].
  unfold is_add, is_remove. cbn [Type_]. rewrite He. split; [by intros [?|?]|done].
Qed.

Lemma no_op_members ps es i : Forall (λ e, log_type (Type_ e) = NO_OP) es →
  members ps (numbered i es) = Some ps ∧ Forall decodes (numbered i es).
Proof.
  intros He. revert i. induction He as [|e es He Hes IH]; intros i; cbn [numbered members]; [by split|].
  destruct (IH (i + 1)) as [IH1 IH2]. unfold member_step at 1. cbn [Type_]. rewrite He. split; [exact IH1|].
  constructor; [|done]. unfold decodes, is_add. cbn [Type_]. rewrite He. by intros [?|?].
Qed.

Lemma cfg_entry fresh self :
  address_ok self → (length (host self) < kMaxHostLen)%nat → length fresh = 40%nat →
  ∃ b, cfg_change_bytes fresh (first_self self) = Some b ∧ req_peer b = Some (first_self self) ∧ req_node_id b = 1 ∧ (length b <= 40)%nat.
Proof.
  intros [Hh Hp] Hl Hf. destruct (cfg_change_bytes fresh (first_self self)) as [b|] eqn:E.
  - exists b. split_and!; [done| | |].
    + rewrite (req_peer_bytes fresh (first_self self)) by (done || (cbn; lia)). cbn. by rewrite Z.mod_small by lia.
    + by eapply (req_node_id_bytes fresh (first_self self)).
    + revert E. unfold cfg_change_bytes, kMaxHostLen in *. cbn [host first_self]. case_match; [|done].
      intros <-%(inj Some). rewrite !length_app, !le_bytes_length, length_drop. cbn [length]. lia.
  - revert E. unfold cfg_change_bytes. cbn [host first_self]. by rewrite (proj2 (Nat.ltb_lt _ _)).
Qed.

Lemma AddNode_first h self st :
  AddNode_call (mkServer h RAFT_UP (set_self empty_raft_meta (first_self self)) st) (first_self self) true
  = (0, mkServer h RAFT_UP (first_meta self) st).
Proof.
  unfold AddNode_call, AddNode. rewrite add_node_new. cbn [raft_meta_ set_self self_peer].
  unfold same_address. rewrite bool_decide_eq_true_2, Z.eqb_refl by done. cbn [andb peer_id first_self Z.leb Z.compare negb].
  unfold DoAddNode, peers_insert. cbn [raft_meta_ set_self node_peers empty_raft_meta peer_id first_self].
  rewrite u32_id, lookup_empty by (unfold is_u32; lia). done.
Qed.

Lemma start_first_log fresh self h st path :
  0 <= max → holds path st [] → address_ok self → (length (host self) < kMaxHostLen)%nat → length fresh = 40%nat →
  ∃ st' es, start_first max fresh self (mkServer h RAFT_UP empty_raft_meta st) = Some (0, mkServer h RAFT_UP (first_meta self) st') ∧
    holds path st' es ∧ es ≠ [] ∧ Forall decodes es ∧ members ∅ es = Some {[ 1 := first_self self ]} ∧
    ∀ r, raft_meta_ r = first_meta self → founded self (mkLead r es 0).
Proof.
  intros Hmax Hh Ha Hl Hf. destruct (cfg_entry fresh self Ha Hl Hf) as (b & Hb & Hq & Hid & Hlen).
  destruct (become_leader_appends st) as (es & Hes & Hno & Hl1 & Hlead).
  destruct (holds_append path st [] es Hh Hmax Hes) as (st1 & HA & Hh1); [cbn; lia|]. cbn [app length] in Hh1.
  set (e := Create_entry 0 0 (log_type_number ADD_NODE) b).
  destruct (holds_append_one path st1 _ e Hh1 Hmax) as (st2 & HA2 & Hh2).
  { split_and!; [unfold is_i64; cbn; lia|apply log_type_number_u8|]. unfold DataLength. cbn [Data e Create_entry]. lia. }
  { rewrite numbered_length. lia. }
  set (e' := mkEntry _ (Term e) (Type_ e) (Data e)) in Hh2. destruct (no_op_members ∅ es (1 + Z.of_nat 0) Hno) as [Hm Hd].
  assert (is_add e') as Hadd by (left; cbn; by apply log_type_of_number).
  exists st2, (numbered (1 + Z.of_nat 0) es ++ [e']). split_and!; [|done|by intros [_ ?]%app_nil| | |].
  - unfold start_first. fold (first_self self). unfold set_raft_meta. cbn [home state_ raft_meta_ raft_log_store_].
    rewrite AddNode_first. cbn [snd raft_log_store_].
    rewrite Hlead, HA. cbn [fmap option_fmap option_map mbind option_bind snd].
    unfold AppendConfigChange_only_log. rewrite Hb. cbn [mbind option_bind set_log_store raft_log_store_].
    fold e. by rewrite HA2.
  - apply Forall_app. split; [done|]. apply Forall_singleton. intros _. change (is_Some (req_peer b)). rewrite Hq. eauto.
  - rewrite members_app, Hm. cbn [mbind option_bind members]. unfold member_step.
    destruct Hadd as [-> | ->]; cbn [Data e' e Create_entry]; rewrite Hid, Hq, u32_id, lookup_empty by (unfold is_u32; lia); done.
  - intros r Hr. split_and!; [done|done|cbn [leader]; by rewrite Hr|]. exists (numbered (1 + Z.of_nat 0) es), e', fresh.
    split_and!; [done|by apply no_op_others|cbn; by apply log_type_of_number|exact Hb].
Qed.

Lemma first_start fresh o w :
  calm w → wf w → 0 <= max → options_ok o = true → create_cluster o = 1 →
  let self := opt_self_peer o in
  self ∈ opt_raft_peers o → (∀ q, q ∈ opt_raft_peers o → peer_lt q self = false) →
  address_ok self → (length (host self) < kMaxHostLen)%nat → length fresh = 40%nat → codes (first_meta self) →
  ∃ r es, Raft_Init max fresh o w = Some (0, r, None) ∧ state_ r = RAFT_UP ∧ raft_meta_ r = first_meta self ∧
    calm (server_world r) ∧ wf (server_world r) ∧ represents (raft_log_store_ r) 1 es ∧
    log_path_ (raft_log_store_ r) = in_dir (opt_home o) "log" ∧ stored (server_world r) (in_dir (opt_home o) kRaftMeta) (first_meta self) ∧
    es ≠ [] ∧ Forall decodes es ∧ members ∅ es = Some {[ 1 := first_self self ]} ∧ founded self (mkLead r es 0).
Proof.
  intros Hc W Hmax Hok Hcr self Hin Hleast Ha Hl Hf Hcode.
  destruct (holds_fresh w (in_dir (opt_home o) "log") Hc W Hmax) as (st & HI & Hh).
  destruct (start_first_log fresh self (opt_home o) st _ Hmax Hh Ha Hl Hf) as (st' & es & HS & Hh' & Hne & Hd & Hm & Hfound).
  destruct (holds_save (opt_home o) st' es (first_meta self) RAFT_UP Hh' Hcode)
    as (r & HSave & Hmeta & Hst & _ & Hc' & W' & R & Hp & Hstored).
  exists r, es. split; [|split_and!; try done; by apply Hfound]. unfold Raft_Init. rewrite Hok, Hcr. cbn [negb Z.eqb Pos.eqb]. rewrite HI.
  cbn [mbind option_bind negb Z.eqb Pos.eqb]. unfold start_empty, set_state. cbn [home raft_meta_ raft_log_store_].
  fold self. rewrite (least_is_first _ self Hin Hleast), Hcr. cbn [Z.eqb Pos.eqb andb]. rewrite HS. cbn [mbind option_bind negb Z.eqb].
  by rewrite HSave.
Qed.

(** C20. A cluster can be started, stopped and started again: the node with the
    least address makes the cluster, whatever was in its directory of the log
    before, with itself as the only member; a start on its files afterwards
    returns 0 too and finds the same members and the same log. *)
Theorem first_start_restarts fresh o w fresh2 o2 :
  calm w → wf w → 0 <= max → options_ok o = true → create_cluster o = 1 →
  let self := opt_self_peer o in
  self ∈ opt_raft_peers o → (∀ q, q ∈ opt_raft_peers o → peer_lt q self = false) →
  address_ok self → (length (host self) < kMaxHostLen)%nat → length fresh = 40%nat → codes (first_meta self) →
  options_ok o2 = true → create_cluster o2 = 0 → opt_home o2 = opt_home o →
  ∃ r1 r2 es, Raft_Init max fresh o w = Some (0, r1, None) ∧ raft_meta_ r1 = first_meta self ∧ represents (raft_log_store_ r1) 1 es ∧
    Raft_Init max fresh2 o2 (server_world r1) = Some (0, r2, Some (0, None)) ∧ state_ r2 = RAFT_UP ∧
    raft_meta_ r2 = first_meta self ∧ represents (raft_log_store_ r2) 1 es.
Proof.
  intros Hc W Hmax Hok Hcr self Hin Hleast Ha Hl Hf Hcode Hok2 Hcr2 Hh2.
  destruct (first_start fresh o w) as (r1 & es & HI & _ & Hm1 & Hc1 & W1 & R1 & Hp & Hst & Hne & Hd & Hm & _); [done..|].
  pose proof (represents_on_disk _ _ _ R1) as Hdisk. rewrite Hp, <-Hh2 in Hdisk. rewrite <-Hh2 in Hst.
  destruct (restart_step fresh2 o2 (server_world r1) (first_meta self) [] es (length es) ∅ {[ 1 := first_self self ]})
    as (r2 & HI2 & Hup & Hm2 & R2 & _); try done.
  - apply torn_nil.
  - by rewrite firstn_all.
  - exists r1, r2, es. by split_and!.
Qed.
End restart.
