(* ===== verification/MraftSnapshot.v ===== *)
(** * MraftSnapshot: the files of a snapshot (snapshot.cpp)

    A snapshot is a directory of files and a file [snapshot_meta] with their
    names and sizes.  A server writes the files, reads them in chunks through
    mappings, and another one stores the chunks.

    The descriptors and mappings of the process are in [Proc]: a mapping is an
    address that leads to a file, so that a chunk, a pointer into a mapping, is
    read when it is used and dangles after [munmap].  Addresses are not used
    again.  Directories are not modelled: [create_directories] does nothing. *)

From S2P Require Import Prelude MraftIobuf MraftOs MraftEntry MraftPb.

(** ** Mappings *)

Record Proc := mkProc { os : World; maps : gmap nat nat; next_map : nat }.

Definition set_os (p : Proc) (w : World) : Proc := mkProc w (maps p) (next_map p).

(** [mmap(nullptr, length, ...)] of a whole file. *)
Definition sys_mmap (p : Proc) (fd : Fd) (length : Z) : option nat * Proc :=
  match ask (os p) with
  | (Failed e _, w) => (None, set_os p (set_errno w e))
  | (Done, w) =>
      if length <=? 0 then (None, set_os p (set_errno w EINVAL))
      else (Some (next_map p), mkProc w (<[next_map p := fd_ino fd]> (maps p)) (S (next_map p)))
  end.
Definition munmap (p : Proc) (addr : nat) : Proc := mkProc (os p) (delete addr (maps p)) (next_map p).

(** What the program sees at a mapped address: the file, zeros up to the end of
    its last page, and nothing beyond ([None] is the signal [SIGBUS], or an
    address that is not mapped). *)
Definition page_size : Z := 4096.
Definition mapped_bytes (p : Proc) (addr : nat) (off n : Z) : option (list Z) :=
  i ← maps p !! addr;
  let b := file_bytes (os p) i in
  let len := Z.of_nat (length b) in
  let pages := (len + page_size - 1) / page_size * page_size in
  if (0 <=? off) && (0 <=? n) && (off + n <=? pages)
  then Some (take (Z.to_nat n) (drop (Z.to_nat off) (b ++ replicate (Z.to_nat (pages - len)) 0)))
  else None.

(** [pwriteFull]: the number of bytes written, or -1. *)
Definition pwriteFull (w : World) (fd : Fd) (b : list Z) (off : Z) : Z * World :=
  let put w b := set_inode w (fd_ino fd) (overwrite (file_bytes w (fd_ino fd)) (Z.to_nat off) b) in
  match ask w with
  | (Failed e n, w) => (-1, set_errno (if off <? 0 then w else put w (take n b)) e)
  | (Done, w) => if off <? 0 then (-1, set_errno w EINVAL) else (Z.of_nat (length b), put w b)
  end.

(** [is_regular_file]. *)
Definition is_regular_file (w : World) (path : string) : bool := bool_decide (is_Some (names w !! path)).

(** ** The messages *)

Record SnapshotFileMeta := mkFileMeta { fm_name : string; fm_size : Z }.
Abbreviation SnapshotMeta := (list SnapshotFileMeta).

Definition kSnapshotMeta : string := "snapshot_meta".

(** The sum of two [int64_t]; [None] is an overflow. *)
Definition add64 (a b : Z) : option Z := if bool_decide (is_i64 (a + b)) then Some (a + b) else None.

(** ** A file that is written *)

Record SnapshotWritableFile := mkWritable { name_ : string; file_ : option Fd }.

Definition GetFD (f : SnapshotWritableFile) : option Fd := file_ f.
Definition WritableFile_Close (f : SnapshotWritableFile) : SnapshotWritableFile := mkWritable (name_ f) None.

(** ** The snapshot *)

(** A null pointer in [files_] or [file_mapbufs_] is [None]. *)
Record Snapshot := mkSnapshot {
  snapshot_path_ : string;
  index_ : Z;
  meta_ : SnapshotMeta;
  files_ : list (option Fd);
  file_mapbufs_ : list (option nat)
}.

Definition set_meta (s : Snapshot) (m : SnapshotMeta) : Snapshot :=
  mkSnapshot (snapshot_path_ s) (index_ s) m (files_ s) (file_mapbufs_ s).
Definition set_files (s : Snapshot) (l : list (option Fd)) : Snapshot :=
  mkSnapshot (snapshot_path_ s) (index_ s) (meta_ s) l (file_mapbufs_ s).
Definition set_mapbufs (s : Snapshot) (l : list (option nat)) : Snapshot :=
  mkSnapshot (snapshot_path_ s) (index_ s) (meta_ s) (files_ s) l.

Definition Snapshot_new (path : string) (index : Z) : Snapshot :=
  mkSnapshot (in_dir path (to_string index)) index [] [] [].

(** The mappings go, the pointers in [file_mapbufs_] stay. *)
Definition Snapshot_Close (s : Snapshot) (p : Proc) : Snapshot * Proc :=
  (set_files s [], foldl (λ p a, match a with Some a => munmap p a | None => p end) p (file_mapbufs_ s)).

(** [remove_all]; the function has no return statement. *)
Definition Snapshot_Remove (s : Snapshot) (p : Proc) : Snapshot * Proc :=
  let '(s, p) := Snapshot_Close s p in
  (s, set_os p (remove_all (os p) (snapshot_path_ s))).

Fixpoint size_loop (n : Z) (files : SnapshotMeta) : option Z :=
  match files with
  | [] => Some n
  | f :: files => n ← add64 n (fm_size f); size_loop n files
  end.
Definition Snapshot_Size (s : Snapshot) : option Z := size_loop 0 (meta_ s).

Definition Snapshot_Exists (s : Snapshot) (file_name : string) : bool :=
  existsb (λ f, bool_decide (fm_name f = file_name)) (meta_ s).

Definition GetReadableFile (s : Snapshot) (w : World) (file_name : string) : option Fd * World :=
  sys_open w (in_dir (snapshot_path_ s) file_name).

Definition GetWritableFile (s : Snapshot) (w : World) (file_name : string) : option SnapshotWritableFile * World :=
  match sys_create w (in_dir (snapshot_path_ s) file_name) with
  | (None, w) => (None, w)
  | (Some fd, w) => (Some (mkWritable file_name (Some fd)), w)
  end.

Fixpoint offset_loop (offset : Z) (i : nat) (file_total_size : Z) (files : SnapshotMeta) : option (option (nat * Z)) :=
  match files with
  | [] => Some None
  | f :: files =>
      let file_start_offset := file_total_size in
      file_total_size ← add64 file_total_size (fm_size f);
      if offset <? file_total_size then Some (Some (i, file_start_offset))
      else offset_loop offset (S i) file_total_size files
  end.
(** The file and the offset at which it starts; [Some None] is the result -1. *)
Definition GetFileByOffset (s : Snapshot) (offset : Z) : option (option (nat * Z)) :=
  offset_loop offset 0 0 (meta_ s).

(** Storing a chunk; a position outside of [files_] is undefined. *)
Definition Snapshot_Write (s : Snapshot) (w : World) (offset : Z) (data : list Z) : option (Z * World) :=
  at_ ← GetFileByOffset s offset;
  match at_ with
  | None => Some (-1, w)
  | Some (file_idx, file_start_offset) =>
      file ← files_ s !! file_idx;
      match file with
      | None => Some (-1, w)
      | Some fd =>
          let '(n, w) := pwriteFull w fd data (offset - file_start_offset) in
          if negb (n =? Z.of_nat (length data)) then Some (errno w, w) else Some (0, w)
      end
  end.

(** A chunk that was read: the pointer and what comes with it. *)
Record Chunk := mkChunk { chunk_map : nat; chunk_off : Z; read_count : Z; last_chunk : bool }.

Definition MAX_CHUNK_SIZE : Z := 32 * 1024.

(** The mapping of a file, made at the first use; [None] is an error. *)
Definition map_file (s : Snapshot) (p : Proc) (file_idx : nat) (f : SnapshotFileMeta) : option nat * Snapshot * Proc :=
  let bufs := if negb (Nat.eqb (length (file_mapbufs_ s)) (length (meta_ s)))
              then take (length (meta_ s)) (file_mapbufs_ s ++ replicate (length (meta_ s)) None)
              else file_mapbufs_ s in
  let s := set_mapbufs s bufs in
  match mjoin (bufs !! file_idx) with
  | Some a => (Some a, s, p)
  | None =>
      match sys_open (os p) (in_dir (snapshot_path_ s) (fm_name f)) with
      | (None, w) => (None, s, set_os p w)
      | (Some fd, w) =>
          match sys_mmap (set_os p w) fd (fm_size f) with
          | (None, p) => (None, s, p)
          | (Some a, p) => (Some a, set_mapbufs s (<[file_idx := Some a]> bufs), p)
          end
      end
  end.

(** Reading a chunk; the chunk is there if the code is 0. *)
Definition Snapshot_Read (s : Snapshot) (p : Proc) (offset : Z) : option (Z * option Chunk * Snapshot * Proc) :=
  at_ ← GetFileByOffset s offset;
  match at_ with
  | None => Some (-1, None, s, p)
  | Some (file_idx, file_start_offset) =>
      f ← meta_ s !! file_idx;
      let count := MAX_CHUNK_SIZE `min` (fm_size f - (offset - file_start_offset)) in
      match map_file s p file_idx f with
      | (None, s, p) => Some (-1, None, s, p)
      | (Some a, s, p) =>
          last ← (if Z.of_nat file_idx =? u64 (Z.of_nat (length (files_ s)) - 1)
                  then size ← Snapshot_Size s; Some (offset + count =? size)
                  else Some false);
          Some (0, Some (mkChunk a (offset - file_start_offset) count last), s, p)
      end
  end.

Section meta.
Context `{IOBufs} `{Message SnapshotMeta}.

Definition snapshot_meta_file (s : Snapshot) : string := in_dir (snapshot_path_ s) kSnapshotMeta.

Definition SyncMeta (s : Snapshot) (w : World) : Z * World := pb_write_file w (snapshot_meta_file s) (meta_ s).

(** The loop of [Open]: a file that is there is emptied, and one that is not
    there is not made. *)
Fixpoint open_files (path : string) (w : World) (files : SnapshotMeta) : list (option Fd) * World :=
  match files with
  | [] => ([], w)
  | f :: files =>
      let file_path := in_dir path (fm_name f) in
      let '(fd, w) := if is_regular_file w file_path then sys_create w file_path else sys_open w file_path in
      let '(l, w) := open_files path w files in
      (fd :: l, w)
  end.

(** After a message that cannot be read the snapshot is not used. *)
Definition Snapshot_Open (s : Snapshot) (w : World) (meta : option SnapshotMeta) : Z * Snapshot * World :=
  let '(rc, s, w) :=
    match meta with
    | Some m => let s := set_meta s m in let '(rc, w) := SyncMeta s w in (rc, s, w)
    | None =>
        if is_regular_file w (snapshot_meta_file s) then
          match pb_read_file w (snapshot_meta_file s) with
          | (None, w) => (-1, s, w)
          | (Some m, w) => (0, set_meta s m, w)
          end
        else (0, s, w)
    end in
  if negb (rc =? 0) then (rc, s, w)
  else if Nat.eqb (length (meta_ s)) 0 then (-1, s, w)
  else let '(l, w) := open_files (snapshot_path_ s) w (meta_ s) in (0, set_files s (files_ s ++ l), w).

Definition Snapshot_Add (s : Snapshot) (w : World) (file_name : string) : Z * Snapshot * World :=
  match sys_open w (in_dir (snapshot_path_ s) file_name) with
  | (None, w) => (-1, s, w)
  | (Some fd, w) =>
      match sys_fstat w fd with
      | (None, w) => (-1, s, w)
      | (Some file_size, w) =>
          let s := set_meta s (meta_ s ++ [mkFileMeta file_name file_size]) in
          let '(rc, w) := SyncMeta s w in (rc, s, w)
      end
  end.

(** The destructor adds the file to the snapshot; its code is not used. *)
Definition WritableFile_destruct (f : SnapshotWritableFile) (s : Snapshot) (w : World) : Snapshot * World :=
  let '(_, s, w) := Snapshot_Add s w (name_ f) in (s, w).
End meta.
