(* ===== verification/MraftSnapshotSpec.v ===== *)
(** * MraftSnapshotSpec: what a snapshot holds

    The files of a snapshot are a list of names and bytes, and its content is the
    bytes of the files in the order of the meta data.  Reading a chunk at an
    offset gives a part of the content that lies in one file. *)

From S2P Require Import Prelude MraftOs MraftEntry MraftPb MraftSnapshot.

Abbreviation Files := (list (string * list Z)).

Definition meta_of (fs : Files) : SnapshotMeta := (λ f, mkFileMeta f.1 (Z.of_nat (length f.2))) <$> fs.
Definition content (fs : Files) : list Z := fs ≫= snd.
Definition span (fs : Files) : Z := Z.of_nat (length (content fs)).

Lemma content_app a b : content (a ++ b) = content a ++ content b.
Proof. apply bind_app. Qed.
Lemma span_app a b : span (a ++ b) = span a + span b.
Proof. unfold span. rewrite content_app, length_app. lia. Qed.
Lemma span_cons f fs : span (f :: fs) = Z.of_nat (length f.2) + span fs.
Proof. unfold span, content. rewrite bind_cons, length_app. lia. Qed.
Lemma span_nil : span [] = 0.
Proof. done. Qed.
Lemma span_nonneg fs : 0 <= span fs.
Proof. unfold span. lia. Qed.
Lemma meta_of_cons f fs : meta_of (f :: fs) = mkFileMeta f.1 (Z.of_nat (length f.2)) :: meta_of fs.
Proof. done. Qed.
Lemma meta_of_length fs : length (meta_of fs) = length fs.
Proof. apply length_fmap. Qed.
Lemma meta_of_lookup fs k f : fs !! k = Some f → meta_of fs !! k = Some (mkFileMeta f.1 (Z.of_nat (length f.2))).
Proof. intros Hf. unfold meta_of. by rewrite list_lookup_fmap, Hf. Qed.

Create Rewrite HintDb snapshot.
#[export] Hint Rewrite span_app span_cons span_nil : snapshot.

(** ** Finding the file of an offset *)

Lemma add64_small a b : is_i64 (a + b) → add64 a b = Some (a + b).
Proof. intros Hi. unfold add64. by rewrite bool_decide_eq_true_2. Qed.

Lemma size_loop_span n fs : 0 <= n → n + span fs < 2 ^ 63 → size_loop n (meta_of fs) = Some (n + span fs).
Proof.
  revert n. induction fs as [|f fs IH]; intros n Hn Ht; autorewrite with snapshot in *; [cbn; by rewrite Z.add_0_r|].
  pose proof (span_nonneg fs). rewrite meta_of_cons. cbn [size_loop fm_size]. rewrite add64_small by (unfold is_i64; lia). cbn [mbind option_bind].
  rewrite IH by lia. f_equal. lia.
Qed.

(** The file that has the offset: the files before it end at or before it. *)
Lemma offset_loop_found off i start fs :
  0 <= start <= off → off < start + span fs → start + span fs < 2 ^ 63 →
  ∃ pre f post, fs = pre ++ f :: post ∧ start + span pre <= off < start + span pre + Z.of_nat (length f.2) ∧
    offset_loop off i start (meta_of fs) = Some (Some ((i + length pre)%nat, start + span pre)).
Proof.
  revert i start. induction fs as [|f fs IH]; intros i start Hs Hoff Ht; autorewrite with snapshot in *; [lia|].
  pose proof (span_nonneg fs). rewrite meta_of_cons. cbn [offset_loop fm_size]. rewrite add64_small by (unfold is_i64; lia). cbn [mbind option_bind].
  destruct (Z.ltb_spec off (start + Z.of_nat (length f.2))).
  - exists [], f, fs. autorewrite with snapshot. rewrite Nat.add_0_r, Z.add_0_r. split_and!; [done|lia|lia|done].
  - destruct (IH (S i) (start + Z.of_nat (length f.2))) as (pre & g & post & -> & Hg & HL); [lia..|].
    exists (f :: pre), g, post. autorewrite with snapshot in *. split_and!; [done|lia|lia|].
    rewrite HL. cbn [length]. do 3 f_equal; lia.
Qed.

Lemma offset_loop_none off i start fs :
  0 <= start → start + span fs <= off → start + span fs < 2 ^ 63 →
  offset_loop off i start (meta_of fs) = Some None.
Proof.
  revert i start. induction fs as [|f fs IH]; intros i start Hs Hoff Ht; [done|]. autorewrite with snapshot in *.
  pose proof (span_nonneg fs). rewrite meta_of_cons. cbn [offset_loop fm_size]. rewrite add64_small by (unfold is_i64; lia). cbn [mbind option_bind].
  rewrite (proj2 (Z.ltb_ge _ _)) by lia. apply IH; lia.
Qed.

(** ** A snapshot that can be read *)

(** The files are in the directory. *)
Definition held (w : World) (path : string) (fs : Files) : Prop :=
  ∀ k f, fs !! k = Some f → ∃ i, names w !! in_dir path f.1 = Some i ∧ inodes w !! i = Some f.2.

Record readable (p : Proc) (s : Snapshot) (fs : Files) : Prop := {
  rd_calm : calm (os p);
  rd_meta : meta_ s = meta_of fs;
  rd_held : held (os p) (snapshot_path_ s) fs;
  rd_span : span fs < 2 ^ 63;
  rd_count : Z.of_nat (length fs) < 2 ^ 31;
  rd_maps k a : file_mapbufs_ s !! k = Some (Some a) →
    ∃ f i, fs !! k = Some f ∧ names (os p) !! in_dir (snapshot_path_ s) f.1 = Some i ∧ maps p !! a = Some i;
  rd_fresh a : is_Some (maps p !! a) → (a < next_map p)%nat
}.

Lemma mapped_bytes_file p a i b off n :
  maps p !! a = Some i → inodes (os p) !! i = Some b → 0 <= off → 0 <= n → off + n <= Z.of_nat (length b) →
  mapped_bytes p a off n = Some (take (Z.to_nat n) (drop (Z.to_nat off) b)).
Proof.
  intros Hm Hi Ho Hn Hl. unfold mapped_bytes, file_bytes. rewrite Hm. cbn [mbind option_bind]. rewrite Hi. cbn [default from_option id]. unfold id.
  set (pages := _ / page_size * page_size).
  assert (Z.of_nat (length b) <= pages) as Hp.
  { unfold pages, page_size. pose proof (Z.mod_pos_bound (Z.of_nat (length b) + 4096 - 1) 4096 ltac:(lia)).
    pose proof (Z.div_mod (Z.of_nat (length b) + 4096 - 1) 4096 ltac:(lia)). lia. }
  rewrite (proj2 (Z.leb_le 0 off)), (proj2 (Z.leb_le 0 n)), (proj2 (Z.leb_le _ pages)) by lia. cbn [andb].
  f_equal. rewrite drop_app_le, take_app_le; [done|rewrite length_drop; lia|lia].
Qed.

Lemma sys_open_calm w path i : calm w → names w !! path = Some i → sys_open w path = (Some (mkFd i 0), w).
Proof. intros Hc Hn. unfold sys_open. by rewrite ask_calm, Hn. Qed.
Lemma sys_mmap_calm p fd n :
  calm (os p) → 0 < n →
  sys_mmap p fd n = (Some (next_map p), mkProc (os p) (<[next_map p := fd_ino fd]> (maps p)) (S (next_map p))).
Proof. intros Hc Hn. unfold sys_mmap. rewrite ask_calm by done. by rewrite (proj2 (Z.leb_gt _ _)). Qed.

(** After [resize] the pointers that were there are there. *)
Lemma resize_lookup (l : list (option nat)) n k a :
  (if negb (Nat.eqb (length l) n) then take n (l ++ replicate n None) else l) !! k = Some (Some a) → l !! k = Some (Some a).
Proof.
  destruct (Nat.eqb_spec (length l) n); cbn [negb]; [done|]. destruct (decide (k < n)%nat).
  - rewrite lookup_take_lt by done. intros [E|[_ E]]%lookup_app_Some; [done|]. by apply lookup_replicate in E as [? _].
  - rewrite lookup_take_ge by lia. done.
Qed.
Lemma resize_length (l : list (option nat)) n :
  length (if negb (Nat.eqb (length l) n) then take n (l ++ replicate n None) else l) = n.
Proof.
  destruct (Nat.eqb_spec (length l) n) as [E|E]; cbn [negb]; [done|].
  rewrite length_take, length_app, length_replicate. lia.
Qed.

Lemma map_file_found p s fs k f :
  readable p s fs → fs !! k = Some f → 0 < Z.of_nat (length f.2) →
  ∃ a i bufs p', map_file s p k (mkFileMeta f.1 (Z.of_nat (length f.2))) = (Some a, set_mapbufs s bufs, p') ∧
    readable p' (set_mapbufs s bufs) fs ∧ os p' = os p ∧ maps p' !! a = Some i ∧ inodes (os p) !! i = Some f.2.
Proof.
  intros R Hk Hpos. destruct (rd_held _ _ _ R k f Hk) as (i & Hn & Hi). unfold map_file. cbn [fm_name fm_size].
  rewrite (rd_meta _ _ _ R), meta_of_length. set (bufs := if negb _ then _ else _).
  assert (∀ k a, bufs !! k = Some (Some a) → file_mapbufs_ s !! k = Some (Some a)) as Hbufs by (intros ?? E; by eapply resize_lookup).
  assert (length bufs = length fs) as Hlen by apply resize_length.
  destruct (mjoin (bufs !! k)) as [a|] eqn:E.
  - assert (bufs !! k = Some (Some a)) as E' by (destruct (bufs !! k) as [[]|]; naive_solver).
    destruct (rd_maps _ _ _ R k a) as (f' & i' & Hf' & Hn' & Ha); [by apply Hbufs|].
    assert (f' = f) as -> by congruence. assert (i' = i) as -> by congruence.
    exists a, i, bufs, p. split_and!; try done. destruct R. constructor; try done. intros. eauto.
  - cbn [snapshot_path_ set_mapbufs]. rewrite (sys_open_calm _ _ i) by (done || apply R). rewrite sys_mmap_calm by (done || apply R).
    eexists _, i, _, _. split_and!; [done| |done|cbn; by rewrite lookup_insert_eq|done].
    assert (maps p !! next_map p = None) as Hnew.
    { destruct (maps p !! next_map p) eqn:E'; [|done]. pose proof (rd_fresh _ _ _ R (next_map p) ltac:(eauto)). lia. }
    destruct R. constructor; try done; cbn.
    + intros k' a' E'. apply list_lookup_insert_Some in E' as [(-> & [= <-] & _)|(_ & E')].
      * exists f, i. by rewrite lookup_insert_eq.
      * destruct (rd_maps0 k' a') as (f' & i' & ? & ? & Ha); [by apply Hbufs|]. exists f', i'.
        rewrite lookup_insert_ne by congruence. done.
    + intros a' [->|(_ & Ha')]%lookup_insert_is_Some; [lia|]. apply rd_fresh0 in Ha'. lia.
Qed.

(** ** Reading *)

(** The part of the content that a chunk at [off] in the file after [pre] has. *)
Lemma content_part pre f post off n :
  span pre <= off → 0 <= n → off + n <= span pre + Z.of_nat (length f.2) →
  take (Z.to_nat n) (drop (Z.to_nat off) (content (pre ++ f :: post)))
  = take (Z.to_nat n) (drop (Z.to_nat (off - span pre)) f.2).
Proof.
  intros Ho Hn Hl. unfold span in *. rewrite content_app. unfold content at 2. rewrite bind_cons.
  rewrite drop_app_ge by lia. rewrite drop_app_le, take_app_le by (rewrite ?length_drop; lia).
  do 2 f_equal. lia.
Qed.

(** The chunk at [off]: what it has, and whether it is marked as the last one. *)
Record chunk_at (s : Snapshot) (fs : Files) (off : Z) (c : Chunk) (p : Proc) : Prop := {
  ca_count : 0 < read_count c <= MAX_CHUNK_SIZE;
  ca_data : mapped_bytes p (chunk_map c) (chunk_off c) (read_count c)
            = Some (take (Z.to_nat (read_count c)) (drop (Z.to_nat off) (content fs)));
  ca_file : ∃ pre f post, fs = pre ++ f :: post ∧ chunk_off c = off - span pre ∧ span pre <= off ∧
    off + read_count c <= span pre + Z.of_nat (length f.2) ∧
    last_chunk c = ((Z.of_nat (length pre) =? u64 (Z.of_nat (length (files_ s)) - 1)) && (off + read_count c =? span fs))
}.

Lemma Snapshot_Read_chunk p s fs off :
  readable p s fs → 0 <= off < span fs →
  ∃ c bufs p', Snapshot_Read s p off = Some (0, Some c, set_mapbufs s bufs, p') ∧
    readable p' (set_mapbufs s bufs) fs ∧ os p' = os p ∧ chunk_at s fs off c p'.
Proof.
  intros R Hoff. pose proof (rd_span _ _ _ R) as Hspan.
  destruct (offset_loop_found off 0 0 fs) as (pre & f & post & Hfs & Hin & HL); [lia..|].
  assert (fs !! length pre = Some f) as Hk by (subst; by rewrite list_lookup_middle).
  destruct (map_file_found p s fs (length pre) f R Hk) as (a & i & bufs & p' & HM & R' & Hos & Ha & Hi); [lia|].
  unfold Snapshot_Read, GetFileByOffset. rewrite (rd_meta _ _ _ R), HL. cbn [mbind option_bind]. rewrite Nat.add_0_l, Z.add_0_l.
  rewrite (meta_of_lookup _ _ _ Hk). cbn [mbind option_bind fm_size]. rewrite HM.
  set (n := MAX_CHUNK_SIZE `min` _).
  assert (0 < n <= MAX_CHUNK_SIZE ∧ off + n <= span pre + Z.of_nat (length f.2)) as [Hn1 Hn2] by (unfold n, MAX_CHUNK_SIZE; lia).
  assert (Snapshot_Size (set_mapbufs s bufs) = Some (span fs)) as HS.
  { unfold Snapshot_Size. rewrite (rd_meta _ _ _ R'). by rewrite size_loop_span by lia. }
  rewrite HS. cbn [files_ set_mapbufs].
  exists (mkChunk a (off - span pre) n ((Z.of_nat (length pre) =? u64 (Z.of_nat (length (files_ s)) - 1)) && (off + n =? span fs))), bufs, p'.
  split_and!; [by destruct (_ =? u64 _)|done|done|]. constructor; cbn [read_count chunk_map chunk_off last_chunk].
  - done.
  - rewrite (mapped_bytes_file _ _ i f.2) by (try done; rewrite ?Hos; try done; lia).
    rewrite Hfs, content_part by lia. done.
  - exists pre, f, post. split_and!; [done|done|lia|lia|done].
Qed.

Lemma Snapshot_Read_end p s fs off :
  readable p s fs → span fs <= off → Snapshot_Read s p off = Some (-1, None, s, p).
Proof.
  intros R Hoff. pose proof (rd_span _ _ _ R). unfold Snapshot_Read, GetFileByOffset.
  by rewrite (rd_meta _ _ _ R), offset_loop_none by lia.
Qed.

(** ** Writing *)

(** The files of the descriptors have the content up to [off]. *)
Record written (w : World) (fds : list (option Fd)) (fs : Files) (off : Z) : Prop := {
  wr_calm : calm w;
  wr_length : length fds = length fs;
  wr_file k f : fs !! k = Some f → ∃ fd, fds !! k = Some (Some fd) ∧
    inodes w !! fd_ino fd = Some (take (Z.to_nat (off - span (take k fs))) f.2);
  wr_distinct j k fd fd' : fds !! j = Some (Some fd) → fds !! k = Some (Some fd') → fd_ino fd = fd_ino fd' → j = k
}.

Lemma overwrite_prefix (b data : list Z) (pos : nat) :
  (pos + length data <= length b)%nat → data = take (length data) (drop pos b) →
  overwrite (take pos b) pos data = take (pos + length data) b.
Proof.
  intros Hl Hd. rewrite <-(take_take_drop b pos (length data)), <-Hd.
  assert (length (take pos b) = pos) as Ht by (rewrite length_take; lia).
  pose proof (overwrite_end (take pos b) data) as E. by rewrite Ht in E.
Qed.

Lemma span_take_mono fs j k : (j <= k)%nat → span (take j fs) <= span (take k fs).
Proof.
  intros Hjk. replace k with (j + (k - j))%nat by lia. rewrite <-take_take_drop, span_app.
  pose proof (span_nonneg (take (k - j) (drop j fs))). lia.
Qed.

Lemma span_take_S fs k f : fs !! k = Some f → span (take (S k) fs) = span (take k fs) + Z.of_nat (length f.2).
Proof. intros Hk. rewrite (take_S_r _ _ f) by done. autorewrite with snapshot. lia. Qed.

(** The file of an offset is found, wherever it is. *)
Lemma GetFileByOffset_at s fs pre f post off :
  meta_ s = meta_of fs → span fs < 2 ^ 63 → fs = pre ++ f :: post → span pre <= off < span pre + Z.of_nat (length f.2) →
  GetFileByOffset s off = Some (Some (length pre, span pre)).
Proof.
  intros Hm Hs Hfs Hoff. pose proof (span_nonneg pre). pose proof (span_nonneg post).
  assert (span fs = span pre + Z.of_nat (length f.2) + span post) as Hspan by (subst fs; autorewrite with snapshot; lia).
  assert (∀ q g r q' g' r', fs = q ++ g :: r → fs = q' ++ g' :: r' → (length q < length q')%nat →
    span q + Z.of_nat (length g.2) <= span q') as Hmono.
  { intros q g r q' g' r' E E' Hlt. pose proof (span_take_mono fs (S (length q)) (length q') ltac:(lia)) as Hle.
    rewrite (span_take_S _ _ g) in Hle by (rewrite E; by rewrite list_lookup_middle).
    rewrite E in Hle at 1. rewrite E' in Hle. by rewrite !take_app_length in Hle. }
  destruct (offset_loop_found off 0 0 fs) as (q & g & r & Hfs' & Hin & HL); [lia..|].
  unfold GetFileByOffset. rewrite Hm, HL. cbn [Nat.add]. rewrite Z.add_0_l.
  destruct (Nat.lt_total (length q) (length pre)) as [Hlt|[Heq|Hlt]].
  - pose proof (Hmono _ _ _ _ _ _ Hfs' Hfs Hlt). lia.
  - rewrite Hfs in Hfs'. by apply app_inj_1 in Hfs' as [-> _].
  - pose proof (Hmono _ _ _ _ _ _ Hfs Hfs' Hlt). lia.
Qed.

(** The file with the offset gets the next bytes; the files before it are
    complete and those after it empty. *)
Lemma written_step w fds fs pre f post fd off n :
  written w fds fs off → fs = pre ++ f :: post → span pre <= off → 0 <= n → off + n <= span pre + Z.of_nat (length f.2) →
  fds !! length pre = Some (Some fd) →
  written (set_inode w (fd_ino fd) (take (Z.to_nat (off + n - span pre)) f.2)) fds fs (off + n).
Proof.
  intros [Wc Wl Wf Wd] Hfs Hoff Hn Hl Hfd.
  assert (fs !! length pre = Some f) as Hk by (subst; by rewrite list_lookup_middle).
  assert (take (length pre) fs = pre) as Htake by (subst; by rewrite take_app_length).
  constructor; [done|done| |done]. intros k g Hg. destruct (Wf _ _ Hg) as (fd' & Hfd' & Hi'). exists fd'. split; [done|].
  cbn. destruct (decide (k = length pre)) as [->|Hne].
  - assert (fd' = fd) as -> by congruence. assert (g = f) as -> by congruence. by rewrite lookup_insert_eq, Htake.
  - rewrite lookup_insert_ne by (intros E; apply Hne; by eapply Wd). rewrite Hi'. f_equal.
    destruct (decide (k < length pre)%nat).
    + pose proof (span_take_mono fs (S k) (length pre) ltac:(lia)) as Hle. rewrite (span_take_S _ _ _ Hg), Htake in Hle.
      by rewrite !take_ge by lia.
    + pose proof (span_take_mono fs (S (length pre)) k ltac:(lia)) as Hle. rewrite (span_take_S _ _ _ Hk), Htake in Hle.
      f_equal. lia.
Qed.

Lemma Snapshot_Write_chunk w s fs pre f post off data :
  meta_ s = meta_of fs → span fs < 2 ^ 63 → written w (files_ s) fs off →
  fs = pre ++ f :: post → span pre <= off → off + Z.of_nat (length data) <= span pre + Z.of_nat (length f.2) →
  data = take (length data) (drop (Z.to_nat (off - span pre)) f.2) → data ≠ [] →
  ∃ w', Snapshot_Write s w off data = Some (0, w') ∧ names w' = names w ∧
    written w' (files_ s) fs (off + Z.of_nat (length data)).
Proof.
  intros Hm Hs W Hfs Hoff Hl Hd Hne. assert (0 < length data)%nat as Hpos by (destruct data; [done|cbn; lia]).
  assert (fs !! length pre = Some f) as Hk by (subst; by rewrite list_lookup_middle).
  destruct (wr_file _ _ _ _ W _ _ Hk) as (fd & Hfd & Hi). rewrite Hfs, take_app_length in Hi.
  unfold Snapshot_Write. rewrite (GetFileByOffset_at s fs pre f post) by (done || lia). cbn [mbind option_bind].
  rewrite Hfd. cbn [mbind option_bind].
  unfold pwriteFull. rewrite ask_calm by apply W. rewrite (proj2 (Z.ltb_ge _ _)) by lia.
  rewrite Z.eqb_refl. cbn [negb]. unfold file_bytes. rewrite Hi. cbn [default from_option]. unfold id.
  rewrite overwrite_prefix by (try done; lia). eexists. split_and!; [done|done|].
  replace (Z.to_nat (off - span pre) + length data)%nat with (Z.to_nat (off + Z.of_nat (length data) - span pre)) by lia.
  eapply written_step; [done|done|lia..|done].
Qed.
