(* ===== verification/MraftTransfer.v ===== *)
(** * MraftTransfer: the snapshots of a server (mraft.cpp)

    The part of the class Raft that keeps the snapshots of a server: the last one
    it saved or loaded, and the one it is receiving, with the callbacks that give
    and take chunks.  The raft library, which is not in the repository, calls
    them. *)

From S2P Require Import Prelude MraftIobuf MraftOs MraftEntry MraftPb MraftSnapshot MraftSnapshotSpec.

Record Raft := mkRaft {
  snapshot_home_ : string;
  last_snapshot_ : option Snapshot;
  incoming_snapshot_ : option Snapshot
}.

Definition set_last_snapshot (r : Raft) (s : option Snapshot) : Raft :=
  mkRaft (snapshot_home_ r) s (incoming_snapshot_ r).
Definition set_incoming (r : Raft) (s : option Snapshot) : Raft :=
  mkRaft (snapshot_home_ r) (last_snapshot_ r) s.

(** The destructor of the snapshot a pointer owned. *)
Definition destroy (s : option Snapshot) (p : Proc) : Proc :=
  match s with Some s => snd (Snapshot_Close s p) | None => p end.

Definition GetSnapshotChunk (r : Raft) (p : Proc) (offset : Z) : option (Z * option Chunk * Raft * Proc) :=
  match last_snapshot_ r with
  | None => Some (-1, None, r, p)
  | Some s =>
      '(rc, chunk, s, p) ← Snapshot_Read s p offset;
      Some (rc, chunk, set_last_snapshot r (Some s), p)
  end.

Definition StoreSnapshotChunk (r : Raft) (p : Proc) (snapshot_index offset : Z) (data : list Z) (last : bool)
    : option (Z * Raft * Proc) :=
  match incoming_snapshot_ r with
  | None => Some (-1, r, p)
  | Some s =>
      if negb (index_ s =? snapshot_index) then Some (-1, r, p)
      else
        '(rc, w) ← Snapshot_Write s (os p) offset data;
        let p := set_os p w in
        if negb (0 =? rc) then Some (rc, set_incoming r None, destroy (Some s) p)
        else if last then Some (rc, set_incoming r None, destroy (Some s) p)
        else Some (rc, r, p)
  end.

Definition ClearInComingSnapshot (r : Raft) (p : Proc) : Z * Raft * Proc :=
  match incoming_snapshot_ r with
  | None => (0, r, p)
  | Some s => let '(s, p) := Snapshot_Remove s p in (0, set_incoming r None, destroy (Some s) p)
  end.

Section load.
Context `{IOBufs} `{Message SnapshotMeta}.

(** What [RecvSnapshot] does before it hands the chunk to the library: the first
    chunk opens the snapshot.  [true] if it goes on. *)
Definition RecvSnapshot_open (r : Raft) (p : Proc) (offset snapshot_index : Z) (meta : SnapshotMeta) : bool * Raft * Proc :=
  if 0 =? offset then
    let old := incoming_snapshot_ r in
    let s := Snapshot_new (snapshot_home_ r) snapshot_index in
    let p := destroy old p in
    let '(rc, s, w) := Snapshot_Open s (os p) (Some meta) in
    (0 =? rc, set_incoming r (Some s), set_os p w)
  else (true, r, p).

(** [OnSnapshotLoad] is what the application does with the snapshot. *)
Context (OnSnapshotLoad : Snapshot → Proc → Z * Proc).

Definition DoLoadSnapshot (r : Raft) (p : Proc) (index : Z) : option Snapshot * Proc :=
  let s := Snapshot_new (snapshot_home_ r) index in
  let '(rc, s, w) := Snapshot_Open s (os p) None in
  let p := set_os p w in
  if negb (0 =? rc) then (None, destroy (Some s) p)
  else
    let '(rc, p) := OnSnapshotLoad s p in
    if negb (0 =? rc) then (None, destroy (Some s) p) else (Some s, p).

(** [begin] is the result of [raft_begin_load_snapshot]. *)
Definition RaftLoadSnapshot (begin : Z) (r : Raft) (p : Proc) (index : Z) : Z * Raft * Proc :=
  if negb (begin =? 0) then (-1, r, p)
  else
    let '(s, p) := DoLoadSnapshot r p index in
    match s with
    | None => (-1, r, p)
    | Some s => (0, set_last_snapshot r (Some s), destroy (last_snapshot_ r) p)
    end.
End load.

(** ** The end of a snapshot *)

Lemma os_destroy s p : os (destroy s p) = os p.
Proof.
  destruct s as [s|]; [|done]. unfold destroy, Snapshot_Close. cbn [snd]. generalize (file_mapbufs_ s) as l.
  intros l. revert p. induction l as [|[a|] l IH]; intros p; cbn; [done| |apply IH]. by rewrite IH.
Qed.

(** A snapshot that was saved and not opened marks no chunk as the last one. *)
Lemma saved_unmarked s fs off c p :
  Z.of_nat (length fs) < 2 ^ 31 → files_ s = [] → chunk_at s fs off c p → last_chunk c = false.
Proof.
  intros Hcount Hl [_ _ (pre & g & post & Hfs & _ & _ & Hend & ->)]. rewrite Hl. apply andb_false_iff. left.
  apply Z.eqb_neq. change (u64 (Z.of_nat (length (@nil (option Fd))) - 1)) with (2 ^ 64 - 1).
  rewrite Hfs, length_app in Hcount. lia.
Qed.
