(* ===== verification/MraftSnapshotTheorems.v ===== *)
(** * MraftSnapshotTheorems: snapshots that are saved, opened and sent *)

From S2P Require Import Prelude MraftIobuf MraftOs MraftEntry MraftPb MraftNames MraftSnapshot MraftSnapshotSpec MraftTransfer.

(** * Saving a snapshot

    What saving a snapshot does to the files of its directory. *)

Lemma is_regular_view w path b : view w path = Some b → is_regular_file w path = true.
Proof. intros (i & Hn & _)%view_Some. unfold is_regular_file. rewrite Hn. by apply bool_decide_eq_true_2. Qed.

(** ** Saving *)

(** The meta file has the message. *)
Abbreviation meta_stored w path m := (stored w (in_dir path kSnapshotMeta) m).

Section saving.
Context `{IOBufs} `{Message SnapshotMeta}.

Lemma SyncMeta_puts s w :
  calm w → wf w → codes (meta_ s) →
  ∃ b w', SyncMeta s w = (0, w') ∧ puts w (snapshot_meta_file s) b w' ∧ meta_stored w' (snapshot_path_ s) (meta_ s).
Proof. apply pb_write_file_puts. Qed.

(** How an application saves a file: it opens it, writes to the descriptor and
    drops the object. *)
Definition save_file (s : Snapshot) (w : World) (f : string * list Z) : Snapshot * World :=
  match GetWritableFile s w f.1 with
  | (None, w) => (s, w)
  | (Some wf, w) =>
      match GetFD wf with
      | None => WritableFile_destruct wf s w
      | Some fd => let '(_, _, w) := writevFull w fd f.2 in WritableFile_destruct wf s w
      end
  end.
Definition save_files (s : Snapshot) (w : World) (fs : Files) : Snapshot * World :=
  foldl (λ sw f, save_file sw.1 sw.2 f) (s, w) fs.

Lemma save_file_puts s w n b :
  calm w → wf w → n ≠ kSnapshotMeta → codes (meta_ s ++ [mkFileMeta n (Z.of_nat (length b))]) →
  ∃ w' m, save_file s w (n, b) = (set_meta s (meta_ s ++ [mkFileMeta n (Z.of_nat (length b))]), w') ∧
    calm w' ∧ wf w' ∧ view w' (in_dir (snapshot_path_ s) n) = Some b ∧
    meta_stored w' (snapshot_path_ s) (meta_ s ++ [mkFileMeta n (Z.of_nat (length b))]) ∧
    view w' (in_dir (snapshot_path_ s) kSnapshotMeta) = Some m ∧
    ∀ q, q ≠ in_dir (snapshot_path_ s) n → q ≠ in_dir (snapshot_path_ s) kSnapshotMeta → view w' q = view w q.
Proof.
  intros Hc W Hn Hcode. set (path := in_dir (snapshot_path_ s) n).
  destruct (sys_create_puts w path Hc W) as (i & w1 & HC & HP & Hi). unfold save_file, GetWritableFile. cbn [fst snd].
  fold path. rewrite HC. cbn [GetFD file_]. unfold writevFull. rewrite ask_calm by apply HP. cbn [fd_ino fd_pos].
  pose proof (pt_here _ _ _ _ HP) as (j & Hj & Hb)%view_Some. assert (j = i) as -> by congruence.
  assert (overwrite (file_bytes w1 i) (Z.to_nat 0) b = b) as ->.
  { unfold file_bytes. rewrite Hb. apply (overwrite_end []). }
  assert (puts w path b (set_inode w1 i b)) as HP' by (eapply puts_trans; [exact HP|by apply put_here; try apply HP]).
  unfold WritableFile_destruct, Snapshot_Add. cbn [name_]. fold path.
  rewrite (sys_open_calm _ _ i) by (done || apply HP'). unfold sys_fstat. rewrite ask_calm by apply HP'. cbn [fd_ino].
  assert (file_bytes (set_inode w1 i b) i = b) as -> by (unfold file_bytes; cbn; by rewrite lookup_insert_eq).
  set (s' := set_meta s _).
  destruct (SyncMeta_puts s' (set_inode w1 i b)) as (m & w2 & HS & HP2 & HM); [apply HP'..|done|].
  rewrite HS. exists w2, m.
  assert (path ≠ snapshot_meta_file s') as Hne by (intros E%in_dir_inj; done).
  split_and!; [done|apply HP2|apply HP2| |done|apply HP2|].
  - rewrite (pt_else _ _ _ _ HP2) by done. apply HP'.
  - intros q Hq Hq'. rewrite (pt_else _ _ _ _ HP2) by done. by apply HP'.
Qed.

Lemma save_files_puts s w done_ fs :
  calm w → wf w → meta_ s = meta_of done_ → NoDup (fst <$> done_ ++ fs) → kSnapshotMeta ∉ fst <$> fs →
  (∀ f, f ∈ done_ → view w (in_dir (snapshot_path_ s) f.1) = Some f.2 ∧ f.1 ≠ kSnapshotMeta) →
  (∀ k, (k <= length (done_ ++ fs))%nat → codes (meta_of (take k (done_ ++ fs)))) →
  meta_stored w (snapshot_path_ s) (meta_of done_) ∨ fs ≠ [] →
  ∃ w', save_files s w fs = (set_meta s (meta_of (done_ ++ fs)), w') ∧ calm w' ∧ wf w' ∧
    (∀ f, f ∈ done_ ++ fs → view w' (in_dir (snapshot_path_ s) f.1) = Some f.2) ∧
    meta_stored w' (snapshot_path_ s) (meta_of (done_ ++ fs)).
Proof.
  revert s w done_. induction fs as [|[n b] fs IH]; intros s w dn Hc W Hm Hnd Hk Hdone Hcodes Hst.
  { exists w. rewrite app_nil_r. cbn. split_and!; try done.
    - rewrite <-Hm. by destruct s.
    - intros f Hf. by apply Hdone.
    - by destruct Hst. }
  assert (n ≠ kSnapshotMeta ∧ kSnapshotMeta ∉ fst <$> fs) as [Hn Hk'].
  { rewrite fmap_cons in Hk. apply not_elem_of_cons in Hk as [? ?]. cbn in *. split; congruence. }
  assert (meta_of (dn ++ [(n, b)]) = meta_ s ++ [mkFileMeta n (Z.of_nat (length b))]) as Hm' by (unfold meta_of in *; by rewrite Hm, fmap_app).
  destruct (save_file_puts s w n b) as (w1 & m & HS & Hc1 & W1 & Hv & HM & _ & He); [done..| |].
  { rewrite <-Hm'. specialize (Hcodes (S (length dn))). rewrite cons_middle, app_assoc in Hcodes.
    rewrite take_app_le in Hcodes by (rewrite length_app; cbn; lia).
    rewrite take_ge in Hcodes by (rewrite length_app; cbn; lia). apply Hcodes. rewrite !length_app. cbn. lia. }
  destruct (IH (set_meta s (meta_of (dn ++ [(n, b)]))) w1 (dn ++ [(n, b)])) as (w' & HF & Hc' & W' & Hv' & HM').
  - done.
  - done.
  - done.
  - by rewrite <-app_assoc.
  - done.
  - intros f [Hf| ->%list_elem_of_singleton]%elem_of_app; [|done]. destruct (Hdone f Hf) as [Hvf Hkf]. split; [|done].
    cbn [snapshot_path_ set_meta]. rewrite He; [done| |by intros ?%in_dir_inj]. intros E%in_dir_inj.
    rewrite fmap_app in Hnd. apply NoDup_app in Hnd as (_ & Hnd & _). apply (Hnd f.1); [apply list_elem_of_fmap; eauto|].
    rewrite E. by left.
  - by rewrite <-app_assoc.
  - left. by rewrite Hm'.
  - exists w'. rewrite <-app_assoc in *. cbn [app] in *. split_and!; try done.
    unfold save_files in *. cbn [foldl fst snd]. rewrite HS, <-Hm'. exact HF.
Qed.
End saving.

(** * Opening a snapshot

    [Open] tests whether a file is there the wrong way round: it empties a file
    that is there and does not make one that is not. *)

Lemma sys_create_present w path i :
  calm w → names w !! path = Some i → sys_create w path = (Some (mkFd i 0), set_inode w i []).
Proof. intros Hc Hn. unfold sys_create. by rewrite ask_calm, Hn. Qed.

(** Files that are there are emptied. *)
Lemma open_files_present path w m :
  calm w → wf w → (∀ f, f ∈ m → is_Some (view w (in_dir path (fm_name f)))) →
  ∃ l w', open_files path w m = (l, w') ∧ calm w' ∧ wf w' ∧ names w' = names w ∧ length l = length m ∧
    (∀ k f, m !! k = Some f → ∃ i, l !! k = Some (Some (mkFd i 0)) ∧ names w !! in_dir path (fm_name f) = Some i) ∧
    (∀ f, f ∈ m → view w' (in_dir path (fm_name f)) = Some []) ∧
    (∀ q, (∀ f, f ∈ m → q ≠ in_dir path (fm_name f)) → view w' q = view w q).
Proof.
  revert w. induction m as [|g m IH]; intros w Hc W Hv.
  { exists [], w. split_and!; try done; intros ? ?%elem_of_nil; done. }
  destruct (Hv g ltac:(by left)) as [b Hb]. pose proof Hb as (i & Hn & Hi)%view_Some.
  cbn [open_files]. rewrite (is_regular_view _ _ _ Hb), (sys_create_present _ _ i) by done.
  pose proof (put_here w _ i [] W Hc Hn) as P.
  destruct (IH (set_inode w i [])) as (l & w' & HO & Hc' & W' & Hn' & Hl & Hfd & Hempty & Helse); [apply P..| |].
  { intros f Hf. destruct (decide (in_dir path (fm_name f) = in_dir path (fm_name g))) as [->|Hne].
    - rewrite (pt_here _ _ _ _ P). eauto.
    - rewrite (pt_else _ _ _ _ P) by done. apply Hv. by right. }
  rewrite HO. exists (Some (mkFd i 0) :: l), w'. split_and!; [done..| |cbn; by rewrite Hl| | |].
  - done.
  - intros [|k] f; cbn; [intros [= ->]; by exists i|]. apply Hfd.
  - intros f [->|Hf]%elem_of_cons; [|by apply Hempty].
    destruct (decide (Exists (λ f', in_dir path (fm_name g) = in_dir path (fm_name f')) m)) as [(f' & Hf' & ->)%Exists_exists|Hne].
    + by apply Hempty.
    + rewrite Helse; [apply P|]. intros f' Hf' E. apply Hne, Exists_exists. eauto.
  - intros q Hq. rewrite Helse by (intros f Hf; apply Hq; by right). apply P, Hq. by left.
Qed.

(** Files that are not there are not made. *)
Lemma open_files_missing path w m :
  calm w → (∀ f, f ∈ m → names w !! in_dir path (fm_name f) = None) →
  ∃ w', open_files path w m = (replicate (length m) None, w').
Proof.
  revert w. induction m as [|g m IH]; intros w Hc Hv; [by exists w|]. cbn [open_files].
  assert (is_regular_file w (in_dir path (fm_name g)) = false) as ->.
  { unfold is_regular_file. rewrite Hv by left. apply bool_decide_eq_false_2. by intros [? ?]. }
  unfold sys_open. rewrite ask_calm, Hv by (done || left).
  destruct (IH (set_errno w ENOENT)) as (w' & HO); [done|intros f Hf; apply Hv; by right|]. rewrite HO. by exists w'.
Qed.

Section open.
Context `{IOBufs} `{Message SnapshotMeta}.

Lemma Snapshot_Open_meta s w fs :
  calm w → wf w → fs ≠ [] → codes (meta_of fs) → kSnapshotMeta ∉ fst <$> fs →
  ∃ w1, (∀ q, q ≠ in_dir (snapshot_path_ s) kSnapshotMeta → view w1 q = view w q) ∧ calm w1 ∧ wf w1 ∧
    Snapshot_Open s w (Some (meta_of fs)) =
      (let '(l, w) := open_files (snapshot_path_ s) w1 (meta_of fs) in (0, set_files (set_meta s (meta_of fs)) (files_ s ++ l), w)).
Proof.
  intros Hc W Hne Hcode Hk. unfold Snapshot_Open. cbv zeta beta.
  destruct (SyncMeta_puts (set_meta s (meta_of fs)) w Hc W Hcode) as (b & w1 & HS & P & _). rewrite HS. exists w1.
  split_and!; [by apply P|apply P..|]. cbn [Z.eqb negb meta_ set_meta snapshot_path_ files_].
  rewrite meta_of_length. destruct fs; [done|]. done.
Qed.

Lemma meta_of_elem fs f : f ∈ meta_of fs → ∃ g, g ∈ fs ∧ f = mkFileMeta g.1 (Z.of_nat (length g.2)).
Proof. unfold meta_of. intros (g & -> & Hg)%list_elem_of_fmap. eauto. Qed.

End open.

(** * What becomes of a snapshot

    Saving and reading a snapshot are exact.  But opening empties the files that
    are there and does not make the others, and a snapshot that was saved and not
    opened never marks its last chunk. *)

(** What the files of a snapshot must be. *)
Definition files_ok `{Message SnapshotMeta} (fs : Files) : Prop :=
  fs ≠ [] ∧ NoDup (fst <$> fs) ∧ (kSnapshotMeta ∉ fst <$> fs) ∧ span fs < 2 ^ 63 ∧ Z.of_nat (length fs) < 2 ^ 31 ∧
  ∀ k, (k <= length fs)%nat → codes (meta_of (take k fs)).

Section theorems.
Context `{IOBufs} `{Message SnapshotMeta}.

Lemma files_ok_codes fs : files_ok fs → codes (meta_of fs).
Proof. intros (_ & _ & _ & _ & _ & Hc). specialize (Hc (length fs) ltac:(lia)). by rewrite firstn_all in Hc. Qed.

Lemma saved_files home index w fs :
  calm w → wf w → files_ok fs →
  ∃ w', save_files (Snapshot_new home index) w fs = (set_meta (Snapshot_new home index) (meta_of fs), w') ∧ calm w' ∧ wf w' ∧
    (∀ f, f ∈ fs → view w' (in_dir (snapshot_path_ (Snapshot_new home index)) f.1) = Some f.2) ∧
    meta_stored w' (snapshot_path_ (Snapshot_new home index)) (meta_of fs).
Proof.
  intros Hc W (Hne & Hnd & Hk & _ & _ & Hcodes).
  apply (save_files_puts (Snapshot_new home index) w [] fs); try done; [|by right].
  by intros f ?%elem_of_nil.
Qed.

Lemma saved_readable w' s fs :
  calm w' → files_ok fs → meta_ s = meta_of fs → file_mapbufs_ s = [] →
  (∀ f, f ∈ fs → view w' (in_dir (snapshot_path_ s) f.1) = Some f.2) → readable (mkProc w' ∅ 0) s fs.
Proof.
  intros Hc (_ & _ & _ & Hs & Hl & _) Hm Hb Hv. constructor; try done; cbn [os maps next_map].
  - intros k f Hf. apply view_Some, Hv. by eapply list_elem_of_lookup_2.
  - intros k a. by rewrite Hb.
  - intros a [? E]. by rewrite lookup_empty in E.
Qed.

(** C26. What is saved is read: files that an application writes through
    [GetWritableFile] are in the snapshot, [Read] at any offset of it returns a
    chunk of at most 32 kilobytes that is the content of the files from that
    offset on, without changing a file, and at the end of the content it fails. *)
Theorem snapshot_saved_read home index w fs off :
  calm w → wf w → files_ok fs → 0 <= off →
  ∃ s w', save_files (Snapshot_new home index) w fs = (s, w') ∧ meta_ s = meta_of fs ∧ Snapshot_Size s = Some (span fs) ∧
    if off <? span fs
    then ∃ c s' p', Snapshot_Read s (mkProc w' ∅ 0) off = Some (0, Some c, s', p') ∧ os p' = w' ∧
           0 < read_count c <= MAX_CHUNK_SIZE ∧
           mapped_bytes p' (chunk_map c) (chunk_off c) (read_count c)
           = Some (take (Z.to_nat (read_count c)) (drop (Z.to_nat off) (content fs)))
    else Snapshot_Read s (mkProc w' ∅ 0) off = Some (-1, None, s, mkProc w' ∅ 0).
Proof.
  intros Hc W Hok Hoff. destruct (saved_files home index w fs Hc W Hok) as (w' & HS & Hc' & _ & Hv & _).
  pose proof (saved_readable w' (set_meta (Snapshot_new home index) (meta_of fs)) fs Hc' Hok eq_refl eq_refl Hv) as R.
  eexists _, w'. split_and!; [done|done| |].
  - unfold Snapshot_Size. cbn [meta_ set_meta]. apply (size_loop_span 0); [lia|apply Hok].
  - destruct (Z.ltb_spec off (span fs)).
    + destruct (Snapshot_Read_chunk _ _ _ off R ltac:(lia)) as (c & bufs & p' & HR & _ & Hos & C).
      exists c. do 2 eexists. split_and!; [done|done|apply C..].
    + by eapply Snapshot_Read_end.
Qed.

(** The snapshot a server has saved cannot be sent to its end: [GetSnapshotChunk]
    gives the chunk of the content at every offset, but [Read] marks a chunk as
    the last one by the number of open files, and a snapshot that was saved has
    none open, so that no chunk is marked and behind the content there is only an
    error. *)
Theorem saved_chunks_unmarked home index w fs r off :
  calm w → wf w → files_ok fs → 0 <= off →
  ∃ s w', save_files (Snapshot_new home index) w fs = (s, w') ∧
    let r := set_last_snapshot r (Some s) in
    if off <? span fs
    then ∃ c r' p', GetSnapshotChunk r (mkProc w' ∅ 0) off = Some (0, Some c, r', p') ∧ last_chunk c = false ∧
           mapped_bytes p' (chunk_map c) (chunk_off c) (read_count c)
           = Some (take (Z.to_nat (read_count c)) (drop (Z.to_nat off) (content fs)))
    else GetSnapshotChunk r (mkProc w' ∅ 0) off = Some (-1, None, r, mkProc w' ∅ 0).
Proof.
  intros Hc W Hok Hoff. destruct (saved_files home index w fs Hc W Hok) as (w' & HS & Hc' & _ & Hv & _).
  pose proof (saved_readable w' (set_meta (Snapshot_new home index) (meta_of fs)) fs Hc' Hok eq_refl eq_refl Hv) as R.
  eexists _, w'. split; [done|]. cbv zeta. unfold GetSnapshotChunk. cbn [last_snapshot_ set_last_snapshot].
  destruct (Z.ltb_spec off (span fs)).
  - destruct (Snapshot_Read_chunk _ _ _ off R ltac:(lia)) as (c & bufs & p' & -> & _ & _ & C).
    exists c. do 2 eexists. split_and!; [done| |apply C]. apply (saved_unmarked (set_meta (Snapshot_new home index) (meta_of fs)) fs off c p'); [apply Hok|done|done].
  - rewrite (Snapshot_Read_end _ _ fs) by done. done.
Qed.

(** C39. Loading a snapshot destroys it: [Open] of the snapshot that was saved
    returns 0 and knows the names and sizes of all files, but every file is empty
    afterwards, and this is what [OnSnapshotLoad] finds. *)
Theorem snapshot_load_empties OnSnapshotLoad home index w fs r m n :
  calm w → wf w → files_ok fs → snapshot_home_ r = home →
  ∃ s w1 s' w2, save_files (Snapshot_new home index) w fs = (s, w1) ∧
    Snapshot_Open (Snapshot_new home index) w1 None = (0, s', w2) ∧ meta_ s' = meta_of fs ∧
    (∀ f, f ∈ fs → view w2 (in_dir (snapshot_path_ s') f.1) = Some []) ∧
    DoLoadSnapshot OnSnapshotLoad r (mkProc w1 m n) index
    = (let '(rc, p) := OnSnapshotLoad s' (mkProc w2 m n) in if 0 =? rc then (Some s', p) else (None, destroy (Some s') p)).
Proof.
  intros Hc W Hok Hr. destruct (saved_files home index w fs Hc W Hok) as (w1 & HS & Hc1 & W1 & Hv & Hst).
  pose proof Hok as (Hne & _ & Hk & _). pose proof Hst as (b & _ & _ & _ & Hb).
  set (path := snapshot_path_ (Snapshot_new home index)) in *.
  destruct (open_files_present path w1 (meta_of fs)) as (l & w2 & HO & _ & _ & _ & _ & _ & Hempty & _); [done|done| |].
  { intros f (g & Hg & ->)%meta_of_elem. cbn [fm_name]. rewrite Hv by done. eauto. }
  assert (Snapshot_Open (Snapshot_new home index) w1 None =
    (0, set_files (set_meta (Snapshot_new home index) (meta_of fs)) l, w2)) as HOpen.
  { unfold Snapshot_Open. cbv zeta beta. unfold snapshot_meta_file. fold path.
    rewrite (is_regular_view _ _ _ Hb), (pb_read_file_stored _ _ _ Hc1 Hst).
    cbn [Z.eqb negb meta_ set_meta snapshot_path_ files_]. fold path. rewrite meta_of_length, HO. by destruct fs. }
  do 4 eexists. split_and!; [exact HS|exact HOpen|done| |].
  - intros f Hf. apply (Hempty (mkFileMeta f.1 (Z.of_nat (length f.2)))). unfold meta_of. apply list_elem_of_fmap. eauto.
  - unfold DoLoadSnapshot. rewrite Hr. cbn [os]. rewrite HOpen. cbn [Z.eqb negb set_os].
    destruct (OnSnapshotLoad _ _) as [[]?]; done.
Qed.

(** A server without the files cannot receive a snapshot: the first message
    opens the snapshot with success, but no file is made, and every chunk is
    refused. *)
Theorem receive_fresh_fails r p index fs off data last :
  calm (os p) → wf (os p) → files_ok fs → 0 <= off →
  (∀ f, f ∈ fs → names (os p) !! in_dir (in_dir (snapshot_home_ r) (to_string index)) f.1 = None) →
  ∃ r' p', RecvSnapshot_open r p 0 index (meta_of fs) = (true, r', p') ∧
    ∃ r'' p'', StoreSnapshotChunk r' p' index off data last = Some (-1, r'', p'') ∧ incoming_snapshot_ r'' = None.
Proof.
  intros Hc W Hok Hoff Hn. pose proof Hok as (Hne & _ & Hk & Hs & _). unfold RecvSnapshot_open. cbn [Z.eqb]. rewrite os_destroy.
  set (s := Snapshot_new (snapshot_home_ r) index).
  destruct (Snapshot_Open_meta s (os p) fs Hc W Hne (files_ok_codes _ Hok) Hk) as (w1 & He & Hc1 & W1 & ->).
  destruct (open_files_missing (snapshot_path_ s) w1 (meta_of fs)) as (w' & ->); [done| |].
  { intros f (g & Hg & ->)%meta_of_elem. cbn [fm_name]. apply view_None; [done|]. rewrite He.
    - unfold view. change (snapshot_path_ s) with (in_dir (snapshot_home_ r) (to_string index)). by rewrite Hn.
    - intros E%in_dir_inj. apply Hk. rewrite <-E. apply list_elem_of_fmap. eauto. }
  change (files_ s) with (@nil (option Fd)). rewrite app_nil_l.
  do 2 eexists. split; [done|]. unfold StoreSnapshotChunk. cbn [incoming_snapshot_ set_incoming index_ set_files set_meta s Snapshot_new].
  rewrite Z.eqb_refl. cbn [negb]. unfold Snapshot_Write, GetFileByOffset. cbn [meta_ files_ set_files set_meta app].
  destruct (decide (off < span fs)) as [Hlt|Hge].
  - destruct (offset_loop_found off 0 0 fs) as (pre & f & post & Hfs & _ & ->); [lia..|]. cbn [mbind option_bind Nat.add].
    rewrite lookup_replicate_2 by (rewrite meta_of_length, Hfs, length_app; cbn; lia). cbn [mbind option_bind Z.eqb negb].
    by do 2 eexists.
  - rewrite offset_loop_none by lia. cbn [mbind option_bind Z.eqb negb]. by do 2 eexists.
Qed.
End theorems.
