(* ===== verification/MraftServerWitness.v ===== *)
(** * MraftServerWitness: servers and snapshots at work *)

From Stdlib Require Import Ascii.
From S2P Require Import Prelude MraftIobuf MraftOs MraftEntry MraftPb MraftSegment MraftSegmentSpec MraftLog MraftNames MraftStore MraftAppend MraftRecovery MraftTruncate MraftTheorems MraftWitness MraftServer MraftCluster MraftServerTheorems MraftSnapshot MraftSnapshotSpec MraftTransfer MraftSnapshotTheorems MraftFrame MraftStart MraftStartSpec.

(** * Servers at work

    A concrete numbering of the types of entries, a coding of the meta data, and
    the theorems on servers applied to small clusters; and a history in which a
    leader and a follower end with different members. *)

(** ** The surroundings *)

Definition type_number (t : LogType) : Z :=
  match t with NORMAL => 1 | ADD_NONVOTING_NODE => 2 | ADD_NODE => 3 | REMOVE_NODE => 4 | NO_OP => 5 | OTHER_TYPE => 6 end.
Definition number_type (z : Z) : LogType :=
  if z =? 1 then NORMAL else if z =? 2 then ADD_NONVOTING_NODE else if z =? 3 then ADD_NODE
  else if z =? 4 then REMOVE_NODE else if z =? 5 then NO_OP else OTHER_TYPE.

#[global] Instance toy_types : LogTypes.
Proof.
  refine {| log_type := number_type; log_type_number := type_number |}.
  - intros []; done.
  - intros []; done.
Defined.

Definition peer_bytes (p : RaftNodePeer) : list Z :=
  le_bytes 8 (peer_id p) ++ le_bytes 8 (port p) ++ le_bytes 8 (Z.of_nat (length (host p))) ++ host p.
Definition read64 (k : nat) (b : list Z) : Z := i64 (le_value (take 8 (drop (8 * k) b))).
Definition bytes_peer (b : list Z) : RaftNodePeer * list Z :=
  let n := Z.to_nat (read64 2 b) in (mkPeer (take n (drop 24 b)) (read64 1 b) (read64 0 b), drop (24 + n) b).
Fixpoint peers_of (fuel : nat) (b : list Z) : list (Z * RaftNodePeer) :=
  match fuel, b with
  | S fuel, _ :: _ => let '(p, r) := bytes_peer (drop 8 b) in (read64 0 b, p) :: peers_of fuel r
  | _, _ => []
  end.

#[global] Instance toy_raft_meta : Message RaftMeta := {|
  SerializeToZeroCopyStream m := Some (
    le_bytes 8 (last_applied_idx m) ++ le_bytes 8 (last_applied_term m) ++ le_bytes 8 (snapshot_last_idx m) ++
    le_bytes 8 (snapshot_last_term m) ++ le_bytes 8 (voted_for m) ++ peer_bytes (self_peer m) ++
    (map_to_list (node_peers m) ≫= λ kp, le_bytes 8 kp.1 ++ peer_bytes kp.2));
  ParseFromZeroCopyStream b :=
    let '(self, r) := bytes_peer (drop 40 b) in
    Some (mkRaftMeta (list_to_map (peers_of (length r) r)) self (read64 0 b) (read64 1 b) (read64 2 b) (read64 3 b) (read64 4 b))
|}.

(** ** A server *)

Definition addr (n id : Z) : RaftNodePeer := mkPeer [49; 48 + n] (8000 + n) id.
Definition fresh40 : list Z := replicate 40 170.
Definition always_ok : LogEntry → Z := λ _, 0.

Definition two_members : RaftMeta := mkRaftMeta {[ 1 := addr 1 1; 2 := addr 2 2 ]} (addr 1 1) 0 3 0 0 0.
Definition on_store (st : Storage) : Server := mkServer "h" RAFT_UP two_members st.
Definition a_server : Server := on_store (new_storage "h/log" empty_world).

Lemma empty_world_wf : wf empty_world.
Proof.
  constructor; cbn.
  - intros a b i E. by rewrite lookup_empty in E.
  - intros a i E. by rewrite lookup_empty in E.
  - intros i [b E]. by rewrite lookup_empty in E.
Qed.

Lemma cfg_change_round_trip_witness :
  (cfg_change_bytes fresh40 (mkPeer [49; 50] 70000 7) ≫= req_peer) = Some (mkPeer [49; 50] (70000 mod 2 ^ 16) 7).
Proof.
  etrans; [apply (cfg_change_round_trip fresh40 (mkPeer [49; 50] 70000 7))|vm_compute; reflexivity].
  - repeat (apply Forall_cons; split; [discriminate|]). apply Forall_nil. exact I.
  - cbn [peer_id]. lia.
Defined.

(** Histories of a leader that can be computed. *)
Inductive Act := Join (peer : RaftNodePeer) | Promote (id : Z) | Remove (peer : RaftNodePeer) | Apply.

Definition removes (e : LogEntry) : bool := match log_type (Type_ e) with REMOVE_NODE => true | _ => false end.

Definition act (careful : bool) (a : Act) (s : Lead) : option Lead :=
  match a with
  | Join peer =>
      if careful && existsb removes (pending s) then None
      else match RecvNodeJoin fresh40 true (leader s) peer with
           | Some (_, _, r', [RecvEntryEvent t b]) => Some (mkLead r' (log_entries s ++ [new_entry s 1 t b]) (n_applied s))
           | _ => None
           end
  | Promote id =>
      if careful && existsb removes (pending s) then None
      else match RaftNodeHasSufficientLogs fresh40 (leader s) id with
           | Some (_, [RecvEntryEvent t b]) => Some (mkLead (leader s) (log_entries s ++ [new_entry s 1 t b]) (n_applied s))
           | _ => None
           end
  | Remove peer =>
      match RemoveNode fresh40 true 0 (leader s) peer with
      | Some (_, [RecvEntryEvent t b]) => Some (mkLead (leader s) (log_entries s ++ [new_entry s 1 t b]) (n_applied s))
      | _ => None
      end
  | Apply =>
      match log_entries s !! n_applied s with
      | Some e =>
          match RaftApplyLog always_ok (leader s) e false (Z.of_nat (n_applied s) + 1) with
          | Some (_, r', _) => Some (mkLead r' (log_entries s) (S (n_applied s)))
          | None => None
          end
      | None => None
      end
  end.

Fixpoint acts (careful : bool) (l : list Act) (s : Lead) : option Lead :=
  match l with [] => Some s | a :: l => s' ← act careful a s; acts careful l s' end.

Definition act_ok (a : Act) : Prop := match a with Join peer => address_ok peer | _ => True end.

Lemma none_removes s : existsb removes (pending s) = false → Forall (λ e, ¬ is_remove e) (pending s).
Proof.
  intros Ec. apply Forall_forall. intros e He Hr. apply Bool.not_true_iff_false in Ec. apply Ec.
  apply existsb_exists. exists e. split; [by apply list_elem_of_In|]. unfold removes. by rewrite Hr.
Qed.

Lemma act_step careful a s s' : act_ok a → act careful a s = Some s' → lead_step always_ok careful s s'.
Proof.
  destruct a as [peer|id|peer|]; cbn [act act_ok]; intros Ha.
  - destruct (careful && _) eqn:Ec; [done|]. destruct (RecvNodeJoin _ _ _ _) as [[[[rc p] r'] ev]|] eqn:E; [|done].
    destruct ev as [|[t b| | | |] [|]]; try done. intros [= <-]. eapply step_join; [exact E|exact Ha|].
    intros ->. by apply none_removes.
  - destruct (careful && _) eqn:Ec; [done|]. destruct (RaftNodeHasSufficientLogs _ _ _) as [[rc ev]|] eqn:E; [|done].
    destruct ev as [|[t b| | | |] [|]]; try done. intros [= <-]. eapply step_promote; [exact E|].
    intros ->. by apply none_removes.
  - destruct (RemoveNode _ _ _ _ _) as [[rc ev]|] eqn:E; [|done].
    destruct ev as [|[t b| | | |] [|]]; try done. intros [= <-]. by eapply step_remove.
  - destruct (log_entries s !! _) as [e|] eqn:E; [|done]. destruct (RaftApplyLog _ _ _ _ _) as [[[rc r'] ev]|] eqn:E2; [|done].
    intros [= <-]. by eapply step_apply.
Qed.

Lemma acts_reach careful l s s' : Forall act_ok l → acts careful l s = Some s' → rtc (lead_step always_ok careful) s s'.
Proof.
  intros Hl. revert s. induction Hl as [|a l Ha Hl IH]; intros s; cbn [acts]; [intros [= <-]; constructor|].
  destruct (act careful a s) as [s1|] eqn:E; [|done]. cbn [mbind option_bind]. intros HR.
  eapply rtc_l; [by eapply act_step|by apply IH].
Qed.

(** The founder of a cluster, with the entry that adds it. *)
Definition founder : Server :=
  mkServer "h" RAFT_UP (mkRaftMeta {[ 1 := addr 1 1 ]} (addr 1 1) 0 0 0 0 0) (new_storage "h/log" empty_world).
Definition founding_entry : LogEntry := Create_entry 1 0 (log_type_number ADD_NODE) (default [] (cfg_change_bytes fresh40 (addr 1 1))).
Definition founding : Lead := mkLead founder [founding_entry] 0.

Lemma founding_founded : founded (addr 1 1) founding.
Proof.
  split_and!; [split; [repeat constructor; cbn; lia|cbn; lia]|reflexivity|reflexivity|].
  exists [], founding_entry, fresh40. split_and!; [reflexivity|constructor|reflexivity|reflexivity].
Qed.

(** Two nodes join, one becomes a voting member, the other is removed. *)
Definition some_acts : list Act :=
  [Apply; Join (addr 2 0); Join (addr 3 0); Apply; Promote 2; Remove (addr 3 3); Apply; Apply; Apply].

Lemma some_history : ∃ s, rtc (lead_step always_ok true) founding s ∧ length (log_entries s) = 5%nat.
Proof.
  assert ((λ s, length (log_entries s)) <$> acts true some_acts founding = Some 5%nat) as E by (vm_compute; reflexivity).
  apply fmap_Some in E as (s & E & Hl). exists s. split; [|done]. eapply acts_reach; [|exact E]. repeat constructor; cbn; lia.
Qed.


Definition new_lead : Lead := mkLead a_server [] 0.

(** Two removals of one node can split a cluster: while the second one is
    pending, the identifier of the removed node is given to two nodes that join
    one after the other.  The leader, which enters a node when it joins, ends with
    the second node under it, and a follower, which applies the log, with the
    first. *)
Theorem double_removal_diverges :
  ∃ s f', rtc (lead_step always_ok false) new_lead s ∧ pending s = [] ∧
    apply_all always_ok a_server 1 (log_entries s) = Some f' ∧
    node_peers (raft_meta_ (leader s)) !! 2 = Some (addr 4 2) ∧ node_peers (raft_meta_ f') !! 2 = Some (addr 3 2).
Proof.
  pose (l := [Remove (addr 2 2); Remove (addr 2 2); Apply; Join (addr 3 0); Apply; Join (addr 4 0); Apply; Apply]).
  assert ((s ← acts false l new_lead; f ← apply_all always_ok a_server 1 (log_entries s);
           Some (length (pending s), table s !! 2, node_peers (raft_meta_ f) !! 2)) = Some (0%nat, Some (addr 4 2), Some (addr 3 2))) as E
    by (vm_compute; reflexivity).
  apply bind_Some in E as (s & E & (f & Ef & [= Hp Hl Hf])%bind_Some). exists s, f.
  split_and!; [|by apply nil_length_inv|exact Ef|exact Hl|exact Hf].
  eapply acts_reach; [|exact E]. repeat constructor; cbn; lia.
Qed.

(** ** Votes and terms *)

Lemma meta_codes m : (length (default [] (SerializeToZeroCopyStream m)) <=? 2 * kBlockSize)%nat = true →
  ParseFromZeroCopyStream (default [] (SerializeToZeroCopyStream m)) = Some m → codes m.
Proof. intros Hl Hp. eexists. split; [reflexivity|]. split; [apply Nat.leb_le; exact Hl|exact Hp]. Qed.

Lemma vote_persists_witness :
  ∃ rv, PersistVote a_server 2 = (0, rv) ∧
    ∃ r2', Raft_LoadMeta rv = (0, false, r2') ∧ LoadCommitLog_term r2' = (3, Some 2).
Proof.
  destruct (vote_persists a_server 2 4 (snd (PersistVote a_server 2)) a_server eq_refl empty_world_wf ltac:(lia) ltac:(discriminate))
    as (rv & rt & HV & _ & HL & _).
  - apply meta_codes; vm_compute; reflexivity.
  - apply meta_codes; vm_compute; reflexivity.
  - reflexivity.
  - reflexivity.
  - exists rv. split; [exact HV|]. rewrite HV in HL. cbn [snd] in HL. destruct (HL eq_refl) as (r2' & H1 & _ & H2).
    exists r2'. split; [exact H1|exact H2].
Defined.

Definition noop (term : Z) : LogEntry := mkEntry 1 term 5 [].

Lemma term_goes_back_witness :
  ∃ ra rb rc rd ev, PersistTerm a_server 7 2 = (0, ra) ∧ RaftApplyLog always_ok ra (noop 3) false 1 = Some (rb, rc, ev) ∧
    PersistVote rc 2 = (0, rd) ∧ ∃ r3, Raft_LoadMeta rd = (0, false, r3) ∧ LoadCommitLog_term r3 = (3, Some 2).
Proof.
  pose (run := match PersistTerm a_server 7 2 with (_, ra) =>
                 match RaftApplyLog always_ok ra (noop 3) false 1 with
                 | Some (_, rc, _) => snd (PersistVote rc 2) | None => a_server end end).
  destruct (term_goes_back always_ok a_server 7 2 2 (noop 3) false 1 run eq_refl empty_world_wf eq_refl ltac:(lia) (eq_refl : @log_type toy_types (Type_ (noop 3)) = NO_OP) ltac:(cbn; lia))
    as (ra & rb & rc & rd & ev & H1 & H2 & H3 & HL).
  - apply meta_codes; vm_compute; reflexivity.
  - apply meta_codes; vm_compute; reflexivity.
  - vm_compute. reflexivity.
  - exists ra, rb, rc, rd, ev. split; [exact H1|]. split; [exact H2|]. split; [exact H3|].
    assert (run = rd) as E by (unfold run; rewrite H1, H2, H3; reflexivity). rewrite E in HL.
    destruct (HL eq_refl) as (r3 & H4 & H5 & _). exists r3. split; [exact H4|exact H5].
Defined.

(** ** Applying and truncating *)

Lemma st_full_from : cached_from st_full 1.
Proof.
  unfold cached_from. rewrite st_full_cache. intros [|[|[|k]]] e E; cbn in E; try (injection E as <-; reflexivity). discriminate.
Qed.

Lemma apply_then_pop_witness :
  ∃ r', apply_all always_ok (on_store st_full) 1 [some_entry 1 1] = Some r' ∧
  ∃ st', raftLogPop (S (length (latest_entries_cache_ (raft_log_store_ r')))) 2 (raft_log_store_ r') = Some (0, st') ∧
    represents st' 1 [some_entry 1 1].
Proof.
  destruct st_full_represents as (Hc & R & _).
  apply (apply_then_pop always_ok (on_store st_full) 1 three 1 1 (node_peers two_members));
    [exact Hc|exact R|exact st_full_from|lia|cbn [raft_log_store_ on_store]; rewrite st_full_last; lia|reflexivity].
Defined.

(** ** Starting *)

(** A library that reads the log through its functions and appends a no-op. *)
#[global] Instance toy_library : Library := {|
  raft_add_node _ _ _ := true;
  raft_become_leader st := snd <$> append_all 100 [noop 1] st;
  raft_apply_all st := match GetBatchEntries 1 (Z.to_nat (last_log_index_ st)) st with Some (es, _) => es | None => [] end;
  term_vote := -1;
  OnSendNodeJoin _ := None;
  OnApplyLog := always_ok
|}.

#[global] Instance toy_library_laws : LibraryLaws 100.
Proof.
  constructor.
  - done.
  - intros st es Hc R Hco. cbn [raft_apply_all toy_library]. rewrite (GetBatch_represents st 1 es 1) by done.
    pose proof (represents_next _ _ _ R) as Hn. cbn [Z.sub Z.add Z.opp Z.pos_sub Z.to_nat]. rewrite drop_0, take_ge by lia. done.
  - intros st. exists [noop 1]. split_and!; [|by apply Forall_singleton|done|done]. apply Forall_singleton.
    split_and!; [unfold is_i64; cbn; lia|unfold is_u8; cbn; lia|unfold DataLength; cbn; lia].
Defined.

Definition new_cluster : RaftOptions := mkOptions "h" (addr 1 0) [addr 2 0; addr 1 0] 1.
Definition same_cluster : RaftOptions := mkOptions "h" (addr 1 0) [addr 2 0; addr 1 0] 0.

Lemma addr_least : addr 1 0 ∈ [addr 2 0; addr 1 0] ∧ ∀ q, q ∈ [addr 2 0; addr 1 0] → peer_lt q (addr 1 0) = false.
Proof.
  split; [right; left|]. intros q [->|[->|Hq]%elem_of_cons]%elem_of_cons; [reflexivity..|]. by apply elem_of_nil in Hq.
Qed.
Lemma addr_ok : address_ok (addr 1 0).
Proof. split; [|cbn; lia]. cbn. repeat constructor; lia. Qed.
Lemma first_codes : codes (first_meta (addr 1 0)).
Proof. apply meta_codes; vm_compute; reflexivity. Qed.

Lemma first_start_restarts_witness :
  ∃ r1 r2, Raft_Init 100 fresh40 new_cluster empty_world = Some (0, r1, None) ∧
    Raft_Init 100 [] same_cluster (server_world r1) = Some (0, r2, Some (0, None)) ∧ raft_meta_ r2 = first_meta (addr 1 0).
Proof.
  destruct (first_start_restarts 100 fresh40 new_cluster empty_world [] same_cluster) as (r1 & r2 & es & H1 & _ & _ & H2 & _ & H3 & _);
    [reflexivity|exact empty_world_wf|lia|reflexivity|reflexivity|apply addr_least|apply addr_least|exact addr_ok|cbn; unfold kMaxHostLen; lia
    |reflexivity|exact first_codes|reflexivity|reflexivity|reflexivity|].
  exists r1, r2. split; [exact H1|]. split; [exact H2|exact H3].
Defined.

(** The meta data and the world after the first start and a vote for itself. *)
Definition voted_meta : RaftMeta := set_vote (first_meta (addr 1 0)) 1.
Definition after_vote : World :=
  match Raft_Init 100 fresh40 new_cluster empty_world with
  | Some (_, r, _) => server_world (PersistVote r 1).2
  | None => empty_world
  end.

Lemma voted_codes : codes voted_meta.
Proof. apply meta_codes; vm_compute; reflexivity. Qed.

Lemma after_vote_files :
  ∃ es, calm after_vote ∧ wf after_vote ∧ on_disk after_vote (in_dir "h" "log") 1 es [] ∧ es ≠ [] ∧
    stored after_vote (in_dir "h" kRaftMeta) voted_meta ∧ Forall decodes es ∧
    members ∅ es = Some {[ 1 := first_self (addr 1 0) ]}.
Proof.
  destruct (first_start 100 fresh40 new_cluster empty_world) as ([h s m st] & es & HI & _ & Hmeta & Hc & W & R & Hp & _ & Hne & Hd & Hm & _);
    [reflexivity|exact empty_world_wf|lia|reflexivity|reflexivity|apply addr_least|apply addr_least|exact addr_ok|cbn; unfold kMaxHostLen; lia
    |reflexivity|exact first_codes|].
  cbn in Hmeta, Hc, W, R, Hp. subst m.
  assert (h = "h"%string) as -> by (pose proof (f_equal (λ x, home <$> (fst <$> x) ≫= λ y, Some y.2) HI) as E; vm_compute in E; congruence).
  destruct (save_beside "h" s voted_meta st es Hc W Hp R voted_codes) as (r' & HS & _ & _ & _ & Hc' & W' & R' & Hp' & Hst & _).
  assert (after_vote = server_world r') as ->.
  { unfold after_vote. rewrite HI. unfold PersistVote, set_raft_meta. cbn [home state_ raft_meta_ raft_log_store_].
    rewrite i32_id by lia. fold voted_meta. rewrite HS. reflexivity. }
  apply represents_on_disk in R'. rewrite Hp' in R'.
  exists es. refine (conj Hc' (conj W' (conj R' (conj Hne (conj Hst (conj Hd Hm)))))).
Qed.


(** A directory with another file, and a call that fails on the way. *)
Definition other_file : World := mkWorld {[ "x"%string := 0%nat ]} {[ 0%nat := [1; 2] ]} 1 [Done; Done; Done; Failed 5 2] 0.

Lemma other_file_wf : wf other_file.
Proof.
  constructor; cbn.
  - intros a b i [<- _]%lookup_singleton_Some [<- _]%lookup_singleton_Some. done.
  - intros a i [_ <-]%lookup_singleton_Some. eexists. apply lookup_singleton_eq.
  - intros i [b [<- _]%lookup_singleton_Some]. lia.
Qed.

Lemma log_frame_witness :
  ∃ st, (Init 100;; run_ops 100 [OpAppend (noop 1); OpAppend (noop 1); OpGet 1]) (new_storage "h/log" other_file) = Some (tt, st) ∧
    view (world st) "x" = Some [1; 2].
Proof.
  assert (match (Init 100;; run_ops 100 [OpAppend (noop 1); OpAppend (noop 1); OpGet 1]) (new_storage "h/log" other_file) with
          | Some _ => true | None => false end = true) as Hrun by (vm_compute; reflexivity).
  destruct ((Init 100;; run_ops 100 [OpAppend (noop 1); OpAppend (noop 1); OpGet 1]) (new_storage "h/log" other_file))
    as [[[] st]|] eqn:E; [|discriminate].
  exists st. split; [reflexivity|]. destruct (log_frame "h/log" 100 other_file _ st other_file_wf E) as [_ Hv].
  rewrite Hv; [reflexivity|]. intros [n En]. vm_compute in En. discriminate.
Defined.

(** * Snapshots at work

    A concrete coding of the meta data, a snapshot of two files, and the theorems
    on snapshots and on the streams applied to it. *)

(** ** A coding of the messages *)

Definition name_bytes (s : string) : list Z := (λ c, Z.of_N (N_of_ascii c)) <$> String.list_ascii_of_string s.
Definition bytes_name (b : list Z) : string := String.string_of_list_ascii ((λ z, ascii_of_N (Z.to_N z)) <$> b).

Definition file_meta_bytes (f : SnapshotFileMeta) : list Z :=
  Z.of_nat (length (name_bytes (fm_name f))) :: name_bytes (fm_name f) ++ le_bytes 8 (fm_size f).
Fixpoint file_metas (fuel : nat) (b : list Z) : option SnapshotMeta :=
  match fuel, b with
  | _, [] => Some []
  | S fuel, n :: b =>
      let k := Z.to_nat n in
      rest ← file_metas fuel (drop (k + 8) b);
      Some (mkFileMeta (bytes_name (take k b)) (le_value (take 8 (drop k b))) :: rest)
  | O, _ => None
  end.

#[global] Instance exact_bufs : IOBufs := {| create_capacity n := n; create_capacity_ge n := le_n n |}.

#[global] Instance toy_meta : Message SnapshotMeta := {|
  SerializeToZeroCopyStream m := Some (m ≫= file_meta_bytes);
  ParseFromZeroCopyStream b := file_metas (length b) b
|}.

(** ** Two files *)

Definition two : Files := [("a"%string, [1; 2; 3]); ("b"%string, [4; 5])].
Definition nothing : World := mkWorld ∅ ∅ 0 [] 0.

Lemma nothing_wf : wf nothing.
Proof.
  constructor; cbn.
  - intros a b i E. by rewrite lookup_empty in E.
  - intros a i E. by rewrite lookup_empty in E.
  - intros i [b E]. by rewrite lookup_empty in E.
Qed.

Lemma two_ok : files_ok two.
Proof.
  split_and!; [done| | |by vm_compute|by vm_compute|].
  - repeat constructor; set_solver.
  - set_solver.
  - intros k Hk. destruct k as [|[|[|k]]]; [..|cbn in Hk; lia]; (eexists; split_and!; [reflexivity|apply Nat.leb_le; by vm_compute|by vm_compute]).
Qed.
Lemma snapshot_saved_read_witness :
  ∃ s w', save_files (Snapshot_new "h" 1) nothing two = (s, w') ∧
    ∃ c s' p', Snapshot_Read s (mkProc w' ∅ 0) 1 = Some (0, Some c, s', p') ∧
      mapped_bytes p' (chunk_map c) (chunk_off c) (read_count c) = Some (take (Z.to_nat (read_count c)) [2; 3; 4; 5]).
Proof.
  destruct (snapshot_saved_read "h" 1 nothing two 1 eq_refl nothing_wf two_ok ltac:(lia)) as (s & w' & HS & _ & _ & HR).
  destruct HR as (c & s' & p' & HR & _ & _ & HD). exists s, w'. split; [exact HS|]. exists c, s', p'. split; [exact HR|exact HD].
Defined.

Lemma saved_chunks_unmarked_witness :
  ∃ s w', save_files (Snapshot_new "h" 1) nothing two = (s, w') ∧
    ∃ c r' p', GetSnapshotChunk (mkRaft "h" (Some s) None) (mkProc w' ∅ 0) 3 = Some (0, Some c, r', p') ∧ last_chunk c = false.
Proof.
  destruct (saved_chunks_unmarked "h" 1 nothing two (mkRaft "h" None None) 3 eq_refl nothing_wf two_ok ltac:(lia))
    as (s & w' & HS & c & r' & p' & HG & HL & _).
  exists s, w'. split; [exact HS|]. exists c, r', p'. split; [exact HG|exact HL].
Defined.

Lemma snapshot_load_empties_witness :
  ∃ s w1 s' w2, save_files (Snapshot_new "h" 1) nothing two = (s, w1) ∧
    Snapshot_Open (Snapshot_new "h" 1) w1 None = (0, s', w2) ∧ meta_ s' = meta_of two ∧
    (∀ f, f ∈ two → view w2 (in_dir (snapshot_path_ s') f.1) = Some []).
Proof.
  destruct (snapshot_load_empties (λ _ p, (0, p)) "h" 1 nothing two (mkRaft "h" None None) ∅ 0 eq_refl nothing_wf two_ok eq_refl)
    as (s & w1 & s' & w2 & H1 & H2 & H3 & H4 & _).
  exists s, w1, s', w2. split; [exact H1|]. split; [exact H2|]. split; [exact H3|exact H4].
Defined.

Lemma receive_fresh_fails_witness :
  ∃ r' p', RecvSnapshot_open (mkRaft "g" None None) (mkProc nothing ∅ 0) 0 1 (meta_of two) = (true, r', p') ∧
    ∃ r'' p'', StoreSnapshotChunk r' p' 1 0 [1; 2; 3] false = Some (-1, r'', p'') ∧ incoming_snapshot_ r'' = None.
Proof.
  apply (receive_fresh_fails (mkRaft "g" None None) (mkProc nothing ∅ 0) 1 two 0 [1; 2; 3] false);
    [reflexivity|exact nothing_wf|exact two_ok|lia|intros f _; apply lookup_empty].
Defined.

(** ** Streams *)

(** A message of one byte more than two blocks. *)
Definition long_message : list Z := replicate (2 * kBlockSize) 1 ++ [2].

Lemma stream_order_witness :
  stream_bytes [1; 2; 3] = [1; 2; 3] ∧
  stream_bytes long_message = replicate kBlockSize 1 ++ [2] ++ replicate kBlockSize 1.
Proof.
  split.
  - apply (proj1 (proj2 (stream_order [1; 2; 3]))). apply Nat.leb_le. vm_compute. reflexivity.
  - rewrite (proj2 (proj2 (stream_order long_message))); [vm_compute; reflexivity|].
    split; apply Nat.ltb_lt; vm_compute; reflexivity.
Defined.

Lemma input_BackUp_first_witness :
  ∃ s1 s2 s3, InStream_Next 1 (mkIn [mkIOBuf 0 [1; 2; 3] 0 3] 0) = Some (Some [1; 2; 3], s1) ∧
    InStream_BackUp 1 s1 1 = Some s2 ∧ InStream_Next 1 s2 = Some (Some [1], s3).
Proof.
  destruct (input_BackUp_first (mkIOBuf 0 [1; 2; 3] 0 3) [] 1 0 1) as (s1 & s2 & s3 & H1 & H2 & _ & H3);
    [cbn; lia|cbn; lia|lia|].
  exists s1, s2, s3. split; [exact H1|]. split; [exact H2|exact H3].
Defined.
